(* ===== verification/_CoqProject ===== *)
-Q . S2P
Prelude.v
LabGob.v
Persister.v
Raft.v
RaftRPC.v
RaftNode.v
RaftSystem.v
RaftSteps.v
RaftRaces.v
RaftLocal.v
RaftApply.v
RaftElection.v
RaftLogs.v
RaftCommit.v
RaftSafety.v
RaftPanic.v
RaftProgress.v
RaftReplicate.v
RaftCommands.v
RaftTimers.v
MapReduce.v
MRSchedule.v
MRRpc.v
LabRpc.v
RaftNet.v
Config.v
ConfigNames.v
RaftChecks.v
