(* ===== verification/Prelude.v ===== *)
(** * A verification development for the MIT 6.824 labs repository

    The repository holds a Raft library (src/raft), the simulated network it is
    tested on (src/labrpc), the encoder both use (src/labgob) and a MapReduce
    library (src/mapreduce).  This development models the Go code as executable
    definitions and proves what makes it correct, and where the code does not do
    what it means to, it proves that with a concrete execution.

    ** Outcomes and effects

    A piece of Go code is a function into [res] (below): a normal return, a
    run-time panic, log.Fatal, or [Blocked] when the code cannot go on now.
    Code that changes a state [S] has type [ST S A], a state monad over [res].
    A critical section (the code between Lock and Unlock of rf.mu) is one such
    function and one step of the model; code that releases the lock in the
    middle is split into several sections with the goroutine's local variables
    kept between them, so that everything else can happen in the gap.  The
    clock, random numbers and the scheduler's choices are arguments of the steps.

    ** Files

    - LabGob: src/labgob/labgob.go.  A universe [GoType] of Go types with their
      values; Encode, Decode, Register, and the two checkers (checkType warns
      about lower-case fields, checkDefault about decoding over non-default
      values).  gob itself is the structural encoding that drops zero fields.
      The class [GoRepr] links a Rocq record to its Go struct.
    - Persister: src/raft/persister.go.
    - Raft: struct Raft, GetState, persist, readPersist, switchTo,
      resetElectionTimer, Make, Kill of src/raft/raft.go.  Integers are the Z of
      Go's 64-bit int; [terms_fit] in RaftSystem says that terms do not overflow.
    - RaftRPC: the handlers AppendEntries and RequestVote, and getNextIndex.
    - RaftNode: the sections of Start, broadcastAppendEntries,
      broadcastHeartbeat, startElection and applyEntries.
    - RaftSystem: the cluster.  [World] has the servers, the goroutines
      ([Goroutine] says at which section a goroutine is, with its local
      variables), the variables that goroutines of one broadcast or election
      share, and what was sent on applyCh.  [exec] runs one [Event]: a section of
      a goroutine, the delivery or the loss of a request or a reply, an expiry of
      a timer, a call of Start, a write into the array a request shares with the
      log, or a crash with restart (config.go's crash1 and start1).  A crash can
      also cut off a handler after its first call of persist ([interrupted]); the
      other sections persist at most once, so that a crash inside one of them is
      a crash before or after it.
    - RaftSteps: the same as a step relation [wstep], for proofs by cases.
    - RaftRaces: executions in which the gaps between sections do harm.
    - RaftLocal, RaftApply: invariants of all executions.
    - RaftElection, RaftLogs, RaftCommit, RaftSafety: invariants of isolated
      executions (votes, the ledger of leaders' logs, what majorities have held,
      the counts of broadcasts and the commit indices).
    - RaftPanic: the indices of isolated executions stay in range.
    - RaftProgress: a schedule that elects a leader from any reachable state.
    - RaftReplicate: a schedule that commits and applies a command.  It also has
      the invariants it needs: a goroutine that waits on applyCond is woken by
      the next Broadcast, and what a server has applied stays in its log.
    - RaftCommands: where the commands in logs, requests and applyCh come from.
    - RaftTimers: electionTimeoutTick, heartbeatPeriodTick and eventLoop, with
      the mutex, the condition variables and the channels in the state.
    - MapReduce: common.go, common_map.go, common_reduce.go,
      master_splitmerge.go and the sequential part of master.go.  The file system
      is a map from names to contents; mapF and reduceF are parameters.
    - MRSchedule: schedule.go, worker.go and the distributed part of master.go,
      as steps of the master, the workers and the calls.
    - MRRpc: what is behind those calls: master_rpc.go, call of common_rpc.go and
      RunWorker of worker.go, with sockets, connections and the goroutines that
      serve them.
    - LabRpc: src/labrpc/labrpc.go, one step per section of Call, ProcessReq and
      the goroutine that runs a handler; its interface is the class [RpcSpec]
      (signatures and handlers of remote methods) and its specification the
      abstract network [astep].
    - RaftNet: the Raft service as an instance of [RpcSpec], and the cluster of
      RaftSystem as a follower of that network.
    - Config: the harness of src/raft/config.go over the network of RaftNet:
      make_config, start1, crash1, connect, disconnect, the switches of the
      network, checkTimeout, begin, end and cleanup; [texec] is one operation of
      a test or one step of the network.
    - ConfigNames: randstring and makeSeed of config.go, with the base64 of the Go
      library; the bytes of crypto/rand are arguments.
    - RaftChecks: the goroutine of start1 that reads applyCh ([read_msg]), and the
      checks nCommitted, checkOneLeader, checkTerms, checkNoLeader, wait and one.
      [HWorld] is the cluster with its readers.  What a check reads of the cluster
      while it runs is an argument of it, and its theorem is about readings made
      at successive moments of one execution.

    ** What is proved

    Of the pieces: AppendEntries and RequestVote on every branch and against the
    rules of the Raft paper; the bound of getNextIndex; the commit rule of a
    leader; Start; the loop of one sender converges; persist and readPersist,
    and encode and decode, are round trips; checkDefault is sound.

    Of the cluster, under every interleaving with losses, delays, reorderings
    and crashes: servers stay well-formed and no request in flight makes a
    handler panic; a crashed server comes back with its term, vote and log,
    or with those that the handler it was in had saved;
    applyCh carries 1, 2, 3, ... in order; every command that is applied was
    given to Start; with two or more servers some continuation elects a leader of
    a new term (a single server never becomes one).  The safety properties of Raft
    do not hold under every interleaving: RaftRaces has the executions (two
    leaders of one term, a term that decreases, two servers that apply different
    commands at one index, a request with an entry of the future, a broadcast
    whose index lies beyond the log, a restart that loses the log because Make
    starts its goroutines before it reads it).  All of them use the gap between a section
    and the next one that relies on what it saw.  An execution is isolated when no
    server changes its term or role while one of its goroutines is in such a gap;
    in isolated executions, still with losses, reorderings, writes into shared
    arrays and crashes, Election Safety, Log Matching, Leader Completeness and
    State Machine Safety are proved, and no step panics: every index and slice
    expression is in range.  From every state of an isolated execution two or more
    servers can go on, without further failures, to elect a leader that takes a
    command, brings all logs up to date, commits the command and applies it.

    Of the timers: nothing is lost or invented between the ticks and the event
    loop; but a server can deadlock, and a candidate can lose its election timer.

    Of the network: every execution of labrpc is one of the abstract network
    (at-most-once execution, replies as made, calls that fail may still be
    executed), a call returns within six sections of its own goroutines, the
    service offers exactly the two handlers, and every move of the abstract
    network is a step of the cluster.

    Of the harness: make_config returns exactly if the first 120 bits drawn for the
    names of the ends are distinct; then every two servers can reach each other, and
    whatever a test does then, a request reaches the server it is meant for and
    only between connected servers; start1 replaces a server by one with a copy
    of its persisted state and cuts every way to the old one.  In isolated
    executions no reader of applyCh reports an error; one returns an index at
    which its command is committed, and checkOneLeader the leader of the newest
    term that is seen to have one; nCommitted, wait and checkTerms report what
    they claim to.

    Of MapReduce: a sequential job lists every key once and in order, with the
    reduction of all its values; a distributed job has the same output whatever
    the order of its steps, if it ends and no call fails at the very end; a phase
    terminates; schedule accounts for every task; a worker gets one task at a
    time; CleanupFiles restores the file system.  A worker process behaves like
    the worker of the scheduler's model and serves exactly its quota, and the
    registration server stops cleanly; but a worker that is told to shut down
    waits for one more connection.  Executions show a task that is
    lost, a reduce phase that panics, and keys that JSON changes.

    ** Bounds and fuel

    Loops over an index run on fuel equal to the length they scan (plus one
    where the code tests the end of the loop separately); a lemma next to each
    such loop shows that this is enough.  [retryLoop] takes nextIndex[i] rounds
    of fuel; its theorem is that it converges with that much.  The cluster, the
    network and the scheduler have no fuel: an execution is a list of events.

    ** Not modelled

    - Slice capacities: append always copies, except for the one array a request
      shares with the leader's log, which is a step of its own; a slice
      expression is checked against the length, where Go allows the capacity.
      (In isolated executions both checks succeed, by RaftPanic.)
    - In the cluster Make is one step, with its last section; what a goroutine can
      do before that section is shown on its own ([Make_race_forgets]).
    - RaftStateSize and SnapshotSize (sizes in bytes), and log output.
    - Sleeps and delays: a step may happen at any time.
    - File-system errors other than a missing file; calls of a map phase that
      outlive it; errors of Listen; processes that are killed.
    - The quality of the random numbers: what crypto/rand and math/rand return is
      any value of the right type.  The tests themselves.

    This file holds what the others share: outcomes, the state monad, slices and
    indexing with Go's bounds checks, and lemmas about them. *)

From Stdlib Require Export ZArith Lia.
From stdpp Require Export base tactics numbers option list fin_maps gmap strings.

Open Scope Z_scope.

(** ** The outcome of a piece of Go code

    [Ok] is a normal return, [Panic] a run-time panic (index or slice bounds
    out of range), [Fatal] a call of [log.Fatal], and [Blocked] says that the
    piece of code cannot run now (a receive on an empty channel, a goroutine
    that does not exist, ...). *)

Inductive res (A : Type) : Type :=
  | Ok (a : A)
  | Panic
  | Fatal
  | Blocked.
Arguments Ok {A} _.
Arguments Panic {A}.
Arguments Fatal {A}.
Arguments Blocked {A}.

#[export] Instance res_ret : MRet res := fun A a => Ok a.
#[export] Instance res_bind : MBind res := fun A B f m =>
  match m with
  | Ok a => f a
  | Panic => Panic
  | Fatal => Fatal
  | Blocked => Blocked
  end.

(** The wrapped [int] of a 64-bit Go platform. *)
Definition MaxInt : Z := 2 ^ 63 - 1.
Definition MinInt : Z := - 2 ^ 63.
Definition wrap64 (z : Z) : Z := (z + 2 ^ 63) `mod` 2 ^ 64 - 2 ^ 63.

(** ** Go slices

    A slice is the list of its elements.  Reading [l[i]] panics outside
    [0, len l); [l[lo:hi]] panics unless [0 <= lo <= hi <= len l].  (Go checks
    [hi] against the capacity instead of the length; no slice expression of
    the modelled code is meant to reach past the length.) *)

Definition len {A} (l : list A) : Z := Z.of_nat (length l).

Definition idx {A} (l : list A) (i : Z) : res A :=
  if decide (i < 0) then Panic
  else match l !! Z.to_nat i with Some x => Ok x | None => Panic end.

Definition slice {A} (l : list A) (lo hi : Z) : res (list A) :=
  if decide (0 <= lo /\ lo <= hi /\ hi <= len l)
  then Ok (take (Z.to_nat (hi - lo)) (drop (Z.to_nat lo) l))
  else Panic.

(** [l[i] = x] *)
Definition store {A} (l : list A) (i : Z) (x : A) : res (list A) :=
  if decide (0 <= i < len l) then Ok (<[Z.to_nat i := x]> l) else Panic.

(** ** State passing with failure

    The code that runs under one critical section of a mutex is a function
    of the protected state [S]: it may fail, and otherwise returns a result
    and the new state. *)

Definition ST (S A : Type) : Type := S -> res (A * S).

#[export] Instance st_ret {S} : MRet (ST S) := fun A a s => Ok (a, s).
#[export] Instance st_bind {S} : MBind (ST S) := fun A B f m s =>
  match m s with
  | Ok (a, s') => f a s'
  | Panic => Panic
  | Fatal => Fatal
  | Blocked => Blocked
  end.

Definition gets {S A} (f : S -> A) : ST S A := fun s => Ok (f s, s).
Definition modify {S} (f : S -> S) : ST S unit := fun s => Ok (tt, f s).
Definition lift {S A} (r : res A) : ST S A := fun s => a ← r; Ok (a, s).
Definition when {S} (b : bool) (m : ST S unit) : ST S unit :=
  if b then m else mret tt.

(** [x <- m ;; k] in the scope of the Go models. *)
Declare Scope go_scope.
Delimit Scope go_scope with go.
Notation "x <- m ;; k" := (st_bind _ _ (fun x => k) m)
  (at level 100, m at next level, right associativity) : go_scope.
Notation "m ;;; k" := (st_bind _ _ (fun _ => k) m)
  (at level 100, right associativity) : go_scope.
Open Scope go_scope.

(** ** Lemmas on outcomes and slices *)

Lemma res_bind_Ok {A B} (m : res A) (f : A -> res B) b :
  mbind f m = Ok b <-> exists a, m = Ok a /\ f a = Ok b.
Proof. destruct m; unfold mbind, res_bind; naive_solver. Qed.

Lemma st_bind_Ok {S A B} (m : ST S A) (f : A -> ST S B) s r :
  st_bind A B f m s = Ok r <-> exists a s', m s = Ok (a, s') /\ f a s' = Ok r.
Proof. unfold st_bind. destruct (m s) as [[a s']| | |]; naive_solver. Qed.

Lemma len_nonneg {A} (l : list A) : 0 <= len l.
Proof. unfold len; lia. Qed.

Lemma len_app {A} (l k : list A) : len (l ++ k) = len l + len k.
Proof. unfold len. rewrite length_app. lia. Qed.

Lemma len_nil {A} : len (@nil A) = 0.
Proof. reflexivity. Qed.

Lemma len_cons {A} (x : A) l : len (x :: l) = 1 + len l.
Proof. unfold len; cbn [length]. lia. Qed.

Lemma idx_Ok {A} (l : list A) i x :
  idx l i = Ok x <-> 0 <= i /\ l !! Z.to_nat i = Some x.
Proof.
  unfold idx. case_decide; [split; [done | lia] |].
  destruct (l !! Z.to_nat i) eqn:E; naive_solver lia.
Qed.

Lemma idx_Ok_lt {A} (l : list A) i x : idx l i = Ok x -> 0 <= i < len l.
Proof.
  rewrite idx_Ok. intros [? H%lookup_lt_Some]. unfold len. lia.
Qed.

Lemma idx_in_range {A} (l : list A) i :
  0 <= i < len l -> exists x, idx l i = Ok x.
Proof.
  intros ?. destruct (lookup_lt_is_Some_2 l (Z.to_nat i)) as [x Hx].
  { unfold len in *. lia. }
  exists x. apply idx_Ok. split; [lia | done].
Qed.

(** Every access outside the bounds panics; there is no other outcome. *)
Lemma idx_out_of_range {A} (l : list A) i :
  ~ (0 <= i < len l) -> idx l i = Panic.
Proof.
  intros ?. unfold idx. case_decide; [done |].
  destruct (l !! Z.to_nat i) eqn:E; [| done].
  apply lookup_lt_Some in E. unfold len in *. lia.
Qed.

Lemma slice_Ok {A} (l : list A) lo hi s :
  slice l lo hi = Ok s <->
  0 <= lo /\ lo <= hi /\ hi <= len l /\
  s = take (Z.to_nat (hi - lo)) (drop (Z.to_nat lo) l).
Proof. unfold slice. case_decide; naive_solver. Qed.

Lemma store_Ok {A} (l : list A) i x l' :
  store l i x = Ok l' <-> 0 <= i < len l /\ l' = <[Z.to_nat i := x]> l.
Proof. unfold store. case_decide; naive_solver. Qed.

Lemma store_in_range {A} (l : list A) i x :
  0 <= i < len l -> store l i x = Ok (<[Z.to_nat i := x]> l).
Proof. intros. by apply store_Ok. Qed.

Lemma wrap64_small z : MinInt <= z <= MaxInt -> wrap64 z = z.
Proof.
  unfold wrap64, MinInt, MaxInt. intros ?. rewrite Z.mod_small; lia.
Qed.

(** ** Lemmas on lists *)

Lemma take_S_lookup_eq {A} (l k : list A) n :
  take n l = take n k -> l !! n = k !! n -> take (S n) l = take (S n) k.
Proof.
  intros Ht Hn. destruct (l !! n) as [x|] eqn:E.
  - by rewrite (take_S_r _ _ _ E), (take_S_r k n x (eq_sym Hn)), Ht.
  - apply lookup_ge_None in E. symmetry in Hn. apply lookup_ge_None in Hn.
    rewrite (take_ge l), (take_ge k) in * by lia. done.
Qed.

Lemma take_take_le {A} (l k : list A) m n :
  (m <= n)%nat -> take n l = take n k -> take m l = take m k.
Proof.
  intros Hmn Heq. apply (f_equal (take m)) in Heq.
  rewrite !take_take in Heq. by rewrite !Nat.min_l in Heq by lia.
Qed.

Lemma take_eq_lookup {A} (l k : list A) m n :
  take n l = take n k -> (m < n)%nat -> l !! m = k !! m.
Proof.
  intros Heq ?. rewrite <- (lookup_take_lt l n m), <- (lookup_take_lt k n m) by lia.
  by rewrite Heq.
Qed.

(** ** Automation *)

(** Decide every comparison of a goal or hypothesis built from Go code. *)
Ltac go_cases :=
  repeat first
    [ case_decide | case_bool_decide | case_match ];
  simplify_eq/=.

(** Invert a successful run of straight-line code. *)
Ltac go_inv :=
  repeat match goal with
  | H : mbind _ _ = Ok _ |- _ => apply res_bind_Ok in H as (? & ? & ?)
  | H : Ok _ = Ok _ |- _ => injection H as H
  | H : (_, _) = (_, _) |- _ => injection H as ?
  | H : Panic = Ok _ |- _ => discriminate H
  | H : Fatal = Ok _ |- _ => discriminate H
  | H : Blocked = Ok _ |- _ => discriminate H
  end; subst.

(** Case analysis on the first decision of the goal (and not of a
    hypothesis, as [case_decide] would also do). *)
Tactic Notation "goal_decide" "as" simple_intropattern(H) :=
  match goal with |- context [decide ?P] => destruct (decide P) as H end.
Tactic Notation "goal_decide" :=
  match goal with |- context [decide ?P] => destruct (decide P) end.

Create HintDb go discriminated.
#[export] Hint Resolve len_nonneg : go.
Create Rewrite HintDb go_len.
#[export] Hint Rewrite @len_app @len_nil @len_cons : go_len.
