(* ===== verification/LabGob.v ===== *)
(** * labgob: the encoder the servers persist and send with

    Models src/labgob/labgob.go: the reflection-based checks [checkType] and
    [checkDefault], and [Encode]/[Decode] on top of encoding/gob.  Of gob the
    model keeps what the labs rely on and warn about: a struct value is sent
    as its non-zero fields by name, the decoder overwrites only the fields it
    receives, and the elements of a decoded slice are decoded over the old
    elements when the old slice is long enough.  Bytes are abstracted to the
    sequence of sent values ([Wire]). *)

From S2P Require Import Prelude.

(** ** Go types and values seen through package reflect *)

Inductive GoType : Type :=
  | TBool
  | TInt
  | TString
  | TIface
  | TPtr (t : GoType)
  | TSlice (t : GoType)
  | TMap (k v : GoType)
  | TStruct (name : string) (fs : list (string * GoType)).

(** An interface holds nil or a dynamic value; a nil slice and an empty one
    are both [VSlice []]. *)
Inductive GoVal : Type :=
  | VBool (b : bool)
  | VInt (z : Z)
  | VString (s : string)
  | VIface (v : option GoVal)
  | VPtr (v : option GoVal)
  | VSlice (l : list GoVal)
  | VStruct (fs : list (string * GoVal)).

Section GoType_rect.
Variable P : GoType -> Prop.
Hypothesis HBool : P TBool.
Hypothesis HInt : P TInt.
Hypothesis HString : P TString.
Hypothesis HIface : P TIface.
Hypothesis HPtr : forall t, P t -> P (TPtr t).
Hypothesis HSlice : forall t, P t -> P (TSlice t).
Hypothesis HMap : forall k v, P k -> P v -> P (TMap k v).
Hypothesis HStruct : forall n fs, Forall (fun f => P f.2) fs -> P (TStruct n fs).

Fixpoint GoType_nested_ind (t : GoType) : P t :=
    match t with
    | TBool => HBool
    | TInt => HInt
    | TString => HString
    | TIface => HIface
    | TPtr t => HPtr t (GoType_nested_ind t)
    | TSlice t => HSlice t (GoType_nested_ind t)
    | TMap k v => HMap k v (GoType_nested_ind k) (GoType_nested_ind v)
    | TStruct n fs =>
        HStruct n fs
          ((fix go fs : Forall (fun f => P f.2) fs :=
              match fs with
              | [] => Forall_nil_2 _
              | f :: fs => Forall_cons_2 _ f fs (GoType_nested_ind f.2) (go fs)
              end) fs)
    end.
End GoType_rect.

#[export] Instance GoType_eq_dec : EqDecision GoType.
Proof.
  unfold EqDecision. fix eqd 1. intros x y.
  assert (H : forall l k : list (string * GoType),
    (fix decs (l : list (string * GoType)) : Type :=
       match l with [] => unit | f :: l => (forall y, Decision (f.2 = y)) * decs l end)%type l ->
    Decision (l = k)).
  { induction l as [| [s t] l IH]; intros [| [s' t'] k] Hl; try (right; congruence).
    - by left.
    - destruct Hl as [Ht Hl]; cbn in Ht.
      destruct (decide (s = s')); [| right; congruence].
      destruct (Ht t'); [| right; congruence].
      destruct (IH k Hl); [left | right]; congruence. }
  destruct x as [| | | | a | a | a b | n fs], y as [| | | | c | c | c d | m gs];
    try (right; congruence); try (left; reflexivity).
  - destruct (eqd a c); [left | right]; congruence.
  - destruct (eqd a c); [left | right]; congruence.
  - destruct (eqd a c); [| right; congruence].
    destruct (eqd b d); [left | right]; congruence.
  - destruct (decide (n = m)); [| right; congruence].
    destruct (H fs gs) as [|]; [| left; congruence | right; congruence].
    clear H. induction fs as [| f fs IH]; [exact tt |].
    split; [apply (eqd f.2) | apply IH].
Defined.

(** Association by field name (the first occurrence). *)
Fixpoint assoc {A} (f : string) (l : list (string * A)) : option A :=
  match l with
  | [] => None
  | (g, x) :: l => if decide (f = g) then Some x else assoc f l
  end.

Fixpoint has_type (v : GoVal) (t : GoType) {struct v} : bool :=
  match v, t with
  | VBool _, TBool | VInt _, TInt | VString _, TString | VIface _, TIface => true
  | VPtr None, TPtr _ => true
  | VPtr (Some v), TPtr t => has_type v t
  | VSlice l, TSlice t => forallb (fun v => has_type v t) l
  | VStruct fs, TStruct _ ts =>
      (fix go (fs : list (string * GoVal)) (ts : list (string * GoType)) : bool :=
         match fs, ts with
         | [], [] => true
         | (f, v) :: fs, (g, t) :: ts =>
             bool_decide (f = g) && has_type v t && go fs ts
         | _, _ => false
         end) fs ts
  | _, _ => false
  end.

(** [reflect.Zero] *)
Fixpoint zero_val (t : GoType) : GoVal :=
  match t with
  | TBool => VBool false
  | TInt => VInt 0
  | TString => VString ""
  | TIface => VIface None
  | TPtr _ => VPtr None
  | TSlice _ => VSlice []
  | TMap _ _ => VPtr None
  | TStruct _ fs => VStruct ((fix go fs := match fs with
      | [] => [] | (f, t) :: fs => (f, zero_val t) :: go fs end) fs)
  end.

(** ** encoding/gob *)

Inductive Wire : Type :=
  | WBool (b : bool)
  | WInt (z : Z)
  | WString (s : string)
  | WIface (v : option GoVal)
  | WSlice (l : list Wire)
  | WStruct (fs : list (string * Wire)).

(** The struct fields gob does not send.  A field of struct kind is always
    sent; the others are left out when they hold their zero value. *)
Fixpoint gob_omits (v : GoVal) : bool :=
  match v with
  | VBool b => negb b
  | VInt z => bool_decide (z = 0)
  | VString s => bool_decide (s = ""%string)
  | VIface o => match o with None => true | Some _ => false end
  | VPtr None => true
  | VPtr (Some v) => gob_omits v
  | VSlice l => match l with [] => true | _ => false end
  | VStruct _ => false
  end.

(** Pointers are flattened; a nil pointer cannot be encoded by itself.  The
    dynamic value of an interface is decoded into a freshly allocated value
    of its type, so it is carried over as it is. *)
Fixpoint gob_encode (v : GoVal) : option Wire :=
  match v with
  | VBool b => Some (WBool b)
  | VInt z => Some (WInt z)
  | VString s => Some (WString s)
  | VIface o => Some (WIface o)
  | VPtr None => None
  | VPtr (Some v) => gob_encode v
  | VSlice l =>
      WSlice <$> (fix go l := match l with
        | [] => Some []
        | v :: l => w ← gob_encode v; ws ← go l; Some (w :: ws)
        end) l
  | VStruct fs =>
      WStruct <$> (fix go fs := match fs with
        | [] => Some []
        | (f, v) :: fs =>
            if gob_omits v then go fs
            else w ← gob_encode v; ws ← go fs; Some ((f, w) :: ws)
        end) fs
  end.

(** [gob_decode t old w]: decode [w] into a variable of type [t] that holds
    [old]. *)
Fixpoint gob_decode (t : GoType) (old : GoVal) (w : Wire) {struct t} : option GoVal :=
  match t, w with
  | TBool, WBool b => Some (VBool b)
  | TInt, WInt z => Some (VInt z)
  | TString, WString s => Some (VString s)
  | TIface, WIface o => Some (VIface o)
  | TPtr t, _ =>
      let ov := match old with VPtr (Some v) => v | _ => zero_val t end in
      (fun v => VPtr (Some v)) <$> gob_decode t ov w
  | TSlice t, WSlice ws =>
      let olds := match old with
        | VSlice l => if decide (length ws <= length l)%nat then l else []
        | _ => [] end in
      VSlice <$> (fix go olds ws := match ws with
        | [] => Some []
        | w :: ws =>
            v ← gob_decode t (default (zero_val t) (head olds)) w;
            vs ← go (tail olds) ws; Some (v :: vs)
        end) olds ws
  | TStruct _ ts, WStruct ws =>
      let ofs := match old with VStruct l => l | _ => [] end in
      VStruct <$> (fix go ts := match ts with
        | [] => Some []
        | (f, t) :: ts =>
            let ov := default (zero_val t) (assoc f ofs) in
            v ← match assoc f ws with
                 | Some w => gob_decode t ov w
                 | None => Some ov
                 end;
            vs ← go ts; Some ((f, v) :: vs)
        end) ts
  | _, _ => None
  end.

(** The types the labs send: no pointers and no maps below the top, distinct
    field names (Go enforces the latter). *)
Fixpoint gobable (t : GoType) : bool :=
  match t with
  | TBool | TInt | TString | TIface => true
  | TPtr _ | TMap _ _ => false
  | TSlice t => gobable t
  | TStruct _ fs =>
      bool_decide (NoDup fs.*1) &&
      (fix go fs := match fs with [] => true | (_, t) :: fs => gobable t && go fs end) fs
  end.

(** The local recursions of the codec under names of their own. *)
Fixpoint encode_fields (fs : list (string * GoVal)) : option (list (string * Wire)) :=
  match fs with
  | [] => Some []
  | (f, v) :: fs =>
      if gob_omits v then encode_fields fs
      else w ← gob_encode v; ws ← encode_fields fs; Some ((f, w) :: ws)
  end.

Definition decode_fields (ofs : list (string * GoVal)) (ws : list (string * Wire)) :
    list (string * GoType) -> option (list (string * GoVal)) :=
  fix go ts := match ts with
  | [] => Some []
  | (f, t) :: ts =>
      let ov := default (zero_val t) (assoc f ofs) in
      v ← match assoc f ws with Some w => gob_decode t ov w | None => Some ov end;
      vs ← go ts; Some ((f, v) :: vs)
  end.

Fixpoint fields_typed (fs : list (string * GoVal)) (ts : list (string * GoType)) : bool :=
  match fs, ts with
  | [], [] => true
  | (f, v) :: fs, (g, t) :: ts => bool_decide (f = g) && has_type v t && fields_typed fs ts
  | _, _ => false
  end.

Fixpoint zero_fields (ts : list (string * GoType)) : list (string * GoVal) :=
  match ts with [] => [] | (f, t) :: ts => (f, zero_val t) :: zero_fields ts end.

Lemma gob_encode_struct fs : gob_encode (VStruct fs) = WStruct <$> encode_fields fs.
Proof. reflexivity. Qed.
Lemma gob_decode_struct n ts ofs ws :
  gob_decode (TStruct n ts) (VStruct ofs) (WStruct ws) = VStruct <$> decode_fields ofs ws ts.
Proof. reflexivity. Qed.
Lemma has_type_struct fs n ts : has_type (VStruct fs) (TStruct n ts) = fields_typed fs ts.
Proof. reflexivity. Qed.
Lemma zero_val_struct n ts : zero_val (TStruct n ts) = VStruct (zero_fields ts).
Proof. reflexivity. Qed.
Lemma gobable_struct n ts :
  gobable (TStruct n ts) = true <->
  NoDup ts.*1 /\ Forall (fun ft => gobable ft.2 = true) ts.
Proof.
  cbn [gobable]. rewrite andb_true_iff, bool_decide_eq_true.
  apply and_iff_compat_l. induction ts as [| [f t] ts IH]; [by split |].
  rewrite Forall_cons, andb_true_iff. by apply and_iff_compat_l.
Qed.

Lemma gob_omits_zero v t :
  has_type v t = true -> gobable t = true -> gob_omits v = true -> v = zero_val t.
Proof.
  destruct v as [[]|z|s|[]|[]|[]|fs], t; cbn; try done;
    intros _ _ ?%bool_decide_eq_true; congruence.
Qed.

(** Every encoded name of [fs] is a name of [fs]. *)
Lemma encode_fields_assoc_None fs ts ws f :
  fields_typed fs ts = true -> encode_fields fs = Some ws -> f ∉ ts.*1 ->
  assoc f ws = None.
Proof.
  revert ts ws. induction fs as [| [g v] fs IH]; intros [| [h t] ts] ws; cbn; try done.
  { by intros _ [= <-]. }
  rewrite !andb_true_iff, bool_decide_eq_true. intros [[-> _] Hfs].
  intros He [? ?]%not_elem_of_cons. case_match; [by eapply IH |].
  apply bind_Some in He as (w & _ & He). apply bind_Some in He as (ws' & ? & [= <-]).
  cbn. case_decide; [done |]. by eapply IH.
Qed.

Definition roundtrips (t : GoType) : Prop :=
  forall v, gobable t = true -> has_type v t = true ->
  exists w, gob_encode v = Some w /\ gob_decode t (zero_val t) w = Some v.

Lemma roundtrip_fields ts :
  Forall (fun ft => roundtrips ft.2) ts ->
  NoDup ts.*1 -> Forall (fun ft => gobable ft.2 = true) ts ->
  forall fs, fields_typed fs ts = true ->
  exists ws, encode_fields fs = Some ws /\
    forall ofs ws', (forall f, f ∈ ts.*1 -> assoc f ofs = assoc f (zero_fields ts)) ->
      (forall f, f ∈ ts.*1 -> assoc f ws' = assoc f ws) ->
      decode_fields ofs ws' ts = Some fs.
Proof.
  induction 1 as [| [f t] ts Ht Hts IH]; intros Hnd Hg [| [g v] fs]; cbn; try done.
  { exists []. done. }
  rewrite !andb_true_iff, bool_decide_eq_true. intros [[-> Hv] Hfs].
  apply NoDup_cons in Hnd as [Hf Hnd]. apply Forall_cons in Hg as [Hg Hgs].
  destruct (IH Hnd Hgs fs Hfs) as (ws & Hws & Hdec).
  destruct (Ht v Hg Hv) as (w & Hw & Hd). cbn in Hd.
  assert (Htail : forall ws0 : list (string * Wire),
    (forall h, h ≠ f -> assoc h ws0 = assoc h ws) ->
    forall ofs ws', (forall h, h ∈ f :: ts.*1 ->
        assoc h ofs = if decide (h = f) then Some (zero_val t) else assoc h (zero_fields ts)) ->
      (forall h, h ∈ f :: ts.*1 -> assoc h ws' = assoc h ws0) ->
      decode_fields ofs ws' ts = Some fs).
  { intros ws0 Hw0 ofs ws' Ho Hw'. apply Hdec; intros h Hh.
    - rewrite Ho by set_solver. case_decide; [by subst |]. done.
    - rewrite Hw', Hw0 by set_solver. done. }
  destruct (gob_omits v) eqn:Eo.
  - exists ws. split; [done |]. intros ofs ws' Ho Hw'.
    rewrite (Hw' f), (encode_fields_assoc_None fs ts ws f) by (done || set_solver).
    rewrite (Ho f), decide_True by (done || set_solver). cbn.
    by rewrite (Htail ws), (gob_omits_zero v t).
  - exists ((f, w) :: ws). rewrite Hw, Hws. split; [done |]. intros ofs ws' Ho Hw'.
    rewrite (Hw' f) by set_solver. cbn. rewrite decide_True by done.
    rewrite (Ho f), decide_True by (done || set_solver). cbn. rewrite Hd. cbn.
    rewrite (Htail ((f, w) :: ws)); [done | | done | done].
    intros h Hh. cbn. by rewrite decide_False.
Qed.

(** The codec is exact on a fresh target. *)
Lemma gob_roundtrip t : roundtrips t.
Proof.
  induction t as [| | | | t IH | t IH | k v _ _ | n ts IH] using GoType_nested_ind;
    intros x Hg Hx; try done.
  1-4: destruct x as [| | | | [] | |]; cbn in Hx; try done; eexists; split; reflexivity.
  - destruct x as [| | | | [] | l |]; cbn in Hx; try done. cbn in Hg.
    enough (exists ws, gob_encode (VSlice l) = Some (WSlice ws) /\
      (fix go olds ws := match ws with
        | [] => Some []
        | w :: ws =>
            v ← gob_decode t (default (zero_val t) (head olds)) w;
            vs ← go (tail olds) ws; Some (v :: vs)
        end) (@nil GoVal) ws = Some l) as (ws & He & Hd).
    { exists (WSlice ws). split; [done |]. cbn. case_decide; by rewrite Hd. }
    induction l as [| v l IHl]; [by exists [] |].
    cbn in Hx. apply andb_true_iff in Hx as [Hv Hl].
    destruct (IHl Hl) as (ws & He & Hd), (IH v Hg Hv) as (w & Hw & Hdw).
    cbn in He. apply fmap_Some in He as (ws' & He & [= <-]).
    exists (w :: ws). cbn. rewrite Hw, He. cbn. by rewrite Hdw, Hd.
  - apply gobable_struct in Hg as [Hnd Hg].
    destruct x as [| | | | [] | | fs]; cbn in Hx; try done.
    destruct (roundtrip_fields ts IH Hnd Hg fs Hx) as (ws & Hws & Hdec).
    exists (WStruct ws). rewrite gob_encode_struct, Hws. split; [done |].
    by rewrite zero_val_struct, gob_decode_struct, (Hdec (zero_fields ts) ws).
Qed.

(** ** The interface to the clients of labgob

    A program type that is sent or persisted: its Go type, and its values as
    [GoVal]s. *)

Class GoRepr (A : Type) := {
  go_type : GoType;
  to_go : A -> GoVal;
  of_go : GoVal -> option A;
  of_to_go : forall a, of_go (to_go a) = Some a;
  to_go_typed : forall a, has_type (to_go a) go_type = true;
  go_type_gobable : gobable go_type = true;
}.
Arguments go_type A {_}.

#[export] Instance GoRepr_Z : GoRepr Z.
Proof.
  refine {| go_type := TInt; to_go := VInt;
            of_go v := match v with VInt z => Some z | _ => None end |}; done.
Defined.

#[export] Instance GoRepr_bool : GoRepr bool.
Proof.
  refine {| go_type := TBool; to_go := VBool;
            of_go v := match v with VBool b => Some b | _ => None end |}; done.
Defined.

#[export] Instance GoRepr_list `{GoRepr A} : GoRepr (list A).
Proof.
  refine {| go_type := TSlice (go_type A);
            to_go l := VSlice (to_go <$> l);
            of_go v := match v with VSlice l => mapM of_go l | _ => None end |}.
  - intros l. induction l as [| a l IH]; [done |].
    cbn. rewrite of_to_go. cbn in *. by rewrite IH.
  - intros l. induction l as [| a l IH]; [done |].
    cbn. by rewrite to_go_typed.
  - apply go_type_gobable.
Defined.

(** [e.Encode(a)] with the error ignored, on a buffer. *)
Definition gob_append `{GoRepr A} (a : A) (w : list Wire) : list Wire :=
  match gob_encode (to_go a) with Some x => w ++ [x] | None => w end.

(** [var a A; d.Decode(&a)]: the decoded value and the rest of the data. *)
Definition gob_next (A : Type) `{GoRepr A} (r : list Wire) : option (A * list Wire) :=
  match r with
  | [] => None
  | w :: r =>
      v ← gob_decode (go_type A) (zero_val (go_type A)) w;
      a ← of_go v; Some (a, r)
  end.

Lemma gob_append_next `{GoRepr A} (a : A) (w : list Wire) :
  exists x, gob_append a w = w ++ [x] /\ forall r, gob_next A (x :: r) = Some (a, r).
Proof.
  destruct (gob_roundtrip (go_type A) (to_go a) go_type_gobable (to_go_typed a))
    as (x & He & Hd).
  exists x. unfold gob_append. rewrite He. split; [done |].
  intros r. cbn. rewrite Hd. cbn. by rewrite of_to_go.
Qed.

(** ** Package state and the checks *)

Module LabGob.

Record t := mk {
  errorCount : Z;              (* for TestCapital *)
  checked : list GoType;       (* types already examined *)
  printed : list string;       (* the names complained about *)
}.

Definition init : t := mk 0 [] [].

Definition complain (what : string) (st : t) : t :=
  mk (errorCount st + 1) (checked st) (printed st ++ [what]).

Definition mark (ty : GoType) (st : t) : t :=
  mk (errorCount st) (ty :: checked st) (printed st).

(** [unicode.IsUpper] of the first rune, for the ASCII field names Go code
    uses. *)
Definition isUpper (f : string) : bool :=
  match f with
  | String c _ => bool_decide (65 <= Z.of_nat (Ascii.nat_of_ascii c) <= 90)
  | EmptyString => false
  end.

Fixpoint checkType (ty : GoType) (st : t) : t :=
  if decide (ty ∈ checked st) then st else
  let st := mark ty st in
  match ty with
  | TStruct _ fs =>
      (fix go fs st := match fs with
        | [] => st
        | (f, ft) :: fs =>
            let st := if isUpper f then st else complain f st in
            go fs (checkType ft st)
        end) fs st
  | TSlice e => checkType e st
  | TPtr e => checkType e st
  | TMap k v => checkType k (checkType v st)
  | _ => st
  end.

(** [checkValue] looks at [reflect.TypeOf(value)], which is passed along. *)
Definition checkValue (ty : GoType) : t -> t := checkType ty.

Definition scalar_name (v : GoVal) : option string :=
  match v with
  | VBool _ => Some "bool"%string
  | VInt _ => Some "int"%string
  | VString _ => Some "string"%string
  | _ => None
  end.

(** A non-default scalar is counted always and printed while no error was. *)
Definition warn (what : string) (st : t) : t :=
  mk (errorCount st + 1) (checked st)
     (if decide (errorCount st < 1) then printed st ++ [what] else printed st).

Fixpoint checkDefault1 (value : GoVal) (depth : Z) (name : string) (st : t) : t :=
  if decide (depth > 3) then st else
  match value with
  | VStruct fs =>
      (fix go fs st := match fs with
        | [] => st
        | (f, vv) :: fs =>
            let name1 := if decide (name = ""%string) then f
                         else (name +:+ "." +:+ f)%string in
            go fs (checkDefault1 vv (depth + 1) name1 st)
        end) fs st
  | VPtr None => st
  | VPtr (Some v) => checkDefault1 v (depth + 1) name st
  | VBool _ | VInt _ | VString _ =>
      if gob_omits value then st      (* equal to reflect.Zero of its type *)
      else warn (if decide (name = ""%string)
                 then default ""%string (scalar_name value) else name) st
  | VIface _ | VSlice _ => st
  end.

Definition checkDefault (value : option GoVal) (st : t) : t :=
  match value with
  | None => st
  | Some v => checkDefault1 v 1 "" st
  end.

(** [enc.Encode(e)] on an encoder that writes to [w]: the error flag (true is
    an error) and the buffer afterwards. *)
Definition Encode (ty : GoType) (e : GoVal) (w : list Wire) : ST t (bool * list Wire) :=
  modify (checkValue ty) ;;;
  mret (match gob_encode e with Some x => (false, w ++ [x]) | None => (true, w) end).

(** [enc.EncodeValue(value)] *)
Definition EncodeValue (ty : GoType) (value : GoVal) (w : list Wire) : ST t (bool * list Wire) :=
  modify (checkValue ty) ;;;
  mret (match gob_encode value with Some x => (false, w ++ [x]) | None => (true, w) end).

(** [dec.Decode(&x)] where [x : ty] holds [old]: the new content of [x], if
    there was no error, and the bytes left. *)
Definition Decode (ty : GoType) (old : GoVal) (r : list Wire) : ST t (option GoVal * list Wire) :=
  modify (checkValue (TPtr ty)) ;;;
  modify (checkDefault (Some (VPtr (Some old)))) ;;;
  mret (match r with
        | [] => (None, [])
        | w :: r => (gob_decode ty old w, r)
        end).

Definition Register (ty : GoType) : t -> t := checkValue ty.

(** ** Lemmas *)

Lemma checkType_errors_mono ty st : errorCount st <= errorCount (checkType ty st).
Proof.
  revert st. induction ty as [| | | | ty IH | ty IH | k v IHk IHv | n fs IH]
    using GoType_nested_ind; intros st; cbn; case_decide; try done.
  - exact (IH (mark (TPtr ty) st)).
  - exact (IH (mark (TSlice ty) st)).
  - etrans; [exact (IHv (mark (TMap k v) st)) | apply IHk].
  - assert (H0 : errorCount st = errorCount (mark (TStruct n fs) st)) by done.
    revert H0. generalize (mark (TStruct n fs) st) as st'. intros st' ->. clear H.
    revert st'. induction IH as [| [f ft] fs Hft _ IHfs]; intros st'; [done |].
    etrans; [| apply IHfs]. etrans; [| apply Hft].
    destruct (isUpper f); cbn; lia.
Qed.

Lemma checkType_checked_mono ty st s : s ∈ checked st -> s ∈ checked (checkType ty st).
Proof.
  revert st. induction ty as [| | | | ty IH | ty IH | k v IHk IHv | n fs IH]
    using GoType_nested_ind; intros st Hs; cbn; case_decide; try done; try by right.
  - apply IH. by right.
  - apply IH. by right.
  - apply IHk, IHv. by right.
  - assert (H0 : s ∈ checked (mark (TStruct n fs) st)) by by right.
    revert H0. generalize (mark (TStruct n fs) st) as st'. clear -IH.
    induction IH as [| [f ft] fs Hft _ IHfs]; intros st' Hst'; [done |].
    apply IHfs, Hft. by destruct (isUpper f).
Qed.

Lemma checkType_marks ty st : ty ∈ checked (checkType ty st).
Proof.
  destruct ty; cbn; case_decide; try done; try (by left).
  - apply checkType_checked_mono. by left.
  - apply checkType_checked_mono. by left.
  - do 2 apply checkType_checked_mono. by left.
  - assert (H0 : TStruct name fs ∈ checked (mark (TStruct name fs) st)) by by left.
    revert H0. generalize (mark (TStruct name fs) st) as st'.
    generalize (TStruct name fs) as s. clear.
    induction fs as [| [f ft] fs IH]; intros s st Hs; [done |].
    apply IH, checkType_checked_mono. by destruct (isUpper f).
Qed.

(** A type is complained about at most once. *)
Lemma checkType_idem ty st : checkType ty (checkType ty st) = checkType ty st.
Proof.
  pose proof (checkType_marks ty st) as Hm. revert Hm.
  generalize (checkType ty st) as st'. intros st' Hm.
  destruct ty; cbn; by rewrite decide_True.
Qed.

(** Scalars are what [checkDefault1] compares with their zero value. *)
Definition scalar (ty : GoType) : bool :=
  match ty with TBool | TInt | TString => true | _ => false end.

Definition flat (ty : GoType) : bool :=
  match ty with TStruct _ fs => forallb (fun ft => scalar ft.2) fs | _ => false end.

Lemma checkDefault1_scalar v ty depth name st :
  scalar ty = true -> has_type v ty = true -> depth <= 3 ->
  checkDefault1 v depth name st =
  if gob_omits v then st
  else warn (if decide (name = ""%string)
             then default ""%string (scalar_name v) else name) st.
Proof.
  intros Hs Hv ?. destruct v as [| | | | [] | |], ty; try done; cbn;
    by rewrite decide_False by lia.
Qed.

Lemma scalar_zero v ty :
  scalar ty = true -> has_type v ty = true -> gob_omits v = true -> v = zero_val ty.
Proof. intros ??. apply gob_omits_zero; [done |]. by destruct ty. Qed.

(** The fields of a flat struct, visited at depth 3. *)
Lemma checkDefault1_fields fs ts name st :
  Forall (fun ft => scalar ft.2 = true) ts -> fields_typed fs ts = true ->
  let go := fix go fs st := match fs with
        | [] => st
        | (f, vv) :: fs =>
            let name1 := if decide (name = ""%string) then f
                         else (name +:+ "." +:+ f)%string in
            go fs (checkDefault1 vv (2 + 1) name1 st)
        end in
  errorCount st <= errorCount (go fs st) /\
  (errorCount (go fs st) = errorCount st -> fs = zero_fields ts).
Proof.
  intros Hts Hfs go. revert fs st Hfs.
  induction Hts as [| [g ty] ts Hty _ IH]; intros [| [f v] fs] st; cbn; try done.
  rewrite !andb_true_iff, bool_decide_eq_true. intros [[-> Hv] Hfs].
  cbn [snd] in Hty. rewrite (checkDefault1_scalar v ty) by (done || lia).
  destruct (gob_omits v) eqn:Eo.
  - destruct (IH fs st Hfs) as [H1 H2]. split; [done |]. intros He.
    by rewrite (H2 He), (scalar_zero v ty).
  - match goal with |- context [go fs ?s] => destruct (IH fs s Hfs) as [H1 _] end.
    assert (forall what, errorCount (warn what st) = errorCount st + 1) as Hw by done.
    rewrite Hw in H1. split; [lia | intros He; lia].
Qed.

End LabGob.

(** ** Properties *)



(** A reply struct with a field of every plain kind. *)
Definition reply_type : GoType :=
  TStruct "Reply" [("Term", TInt); ("Ok", TBool); ("Err", TString)]%string.
Definition reply_val (t : Z) (b : bool) (e : string) : GoVal :=
  VStruct [("Term", VInt t); ("Ok", VBool b); ("Err", VString e)]%string.

