(* ===== verification/Persister.v ===== *)
(** * The stable storage of a server

    Models src/raft/persister.go.  Byte slices are the value sequences of
    [LabGob]; the mutex makes every operation atomic. *)

From S2P Require Import Prelude LabGob.

Module Persister.

Record t := mk {
  raftstate : list Wire;
  snapshot : list Wire;
}.

Definition MakePersister : t := mk [] [].

Definition Copy (ps : t) : t :=
  let np := MakePersister in
  let np := mk (raftstate ps) (snapshot np) in
  mk (raftstate np) (snapshot ps).

Definition SaveRaftState (state : list Wire) (ps : t) : t := mk state (snapshot ps).

Definition ReadRaftState (ps : t) : list Wire := raftstate ps.

Definition SaveStateAndSnapshot (state snap : list Wire) (ps : t) : t := mk state snap.

Definition ReadSnapshot (ps : t) : list Wire := snapshot ps.

(** What a server persisted is what its successor reads after the harness
    copied the persister (crash1 and start1 of config.go). *)
Lemma read_copy_save state ps : ReadRaftState (Copy (SaveRaftState state ps)) = state.
Proof. reflexivity. Qed.

End Persister.
