(* ===== verification/Raft.v ===== *)
(** * One Raft server: data, persistence, timers and creation

    Models the types of src/raft/raft.go and the operations that only touch
    one server and use no RPC: GetState, persist, readPersist, switchTo,
    resetElectionTimer, the two ticks' conditions, Make and Kill.

    The record [Raft] is the struct protected by rf.mu.  A condition variable
    is the number of Broadcasts it has seen; a goroutine that waits on it
    remembers the number at the time of Wait and may go on once the number has
    grown.  The mutex and the two channels of the ticks are in the file RaftTimers.
    Indices and terms are mathematical integers, except for the increment of
    CurrentTerm and for time differences, which wrap as Go's 64-bit ints do. *)

From S2P Require Import Prelude LabGob Persister.

(** ** Data *)

(** [Command interface{}]: nil or a dynamic value. *)
Record LogEntry := mkEntry {
  Command : option GoVal;
  Term : Z;
}.

Record ApplyMsg := mkApplyMsg {
  CommandValid : bool;
  am_Command : option GoVal;
  CommandIndex : Z;
}.

Inductive ServerState := Follower | Candidate | Leader.

#[export] Instance ServerState_eq_dec : EqDecision ServerState.
Proof. solve_decision. Defined.

Record Raft := mkRaft {
  npeers : Z;  (* len(peers) *)
  persister : Persister.t;
  me : Z;  (* this peer's index into peers[] *)
  state : ServerState;
  leaderId : Z;
  applyCond : nat;  (* Broadcasts on applyCond so far *)
  leaderCond : nat;  (* ... on leaderCond *)
  nonLeaderCond : nat;  (* ... on nonLeaderCond *)
  electionTimeout : Z;  (* ms *)
  heartbeatPeriod : Z;  (* ms *)
  latestIssueTime : Z;  (* ns *)
  latestHeardTime : Z;  (* ns *)
  CurrentTerm : Z;
  VoteFor : Z;  (* -1 is null *)
  Log : list LogEntry;
  commitIndex : Z;
  lastApplied : Z;
  nextIndex : list Z;
  matchIndex : list Z;
}.

(** Field assignment. *)
Definition set_npeers (v : Z) (rf : Raft) : Raft :=
  mkRaft v (persister rf) (me rf) (state rf) (leaderId rf) (applyCond rf) (leaderCond rf) (nonLeaderCond rf) (electionTimeout rf) (heartbeatPeriod rf) (latestIssueTime rf) (latestHeardTime rf) (CurrentTerm rf) (VoteFor rf) (Log rf) (commitIndex rf) (lastApplied rf) (nextIndex rf) (matchIndex rf).
Definition set_persister (v : Persister.t) (rf : Raft) : Raft :=
  mkRaft (npeers rf) v (me rf) (state rf) (leaderId rf) (applyCond rf) (leaderCond rf) (nonLeaderCond rf) (electionTimeout rf) (heartbeatPeriod rf) (latestIssueTime rf) (latestHeardTime rf) (CurrentTerm rf) (VoteFor rf) (Log rf) (commitIndex rf) (lastApplied rf) (nextIndex rf) (matchIndex rf).
Definition set_me (v : Z) (rf : Raft) : Raft :=
  mkRaft (npeers rf) (persister rf) v (state rf) (leaderId rf) (applyCond rf) (leaderCond rf) (nonLeaderCond rf) (electionTimeout rf) (heartbeatPeriod rf) (latestIssueTime rf) (latestHeardTime rf) (CurrentTerm rf) (VoteFor rf) (Log rf) (commitIndex rf) (lastApplied rf) (nextIndex rf) (matchIndex rf).
Definition set_state (v : ServerState) (rf : Raft) : Raft :=
  mkRaft (npeers rf) (persister rf) (me rf) v (leaderId rf) (applyCond rf) (leaderCond rf) (nonLeaderCond rf) (electionTimeout rf) (heartbeatPeriod rf) (latestIssueTime rf) (latestHeardTime rf) (CurrentTerm rf) (VoteFor rf) (Log rf) (commitIndex rf) (lastApplied rf) (nextIndex rf) (matchIndex rf).
Definition set_leaderId (v : Z) (rf : Raft) : Raft :=
  mkRaft (npeers rf) (persister rf) (me rf) (state rf) v (applyCond rf) (leaderCond rf) (nonLeaderCond rf) (electionTimeout rf) (heartbeatPeriod rf) (latestIssueTime rf) (latestHeardTime rf) (CurrentTerm rf) (VoteFor rf) (Log rf) (commitIndex rf) (lastApplied rf) (nextIndex rf) (matchIndex rf).
Definition set_applyCond (v : nat) (rf : Raft) : Raft :=
  mkRaft (npeers rf) (persister rf) (me rf) (state rf) (leaderId rf) v (leaderCond rf) (nonLeaderCond rf) (electionTimeout rf) (heartbeatPeriod rf) (latestIssueTime rf) (latestHeardTime rf) (CurrentTerm rf) (VoteFor rf) (Log rf) (commitIndex rf) (lastApplied rf) (nextIndex rf) (matchIndex rf).
Definition set_leaderCond (v : nat) (rf : Raft) : Raft :=
  mkRaft (npeers rf) (persister rf) (me rf) (state rf) (leaderId rf) (applyCond rf) v (nonLeaderCond rf) (electionTimeout rf) (heartbeatPeriod rf) (latestIssueTime rf) (latestHeardTime rf) (CurrentTerm rf) (VoteFor rf) (Log rf) (commitIndex rf) (lastApplied rf) (nextIndex rf) (matchIndex rf).
Definition set_nonLeaderCond (v : nat) (rf : Raft) : Raft :=
  mkRaft (npeers rf) (persister rf) (me rf) (state rf) (leaderId rf) (applyCond rf) (leaderCond rf) v (electionTimeout rf) (heartbeatPeriod rf) (latestIssueTime rf) (latestHeardTime rf) (CurrentTerm rf) (VoteFor rf) (Log rf) (commitIndex rf) (lastApplied rf) (nextIndex rf) (matchIndex rf).
Definition set_electionTimeout (v : Z) (rf : Raft) : Raft :=
  mkRaft (npeers rf) (persister rf) (me rf) (state rf) (leaderId rf) (applyCond rf) (leaderCond rf) (nonLeaderCond rf) v (heartbeatPeriod rf) (latestIssueTime rf) (latestHeardTime rf) (CurrentTerm rf) (VoteFor rf) (Log rf) (commitIndex rf) (lastApplied rf) (nextIndex rf) (matchIndex rf).
Definition set_heartbeatPeriod (v : Z) (rf : Raft) : Raft :=
  mkRaft (npeers rf) (persister rf) (me rf) (state rf) (leaderId rf) (applyCond rf) (leaderCond rf) (nonLeaderCond rf) (electionTimeout rf) v (latestIssueTime rf) (latestHeardTime rf) (CurrentTerm rf) (VoteFor rf) (Log rf) (commitIndex rf) (lastApplied rf) (nextIndex rf) (matchIndex rf).
Definition set_latestIssueTime (v : Z) (rf : Raft) : Raft :=
  mkRaft (npeers rf) (persister rf) (me rf) (state rf) (leaderId rf) (applyCond rf) (leaderCond rf) (nonLeaderCond rf) (electionTimeout rf) (heartbeatPeriod rf) v (latestHeardTime rf) (CurrentTerm rf) (VoteFor rf) (Log rf) (commitIndex rf) (lastApplied rf) (nextIndex rf) (matchIndex rf).
Definition set_latestHeardTime (v : Z) (rf : Raft) : Raft :=
  mkRaft (npeers rf) (persister rf) (me rf) (state rf) (leaderId rf) (applyCond rf) (leaderCond rf) (nonLeaderCond rf) (electionTimeout rf) (heartbeatPeriod rf) (latestIssueTime rf) v (CurrentTerm rf) (VoteFor rf) (Log rf) (commitIndex rf) (lastApplied rf) (nextIndex rf) (matchIndex rf).
Definition set_CurrentTerm (v : Z) (rf : Raft) : Raft :=
  mkRaft (npeers rf) (persister rf) (me rf) (state rf) (leaderId rf) (applyCond rf) (leaderCond rf) (nonLeaderCond rf) (electionTimeout rf) (heartbeatPeriod rf) (latestIssueTime rf) (latestHeardTime rf) v (VoteFor rf) (Log rf) (commitIndex rf) (lastApplied rf) (nextIndex rf) (matchIndex rf).
Definition set_VoteFor (v : Z) (rf : Raft) : Raft :=
  mkRaft (npeers rf) (persister rf) (me rf) (state rf) (leaderId rf) (applyCond rf) (leaderCond rf) (nonLeaderCond rf) (electionTimeout rf) (heartbeatPeriod rf) (latestIssueTime rf) (latestHeardTime rf) (CurrentTerm rf) v (Log rf) (commitIndex rf) (lastApplied rf) (nextIndex rf) (matchIndex rf).
Definition set_Log (v : list LogEntry) (rf : Raft) : Raft :=
  mkRaft (npeers rf) (persister rf) (me rf) (state rf) (leaderId rf) (applyCond rf) (leaderCond rf) (nonLeaderCond rf) (electionTimeout rf) (heartbeatPeriod rf) (latestIssueTime rf) (latestHeardTime rf) (CurrentTerm rf) (VoteFor rf) v (commitIndex rf) (lastApplied rf) (nextIndex rf) (matchIndex rf).
Definition set_commitIndex (v : Z) (rf : Raft) : Raft :=
  mkRaft (npeers rf) (persister rf) (me rf) (state rf) (leaderId rf) (applyCond rf) (leaderCond rf) (nonLeaderCond rf) (electionTimeout rf) (heartbeatPeriod rf) (latestIssueTime rf) (latestHeardTime rf) (CurrentTerm rf) (VoteFor rf) (Log rf) v (lastApplied rf) (nextIndex rf) (matchIndex rf).
Definition set_lastApplied (v : Z) (rf : Raft) : Raft :=
  mkRaft (npeers rf) (persister rf) (me rf) (state rf) (leaderId rf) (applyCond rf) (leaderCond rf) (nonLeaderCond rf) (electionTimeout rf) (heartbeatPeriod rf) (latestIssueTime rf) (latestHeardTime rf) (CurrentTerm rf) (VoteFor rf) (Log rf) (commitIndex rf) v (nextIndex rf) (matchIndex rf).
Definition set_nextIndex (v : list Z) (rf : Raft) : Raft :=
  mkRaft (npeers rf) (persister rf) (me rf) (state rf) (leaderId rf) (applyCond rf) (leaderCond rf) (nonLeaderCond rf) (electionTimeout rf) (heartbeatPeriod rf) (latestIssueTime rf) (latestHeardTime rf) (CurrentTerm rf) (VoteFor rf) (Log rf) (commitIndex rf) (lastApplied rf) v (matchIndex rf).
Definition set_matchIndex (v : list Z) (rf : Raft) : Raft :=
  mkRaft (npeers rf) (persister rf) (me rf) (state rf) (leaderId rf) (applyCond rf) (leaderCond rf) (nonLeaderCond rf) (electionTimeout rf) (heartbeatPeriod rf) (latestIssueTime rf) (latestHeardTime rf) (CurrentTerm rf) (VoteFor rf) (Log rf) (commitIndex rf) (lastApplied rf) (nextIndex rf) v.

Record AppendEntriesArgs := mkAEArgs {
  ae_Term : Z;
  ae_LeaderId : Z;
  ae_PrevLogIndex : Z;
  ae_PrevLogTerm : Z;
  ae_Entries : list LogEntry;
  ae_LeaderCommit : Z;
}.

Record AppendEntriesReply := mkAEReply {
  aer_Term : Z;
  aer_ConflictTerm : Z;
  aer_ConflictFirstIndex : Z;
  aer_Success : bool;
}.

Record RequestVoteArgs := mkRVArgs {
  rv_Term : Z;
  rv_CandidateId : Z;
  rv_LastLogIndex : Z;
  rv_LastLogTerm : Z;
}.

Record RequestVoteReply := mkRVReply {
  rvr_Term : Z;
  rvr_VoteGranted : bool;
}.

(** One reading of the clock (time.Now().UnixNano()) together with one number
    of the random source. *)
Record Reading := mkReading { now : Z; rnd : Z }.

(** [rand.Intn(n)] *)
Definition Intn (n : Z) (r : Z) : Z := r `mod` n.

(** ** Go representations of what is persisted and sent *)

#[export] Instance GoRepr_LogEntry : GoRepr LogEntry.
Proof.
  refine {|
    go_type := TStruct "LogEntry" [("Command", TIface); ("Term", TInt)]%string;
    to_go e := VStruct [("Command", VIface (Command e)); ("Term", VInt (Term e))]%string;
    of_go v := match v with
      | VStruct [(_, VIface c); (_, VInt t)] => Some (mkEntry c t)
      | _ => None end |};
    [by intros [] | done | done].
Defined.

#[export] Instance GoRepr_AppendEntriesArgs : GoRepr AppendEntriesArgs.
Proof.
  refine {|
    go_type := TStruct "AppendEntriesArgs"
      [("Term", TInt); ("LeaderId", TInt); ("PrevLogIndex", TInt); ("PrevLogTerm", TInt);
       ("Entries", go_type (list LogEntry)); ("LeaderCommit", TInt)]%string;
    to_go a := VStruct
      [("Term", VInt (ae_Term a)); ("LeaderId", VInt (ae_LeaderId a));
       ("PrevLogIndex", VInt (ae_PrevLogIndex a)); ("PrevLogTerm", VInt (ae_PrevLogTerm a));
       ("Entries", to_go (ae_Entries a)); ("LeaderCommit", VInt (ae_LeaderCommit a))]%string;
    of_go v := match v with
      | VStruct [(_, VInt t); (_, VInt l); (_, VInt pi); (_, VInt pt); (_, es); (_, VInt c)] =>
          es ← of_go es; Some (mkAEArgs t l pi pt es c)
      | _ => None end |}.
  - intros []. cbn -[to_go of_go]. by rewrite of_to_go.
  - intros []. rewrite has_type_struct. cbn -[to_go go_type has_type].
    by rewrite to_go_typed.
  - reflexivity.
Defined.

#[export] Instance GoRepr_AppendEntriesReply : GoRepr AppendEntriesReply.
Proof.
  refine {|
    go_type := TStruct "AppendEntriesReply"
      [("Term", TInt); ("ConflictTerm", TInt); ("ConflictFirstIndex", TInt);
       ("Success", TBool)]%string;
    to_go r := VStruct
      [("Term", VInt (aer_Term r)); ("ConflictTerm", VInt (aer_ConflictTerm r));
       ("ConflictFirstIndex", VInt (aer_ConflictFirstIndex r));
       ("Success", VBool (aer_Success r))]%string;
    of_go v := match v with
      | VStruct [(_, VInt t); (_, VInt ct); (_, VInt ci); (_, VBool s)] =>
          Some (mkAEReply t ct ci s)
      | _ => None end |};
    [by intros [] | done | done].
Defined.

#[export] Instance GoRepr_RequestVoteArgs : GoRepr RequestVoteArgs.
Proof.
  refine {|
    go_type := TStruct "RequestVoteArgs"
      [("Term", TInt); ("CandidateId", TInt); ("LastLogIndex", TInt);
       ("LastLogTerm", TInt)]%string;
    to_go r := VStruct
      [("Term", VInt (rv_Term r)); ("CandidateId", VInt (rv_CandidateId r));
       ("LastLogIndex", VInt (rv_LastLogIndex r));
       ("LastLogTerm", VInt (rv_LastLogTerm r))]%string;
    of_go v := match v with
      | VStruct [(_, VInt t); (_, VInt c); (_, VInt li); (_, VInt lt)] =>
          Some (mkRVArgs t c li lt)
      | _ => None end |};
    [by intros [] | done | done].
Defined.

#[export] Instance GoRepr_RequestVoteReply : GoRepr RequestVoteReply.
Proof.
  refine {|
    go_type := TStruct "RequestVoteReply" [("Term", TInt); ("VoteGranted", TBool)]%string;
    to_go r := VStruct
      [("Term", VInt (rvr_Term r)); ("VoteGranted", VBool (rvr_VoteGranted r))]%string;
    of_go v := match v with
      | VStruct [(_, VInt t); (_, VBool g)] => Some (mkRVReply t g)
      | _ => None end |};
    [by intros [] | done | done].
Defined.

(** ** Operations *)

Definition GetState : ST Raft (Z * bool) :=
  term <- gets CurrentTerm ;;
  st <- gets state ;;
  mret (term, if decide (st = Leader) then true else false).

Definition raft_data (rf : Raft) : list Wire :=
  gob_append (Log rf) (gob_append (VoteFor rf) (gob_append (CurrentTerm rf) [])).

Definition persist : ST Raft unit :=
  modify (fun rf => set_persister (Persister.SaveRaftState (raft_data rf) (persister rf)) rf).

Definition readPersist (data : list Wire) : ST Raft unit :=
  if decide (data = []) then mret tt else
  match (x ← gob_next Z data; let '(currentTerm, r) := x in
         y ← gob_next Z r; let '(voteFor, r) := y in
         z ← gob_next (list LogEntry) r; let '(logs, r) := z in
         Some (currentTerm, voteFor, logs)) with
  | None => lift Fatal
  | Some (currentTerm, voteFor, logs) =>
      modify (set_CurrentTerm currentTerm) ;;;
      modify (set_VoteFor voteFor) ;;;
      modify (set_Log logs)
  end.

Definition state2name (st : ServerState) : string :=
  match st with
  | Follower => "Follower"
  | Candidate => "Candidate"
  | Leader => "Leader"
  end.

Definition switchTo (newState : ServerState) : ST Raft unit :=
  oldState <- gets state ;;
  modify (set_state newState) ;;;
  if decide (oldState = Leader /\ newState = Follower) then
    modify (fun rf => set_nonLeaderCond (S (nonLeaderCond rf)) rf)
  else if decide (oldState = Candidate /\ newState = Leader) then
    modify (fun rf => set_leaderCond (S (leaderCond rf)) rf)
  else mret tt.

Definition resetElectionTimer (tm : Reading) : ST Raft unit :=
  modify (fun rf => set_electionTimeout (heartbeatPeriod rf * 5 + Intn (300 - 150) (rnd tm)) rf) ;;;
  modify (set_latestHeardTime (now tm)).

Definition Millisecond : Z := 1000000.

(** The tests of electionTimeoutTick and heartbeatPeriodTick. *)
Definition electionTimeoutElapsed (tnow : Z) (rf : Raft) : bool :=
  let elapseTime := wrap64 (tnow - latestHeardTime rf) in
  bool_decide (electionTimeout rf <= Z.quot elapseTime Millisecond).

Definition heartbeatPeriodElapsed (tnow : Z) (rf : Raft) : bool :=
  let elapseTime := wrap64 (tnow - latestIssueTime rf) in
  bool_decide (heartbeatPeriod rf <= Z.quot elapseTime Millisecond).

Definition sentinel : LogEntry := mkEntry None 0.

(** [rf := &Raft{}]: every field at its zero value. *)
Definition zeroRaft : Raft :=
  mkRaft 0 Persister.MakePersister 0 Follower 0 0 0 0 0 0 0 0 0 0 [] 0 0 [] [].

(** Make up to the goroutines it starts. *)
Definition Make_init (peers : Z) (me_ : Z) (ps : Persister.t) (tm : Reading) : ST Raft unit :=
  modify (set_npeers peers) ;;;
  modify (set_persister ps) ;;;
  modify (set_me me_) ;;;
  modify (set_state Follower) ;;;
  modify (set_leaderId (-1)) ;;;
  modify (set_heartbeatPeriod 120) ;;;
  resetElectionTimer tm ;;;
  modify (set_CurrentTerm 0) ;;;
  modify (set_VoteFor (-1)) ;;;
  modify (set_commitIndex 0) ;;;
  modify (set_lastApplied 0) ;;;
  modify (set_Log ([] ++ [sentinel])) ;;;
  modify (set_nextIndex (replicate (Z.to_nat peers) 0)) ;;;
  modify (set_matchIndex (replicate (Z.to_nat peers) 0)).

(** Its last section, which reads what the persister holds by then. *)
Definition Make_load : ST Raft unit :=
  ps <- gets persister ;;
  readPersist (Persister.ReadRaftState ps).

Arguments Make_init : simpl never.
Arguments Make_load : simpl never.

(** Make when no section of a goroutine it started comes in between. *)
Definition Make (peers : Z) (me_ : Z) (ps : Persister.t) (tm : Reading) : res Raft :=
  x ← (Make_init peers me_ ps tm ;;; Make_load) zeroRaft; Ok (x.2).

Arguments Make : simpl never.

Definition Kill (rf : Raft) : Raft := rf.

(** ** Lemmas: what the building blocks change *)

(** The straight-line operations as functions. *)
Definition switched (s : ServerState) (rf : Raft) : Raft :=
  let rf' := set_state s rf in
  if decide (state rf = Leader /\ s = Follower) then set_nonLeaderCond (S (nonLeaderCond rf)) rf'
  else if decide (state rf = Candidate /\ s = Leader) then set_leaderCond (S (leaderCond rf)) rf'
  else rf'.

Definition timer_reset (tm : Reading) (rf : Raft) : Raft :=
  set_latestHeardTime (now tm)
    (set_electionTimeout (heartbeatPeriod rf * 5 + Intn (300 - 150) (rnd tm)) rf).

Definition persisted (rf : Raft) : Raft :=
  set_persister (Persister.SaveRaftState (raft_data rf) (persister rf)) rf.

Lemma switchTo_eq s rf : switchTo s rf = Ok (tt, switched s rf).
Proof. unfold switchTo, switched, st_bind, gets, modify. repeat case_decide; done. Qed.
Lemma resetElectionTimer_eq tm rf : resetElectionTimer tm rf = Ok (tt, timer_reset tm rf).
Proof. done. Qed.
Lemma persist_eq rf : persist rf = Ok (tt, persisted rf).
Proof. done. Qed.

(** Two servers agree on everything but conditions, clocks and storage. *)
Record same_core (rf rf' : Raft) : Prop := {
  sc_npeers : npeers rf' = npeers rf;
  sc_me : me rf' = me rf;
  sc_heartbeatPeriod : heartbeatPeriod rf' = heartbeatPeriod rf;
  sc_lastApplied : lastApplied rf' = lastApplied rf;
  sc_nextIndex : nextIndex rf' = nextIndex rf;
  sc_matchIndex : matchIndex rf' = matchIndex rf;
}.

#[export] Instance same_core_preorder : PreOrder same_core.
Proof.
  split; [by split |]. intros x y z [] []; split; congruence.
Qed.

Section switched.
Context (s : ServerState) (rf : Raft).
Local Ltac go := unfold switched; repeat case_decide; reflexivity.
Lemma switched_state : state (switched s rf) = s. Proof. go. Qed.
Lemma switched_CurrentTerm : CurrentTerm (switched s rf) = CurrentTerm rf. Proof. go. Qed.
Lemma switched_VoteFor : VoteFor (switched s rf) = VoteFor rf. Proof. go. Qed.
Lemma switched_Log : Log (switched s rf) = Log rf. Proof. go. Qed.
Lemma switched_commitIndex : commitIndex (switched s rf) = commitIndex rf. Proof. go. Qed.
Lemma switched_persister : persister (switched s rf) = persister rf. Proof. go. Qed.
Lemma switched_applyCond : applyCond (switched s rf) = applyCond rf. Proof. go. Qed.
Lemma switched_npeers : npeers (switched s rf) = npeers rf. Proof. go. Qed.
Lemma switched_me : me (switched s rf) = me rf. Proof. go. Qed.
Lemma switched_nextIndex : nextIndex (switched s rf) = nextIndex rf. Proof. go. Qed.
Lemma switched_matchIndex : matchIndex (switched s rf) = matchIndex rf. Proof. go. Qed.
Lemma switched_lastApplied : lastApplied (switched s rf) = lastApplied rf. Proof. go. Qed.
Lemma switched_heartbeatPeriod : heartbeatPeriod (switched s rf) = heartbeatPeriod rf.
  Proof. go. Qed.
Lemma switched_electionTimeout : electionTimeout (switched s rf) = electionTimeout rf.
  Proof. go. Qed.
Lemma switched_latestHeardTime : latestHeardTime (switched s rf) = latestHeardTime rf.
  Proof. go. Qed.
End switched.

Section persisted.
Context (rf : Raft).
Lemma persisted_npeers : npeers (persisted rf) = npeers rf. Proof. reflexivity. Qed.
Lemma persisted_me : me (persisted rf) = me rf. Proof. reflexivity. Qed.
Lemma persisted_state : state (persisted rf) = state rf. Proof. reflexivity. Qed.
Lemma persisted_leaderId : leaderId (persisted rf) = leaderId rf. Proof. reflexivity. Qed.
Lemma persisted_applyCond : applyCond (persisted rf) = applyCond rf. Proof. reflexivity. Qed.
Lemma persisted_leaderCond : leaderCond (persisted rf) = leaderCond rf. Proof. reflexivity. Qed.
Lemma persisted_nonLeaderCond : nonLeaderCond (persisted rf) = nonLeaderCond rf. Proof. reflexivity. Qed.
Lemma persisted_electionTimeout : electionTimeout (persisted rf) = electionTimeout rf. Proof. reflexivity. Qed.
Lemma persisted_heartbeatPeriod : heartbeatPeriod (persisted rf) = heartbeatPeriod rf. Proof. reflexivity. Qed.
Lemma persisted_latestIssueTime : latestIssueTime (persisted rf) = latestIssueTime rf. Proof. reflexivity. Qed.
Lemma persisted_latestHeardTime : latestHeardTime (persisted rf) = latestHeardTime rf. Proof. reflexivity. Qed.
Lemma persisted_CurrentTerm : CurrentTerm (persisted rf) = CurrentTerm rf. Proof. reflexivity. Qed.
Lemma persisted_VoteFor : VoteFor (persisted rf) = VoteFor rf. Proof. reflexivity. Qed.
Lemma persisted_Log : Log (persisted rf) = Log rf. Proof. reflexivity. Qed.
Lemma persisted_commitIndex : commitIndex (persisted rf) = commitIndex rf. Proof. reflexivity. Qed.
Lemma persisted_lastApplied : lastApplied (persisted rf) = lastApplied rf. Proof. reflexivity. Qed.
Lemma persisted_nextIndex : nextIndex (persisted rf) = nextIndex rf. Proof. reflexivity. Qed.
Lemma persisted_matchIndex : matchIndex (persisted rf) = matchIndex rf. Proof. reflexivity. Qed.
End persisted.

Section timer_reset.
Context (tm : Reading) (rf : Raft).
Lemma timer_reset_npeers : npeers (timer_reset tm rf) = npeers rf. Proof. reflexivity. Qed.
Lemma timer_reset_me : me (timer_reset tm rf) = me rf. Proof. reflexivity. Qed.
Lemma timer_reset_state : state (timer_reset tm rf) = state rf. Proof. reflexivity. Qed.
Lemma timer_reset_leaderId : leaderId (timer_reset tm rf) = leaderId rf. Proof. reflexivity. Qed.
Lemma timer_reset_applyCond : applyCond (timer_reset tm rf) = applyCond rf. Proof. reflexivity. Qed.
Lemma timer_reset_leaderCond : leaderCond (timer_reset tm rf) = leaderCond rf. Proof. reflexivity. Qed.
Lemma timer_reset_nonLeaderCond : nonLeaderCond (timer_reset tm rf) = nonLeaderCond rf. Proof. reflexivity. Qed.
Lemma timer_reset_heartbeatPeriod : heartbeatPeriod (timer_reset tm rf) = heartbeatPeriod rf. Proof. reflexivity. Qed.
Lemma timer_reset_latestIssueTime : latestIssueTime (timer_reset tm rf) = latestIssueTime rf. Proof. reflexivity. Qed.
Lemma timer_reset_CurrentTerm : CurrentTerm (timer_reset tm rf) = CurrentTerm rf. Proof. reflexivity. Qed.
Lemma timer_reset_VoteFor : VoteFor (timer_reset tm rf) = VoteFor rf. Proof. reflexivity. Qed.
Lemma timer_reset_Log : Log (timer_reset tm rf) = Log rf. Proof. reflexivity. Qed.
Lemma timer_reset_commitIndex : commitIndex (timer_reset tm rf) = commitIndex rf. Proof. reflexivity. Qed.
Lemma timer_reset_lastApplied : lastApplied (timer_reset tm rf) = lastApplied rf. Proof. reflexivity. Qed.
Lemma timer_reset_nextIndex : nextIndex (timer_reset tm rf) = nextIndex rf. Proof. reflexivity. Qed.
Lemma timer_reset_matchIndex : matchIndex (timer_reset tm rf) = matchIndex rf. Proof. reflexivity. Qed.
Lemma timer_reset_persister : persister (timer_reset tm rf) = persister rf. Proof. reflexivity. Qed.
End timer_reset.

Create Rewrite HintDb raft.
#[export] Hint Rewrite persisted_npeers persisted_me persisted_state persisted_leaderId persisted_applyCond persisted_leaderCond persisted_nonLeaderCond persisted_electionTimeout persisted_heartbeatPeriod persisted_latestIssueTime persisted_latestHeardTime persisted_CurrentTerm persisted_VoteFor persisted_Log persisted_commitIndex persisted_lastApplied persisted_nextIndex persisted_matchIndex : raft.
#[export] Hint Rewrite timer_reset_npeers timer_reset_me timer_reset_state timer_reset_leaderId timer_reset_applyCond timer_reset_leaderCond timer_reset_nonLeaderCond timer_reset_heartbeatPeriod timer_reset_latestIssueTime timer_reset_CurrentTerm timer_reset_VoteFor timer_reset_Log timer_reset_commitIndex timer_reset_lastApplied timer_reset_nextIndex timer_reset_matchIndex timer_reset_persister : raft.
#[export] Hint Rewrite switched_state switched_CurrentTerm switched_VoteFor switched_Log
  switched_commitIndex switched_persister switched_applyCond switched_npeers switched_me
  switched_nextIndex switched_matchIndex switched_lastApplied switched_heartbeatPeriod
  switched_electionTimeout switched_latestHeardTime : raft.

(** Evaluate straight-line code on a state. *)
(** A new server before it reads the persisted state. *)
Definition made (peers me_ : Z) (ps : Persister.t) (tm : Reading) : Raft :=
  mkRaft peers ps me_ Follower (-1) 0 0 0 (120 * 5 + Intn (300 - 150) (rnd tm)) 120 0 (now tm) 0 (-1) [sentinel] 0 0
    (replicate (Z.to_nat peers) 0) (replicate (Z.to_nat peers) 0).

Lemma Make_init_eq peers me_ ps tm : Make_init peers me_ ps tm zeroRaft = Ok (tt, made peers me_ ps tm).
Proof. reflexivity. Qed.

Lemma Make_eq peers me_ ps tm :
  Make peers me_ ps tm = (x ← readPersist (Persister.ReadRaftState ps) (made peers me_ ps tm); Ok (x.2)).
Proof. unfold Make, st_bind at 1. by rewrite Make_init_eq. Qed.
#[global] Opaque Make.

Ltac raft_run :=
  repeat first
    [ progress unfold st_bind, gets, modify, lift, when, mret, st_ret
    | progress rewrite ?switchTo_eq, ?resetElectionTimer_eq, ?persist_eq
    | progress cbn -[switched Intn raft_data len] ].

Ltac raft_run_in H :=
  repeat first
    [ progress unfold st_bind, gets, modify, lift, when, mret, st_ret in H
    | progress rewrite ?switchTo_eq, ?resetElectionTimer_eq, ?persist_eq in H
    | progress cbn -[switched Intn raft_data len] in H ].

(** Read the fields of a state built by assignments. *)
Ltac raft_fields :=
  repeat first
    [ progress cbn [persister npeers me state leaderId applyCond leaderCond nonLeaderCond electionTimeout heartbeatPeriod latestIssueTime latestHeardTime CurrentTerm VoteFor Log commitIndex lastApplied nextIndex matchIndex
        set_persister set_npeers set_me set_state set_leaderId set_applyCond set_leaderCond set_nonLeaderCond set_electionTimeout set_heartbeatPeriod set_latestIssueTime set_latestHeardTime set_CurrentTerm set_VoteFor set_Log set_commitIndex set_lastApplied set_nextIndex set_matchIndex]
    | progress autorewrite with raft ].

(** ** Durability: what a restarted server reads *)

(** The stable storage of [rf] holds its current persistent state. *)
Definition durable (rf : Raft) : Prop :=
  Persister.raftstate (persister rf) = raft_data rf.

(** The three values [persist] writes, each decodable in front of anything. *)
Lemma raft_data_items rf :
  exists x y z, raft_data rf = [x; y; z] /\
    (forall r, gob_next Z (x :: r) = Some (CurrentTerm rf, r)) /\
    (forall r, gob_next Z (y :: r) = Some (VoteFor rf, r)) /\
    (forall r, gob_next (list LogEntry) (z :: r) = Some (Log rf, r)).
Proof.
  unfold raft_data.
  destruct (gob_append_next (CurrentTerm rf) []) as (x & -> & Hx).
  destruct (gob_append_next (VoteFor rf) ([] ++ [x])) as (y & -> & Hy).
  destruct (gob_append_next (Log rf) (([] ++ [x]) ++ [y])) as (z & -> & Hz).
  by exists x, y, z.
Qed.

Lemma raft_data_length rf : length (raft_data rf) = 3%nat.
Proof. by destruct (raft_data_items rf) as (x & y & z & -> & _). Qed.

Lemma raft_data_ne rf : raft_data rf <> [].
Proof. by destruct (raft_data_items rf) as (x & y & z & -> & _). Qed.

(** Reading back what [persist] wrote restores exactly the three fields. *)
Lemma readPersist_raft_data rf rf0 :
  readPersist (raft_data rf) rf0 =
  Ok (tt, set_Log (Log rf) (set_VoteFor (VoteFor rf) (set_CurrentTerm (CurrentTerm rf) rf0))).
Proof.
  unfold readPersist. rewrite decide_False by apply raft_data_ne.
  destruct (raft_data_items rf) as (x & y & z & -> & Hx & Hy & Hz).
  rewrite Hx. cbn -[gob_next]. rewrite Hy. cbn -[gob_next]. by rewrite Hz.
Qed.

Lemma persisted_durable rf : durable (persisted rf).
Proof. done. Qed.
#[export] Hint Resolve persisted_durable : go.

(** ** Well-formed logs: the sentinel at index 0, real terms above it *)
Definition wf_log (log : list LogEntry) : Prop :=
  exists l, log = sentinel :: l /\ Forall (fun e => 0 < Term e) l.

Lemma wf_log_head log : wf_log log -> log !! 0%nat = Some sentinel.
Proof. by intros (l & -> & _). Qed.

Lemma wf_log_pos log j x : wf_log log -> log !! j = Some x -> j <> 0%nat -> 0 < Term x.
Proof.
  intros (l & -> & Hl) Hj ?. destruct j as [| j]; [done |]. cbn in Hj.
  by eapply Forall_lookup_1 in Hl.
Qed.

Lemma wf_log_len log : wf_log log -> 0 < len log.
Proof. intros (l & -> & _). rewrite len_cons. pose proof (len_nonneg l). lia. Qed.

Lemma wf_log_take_app log n k :
  wf_log log -> (0 < n)%nat -> Forall (fun e => 0 < Term e) k -> wf_log (take n log ++ k).
Proof.
  intros (l & -> & Hl) ? Hk. destruct n as [| n]; [lia |]. cbn.
  exists (take n l ++ k). split; [done |]. by apply Forall_app_2; [apply Forall_take |].
Qed.

Lemma wf_log_snoc log e : wf_log log -> 0 < Term e -> wf_log (log ++ [e]).
Proof.
  intros Hl ?. rewrite <- (firstn_all log). pose proof (wf_log_len log Hl) as Hlen.
  apply wf_log_take_app; [done | | by repeat constructor]. unfold len in Hlen. lia.
Qed.

Lemma wf_log_zero_iff log j x : wf_log log -> log !! j = Some x -> Term x = 0 <-> j = 0%nat.
Proof.
  intros Hl Hj. split.
  - intros Ht. destruct (decide (j = 0%nat)); [done |].
    pose proof (wf_log_pos log j x Hl Hj). lia.
  - intros ->. rewrite (wf_log_head _ Hl) in Hj. by simplify_eq.
Qed.

Lemma wf_log_sentinel : wf_log [sentinel].
Proof. by exists []. Qed.
#[export] Hint Resolve wf_log_sentinel wf_log_snoc wf_log_len : go.

(** ** Properties *)

(** readPersist accepts exactly the data persist wrote: read back in full it
    restores CurrentTerm, VoteFor and Log and touches nothing else; data cut off
    after some of the three values ends in log.Fatal, and empty data (a server
    that never persisted) leaves the server as Make initialised it. *)
Theorem readPersist_of_persist rf rf0 k :
  readPersist (take k (raft_data rf)) rf0 =
  match k with
  | O => Ok (tt, rf0)
  | 1%nat | 2%nat => Fatal
  | _ => Ok (tt, set_Log (Log rf) (set_VoteFor (VoteFor rf) (set_CurrentTerm (CurrentTerm rf) rf0)))
  end.
Proof.
  destruct k as [| [| [| k]]]; cycle 3.
  { rewrite take_ge by (rewrite raft_data_length; lia). apply readPersist_raft_data. }
  all: destruct (raft_data_items rf) as (x & y & z & -> & Hx & Hy & Hz).
  - done.
  - unfold readPersist. cbn -[gob_next]. rewrite Hx. reflexivity.
  - unfold readPersist. cbn -[gob_next]. rewrite Hx. cbn -[gob_next]. rewrite Hy. reflexivity.
Qed.
