(* ===== verification/RaftRPC.v ===== *)
(** * The RPC handlers of a Raft server

    Models AppendEntries, RequestVote and getNextIndex of src/raft/raft.go.
    Each handler runs under one critical section of rf.mu and fills a reply
    that Service.dispatch allocated with zero values. *)

From S2P Require Import Prelude LabGob Persister Raft.

(** ** AppendEntries *)

(** [for i := 0; isMatch && i < len(args.Entries); i++]: whether the log
    already has all the entries from [at_] on, by term. *)
Fixpoint isMatchLoop (log : list LogEntry) (at_ : Z) (entries : list LogEntry) : res bool :=
  match entries with
  | [] => Ok true
  | e :: entries =>
      if decide (len log - 1 < at_) then Ok false
      else
        x ← idx log at_;
        if decide (Term x <> Term e) then Ok false
        else isMatchLoop log (at_ + 1) entries
  end.

(** [for i := reply.ConflictFirstIndex - 1; i >= 0; i--]; the first argument
    is [i + 1]. *)
Fixpoint conflictLoop (n : nat) (log : list LogEntry) (ct cfi : Z) : res Z :=
  match n with
  | O => Ok cfi
  | S i =>
      x ← idx log (Z.of_nat i);
      if decide (Term x <> ct) then Ok cfi else conflictLoop i log ct (cfi - 1)
  end.

(** [len(rf.Log) > args.PrevLogIndex && rf.Log[args.PrevLogIndex].Term == args.PrevLogTerm] *)
Definition consistencyCheck (log : list LogEntry) (args : AppendEntriesArgs) : res bool :=
  if decide (len log > ae_PrevLogIndex args) then
    x ← idx log (ae_PrevLogIndex args);
    Ok (bool_decide (Term x = ae_PrevLogTerm args))
  else Ok false.

Definition AppendEntries (t1 t2 : Reading) (args : AppendEntriesArgs) : ST Raft AppendEntriesReply :=
  ct <- gets CurrentTerm ;;
  if decide (ct <= ae_Term args) then
    when (bool_decide (ct < ae_Term args))
      (modify (set_CurrentTerm (ae_Term args)) ;;;
       resetElectionTimer t1 ;;;
       modify (set_VoteFor (-1)) ;;;
       switchTo Follower ;;;
       persist) ;;;
    log <- gets Log ;;
    ok <- lift (consistencyCheck log args) ;;
    if (ok : bool) then
      switchTo Follower ;;;
      let next := ae_PrevLogIndex args + 1 in
      isMatch <- lift (isMatchLoop log next (ae_Entries args)) ;;
      when (negb isMatch)
        (pre <- lift (slice log 0 next) ;;
         modify (set_Log (pre ++ ae_Entries args))) ;;;
      let indexOfLastOfNewEntry := ae_PrevLogIndex args + len (ae_Entries args) in
      ci <- gets commitIndex ;;
      when (bool_decide (ae_LeaderCommit args > ci))
        (modify (set_commitIndex (ae_LeaderCommit args)) ;;;
         when (bool_decide (ae_LeaderCommit args > indexOfLastOfNewEntry))
           (modify (set_commitIndex indexOfLastOfNewEntry)) ;;;
         modify (fun rf => set_applyCond (S (applyCond rf)) rf)) ;;;
      resetElectionTimer t2 ;;;
      modify (set_leaderId (ae_LeaderId args)) ;;;
      persist ;;;
      term <- gets CurrentTerm ;;
      mret (mkAEReply term 0 0 true)
    else
      let next := ae_PrevLogIndex args + 1 in
      term <- gets CurrentTerm ;;
      if decide (len log < next) then
        mret (mkAEReply term 0 (len log) false)
      else
        x <- lift (idx log (ae_PrevLogIndex args)) ;;
        cfi <- lift (conflictLoop (Z.to_nat (ae_PrevLogIndex args)) log (Term x)
                       (ae_PrevLogIndex args)) ;;
        mret (mkAEReply term (Term x) cfi false)
  else
    term <- gets CurrentTerm ;;
    mret (mkAEReply term 0 0 false).

(** ** RequestVote *)

Definition RequestVote (t1 : Reading) (args : RequestVoteArgs) : ST Raft RequestVoteReply :=
  let reject : ST Raft RequestVoteReply :=
    term <- gets CurrentTerm ;; mret (mkRVReply term false) in
  ct <- gets CurrentTerm ;;
  if decide (ct <= rv_Term args) then
    when (bool_decide (ct < rv_Term args))
      (modify (set_CurrentTerm (rv_Term args)) ;;;
       modify (set_VoteFor (-1)) ;;;
       switchTo Follower ;;;
       persist) ;;;
    vf <- gets VoteFor ;;
    if decide (vf = -1 \/ vf = rv_CandidateId args) then
      log <- gets Log ;;
      let lastLogIndex := len log - 1 in
      x <- lift (idx log lastLogIndex) ;;
      let lastLogTerm := Term x in
      if decide (lastLogTerm < rv_LastLogTerm args \/
                 (lastLogTerm = rv_LastLogTerm args /\ lastLogIndex <= rv_LastLogIndex args)) then
        modify (set_VoteFor (rv_CandidateId args)) ;;;
        resetElectionTimer t1 ;;;
        switchTo Follower ;;;
        persist ;;;
        term <- gets CurrentTerm ;;
        mret (mkRVReply term true)
      else reject
    else reject
  else reject.

(** ** The handlers up to their first call of persist

    Both handlers may call persist twice: a server that crashes in between has
    written the new term without the rest. *)

Definition AppendEntries_begin (t1 : Reading) (args : AppendEntriesArgs) : ST Raft unit :=
  ct <- gets CurrentTerm ;;
  when (bool_decide (ct < ae_Term args))
    (modify (set_CurrentTerm (ae_Term args)) ;;;
     resetElectionTimer t1 ;;;
     modify (set_VoteFor (-1)) ;;;
     switchTo Follower ;;;
     persist).

Definition RequestVote_begin (args : RequestVoteArgs) : ST Raft unit :=
  ct <- gets CurrentTerm ;;
  when (bool_decide (ct < rv_Term args))
    (modify (set_CurrentTerm (rv_Term args)) ;;;
     modify (set_VoteFor (-1)) ;;;
     switchTo Follower ;;;
     persist).

(** ** getNextIndex *)

(** [for i := conflictIndex; i > 0; i--]; the first argument is [i]. *)
Fixpoint searchBack (i : nat) (log : list LogEntry) (ct ci : Z) : res Z :=
  match i with
  | O => Ok ci
  | S i' =>
      x ← idx log (Z.of_nat i);
      if decide (Term x = ct) then Ok ci else searchBack i' log ct (ci - 1)
  end.

(** [for i := conflictIndex+1; i < nextIndex; i++]; the first argument is the
    number of iterations left. *)
Fixpoint searchForward (n : nat) (i : Z) (log : list LogEntry) (ct ci : Z) : res Z :=
  match n with
  | O => Ok ci
  | S n =>
      x ← idx log i;
      if decide (Term x <> ct) then Ok ci else searchForward n (i + 1) log ct (ci + 1)
  end.

Definition getNextIndex (log : list LogEntry) (reply : AppendEntriesReply) (nextIndex_ : Z) : res Z :=
  if decide (aer_ConflictTerm reply = 0) then Ok (aer_ConflictFirstIndex reply)
  else
    let conflictIndex := aer_ConflictFirstIndex reply in
    x ← idx log conflictIndex;
    if decide (Term x >= aer_ConflictTerm reply) then
      ci ← searchBack (Z.to_nat conflictIndex) log (aer_ConflictTerm reply) conflictIndex;
      if decide (ci <> 0) then
        ci' ← searchForward (Z.to_nat (nextIndex_ - (ci + 1))) (ci + 1) log
                (aer_ConflictTerm reply) ci;
        Ok (ci' + 1)
      else Ok (aer_ConflictFirstIndex reply)
    else Ok (aer_ConflictFirstIndex reply).

(** ** The loops *)

(** The terms of [log] from position [n] on agree with those of [entries]. *)
Definition terms_match (log : list LogEntry) (n : nat) (entries : list LogEntry) : Prop :=
  Term <$> take (length entries) (drop n log) = Term <$> entries.

#[export] Instance terms_match_dec log n entries : Decision (terms_match log n entries).
Proof. unfold terms_match. apply _. Defined.

Lemma terms_match_cons log n e entries :
  terms_match log n (e :: entries) <->
  exists x, log !! n = Some x /\ Term x = Term e /\ terms_match log (S n) entries.
Proof.
  unfold terms_match. destruct (log !! n) as [x|] eqn:E.
  - rewrite (drop_S _ _ _ E). cbn. split.
    + intros [= ??]. by exists x.
    + intros (y & [= <-] & H1 & H2). congruence.
  - rewrite drop_ge by (by apply lookup_ge_None). rewrite take_nil. cbn. split.
    + done.
    + by intros (? & ? & _).
Qed.

Lemma isMatchLoop_eq log at_ entries :
  0 <= at_ ->
  isMatchLoop log at_ entries = Ok (bool_decide (terms_match log (Z.to_nat at_) entries)).
Proof.
  revert at_. induction entries as [| e entries IH]; intros at_ Hat.
  { cbn. by rewrite bool_decide_true by (unfold terms_match; by rewrite take_0). }
  cbn. case_decide as Hend.
  - rewrite bool_decide_false; [done |]. rewrite terms_match_cons.
    intros (x & Hx%lookup_lt_Some & _). unfold len in Hend. lia.
  - destruct (idx_in_range log at_) as [x Hx]; [lia |]. rewrite Hx. cbn.
    apply idx_Ok in Hx as [_ Hx]. case_decide as Ht.
    + rewrite bool_decide_false; [done |]. rewrite terms_match_cons.
      intros (y & Hy & ? & _). congruence.
    + rewrite IH by lia. rewrite Z2Nat.inj_add by lia. f_equal.
      apply bool_decide_ext. rewrite terms_match_cons, Nat.add_1_r.
      split; [intros; exists x; split_and!; [done | | done] | naive_solver].
      destruct (decide (Term x = Term e)); [done | tauto].
Qed.

(** [conflictLoop] stops at the first index of the run of [ct] that ends just
    below its start. *)
Lemma conflictLoop_spec n log ct cfi :
  Z.of_nat n <= len log ->
  exists k : nat, (k <= n)%nat /\ conflictLoop n log ct cfi = Ok (cfi - Z.of_nat k) /\
    (forall j, (n - k <= j < n)%nat -> exists x, log !! j = Some x /\ Term x = ct) /\
    (k = n \/ exists x, log !! (n - S k)%nat = Some x /\ Term x <> ct).
Proof.
  revert cfi. induction n as [| n IH]; intros cfi Hn.
  { exists 0%nat. cbn. split_and!; [lia | f_equal; lia | lia | by left]. }
  cbn [conflictLoop]. destruct (idx_in_range log (Z.of_nat n)) as [x Hx]; [lia |].
  rewrite Hx. cbn [mbind res_bind]. apply idx_Ok in Hx as [_ Hx]. rewrite Nat2Z.id in Hx.
  case_decide as Ht.
  - exists 0%nat. split_and!; [lia | f_equal; lia | lia |].
    right. exists x. by rewrite Nat.sub_1_r.
  - destruct (IH (cfi - 1)) as (k & ? & -> & Hrun & Hend); [lia |].
    exists (S k). split_and!; [lia | f_equal; lia | |].
    + intros j Hj. destruct (decide (j = n)) as [-> |]; [| apply Hrun; lia].
      exists x. split; [done |]. destruct (decide (Term x = ct)); [done | tauto].
    + destruct Hend as [-> | (y & ? & ?)]; [by left |]. right. by exists y.
Qed.

(** ** AppendEntries, branch by branch *)

(** The step-down part: adopting a newer term. *)
Definition adopted (t : option Reading) (T : Z) (rf : Raft) : Raft :=
  if decide (CurrentTerm rf < T) then
    let rf1 := set_CurrentTerm T rf in
    let rf2 := match t with Some tm => timer_reset tm rf1 | None => rf1 end in
    persisted (switched Follower (set_VoteFor (-1) rf2))
  else rf.

Lemma adopted_CurrentTerm t T rf :
  CurrentTerm rf <= T -> CurrentTerm (adopted t T rf) = T.
Proof.
  intros ?. unfold adopted. case_decide; [| lia]. destruct t; by raft_fields.
Qed.
Lemma adopted_VoteFor t T rf :
  VoteFor (adopted t T rf) = if decide (CurrentTerm rf < T) then -1 else VoteFor rf.
Proof. unfold adopted. case_decide; [| done]. destruct t; by raft_fields. Qed.
Lemma adopted_state t T rf :
  state (adopted t T rf) = if decide (CurrentTerm rf < T) then Follower else state rf.
Proof. unfold adopted. case_decide; [| done]. destruct t; by raft_fields. Qed.
Lemma adopted_Log t T rf : Log (adopted t T rf) = Log rf.
Proof. unfold adopted. case_decide; [| done]. destruct t; by raft_fields. Qed.
Lemma adopted_commitIndex t T rf : commitIndex (adopted t T rf) = commitIndex rf.
Proof. unfold adopted. case_decide; [| done]. destruct t; by raft_fields. Qed.
Lemma adopted_same_core t T rf : same_core rf (adopted t T rf).
Proof.
  unfold adopted. case_decide; [| done]. destruct t; split; by raft_fields.
Qed.
Lemma adopted_durable t T rf : durable rf -> durable (adopted t T rf).
Proof. unfold adopted. case_decide; auto with go. Qed.

(** The log after an accepted AppendEntries. *)
Definition merged (log : list LogEntry) (args : AppendEntriesArgs) : list LogEntry :=
  let next := Z.to_nat (ae_PrevLogIndex args + 1) in
  if decide (terms_match log next (ae_Entries args)) then log
  else take next log ++ ae_Entries args.

(** The commit index after an accepted AppendEntries. *)
Definition advanced (ci : Z) (args : AppendEntriesArgs) : Z :=
  if decide (ae_LeaderCommit args > ci)
  then ae_LeaderCommit args `min` (ae_PrevLogIndex args + len (ae_Entries args))
  else ci.

Lemma consistencyCheck_Ok log args :
  0 <= ae_PrevLogIndex args ->
  consistencyCheck log args =
  Ok (bool_decide (Term <$> log !! Z.to_nat (ae_PrevLogIndex args) = Some (ae_PrevLogTerm args))).
Proof.
  intros ?. unfold consistencyCheck. case_decide as Hl.
  - destruct (idx_in_range log (ae_PrevLogIndex args)) as [x Hx]; [lia |].
    rewrite Hx. cbn. apply idx_Ok in Hx as [_ ->]. cbn. f_equal.
    apply bool_decide_ext. split; congruence.
  - rewrite bool_decide_false; [done |]. rewrite lookup_ge_None_2; [done |].
    unfold len in Hl. lia.
Qed.

(** What the accepted branch leaves behind. *)
Record ae_accepted (args : AppendEntriesArgs) (rf rf' : Raft) : Prop := {
  aa_core : same_core rf rf';
  aa_term : CurrentTerm rf' = ae_Term args;
  aa_vote : VoteFor rf' = if decide (CurrentTerm rf < ae_Term args) then -1 else VoteFor rf;
  aa_state : state rf' = Follower;
  aa_log : Log rf' = merged (Log rf) args;
  aa_commit : commitIndex rf' = advanced (commitIndex rf) args;
  aa_leader : leaderId rf' = ae_LeaderId args;
  aa_durable : durable rf';
}.

Definition prev_matches (log : list LogEntry) (args : AppendEntriesArgs) : Prop :=
  Term <$> log !! Z.to_nat (ae_PrevLogIndex args) = Some (ae_PrevLogTerm args).

#[export] Instance prev_matches_dec log args : Decision (prev_matches log args).
Proof. unfold prev_matches. apply _. Defined.

Lemma AppendEntries_stale t1 t2 args rf :
  ae_Term args < CurrentTerm rf ->
  AppendEntries t1 t2 args rf = Ok (mkAEReply (CurrentTerm rf) 0 0 false, rf).
Proof. intros ?. unfold AppendEntries. raft_run. by rewrite decide_False by lia. Qed.

(** The blocks of the handler as functions. *)
Definition copied (args : AppendEntriesArgs) (rf : Raft) : Raft :=
  if decide (terms_match (Log rf) (Z.to_nat (ae_PrevLogIndex args + 1)) (ae_Entries args))
  then rf
  else set_Log (take (Z.to_nat (ae_PrevLogIndex args + 1)) (Log rf) ++ ae_Entries args) rf.

Definition committed (args : AppendEntriesArgs) (rf : Raft) : Raft :=
  if decide (ae_LeaderCommit args > commitIndex rf)
  then set_applyCond (S (applyCond rf)) (set_commitIndex (advanced (commitIndex rf) args) rf)
  else rf.

Section copied.
Context (args : AppendEntriesArgs) (rf : Raft).
Local Ltac go := unfold copied; case_decide; reflexivity.
Lemma copied_CurrentTerm : CurrentTerm (copied args rf) = CurrentTerm rf. Proof. go. Qed.
Lemma copied_VoteFor : VoteFor (copied args rf) = VoteFor rf. Proof. go. Qed.
Lemma copied_state : state (copied args rf) = state rf. Proof. go. Qed.
Lemma copied_commitIndex : commitIndex (copied args rf) = commitIndex rf. Proof. go. Qed.
Lemma copied_Log : Log (copied args rf) = merged (Log rf) args.
  Proof. unfold copied, merged. by case_decide. Qed.
Lemma copied_same_core : same_core rf (copied args rf).
  Proof. unfold copied. by case_decide. Qed.
End copied.

Section committed.
Context (args : AppendEntriesArgs) (rf : Raft).
Local Ltac go := unfold committed; case_decide; reflexivity.
Lemma committed_CurrentTerm : CurrentTerm (committed args rf) = CurrentTerm rf. Proof. go. Qed.
Lemma committed_VoteFor : VoteFor (committed args rf) = VoteFor rf. Proof. go. Qed.
Lemma committed_state : state (committed args rf) = state rf. Proof. go. Qed.
Lemma committed_Log : Log (committed args rf) = Log rf. Proof. go. Qed.
Lemma committed_commitIndex : commitIndex (committed args rf) = advanced (commitIndex rf) args.
  Proof. unfold committed, advanced. by case_decide. Qed.
Lemma committed_same_core : same_core rf (committed args rf).
  Proof. unfold committed. by case_decide. Qed.
End committed.

#[export] Hint Rewrite copied_CurrentTerm copied_VoteFor copied_state copied_commitIndex copied_Log
  committed_CurrentTerm committed_VoteFor committed_state committed_Log committed_commitIndex : raft.

Lemma switched_same_core s rf : same_core rf (switched s rf).
Proof. split; by autorewrite with raft. Qed.
Lemma timer_reset_same_core tm rf : same_core rf (timer_reset tm rf).
Proof. done. Qed.
Lemma persisted_same_core rf : same_core rf (persisted rf).
Proof. done. Qed.
Lemma set_leaderId_same_core i rf : same_core rf (set_leaderId i rf).
Proof. done. Qed.

Lemma ae_adopt_eq t1 T rf :
  when (bool_decide (CurrentTerm rf < T))
    (modify (set_CurrentTerm T) ;;; resetElectionTimer t1 ;;;
     modify (set_VoteFor (-1)) ;;; switchTo Follower ;;; persist) rf
  = Ok (tt, adopted (Some t1) T rf).
Proof. unfold adopted, when. case_bool_decide; case_decide; try done. by raft_run. Qed.

Lemma ae_copy_eq args log rf :
  0 <= ae_PrevLogIndex args -> prev_matches log args -> Log rf = log ->
  when (negb (bool_decide
      (terms_match log (Z.to_nat (ae_PrevLogIndex args + 1)) (ae_Entries args))))
    (pre <- lift (slice log 0 (ae_PrevLogIndex args + 1)) ;;
     modify (set_Log (pre ++ ae_Entries args))) rf
  = Ok (tt, copied args rf).
Proof.
  intros Hp Hm <-. unfold when, copied. case_bool_decide; case_decide; try done. cbn [negb].
  unfold prev_matches in Hm. apply fmap_Some in Hm as (x & Hx%lookup_lt_Some & _).
  unfold st_bind, lift.
  rewrite (proj2 (slice_Ok _ _ _ (take (Z.to_nat (ae_PrevLogIndex args + 1)) (Log rf)))).
  - done.
  - unfold len. split_and!; try lia. by rewrite drop_0, Z.sub_0_r.
Qed.

Lemma ae_commit_eq args rf :
  when (bool_decide (ae_LeaderCommit args > commitIndex rf))
    (modify (set_commitIndex (ae_LeaderCommit args)) ;;;
     when (bool_decide
         (ae_LeaderCommit args > ae_PrevLogIndex args + len (ae_Entries args)))
       (modify (set_commitIndex (ae_PrevLogIndex args + len (ae_Entries args)))) ;;;
     modify (fun rf => set_applyCond (S (applyCond rf)) rf)) rf
  = Ok (tt, committed args rf).
Proof.
  unfold committed, when, advanced.
  case_bool_decide; [| by rewrite decide_False]. rewrite !decide_True by done.
  raft_run. case_bool_decide; [by rewrite Z.min_r by lia | by rewrite Z.min_l by lia].
Qed.

Lemma AppendEntries_accept_eq t1 t2 args rf :
  CurrentTerm rf <= ae_Term args -> 0 <= ae_PrevLogIndex args -> prev_matches (Log rf) args ->
  AppendEntries t1 t2 args rf =
  Ok (mkAEReply (ae_Term args) 0 0 true,
      persisted (set_leaderId (ae_LeaderId args) (timer_reset t2
        (committed args (copied args (switched Follower (adopted (Some t1) (ae_Term args) rf))))))).
Proof.
  intros Ht Hp Hm. unfold AppendEntries, st_bind at 1, gets at 1.
  rewrite decide_True by done.
  unfold st_bind at 1. rewrite ae_adopt_eq.
  unfold st_bind at 1, gets at 1. unfold st_bind at 1, lift at 1.
  rewrite adopted_Log, consistencyCheck_Ok, bool_decide_true by done. cbn [mbind res_bind].
  unfold st_bind at 1. rewrite switchTo_eq.
  unfold st_bind at 1, lift at 1. rewrite isMatchLoop_eq by lia. cbn [mbind res_bind].
  unfold st_bind at 1. rewrite ae_copy_eq; [| done | done |
    by autorewrite with raft; rewrite adopted_Log].
  unfold st_bind at 1, gets at 1. unfold st_bind at 1. rewrite ae_commit_eq.
  raft_run. do 3 f_equal. rewrite committed_CurrentTerm, copied_CurrentTerm, switched_CurrentTerm.
  by apply adopted_CurrentTerm.
Qed.

Lemma AppendEntries_accept t1 t2 args rf :
  CurrentTerm rf <= ae_Term args -> 0 <= ae_PrevLogIndex args -> prev_matches (Log rf) args ->
  exists rf', AppendEntries t1 t2 args rf = Ok (mkAEReply (ae_Term args) 0 0 true, rf') /\
    ae_accepted args rf rf'.
Proof.
  intros Ht Hp Hm. eexists. split; [by apply AppendEntries_accept_eq |].
  split; [| | | | | | | apply persisted_durable].
  - etrans; [| apply persisted_same_core]. etrans; [| apply set_leaderId_same_core].
    etrans; [| apply timer_reset_same_core]. etrans; [| apply committed_same_core].
    etrans; [| apply copied_same_core]. etrans; [| apply switched_same_core].
    apply adopted_same_core.
  - raft_fields. by apply adopted_CurrentTerm.
  - raft_fields. apply adopted_VoteFor.
  - by raft_fields.
  - raft_fields. by rewrite adopted_Log.
  - raft_fields. by rewrite adopted_commitIndex.
  - by raft_fields.
Qed.

(** What the rejecting branch answers: no entry at PrevLogIndex, or one of
    another term with the start of that term's run. *)
Definition conflict_reply (log : list LogEntry) (prev : Z) (ct cfi : Z) : Prop :=
  (len log <= prev /\ ct = 0 /\ cfi = len log) \/
  (exists x, log !! Z.to_nat prev = Some x /\ ct = Term x /\ 0 <= cfi <= prev /\
     (forall j, cfi <= Z.of_nat j <= prev -> exists y, log !! j = Some y /\ Term y = ct) /\
     (cfi = 0 \/ exists y, log !! Z.to_nat (cfi - 1) = Some y /\ Term y <> ct)).

Lemma AppendEntries_reject t1 t2 args rf :
  CurrentTerm rf <= ae_Term args -> 0 <= ae_PrevLogIndex args -> ~ prev_matches (Log rf) args ->
  exists ct cfi,
    AppendEntries t1 t2 args rf =
      Ok (mkAEReply (ae_Term args) ct cfi false, adopted (Some t1) (ae_Term args) rf) /\
    conflict_reply (Log rf) (ae_PrevLogIndex args) ct cfi.
Proof.
  intros Ht Hp Hm. unfold AppendEntries, st_bind at 1, gets at 1.
  rewrite decide_True by done.
  unfold st_bind at 1. rewrite ae_adopt_eq.
  unfold st_bind at 1, gets at 1. unfold st_bind at 1, lift at 1.
  rewrite adopted_Log, consistencyCheck_Ok, bool_decide_false by done. cbn [mbind res_bind].
  unfold st_bind at 1, gets at 1. rewrite adopted_CurrentTerm by done.
  case_decide as Hl.
  { eexists _, _. split; [done |]. left. split_and!; [lia | done | done]. }
  destruct (idx_in_range (Log rf) (ae_PrevLogIndex args)) as [x Hx]; [lia |].
  unfold st_bind at 1, lift at 1. rewrite Hx. cbn [mbind res_bind].
  unfold st_bind at 1, lift at 1.
  destruct (conflictLoop_spec (Z.to_nat (ae_PrevLogIndex args)) (Log rf) (Term x)
    (ae_PrevLogIndex args)) as (k & Hk & -> & Hrun & Hend); [lia |].
  cbn [mbind res_bind]. eexists _, _. split; [done |].
  apply idx_Ok in Hx as [_ Hx]. right. exists x. split_and!; [done | done | lia | lia | |].
  - intros j Hj. destruct (decide (j = Z.to_nat (ae_PrevLogIndex args))) as [-> |].
    + by exists x.
    + apply Hrun. lia.
  - destruct Hend as [-> | (y & Hy & ?)]; [left; lia |]. right. exists y.
    split; [| done]. rewrite <- Hy. f_equal. lia.
Qed.

(** The handler never panics on a request with a non-negative PrevLogIndex,
    and takes exactly one of the three branches. *)
Lemma AppendEntries_total t1 t2 args rf :
  0 <= ae_PrevLogIndex args ->
  exists r rf', AppendEntries t1 t2 args rf = Ok (r, rf') /\
  ((ae_Term args < CurrentTerm rf /\ r = mkAEReply (CurrentTerm rf) 0 0 false /\ rf' = rf) \/
   (CurrentTerm rf <= ae_Term args /\ ~ prev_matches (Log rf) args /\
    rf' = adopted (Some t1) (ae_Term args) rf /\
    exists ct cfi, r = mkAEReply (ae_Term args) ct cfi false /\
      conflict_reply (Log rf) (ae_PrevLogIndex args) ct cfi) \/
   (CurrentTerm rf <= ae_Term args /\ prev_matches (Log rf) args /\
    r = mkAEReply (ae_Term args) 0 0 true /\ ae_accepted args rf rf')).
Proof.
  intros Hp. destruct (decide (ae_Term args < CurrentTerm rf)) as [Hs | Hs].
  { eexists _, _. split; [by apply AppendEntries_stale |]. by left. }
  assert (CurrentTerm rf <= ae_Term args) by lia.
  destruct (decide (prev_matches (Log rf) args)) as [Hm | Hm].
  - destruct (AppendEntries_accept t1 t2 args rf) as (rf' & Heq & Ha); [done.. |].
    eexists _, _. split; [done |]. by right; right.
  - destruct (AppendEntries_reject t1 t2 args rf) as (ct & cfi & Heq & Hc); [done.. |].
    eexists _, _. split; [done |]. right; left. split_and!; eauto.
Qed.

(** ** RequestVote, branch by branch *)

(** The candidate's log is at least as up-to-date as [log]. *)
Definition up_to_date (log : list LogEntry) (args : RequestVoteArgs) : Prop :=
  exists x, last log = Some x /\
    (Term x < rv_LastLogTerm args \/
     (Term x = rv_LastLogTerm args /\ len log - 1 <= rv_LastLogIndex args)).

Definition may_vote (rf : Raft) (args : RequestVoteArgs) : Prop :=
  CurrentTerm rf < rv_Term args \/
  (CurrentTerm rf = rv_Term args /\ (VoteFor rf = -1 \/ VoteFor rf = rv_CandidateId args)).

(** The server after a granted vote. *)
Definition voted (tm : Reading) (args : RequestVoteArgs) (rf : Raft) : Raft :=
  persisted (switched Follower (timer_reset tm
    (set_VoteFor (rv_CandidateId args) (adopted None (rv_Term args) rf)))).

Lemma rv_adopt_eq T rf :
  when (bool_decide (CurrentTerm rf < T))
    (modify (set_CurrentTerm T) ;;; modify (set_VoteFor (-1)) ;;; switchTo Follower ;;; persist) rf
  = Ok (tt, adopted None T rf).
Proof. unfold adopted, when. case_bool_decide; case_decide; try done. by raft_run. Qed.

Lemma AppendEntries_begin_eq t1 args rf : AppendEntries_begin t1 args rf = Ok (tt, adopted (Some t1) (ae_Term args) rf).
Proof. apply ae_adopt_eq. Qed.

Lemma RequestVote_begin_eq args rf : RequestVote_begin args rf = Ok (tt, adopted None (rv_Term args) rf).
Proof. apply rv_adopt_eq. Qed.

(** The handlers begin with them, unless the request is stale. *)
Lemma AppendEntries_begins t1 t2 args : exists rest, forall rf, CurrentTerm rf <= ae_Term args ->
  AppendEntries t1 t2 args rf = (AppendEntries_begin t1 args ;;; rest) rf.
Proof.
  eexists. intros rf H. unfold AppendEntries, AppendEntries_begin, st_bind at 1, gets at 1. rewrite decide_True by done.
  reflexivity.
Qed.

Lemma RequestVote_begins t1 args : exists rest, forall rf, CurrentTerm rf <= rv_Term args ->
  RequestVote t1 args rf = (RequestVote_begin args ;;; rest) rf.
Proof.
  eexists. intros rf H. unfold RequestVote, RequestVote_begin, st_bind at 1, gets at 1. rewrite decide_True by done.
  reflexivity.
Qed.

Lemma idx_last {A} (l : list A) x : idx l (len l - 1) = Ok x <-> last l = Some x.
Proof.
  rewrite idx_Ok, last_lookup. unfold len.
  replace (Z.to_nat (Z.of_nat (length l) - 1)) with (Nat.pred (length l)) by lia.
  split; [by intros [_ ?] |]. intros H. split; [| done].
  apply lookup_lt_Some in H. lia.
Qed.

Lemma last_is_Some' {A} (l : list A) : 0 < len l -> exists x, last l = Some x.
Proof. intros H. apply last_is_Some. by intros ->. Qed.

Lemma RequestVote_total tm args rf :
  0 < len (Log rf) ->
  exists r rf', RequestVote tm args rf = Ok (r, rf') /\
  ((rv_Term args < CurrentTerm rf /\ r = mkRVReply (CurrentTerm rf) false /\ rf' = rf) \/
   (CurrentTerm rf <= rv_Term args /\ ~ (may_vote rf args /\ up_to_date (Log rf) args) /\
    r = mkRVReply (rv_Term args) false /\ rf' = adopted None (rv_Term args) rf) \/
   (may_vote rf args /\ up_to_date (Log rf) args /\
    r = mkRVReply (rv_Term args) true /\ rf' = voted tm args rf)).
Proof.
  intros Hl. unfold RequestVote, st_bind at 1, gets at 1.
  case_decide as Ht; cycle 1.
  { eexists _, _. split; [done |]. left. split_and!; [lia | done | done]. }
  unfold st_bind at 1. rewrite rv_adopt_eq.
  unfold st_bind at 1, gets at 1. rewrite adopted_VoteFor.
  case_decide as Hv; cycle 1.
  { eexists _, _. split; [raft_run; reflexivity |]. right; left.
    rewrite adopted_CurrentTerm by done. split_and!; [done | | done | done].
    intros [Hmay _]. apply Hv. unfold may_vote in Hmay. destruct (decide _); [tauto | lia]. }
  assert (Hmay : may_vote rf args).
  { unfold may_vote. destruct (decide _); [by left |]. right. split; [lia | tauto]. }
  unfold st_bind at 1, gets at 1. rewrite adopted_Log.
  destruct (last_is_Some' (Log rf) Hl) as [x Hx].
  unfold st_bind at 1, lift at 1. rewrite (proj2 (idx_last _ _) Hx). cbn [mbind res_bind].
  goal_decide as [Hu | Hu].
  - eexists _, _. split; [raft_run; reflexivity |]. right; right.
    assert (CurrentTerm (adopted None (rv_Term args) rf) = rv_Term args) as HT
      by by apply adopted_CurrentTerm.
    split_and!; [done | by exists x | | done]. f_equal. by raft_fields.
  - eexists _, _. split; [raft_run; reflexivity |]. right; left.
    rewrite adopted_CurrentTerm by done. split_and!; [done | | done | done].
    intros [_ (y & ? & ?)]. congruence.
Qed.

(** ** getNextIndex *)

Lemma searchBack_spec i log ct ci :
  Z.of_nat i < len log ->
  exists k : nat, (k <= i)%nat /\ searchBack i log ct ci = Ok (ci - Z.of_nat k) /\
    (k = i \/ exists x, log !! (i - k)%nat = Some x /\ Term x = ct).
Proof.
  revert ci. induction i as [| i IH]; intros ci Hi.
  { exists 0%nat. cbn. split_and!; [lia | f_equal; lia | by left]. }
  cbn [searchBack]. destruct (idx_in_range log (Z.of_nat (S i))) as [x Hx]; [lia |].
  rewrite Hx. cbn [mbind res_bind]. apply idx_Ok in Hx as [_ Hx]. rewrite Nat2Z.id in Hx.
  case_decide.
  - exists 0%nat. split_and!; [lia | f_equal; lia |]. right. by exists x.
  - destruct (IH (ci - 1)) as (k & ? & -> & Hend); [lia |].
    exists (S k). split_and!; [lia | f_equal; lia |].
    destruct Hend as [-> | (y & Hy & ?)]; [by left |]. right. by exists y.
Qed.

(** The forward search never goes past an entry of another term. *)
Lemma searchForward_spec n i log ct ci :
  0 <= i -> i + Z.of_nat n <= len log ->
  exists k : nat, (k <= n)%nat /\ searchForward n i log ct ci = Ok (ci + Z.of_nat k) /\
    (forall j, i <= j < i + Z.of_nat k -> exists x, log !! Z.to_nat j = Some x /\ Term x = ct).
Proof.
  revert i ci. induction n as [| n IH]; intros i ci Hi Hn.
  { exists 0%nat. cbn. split_and!; [lia | f_equal; lia | lia]. }
  cbn [searchForward]. destruct (idx_in_range log i) as [x Hx]; [lia |].
  rewrite Hx. cbn [mbind res_bind]. apply idx_Ok in Hx as [_ Hx].
  case_decide as Ht.
  - exists 0%nat. split_and!; [lia | f_equal; lia | lia].
  - destruct (IH (i + 1) (ci + 1)) as (k & ? & -> & Hrun); [lia.. |].
    exists (S k). split_and!; [lia | f_equal; lia |]. intros j Hj.
    destruct (decide (j = i)) as [-> |]; [| apply Hrun; lia].
    exists x. split; [done |]. destruct (decide (Term x = ct)); [done | tauto].
Qed.


Lemma getNextIndex_progress log flog ni ct cfi r :
  wf_log log -> wf_log flog -> 0 < ni <= len log ->
  Term <$> flog !! Z.to_nat (ni - 1) <> Term <$> log !! Z.to_nat (ni - 1) ->
  conflict_reply flog (ni - 1) ct cfi ->
  aer_ConflictTerm r = ct -> aer_ConflictFirstIndex r = cfi ->
  exists ni', getNextIndex log r ni = Ok ni' /\ 0 < ni' < ni.
Proof.
  intros Hl Hf Hni Hne Hc Hct Hcfi. unfold getNextIndex. rewrite Hct, Hcfi.
  pose proof (wf_log_len flog Hf) as Hflen.
  destruct Hc as [(Hshort & -> & ->) | (x & Hx & -> & Hr & Hrun & _)].
  { rewrite decide_True by done. eexists. split; [done |]. lia. }
  rewrite Hx in Hne. assert (Hpos : Z.to_nat (ni - 1) <> 0%nat).
  { intros H0. rewrite H0, (wf_log_head _ Hf) in Hx. rewrite H0, (wf_log_head _ Hl) in Hne.
    by simplify_eq. }
  pose proof (wf_log_pos _ _ _ Hf Hx Hpos). rewrite decide_False by lia.
  assert (Hcfi1 : 0 < cfi).
  { destruct (decide (cfi = 0)) as [-> |]; [| lia].
    destruct (Hrun 0%nat) as (y & Hy & Hty); [lia |].
    rewrite (wf_log_head _ Hf) in Hy. simplify_eq. cbn in Hty. lia. }
  destruct (idx_in_range log cfi) as [z Hz]; [lia |]. rewrite Hz. cbn [mbind res_bind].
  goal_decide; [| eexists; split; [done | lia]].
  destruct (searchBack_spec (Z.to_nat cfi) log (Term x) cfi) as (k & Hk & -> & Hend); [lia |].
  cbn [mbind res_bind]. goal_decide as [Hci | Hci]; [| eexists; split; [done | lia]].
  destruct Hend as [-> | (y & Hy & Hty)]; [lia |].
  destruct (searchForward_spec (Z.to_nat (ni - (cfi - Z.of_nat k + 1)))
    (cfi - Z.of_nat k + 1) log (Term x) (cfi - Z.of_nat k)) as (m & Hm & -> & Hfw); [lia.. |].
  cbn [mbind res_bind]. eexists. split; [done |]. split; [lia |].
  destruct (decide (cfi - Z.of_nat k + Z.of_nat m = ni - 1)) as [Heq |]; [exfalso | lia].
  assert (exists w, log !! Z.to_nat (ni - 1) = Some w /\ Term w = Term x) as (w & Hw & Htw).
  { destruct m as [| m].
    - exists y. split; [| done]. rewrite <- Hy. f_equal. lia.
    - apply Hfw. lia. }
  rewrite Hw in Hne. cbn in Hne. congruence.
Qed.

(** ** The receiver's rule of the Raft paper

    "If an existing entry conflicts with a new one (same index but different
    terms), delete the existing entry and all that follow it; append any new
    entries not already in the log." *)
Fixpoint paper_append (log : list LogEntry) (n : nat) (entries : list LogEntry) : list LogEntry :=
  match entries with
  | [] => log
  | e :: entries' =>
      match log !! n with
      | Some x => if decide (Term x = Term e) then paper_append log (S n) entries'
                  else take n log ++ entries
      | None => log ++ entries
      end
  end.

(** Entries of [log] and [entries] with the same index and term are the same. *)
Definition same_where_terms_agree (log : list LogEntry) (n : nat) (entries : list LogEntry) : Prop :=
  forall k x e, log !! (n + k)%nat = Some x -> entries !! k = Some e -> Term x = Term e -> x = e.

Lemma same_where_terms_agree_tail log n e entries :
  same_where_terms_agree log n (e :: entries) -> same_where_terms_agree log (S n) entries.
Proof.
  intros H k x y Hx Hy. apply (H (S k) x y); [| done]. rewrite <- Hx. f_equal. lia.
Qed.

Lemma paper_append_eq log n entries :
  (n <= length log)%nat -> same_where_terms_agree log n entries ->
  paper_append log n entries =
  if decide (terms_match log n entries) then log else take n log ++ entries.
Proof.
  revert n. induction entries as [| e entries IH]; intros n Hn Hs; cbn [paper_append].
  { by rewrite decide_True by (unfold terms_match; by rewrite take_0). }
  destruct (log !! n) as [x|] eqn:Hx.
  - pose proof (lookup_lt_Some _ _ _ Hx). case_decide as Ht.
    + rewrite IH; [| lia | by eapply same_where_terms_agree_tail].
      assert (x = e) as <- by (eapply (Hs 0%nat); [by rewrite Nat.add_0_r | done | done]).
      rewrite (decide_ext _ (terms_match log n (x :: entries))); cycle 1.
      { rewrite terms_match_cons. naive_solver. }
      case_decide; [done |]. rewrite (take_S_r _ _ _ Hx), <- app_assoc. done.
    + rewrite decide_False; [done |]. rewrite terms_match_cons. naive_solver congruence.
  - rewrite decide_False; [| rewrite terms_match_cons; naive_solver].
    apply lookup_ge_None in Hx. by rewrite take_ge by lia.
Qed.

(** ** Properties *)

(** C13: AppendEntries on every branch.  On a request with a non-negative
    PrevLogIndex the handler never panics.  A request of an older term changes
    nothing and is refused; otherwise the server is in the term of the request,
    and either its log lacks the previous entry, in which case the request is
    refused and the log is unchanged, or the request is accepted, the server
    follows the sender, its log is the one the paper's receiver rule gives
    (entries with equal index and term being equal, as Log Matching ensures),
    commitIndex is raised to min(LeaderCommit, index of the last new entry) if
    LeaderCommit exceeds it, and the result is in stable storage. *)
Theorem AppendEntries_follows_paper t1 t2 args rf :
  0 <= ae_PrevLogIndex args ->
  same_where_terms_agree (Log rf) (Z.to_nat (ae_PrevLogIndex args + 1)) (ae_Entries args) ->
  exists r rf', AppendEntries t1 t2 args rf = Ok (r, rf') /\
    aer_Term r = CurrentTerm rf' /\
    CurrentTerm rf' = CurrentTerm rf `max` ae_Term args /\
    (aer_Success r = true <-> CurrentTerm rf <= ae_Term args /\ prev_matches (Log rf) args) /\
    (aer_Success r = false -> Log rf' = Log rf /\ commitIndex rf' = commitIndex rf) /\
    (aer_Success r = true ->
       state rf' = Follower /\ leaderId rf' = ae_LeaderId args /\ durable rf' /\
       Log rf' = paper_append (Log rf) (Z.to_nat (ae_PrevLogIndex args + 1)) (ae_Entries args) /\
       commitIndex rf' = if decide (ae_LeaderCommit args > commitIndex rf)
         then ae_LeaderCommit args `min` (ae_PrevLogIndex args + len (ae_Entries args))
         else commitIndex rf).
Proof.
  intros Hp Hs. destruct (AppendEntries_total t1 t2 args rf Hp) as (r & rf' & -> & Hc).
  exists r, rf'. split; [done |].
  destruct Hc as [(HT & -> & ->) | [(HT & Hm & -> & ct & cfi & -> & _) | (HT & Hm & -> & [])]].
  - cbn. split_and!; [done | lia | split; [done | lia] | done | done].
  - cbn. rewrite adopted_CurrentTerm, adopted_Log, adopted_commitIndex by done.
    split_and!; [done | lia | split; [done | tauto] | done | done].
  - cbn. rewrite aa_term0. split_and!; [done | lia | done | done |]. intros _.
    split_and!; [done | done | done | | done].
    rewrite aa_log0, paper_append_eq; [done | | done].
    unfold prev_matches in Hm. apply fmap_Some in Hm as (x & Hx & _).
    apply lookup_lt_Some in Hx. lia.
Qed.

(** A log of terms 1 1 2 receives entries of terms 3 after index 1. *)
Definition example_log : list LogEntry :=
  [sentinel; mkEntry None 1; mkEntry None 1; mkEntry None 2].
Definition example_args : AppendEntriesArgs :=
  mkAEArgs 3 2 1 1 [mkEntry None 1; mkEntry None 3] 2.

Lemma AppendEntries_follows_paper_witness :
  exists r rf', AppendEntries (mkReading 0 0) (mkReading 0 0) example_args
      (set_Log example_log zeroRaft) = Ok (r, rf') /\ aer_Success r = true /\
    Term <$> Log rf' = [0; 1; 1; 3] /\ commitIndex rf' = 2.
Proof.
  destruct (AppendEntries_follows_paper (mkReading 0 0) (mkReading 0 0) example_args
    (set_Log example_log zeroRaft)) as (r & rf' & He & _ & _ & [_ Hsucc] & _ & Hacc).
  - done.
  - intros [| [| k]] x e Hx Hy Ht; vm_compute in Hx, Hy; try done;
      injection Hx as <-; injection Hy as <-; done.
  - exists r, rf'. split; [exact He |].
    assert (Hr : aer_Success r = true) by (apply Hsucc; by vm_compute).
    split; [exact Hr |]. destruct (Hacc Hr) as (_ & _ & _ & -> & ->). by vm_compute.
Defined.

(** C14: RequestVote on every branch.  A server with a log never panics; it
    grants its vote exactly when the request is not of an older term, it has not
    voted for another candidate in that term, and the candidate's log is at
    least as up-to-date as its own.  The reply carries the term the server ends
    in; a granted vote is recorded and in stable storage before the reply. *)
Theorem RequestVote_grants_iff tm args rf :
  0 < len (Log rf) ->
  exists r rf', RequestVote tm args rf = Ok (r, rf') /\
    (rvr_VoteGranted r = true <-> may_vote rf args /\ up_to_date (Log rf) args) /\
    rvr_Term r = CurrentTerm rf' /\ CurrentTerm rf' = CurrentTerm rf `max` rv_Term args /\
    Log rf' = Log rf /\
    (rvr_VoteGranted r = true ->
       VoteFor rf' = rv_CandidateId args /\ state rf' = Follower /\ durable rf') /\
    (rvr_VoteGranted r = false ->
       VoteFor rf' = if decide (CurrentTerm rf < rv_Term args) then -1 else VoteFor rf).
Proof.
  intros Hl. destruct (RequestVote_total tm args rf Hl) as (r & rf' & -> & Hc).
  exists r, rf'. split; [done |].
  destruct Hc as [(HT & -> & ->) | [(HT & Hno & -> & ->) | (Hm & Hu & -> & ->)]].
  - cbn. split_and!; try done; [| lia |].
    + split; [done |]. intros [[|[]] _]; lia.
    + intros _. by rewrite decide_False by lia.
  - cbn. rewrite adopted_CurrentTerm, adopted_Log, adopted_VoteFor by done.
    split_and!; [split; [done | tauto] | done | lia | done | done | done].
  - assert (HT : CurrentTerm rf <= rv_Term args) by (destruct Hm as [|[]]; lia).
    unfold voted. raft_fields. rewrite adopted_CurrentTerm, adopted_Log by done. cbn.
    split_and!; [done | done | lia | done | | done]. intros _. split_and!; [done | done |].
    apply persisted_durable.
Qed.

Lemma RequestVote_grants_iff_witness :
  exists r rf', RequestVote (mkReading 0 0) (mkRVArgs 1 2 0 0)
      (set_VoteFor (-1) (set_Log [sentinel] zeroRaft)) = Ok (r, rf') /\
    rvr_VoteGranted r = true /\ VoteFor rf' = 2.
Proof.
  destruct (RequestVote_grants_iff (mkReading 0 0) (mkRVArgs 1 2 0 0)
    (set_VoteFor (-1) (set_Log [sentinel] zeroRaft))) as (r & rf' & He & [_ Hg] & _ & _ & _ & Hv & _).
  - done.
  - exists r, rf'. split; [exact He |].
    assert (Hr : rvr_VoteGranted r = true).
    { apply Hg. split; [left; done |]. exists sentinel. split; [done |]. right. done. }
    split; [exact Hr |]. apply (Hv Hr).
Defined.

(** The retries of a sender make progress.  When a follower that is not
    ahead in term refuses a request whose previous entry is entry [ni - 1] of the
    leader's log, then for all well-formed logs getNextIndex, applied to the
    conflict information of that very reply, does not panic and returns an index
    that is at least 1 and smaller than [ni]. *)
Theorem getNextIndex_decreases t1 t2 args rf r rf' log ni x :
  wf_log log -> wf_log (Log rf) -> idx log (ni - 1) = Ok x ->
  ae_PrevLogIndex args = ni - 1 -> ae_PrevLogTerm args = Term x ->
  CurrentTerm rf <= ae_Term args ->
  AppendEntries t1 t2 args rf = Ok (r, rf') -> aer_Success r = false ->
  exists ni', getNextIndex log r ni = Ok ni' /\ 0 < ni' < ni.
Proof.
  intros Hl Hf Hx Hp Ht HT Ha Hno. apply idx_Ok_lt in Hx as Hr. apply idx_Ok in Hx as [_ Hx].
  destruct (AppendEntries_total t1 t2 args rf) as (r1 & rf1 & He & Hc); [lia |].
  rewrite Ha in He. injection He as <- <-.
  destruct Hc as [(? & _) | [(_ & Hm & _ & ct & cfi & -> & Hc) | (_ & _ & -> & _)]]; [lia | | done].
  rewrite Hp in Hc. eapply getNextIndex_progress; try done; [lia |].
  intros Heq. apply Hm. unfold prev_matches. by rewrite Hp, Heq, Ht, Hx.
Qed.

Lemma getNextIndex_decreases_witness :
  exists ni' r rf', AppendEntries (mkReading 0 0) (mkReading 0 0)
      (mkAEArgs 3 0 2 3 [] 0) (set_Log example_log zeroRaft) = Ok (r, rf') /\
    getNextIndex [sentinel; mkEntry None 1; mkEntry None 3] r 3 = Ok ni' /\ 0 < ni' < 3.
Proof.
  destruct (AppendEntries (mkReading 0 0) (mkReading 0 0)
    (mkAEArgs 3 0 2 3 [] 0) (set_Log example_log zeroRaft)) as [[r rf']| | |] eqn:E;
    [| by vm_compute in E..].
  destruct (getNextIndex_decreases (mkReading 0 0) (mkReading 0 0) (mkAEArgs 3 0 2 3 [] 0)
    (set_Log example_log zeroRaft) r rf' [sentinel; mkEntry None 1; mkEntry None 3] 3
    (mkEntry None 3)) as (ni' & Hn & Hr); try done.
  - exists [mkEntry None 1; mkEntry None 3]. split; [done | by repeat constructor].
  - exists [mkEntry None 1; mkEntry None 1; mkEntry None 2]. split; [done | by repeat constructor].
  - vm_compute in E. by injection E as <- <-.
  - exists ni', r, rf'. done.
Defined.
