(* ===== verification/RaftNode.v ===== *)
(** * The goroutines of a Raft server, critical section by critical section

    Models Start, broadcastHeartbeat, broadcastAppendEntries, startElection and
    applyEntries of src/raft/raft.go.  The source takes and releases rf.mu many
    times in each of them; every definition below is the code of one critical
    section (or of the code between two of them), so that an execution of the
    server is an interleaving of these definitions.  Local variables shared by
    several goroutines ([nReplica], [isAgree], [*nVotes]) are in records of
    their own.  The interleavings are in the file RaftSystem. *)

From S2P Require Import Prelude LabGob Persister Raft RaftRPC.

(** ** Start *)

(** The section that appends: everything between the first Lock and Unlock. *)
Definition Start_append (command : option GoVal) (tnow : Z) : ST Raft Z :=
  term <- gets CurrentTerm ;;
  let logEntry := mkEntry command term in
  modify (fun rf => set_Log (Log rf ++ [logEntry]) rf) ;;;
  log <- gets Log ;;
  let index := len log - 1 in
  modify (set_latestIssueTime tnow) ;;;
  persist ;;;
  mret index.

(** The arguments of [go rf.broadcastAppendEntries(index, rf.CurrentTerm,
    rf.commitIndex, nReplica, ...)], read in a section of their own. *)
Definition broadcast_params : ST Raft (Z * Z) :=
  term <- gets CurrentTerm ;;
  ci <- gets commitIndex ;;
  mret (term, ci).

(** Start when no other section of the server runs in between: the returned
    triple and, for a leader, the parameters (index, term, commitIndex,
    nReplica) of the broadcast it starts. *)
Definition Start (command : option GoVal) (tnow : Z) :
    ST Raft ((Z * Z * bool) * option (Z * Z * Z * Z)) :=
  gs <- GetState ;;
  let '(term, isLeader) := gs in
  if (isLeader : bool) then
    index <- Start_append command tnow ;;
    p <- broadcast_params ;;
    mret ((index, term, isLeader), Some (index, p.1, p.2, 1))
  else mret ((-1, term, isLeader), None).

(** ** broadcastHeartbeat *)

Definition heartbeat_stamp (tnow : Z) : ST Raft unit := modify (set_latestIssueTime tnow).

(** [index], and the parameters of the broadcast. *)
Definition heartbeat_params : ST Raft (Z * Z * Z) :=
  log <- gets Log ;;
  p <- broadcast_params ;;
  mret (len log - 1, p.1, p.2).

(** ** broadcastAppendEntries *)

(** The parameters and the shared locals of one call. *)
Record Bcast := mkBcast {
  b_index : Z;
  b_term : Z;
  b_commitIndex : Z;
  b_nReplica : Z;
  b_isAgree : bool;
}.

(** [rf.CurrentTerm != term] *)
Definition term_differs (term : Z) : ST Raft bool :=
  ct <- gets CurrentTerm ;; mret (bool_decide (ct <> term)).

(** The section that builds the request for peer [i]. *)
Definition sender_args (i : Z) (b : Bcast) : ST Raft (Z * AppendEntriesArgs) :=
  ni <- gets nextIndex ;;
  next <- lift (idx ni i) ;;
  let prevLogIndex := next - 1 in
  log <- gets Log ;;
  x <- lift (idx log prevLogIndex) ;;
  entries <- lift (if decide (next < b_index b + 1) then slice log next (b_index b + 1)
                   else Ok []) ;;
  m <- gets me ;;
  mret (next, mkAEArgs (b_term b) m prevLogIndex (Term x) entries (b_commitIndex b)).

(** What a sender goroutine does after it handled a reply. *)
Inductive sender_next :=
  | SReturn            (* the goroutine returns *)
  | SRetry             (* goto retry *)
  | SHeartbeat.        (* it started [go rf.broadcastHeartbeat()] and returns *)

(** The section of a rejected request: step down, or move nextIndex back.
    The trace call at its end evaluates rf.Log[nextIndex-1]. *)
Definition sender_rejected (i next : Z) (args : AppendEntriesArgs) (reply : AppendEntriesReply) :
    ST Raft sender_next :=
  if decide (ae_Term args < aer_Term reply) then
    modify (set_CurrentTerm (aer_Term reply)) ;;;
    modify (set_VoteFor (-1)) ;;;
    switchTo Follower ;;;
    persist ;;;
    mret SReturn
  else
    log <- gets Log ;;
    next' <- lift (getNextIndex log reply next) ;;
    ni <- gets nextIndex ;;
    ni' <- lift (store ni i next') ;;
    modify (set_nextIndex ni') ;;;
    _ <- lift (idx log (next' - 1)) ;;
    mret SRetry.

(** The section of an accepted request. *)
Definition sender_accepted (i : Z) (b : Bcast) : ST Raft (Bcast * sender_next) :=
  n <- gets npeers ;;
  let majority := Z.quot n 2 + 1 in
  let index := b_index b in
  ni <- gets nextIndex ;;
  next <- lift (idx ni i) ;;
  when (bool_decide (next < index + 1))
    (ni' <- lift (store ni i (index + 1)) ;;
     modify (set_nextIndex ni') ;;;
     mi <- gets matchIndex ;;
     mi' <- lift (store mi i index) ;;
     modify (set_matchIndex mi')) ;;;
  let nReplica := b_nReplica b + 1 in
  let b1 := mkBcast index (b_term b) (b_commitIndex b) nReplica (b_isAgree b) in
  st <- gets state ;;
  if decide (b_isAgree b = false /\ st = Leader /\ nReplica >= majority) then
    let b2 := mkBcast index (b_term b) (b_commitIndex b) nReplica true in
    ci <- gets commitIndex ;;
    if decide (ci < index) then
      log <- gets Log ;;
      x <- lift (idx log index) ;;
      ct <- gets CurrentTerm ;;
      if decide (Term x = ct) then
        modify (set_commitIndex index) ;;;
        modify (fun rf => set_applyCond (S (applyCond rf)) rf) ;;;
        mret (b2, SHeartbeat)
      else mret (b2, SReturn)
    else mret (b2, SReturn)
  else mret (b1, SReturn).

Definition sender_handle (i next : Z) (args : AppendEntriesArgs) (reply : AppendEntriesReply)
    (b : Bcast) : ST Raft (Bcast * sender_next) :=
  if aer_Success reply then sender_accepted i b
  else r <- sender_rejected i next args reply ;; mret (b, r).

(** ** startElection *)

(** The first section: the server becomes a candidate of the next term. *)
Definition startElection_begin (tm : Reading) : ST Raft unit :=
  switchTo Candidate ;;;
  modify (fun rf => set_CurrentTerm (wrap64 (CurrentTerm rf + 1)) rf) ;;;
  m <- gets me ;;
  modify (set_VoteFor m) ;;;
  resetElectionTimer tm ;;;
  persist.

(** The section that builds the request for one peer, which reads the term
    again. *)
Definition election_args : ST Raft RequestVoteArgs :=
  log <- gets Log ;;
  let lastLogIndex := len log - 1 in
  ct <- gets CurrentTerm ;;
  m <- gets me ;;
  x <- lift (idx log lastLogIndex) ;;
  mret (mkRVArgs ct m lastLogIndex (Term x)).

(** [for i := 0; i < len(rf.peers); i++] of a new leader, for one slice;
    the first argument is the number of iterations left. *)
Fixpoint fillLoop (n : nat) (i : Z) (v : Z) (l : list Z) : res (list Z) :=
  match n with
  | O => Ok l
  | S n => l' ← store l i v; fillLoop n (i + 1) v l'
  end.

(** The section that counts a reply; [nVotes] is shared by the requesters of
    one election.  The flag says whether the server became the leader, in
    which case [go rf.broadcastHeartbeat()] was started. *)
Definition vote_handle (reply : RequestVoteReply) (nVotes : Z) : ST Raft (Z * bool) :=
  if rvr_VoteGranted reply then
    n <- gets npeers ;;
    let winThreshold := Z.quot n 2 + 1 in
    let nVotes := nVotes + 1 in
    st <- gets state ;;
    if decide (st = Candidate /\ nVotes >= winThreshold) then
      switchTo Leader ;;;
      m <- gets me ;;
      modify (set_leaderId m) ;;;
      log <- gets Log ;;
      ni <- gets nextIndex ;;
      ni' <- lift (fillLoop (Z.to_nat n) 0 (len log) ni) ;;
      modify (set_nextIndex ni') ;;;
      mi <- gets matchIndex ;;
      mi' <- lift (fillLoop (Z.to_nat n) 0 0 mi) ;;
      modify (set_matchIndex mi') ;;;
      persist ;;;
      mret (nVotes, true)
    else mret (nVotes, false)
  else
    ct <- gets CurrentTerm ;;
    if decide (ct < rvr_Term reply) then
      modify (set_CurrentTerm (rvr_Term reply)) ;;;
      modify (set_VoteFor (-1)) ;;;
      switchTo Follower ;;;
      persist ;;;
      mret (nVotes, false)
    else mret (nVotes, false).

(** ** applyEntries *)

(** The section that reads how far to apply. *)
Definition apply_window : ST Raft (Z * Z) :=
  ci <- gets commitIndex ;;
  la <- gets lastApplied ;;
  mret (ci, la).

(** The section for one index: the message to send on applyCh afterwards. *)
Definition apply_one (i : Z) : ST Raft ApplyMsg :=
  log <- gets Log ;;
  x <- lift (idx log i) ;;
  modify (set_lastApplied i) ;;;
  mret (mkApplyMsg true (Command x) i).

(** ** What each section does, as equations and inversions *)

(** The entries of [log] at the indices [next .. index]. *)
Definition entries_between (log : list LogEntry) (next index : Z) : list LogEntry :=
  take (Z.to_nat (index + 1 - next)) (drop (Z.to_nat next) log).

Lemma lift_Ok {S A} (r : res A) (s s' : S) a :
  lift r s = Ok (a, s') <-> r = Ok a /\ s' = s.
Proof. unfold lift. destruct r; cbn; naive_solver. Qed.

Lemma gets_Ok {S A} (f : S -> A) s a s' : gets f s = Ok (a, s') <-> a = f s /\ s' = s.
Proof. unfold gets. naive_solver. Qed.

Lemma modify_Ok {S} (f : S -> S) s u s' : modify f s = Ok (u, s') <-> s' = f s.
Proof. unfold modify. destruct u. naive_solver. Qed.

Lemma mret_Ok {S A} (a b : A) (s s' : S) :
  st_ret A a s = Ok (b, s') <-> b = a /\ s' = s.
Proof. unfold st_ret. naive_solver. Qed.

(** Invert a run of the code of a section. *)
Ltac sec_inv :=
  repeat match goal with
  | H : st_bind _ _ _ _ _ = Ok (_, _) |- _ => apply st_bind_Ok in H as (? & ? & ? & ?)
  | H : lift _ _ = Ok (_, _) |- _ => apply lift_Ok in H as [? ->]
  | H : gets _ _ = Ok (_, _) |- _ => apply gets_Ok in H as [-> ->]
  | H : modify _ _ = Ok (_, _) |- _ => apply modify_Ok in H as ->
  | H : mret _ _ = Ok (_, _) |- _ => apply mret_Ok in H as [? ?]
  | H : switchTo _ _ = Ok (_, _) |- _ => rewrite switchTo_eq in H
  | H : resetElectionTimer _ _ = Ok (_, _) |- _ => rewrite resetElectionTimer_eq in H
  | H : persist _ = Ok (_, _) |- _ => rewrite persist_eq in H
  | H : Ok _ = Ok _ |- _ => injection H as H
  | H : (_, _) = (_, _) |- _ => injection H as ? ?
  | H : Blocked = Ok _ |- _ => discriminate H
  | H : Panic = Ok _ |- _ => discriminate H
  end; subst.

Lemma sender_args_inv i b rf next args rf' :
  sender_args i b rf = Ok ((next, args), rf') ->
  rf' = rf /\ idx (nextIndex rf) i = Ok next /\
  exists x, idx (Log rf) (next - 1) = Ok x /\ (next < b_index b + 1 -> b_index b < len (Log rf)) /\
    args = mkAEArgs (b_term b) (me rf) (next - 1) (Term x)
             (entries_between (Log rf) next (b_index b)) (b_commitIndex b).
Proof.
  unfold sender_args. intros H. sec_inv.
  split; [done |]. split; [done |]. eexists. split; [done |].
  match goal with H : (if _ then _ else _) = Ok _ |- _ => rename H into Hs end.
  case_decide as Hd.
  - apply slice_Ok in Hs as (? & ? & ? & ->). split; [lia | done].
  - simplify_eq. split; [lia |]. unfold entries_between.
    match goal with |- context [take (Z.to_nat ?n)] => by replace (Z.to_nat n) with 0%nat by lia end.
Qed.

Lemma sender_args_Ok i b rf next x :
  idx (nextIndex rf) i = Ok next -> idx (Log rf) (next - 1) = Ok x ->
  b_index b < len (Log rf) ->
  sender_args i b rf =
  Ok ((next, mkAEArgs (b_term b) (me rf) (next - 1) (Term x)
               (entries_between (Log rf) next (b_index b)) (b_commitIndex b)), rf).
Proof.
  intros Hn Hx Hi. unfold sender_args, st_bind, gets, lift. rewrite Hn. cbn [mbind res_bind].
  rewrite Hx. cbn [mbind res_bind]. apply idx_Ok_lt in Hx.
  unfold entries_between. goal_decide.
  - unfold slice. by rewrite decide_True by lia.
  - cbn [mbind res_bind]. by replace (Z.to_nat (b_index b + 1 - next)) with 0%nat by lia.
Qed.

(** Stepping down because of a term [T] in a reply. *)
Definition stepped_down (T : Z) (rf : Raft) : Raft :=
  persisted (switched Follower (set_VoteFor (-1) (set_CurrentTerm T rf))).

Lemma sender_rejected_inv i next args reply rf r rf' :
  sender_rejected i next args reply rf = Ok (r, rf') ->
  (ae_Term args < aer_Term reply /\ r = SReturn /\ rf' = stepped_down (aer_Term reply) rf) \/
  (aer_Term reply <= ae_Term args /\ r = SRetry /\ exists next',
     getNextIndex (Log rf) reply next = Ok next' /\ 0 <= i < len (nextIndex rf) /\
     0 < next' <= len (Log rf) /\ rf' = set_nextIndex (<[Z.to_nat i := next']> (nextIndex rf)) rf).
Proof.
  unfold sender_rejected. intros H. case_decide; sec_inv.
  - by left.
  - right. split; [lia |]. split; [done |]. eexists. split; [done |].
    match goal with H : store _ _ _ = Ok _ |- _ => apply store_Ok in H as [? ->] end.
    match goal with H : idx _ _ = Ok _ |- _ => apply idx_Ok_lt in H end.
    split_and!; [lia.. | done].
Qed.

(** The protocol state is as before (indices, clocks and conditions may not be). *)
Record unchanged (rf rf' : Raft) : Prop := {
  un_term : CurrentTerm rf' = CurrentTerm rf;
  un_vote : VoteFor rf' = VoteFor rf;
  un_log : Log rf' = Log rf;
  un_state : state rf' = state rf;
  un_persister : persister rf' = persister rf;
  un_npeers : npeers rf' = npeers rf;
  un_me : me rf' = me rf;
}.

Definition bcast_counted (b : Bcast) (agree : bool) : Bcast :=
  mkBcast (b_index b) (b_term b) (b_commitIndex b) (b_nReplica b + 1) agree.

(** [nextIndex] and [matchIndex] after a success for peer [i]. *)
Definition acked (i : Z) (b : Bcast) (rf rf' : Raft) : Prop :=
  exists next, idx (nextIndex rf) i = Ok next /\
    nextIndex rf' = (if decide (next < b_index b + 1)
                     then <[Z.to_nat i := b_index b + 1]> (nextIndex rf) else nextIndex rf) /\
    matchIndex rf' = (if decide (next < b_index b + 1)
                      then <[Z.to_nat i := b_index b]> (matchIndex rf) else matchIndex rf).

(** The condition under which a leader moves its commitIndex. *)
Definition commits (b : Bcast) (rf : Raft) : Prop :=
  b_isAgree b = false /\ state rf = Leader /\ b_nReplica b + 1 >= Z.quot (npeers rf) 2 + 1 /\
  commitIndex rf < b_index b /\
  exists x, idx (Log rf) (b_index b) = Ok x /\ Term x = CurrentTerm rf.

Lemma sender_accepted_inv i b rf b' r rf' :
  sender_accepted i b rf = Ok ((b', r), rf') ->
  unchanged rf rf' /\ lastApplied rf' = lastApplied rf /\ acked i b rf rf' /\
  ((commits b rf /\ b' = bcast_counted b true /\ r = SHeartbeat /\
    commitIndex rf' = b_index b) \/
   (~ commits b rf /\ (exists agree, b' = bcast_counted b agree) /\ r = SReturn /\
    commitIndex rf' = commitIndex rf)).
Proof.
  unfold sender_accepted. intros H.
  apply st_bind_Ok in H as (n & s0 & Hn & H). apply gets_Ok in Hn as [-> ->].
  apply st_bind_Ok in H as (ni & s0 & Hn & H). apply gets_Ok in Hn as [-> ->].
  apply st_bind_Ok in H as (next & s0 & Hnext & H). apply lift_Ok in Hnext as [Hnext ->].
  apply st_bind_Ok in H as (u & rf1 & Hw & H).
  assert (unchanged rf rf1 /\ lastApplied rf1 = lastApplied rf /\
    commitIndex rf1 = commitIndex rf /\ acked i b rf rf1) as (Hun & Hla & Hci & Hack).
  { unfold when in Hw. case_bool_decide as Hlt; sec_inv.
    - repeat match goal with H : store _ _ _ = Ok _ |- _ => apply store_Ok in H as [? ->] end.
      split; [done |]. split; [done |]. split; [done |].
      exists next. by rewrite !decide_True.
    - split; [done |]. split; [done |]. split; [done |].
      exists next. by rewrite !decide_False. }
  apply st_bind_Ok in H as (st & s0 & Hn & H). apply gets_Ok in Hn as [-> ->].
  destruct Hun as [Hu1 Hu2 Hu3 Hu4 Hu5 Hu6 Hu7].
  destruct (decide _) as [(Ha & Hs & Hm) | Hno]; sec_inv.
  - destruct (decide (commitIndex rf1 < b_index b)) as [Hlt | Hlt]; sec_inv.
    + destruct (decide (Term _ = CurrentTerm rf1)) as [Ht | Ht]; sec_inv.
      * split; [by split |]. split; [done |]. split; [done |]. left.
        split_and!; [| done | done | done]. unfold commits.
        split; [done |]. split; [congruence |]. split; [done |]. split; [congruence |].
        eexists. split; [rewrite <- Hu3; eassumption | congruence].
      * split; [by split |]. split; [done |]. split; [done |]. right.
        split_and!; [| by eexists | done | done].
        intros (_ & _ & _ & _ & y & Hy & Hty). congruence.
    + split; [by split |]. split; [done |]. split; [done |]. right.
      split_and!; [| by eexists | done | done]. intros (_ & _ & _ & ? & _). lia.
  - split; [by split |]. split; [done |]. split; [done |]. right.
    split_and!; [| by eexists | done | done]. intros (? & ? & ? & _). apply Hno. split_and!; congruence.
Qed.

Lemma fillLoop_replicate n v l : length l = n -> fillLoop n 0 v l = Ok (replicate n v).
Proof.
  intros Hl. enough (forall m k (l1 l2 : list Z), length l2 = m -> k = len l1 ->
    fillLoop m k v (l1 ++ l2) = Ok (l1 ++ replicate m v)) as Hgen
    by by apply (Hgen n 0 [] l).
  clear. induction m as [| m IH]; intros k l1 l2 Hl2 ->.
  { apply length_zero_iff_nil in Hl2 as ->. done. }
  destruct l2 as [| x l2]; [done |]. cbn in Hl2. cbn [fillLoop].
  pose proof (len_nonneg l1). pose proof (len_nonneg l2). unfold store.
  rewrite decide_True by (autorewrite with go_len; lia). cbn [mbind res_bind].
  assert (<[Z.to_nat (len l1) := v]> (l1 ++ x :: l2) = (l1 ++ [v]) ++ l2) as ->.
  { unfold len. rewrite Nat2Z.id, insert_app_r_alt, Nat.sub_diag by lia. cbn.
    by rewrite <- app_assoc. }
  rewrite (IH _ (l1 ++ [v]) l2); [| lia | rewrite len_app; reflexivity].
  by rewrite <- app_assoc.
Qed.

(** A server that has just won. *)
Record won (rf rf' : Raft) : Prop := {
  won_term : CurrentTerm rf' = CurrentTerm rf;
  won_vote : VoteFor rf' = VoteFor rf;
  won_log : Log rf' = Log rf;
  won_state : state rf' = Leader;
  won_npeers : npeers rf' = npeers rf;
  won_me : me rf' = me rf;
  won_leaderId : leaderId rf' = me rf;
  won_commit : commitIndex rf' = commitIndex rf;
  won_applied : lastApplied rf' = lastApplied rf;
  won_durable : durable rf';
  won_next : length (nextIndex rf) = Z.to_nat (npeers rf) ->
    nextIndex rf' = replicate (Z.to_nat (npeers rf)) (len (Log rf));
  won_match : length (matchIndex rf) = Z.to_nat (npeers rf) ->
    matchIndex rf' = replicate (Z.to_nat (npeers rf)) 0;
}.

Definition wins (reply : RequestVoteReply) (nVotes : Z) (rf : Raft) : Prop :=
  rvr_VoteGranted reply = true /\ state rf = Candidate /\ nVotes + 1 >= Z.quot (npeers rf) 2 + 1.

Lemma vote_handle_inv reply nVotes rf nv w rf' :
  vote_handle reply nVotes rf = Ok ((nv, w), rf') ->
  nv = (if rvr_VoteGranted reply then nVotes + 1 else nVotes) /\
  ((wins reply nVotes rf /\ w = true /\ won rf rf') \/
   (~ wins reply nVotes rf /\ w = false /\
    ((rvr_VoteGranted reply = false /\ CurrentTerm rf < rvr_Term reply /\
      rf' = stepped_down (rvr_Term reply) rf) \/
     ((rvr_VoteGranted reply = true \/ rvr_Term reply <= CurrentTerm rf) /\ rf' = rf)))).
Proof.
  unfold vote_handle, wins. intros H. destruct (rvr_VoteGranted reply) eqn:Eg.
  - apply st_bind_Ok in H as (n & s0 & Hn & H). apply gets_Ok in Hn as [-> ->].
    apply st_bind_Ok in H as (st & s0 & Hn & H). apply gets_Ok in Hn as [-> ->].
    destruct (decide _) as [[Hs Hm] | Hno]; sec_inv.
    + split; [done |]. left. split; [done |]. split; [done |].
      repeat match goal with H : fillLoop _ _ _ _ = Ok _ |- _ => revert H end.
      raft_fields. intros Hf1 Hf2. split; try by raft_fields.
      * raft_fields. intros Hl. rewrite fillLoop_replicate in Hf1 by done. by simplify_eq.
      * raft_fields. intros Hl. rewrite fillLoop_replicate in Hf2 by done. by simplify_eq.
    + split; [done |]. right. split; [tauto |]. split; [done |]. right. split; [by left | done].
  - apply st_bind_Ok in H as (ct & s0 & Hn & H). apply gets_Ok in Hn as [-> ->].
    destruct (decide _) as [Hlt | Hge]; sec_inv.
    + split; [done |]. right. split; [by intros [? _] |]. split; [done |]. by left.
    + split; [done |]. right. split; [by intros [? _] |]. split; [done |]. right.
      split; [right; lia | done].
Qed.

Lemma vote_handle_total reply nVotes rf :
  length (nextIndex rf) = Z.to_nat (npeers rf) -> length (matchIndex rf) = Z.to_nat (npeers rf) ->
  exists x rf', vote_handle reply nVotes rf = Ok (x, rf').
Proof.
  intros Hn Hm. unfold vote_handle, st_bind, gets, lift, modify. destruct (rvr_VoteGranted reply).
  - case_decide; [| by eexists _, _]. rewrite switchTo_eq. raft_fields.
    rewrite fillLoop_replicate by done. cbn [mbind res_bind]. raft_fields.
    rewrite fillLoop_replicate by done. cbn [mbind res_bind]. rewrite persist_eq. by eexists _, _.
  - case_decide; [| by eexists _, _]. rewrite switchTo_eq, persist_eq. by eexists _, _.
Qed.

(** A candidate of the next term. *)
Record campaigning (rf rf' : Raft) : Prop := {
  cp_term : CurrentTerm rf' = wrap64 (CurrentTerm rf + 1);
  cp_vote : VoteFor rf' = me rf;
  cp_state : state rf' = Candidate;
  cp_log : Log rf' = Log rf;
  cp_commit : commitIndex rf' = commitIndex rf;
  cp_core : same_core rf rf';
  cp_durable : durable rf';
}.

Lemma startElection_begin_spec tm rf :
  exists rf', startElection_begin tm rf = Ok (tt, rf') /\ campaigning rf rf'.
Proof.
  unfold startElection_begin. raft_run. eexists. split; [done |].
  split; raft_fields; try done. split; by raft_fields.
Qed.

Lemma election_args_Ok rf :
  0 < len (Log rf) ->
  exists x, last (Log rf) = Some x /\
    election_args rf = Ok (mkRVArgs (CurrentTerm rf) (me rf) (len (Log rf) - 1) (Term x), rf).
Proof.
  intros Hl. destruct (last_is_Some' _ Hl) as [x Hx]. exists x. split; [done |].
  unfold election_args, st_bind, gets, lift. by rewrite (proj2 (idx_last _ _) Hx).
Qed.

(** A leader's log only grows at its end. *)
Record started (command : option GoVal) (rf rf' : Raft) : Prop := {
  sd_term : CurrentTerm rf' = CurrentTerm rf;
  sd_vote : VoteFor rf' = VoteFor rf;
  sd_state : state rf' = state rf;
  sd_log : Log rf' = Log rf ++ [mkEntry command (CurrentTerm rf)];
  sd_commit : commitIndex rf' = commitIndex rf;
  sd_core : same_core rf rf';
  sd_durable : durable rf';
}.

Lemma Start_append_spec command tnow rf :
  exists rf', Start_append command tnow rf = Ok (len (Log rf), rf') /\ started command rf rf'.
Proof.
  unfold Start_append. raft_run. eexists. split.
  { do 2 f_equal. rewrite len_app. change (len [_]) with 1. lia. }
  split; by raft_fields.
Qed.

Lemma apply_one_inv i rf m rf' :
  apply_one i rf = Ok (m, rf') ->
  rf' = set_lastApplied i rf /\
  exists x, idx (Log rf) i = Ok x /\ m = mkApplyMsg true (Command x) i.
Proof. unfold apply_one. intros H. sec_inv. split; [done |]. by eexists. Qed.

(** ** The retry loop of one sender, undisturbed

    One iteration: the two guards, the request, the handler of the follower on
    the other side of a reliable network, the guard on the reply, and the
    section that handles it.  [goto retry] is the recursive call. *)

Inductive sent := mkSent (b : Bcast) (leader follower : Raft) (reply : option AppendEntriesReply).

Fixpoint retryLoop (fuel : nat) (tm : nat -> Reading * Reading) (i : Z) (b : Bcast)
    (leader follower : Raft) : res sent :=
  match fuel with
  | O => Blocked
  | S fuel =>
      let '(t1, t2) := tm fuel in
      g ← GetState leader;
      if negb (g.1.2) then Ok (mkSent b leader follower None) else
      d ← term_differs (b_term b) leader;
      if (d.1 : bool) then Ok (mkSent b leader follower None) else
      p ← sender_args i b leader;
      let '((next, args), leader) := p in
      q ← AppendEntries t1 t2 args follower;
      let '(reply, follower) := q in
      d ← term_differs (ae_Term args) leader;
      if (d.1 : bool) then Ok (mkSent b leader follower None) else
      h ← sender_handle i next args reply b leader;
      let '((b', r), leader) := h in
      match r with
      | SRetry => retryLoop fuel tm i b' leader follower
      | _ => Ok (mkSent b' leader follower (Some reply))
      end
  end.

(** Two logs that agree wherever they have an entry of the same term at the
    same index. *)
Definition log_matching (l k : list LogEntry) : Prop :=
  forall n x y, l !! n = Some x -> k !! n = Some y -> Term x = Term y ->
    take (S n) l = take (S n) k.

Lemma take_entries_between log next index :
  0 <= next <= index + 1 ->
  take (Z.to_nat next) log ++ entries_between log next index = take (Z.to_nat (index + 1)) log.
Proof.
  intros. unfold entries_between. rewrite take_take_drop. f_equal. lia.
Qed.

Lemma terms_match_lookup log n entries k e :
  terms_match log n entries -> entries !! k = Some e ->
  exists x, log !! (n + k)%nat = Some x /\ Term x = Term e.
Proof.
  revert n k. induction entries as [| e' entries IH]; intros n k; [done |].
  rewrite terms_match_cons. intros (x & Hx & Ht & Hrest) Hk.
  destruct k as [| k]; cbn in Hk.
  - simplify_eq. exists x. by rewrite Nat.add_0_r.
  - destruct (IH (S n) k Hrest Hk) as (y & Hy & ?). exists y. split; [| done].
    rewrite <- Hy. f_equal. lia.
Qed.

Lemma take_merged flog args :
  let next := Z.to_nat (ae_PrevLogIndex args + 1) in
  (next <= length flog)%nat -> take next (merged flog args) = take next flog.
Proof.
  intros next Hn. unfold merged. goal_decide; [done |].
  by rewrite take_app_le, take_take, Nat.min_id by (rewrite length_take; lia).
Qed.

(** An accepted request makes the follower's log a copy of the leader's up to
    the last entry sent. *)
Lemma merged_prefix log flog args next index x :
  log_matching log flog -> 0 < next -> index < len log ->
  idx log (next - 1) = Ok x ->
  ae_PrevLogIndex args = next - 1 -> ae_PrevLogTerm args = Term x ->
  ae_Entries args = entries_between log next index ->
  prev_matches flog args ->
  take (Z.to_nat (index + 1)) (merged flog args) = take (Z.to_nat (index + 1)) log.
Proof.
  intros Hlm Hn Hi [_ Hx]%idx_Ok Hp Ht He Hm. unfold prev_matches in Hm.
  rewrite Hp, Ht in Hm. apply fmap_Some in Hm as (y & Hy & Hty).
  pose proof (Hlm _ x y Hx Hy Hty) as Hpre.
  replace (S (Z.to_nat (next - 1))) with (Z.to_nat next) in Hpre by lia.
  pose proof (lookup_lt_Some _ _ _ Hy) as Hlen.
  pose proof (take_merged flog args) as Htk. cbn zeta in Htk. rewrite Hp in Htk.
  replace (next - 1 + 1) with next in Htk by lia.
  destruct (decide (index + 1 <= next)) as [Hshort | Hlong].
  { apply (take_take_le _ _ _ (Z.to_nat next)); [lia |]. rewrite Htk by lia. done. }
  unfold merged. rewrite Hp, He. replace (next - 1 + 1) with next by lia.
  goal_decide as [Hmt | Hmt].
  - destruct (lookup_lt_is_Some_2 log (Z.to_nat index)) as [z Hz]; [unfold len in Hi; lia |].
    destruct (terms_match_lookup flog (Z.to_nat next) (entries_between log next index)
      (Z.to_nat (index - next)) z Hmt) as (w & Hw & Htw).
    { unfold entries_between. rewrite lookup_take_lt, lookup_drop by lia.
      rewrite <- Hz. f_equal. lia. }
    replace (Z.to_nat next + Z.to_nat (index - next))%nat with (Z.to_nat index) in Hw by lia.
    replace (Z.to_nat (index + 1)) with (S (Z.to_nat index)) by lia.
    symmetry. by apply (Hlm _ z w).
  - rewrite <- Hpre, take_entries_between, take_take, Nat.min_id by lia. done.
Qed.

Lemma sender_accepted_total i b rf :
  0 <= i < len (nextIndex rf) -> len (matchIndex rf) = len (nextIndex rf) ->
  0 <= b_index b < len (Log rf) ->
  exists b' r rf', sender_accepted i b rf = Ok ((b', r), rf') /\ r <> SRetry.
Proof.
  intros Hi Hm Hx. unfold sender_accepted, st_bind, gets, lift, modify, when.
  destruct (idx_in_range (nextIndex rf) i Hi) as [next ->]. cbn [mbind res_bind].
  destruct (idx_in_range (Log rf) (b_index b) Hx) as [x Hlog].
  case_bool_decide.
  1: rewrite store_in_range by done; cbn -[idx store len]; rewrite store_in_range by lia.
  all: cbn -[idx store len]; repeat (goal_decide; cbn -[idx len]; rewrite ?Hlog; cbn -[idx len]);
    eexists _, _, _; (split; [reflexivity | done]).
Qed.

(** The guards of an iteration hold for an undisturbed leader. *)
Lemma GetState_leader rf : state rf = Leader -> GetState rf = Ok ((CurrentTerm rf, true), rf).
Proof. intros H. unfold GetState. raft_run. by rewrite H, decide_True. Qed.

Lemma term_differs_same t rf : CurrentTerm rf = t -> term_differs t rf = Ok (false, rf).
Proof. intros <-. unfold term_differs. raft_run. by rewrite bool_decide_false by tauto. Qed.

(** One rejected round only moves nextIndex[i] down. *)
Lemma retry_reject_round i b rf ni x args reply frf ct cfi :
  wf_log (Log rf) -> wf_log (Log frf) -> 0 < ni <= len (Log rf) ->
  idx (nextIndex rf) i = Ok ni -> idx (Log rf) (ni - 1) = Ok x ->
  ae_PrevLogIndex args = ni - 1 -> ae_PrevLogTerm args = Term x ->
  ~ prev_matches (Log frf) args ->
  reply = mkAEReply (ae_Term args) ct cfi false ->
  conflict_reply (Log frf) (ae_PrevLogIndex args) ct cfi ->
  exists ni', 0 < ni' < ni /\
    sender_handle i ni args reply b rf =
    Ok ((b, SRetry), set_nextIndex (<[Z.to_nat i := ni']> (nextIndex rf)) rf).
Proof.
  intros Hw Hwf Hni Hidx Hx Hp Ht Hm -> Hc.
  destruct (getNextIndex_progress (Log rf) (Log frf) ni ct cfi
    (mkAEReply (ae_Term args) ct cfi false)) as (ni' & Hg & Hr); try done.
  { intros He. apply Hm. unfold prev_matches. rewrite Hp, He, Ht.
    apply idx_Ok in Hx as [_ ->]. done. }
  { by rewrite <- Hp. }
  exists ni'. split; [done |].
  destruct (idx_in_range (Log rf) (ni' - 1)) as [y Hy]; [lia |].
  pose proof (idx_Ok_lt _ _ _ Hidx).
  unfold sender_handle, sender_rejected. cbn [aer_Success aer_Term].
  unfold st_bind, gets, lift, modify, mret, st_ret. rewrite decide_False by lia.
  rewrite Hg. cbn [mbind res_bind]. unfold store. rewrite decide_True by lia.
  cbn [mbind res_bind]. rewrite Hy. done.
Qed.

Record converged (b b' : Bcast) (leader leader' follower' : Raft) (r : AppendEntriesReply) : Prop := {
  cv_success : aer_Success r = true;
  cv_copy : take (Z.to_nat (b_index b + 1)) (Log follower') =
            take (Z.to_nat (b_index b + 1)) (Log leader);
  cv_leader : Log leader' = Log leader;
  cv_count : b_nReplica b' = b_nReplica b + 1;
}.

Lemma retryLoop_converges_aux tm i b fuel : forall leader follower ni,
  state leader = Leader -> CurrentTerm leader = b_term b ->
  wf_log (Log leader) -> wf_log (Log follower) ->
  log_matching (Log leader) (Log follower) ->
  CurrentTerm follower <= b_term b -> 0 <= b_index b < len (Log leader) ->
  len (matchIndex leader) = len (nextIndex leader) ->
  idx (nextIndex leader) i = Ok ni -> 0 < ni <= len (Log leader) ->
  ni <= Z.of_nat fuel ->
  exists b' leader' follower' r,
    retryLoop fuel tm i b leader follower = Ok (mkSent b' leader' follower' (Some r)) /\
    converged b b' leader leader' follower' r.
Proof.
  induction fuel as [| fuel IH]; intros leader follower ni Hs Ht Hw Hwf Hlm Htf Hb Hml Hni Hr Hf;
    [lia |].
  cbn [retryLoop]. destruct (tm fuel) as [t1 t2].
  rewrite GetState_leader by done. cbn [mbind res_bind negb fst snd].
  rewrite term_differs_same by done. cbn [mbind res_bind fst].
  destruct (idx_in_range (Log leader) (ni - 1)) as [x Hx]; [lia |].
  rewrite (sender_args_Ok i b leader ni x) by (done || lia). cbn [mbind res_bind].
  set (args := mkAEArgs _ _ _ _ _ _).
  destruct (decide (prev_matches (Log follower) args)) as [Hm | Hm].
  - destruct (AppendEntries_accept t1 t2 args follower) as (f' & -> & Ha); [done | cbn; lia | done |].
    cbn [mbind res_bind]. rewrite term_differs_same by done. cbn [mbind res_bind fst].
    unfold sender_handle. cbn [aer_Success].
    destruct (sender_accepted_total i b leader) as (b' & r & l' & Hacc & Hr');
      [by eapply idx_Ok_lt | done | done |].
    rewrite Hacc. cbn [mbind res_bind].
    apply sender_accepted_inv in Hacc as ([] & _ & _ & Hcase).
    exists b', l', f', (mkAEReply (ae_Term args) 0 0 true).
    split; [by destruct r |]. split; [done | | done |].
    + rewrite (aa_log _ _ _ Ha). apply (merged_prefix _ _ args ni (b_index b) x); done || lia.
    + destruct Hcase as [(_ & -> & _) | (_ & [? ->] & _)]; done.
  - destruct (AppendEntries_reject t1 t2 args follower) as (ct & cfi & -> & Hc);
      [done | cbn; lia | done |].
    cbn [mbind res_bind]. rewrite term_differs_same by done. cbn [mbind res_bind fst].
    destruct (retry_reject_round i b leader ni x args (mkAEReply (ae_Term args) ct cfi false)
      follower ct cfi) as (ni' & Hni' & ->); try done.
    cbn [mbind res_bind].
    destruct (IH (set_nextIndex (<[Z.to_nat i := ni']> (nextIndex leader)) leader)
      (adopted (Some t1) (ae_Term args) follower) ni') as (b' & l' & f' & r & -> & []);
      try (raft_fields; rewrite ?adopted_Log; done).
    + rewrite adopted_CurrentTerm by done. done.
    + raft_fields. unfold len. by rewrite length_insert.
    + raft_fields. apply idx_Ok_lt in Hni as Hlt. apply idx_Ok. split; [lia |].
      apply list_lookup_insert_eq. unfold len in Hlt. lia.
    + raft_fields. lia.
    + lia.
    + exists b', l', f', r. split; [done |]. by split.
Qed.

(** ** Properties *)


(** A leader of term 3 with entries of terms 1 and 3 brings up a follower with
    two entries of term 2. *)
Definition example_leader : Raft :=
  set_Log [sentinel; mkEntry None 1; mkEntry None 3]
    (set_nextIndex [3; 3] (set_matchIndex [0; 0]
      (set_npeers 2 (set_state Leader (set_CurrentTerm 3 zeroRaft))))).
Definition example_follower : Raft :=
  set_Log [sentinel; mkEntry None 2; mkEntry None 2] (set_CurrentTerm 2 zeroRaft).


(** Start.  When no other section of the server comes in between, Start on a
    leader appends exactly one entry with the command and the current term,
    returns its index, the term and true, makes the new log durable and starts
    one broadcast for that index; on any other server it returns (-1, term,
    false) and changes nothing. *)
Theorem Start_correct command tnow rf :
  (state rf = Leader ->
   exists rf', Start command tnow rf =
       Ok (((len (Log rf), CurrentTerm rf, true),
            Some (len (Log rf), CurrentTerm rf, commitIndex rf, 1)), rf') /\
     started command rf rf') /\
  (state rf <> Leader ->
   Start command tnow rf = Ok (((-1, CurrentTerm rf, false), None), rf)).
Proof.
  split; intros Hs.
  - destruct (Start_append_spec command tnow rf) as (rf' & He & Hst). exists rf'. split; [| done].
    unfold Start, st_bind at 1. rewrite GetState_leader by done.
    unfold st_bind at 1. rewrite He. unfold broadcast_params. raft_run.
    by rewrite (sd_term _ _ _ Hst), (sd_commit _ _ _ Hst).
  - unfold Start, GetState. raft_run. by rewrite decide_False.
Qed.

(** The commit rule.  Handling the reply of peer [i] moves a leader's
    commitIndex only when the reply is a success, the server still is a leader,
    the broadcast has not counted a majority before and does now, and the entry
    at the broadcast index is of the current term; commitIndex then becomes that
    index, which is larger than before.  It never moves otherwise, and the log,
    the vote and the term only change by stepping down. *)
Theorem sender_handle_commit_rule i next args reply b rf b' r rf' :
  sender_handle i next args reply b rf = Ok ((b', r), rf') ->
  (commitIndex rf' <> commitIndex rf ->
     aer_Success reply = true /\ commits b rf /\ commitIndex rf' = b_index b /\
     commitIndex rf < commitIndex rf') /\
  (aer_Success reply = true -> commits b rf -> commitIndex rf' = b_index b /\ r = SHeartbeat) /\
  Log rf' = Log rf /\
  (CurrentTerm rf' <> CurrentTerm rf -> rf' = stepped_down (aer_Term reply) rf /\
     ae_Term args < aer_Term reply).
Proof.
  unfold sender_handle. destruct (aer_Success reply) eqn:Es; intros H.
  - apply sender_accepted_inv in H as ([] & _ & _ & Hc).
    destruct Hc as [(Hcm & _ & -> & Hci) | (Hn & _ & -> & Hci)].
    + split_and!; [| done | done | congruence]. intros _. split_and!; try done.
      rewrite Hci. apply Hcm.
    + split_and!; [congruence | done | done | congruence].
  - sec_inv. match goal with H : sender_rejected _ _ _ _ _ = Ok _ |- _ =>
      apply sender_rejected_inv in H as [(? & -> & ->) | (_ & -> & ni & _ & _ & _ & ->)] end.
    + unfold stepped_down. raft_fields. done.
    + raft_fields. done.
Qed.

Lemma sender_handle_commit_rule_witness :
  exists b' r rf', sender_handle 1 3 (mkAEArgs 3 0 2 3 [] 0) (mkAEReply 3 0 0 true)
      (mkBcast 2 3 0 1 false) example_leader = Ok ((b', r), rf') /\
    commitIndex rf' = 2 /\ r = SHeartbeat.
Proof.
  destruct (sender_handle 1 3 (mkAEArgs 3 0 2 3 [] 0) (mkAEReply 3 0 0 true)
      (mkBcast 2 3 0 1 false) example_leader) as [[[b' r] rf']| | |] eqn:E; [| by vm_compute in E..].
  exists b', r, rf'. split; [done |].
  apply (sender_handle_commit_rule 1 3 (mkAEArgs 3 0 2 3 [] 0) (mkAEReply 3 0 0 true)
    (mkBcast 2 3 0 1 false) example_leader b' r rf' E); [done |].
  split; [done |]. split; [done |]. split; [done |]. split; [done |].
  by exists (mkEntry None 3).
Defined.
