(* ===== verification/RaftSystem.v ===== *)
(** * A cluster of Raft servers: goroutines, critical sections and the network

    The world holds the servers, the goroutines that are alive, and the local
    variables that goroutines share.  One event runs one critical section of
    one goroutine (file RaftNode), hands one request to a handler (file
    RaftRPC), lets a Call return, or crashes and restarts a server.  Any event
    may happen at any time: this over-approximates the timers of
    electionTimeoutTick, heartbeatPeriodTick and eventLoop, and the losses, delays and reorderings of src/labrpc/labrpc.go. *)

From S2P Require Import Prelude LabGob Persister Raft RaftRPC RaftNode.

(** ** Goroutines

    Each constructor is a point of the source at which a goroutine can be
    interrupted: it is about to take rf.mu, or it is inside Call. *)
Inductive Goroutine :=
  (* Start, after GetState returned true *)
  | GStartAppend (command : option GoVal)
  | GStartSpawn (index : Z)
  (* broadcastHeartbeat *)
  | GHeart
  | GHeartStamp
  | GHeartSpawn
  (* broadcastAppendEntries, before the senders *)
  | GBcast (index term commitIndex_ : Z)
  | GBcastTerm (index term commitIndex_ : Z)
  (* the sender for peer i of broadcast b *)
  | GSend (b : nat) (i : Z)
  | GSendTerm (b : nat) (i : Z)
  | GSendArgs (b : nat) (i : Z)
  (* the request is built, Call has not encoded it yet *)
  | GSendEnc (b : nat) (i next : Z) (args : AppendEntriesArgs)
  | GSendCall (b : nat) (i next : Z) (args : AppendEntriesArgs)
  | GSendRet (b : nat) (i next : Z) (args : AppendEntriesArgs) (reply : AppendEntriesReply)
  | GSendCheck (b : nat) (i next : Z) (args : AppendEntriesArgs) (reply : AppendEntriesReply)
  | GSendHandle (b : nat) (i next : Z) (args : AppendEntriesArgs) (reply : AppendEntriesReply)
  (* startElection: its first section, then the loop over the peers *)
  | GElect
  | GElectLoop (e : nat) (i : Z)
  (* the requester for peer i of election e *)
  | GVoteCall (e : nat) (i : Z) (args : RequestVoteArgs)
  | GVoteRet (e : nat) (i : Z) (args : RequestVoteArgs) (reply : RequestVoteReply)
  | GVoteCheck (e : nat) (i : Z) (args : RequestVoteArgs) (reply : RequestVoteReply)
  | GVoteHandle (e : nat) (i : Z) (args : RequestVoteArgs) (reply : RequestVoteReply)
  (* a request in the network whose caller has given up *)
  | GOrphanAE (i : Z) (args : AppendEntriesArgs)
  | GOrphanRV (i : Z) (args : RequestVoteArgs)
  (* applyEntries *)
  | GApply
  | GApplyBlock
  | GApplyWait (seen : nat)
  | GApplyLoop (i commitIndex_ : Z)
  | GApplySend (msg : ApplyMsg) (i commitIndex_ : Z).

Record World := mkWorld {
  peers : gmap Z Raft;
  threads : gmap nat (Z * Goroutine);      (* goroutine -> its server and point *)
  bcasts : gmap nat Bcast;                 (* locals of broadcastAppendEntries *)
  elects : gmap nat Z;                     (* *nVotes of startElection *)
  applied : gmap Z (list ApplyMsg);        (* what each server sent on applyCh *)
  fresh : nat;
}.

Definition set_peers v w := mkWorld v (threads w) (bcasts w) (elects w) (applied w) (fresh w).
Definition set_threads v w := mkWorld (peers w) v (bcasts w) (elects w) (applied w) (fresh w).
Definition set_bcasts v w := mkWorld (peers w) (threads w) v (elects w) (applied w) (fresh w).
Definition set_elects v w := mkWorld (peers w) (threads w) (bcasts w) v (applied w) (fresh w).
Definition set_applied v w := mkWorld (peers w) (threads w) (bcasts w) (elects w) v (fresh w).
Definition set_fresh v w := mkWorld (peers w) (threads w) (bcasts w) (elects w) (applied w) v.

(** ** Building blocks of a step *)

(** Run one critical section of server [p]. *)
Definition on_peer {A} (p : Z) (m : ST Raft A) : ST World A := fun w =>
  match peers w !! p with
  | None => Blocked
  | Some rf => x ← m rf; Ok (x.1, set_peers (<[p := x.2]> (peers w)) w)
  end.

Definition become (tid : nat) (p : Z) (g : Goroutine) : ST World unit :=
  modify (fun w => set_threads (<[tid := (p, g)]> (threads w)) w).
Definition finish (tid : nat) : ST World unit :=
  modify (fun w => set_threads (delete tid (threads w)) w).
Definition spawn (p : Z) (g : Goroutine) : ST World unit :=
  modify (fun w => set_fresh (S (fresh w)) (set_threads (<[fresh w := (p, g)]> (threads w)) w)).

Definition get_bcast (b : nat) : ST World Bcast := fun w =>
  match bcasts w !! b with Some x => Ok (x, w) | None => Blocked end.
Definition get_elect (e : nat) : ST World Z := fun w =>
  match elects w !! e with Some x => Ok (x, w) | None => Blocked end.

Definition new_bcast (b : Bcast) : ST World nat := fun w =>
  Ok (fresh w, set_fresh (S (fresh w)) (set_bcasts (<[fresh w := b]> (bcasts w)) w)).
Definition new_elect (n : Z) : ST World nat := fun w =>
  Ok (fresh w, set_fresh (S (fresh w)) (set_elects (<[fresh w := n]> (elects w)) w)).

(** [for i, _ := range rf.peers { if i == rf.me { continue }; go func ... }] *)
Fixpoint spawn_all (p : Z) (b : nat) (js : list Z) : ST World unit :=
  match js with
  | [] => mret tt
  | i :: js => (if decide (i = p) then mret tt else spawn p (GSend b i)) ;;; spawn_all p b js
  end.

(** ** One step of a goroutine of server [p] *)
Definition run_thread (tid : nat) (p : Z) (g : Goroutine) (t1 : Reading) : ST World unit :=
  match g with
  | GStartAppend command =>
      index <- on_peer p (Start_append command (now t1)) ;;
      become tid p (GStartSpawn index)
  | GStartSpawn index =>
      x <- on_peer p broadcast_params ;;
      become tid p (GBcast index x.1 x.2)
  | GHeart =>
      x <- on_peer p GetState ;;
      if x.2 : bool then become tid p GHeartStamp else finish tid
  | GHeartStamp =>
      on_peer p (heartbeat_stamp (now t1)) ;;; become tid p GHeartSpawn
  | GHeartSpawn =>
      x <- on_peer p heartbeat_params ;;
      become tid p (GBcast x.1.1 x.1.2 x.2)
  | GBcast index term ci =>
      x <- on_peer p GetState ;;
      if x.2 : bool then become tid p (GBcastTerm index term ci) else finish tid
  | GBcastTerm index term ci =>
      d <- on_peer p (term_differs term) ;;
      finish tid ;;;
      if d : bool then mret tt else
        n <- on_peer p (gets npeers) ;;
        b <- new_bcast (mkBcast index term ci 1 false) ;;
        spawn_all p b (seqZ 0 n)
  | GSend b i =>
      x <- on_peer p GetState ;;
      if x.2 : bool then become tid p (GSendTerm b i) else finish tid
  | GSendTerm b i =>
      bc <- get_bcast b ;;
      d <- on_peer p (term_differs (b_term bc)) ;;
      if d : bool then finish tid else become tid p (GSendArgs b i)
  | GSendArgs b i =>
      bc <- get_bcast b ;;
      x <- on_peer p (sender_args i bc) ;;
      become tid p (GSendEnc b i x.1 x.2)
  | GSendEnc b i next args => become tid p (GSendCall b i next args)
  | GSendCheck b i next args reply =>
      d <- on_peer p (term_differs (ae_Term args)) ;;
      if d : bool then finish tid else become tid p (GSendHandle b i next args reply)
  | GSendHandle b i next args reply =>
      bc <- get_bcast b ;;
      x <- on_peer p (sender_handle i next args reply bc) ;;
      modify (fun w => set_bcasts (<[b := x.1]> (bcasts w)) w) ;;;
      match x.2 with
      | SReturn => finish tid
      | SRetry => become tid p (GSend b i)
      | SHeartbeat => become tid p GHeart
      end
  | GElect =>
      on_peer p (startElection_begin t1) ;;;
      e <- new_elect 1 ;;
      become tid p (GElectLoop e 0)
  | GElectLoop e i =>
      n <- on_peer p (gets npeers) ;;
      if decide (n <= i) then finish tid
      else if decide (i = p) then become tid p (GElectLoop e (i + 1))
      else
        args <- on_peer p election_args ;;
        spawn p (GVoteCall e i args) ;;;
        become tid p (GElectLoop e (i + 1))
  | GVoteCheck e i args reply =>
      d <- on_peer p (term_differs (rv_Term args)) ;;
      if d : bool then finish tid else become tid p (GVoteHandle e i args reply)
  | GVoteHandle e i args reply =>
      nv <- get_elect e ;;
      x <- on_peer p (vote_handle reply nv) ;;
      modify (fun w => set_elects (<[e := x.1]> (elects w)) w) ;;;
      if x.2 : bool then become tid p GHeart else finish tid
  | GApply =>
      x <- on_peer p apply_window ;;
      if decide (x.2 = x.1) then become tid p GApplyBlock
      else become tid p (GApplyLoop (x.2 + 1) x.1)
  | GApplyBlock =>
      c <- on_peer p (gets applyCond) ;;
      become tid p (GApplyWait c)
  | GApplyWait seen =>
      c <- on_peer p (gets applyCond) ;;
      if decide (seen < c)%nat then become tid p GApply else lift Blocked
  | GApplyLoop i ci =>
      if decide (i <= ci) then
        m <- on_peer p (apply_one i) ;;
        become tid p (GApplySend m i ci)
      else become tid p GApply
  | GApplySend msg i ci =>
      modify (fun w => set_applied (<[p := default [] (applied w !! p) ++ [msg]]> (applied w)) w) ;;;
      become tid p (GApplyLoop (i + 1) ci)
  | GSendCall _ _ _ _ | GSendRet _ _ _ _ _ | GVoteCall _ _ _ | GVoteRet _ _ _ _
  | GOrphanAE _ _ | GOrphanRV _ _ => lift Blocked
  end.

(** args.Entries = rf.Log[nextIndex:index+1] shares the backing array of the
    log until Call encodes it, after rf.mu was released.  AppendEntries writes
    into that array when it cuts the log, so the [j]-th entry of a request may
    turn into whatever the server's log has at that index. *)
Definition set_Entries (es : list LogEntry) (a : AppendEntriesArgs) : AppendEntriesArgs :=
  mkAEArgs (ae_Term a) (ae_LeaderId a) (ae_PrevLogIndex a) (ae_PrevLogTerm a) es (ae_LeaderCommit a).

Definition aliased (j : nat) (next : Z) (log : list LogEntry) (a : AppendEntriesArgs) :
    AppendEntriesArgs :=
  match log !! (Z.to_nat next + j)%nat with
  | Some x => set_Entries (<[j := x]> (ae_Entries a)) a
  | None => a
  end.

Definition overwrite (j : nat) (tid : nat) (p : Z) (g : Goroutine) : ST World unit :=
  match g with
  | GSendEnc b i next args =>
      log <- on_peer p (gets Log) ;;
      become tid p (GSendEnc b i next (aliased j next log args))
  | _ => lift Blocked
  end.

(** The network hands the request of a goroutine to the handler. *)
Definition deliver (tid : nat) (p : Z) (g : Goroutine) (t1 t2 : Reading) : ST World unit :=
  match g with
  | GSendCall b i next args =>
      reply <- on_peer i (AppendEntries t1 t2 args) ;;
      become tid p (GSendRet b i next args reply)
  | GVoteCall e i args =>
      reply <- on_peer i (RequestVote t1 args) ;;
      become tid p (GVoteRet e i args reply)
  | GOrphanAE i args => _ <- on_peer i (AppendEntries t1 t2 args) ;; finish tid
  | GOrphanRV i args => _ <- on_peer i (RequestVote t1 args) ;; finish tid
  | _ => lift Blocked
  end.

(** Call returns true. *)
Definition call_true (tid : nat) (p : Z) (g : Goroutine) : ST World unit :=
  match g with
  | GSendRet b i next args reply => become tid p (GSendCheck b i next args reply)
  | GVoteRet e i args reply => become tid p (GVoteCheck e i args reply)
  | _ => lift Blocked
  end.

(** Call returns false: the goroutine returns.  A request that was not
    executed yet may still be executed later. *)
Definition call_false (tid : nat) (p : Z) (g : Goroutine) : ST World unit :=
  match g with
  | GSendCall _ i _ args => become tid p (GOrphanAE i args)
  | GVoteCall _ i args => become tid p (GOrphanRV i args)
  | GSendRet _ _ _ _ _ | GVoteRet _ _ _ _ => finish tid
  | _ => lift Blocked
  end.

(** A crash of [p] ends its goroutines; requests already in the network stay. *)
Definition orphaned (g : Goroutine) : option Goroutine :=
  match g with
  | GSendCall _ i _ args => Some (GOrphanAE i args)
  | GVoteCall _ i args => Some (GOrphanRV i args)
  | GOrphanAE _ _ | GOrphanRV _ _ => Some g
  | _ => None
  end.

Definition kill_threads (p : Z) (ts : gmap nat (Z * Goroutine)) : gmap nat (Z * Goroutine) :=
  omap (fun '(q, g) => if decide (q = p) then (fun g => (q, g)) <$> orphaned g else Some (q, g)) ts.

(** What crash1 of config.go leaves in cfg.saved[i], and what start1, which
    begins with crash1, then gives to Make. *)
Definition crash1 (saved : Persister.t) : Persister.t :=
  let saved := Persister.Copy saved in
  let raftlog := Persister.ReadRaftState saved in
  Persister.SaveRaftState raftlog Persister.MakePersister.
Definition start1 (saved : Persister.t) : Persister.t := Persister.Copy (crash1 saved).

(** A crash finds the server between two sections, or inside the handler of the
    request of goroutine [tid]: after its first call of persist (the state after
    the last one is that at the end of the section).  Then the request is gone,
    and its Call returns false. *)
Definition handler_begin (t1 : Reading) (g : Goroutine) : option (Z * ST Raft unit) :=
  match g with
  | GSendCall _ i _ args | GOrphanAE i args => Some (i, AppendEntries_begin t1 args)
  | GVoteCall _ i args | GOrphanRV i args => Some (i, RequestVote_begin args)
  | _ => None
  end.

Definition interrupted (p : Z) (mid : option nat) (t1 : Reading) (rf : Raft) (ts : gmap nat (Z * Goroutine)) :
    res (Raft * gmap nat (Z * Goroutine)) :=
  match mid with
  | None => Ok (rf, ts)
  | Some tid =>
      match (ts !! tid) ≫= (fun x => handler_begin t1 x.2) with
      | Some (i, m) => if decide (i = p) then x ← m rf; Ok (x.2, delete tid ts) else Blocked
      | None => Blocked
      end
  end.

(** A crash and the restart. *)
Definition crash (p : Z) (mid : option nat) (tm : Reading) : ST World unit := fun w =>
  match peers w !! p with
  | None => Blocked
  | Some rf =>
      x ← interrupted p mid tm rf (threads w);
      rf' ← Make (npeers rf) p (start1 (persister x.1)) tm;
      Ok (tt, set_fresh (S (fresh w))
        (set_threads (<[fresh w := (p, GApply)]> (kill_threads p x.2))
          (set_applied (<[p := []]> (applied w))
            (set_peers (<[p := rf']> (peers w)) w))))
  end.

(** ** Events *)
Inductive Event :=
  | EStart (p : Z) (command : option GoVal)     (* the service calls Start *)
  | ETimeout (p : Z)                            (* eventLoop starts an election *)
  | EHeartbeat (p : Z)                          (* eventLoop starts a heartbeat *)
  | ERun (tid : nat) (t1 : Reading)
  | EAlias (tid : nat) (j : nat)                (* the array under a request is written *)
  | EDeliver (tid : nat) (t1 t2 : Reading)
  | EReply (tid : nat)
  | ELose (tid : nat)
  | ECrash (p : Z) (mid : option nat) (tm : Reading).   (* a crash, and the restart *)

Definition with_thread (tid : nat) (f : Z -> Goroutine -> ST World unit) : ST World unit := fun w =>
  match threads w !! tid with Some (p, g) => f p g w | None => Blocked end.

Definition exec (ev : Event) : ST World unit :=
  match ev with
  | EStart p command =>
      x <- on_peer p GetState ;;
      if x.2 : bool then spawn p (GStartAppend command) else mret tt
  | ETimeout p => _ <- on_peer p (gets me) ;; spawn p GElect
  | EHeartbeat p => _ <- on_peer p (gets me) ;; spawn p GHeart
  | ERun tid t1 => with_thread tid (fun p g => run_thread tid p g t1)
  | EAlias tid j => with_thread tid (overwrite j tid)
  | EDeliver tid t1 t2 => with_thread tid (fun p g => deliver tid p g t1 t2)
  | EReply tid => with_thread tid (call_true tid)
  | ELose tid => with_thread tid (call_false tid)
  | ECrash p mid tm => crash p mid tm
  end.

(** ** The initial world and executions *)

Definition fresh_peer (n p : Z) (tm : Reading) : Raft :=
  match Make n p Persister.MakePersister tm with Ok rf => rf | _ => zeroRaft end.

Definition initial (n : Z) (tm : Reading) : World :=
  mkWorld (list_to_map ((fun p => (p, fresh_peer n p tm)) <$> seqZ 0 n))
          (list_to_map ((fun p => (Z.to_nat p, (p, GApply))) <$> seqZ 0 n))
          ∅ ∅ ∅ (Z.to_nat n).

(** No term counter is about to overflow (2^63 - 1 elections). *)
Definition terms_fit (w : World) : Prop :=
  map_Forall (fun _ rf => CurrentTerm rf < MaxInt) (peers w).

#[export] Instance terms_fit_dec w : Decision (terms_fit w).
Proof. unfold terms_fit. apply _. Defined.

Definition step (w w' : World) : Prop := terms_fit w /\ exists ev, exec ev w = Ok (tt, w').

Definition reachable (n : Z) (w : World) : Prop := exists tm, rtc step (initial n tm) w.

(** Running a trace, for concrete executions. *)
Fixpoint run (evs : list Event) (w : World) : option World :=
  match evs with
  | [] => Some w
  | ev :: evs =>
      if decide (terms_fit w) then
        match exec ev w with Ok (_, w') => run evs w' | _ => None end
      else None
  end.

Lemma run_rtc evs w w' : run evs w = Some w' -> rtc step w w'.
Proof.
  revert w. induction evs as [| ev evs IH]; intros w; cbn.
  { intros [= ->]. done. }
  case_decide; [| done]. destruct (exec ev w) as [[[] w1] | | |] eqn:E; [| done..].
  intros Hr. eapply rtc_l; [| by apply IH]. split; [done |]. by exists ev.
Qed.

Lemma run_reachable n tm evs w : run evs (initial n tm) = Some w -> reachable n w.
Proof. intros H. exists tm. by eapply run_rtc. Qed.
