(* ===== verification/RaftSteps.v ===== *)
(** * The steps of the cluster as a relation

    [wstep] lists what one event can do to the world, one constructor per kind
    of effect, with the outcome of the critical section spelled out by the
    inversion lemmas of RaftNode.  [exec_wstep] shows that every event of
    RaftSystem is one of them; the invariants are proved by cases on [wstep]. *)

From S2P Require Import Prelude LabGob Persister Raft RaftRPC RaftNode RaftSystem.

Definition updated (p : Z) (rf : Raft) (w : World) : World := set_peers (<[p := rf]> (peers w)) w.

(** Goroutine [tid] of [p] goes on at [og], or ends. *)
Definition moved (tid : nat) (p : Z) (og : option Goroutine) (w : World) : World :=
  set_threads (match og with
               | Some g => <[tid := (p, g)]> (threads w)
               | None => delete tid (threads w)
               end) w.

Definition spawned (p : Z) (g : Goroutine) (w : World) : World :=
  set_fresh (S (fresh w)) (set_threads (<[fresh w := (p, g)]> (threads w)) w).

(** Transitions that read the server (in state [rf]) and change nothing in it. *)
Definition reads (w : World) (p : Z) (rf : Raft) (g : Goroutine) (og : option Goroutine) : Prop :=
  match g with
  | GStartSpawn index => og = Some (GBcast index (CurrentTerm rf) (commitIndex rf))
  | GHeart => og = Some GHeartStamp /\ state rf = Leader \/ og = None
  | GHeartSpawn => og = Some (GBcast (len (Log rf) - 1) (CurrentTerm rf) (commitIndex rf))
  | GBcast index term ci => og = Some (GBcastTerm index term ci) /\ state rf = Leader \/ og = None
  | GBcastTerm _ _ _ => og = None
  | GSend b i => og = Some (GSendTerm b i) /\ state rf = Leader \/ og = None
  | GSendTerm b i =>
      exists bc, bcasts w !! b = Some bc /\
        (og = Some (GSendArgs b i) /\ CurrentTerm rf = b_term bc \/ og = None)
  | GSendArgs b i =>
      exists bc next args, bcasts w !! b = Some bc /\
        sender_args i bc rf = Ok ((next, args), rf) /\ og = Some (GSendEnc b i next args)
  | GSendEnc b i next args =>
      og = Some (GSendCall b i next args) \/
      exists j, og = Some (GSendEnc b i next (aliased j next (Log rf) args))
  | GSendCall b i next args => og = Some (GOrphanAE i args)
  | GSendRet b i next args reply => og = Some (GSendCheck b i next args reply) \/ og = None
  | GSendCheck b i next args reply =>
      og = Some (GSendHandle b i next args reply) /\ CurrentTerm rf = ae_Term args \/ og = None
  | GElectLoop e i =>
      og = None /\ npeers rf <= i \/ og = Some (GElectLoop e (i + 1)) /\ i = p
  | GVoteCall e i args => og = Some (GOrphanRV i args)
  | GVoteRet e i args reply => og = Some (GVoteCheck e i args reply) \/ og = None
  | GVoteCheck e i args reply =>
      og = Some (GVoteHandle e i args reply) /\ CurrentTerm rf = rv_Term args \/ og = None
  | GApply =>
      og = Some GApplyBlock \/ og = Some (GApplyLoop (lastApplied rf + 1) (commitIndex rf))
  | GApplyBlock => og = Some (GApplyWait (applyCond rf))
  | GApplyWait _ => og = Some GApply
  | GApplyLoop i ci => og = Some GApply /\ ci < i
  | _ => False
  end.

(** Transitions that do not even read it: the network's, and the end of a loop. *)
Definition unlocked (g : Goroutine) (og : option Goroutine) : Prop :=
  match g with
  | GSendEnc b i next args => og = Some (GSendCall b i next args)
  | GSendCall _ _ _ _ | GSendRet _ _ _ _ _ | GVoteCall _ _ _ | GVoteRet _ _ _ _
  | GApplyLoop _ _ => True
  | _ => False
  end.

Inductive wstep (w : World) : World -> Prop :=
  | ws_idle : wstep w w
  | ws_call p rf cmd :
      peers w !! p = Some rf -> state rf = Leader -> wstep w (spawned p (GStartAppend cmd) w)
  | ws_spawn p rf g :
      peers w !! p = Some rf -> g = GElect \/ g = GHeart -> wstep w (spawned p g w)
  | ws_read tid p rf g og :
      threads w !! tid = Some (p, g) -> reads w p rf g og ->
      peers w !! p = Some rf \/ unlocked g og ->
      wstep w (moved tid p og w)
  | ws_stamp tid p rf rf' :
      threads w !! tid = Some (p, GHeartStamp) -> peers w !! p = Some rf ->
      unchanged rf rf' -> lastApplied rf' = lastApplied rf -> commitIndex rf' = commitIndex rf ->
      nextIndex rf' = nextIndex rf -> matchIndex rf' = matchIndex rf ->
      wstep w (moved tid p (Some GHeartSpawn) (updated p rf' w))
  | ws_senders tid p rf index term ci w' :
      threads w !! tid = Some (p, GBcastTerm index term ci) -> peers w !! p = Some rf ->
      CurrentTerm rf = term ->
      spawn_all p (fresh w) (seqZ 0 (npeers rf))
        (set_fresh (S (fresh w))
          (set_bcasts (<[fresh w := mkBcast index term ci 1 false]> (bcasts w)) (moved tid p None w)))
        = Ok (tt, w') ->
      wstep w w'
  | ws_append tid p rf rf' cmd :
      threads w !! tid = Some (p, GStartAppend cmd) -> peers w !! p = Some rf ->
      started cmd rf rf' ->
      wstep w (moved tid p (Some (GStartSpawn (len (Log rf)))) (updated p rf' w))
  | ws_handle tid p rf b i next args reply bc bc' r rf' :
      threads w !! tid = Some (p, GSendHandle b i next args reply) -> peers w !! p = Some rf ->
      bcasts w !! b = Some bc ->
      sender_handle i next args reply bc rf = Ok ((bc', r), rf') ->
      wstep w (moved tid p (match r with
                 | SReturn => None | SRetry => Some (GSend b i) | SHeartbeat => Some GHeart end)
               (set_bcasts (<[b := bc']> (bcasts w)) (updated p rf' w)))
  | ws_elect tid p rf rf' :
      threads w !! tid = Some (p, GElect) -> peers w !! p = Some rf -> campaigning rf rf' ->
      wstep w (moved tid p (Some (GElectLoop (fresh w) 0))
               (set_fresh (S (fresh w)) (set_elects (<[fresh w := 1]> (elects w)) (updated p rf' w))))
  | ws_request tid p rf e i args :
      threads w !! tid = Some (p, GElectLoop e i) -> peers w !! p = Some rf ->
      i < npeers rf -> i <> p -> election_args rf = Ok (args, rf) ->
      wstep w (moved tid p (Some (GElectLoop e (i + 1))) (spawned p (GVoteCall e i args) w))
  | ws_vote tid p rf e i args reply nv nv' won_ rf' :
      threads w !! tid = Some (p, GVoteHandle e i args reply) -> peers w !! p = Some rf ->
      elects w !! e = Some nv -> vote_handle reply nv rf = Ok ((nv', won_), rf') ->
      wstep w (moved tid p (if won_ : bool then Some GHeart else None)
               (set_elects (<[e := nv']> (elects w)) (updated p rf' w)))
  | ws_apply tid p rf i ci m rf' :
      threads w !! tid = Some (p, GApplyLoop i ci) -> peers w !! p = Some rf -> i <= ci ->
      apply_one i rf = Ok (m, rf') ->
      wstep w (moved tid p (Some (GApplySend m i ci)) (updated p rf' w))
  | ws_apply_send tid p m i ci :
      threads w !! tid = Some (p, GApplySend m i ci) ->
      wstep w (moved tid p (Some (GApplyLoop (i + 1) ci))
               (set_applied (<[p := default [] (applied w !! p) ++ [m]]> (applied w)) w))
  | ws_deliver_ae tid p g i args og rf reply rf' t1 t2 :
      threads w !! tid = Some (p, g) ->
      (exists b next, g = GSendCall b i next args /\ og = Some (GSendRet b i next args reply)) \/
      g = GOrphanAE i args /\ og = None ->
      peers w !! i = Some rf -> AppendEntries t1 t2 args rf = Ok (reply, rf') ->
      wstep w (moved tid p og (updated i rf' w))
  | ws_deliver_rv tid p g i args og rf reply rf' t1 :
      threads w !! tid = Some (p, g) ->
      (exists e, g = GVoteCall e i args /\ og = Some (GVoteRet e i args reply)) \/
      g = GOrphanRV i args /\ og = None ->
      peers w !! i = Some rf -> RequestVote t1 args rf = Ok (reply, rf') ->
      wstep w (moved tid p og (updated i rf' w))
  | ws_crash p rf mid rf1 ts rf' tm :
      peers w !! p = Some rf -> interrupted p mid tm rf (threads w) = Ok (rf1, ts) ->
      Make (npeers rf) p (start1 (persister rf1)) tm = Ok rf' ->
      wstep w (set_fresh (S (fresh w))
        (set_threads (<[fresh w := (p, GApply)]> (kill_threads p ts))
          (set_applied (<[p := []]> (applied w)) (updated p rf' w)))).

(** ** Every event is such a step *)

Lemma on_peer_Ok {A} p (m : ST Raft A) w a w' :
  on_peer p m w = Ok (a, w') <->
  exists rf rf', peers w !! p = Some rf /\ m rf = Ok (a, rf') /\ w' = updated p rf' w.
Proof.
  unfold on_peer, updated. destruct (peers w !! p) as [rf|].
  - destruct (m rf) as [[x rf'] | | |] eqn:E; cbn; split.
    all: try (intros [= <- <-]; by exists rf, rf').
    all: try (by intros [=]).
    all: intros (rf1 & rf2 & [= <-] & H & ->); rewrite E in H; by simplify_eq.
  - split; [by intros [=] |]. by intros (? & ? & [=] & _).
Qed.

Lemma updated_same p rf w : peers w !! p = Some rf -> updated p rf w = w.
Proof.
  intros H. unfold updated, set_peers. rewrite insert_id by done. by destruct w.
Qed.

Lemma GetState_Ok rf x rf' :
  GetState rf = Ok (x, rf') -> rf' = rf /\ (x.2 = true <-> state rf = Leader).
Proof.
  unfold GetState. intros H. sec_inv. split; [done |]. cbn. case_decide; naive_solver.
Qed.

Lemma term_differs_Ok t rf d rf' :
  term_differs t rf = Ok (d, rf') -> rf' = rf /\ (d = false <-> CurrentTerm rf = t).
Proof.
  unfold term_differs. intros H. sec_inv. split; [done |].
  case_bool_decide; naive_solver.
Qed.

Lemma become_eq tid p g w : become tid p g w = Ok (tt, moved tid p (Some g) w).
Proof. done. Qed.
Lemma finish_eq tid p w : finish tid w = Ok (tt, moved tid p None w).
Proof. done. Qed.
Lemma spawn_eq p g w : spawn p g w = Ok (tt, spawned p g w).
Proof. done. Qed.

(** Invert the code of a world step up to its section. *)
Ltac world_inv :=
  repeat match goal with
  | H : st_bind _ _ _ _ _ = Ok (_, _) |- _ => apply st_bind_Ok in H as (? & ? & ? & H)
  | H : on_peer _ _ _ = Ok (_, _) |- _ => apply on_peer_Ok in H as (? & ? & ? & ? & ->)
  | H : become _ _ _ _ = Ok (_, _) |- _ => rewrite become_eq in H; injection H as <-
  | H : spawn _ _ _ = Ok (_, _) |- _ => rewrite spawn_eq in H; injection H as <-
  | H : GetState _ = Ok (_, _) |- _ => apply GetState_Ok in H as [-> ?]
  | H : term_differs _ _ = Ok (_, _) |- _ => apply term_differs_Ok in H as [-> ?]
  | H : gets _ _ = Ok (_, _) |- _ => apply gets_Ok in H as [-> ->]
  | H : get_bcast ?b ?w = Ok (_, _) |- _ =>
      unfold get_bcast in H; destruct (bcasts w !! b) eqn:?; [injection H as <- <- | discriminate H]
  | H : get_elect ?e ?w = Ok (_, _) |- _ =>
      unfold get_elect in H; destruct (elects w !! e) eqn:?; [injection H as <- <- | discriminate H]
  | H : modify _ _ = Ok (_, _) |- _ => apply modify_Ok in H as ->
  | H : lift Blocked _ = Ok (_, _) |- _ => discriminate H
  | H : Blocked = Ok (_, _) |- _ => discriminate H
  | H : mret _ _ = Ok (_, _) |- _ => apply mret_Ok in H as [_ ->]
  | H : context [updated ?p ?rf ?w], H' : peers ?w !! ?p = Some ?rf |- _ =>
      rewrite (updated_same p rf w H') in H
  end.

(** Sections that end by testing what they read. *)
Ltac test_flag :=
  match goal with
  | H : (if ?b : bool then _ else _) _ = Ok _ |- _ => destruct b eqn:?; world_inv
  | Ht : threads _ !! ?t = Some (?p, _), H : finish ?t _ = Ok _ |- _ =>
      rewrite (finish_eq t p) in H; injection H as <-
  end.

Lemma broadcast_params_Ok rf x rf' :
  broadcast_params rf = Ok (x, rf') -> rf' = rf /\ x = (CurrentTerm rf, commitIndex rf).
Proof. unfold broadcast_params. intros H. by sec_inv. Qed.

Lemma heartbeat_params_Ok rf x rf' :
  heartbeat_params rf = Ok (x, rf') ->
  rf' = rf /\ x = ((len (Log rf) - 1, CurrentTerm rf), commitIndex rf).
Proof. unfold heartbeat_params, broadcast_params. intros H. by sec_inv. Qed.

Lemma apply_window_Ok rf x rf' :
  apply_window rf = Ok (x, rf') -> rf' = rf /\ x = (commitIndex rf, lastApplied rf).
Proof. unfold apply_window. intros H. by sec_inv. Qed.

Lemma sender_args_same i bc rf x rf' :
  sender_args i bc rf = Ok (x, rf') -> rf' = rf /\ sender_args i bc rf = Ok ((x.1, x.2), rf).
Proof.
  intros H. destruct x as [next args]. pose proof (sender_args_inv _ _ _ _ _ _ H) as [-> _]. done.
Qed.

Ltac read_only :=
  repeat match goal with
  | H : broadcast_params _ = Ok _ |- _ => apply broadcast_params_Ok in H as [-> ->]
  | H : heartbeat_params _ = Ok _ |- _ => apply heartbeat_params_Ok in H as [-> ->]
  | H : apply_window _ = Ok _ |- _ => apply apply_window_Ok in H as [-> ->]
  | H : sender_args _ _ _ = Ok (_, ?r) |- context [updated _ ?r _] =>
      apply sender_args_same in H as [-> H]
  | H' : peers ?w !! ?p = Some ?rf |- context [updated ?p ?rf ?w] =>
      rewrite (updated_same p rf w H')
  end.

Lemma run_thread_read tid p g t1 w w' :
  threads w !! tid = Some (p, g) -> run_thread tid p g t1 w = Ok (tt, w') ->
  match g with
  | GStartSpawn _ | GHeart | GHeartSpawn | GBcast _ _ _ | GSend _ _ | GSendTerm _ _
  | GSendArgs _ _ | GSendCheck _ _ _ _ _ | GVoteCheck _ _ _ _ | GApply | GApplyBlock
  | GApplyWait _ => wstep w w'
  | _ => True
  end.
Proof.
  intros Ht H. destruct g; try exact I; cbn in H; world_inv.
  all: repeat test_flag.
  all: try (destruct (decide _) in H; world_inv).
  all: read_only.
  all: eapply ws_read; [done | | by left]; cbn; naive_solver.
Qed.

Lemma run_thread_bcast tid p index term ci t1 w w' :
  threads w !! tid = Some (p, GBcastTerm index term ci) ->
  run_thread tid p (GBcastTerm index term ci) t1 w = Ok (tt, w') -> wstep w w'.
Proof.
  intros Ht H. cbn in H. world_inv. rewrite (finish_eq tid p) in *.
  match goal with H : Ok _ = Ok (_, _) |- _ => injection H as <- <- end.
  destruct x eqn:?; world_inv.
  - by eapply (ws_read w tid p _ _ None); [done | | left; done].
  - match goal with H : peers (moved _ _ _ _) !! _ = Some _ |- _ => cbn in H end. simplify_eq.
    match goal with H : new_bcast _ _ = Ok (_, _) |- _ => injection H as <- <- end.
    eapply ws_senders; try done. naive_solver.
Qed.

(** The sections that change a server. *)
Lemma run_thread_write tid p g t1 w w' :
  threads w !! tid = Some (p, g) -> run_thread tid p g t1 w = Ok (tt, w') ->
  match g with
  | GStartAppend _ | GHeartStamp | GSendHandle _ _ _ _ _ | GElect | GVoteHandle _ _ _ _
  | GApplySend _ _ _ => wstep w w'
  | _ => True
  end.
Proof.
  intros Ht H. destruct g; try exact I; cbn in H; world_inv.
  - match goal with H : Start_append ?c ?n ?rf = Ok _ |- _ =>
      destruct (Start_append_spec c n rf) as (rf' & He & Hs); rewrite H in He; injection He as -> -> end.
    by eapply ws_append.
  - match goal with H : heartbeat_stamp _ _ = Ok _ |- _ => apply modify_Ok in H as -> end.
    by eapply ws_stamp.
  - destruct x1 as [bc' r]. eapply (ws_handle w tid p _ b i next args reply _ bc' r) in H1; try done.
    destruct r; cbn in H; world_inv; try exact H1.
    rewrite (finish_eq tid p) in H. injection H as <-. exact H1.
  - match goal with H : startElection_begin ?t ?rf = Ok _ |- _ =>
      destruct (startElection_begin_spec t rf) as (rf' & He & Hs); rewrite H in He; injection He as -> end.
    match goal with H : new_elect _ _ = Ok (_, _) |- _ => injection H as <- <- end.
    subst. by eapply ws_elect.
  - destruct x1 as [nv' won_]. eapply (ws_vote w tid p _ e i args reply _ nv' won_) in H1; try done.
    destruct won_; cbn in H; world_inv; [exact H1 |].
    rewrite (finish_eq tid p) in H. injection H as <-. exact H1.
  - by eapply ws_apply_send.
Qed.

Lemma election_args_same rf a rf' :
  election_args rf = Ok (a, rf') -> rf' = rf /\ election_args rf = Ok (a, rf).
Proof.
  intros H. assert (rf' = rf) as -> by (unfold election_args in H; by sec_inv). done.
Qed.

Lemma run_thread_loops tid p g t1 w w' :
  threads w !! tid = Some (p, g) -> run_thread tid p g t1 w = Ok (tt, w') ->
  match g with
  | GElectLoop _ _ | GApplyLoop _ _ => wstep w w'
  | _ => True
  end.
Proof.
  intros Ht H. destruct g; try exact I; cbn in H; world_inv.
  - destruct (decide _) in H; [| destruct (decide _) in H]; world_inv.
    + rewrite (finish_eq tid p) in H. injection H as <-.
      eapply ws_read; [done | | by left]. cbn. by left.
    + eapply ws_read; [done | | by left]. cbn. by right.
    + simplify_eq. match goal with H : election_args _ = Ok _ |- _ =>
        apply election_args_same in H as [-> ?] end. read_only.
      eapply ws_request; try done. lia.
  - destruct (decide _) in H; world_inv.
    + by eapply ws_apply.
    + eapply (ws_read w tid p zeroRaft); [done | | by right]. cbn. split; [done | lia].
Qed.

Lemma run_thread_wstep tid p g t1 w w' :
  threads w !! tid = Some (p, g) -> run_thread tid p g t1 w = Ok (tt, w') -> wstep w w'.
Proof.
  intros Ht H.
  pose proof (run_thread_read _ _ _ _ _ _ Ht H). pose proof (run_thread_write _ _ _ _ _ _ Ht H).
  pose proof (run_thread_loops _ _ _ _ _ _ Ht H).
  destruct g; try done; [by eapply run_thread_bcast |].
  cbn in H. world_inv. eapply (ws_read w tid p zeroRaft); [done | by left | by right].
Qed.

Lemma crash_run p mid tm w rf rf1 ts rf' :
  peers w !! p = Some rf -> interrupted p mid tm rf (threads w) = Ok (rf1, ts) ->
  Make (npeers rf) p (start1 (persister rf1)) tm = Ok rf' ->
  crash p mid tm w = Ok (tt, set_fresh (S (fresh w))
    (set_threads (<[fresh w := (p, GApply)]> (kill_threads p ts))
      (set_applied (<[p := []]> (applied w)) (updated p rf' w)))).
Proof.
  intros Hp Hin Hm. unfold crash. rewrite Hp. apply res_bind_Ok. exists (rf1, ts). split; [exact Hin |].
  apply res_bind_Ok. exists rf'. split; [exact Hm | reflexivity].
Qed.

Lemma crash_inv p mid tm w u w' : crash p mid tm w = Ok (u, w') ->
  exists rf rf1 ts rf', peers w !! p = Some rf /\ interrupted p mid tm rf (threads w) = Ok (rf1, ts) /\
    Make (npeers rf) p (start1 (persister rf1)) tm = Ok rf' /\
    w' = set_fresh (S (fresh w)) (set_threads (<[fresh w := (p, GApply)]> (kill_threads p ts))
      (set_applied (<[p := []]> (applied w)) (updated p rf' w))).
Proof.
  unfold crash. destruct (peers w !! p) as [rf|] eqn:Hp; [| done].
  intros ([rf1 ts] & Hin & (rf' & Hm & H)%res_bind_Ok)%res_bind_Ok. injection H as _ <-.
  exists rf, rf1, ts, rf'. split; [done |]. split; [exact Hin |]. split; [exact Hm | reflexivity].
Qed.

Lemma crash_wstep p mid tm w w' : crash p mid tm w = Ok (tt, w') -> wstep w w'.
Proof. intros (rf & rf1 & ts & rf' & Hp & Hin & Hm & ->)%crash_inv. exact (ws_crash w p rf mid rf1 ts rf' tm Hp Hin Hm). Qed.

Lemma exec_wstep ev w w' : exec ev w = Ok (tt, w') -> wstep w w'.
Proof.
  destruct ev as [p cmd | p | p | tid t1 | tid j | tid t1 t2 | tid | tid | p mid tm]; cbn [exec].
  - intros H. world_inv. destruct (x.2) eqn:?; world_inv; [| constructor].
    eapply ws_call; [done |]. naive_solver.
  - intros H. world_inv. read_only. eapply ws_spawn; naive_solver.
  - intros H. world_inv. read_only. eapply ws_spawn; naive_solver.
  - unfold with_thread. destruct (threads w !! tid) as [[p g]|] eqn:Ht; [| done].
    by apply run_thread_wstep.
  - unfold with_thread. destruct (threads w !! tid) as [[p g]|] eqn:Ht; [| done].
    intros H. destruct g; cbn in H; world_inv.
    read_only. eapply ws_read; [done | cbn; right; by eexists | by left].
  - unfold with_thread. destruct (threads w !! tid) as [[p g]|] eqn:Ht; [| done].
    intros H. destruct g; cbn in H; world_inv.
    all: try rewrite (finish_eq tid p) in H; try injection H as <-.
    + eapply ws_deliver_ae; naive_solver.
    + eapply ws_deliver_rv; naive_solver.
    + eapply ws_deliver_ae; naive_solver.
    + eapply ws_deliver_rv; naive_solver.
  - unfold with_thread. destruct (threads w !! tid) as [[p g]|] eqn:Ht; [| done].
    intros H. destruct g; cbn in H; world_inv.
    all: eapply (ws_read w tid p zeroRaft); [done | cbn; naive_solver | by right].
  - unfold with_thread. destruct (threads w !! tid) as [[p g]|] eqn:Ht; [| done].
    intros H. destruct g; cbn in H; world_inv.
    all: try rewrite (finish_eq tid p) in H; try injection H as <-.
    all: eapply (ws_read w tid p zeroRaft); [done | cbn; naive_solver | by right].
  - apply crash_wstep.
Qed.

(** ** Goroutine bookkeeping *)

Lemma moved_lookup tid p og w t q g :
  threads (moved tid p og w) !! t = Some (q, g) ->
  (t = tid /\ q = p /\ og = Some g) \/ (t <> tid /\ threads w !! t = Some (q, g)).
Proof.
  cbn. destruct og as [g'|].
  - rewrite lookup_insert. case_decide; naive_solver.
  - rewrite lookup_delete. case_decide; naive_solver.
Qed.

Lemma spawned_lookup p g w t q g' :
  threads (spawned p g w) !! t = Some (q, g') ->
  (t = fresh w /\ q = p /\ g' = g) \/ (t <> fresh w /\ threads w !! t = Some (q, g')).
Proof. cbn. rewrite lookup_insert. case_decide; naive_solver. Qed.

(** [spawn_all] only adds senders under fresh names. *)
Record senders_added (p : Z) (b : nat) (js : list Z) (w w' : World) : Prop := {
  sa_peers : peers w' = peers w;
  sa_bcasts : bcasts w' = bcasts w;
  sa_elects : elects w' = elects w;
  sa_applied : applied w' = applied w;
  sa_fresh : (fresh w <= fresh w')%nat;
  sa_threads : forall t q g, threads w' !! t = Some (q, g) ->
    threads w !! t = Some (q, g) \/
    ((fresh w <= t < fresh w')%nat /\ q = p /\ exists i, i ∈ js /\ i <> p /\ g = GSend b i);
  sa_old : forall t, (t < fresh w)%nat -> threads w' !! t = threads w !! t;
}.

Lemma spawn_all_inv p b js w w' :
  spawn_all p b js w = Ok (tt, w') -> senders_added p b js w w'.
Proof.
  revert w. induction js as [| i js IH]; intros w H; cbn in H.
  { apply mret_Ok in H as [_ ->]. split; try done. auto. }
  apply st_bind_Ok in H as ([] & w1 & H1 & H). apply IH in H as [].
  case_decide as Hi.
  - apply mret_Ok in H1 as [_ ->]. split; try done.
    intros t q g [? | (? & ? & j & ? & ? & ?)]%sa_threads0; [by left |].
    right. split; [done |]. split; [done |]. exists j. split; [by right | done].
  - rewrite spawn_eq in H1. injection H1 as <-. cbn in *. split; try done.
    + lia.
    + intros t q g [H | (? & ? & j & ? & ? & ?)]%sa_threads0.
      * apply spawned_lookup in H as [(-> & -> & ->) | [? ?]]; [| by left].
        right. split; [lia |]. split; [done |]. exists i. split; [by left | done].
      * right. split; [lia |]. split; [done |]. exists j. split; [by right | done].
    + intros t Ht. rewrite sa_old0 by lia. by rewrite lookup_insert_ne by lia.
Qed.

(** One sender per peer. *)
Lemma spawn_all_unique p b js w w' t t' q q' i :
  NoDup js -> spawn_all p b js w = Ok (tt, w') -> (forall t, (fresh w <= t)%nat -> threads w !! t = None) ->
  (fresh w <= t)%nat -> (fresh w <= t')%nat ->
  threads w' !! t = Some (q, GSend b i) -> threads w' !! t' = Some (q', GSend b i) -> t = t'.
Proof.
  revert w. induction js as [| j js IH]; intros w Hnd H Hnone Ht Ht' H1 H2; cbn in H.
  { apply mret_Ok in H as [_ ->]. by rewrite Hnone in H1. }
  apply NoDup_cons in Hnd as [Hj Hnd]. apply st_bind_Ok in H as ([] & w1 & Hw1 & H).
  case_decide as Hi.
  { apply mret_Ok in Hw1 as [_ ->]. by eapply IH. }
  rewrite spawn_eq in Hw1. injection Hw1 as <-. pose proof (spawn_all_inv _ _ _ _ _ H) as [].
  assert (Hnone' : forall t, (fresh (spawned p (GSend b j) w) <= t)%nat -> threads (spawned p (GSend b j) w) !! t = None).
  { intros u Hu. cbn in Hu |- *. rewrite lookup_insert_ne by lia. apply Hnone. lia. }
  assert (Hfirst : threads w' !! fresh w = Some (p, GSend b j)) by (rewrite sa_old0 by (cbn; lia); apply lookup_insert_eq).
  assert (Hrest : forall u v, (fresh w < u)%nat -> threads w' !! u = Some (v, GSend b i) -> i ∈ js).
  { intros u v Hu [Hu' | (_ & _ & k & Hk & _ & [= <-])]%sa_threads0; [| done].
    rewrite Hnone' in Hu'; [done | cbn; lia]. }
  destruct (decide (t = fresh w)) as [-> | Hne], (decide (t' = fresh w)) as [-> | Hne'].
  - done.
  - rewrite Hfirst in H1. injection H1 as <- <-. destruct Hj. eapply (Hrest t'); [lia | done].
  - rewrite Hfirst in H2. injection H2 as <- <-. destruct Hj. eapply (Hrest t); [lia | done].
  - eapply (IH (spawned p (GSend b j) w)); try done; cbn; lia.
Qed.

Lemma kill_threads_lookup p ts t q g :
  kill_threads p ts !! t = Some (q, g) ->
  exists g0, ts !! t = Some (q, g0) /\ (q <> p /\ g = g0 \/ q = p /\ orphaned g0 = Some g).
Proof.
  unfold kill_threads. rewrite lookup_omap. intros H.
  apply bind_Some in H as ([q0 g0] & H0 & H). case_decide.
  - apply fmap_Some in H as (g1 & Hg & [= -> ->]). exists g0. split; [done |]. by right.
  - injection H as -> ->. exists g. split; [done |]. by left.
Qed.
