(* ===== verification/RaftRaces.v ===== *)
(** * What the gaps between critical sections allow

    The source often checks a condition under rf.mu, releases the lock, and
    acts under a second Lock.  The executions below are interleavings in which
    the condition is no longer true when the server acts.  Each is a complete
    run of the world of RaftSystem from its initial state, evaluated by the
    kernel; the last theorem, on Make, is about every state of the persister. *)

From S2P Require Import Prelude LabGob Persister Raft RaftRPC RaftNode RaftSystem.

Definition t0 : Reading := mkReading 0 0.
Definition R (tid : nat) : Event := ERun tid t0.
Definition D (tid : nat) : Event := EDeliver tid t0 t0.

(** Server [p] of three becomes a candidate in goroutine [tid] and builds its
    two requests. *)
Definition campaign (p : Z) (tid : nat) : list Event :=
  [ETimeout p; R tid; R tid; R tid; R tid; R tid].

(** A request is executed and its reply handled. *)
Definition answered (tid : nat) : list Event := [D tid; EReply tid; R tid; R tid].

(** What servers [p] and [q] were told to apply at one index differs. *)
Definition diverged (w : World) (p q : Z) : Prop :=
  exists m m' ms ms', applied w !! p = Some ms /\ applied w !! q = Some ms' /\
    m ∈ ms /\ m' ∈ ms' /\ CommandIndex m = CommandIndex m' /\ am_Command m <> am_Command m'.

(** Leader 0 of term 1 checks that it is the leader in Start, is deposed by the
    election of 1 in term 2, and then appends the command with term 2. *)
Definition start_race : list Event :=
  campaign 0 3 ++ answered 5 ++
  [EStart 0 (Some (VInt 10))] ++
  campaign 1 8 ++ answered 10 ++
  [R 7] ++
  [EStart 1 (Some (VInt 20)); R 12; R 12; R 12; R 12] ++
  [R 15; R 15; R 15; R 15] ++ answered 15 ++
  [R 1; R 1; R 1] ++
  [R 15; R 15; R 15; R 15; R 15] ++
  [R 17; R 17; R 17; R 17; D 17] ++
  [R 0; R 0; R 0].

(** C16: state machine safety fails across the gap of Start.  There is a reachable
    world of three servers, without loss or crash, in which two of them have told
    their services to apply different commands at the same index: a leader that
    is deposed between GetState and the append of Start appends its command with
    the term of its successor. *)
Theorem Start_race_diverges : exists w, reachable 3 w /\ diverged w 0 1.
Proof.
  destruct (run start_race (initial 3 t0)) as [w|] eqn:E; [| by vm_compute in E].
  exists w. split; [by eapply run_reachable |].
  vm_compute in E. injection E as <-. unfold diverged.
  eexists _, _, _, _. split; [reflexivity |]. split; [reflexivity |].
  split; [by left |]. split; [by left |]. split; [done |]. done.
Qed.

Definition leads (w : World) (p t : Z) : Prop :=
  exists rf, peers w !! p = Some rf /\ state rf = Leader /\ CurrentTerm rf = t.

(** Candidate 0 of term 1 checks the term of a granted vote, starts the election
    of term 2, and then counts the vote of term 1. *)
Definition vote_race : list Event :=
  campaign 0 3 ++ [D 5; EReply 5; R 5] ++
  [ETimeout 0; R 7] ++ [R 5] ++
  campaign 1 9 ++ answered 12.

(** C17: election safety fails across the gap of startElection.  There is a
    reachable world of three servers in which two of them are leaders of term 2:
    a granted vote of term 1 is checked against term 1, and counted after the
    candidate has started its election of term 2. *)
Theorem startElection_race_two_leaders :
  exists w, reachable 3 w /\ leads w 0 2 /\ leads w 1 2.
Proof.
  destruct (run vote_race (initial 3 t0)) as [w|] eqn:E; [| by vm_compute in E].
  exists w. split; [by eapply run_reachable |].
  vm_compute in E. injection E as <-. split; eexists; (split; [reflexivity | done]).
Qed.

(** Leader 0 of term 1 checks the term of a rejection by server 1 (term 2), votes
    for 2 in term 3, and then takes over term 2 with no vote. *)
Definition reply_race : list Event :=
  campaign 0 3 ++ answered 5 ++
  [R 5; R 5; R 5; R 5; R 5] ++
  [ETimeout 1; R 10] ++
  [R 8; R 8; R 8; R 8; D 8; EReply 8; R 8] ++
  [ETimeout 2; R 12; ETimeout 2; R 14; ETimeout 2; R 16; R 16; D 18].

Definition term_of (w : World) (p : Z) : option (Z * Z) :=
  (fun rf => (CurrentTerm rf, VoteFor rf)) <$> peers w !! p.

(** A trace that ends with one more event. *)
Lemma run_then_step n evs ev w w' :
  run evs (initial n t0) = Some w -> run [ev] w = Some w' -> reachable n w /\ step w w'.
Proof.
  intros Hr Hs. split; [by eapply run_reachable |]. cbn in Hs. case_decide; [| done].
  destruct (exec ev w) as [[[] w1] | | |] eqn:E; [| done..].
  injection Hs as <-. split; [done |]. by exists ev.
Qed.

(** Terms do not only grow.  There is a reachable step by which a server goes
    back from term 3, in which it has voted for server 2, to term 2 with no vote:
    a sender compares the terms of its request and reply after the server has
    moved on, and takes over the older term of the reply. *)
Theorem sender_race_term_decreases :
  exists w w', reachable 3 w /\ step w w' /\
    term_of w 0 = Some (3, 2) /\ term_of w' 0 = Some (2, -1).
Proof.
  destruct (run reply_race (initial 3 t0)) as [w|] eqn:E; [| by vm_compute in E].
  destruct (run [R 8] w) as [w'|] eqn:E';
    [| vm_compute in E; injection E as <-; by vm_compute in E'].
  exists w, w'. destruct (run_then_step 3 reply_race (R 8) w w' E E') as [Hr Hs].
  split; [done |]. split; [done |].
  vm_compute in E; injection E as <-. vm_compute in E'; injection E' as <-. done.
Qed.

(** Leader 0 appends entry 1 in Start and is interrupted before it reads its
    commitIndex; entries 2 and 3 are replicated and committed meanwhile.  The
    broadcast for entry 1 then carries the commitIndex 3 and at most entry 1. *)
Definition commit_race : list Event :=
  campaign 0 3 ++ answered 5 ++
  [EStart 0 (Some (VInt 1)); R 7] ++
  [EStart 0 (Some (VInt 2)); R 8; R 8; R 8; R 8] ++
  [R 10; R 10; R 10; R 10; D 10] ++ [R 11; R 11; R 11; R 11] ++ answered 11 ++
  [R 11; R 11; R 11; R 11; R 11] ++ [R 13; R 13; R 13; R 13; D 13] ++
  [EStart 0 (Some (VInt 3)); R 15; R 15; R 15; R 15] ++
  [R 18; R 18; R 18; R 18] ++ answered 18 ++
  [R 7; R 7; R 7] ++ [R 20; R 20; R 20; R 20].

Definition commit_of (w : World) (p : Z) : option Z := commitIndex <$> peers w !! p.

(** CommitIndex does not only grow.  There is a reachable step by which the
    commitIndex of a follower goes from 2 to 1: LeaderCommit exceeds it, but the
    request carries fewer entries than the follower has committed. *)
Theorem commitIndex_decreases :
  exists w w', reachable 3 w /\ step w w' /\
    commit_of w 1 = Some 2 /\ commit_of w' 1 = Some 1.
Proof.
  destruct (run commit_race (initial 3 t0)) as [w|] eqn:E; [| by vm_compute in E].
  destruct (run [D 20] w) as [w'|] eqn:E';
    [| vm_compute in E; injection E as <-; by vm_compute in E'].
  exists w, w'. destruct (run_then_step 3 commit_race (D 20) w w' E E') as [Hr Hs].
  split; [done |]. split; [done |].
  vm_compute in E; injection E as <-. vm_compute in E'; injection E' as <-. done.
Qed.

(** Leader 0 of term 1 has built a request and released rf.mu; before Call
    encodes it, leader 1 of term 2 replaces entry 1 in the log of 0, in place. *)
Definition alias_race : list Event :=
  campaign 0 3 ++ answered 5 ++
  [EStart 0 (Some (VInt 10)); R 7; R 7; R 7; R 7] ++ [R 9; R 9; R 9] ++
  campaign 1 11 ++ answered 14 ++
  [EStart 1 (Some (VInt 20)); R 15; R 15; R 15; R 15] ++
  [R 17; R 17; R 17; R 17; D 17] ++
  [EAlias 9 0; R 9].

(** A request of server [p] that Call has encoded. *)
Definition in_flight (w : World) (p : Z) (args : AppendEntriesArgs) : Prop :=
  exists tid b i next, threads w !! tid = Some (p, GSendCall b i next args).

(** A request can change after it was built.  There is a reachable world in
    which a request of the leader of term 1 carries an entry of term 2: the
    entries of the request are a slice of rf.Log, and the handler of
    AppendEntries overwrote them in place before Call encoded the request. *)
Theorem alias_race_entry_of_the_future :
  exists w args e, reachable 3 w /\ in_flight w 0 args /\
    ae_LeaderId args = 0 /\ e ∈ ae_Entries args /\ ae_Term args < Term e.
Proof.
  destruct (run alias_race (initial 3 t0)) as [w|] eqn:E; [| by vm_compute in E].
  exists w. apply run_reachable in E as Hr.
  vm_compute in E. injection E as <-. eexists _, _. split; [done |].
  split; [exists 9%nat, 8%nat, 1, 1; reflexivity |]. split; [done |]. split; [by left |]. done.
Qed.

(** Server 0 commits entry 1 after applyEntries has compared lastApplied with
    commitIndex and before it calls Wait. *)
Definition wakeup_race : list Event :=
  campaign 0 3 ++ answered 5 ++ [R 0] ++
  [EStart 0 (Some (VInt 10)); R 7; R 7; R 7; R 7] ++ [R 9; R 9; R 9; R 9] ++ answered 9 ++
  [R 0].

(** The goroutine of applyEntries waits, with entries left to apply and no
    Broadcast since it began to wait. *)
Definition overslept (w : World) (p : Z) : Prop :=
  exists tid rf c, peers w !! p = Some rf /\ threads w !! tid = Some (p, GApplyWait c) /\
    applyCond rf = c /\ lastApplied rf < commitIndex rf.

(** C18: a lost wake-up.  There is a reachable world in which the goroutine of
    applyEntries waits on applyCond although lastApplied is behind commitIndex,
    and no Broadcast has happened since it began to wait: committed entries are
    not applied until a later entry is committed. *)
Theorem applyCond_lost_wakeup : exists w, reachable 3 w /\ overslept w 0.
Proof.
  destruct (run wakeup_race (initial 3 t0)) as [w|] eqn:E; [| by vm_compute in E].
  apply run_reachable in E as Hr. exists w. vm_compute in E. injection E as <-.
  split; [done |]. exists 0%nat. eexists _, _. split; [reflexivity |]. split; [reflexivity |]. done.
Qed.

(** Leader 0 of term 1 appends entries 1 and 2 in two calls of Start and is
    interrupted before the second one starts its broadcast.  Leader 1 of term 2
    replaces them by one entry, and 0 wins term 3; the broadcast of Start then
    begins, with index 2 and term 3. *)
Definition index_race : list Event :=
  campaign 0 3 ++ answered 5 ++
  [EStart 0 (Some (VInt 1)); R 7; EStart 0 (Some (VInt 2)); R 8] ++
  campaign 1 9 ++ [D 11] ++ answered 12 ++
  [EStart 1 (Some (VInt 20)); R 13; R 13; R 13; R 13] ++ [R 15; R 15; R 15; R 15; D 15] ++
  campaign 0 17 ++ answered 19 ++
  [R 8; R 8; R 8] ++ [R 22; R 22].

(** The index of a broadcast can lie beyond the log.  There is a reachable world
    in which a leader is about to take Log[2:3] of a log of length 2: Start
    appends in one section and reads the term for its broadcast in the next.  (Go
    panics here, or sends a deleted entry if the array is still large enough.) *)
Theorem Start_race_out_of_range :
  exists w rf, reachable 3 w /\ peers w !! 0 = Some rf /\ leads w 0 3 /\ len (Log rf) = 2 /\
    idx (nextIndex rf) 1 = Ok 2 /\ exec (R 22) w = Panic.
Proof.
  destruct (run index_race (initial 3 t0)) as [w|] eqn:E; [| by vm_compute in E].
  apply run_reachable in E as Hr. exists w. vm_compute in E. injection E as <-.
  eexists. split; [exact Hr |]. split; [reflexivity |]. split; [eexists; split; [reflexivity | done] |]. done.
Qed.

(** ** Make

    Make starts the goroutines of the server before its section that reads the
    persisted state. *)

(** C19: a restart can lose everything.  If the election timer of the new server
    expires before Make gets to its last section, then, whatever the persister
    held, the first section of startElection overwrites it, and Make reads back an
    empty log, term 1 and a vote for the server itself. *)
Theorem Make_race_forgets n p ps tm tm1 :
  exists rf rf', Make_init n p ps tm zeroRaft = Ok (tt, rf) /\
    (startElection_begin tm1 ;;; Make_load) rf = Ok (tt, rf') /\
    CurrentTerm rf' = 1 /\ VoteFor rf' = p /\ Log rf' = [sentinel] /\ durable rf'.
Proof.
  exists (made n p ps tm). destruct (startElection_begin_spec tm1 (made n p ps tm)) as (rf1 & He & Hc).
  assert (Hd : Make_load rf1 = Ok (tt, rf1)).
  { unfold Make_load, st_bind, gets. change (Persister.ReadRaftState (persister rf1)) with (Persister.raftstate (persister rf1)).
    rewrite (cp_durable _ _ Hc). rewrite readPersist_raft_data. by destruct rf1. }
  exists rf1. split; [apply Make_init_eq |]. unfold st_bind. rewrite He, Hd. split; [done |].
  split; [by rewrite (cp_term _ _ Hc) |]. split; [apply Hc |]. split; [by rewrite (cp_log _ _ Hc) | apply Hc].
Qed.
