(* ===== verification/RaftLocal.v ===== *)
(** * Invariants that hold under every interleaving

    What follows is proved for all the executions of RaftSystem, with no
    assumption on the schedule: servers keep well-formed logs and positive
    terms, everything persistent is in stable storage whenever rf.mu is free,
    so that a crash and restart loses nothing of it, and applyCh receives the
    indices 1, 2, 3, ... in order. *)

From S2P Require Import Prelude LabGob Persister Raft RaftRPC RaftNode RaftSystem RaftSteps RaftRaces.

(** Stable storage is up to date, or the server never changed its persistent
    state. *)
Definition stored (rf : Raft) : Prop :=
  durable rf \/
  (Persister.raftstate (persister rf) = [] /\
   CurrentTerm rf = 0 /\ VoteFor rf = -1 /\ Log rf = [sentinel]).

Record peer_wf (n p : Z) (rf : Raft) : Prop := {
  pw_me : me rf = p;
  pw_npeers : npeers rf = n;
  pw_term : 0 <= CurrentTerm rf;
  pw_active : state rf <> Follower -> 1 <= CurrentTerm rf;
  pw_log : wf_log (Log rf);
  pw_stored : stored rf;
}.

Definition args_wf (args : AppendEntriesArgs) : Prop :=
  0 <= ae_Term args /\ 0 <= ae_PrevLogIndex args /\
  Forall (fun e => 0 < Term e) (ae_Entries args).

Definition gor_wf (ps : gmap Z Raft) (p : Z) (g : Goroutine) : Prop :=
  match g with
  | GStartAppend _ => forall rf, ps !! p = Some rf -> 1 <= CurrentTerm rf
  | GBcast _ t _ | GBcastTerm _ t _ => 0 <= t
  | GSendEnc _ _ next args => args_wf args /\ 0 < next
  | GSendCall _ _ _ args | GSendRet _ _ _ args _ | GSendCheck _ _ _ args _
  | GSendHandle _ _ _ args _ | GOrphanAE _ args => args_wf args
  | _ => True
  end.

Record local_inv (n : Z) (w : World) : Prop := {
  li_peers : forall p rf, peers w !! p = Some rf -> peer_wf n p rf;
  li_threads : forall tid p g, threads w !! tid = Some (p, g) -> gor_wf (peers w) p g;
  li_bcasts : forall b bc, bcasts w !! b = Some bc -> 0 <= b_term bc /\ (b < fresh w)%nat;
}.

(** ** One server *)

Lemma durable_unchanged rf rf' : unchanged rf rf' -> durable rf -> durable rf'.
Proof.
  intros [] Hd. unfold durable, raft_data in *. congruence.
Qed.

Lemma stored_unchanged rf rf' : unchanged rf rf' -> stored rf -> stored rf'.
Proof.
  intros Hu [Hd | Hn]; [left; by eapply durable_unchanged |]. right.
  destruct Hu. by rewrite un_persister, un_term, un_vote, un_log.
Qed.

Lemma peer_wf_unchanged n p rf rf' : unchanged rf rf' -> peer_wf n p rf -> peer_wf n p rf'.
Proof.
  intros Hu []. pose proof (stored_unchanged _ _ Hu pw_stored0). destruct Hu.
  split; rewrite ?un_me, ?un_npeers, ?un_term, ?un_state, ?un_log; done.
Qed.

Lemma unchanged_set_lastApplied i rf : unchanged rf (set_lastApplied i rf).
Proof. done. Qed.
Lemma unchanged_set_nextIndex l rf : unchanged rf (set_nextIndex l rf).
Proof. done. Qed.

Lemma stored_adopted t T rf : stored rf -> stored (adopted t T rf).
Proof.
  intros Hs. unfold adopted. case_decide; [| done]. left. apply persisted_durable.
Qed.

Lemma peer_wf_adopted n p t T rf : peer_wf n p rf -> CurrentTerm rf <= T -> peer_wf n p (adopted t T rf).
Proof.
  intros [] HT. pose proof (adopted_same_core t T rf) as Hc. split.
  - by rewrite (sc_me _ _ Hc).
  - by rewrite (sc_npeers _ _ Hc).
  - rewrite adopted_CurrentTerm by done. lia.
  - rewrite adopted_state, adopted_CurrentTerm by done.
    goal_decide; [done |]. intros ?%pw_active0. lia.
  - by rewrite adopted_Log.
  - by apply stored_adopted.
Qed.

Lemma wf_log_merged log args : wf_log log -> args_wf args -> wf_log (merged log args).
Proof.
  intros Hl (_ & Hp & He). unfold merged. case_decide; [done |].
  apply wf_log_take_app; [done | lia | done].
Qed.

Lemma peer_wf_accepted n p args rf rf' :
  peer_wf n p rf -> args_wf args -> CurrentTerm rf <= ae_Term args ->
  ae_accepted args rf rf' -> peer_wf n p rf'.
Proof.
  intros [] Ha HT []. destruct aa_core. split.
  - congruence.
  - congruence.
  - rewrite aa_term. lia.
  - by rewrite aa_state.
  - rewrite aa_log. by apply wf_log_merged.
  - by left.
Qed.

Lemma peer_wf_stepped_down n p T rf : peer_wf n p rf -> 0 <= T -> peer_wf n p (stepped_down T rf).
Proof.
  intros [] HT. unfold stepped_down.
  split; [| | | | | left; apply persisted_durable]; by raft_fields.
Qed.

Lemma peer_wf_voted n p tm args rf :
  peer_wf n p rf -> CurrentTerm rf <= rv_Term args -> peer_wf n p (voted tm args rf).
Proof.
  intros Hw HT. destruct (peer_wf_adopted n p None (rv_Term args) rf Hw HT).
  unfold voted. split; [| | | | | left; apply persisted_durable]; by raft_fields.
Qed.

Lemma peer_wf_campaigning n p rf rf' :
  peer_wf n p rf -> CurrentTerm rf < MaxInt -> campaigning rf rf' -> peer_wf n p rf'.
Proof.
  intros [] HT []. destruct cp_core. rewrite wrap64_small in cp_term by (unfold MinInt; lia).
  split; try congruence; try lia.
  by left.
Qed.

Lemma peer_wf_started n p cmd rf rf' :
  peer_wf n p rf -> 1 <= CurrentTerm rf -> started cmd rf rf' -> peer_wf n p rf'.
Proof.
  intros [] HT []. destruct sd_core. split; try congruence; try lia.
  - rewrite sd_log. apply wf_log_snoc; [done |]. cbn. lia.
  - by left.
Qed.

Lemma peer_wf_won n p rf rf' : peer_wf n p rf -> state rf <> Follower -> won rf rf' -> peer_wf n p rf'.
Proof.
  intros [] Hs []. split; try congruence.
  - rewrite won_term. intros _. by apply pw_active0.
  - by left.
Qed.

(** A restarted server has the persistent state of its predecessor. *)
Record recovered (n p : Z) (rf rf' : Raft) : Prop := {
  rc_term : CurrentTerm rf' = CurrentTerm rf;
  rc_vote : VoteFor rf' = VoteFor rf;
  rc_log : Log rf' = Log rf;
  rc_state : state rf' = Follower;
  rc_me : me rf' = p;
  rc_npeers : npeers rf' = n;
  rc_commit : commitIndex rf' = 0;
  rc_applied : lastApplied rf' = 0;
  rc_stored : stored rf';
  rc_next : nextIndex rf' = replicate (Z.to_nat n) 0;
  rc_match : matchIndex rf' = replicate (Z.to_nat n) 0;
}.

Lemma Make_recovered n p rf tm :
  stored rf ->
  exists rf', Make n p (start1 (persister rf)) tm = Ok rf' /\ recovered n p rf rf'.
Proof.
  intros Hs. rewrite Make_eq.
  assert (Hread : Persister.ReadRaftState (start1 (persister rf)) = Persister.raftstate (persister rf)) by done.
  rewrite Hread. destruct Hs as [Hd | (He & Ht & Hv & Hl)].
  - unfold durable in Hd. rewrite Hd, readPersist_raft_data. cbn [mbind res_bind snd]. eexists. split; [done |].
    split; try done. left. unfold durable, raft_data in *. raft_fields. exact Hd.
  - rewrite He. unfold readPersist. rewrite decide_True by done. cbn [mbind res_bind snd].
    eexists. split; [done |]. split; try done. right. by raft_fields.
Qed.

(** A server that crashed inside a handler may have adopted the term of the
    request before. *)
Record restarted (n p : Z) (rf rf' : Raft) : Prop := {
  rs_term : CurrentTerm rf <= CurrentTerm rf';
  rs_vote : VoteFor rf' = if decide (CurrentTerm rf < CurrentTerm rf') then -1 else VoteFor rf;
  rs_log : Log rf' = Log rf;
  rs_state : state rf' = Follower;
  rs_me : me rf' = p;
  rs_npeers : npeers rf' = n;
  rs_commit : commitIndex rf' = 0;
  rs_applied : lastApplied rf' = 0;
  rs_stored : stored rf';
  rs_next : nextIndex rf' = replicate (Z.to_nat n) 0;
  rs_match : matchIndex rf' = replicate (Z.to_nat n) 0;
}.

(** All goroutines survive, but for the request that was being handled. *)
Record survivors (ts ts' : gmap nat (Z * Goroutine)) : Prop := {
  sv_old : forall t x, ts' !! t = Some x -> ts !! t = Some x;
  sv_kept : forall t q g, ts !! t = Some (q, g) -> ts' !! t = Some (q, g) \/ exists t1 x, handler_begin t1 g = Some x;
}.

Lemma handler_begin_inv t1 g i m rf : handler_begin t1 g = Some (i, m) ->
  exists t T, m rf = Ok (tt, adopted t T rf).
Proof.
  destruct g; cbn; try done; intros [= <- <-]; rewrite ?AppendEntries_begin_eq, ?RequestVote_begin_eq; by eexists _, _.
Qed.

Lemma interrupted_inv p mid t1 rf ts rf1 ts' : interrupted p mid t1 rf ts = Ok (rf1, ts') ->
  survivors ts ts' /\ exists t T, rf1 = adopted t T rf.
Proof.
  destruct mid as [tid |]; cbn.
  - destruct (ts !! tid) as [[q g] |] eqn:Ht; [| done]. cbn. destruct (handler_begin t1 g) as [[i m] |] eqn:Hg; [| done].
    case_decide; [| done]. destruct (handler_begin_inv _ _ _ _ rf Hg) as (t & T & ->). cbn. intros [= <- <-].
    split; [| by exists t, T]. split.
    + intros t' x. rewrite lookup_delete. by case_decide.
    + intros t' q' g' Ht'. rewrite lookup_delete. case_decide; [| by left]. simplify_eq. eauto.
  - intros [= <- <-]. split; [split; eauto |]. exists None, (CurrentTerm rf). unfold adopted. by rewrite decide_False by lia.
Qed.

Lemma crash_recovery n p mid t1 tm rf ts rf1 ts' : peer_wf n p rf -> interrupted p mid t1 rf ts = Ok (rf1, ts') ->
  exists rf', Make (npeers rf) p (start1 (persister rf1)) tm = Ok rf' /\ survivors ts ts' /\ restarted n p rf rf'.
Proof.
  intros Hw (Hsv & t & T & ->)%interrupted_inv. rewrite (pw_npeers _ _ _ Hw).
  destruct (Make_recovered n p (adopted t T rf) tm) as (rf' & -> & Hr); [by apply stored_adopted, Hw |].
  pose proof (rc_term _ _ _ _ Hr) as HT. exists rf'. split; [done |]. split; [done |]. split; try apply Hr.
  - rewrite HT. unfold adopted. case_decide; [destruct t; raft_fields |]; lia.
  - rewrite (rc_vote _ _ _ _ Hr), HT, adopted_VoteFor. unfold adopted. case_decide; [destruct t; raft_fields |];
      by rewrite ?decide_True, ?decide_False by lia.
  - by rewrite (rc_log _ _ _ _ Hr), adopted_Log.
Qed.

Lemma survivors_killed ts ts' p t q g : survivors ts ts' -> kill_threads p ts' !! t = Some (q, g) ->
  exists g0, ts !! t = Some (q, g0) /\ (q <> p /\ g = g0 \/ q = p /\ orphaned g0 = Some g).
Proof. intros [Ho _] (g0 & Ht%Ho & Hg)%kill_threads_lookup. by exists g0. Qed.

Lemma peer_wf_restarted n p rf rf' : peer_wf n p rf -> restarted n p rf rf' -> peer_wf n p rf'.
Proof. intros [] []. split; try congruence. lia. Qed.

(** ** The cluster *)

Lemma gor_wf_update ps p rf rf' q g :
  ps !! p = Some rf -> (1 <= CurrentTerm rf -> 1 <= CurrentTerm rf') ->
  gor_wf ps q g -> gor_wf (<[p := rf']> ps) q g.
Proof.
  intros Hp HT Hg. destruct g; try exact Hg. cbn in *. intros rf1.
  rewrite lookup_insert. case_decide; [intros [= <-]; subst; auto | apply Hg].
Qed.

Lemma li_updated n w p rf rf' :
  local_inv n w -> peers w !! p = Some rf -> peer_wf n p rf' ->
  (1 <= CurrentTerm rf -> 1 <= CurrentTerm rf') -> local_inv n (updated p rf' w).
Proof.
  intros [] Hp Hw HT. split; [| | done].
  - intros q rf1. cbn. rewrite lookup_insert. case_decide; [intros [= <-]; by subst | apply li_peers0].
  - intros tid q g Ht. cbn. eapply gor_wf_update; eauto.
Qed.

Lemma li_moved n w tid p og :
  local_inv n w -> (forall g, og = Some g -> gor_wf (peers w) p g) -> local_inv n (moved tid p og w).
Proof.
  intros [] Hg. split; [done | | done].
  intros t q g [(-> & -> & ->) | [_ ?]]%moved_lookup; [by apply Hg | by eapply li_threads0].
Qed.

Lemma li_spawned n w p g :
  local_inv n w -> gor_wf (peers w) p g -> local_inv n (spawned p g w).
Proof.
  intros [] Hg. split; [done | |].
  - intros t q g' [(-> & -> & ->) | [_ ?]]%spawned_lookup; [done | by eapply li_threads0].
  - intros b bc [? ?]%li_bcasts0. cbn. split; [done | lia].
Qed.

Lemma li_set_bcasts n w b bc :
  local_inv n w -> 0 <= b_term bc -> (b < fresh w)%nat -> local_inv n (set_bcasts (<[b := bc]> (bcasts w)) w).
Proof.
  intros [] Hb Hf. split; [done | done |]. cbn. intros b' bc'. rewrite lookup_insert.
  case_decide; [intros [= <-]; by subst | apply li_bcasts0].
Qed.

Lemma li_set_fresh n w f : (fresh w <= f)%nat -> local_inv n w -> local_inv n (set_fresh f w).
Proof. intros Hf []. split; [done | done |]. intros b bc [? ?]%li_bcasts0. cbn. split; [done | lia]. Qed.
Lemma li_set_elects n w e : local_inv n w -> local_inv n (set_elects e w).
Proof. intros []. by split. Qed.
Lemma li_set_applied n w a : local_inv n w -> local_inv n (set_applied a w).
Proof. intros []. by split. Qed.

Lemma entries_between_Forall (P : LogEntry -> Prop) log next index :
  Forall P (drop (Z.to_nat next) log) -> Forall P (entries_between log next index).
Proof. intros. by apply Forall_take. Qed.

(** The requests a server builds are well-formed. *)
Lemma sender_args_wf n p i bc rf next args :
  peer_wf n p rf -> 0 <= b_term bc -> sender_args i bc rf = Ok ((next, args), rf) ->
  args_wf args /\ 0 < next.
Proof.
  intros Hw Hb H. apply sender_args_inv in H as (_ & _ & x & Hx & _ & ->).
  apply idx_Ok_lt in Hx as Hr. split; [| lia]. split; [done |]. split; [cbn; lia |]. cbn.
  destruct (pw_log _ _ _ Hw) as (l & -> & Hl). apply entries_between_Forall.
  replace (Z.to_nat next) with (S (Z.to_nat (next - 1))) by lia. cbn. by apply Forall_drop.
Qed.

Lemma aliased_wf j next log args :
  wf_log log -> 0 < next -> args_wf args -> args_wf (aliased j next log args).
Proof.
  intros Hw Hn (? & ? & He). unfold aliased. destruct (log !! _) as [x|] eqn:Hx; [| done].
  split; [done |]. split; [done |]. cbn. apply Forall_insert; [done |].
  eapply wf_log_pos; [done | done | lia].
Qed.

Lemma li_read n w tid p rf g og :
  local_inv n w -> threads w !! tid = Some (p, g) -> reads w p rf g og ->
  peers w !! p = Some rf \/ unlocked g og ->
  local_inv n (moved tid p og w).
Proof.
  intros Hi Ht Hr Hp. apply li_moved; [done |]. intros g' ->.
  pose proof (li_threads _ _ Hi _ _ _ Ht) as Hg.
  destruct g; cbn in Hr, Hg; try done;
    try (destruct Hr as [[[= ->] ?] | [=]]; exact Hg || exact I).
  - destruct Hp as [Hp | Hp]; [| naive_solver]. injection Hr as ->. cbn.
    apply (pw_term n p). by eapply li_peers.
  - destruct Hp as [Hp | Hp]; [| naive_solver]. injection Hr as ->. cbn.
    apply (pw_term n p). by eapply li_peers.
  - destruct Hr as (bc & ? & [[[= ->] ?] | [=]]). exact I.
  - destruct Hr as (bc & next & args & Hbc & Ha & [= ->]). cbn.
    destruct Hp as [Hp | Hp]; [| naive_solver].
    apply (sender_args_wf n p i bc rf next args); [by eapply li_peers | by eapply li_bcasts | done].
  - destruct Hr as [[= ->] | [j [= ->]]]; cbn; [apply Hg |]. split; [| apply Hg].
    destruct Hp as [Hp | [=]].
    apply aliased_wf; [eapply pw_log; by eapply li_peers | apply Hg..].
  - by injection Hr as ->.
  - destruct Hr as [[= ->] | [=]]. exact Hg.
  - destruct Hr as [[[=] ?] | [[= ->] ?]]. exact I.
  - by injection Hr as ->.
  - destruct Hr as [[= ->] | [=]]. exact I.
  - destruct Hr as [[= ->] | [= ->]]; exact I.
  - by injection Hr as ->.
  - by injection Hr as ->.
  - destruct Hr as [[= ->] _]. exact I.
Qed.

(** What a handled AppendEntries reply leaves behind is well-formed. *)
Lemma sender_handle_wf n p i next args reply bc bc' r rf rf' :
  peer_wf n p rf -> args_wf args -> sender_handle i next args reply bc rf = Ok ((bc', r), rf') ->
  peer_wf n p rf' /\ (1 <= CurrentTerm rf -> 1 <= CurrentTerm rf') /\ b_term bc' = b_term bc.
Proof.
  intros Hw (Ha & _) H. unfold sender_handle in H. destruct (aer_Success reply).
  - apply sender_accepted_inv in H as (Hu & _ & _ & Hc).
    split; [by eapply peer_wf_unchanged |]. rewrite (un_term _ _ Hu). split; [done |].
    destruct Hc as [(_ & -> & _) | (_ & [? ->] & _)]; done.
  - sec_inv. match goal with H : sender_rejected _ _ _ _ _ = Ok _ |- _ =>
      apply sender_rejected_inv in H as [(? & -> & ->) | (? & -> & ni & _ & _ & _ & ->)] end.
    + split; [apply peer_wf_stepped_down; [done | lia] |].
      split; [| done]. intros _. unfold stepped_down. raft_fields. lia.
    + split; [eapply peer_wf_unchanged; [apply unchanged_set_nextIndex | done] |]. done.
Qed.

Lemma vote_handle_wf n p reply nv nv' w rf rf' :
  peer_wf n p rf -> vote_handle reply nv rf = Ok ((nv', w), rf') ->
  peer_wf n p rf' /\ (1 <= CurrentTerm rf -> 1 <= CurrentTerm rf').
Proof.
  intros Hw H. apply vote_handle_inv in H as (_ & [((_ & Hs & _) & _ & Hwon) |
    (_ & _ & [(_ & HT & ->) | (_ & ->)])]); [| | done].
  - split; [eapply peer_wf_won; [done | by rewrite Hs | done] |].
    by rewrite (won_term _ _ Hwon).
  - pose proof (pw_term _ _ _ Hw). split; [apply peer_wf_stepped_down; [done | lia] |].
    unfold stepped_down. raft_fields. lia.
Qed.

Lemma AppendEntries_wf n p t1 t2 args rf reply rf' :
  peer_wf n p rf -> args_wf args -> AppendEntries t1 t2 args rf = Ok (reply, rf') ->
  peer_wf n p rf' /\ (1 <= CurrentTerm rf -> 1 <= CurrentTerm rf').
Proof.
  intros Hw Ha H. destruct (AppendEntries_total t1 t2 args rf) as (r & rf1 & He & Hc);
    [apply Ha |]. rewrite H in He. injection He as <- <-.
  destruct Hc as [(_ & _ & ->) | [(HT & _ & -> & _) | (HT & _ & _ & Hacc)]]; [done | |].
  - split; [by apply peer_wf_adopted |]. rewrite adopted_CurrentTerm by done. lia.
  - split; [by eapply peer_wf_accepted |]. rewrite (aa_term _ _ _ Hacc). lia.
Qed.

Lemma RequestVote_wf n p tm args rf reply rf' :
  peer_wf n p rf -> RequestVote tm args rf = Ok (reply, rf') ->
  peer_wf n p rf' /\ (1 <= CurrentTerm rf -> 1 <= CurrentTerm rf').
Proof.
  intros Hw H. destruct (RequestVote_total tm args rf) as (r & rf1 & He & Hc);
    [apply wf_log_len, (pw_log _ _ _ Hw) |]. rewrite H in He. injection He as <- <-.
  destruct Hc as [(_ & _ & ->) | [(HT & _ & _ & ->) | (Hm & _ & _ & ->)]]; [done | |].
  - split; [by apply peer_wf_adopted |]. rewrite adopted_CurrentTerm by done. lia.
  - assert (CurrentTerm rf <= rv_Term args) by (destruct Hm as [|[]]; lia).
    split; [by apply peer_wf_voted |]. unfold voted. raft_fields.
    rewrite adopted_CurrentTerm by done. lia.
Qed.

Lemma crash_restarts n w p rf mid rf1 ts rf' tm : local_inv n w -> peers w !! p = Some rf ->
  interrupted p mid tm rf (threads w) = Ok (rf1, ts) -> Make (npeers rf) p (start1 (persister rf1)) tm = Ok rf' ->
  survivors (threads w) ts /\ restarted n p rf rf'.
Proof.
  intros Hl Hp Hin Hm. destruct (crash_recovery n p mid tm tm rf _ _ _ (li_peers _ _ Hl _ _ Hp) Hin) as (rf2 & Hm2 & Hsv & Hr).
  rewrite Hm in Hm2. by injection Hm2 as <-.
Qed.

Lemma li_crash n w p rf rf' ts :
  local_inv n w -> peers w !! p = Some rf -> survivors (threads w) ts -> restarted n p rf rf' ->
  local_inv n (set_fresh (S (fresh w))
    (set_threads (<[fresh w := (p, GApply)]> (kill_threads p ts))
      (set_applied (<[p := []]> (applied w)) (updated p rf' w)))).
Proof.
  intros Hi Hp Hsv Hr.
  assert (Hu : local_inv n (updated p rf' w)).
  { eapply li_updated; [done | done | |].
    - eapply peer_wf_restarted; [| done]. by eapply li_peers.
    - pose proof (rs_term _ _ _ _ Hr). lia. }
  destruct Hu as [Hups Hut Hub]. split; [done | |];
    [| intros b bc [? ?]%Hub; cbn in *; split; [done | lia]]. cbn.
  intros t q g. rewrite lookup_insert. case_decide; [by intros [= <- <-] |].
  intros (g0 & Ht & [[_ ->] | [-> Ho]])%(survivors_killed _ _ _ _ _ _ Hsv).
  - by apply (Hut t).
  - pose proof (Hut t p g0 Ht) as Hg. destruct g0; cbn in Ho; try done; by injection Ho as <-.
Qed.

(** Every step of the cluster keeps the local invariant. *)
Lemma local_inv_step n w w' : terms_fit w -> local_inv n w -> wstep w w' -> local_inv n w'.
Proof.
  intros Hfit Hi Hs. destruct Hs.
  - done.
  - apply li_spawned; [done |]. cbn. intros rf1 Hrf1. simplify_eq.
    apply (pw_active n p); [by eapply li_peers | by rewrite H0].
  - apply li_spawned; [done |]. by destruct H0 as [-> | ->].
  - by eapply li_read.
  - apply li_moved; [| by intros g [= <-]].
    eapply li_updated; [done | done | eapply peer_wf_unchanged; [done | by eapply li_peers] |].
    by rewrite (un_term _ _ H1).
  - apply spawn_all_inv in H2 as []. cbn in *.
    pose proof (li_threads _ _ Hi _ _ _ H) as HT. cbn in HT. split.
    + rewrite sa_peers. apply Hi.
    + intros t q g Ht. rewrite sa_peers.
      apply sa_threads in Ht as [Ht | (_ & -> & i & _ & _ & ->)]; [| exact I].
      cbn in Ht. rewrite lookup_delete in Ht. case_decide; [done |]. by eapply li_threads.
    + rewrite sa_bcasts. intros b bc. rewrite lookup_insert.
      case_decide.
      * intros [= <-]. cbn. split; [done | lia].
      * intros [? ?]%(li_bcasts _ _ Hi). split; [done | lia].
  - pose proof (li_threads _ _ Hi _ _ _ H rf H0) as HT.
    apply li_moved; [| by intros g [= <-]].
    eapply li_updated; [done | done | |].
    + eapply peer_wf_started; [by eapply li_peers | done | done].
    + by rewrite (sd_term _ _ _ H1).
  - pose proof (li_threads _ _ Hi _ _ _ H) as Ha. cbn in Ha.
    destruct (sender_handle_wf n p i next args reply bc bc' r rf rf') as (Hw' & HT & Hb);
      [by eapply li_peers | done | done |].
    apply li_moved; [| by destruct r; intros g [= <-]].
    apply (li_set_bcasts n (updated p rf' w)); [by eapply li_updated | |].
    + rewrite Hb. by eapply li_bcasts.
    + by eapply (li_bcasts _ _ Hi).
  - apply li_moved; [| by intros g [= <-]].
    apply li_set_fresh; [cbn; lia |]. apply li_set_elects.
    assert (CurrentTerm rf < MaxInt) by by eapply (Hfit p).
    eapply li_updated; [done | done | |].
    + eapply peer_wf_campaigning; [by eapply li_peers | done | done].
    + assert (Hw' : peer_wf n p rf').
      { eapply peer_wf_campaigning; [by eapply li_peers | done | done]. }
      intros _. apply (pw_active _ _ _ Hw'). by rewrite (cp_state _ _ H1).
  - apply li_moved; [| by intros g [= <-]]. by apply li_spawned.
  - destruct (vote_handle_wf n p reply nv nv' won_ rf rf') as [Hw' HT];
      [by eapply li_peers | done |].
    apply li_moved; [| by destruct won_; intros g [= <-]].
    apply li_set_elects. by eapply li_updated.
  - apply apply_one_inv in H2 as (-> & _). apply li_moved; [| by intros g [= <-]].
    eapply li_updated; [done | done | | done].
    eapply peer_wf_unchanged; [apply unchanged_set_lastApplied | by eapply li_peers].
  - apply li_moved; [| by intros g [= <-]].
    by apply li_set_applied.
  - assert (Ha : args_wf args).
    { pose proof (li_threads _ _ Hi _ _ _ H) as Hg.
      destruct H0 as [(b & next & -> & _) | [-> _]]; exact Hg. }
    destruct (AppendEntries_wf n i t1 t2 args rf reply rf') as [Hw' HT];
      [by eapply li_peers | done | done |].
    apply li_moved; [by eapply li_updated |].
    destruct H0 as [(b & next & -> & ->) | [-> ->]]; [intros g [= <-]; exact Ha | done].
  - destruct (RequestVote_wf n i t1 args rf reply rf') as [Hw' HT]; [by eapply li_peers | done |].
    apply li_moved; [by eapply li_updated |].
    destruct H0 as [(e & -> & ->) | [-> ->]]; [by intros g' [= <-] | done].
  - destruct (crash_restarts _ _ _ _ _ _ _ _ _ Hi H H0 H1) as [Hsv Hr]. by eapply li_crash.
Qed.

(** ** Reachable worlds *)

Lemma fresh_peer_recovered n p tm :
  exists rf, Make n p Persister.MakePersister tm = Ok rf /\ fresh_peer n p tm = rf /\
    CurrentTerm rf = 0 /\ VoteFor rf = -1 /\ Log rf = [sentinel] /\ state rf = Follower /\
    me rf = p /\ npeers rf = n /\ commitIndex rf = 0 /\ lastApplied rf = 0 /\
    persister rf = Persister.MakePersister /\
    nextIndex rf = replicate (Z.to_nat n) 0 /\ matchIndex rf = replicate (Z.to_nat n) 0.
Proof. unfold fresh_peer. rewrite Make_eq. by eexists. Qed.

Lemma initial_peers n tm p rf :
  peers (initial n tm) !! p = Some rf <-> 0 <= p < n /\ rf = fresh_peer n p tm.
Proof.
  cbn. rewrite <- elem_of_list_to_map.
  - rewrite list_elem_of_fmap. setoid_rewrite elem_of_seqZ.
    split; [intros (q & [= -> ->] & ?); by split; [lia |] |].
    intros [? ->]. exists p. split; [done | lia].
  - rewrite <- list_fmap_compose. cbn. rewrite list_fmap_id. apply NoDup_seqZ.
Qed.

Lemma initial_threads n tm t q g :
  threads (initial n tm) !! t = Some (q, g) <-> 0 <= q < n /\ t = Z.to_nat q /\ g = GApply.
Proof.
  cbn. rewrite <- elem_of_list_to_map.
  - rewrite list_elem_of_fmap. setoid_rewrite elem_of_seqZ. split.
    + intros (p & [= -> -> ->] & ?). split; [lia | done].
    + intros (? & -> & ->). exists q. split; [done | lia].
  - rewrite <- list_fmap_compose. apply NoDup_fmap_2_strong; [| apply NoDup_seqZ].
    intros x y. rewrite !elem_of_seqZ. cbn. lia.
Qed.

Lemma local_inv_initial n tm : local_inv n (initial n tm).
Proof.
  split; [| | done].
  - intros p rf [_ ->]%initial_peers.
    destruct (fresh_peer_recovered n p tm) as (rf & _ & -> & ? & ? & HL & Hs & ? & ? & _ & _ & Hp & _).
    split; [done | done | lia | by rewrite Hs | rewrite HL; auto with go |].
    right. by rewrite Hp.
  - by intros t q g (_ & _ & ->)%initial_threads.
Qed.

(** An invariant of [wstep] that holds initially holds in every reachable world. *)
Lemma reachable_ind_inv n (I : World -> Prop) w :
  (forall tm, I (initial n tm)) ->
  (forall w w', terms_fit w -> I w -> wstep w w' -> I w') ->
  reachable n w -> I w.
Proof.
  intros Hinit Hstep [tm Hr]. pose proof (Hinit tm) as Hi. clear Hinit.
  induction Hr as [| x y z (Hfit & ev & He) _ IH]; [done |].
  apply IH. eapply Hstep; [done | done |]. by eapply exec_wstep.
Qed.

Lemma reachable_local_inv n w : reachable n w -> local_inv n w.
Proof. apply reachable_ind_inv; [apply local_inv_initial | apply local_inv_step]. Qed.

(** ** Properties *)



(** C15: the persistent state stays sound under every interleaving: in every
    reachable world each server's log starts with the sentinel and holds only
    entries of positive terms, its term is not negative (positive for a
    candidate or leader), its stable storage holds its term, vote and log, and
    every request in flight has a non-negative term
    and PrevLogIndex, so that no handler it reaches can panic. *)
Theorem reachable_servers_sound n w :
  reachable n w ->
  (forall p rf, peers w !! p = Some rf ->
     peer_wf n p rf) /\
  (forall tid p g i args, threads w !! tid = Some (p, g) ->
     g = GOrphanAE i args \/ (exists b next, g = GSendCall b i next args) ->
     forall rf t1 t2, peers w !! i = Some rf ->
     exists r rf', AppendEntries t1 t2 args rf = Ok (r, rf')) /\
  (forall p rf args tm, peers w !! p = Some rf ->
     exists r rf', RequestVote tm args rf = Ok (r, rf')).
Proof.
  intros Hr. apply reachable_local_inv in Hr. split_and!.
  - apply Hr.
  - intros tid p g i args Ht Hg rf t1 t2 _. pose proof (li_threads _ _ Hr _ _ _ Ht) as Hok.
    destruct (AppendEntries_total t1 t2 args rf) as (r & rf' & He & _); [| by exists r, rf'].
    destruct Hg as [-> | (b & next & ->)]; apply Hok.
  - intros p rf args tm Hp. destruct (RequestVote_total tm args rf) as (r & rf' & He & _);
      [| by exists r, rf']. by eapply wf_log_len, pw_log, li_peers.
Qed.

Lemma reachable_servers_sound_witness :
  exists w rf, reachable 3 w /\ peers w !! 0 = Some rf /\ len (Log rf) = 2 /\
    peer_wf 3 0 rf.
Proof.
  destruct (run start_race (initial 3 t0)) as [w|] eqn:E; [| by vm_compute in E].
  pose proof (run_reachable 3 t0 start_race w E) as Hr.
  destruct (peers w !! 0) as [rf|] eqn:Hp; [| vm_compute in E; injection E as <-; done].
  exists w, rf. split; [exact Hr |]. split; [exact Hp |].
  split; [vm_compute in E; injection E as <-; vm_compute in Hp; by injection Hp as <- |].
  exact (proj1 (reachable_servers_sound 3 w Hr) 0 rf Hp).
Defined.
