(* ===== verification/RaftApply.v ===== *)
(** * applyCh: what a server tells its service, under every interleaving

    Make starts one goroutine that runs applyEntries.  Whatever the other
    goroutines of the server do, the messages it sends since the last restart
    carry the indices 1, 2, 3, ..., and lastApplied counts them. *)

From S2P Require Import Prelude LabGob Persister Raft RaftRPC RaftNode RaftSystem RaftSteps RaftRaces RaftLocal.

Definition applier (g : Goroutine) : Prop :=
  match g with
  | GApply | GApplyBlock | GApplyWait _ | GApplyLoop _ _ | GApplySend _ _ _ => True
  | _ => False
  end.

(** The messages server [p] has sent since it was last restarted. *)
Definition sent_by (w : World) (p : Z) : list ApplyMsg := default [] (applied w !! p).

(** Where the goroutine stands relative to lastApplied and what was sent. *)
Definition apply_ok (ms : list ApplyMsg) (rf : Raft) (g : Goroutine) : Prop :=
  match g with
  | GApply | GApplyBlock | GApplyWait _ => lastApplied rf = len ms
  | GApplyLoop i _ => lastApplied rf = len ms /\ i = lastApplied rf + 1
  | GApplySend m i _ =>
      lastApplied rf = len ms + 1 /\ i = lastApplied rf /\ CommandIndex m = i /\
      CommandValid m = true
  | _ => True
  end.

Definition in_order (ms : list ApplyMsg) : Prop :=
  CommandIndex <$> ms = seqZ 1 (len ms) /\ Forall (fun m => CommandValid m = true) ms.

Definition names_used (w : World) : Prop :=
  forall t x, threads w !! t = Some x -> (t < fresh w)%nat.

Record apply_inv (w : World) : Prop := {
  ap_names : names_used w;
  ap_one : forall t t' p g g', threads w !! t = Some (p, g) -> threads w !! t' = Some (p, g') ->
    applier g -> applier g' -> t = t';
  ap_order : forall p, in_order (sent_by w p);
  ap_ok : forall p rf t g, peers w !! p = Some rf -> threads w !! t = Some (p, g) ->
    apply_ok (sent_by w p) rf g;
  ap_alive : forall p rf, peers w !! p = Some rf ->
    exists t g, threads w !! t = Some (p, g) /\ applier g;
  ap_home : forall t p g, threads w !! t = Some (p, g) -> applier g -> is_Some (peers w !! p);
}.

(** ** Steps that do not concern applyEntries *)

Record quiet (w w' : World) : Prop := {
  q_names : names_used w -> names_used w';
  q_peers : forall p rf', peers w' !! p = Some rf' ->
    exists rf, peers w !! p = Some rf /\ lastApplied rf' = lastApplied rf;
  q_dom : forall p, is_Some (peers w !! p) -> is_Some (peers w' !! p);
  q_applied : applied w' = applied w;
  q_threads : forall t p g, threads w' !! t = Some (p, g) -> applier g ->
    threads w !! t = Some (p, g);
  q_keep : names_used w -> forall t p g, threads w !! t = Some (p, g) -> applier g ->
    threads w' !! t = Some (p, g);
}.

#[export] Instance quiet_preorder : PreOrder quiet.
Proof.
  split.
  - intros w. split; try done. intros p rf' ?. by exists rf'.
  - intros x y z [] []. split; try done.
    + auto.
    + intros p rf2 (rf1 & (rf & ? & ?)%q_peers0 & ?)%q_peers1. exists rf. split; [done | congruence].
    + auto.
    + congruence.
    + auto.
    + auto.
Qed.

Lemma quiet_updated w p rf rf' :
  peers w !! p = Some rf -> lastApplied rf' = lastApplied rf -> quiet w (updated p rf' w).
Proof.
  intros Hp Hl. split; try done; cbn.
  - intros q rf1. rewrite lookup_insert.
    case_decide; [intros [= <-]; subst; by exists rf | intros ?; by exists rf1].
  - intros q. rewrite lookup_insert. by case_decide.
Qed.

Lemma quiet_moved w tid p g og :
  threads w !! tid = Some (p, g) -> ~ applier g -> (forall g', og = Some g' -> ~ applier g') ->
  quiet w (moved tid p og w).
Proof.
  intros Ht Hg Hog. split.
  - intros Hn t [q g1] [(-> & -> & _) | [_ ?]]%moved_lookup; by eapply Hn.
  - intros q rf ?. by exists rf.
  - done.
  - done.
  - intros t q g1 [(-> & -> & ?) | [_ ?]]%moved_lookup ?; [by eapply Hog in H |]. done.
  - intros _ t q g1 Ht1 Ha. assert (t <> tid) by naive_solver.
    destruct og; cbn; [rewrite lookup_insert_ne | rewrite lookup_delete_ne]; done.
Qed.

Lemma quiet_spawned w p g : ~ applier g -> quiet w (spawned p g w).
Proof.
  intros Hg. split.
  - intros Hn t [q g1] [(-> & _) | [_ ?%Hn]]%spawned_lookup; cbn; lia.
  - intros q rf ?. by exists rf.
  - done.
  - done.
  - by intros t q g1 [(-> & -> & ->) | [_ ?]]%spawned_lookup.
  - intros Hn t q g1 Ht _. cbn. apply Hn in Ht as Hlt. by rewrite lookup_insert_ne by lia.
Qed.

Lemma spawned_old w p g t x :
  names_used w -> threads w !! t = Some x -> threads (spawned p g w) !! t = Some x.
Proof. intros Hn Ht. apply Hn in Ht as Hlt. cbn. by rewrite lookup_insert_ne by lia. Qed.

Lemma quiet_set_bcasts w b : quiet w (set_bcasts b w).
Proof. split; try done. intros p rf ?. by exists rf. Qed.
Lemma quiet_set_elects w e : quiet w (set_elects e w).
Proof. split; try done. intros p rf ?. by exists rf. Qed.
Lemma quiet_set_fresh w : quiet w (set_fresh (S (fresh w)) w).
Proof.
  split; try done; [| intros p rf ?; by exists rf]. intros Hn t x ?%Hn. cbn. lia.
Qed.

Lemma quiet_senders p b js w w' : senders_added p b js w w' -> quiet w w'.
Proof.
  intros []. split.
  - intros Hn t [q g] [?%Hn | (? & _)]%sa_threads; lia.
  - rewrite sa_peers. intros q rf ?. by exists rf.
  - by rewrite sa_peers.
  - done.
  - intros t q g [? | (_ & _ & i & _ & _ & ->)]%sa_threads; done.
  - intros Hn t q g Ht _. rewrite sa_old; [done | by eapply Hn].
Qed.

Lemma apply_inv_quiet w w' : quiet w w' -> apply_inv w -> apply_inv w'.
Proof.
  intros [] []. assert (Hs : forall p, sent_by w' p = sent_by w p).
  { intros p. unfold sent_by. by rewrite q_applied0. }
  split.
  - auto.
  - intros t t' p g g' H1 H2 Ha Ha'.
    by apply (ap_one0 t t' p g g'); [apply q_threads0 | apply q_threads0 | |].
  - intros p. by rewrite Hs.
  - intros p rf' t g Hp Ht. rewrite Hs. destruct (q_peers0 _ _ Hp) as (rf & Hp0 & Hl).
    destruct g; try exact I.
    all: apply q_threads0 in Ht; [| exact I]; specialize (ap_ok0 p rf t _ Hp0 Ht);
      cbn in *; by rewrite Hl.
  - intros p rf' (rf & Hp0 & _)%q_peers0. destruct (ap_alive0 _ _ Hp0) as (t & g & ? & ?).
    exists t, g. auto.
  - intros t p g Ht Hg. by eapply q_dom0, ap_home0, Hg; apply q_threads0.
Qed.

(** ** Steps of applyEntries *)

(** The goroutine itself moves, with its server and its messages. *)
Lemma apply_inv_moved w w' tid p g g' :
  apply_inv w -> threads w !! tid = Some (p, g) -> applier g -> applier g' ->
  threads w' = <[tid := (p, g')]> (threads w) -> fresh w' = fresh w ->
  (forall q, q <> p -> peers w' !! q = peers w !! q /\ sent_by w' q = sent_by w q) ->
  in_order (sent_by w' p) ->
  (forall rf', peers w' !! p = Some rf' -> apply_ok (sent_by w' p) rf' g') ->
  (is_Some (peers w !! p) -> is_Some (peers w' !! p)) ->
  apply_inv w'.
Proof.
  intros [] Ht Hg Hg' Hth Hf Hoth Hord Hok Hdom. split.
  - intros t x. rewrite Hth, Hf, lookup_insert. case_decide as E; [subst; intros _ | apply ap_names0].
    by eapply ap_names0.
  - intros t t' q g1 g2. rewrite Hth, !lookup_insert.
    repeat case_decide; intros; simplify_eq; try done; by eapply ap_one0.
  - intros q. destruct (decide (q = p)) as [-> | Hne]; [done |].
    destruct (Hoth q Hne) as [_ ->]. apply ap_order0.
  - intros q rf1 t g1 Hq. rewrite Hth, lookup_insert. case_decide as E.
    { intros [= <- <-]. auto. }
    intros Ht1. destruct (decide (q = p)) as [-> | Hne].
    + destruct g1; try exact I; exfalso; apply E;
        (eapply ap_one0; [exact Ht | exact Ht1 | done | done]).
    + destruct (Hoth q Hne) as [Hpq ->]. rewrite Hpq in Hq. by eapply ap_ok0.
  - intros q rf1 Hq. destruct (decide (q = p)) as [-> | Hne].
    + exists tid, g'. by rewrite Hth, lookup_insert_eq.
    + destruct (Hoth q Hne) as [Hpq _]. rewrite Hpq in Hq.
      destruct (ap_alive0 _ _ Hq) as (t & g1 & Ht1 & ?). exists t, g1. split; [| done].
      rewrite Hth, lookup_insert_ne; [done |]. intros ->. by simplify_eq.
  - intros t q g1. rewrite Hth, lookup_insert. destruct (decide (q = p)) as [-> | Hne].
    + intros _ _. apply Hdom. by eapply ap_home0.
    + destruct (Hoth q Hne) as [-> _]. case_decide; [by intros [= ? _] | by apply ap_home0].
Qed.

Lemma in_order_snoc ms m :
  in_order ms -> CommandIndex m = len ms + 1 -> CommandValid m = true -> in_order (ms ++ [m]).
Proof.
  intros [Hi Hv] Hc Hm. split; [| by apply Forall_app_2; repeat constructor].
  rewrite fmap_app, Hi, len_app. change (len [m]) with 1.
  pose proof (len_nonneg ms). rewrite (seqZ_app 1 (len ms) 1) by lia. f_equal. cbn.
  change (seqZ (1 + len ms) 1) with [Z.of_nat 0 + (1 + len ms)]. f_equal. lia.
Qed.

Lemma ap_read w tid p rf g og :
  apply_inv w -> threads w !! tid = Some (p, g) -> applier g -> reads w p rf g og ->
  peers w !! p = Some rf \/ unlocked g og -> apply_inv (moved tid p og w).
Proof.
  intros Hi Ht Hg Hr Hp.
  assert (Hnext : exists g', og = Some g' /\ applier g' /\
    forall rf', peers w !! p = Some rf' -> apply_ok (sent_by w p) rf' g').
  { pose proof (ap_ok _ Hi p) as Hok.
    destruct g; try done; cbn in Hr; [destruct Hr as [-> | ->] | | | destruct Hr as [-> ?]];
      subst; eexists; (split; [reflexivity |]); (split; [done |]);
      intros rf' Hp'; specialize (Hok rf' tid _ Hp' Ht); cbn in *; try done.
    - destruct Hp as [Hp | []]. by simplify_eq.
    - apply Hok. }
  destruct Hnext as (g' & -> & Hg' & Hok).
  apply (apply_inv_moved w _ tid p g g'); try done. apply Hi.
Qed.

Lemma ap_apply w tid p rf i ci m rf' :
  apply_inv w -> threads w !! tid = Some (p, GApplyLoop i ci) -> peers w !! p = Some rf ->
  apply_one i rf = Ok (m, rf') -> apply_inv (moved tid p (Some (GApplySend m i ci)) (updated p rf' w)).
Proof.
  intros Hi Ht Hp Ha. apply apply_one_inv in Ha as (-> & x & _ & ->).
  destruct (ap_ok _ Hi _ _ _ _ Hp Ht) as [Hl ->].
  eapply (apply_inv_moved w _ tid p _ _ Hi Ht); try reflexivity; try done; [| exact (ap_order _ Hi p) | |].
  - intros q Hq. split; [by apply lookup_insert_ne |]. done.
  - cbn. rewrite lookup_insert_eq. intros ? [= <-]. cbn.
    split_and!; [exact (f_equal (fun z => z + 1) Hl) | done..].
  - cbn. by rewrite lookup_insert_eq.
Qed.

Lemma ap_apply_send w tid p m i ci :
  apply_inv w -> threads w !! tid = Some (p, GApplySend m i ci) ->
  apply_inv (moved tid p (Some (GApplyLoop (i + 1) ci))
    (set_applied (<[p := default [] (applied w !! p) ++ [m]]> (applied w)) w)).
Proof.
  intros Hi Ht. destruct (ap_home _ Hi _ _ _ Ht I) as [rf Hp]. destruct (ap_ok _ Hi _ _ _ _ Hp Ht) as (Hl & Hil & Hm & Hv).
  assert (Hs : forall q, q <> p -> sent_by (set_applied (<[p := sent_by w p ++ [m]]> (applied w)) w) q
    = sent_by w q).
  { intros q Hq. unfold sent_by. cbn. by rewrite lookup_insert_ne. }
  assert (Hsp : sent_by (set_applied (<[p := sent_by w p ++ [m]]> (applied w)) w) p
    = sent_by w p ++ [m]).
  { unfold sent_by. cbn. by rewrite lookup_insert_eq. }
  eapply (apply_inv_moved w _ tid p _ _ Hi Ht); try reflexivity; try done.
  - intros q Hq. split; [done |]. by apply Hs.
  - change (in_order (sent_by (set_applied (<[p := sent_by w p ++ [m]]> (applied w)) w) p)).
    rewrite Hsp. apply in_order_snoc; [apply (ap_order _ Hi) | lia | done].
  - intros rf' Hp'. cbn in Hp'. rewrite Hp in Hp'. injection Hp' as <-. subst i. cbn [apply_ok].
    change (lastApplied rf = len (sent_by (set_applied (<[p := sent_by w p ++ [m]]> (applied w)) w) p)
      /\ lastApplied rf + 1 = lastApplied rf + 1).
    rewrite Hsp, len_app. change (len [m]) with 1. split; lia.
Qed.

Lemma orphaned_applier g g' : orphaned g = Some g' -> ~ applier g'.
Proof. destruct g; cbn; naive_solver. Qed.

Lemma ap_crash w p rf' ts :
  apply_inv w -> survivors (threads w) ts -> lastApplied rf' = 0 ->
  apply_inv (set_fresh (S (fresh w))
    (set_threads (<[fresh w := (p, GApply)]> (kill_threads p ts))
      (set_applied (<[p := []]> (applied w)) (updated p rf' w)))).
Proof.
  intros [] Hsv Hl. set (w' := set_fresh _ _).
  assert (Hs : forall q, sent_by w' q = if decide (q = p) then [] else sent_by w q).
  { intros q. unfold sent_by. cbn. rewrite lookup_insert. repeat case_decide; subst; done. }
  assert (Hkill : forall t q g, kill_threads p ts !! t = Some (q, g) -> applier g ->
    q <> p /\ threads w !! t = Some (q, g)).
  { intros t q g (g0 & Ht & [[? ->] | [_ Ho]])%(survivors_killed _ _ _ _ _ _ Hsv) Hg; [done |].
    by apply orphaned_applier in Ho. }
  split.
  - intros t [q g]. cbn. rewrite lookup_insert. case_decide; [lia |].
    intros (g0 & Ht & _)%(survivors_killed _ _ _ _ _ _ Hsv). apply ap_names0 in Ht. lia.
  - intros t t' q g g'. cbn. rewrite !lookup_insert. repeat case_decide; intros; simplify_eq; try done.
    + match goal with H : kill_threads _ _ !! _ = _ |- _ => apply Hkill in H as [? _] end; done.
    + match goal with H : kill_threads _ _ !! _ = _ |- _ => apply Hkill in H as [? _] end; done.
    + eapply ap_one0; [by apply Hkill | by apply Hkill | done | done].
  - intros q. rewrite Hs. case_decide; [| apply ap_order0]. by split; [| constructor].
  - intros q rf1 t g. rewrite Hs. cbn. rewrite !lookup_insert. repeat case_decide; simplify_eq.
    + by intros [= <-] [= <-].
    + intros [= <-] Ht. destruct g; try exact I; apply Hkill in Ht as [? _]; done.
    + by intros _ [= <-].
    + intros Hq Ht. destruct g; try exact I; apply Hkill in Ht as [_ Ht]; try done; by eapply ap_ok0.
  - intros q rf1. cbn. rewrite lookup_insert. case_decide; simplify_eq.
    + intros _. exists (fresh w), GApply. by rewrite lookup_insert_eq.
    + intros (t & g & Ht & Hg)%ap_alive0. exists t, g. split; [| done].
      apply ap_names0 in Ht as Hlt. rewrite lookup_insert_ne by lia.
      destruct (sv_kept _ _ Hsv _ _ _ Ht) as [Ht' | (t1 & x & Hb)]; [| by destruct g].
      unfold kill_threads. rewrite lookup_omap, Ht'. cbn. by rewrite decide_False.
  - intros t q g. cbn. rewrite !lookup_insert. repeat case_decide; try done; [by intros [= ? _] |].
    intros Ht Hg. apply Hkill in Ht as [_ Ht]; [| done]. by eapply ap_home0.
Qed.

(** ** Every step *)

Ltac quiet_steps :=
  repeat lazymatch goal with
  | |- quiet ?w ?w => reflexivity
  | |- quiet _ (moved _ _ _ ?w) => transitivity w;
      [| eapply quiet_moved; [eassumption | by intros [] | intros ? [= <-]; by intros []]]
  | |- quiet _ (updated _ _ ?w) => transitivity w; [| by eapply quiet_updated]
  | |- quiet _ (spawned _ _ ?w) => transitivity w; [| by apply quiet_spawned; intros []]
  | |- quiet _ (set_bcasts _ ?w) => transitivity w; [| apply quiet_set_bcasts]
  | |- quiet _ (set_elects _ ?w) => transitivity w; [| apply quiet_set_elects]
  | |- quiet _ (set_fresh _ ?w) => transitivity w; [| apply (quiet_set_fresh w)]
  end.

Lemma sender_handle_lastApplied i next args reply bc x rf rf' :
  sender_handle i next args reply bc rf = Ok (x, rf') -> lastApplied rf' = lastApplied rf.
Proof.
  unfold sender_handle. destruct x as [bc' r]. destruct (aer_Success reply).
  - by intros (_ & ? & _)%sender_accepted_inv.
  - intros H. sec_inv. match goal with H : sender_rejected _ _ _ _ _ = Ok _ |- _ =>
      apply sender_rejected_inv in H as [(_ & _ & ->) | (_ & _ & ni & _ & _ & _ & ->)] end; [| done].
    unfold stepped_down. by raft_fields.
Qed.

Lemma vote_handle_lastApplied reply nv x rf rf' :
  vote_handle reply nv rf = Ok (x, rf') -> lastApplied rf' = lastApplied rf.
Proof.
  destruct x as [nv' b]. intros (_ & [(_ & _ & Hw) | (_ & _ & [(_ & _ & ->) | (_ & ->)])])%vote_handle_inv.
  - by destruct Hw.
  - unfold stepped_down. by raft_fields.
  - done.
Qed.

Lemma AppendEntries_lastApplied t1 t2 args reply rf rf' :
  0 <= ae_PrevLogIndex args -> AppendEntries t1 t2 args rf = Ok (reply, rf') ->
  lastApplied rf' = lastApplied rf.
Proof.
  intros Hp H. destruct (AppendEntries_total t1 t2 args rf Hp) as (r & rf1 & He & Hc).
  rewrite H in He. injection He as <- <-.
  destruct Hc as [(_ & _ & ->) | [(_ & _ & -> & _) | (_ & _ & _ & Ha)]]; [done | |].
  - apply adopted_same_core.
  - apply (aa_core _ _ _ Ha).
Qed.

Lemma RequestVote_lastApplied tm args reply rf rf' :
  0 < len (Log rf) -> RequestVote tm args rf = Ok (reply, rf') -> lastApplied rf' = lastApplied rf.
Proof.
  intros Hl H. destruct (RequestVote_total tm args rf Hl) as (r & rf1 & He & Hc).
  rewrite H in He. injection He as <- <-.
  destruct Hc as [(_ & _ & ->) | [(_ & _ & _ & ->) | (_ & _ & _ & ->)]]; [done | |].
  - apply adopted_same_core.
  - unfold voted. raft_fields. apply adopted_same_core.
Qed.

Lemma apply_inv_step n w w' : local_inv n w -> apply_inv w -> wstep w w' -> apply_inv w'.
Proof.
  intros Hl Hi Hs. destruct Hs.
  - done.
  - eapply apply_inv_quiet; [| exact Hi]. quiet_steps.
  - eapply apply_inv_quiet; [| exact Hi]. destruct H0 as [-> | ->]; quiet_steps.
  - destruct g; try (by eapply ap_read).
    all: eapply apply_inv_quiet; [| exact Hi]; eapply quiet_moved; [done | by intros [] |].
    all: intros g' ->; cbn in H0; naive_solver.
  - eapply apply_inv_quiet; [| exact Hi]. quiet_steps.
  - eapply apply_inv_quiet; [| exact Hi]. apply spawn_all_inv in H2.
    etransitivity; [| by eapply quiet_senders].
    quiet_steps.
  - assert (lastApplied rf' = lastApplied rf) by apply H1.
    eapply apply_inv_quiet; [| exact Hi]. quiet_steps.
  - apply sender_handle_lastApplied in H2. eapply apply_inv_quiet; [| exact Hi].
    destruct r; quiet_steps.
  - assert (lastApplied rf' = lastApplied rf) by apply H1.
    eapply apply_inv_quiet; [| exact Hi]. quiet_steps.
  - pose proof (spawned_old w p (GVoteCall e i args) tid _ (ap_names _ Hi) H).
    eapply apply_inv_quiet; [| exact Hi]. quiet_steps.
  - apply vote_handle_lastApplied in H2. eapply apply_inv_quiet; [| exact Hi].
    destruct won_; quiet_steps.
  - by eapply ap_apply.
  - by eapply ap_apply_send.
  - apply AppendEntries_lastApplied in H2; cycle 1.
    { pose proof (li_threads _ _ Hl _ _ _ H) as Hg.
      destruct H0 as [(b & next & -> & _) | [-> _]]; apply Hg. }
    eapply apply_inv_quiet; [| exact Hi].
    destruct H0 as [(b & next & -> & ->) | [-> ->]]; quiet_steps.
  - apply RequestVote_lastApplied in H2; [| by eapply wf_log_len, pw_log, li_peers].
    eapply apply_inv_quiet; [| exact Hi].
    destruct H0 as [(e & -> & ->) | [-> ->]]; quiet_steps.
  - destruct (crash_restarts _ _ _ _ _ _ _ _ _ Hl H H0 H1) as [Hsv Hr]. by apply ap_crash, (rs_applied _ _ _ _ Hr).
Qed.

Lemma apply_inv_initial n tm : apply_inv (initial n tm).
Proof.
  split.
  - intros t [q g] (? & -> & _)%initial_threads. cbn. lia.
  - intros t t' p g g' (_ & -> & _)%initial_threads (_ & -> & _)%initial_threads. done.
  - intros p. by split; [| constructor].
  - intros p rf t g [_ ->]%initial_peers (_ & _ & ->)%initial_threads. done.
  - intros p rf [? ->]%initial_peers. exists (Z.to_nat p), GApply. split; [| done].
    by apply initial_threads.
  - intros t p g (? & -> & ->)%initial_threads _. exists (fresh_peer n p tm).
    by apply initial_peers.
Qed.

Lemma reachable_apply_inv n w : reachable n w -> apply_inv w.
Proof.
  intros Hr. enough (local_inv n w /\ apply_inv w) by tauto.
  revert Hr. apply (reachable_ind_inv n (fun w => local_inv n w /\ apply_inv w)).
  - intros tm. split; [apply local_inv_initial | apply apply_inv_initial].
  - intros x y Hfit [Hl Hi] Hs. split; [by eapply local_inv_step | by eapply apply_inv_step].
Qed.

(** ** Properties *)

(** C10: in every reachable world, under every interleaving of critical
    sections, message losses, reorderings and crashes, the messages a server
    sent on applyCh since it was last started carry CommandValid and exactly
    the indices 1, 2, 3, ... in this order, without gap or repetition, and
    lastApplied is their number (or one more, while a message is being sent). *)
Theorem applyCh_in_order n w p rf :
  reachable n w -> peers w !! p = Some rf ->
  in_order (sent_by w p) /\ len (sent_by w p) <= lastApplied rf <= len (sent_by w p) + 1.
Proof.
  intros Hr Hp. apply reachable_apply_inv in Hr. split; [apply (ap_order _ Hr) |].
  destruct (ap_alive _ Hr _ _ Hp) as (t & g & Ht & Hg).
  pose proof (ap_ok _ Hr _ _ _ _ Hp Ht) as Hok. destruct g; try done; cbn in Hok; lia.
Qed.

Lemma applyCh_in_order_witness :
  exists w rf, reachable 3 w /\ peers w !! 0 = Some rf /\ len (sent_by w 0) = 1 /\
    in_order (sent_by w 0) /\ len (sent_by w 0) <= lastApplied rf <= len (sent_by w 0) + 1.
Proof.
  destruct (run start_race (initial 3 t0)) as [w|] eqn:E; [| by vm_compute in E].
  pose proof (run_reachable 3 t0 start_race w E) as Hr.
  destruct (peers w !! 0) as [rf|] eqn:Hp; [| vm_compute in E; injection E as <-; done].
  exists w, rf. split; [exact Hr |]. split; [done |].
  split; [vm_compute in E; injection E as <-; reflexivity |].
  apply (applyCh_in_order 3 w 0 rf Hr Hp).
Defined.
