(* ===== verification/RaftElection.v ===== *)
(** * Election Safety

    RaftRaces shows that two servers can lead the same term when a server
    changes its term or its role while one of its goroutines is between a check
    and the section that relies on it.  This file proves that nothing else can
    go wrong: in every execution without such a change, at most one server leads
    a term.  The executions may still lose, delay, duplicate into orphans and
    reorder messages, crash servers, and interleave all other sections freely. *)

From S2P Require Import Prelude LabGob Persister Raft RaftRPC RaftNode RaftSystem RaftSteps RaftRaces RaftLocal RaftApply.

(** ** Isolated executions *)

(** Points between a check of the server's term or role and its use. *)
Definition window (g : Goroutine) : bool :=
  match g with
  | GStartAppend _ | GStartSpawn _ | GSendTerm _ _ | GSendArgs _ _ | GSendEnc _ _ _ _
  | GSendHandle _ _ _ _ _ | GElectLoop _ _ | GVoteHandle _ _ _ _ => true
  | _ => false
  end.

Definition stand (w : World) (p : Z) : option (Z * ServerState) :=
  (fun rf => (CurrentTerm rf, state rf)) <$> peers w !! p.

(** No server changes term or role while a goroutine of its stays in a window. *)
Definition isolated (w w' : World) : Prop :=
  map_Forall (fun tid (x : Z * Goroutine) =>
    window x.2 = true ->
    match threads w !! tid with
    | Some y => window y.2 = true -> stand w' x.1 = stand w x.1
    | None => True
    end) (threads w').

#[export] Instance isolated_dec w w' : Decision (isolated w w').
Proof.
  unfold isolated. apply map_Forall_dec. intros tid x.
  apply impl_dec; [apply _ |]. destruct (threads w !! tid); apply _.
Defined.

Definition istep (w w' : World) : Prop := step w w' /\ isolated w w'.
Definition ireachable (n : Z) (w : World) : Prop := exists tm, rtc istep (initial n tm) w.

Lemma isolated_stand w w' tid p g :
  isolated w w' -> threads w !! tid = Some (p, g) -> threads w' !! tid = Some (p, g) ->
  window g = true -> stand w' p = stand w p.
Proof.
  intros Hi Ht Ht' Hw. specialize (Hi tid (p, g) Ht' Hw). rewrite Ht in Hi. by apply Hi.
Qed.

Lemma ireachable_reachable n w : ireachable n w -> reachable n w.
Proof.
  intros [tm Hr]. exists tm. induction Hr as [| x y z [] _ IH]; [done |].
  by eapply rtc_l.
Qed.

(** Running a trace and checking that it is isolated. *)
Fixpoint irun (evs : list Event) (w : World) : option World :=
  match evs with
  | [] => Some w
  | ev :: evs =>
      if decide (terms_fit w) then
        match exec ev w with
        | Ok (_, w') => if decide (isolated w w') then irun evs w' else None
        | _ => None
        end
      else None
  end.

Lemma irun_ireachable n tm evs w : irun evs (initial n tm) = Some w -> ireachable n w.
Proof.
  intros H. exists tm. revert H. generalize (initial n tm).
  induction evs as [| ev evs IH]; intros w0; cbn.
  { by intros [= ->]. }
  case_decide; [| done]. destruct (exec ev w0) as [[[] w1] | | |] eqn:E; [| done..].
  case_decide; [| done]. intros Hr. eapply rtc_l; [| by apply IH].
  split; [| done]. split; [done |]. by exists ev.
Qed.

(** An invariant of isolated steps, given the invariants of all executions. *)
Lemma ireachable_ind_inv n (I : World -> Prop) w :
  (forall tm, I (initial n tm)) ->
  (forall w w', terms_fit w -> local_inv n w -> apply_inv w -> isolated w w' ->
    I w -> wstep w w' -> I w') ->
  ireachable n w -> I w.
Proof.
  intros Hinit Hstep [tm Hr].
  enough (H : local_inv n w /\ apply_inv w /\ I w) by apply H.
  assert (H : local_inv n (initial n tm) /\ apply_inv (initial n tm) /\ I (initial n tm))
    by auto using local_inv_initial, apply_inv_initial.
  clear Hinit. induction Hr as [| x y z [(Hfit & ev & He) Hiso] _ IH]; [done |].
  apply IH. destruct H as (Hl & Ha & Hi). apply exec_wstep in He.
  split; [by eapply local_inv_step |]. split; [by eapply apply_inv_step |]. by eapply Hstep.
Qed.

(** ** Votes

    [G] is the set of all votes (voter, term, candidate) ever granted. *)

Definition votes := gset (Z * Z * Z).

(** Two majorities of [n] servers share one of them. *)
Lemma majorities_meet n (Q Q' : gset Z) :
  0 <= n ->
  Z.quot n 2 + 1 <= Z.of_nat (size Q) -> Z.quot n 2 + 1 <= Z.of_nat (size Q') ->
  (forall q, q ∈ Q -> 0 <= q < n) -> (forall q, q ∈ Q' -> 0 <= q < n) ->
  exists q, q ∈ Q /\ q ∈ Q'.
Proof.
  intros Hn H1 H2 Hr1 Hr2. destruct (decide (Q ∩ Q' = ∅)) as [He | Hne]; cycle 1.
  { apply set_choose_L in Hne as [q Hq]. exists q. set_solver. }
  assert (Hd : Q ## Q') by set_solver.
  assert (Hs : Q ∪ Q' ⊆ list_to_set (seqZ 0 n)).
  { intros q [Hq | Hq]%elem_of_union; apply elem_of_list_to_set, elem_of_seqZ;
      [apply Hr1 in Hq | apply Hr2 in Hq]; lia. }
  apply subseteq_size in Hs. rewrite size_union in Hs by done.
  rewrite size_list_to_set, length_seqZ in Hs by apply NoDup_seqZ.
  pose proof (Z.quot_rem' n 2). pose proof (Z.rem_bound_pos n 2). lia.
Qed.

Section elections.

(** The terms [T] already won, by [p]: [W T p]. *)
Context (W : Z -> Z -> Prop).

Definition quorum (n : Z) (G : votes) (T p : Z) : Prop :=
  exists Q : gset Z, Z.quot n 2 + 1 <= Z.of_nat (size Q) /\
    forall q, q ∈ Q -> 0 <= q < n /\ (q, T, p) ∈ G.

Record votes_inv (n : Z) (ps : gmap Z Raft) (G : votes) : Prop := {
  vi_range : forall p rf, ps !! p = Some rf -> 0 <= p < n;
  vi_fun : forall q T c c', (q, T, c) ∈ G -> (q, T, c') ∈ G -> c = c';
  vi_term : forall q T c, (q, T, c) ∈ G -> 0 <= c /\ exists rf, ps !! q = Some rf /\
    T <= CurrentTerm rf /\ (T = CurrentTerm rf -> VoteFor rf = c);
  vi_vote : forall q rf, ps !! q = Some rf -> VoteFor rf <> -1 ->
    (q, CurrentTerm rf, VoteFor rf) ∈ G;
  vi_leader : forall p rf, ps !! p = Some rf -> state rf = Leader ->
    quorum n G (CurrentTerm rf) p;
  vi_won : forall T p, W T p -> quorum n G T p;
}.

(** How the votes may grow with the state of one server. *)
Record vote_step (n : Z) (G G' : votes) (p : Z) (rf rf' : Raft) : Prop := {
  vs_term : CurrentTerm rf <= CurrentTerm rf';
  vs_sub : G ⊆ G';
  vs_new : forall x, x ∈ G' -> x ∈ G \/ (x = (p, CurrentTerm rf', VoteFor rf') /\ 0 <= VoteFor rf');
  vs_vote : VoteFor rf' <> -1 -> (p, CurrentTerm rf', VoteFor rf') ∈ G';
  vs_keep : CurrentTerm rf' = CurrentTerm rf -> VoteFor rf <> -1 -> VoteFor rf' = VoteFor rf;
  vs_leader : state rf' = Leader ->
    (state rf = Leader /\ CurrentTerm rf' = CurrentTerm rf) \/ quorum n G' (CurrentTerm rf') p;
}.

Lemma quorum_mono n G G' T p : G ⊆ G' -> quorum n G T p -> quorum n G' T p.
Proof. intros Hs (Q & ? & HQ). exists Q. split; [done |]. set_solver. Qed.

Lemma votes_step n ps G G' p rf rf' :
  votes_inv n ps G -> ps !! p = Some rf -> vote_step n G G' p rf rf' ->
  votes_inv n (<[p := rf']> ps) G'.
Proof.
  intros [] Hp []. split.
  - intros q rf1. rewrite lookup_insert. case_decide; [subst; eauto | apply vi_range0].
  - assert (Hnew : forall c c', (p, CurrentTerm rf', c) ∈ G -> c' = VoteFor rf' -> c = c').
    { intros c c' Hc ->. destruct (vi_term0 _ _ _ Hc) as (? & rf0 & ? & ? & Hv). simplify_eq.
      assert (HT : CurrentTerm rf' = CurrentTerm rf) by lia.
      rewrite (vs_keep0 HT); [symmetry; auto | rewrite (Hv HT); lia]. }
    intros q T c c' [H1 | [E1 _]]%vs_new0 [H2 | [E2 _]]%vs_new0; simplify_eq.
    + by eapply vi_fun0.
    + by apply Hnew.
    + symmetry. by apply Hnew.
    + done.
  - intros q T c [H1 | [[= -> -> ->] ?]]%vs_new0; cycle 1.
    { split; [done |]. exists rf'. rewrite lookup_insert_eq. split_and!; [done | lia | done]. }
    destruct (vi_term0 _ _ _ H1) as (Hc & rf0 & Hq & HT & Hv). split; [done |].
    rewrite lookup_insert. case_decide as E; [| by exists rf0].
    subst q. rewrite Hp in Hq. injection Hq as <-. exists rf'.
    split; [done |]. split; [lia |]. intros ->.
    assert (E : CurrentTerm rf' = CurrentTerm rf) by lia.
    rewrite (vs_keep0 E); [by apply Hv | rewrite (Hv E); lia].
  - intros q rf1. rewrite lookup_insert. case_decide; [intros [= <-]; by subst | intros ? ?].
    by apply vs_sub0, vi_vote0.
  - intros q rf1. rewrite lookup_insert. case_decide.
    + intros [= <-] Hs. subst q. destruct (vs_leader0 Hs) as [[Hs0 ->] |]; [| done].
      eapply quorum_mono; [done |]. by apply vi_leader0.
    + intros ? ?. eapply quorum_mono; [done |]. by apply vi_leader0.
  - intros T q HW. eapply quorum_mono; [done |]. by apply vi_won0.
Qed.

Lemma quorum_unique n ps G T p p' :
  0 <= n -> votes_inv n ps G -> quorum n G T p -> quorum n G T p' -> p = p'.
Proof.
  intros Hn Hv (Q & H1 & HQ) (Q' & H2 & HQ').
  destruct (majorities_meet n Q Q') as (q & Hq & Hq'); [done | done | done | naive_solver.. |].
  eapply vi_fun; [done | by apply HQ | by apply HQ'].
Qed.

(** ** Elections and their requesters

    [E] gives for every call of startElection its server, its term and the set
    of servers whose votes were counted. *)

Definition elections := gmap nat (Z * Z * gset Z).

Definition term_is (ps : gmap Z Raft) (p T : Z) : Prop :=
  forall rf, ps !! p = Some rf -> CurrentTerm rf = T.

Definition requests (n : Z) (E : elections) (p : Z) (e : nat) (i : Z) (args : RequestVoteArgs) : Prop :=
  exists S, E !! e = Some (p, rv_Term args, S) /\ rv_CandidateId args = p /\ 0 <= p /\
    i ∉ S /\ 0 <= i < n.

Definition granted (G : votes) (i : Z) (args : RequestVoteArgs) (reply : RequestVoteReply) : Prop :=
  rvr_VoteGranted reply = true -> (i, rv_Term args, rv_CandidateId args) ∈ G.

Definition elec_ok (n : Z) (ps : gmap Z Raft) (G : votes) (E : elections) (p : Z) (g : Goroutine) : Prop :=
  match g with
  | GElectLoop e j => exists T S, E !! e = Some (p, T, S) /\ term_is ps p T /\ 0 <= j /\
      forall x, x ∈ S -> x = p \/ x < j
  | GVoteCall e i args => requests n E p e i args
  | GVoteRet e i args reply | GVoteCheck e i args reply =>
      requests n E p e i args /\ granted G i args reply
  | GVoteHandle e i args reply =>
      requests n E p e i args /\ granted G i args reply /\ term_is ps p (rv_Term args)
  | GOrphanRV i args => 0 <= rv_CandidateId args
  | GSendHandle _ _ _ args _ => term_is ps p (ae_Term args)
  | _ => True
  end.

(** The election and the peer a requester works for; the progress of a loop. *)
Definition request_of (g : Goroutine) : option (nat * Z) :=
  match g with
  | GVoteCall e i _ | GVoteRet e i _ _ | GVoteCheck e i _ _ | GVoteHandle e i _ _ => Some (e, i)
  | _ => None
  end.
Definition loop_of (g : Goroutine) : option (nat * Z) :=
  match g with GElectLoop e j => Some (e, j) | _ => None end.

Record counts_inv (n : Z) (ps : gmap Z Raft) (ths : gmap nat (Z * Goroutine)) (els : gmap nat Z)
    (fr : nat) (G : votes) (E : elections) : Prop := {
  ci_counted : forall e p T S, E !! e = Some (p, T, S) ->
    (e < fr)%nat /\ els !! e = Some (Z.of_nat (size S)) /\
    forall x, x ∈ S -> 0 <= x < n /\ (x, T, p) ∈ G;
  ci_ok : forall t p g, ths !! t = Some (p, g) -> elec_ok n ps G E p g;
  ci_request : forall t t' p p' g g' k, ths !! t = Some (p, g) -> ths !! t' = Some (p', g') ->
    request_of g = Some k -> request_of g' = Some k -> t = t';
  ci_loop : forall t t' p p' g g' e j j', ths !! t = Some (p, g) -> ths !! t' = Some (p', g') ->
    loop_of g = Some (e, j) -> loop_of g' = Some (e, j') -> t = t';
  ci_behind : forall t t' p p' g g' e i j, ths !! t = Some (p, g) -> ths !! t' = Some (p', g') ->
    request_of g = Some (e, i) -> loop_of g' = Some (e, j) -> i < j;
}.

Lemma term_is_insert ps p q rf' T :
  term_is (<[p := rf']> ps) q T <-> if decide (p = q) then CurrentTerm rf' = T else term_is ps q T.
Proof.
  unfold term_is. split.
  - intros H. case_decide; [subst; apply H, lookup_insert_eq |].
    intros rf Hq. apply H. by rewrite lookup_insert_ne.
  - intros H rf. rewrite lookup_insert. by case_decide; [intros [= <-] | apply H].
Qed.

Lemma elec_ok_mono n ps G G' E p g :
  G ⊆ G' -> elec_ok n ps G E p g -> elec_ok n ps G' E p g.
Proof. intros Hs. destruct g; cbn; try done; unfold granted; naive_solver. Qed.

(** A server changes its state; its goroutines in windows keep its term. *)
Lemma elec_ok_update n ps G G' E p rf rf' q g :
  ps !! p = Some rf -> G ⊆ G' ->
  (q = p -> window g = true -> CurrentTerm rf' = CurrentTerm rf) ->
  elec_ok n ps G E q g -> elec_ok n (<[p := rf']> ps) G' E q g.
Proof.
  intros Hp Hs Hw Hok. apply (elec_ok_mono _ _ _ G') in Hok; [| done].
  assert (HT : forall T, window g = true -> term_is ps q T -> term_is (<[p := rf']> ps) q T).
  { intros T Hg HT. apply term_is_insert. case_decide; [| done]. subst q.
    rewrite Hw by done. by apply HT. }
  destruct g; cbn in *; try done; naive_solver.
Qed.

(** What a goroutine works for stays, or is given up; loops go forward. *)
Definition same_work (ths : gmap nat (Z * Goroutine)) (t : nat) (g : Goroutine) : Prop :=
  (request_of g = None \/ exists q g0, ths !! t = Some (q, g0) /\ request_of g0 = request_of g) /\
  (loop_of g = None \/ exists q g0 e j j', ths !! t = Some (q, g0) /\
     loop_of g0 = Some (e, j) /\ loop_of g = Some (e, j') /\ j <= j').

Lemma same_work_refl ths t p g : ths !! t = Some (p, g) -> same_work ths t g.
Proof.
  intros Ht. split.
  - right. by exists p, g.
  - destruct (loop_of g) as [[e j]|] eqn:El; [| by left]. right. by exists p, g, e, j, j.
Qed.

Lemma ci_step n ps ps' ths ths' els fr fr' G G' E :
  counts_inv n ps ths els fr G E -> G ⊆ G' -> (fr <= fr')%nat ->
  (forall t p g, ths' !! t = Some (p, g) -> elec_ok n ps' G' E p g /\ same_work ths t g) ->
  counts_inv n ps' ths' els fr' G' E.
Proof.
  intros [] Hs Hf Hth.
  assert (Hreq : forall t p g k, ths' !! t = Some (p, g) -> request_of g = Some k ->
    exists q g0, ths !! t = Some (q, g0) /\ request_of g0 = Some k).
  { intros t p g k Ht Hk. destruct (Hth t p g Ht) as [_ [[? | (q & g0 & ? & ?)] _]];
      [congruence | exists q, g0; split; congruence]. }
  assert (Hloop : forall t p g e j', ths' !! t = Some (p, g) -> loop_of g = Some (e, j') ->
    exists q g0 j, ths !! t = Some (q, g0) /\ loop_of g0 = Some (e, j) /\ j <= j').
  { intros t p g e j' Ht Hk.
    destruct (Hth t p g Ht) as [_ [_ [? | (q & g0 & e' & j & j'' & ? & ? & ? & ?)]]];
      [congruence |]. simplify_eq. by exists q, g0, j. }
  split.
  - intros e p T S (? & ? & HS)%ci_counted0. split; [lia |]. split; [done |].
    intros x [? ?]%HS. split; [done | by apply Hs].
  - by intros t p g [? _]%Hth.
  - intros t t' p p' g g' k H1 H2 Hk Hk'.
    destruct (Hreq _ _ _ _ H1 Hk) as (? & ? & ? & ?), (Hreq _ _ _ _ H2 Hk') as (? & ? & ? & ?).
    by eapply (ci_request0 t t').
  - intros t t' p p' g g' e j j' H1 H2 Hk Hk'.
    destruct (Hloop _ _ _ _ _ H1 Hk) as (? & ? & ? & ? & ? & _),
      (Hloop _ _ _ _ _ H2 Hk') as (? & ? & ? & ? & ? & _). by eapply (ci_loop0 t t').
  - intros t t' p p' g g' e i j H1 H2 Hk Hk'.
    destruct (Hreq _ _ _ _ H1 Hk) as (? & ? & ? & ?),
      (Hloop _ _ _ _ _ H2 Hk') as (? & ? & j0 & ? & ? & ?).
    assert (i < j0) by (by eapply (ci_behind0 t t')). lia.
Qed.

(** ** The invariant, and the steps that keep [E] *)

Definition election_inv (n : Z) (w : World) (G : votes) : Prop :=
  exists E, votes_inv n (peers w) G /\
    counts_inv n (peers w) (threads w) (elects w) (fresh w) G E.

(** The votes of the next world [w']: new ones are the current votes there. *)
Definition votes_grow (w' : World) (G G' : votes) : Prop :=
  G ⊆ G' /\ forall x, x ∈ G' -> x ∈ G \/
    exists q rf, peers w' !! q = Some rf /\ x = (q, CurrentTerm rf, VoteFor rf) /\ 0 <= VoteFor rf.

Lemma votes_grow_refl w' G : votes_grow w' G G.
Proof. split; auto. Qed.

Lemma votes_grow_step n w' G G' q rf rf' :
  vote_step n G G' q rf rf' -> peers w' !! q = Some rf' -> votes_grow w' G G'.
Proof.
  intros [] Hq. split; [done |]. intros x [? | [-> ?]]%vs_new0; [by left |]. right. by exists q, rf'.
Qed.

(** Steps that leave the servers alone. *)
Lemma election_threads n w w' G :
  election_inv n w G -> peers w' = peers w -> elects w' = elects w -> (fresh w <= fresh w')%nat ->
  (forall t p g, threads w' !! t = Some (p, g) -> threads w !! t = Some (p, g) \/
    (same_work (threads w) t g /\
     forall E, counts_inv n (peers w) (threads w) (elects w) (fresh w) G E ->
       elec_ok n (peers w) G E p g)) ->
  election_inv n w' G.
Proof.
  intros (E & Hv & Hc) Hp He Hf Hth. exists E. rewrite Hp, He. split; [done |].
  eapply ci_step; [done | done | done |]. intros t p g [Ht | [? Hok]]%Hth.
  - split; [by eapply ci_ok | by eapply same_work_refl].
  - auto.
Qed.

(** Steps of goroutine [tid] that change server [q]. *)
Lemma election_update n w w1 G G' E tid p og q rf rf' :
  votes_inv n (peers w) G -> counts_inv n (peers w) (threads w) (elects w) (fresh w) G E ->
  peers w !! q = Some rf -> vote_step n G G' q rf rf' -> isolated w (moved tid p og w1) ->
  threads w1 = threads w -> peers w1 = <[q := rf']> (peers w) ->
  elects w1 = elects w -> (fresh w <= fresh w1)%nat ->
  (forall g', og = Some g' -> elec_ok n (peers w1) G' E p g' /\ same_work (threads w) tid g') ->
  election_inv n (moved tid p og w1) G'.
Proof.
  intros Hv Hc Hq Hs Hiso Hth Hps He Hf Hog. exists E. cbn [peers elects fresh moved set_threads].
  rewrite Hps, He. split; [by eapply votes_step |]. eapply ci_step; [done | apply Hs | done |].
  intros t p' g Ht. apply moved_lookup in Ht as Ht'.
  destruct Ht' as [(-> & -> & ->) | [Hne Ht']].
  { rewrite <- Hps. auto. }
  rewrite Hth in Ht'. split; [| by eapply same_work_refl].
  eapply elec_ok_update; [done | apply Hs | | by eapply ci_ok].
  intros -> Hw. pose proof (isolated_stand _ _ _ _ _ Hiso Ht' Ht Hw) as Hst.
  unfold stand in Hst. cbn [peers moved set_threads] in Hst.
  rewrite Hps, lookup_insert_eq, Hq in Hst. cbn in Hst. congruence.
Qed.

(** ** How the sections of a server move its vote *)

Lemma vs_keeps n ps G p rf rf' :
  votes_inv n ps G -> ps !! p = Some rf -> CurrentTerm rf <= CurrentTerm rf' ->
  VoteFor rf' = (if decide (CurrentTerm rf < CurrentTerm rf') then -1 else VoteFor rf) ->
  (state rf' = Leader -> state rf = Leader /\ CurrentTerm rf' = CurrentTerm rf) ->
  vote_step n G G p rf rf'.
Proof.
  intros Hv Hp HT Hvote Hs. split; try done.
  - auto.
  - rewrite Hvote. case_decide; [done |]. intros ?.
    replace (CurrentTerm rf') with (CurrentTerm rf) by lia. by eapply vi_vote.
  - intros HT' _. rewrite Hvote. rewrite decide_False by lia. done.
  - intros Hl. left. auto.
Qed.

Lemma vs_unchanged n ps G p rf rf' :
  votes_inv n ps G -> ps !! p = Some rf -> CurrentTerm rf' = CurrentTerm rf ->
  VoteFor rf' = VoteFor rf -> (state rf' = Leader -> state rf = Leader) -> vote_step n G G p rf rf'.
Proof.
  intros Hv Hp HT Hvf Hs. eapply vs_keeps; [done | done | lia | | auto].
  by rewrite decide_False by lia.
Qed.

Lemma vs_stepped_down n ps G p rf T :
  votes_inv n ps G -> ps !! p = Some rf -> CurrentTerm rf < T ->
  vote_step n G G p rf (stepped_down T rf).
Proof.
  intros Hv Hp HT. unfold stepped_down. eapply vs_keeps; [done | done |..]; raft_fields; [lia | | done].
  by rewrite decide_True.
Qed.

Lemma vs_adopted n ps G p rf t T :
  votes_inv n ps G -> ps !! p = Some rf -> CurrentTerm rf <= T ->
  vote_step n G G p rf (adopted t T rf).
Proof.
  intros Hv Hp HT. eapply vs_keeps; [done | done |..].
  - by rewrite adopted_CurrentTerm.
  - by rewrite adopted_VoteFor, adopted_CurrentTerm.
  - rewrite adopted_state, adopted_CurrentTerm by done. case_decide; [done |].
    intros. split; [done | lia].
Qed.

Lemma vs_AppendEntries n ps G p rf t1 t2 args reply rf' :
  votes_inv n ps G -> ps !! p = Some rf -> 0 <= ae_PrevLogIndex args ->
  AppendEntries t1 t2 args rf = Ok (reply, rf') -> vote_step n G G p rf rf'.
Proof.
  intros Hv Hp Hi H. destruct (AppendEntries_total t1 t2 args rf Hi) as (r & rf1 & He & Hc).
  rewrite H in He. injection He as <- <-.
  destruct Hc as [(_ & _ & ->) | [(HT & _ & -> & _) | (HT & _ & _ & [])]].
  - by eapply vs_unchanged.
  - by eapply vs_adopted.
  - eapply vs_keeps; [done | done | lia | | congruence]. by rewrite aa_vote, aa_term.
Qed.

Lemma vs_RequestVote n ps G p rf t1 args reply rf' :
  votes_inv n ps G -> ps !! p = Some rf -> 0 < len (Log rf) -> 0 <= rv_CandidateId args ->
  RequestVote t1 args rf = Ok (reply, rf') ->
  exists G', vote_step n G G' p rf rf' /\ granted G' p args reply.
Proof.
  intros Hv Hp Hl Hcand H. destruct (RequestVote_total t1 args rf Hl) as (r & rf1 & He & Hc).
  rewrite H in He. injection He as <- <-. unfold granted.
  destruct Hc as [(_ & -> & ->) | [(HT & _ & -> & ->) | (Hm & _ & -> & ->)]].
  - exists G. split; [by eapply vs_unchanged | done].
  - exists G. split; [by eapply vs_adopted | done].
  - exists (G ∪ {[(p, rv_Term args, rv_CandidateId args)]}).
    assert (HT : CurrentTerm rf <= rv_Term args) by (destruct Hm as [|[]]; lia).
    split; [| set_solver]. unfold voted.
    split; raft_fields; rewrite ?adopted_CurrentTerm by done.
    + done.
    + set_solver.
    + intros x [? | ->%elem_of_singleton]%elem_of_union; [by left | by right].
    + intros _. set_solver.
    + intros Heq Hne. destruct Hm as [| [_ [|]]]; [lia | done | done].
    + done.
Qed.

Lemma vs_campaigning n ps G p rf rf' :
  votes_inv n ps G -> ps !! p = Some rf -> me rf = p -> CurrentTerm rf < MaxInt -> 0 <= CurrentTerm rf ->
  campaigning rf rf' ->
  vote_step n G (G ∪ {[(p, CurrentTerm rf', p)]}) p rf rf' /\ CurrentTerm rf' = CurrentTerm rf + 1.
Proof.
  intros Hv Hp Hme HT H0 []. rewrite wrap64_small in cp_term by (unfold MinInt; lia).
  pose proof (vi_range _ _ _ Hv _ _ Hp). split; [| done].
  split; rewrite ?cp_vote, ?Hme.
  - lia.
  - set_solver.
  - intros x [? | ->%elem_of_singleton]%elem_of_union; [by left | right]. split; [done | lia].
  - set_solver.
  - lia.
  - by rewrite cp_state.
Qed.

Lemma sender_handle_vote n ps G p rf i next args reply bc bc' r rf' :
  votes_inv n ps G -> ps !! p = Some rf -> CurrentTerm rf = ae_Term args ->
  sender_handle i next args reply bc rf = Ok ((bc', r), rf') -> vote_step n G G p rf rf'.
Proof.
  intros Hv Hp HT H. unfold sender_handle in H. destruct (aer_Success reply).
  - apply sender_accepted_inv in H as ([] & _).
    eapply vs_unchanged; [done | done | done | done | congruence].
  - sec_inv. match goal with H : sender_rejected _ _ _ _ _ = Ok _ |- _ =>
      apply sender_rejected_inv in H as [(? & _ & ->) | (_ & _ & ni & _ & _ & _ & ->)] end.
    + eapply vs_stepped_down; [done | done | lia].
    + by eapply vs_unchanged.
Qed.

(** ** The steps that concern elections *)

(** A goroutine that only reads keeps what it works for. *)
Lemma reads_work w p rf tid g g' :
  threads w !! tid = Some (p, g) -> reads w p rf g (Some g') -> same_work (threads w) tid g'.
Proof.
  intros Ht Hr. split.
  - destruct g; cbn in Hr; naive_solver.
  - destruct g; cbn in Hr; try (left; naive_solver).
    destruct Hr as [[? _] | [[= ->] _]]; [done |]. right.
    exists p, (GElectLoop e i), e, i, (i + 1). split_and!; [done.. | lia].
Qed.

Lemma reads_ok n w p rf g g' G E :
  peers w !! p = Some rf \/ unlocked g (Some g') -> reads w p rf g (Some g') ->
  elec_ok n (peers w) G E p g -> elec_ok n (peers w) G E p g'.
Proof.
  intros Hp Hr Hok. assert (HT : ~ unlocked g (Some g') -> forall T, CurrentTerm rf = T ->
    term_is (peers w) p T).
  { intros Hn T HT rf' Hp'. destruct Hp as [Hp |]; [| done]. congruence. }
  destruct g; cbn in Hr, Hok; try naive_solver.
  - destruct Hr as [[? _] | [[= ->] ->]]; [done |]. destruct Hok as (T & S & HE & Ht & Hj & HS).
    exists T, S. split_and!; [done | done | lia |]. intros x [|]%HS; [by left | right; lia].
  - injection Hr as ->. destruct Hok as (S & _ & <- & ? & _). done.
Qed.

Lemma ei_read n w G tid p rf g og :
  election_inv n w G -> threads w !! tid = Some (p, g) -> reads w p rf g og ->
  peers w !! p = Some rf \/ unlocked g og -> election_inv n (moved tid p og w) G.
Proof.
  intros Hi Ht Hr Hp. eapply election_threads; [done.. |].
  intros t q g' [(-> & -> & ->) | [_ ?]]%moved_lookup; [right | by left].
  split; [by eapply reads_work |]. intros E Hc. eapply reads_ok; [done | done |].
  by eapply ci_ok.
Qed.

Lemma no_work ths t g : request_of g = None -> loop_of g = None -> same_work ths t g.
Proof. intros. split; by left. Qed.

(** The loop of startElection starts the requester for one more peer. *)
Lemma ei_request n w G tid p rf e i args :
  names_used w -> election_inv n w G -> peer_wf n p rf ->
  threads w !! tid = Some (p, GElectLoop e i) -> peers w !! p = Some rf ->
  i < npeers rf -> i <> p -> election_args rf = Ok (args, rf) ->
  election_inv n (moved tid p (Some (GElectLoop e (i + 1))) (spawned p (GVoteCall e i args) w)) G.
Proof.
  intros Hn (E & Hv & Hc) Hwf Ht Hp Hi Hne Ha. exists E. split; [done |]. cbn.
  destruct (ci_ok _ _ _ _ _ _ _ Hc _ _ _ Ht) as (T & S & HE & HT & Hj & HS).
  destruct (election_args_Ok rf (wf_log_len _ (pw_log _ _ _ Hwf))) as (x & _ & Ha').
  rewrite Ha in Ha'. injection Ha' as ->. rewrite (pw_npeers _ _ _ Hwf) in Hi.
  assert (Hreq : requests n E p e i (mkRVArgs (CurrentTerm rf) (me rf) (len (Log rf) - 1) (Term x))).
  { exists S. cbn. rewrite (HT rf Hp), (pw_me _ _ _ Hwf). pose proof (vi_range _ _ _ Hv _ _ Hp).
    split_and!; [done | done | lia | | lia..]. intros [|]%HS; [done | lia]. }
  apply Hn in Ht as Hlt.
  assert (Hold : forall t q g, (<[tid := (p, GElectLoop e (i + 1))]> (<[fresh w := (p, GVoteCall e i
      (mkRVArgs (CurrentTerm rf) (me rf) (len (Log rf) - 1) (Term x)))]> (threads w))) !! t = Some (q, g) ->
    t = fresh w /\ q = p /\ g = GVoteCall e i (mkRVArgs (CurrentTerm rf) (me rf) (len (Log rf) - 1) (Term x)) \/
    t = tid /\ q = p /\ g = GElectLoop e (i + 1) \/
    t <> tid /\ t <> fresh w /\ threads w !! t = Some (q, g)).
  { intros t q g. rewrite !lookup_insert. repeat case_decide; naive_solver. }
  destruct Hc. split.
  - intros e' p' T' S' (? & ? & ?)%ci_counted0. split_and!; [lia | done | done].
  - intros t q g [(-> & -> & ->) | [(-> & -> & ->) | (_ & _ & Ht')]]%Hold; [done | | by eapply ci_ok0].
    exists T, S. split_and!; [done | done | lia |]. intros y [|]%HS; [by left | right; lia].
  - assert (Hnew : forall t q g, threads w !! t = Some (q, g) -> request_of g <> Some (e, i)).
    { intros t q g Ht' Hk. enough (i < i) by lia. by eapply (ci_behind0 t tid). }
    intros t t' q q' g g' k [(-> & -> & ->) | [(-> & -> & ->) | (? & ? & Ht1)]]%Hold
      [(-> & -> & ->) | [(-> & -> & ->) | (? & ? & Ht2)]]%Hold Hk Hk'; try done.
    + cbn in Hk. injection Hk as <-. by eapply Hnew in Ht2.
    + cbn in Hk'. injection Hk' as <-. by eapply Hnew in Ht1.
    + by eapply ci_request0.
  - intros t t' q q' g g' e' j j' [(-> & -> & ->) | [(-> & -> & ->) | (? & ? & Ht1)]]%Hold
      [(-> & -> & ->) | [(-> & -> & ->) | (? & ? & Ht2)]]%Hold Hk Hk'; try done.
    + cbn in Hk. injection Hk as <- <-. by eapply (ci_loop0 tid t').
    + cbn in Hk'. injection Hk' as <- <-. by eapply (ci_loop0 t tid).
    + by eapply ci_loop0.
  - intros t t' q q' g g' e' j j' [(-> & -> & ->) | [(-> & -> & ->) | (? & ? & Ht1)]]%Hold
      [(-> & -> & ->) | [(-> & -> & ->) | (? & ? & Ht2)]]%Hold Hk Hk'; try done.
    + cbn in Hk, Hk'. simplify_eq. lia.
    + cbn in Hk. injection Hk as <- <-. exfalso.
      enough (t' = tid) by done. by eapply (ci_loop0 t' tid _ _ _ _ e j' i Ht2 Ht).
    + cbn in Hk'. injection Hk' as <- <-. enough (j < i) by lia. by eapply (ci_behind0 t tid).
    + exact (ci_behind0 t t' _ _ _ _ e' j j' Ht1 Ht2 Hk Hk').
Qed.

Lemma elec_ok_elections n ps G E E' p g : E ⊆ E' -> elec_ok n ps G E p g -> elec_ok n ps G E' p g.
Proof.
  intros HE. assert (Hr : forall e i args, requests n E p e i args -> requests n E' p e i args).
  { intros e i args (S & H & ?). exists S. split; [| done]. by eapply lookup_weaken. }
  destruct g; cbn; try done; try naive_solver.
  intros (T & S & H & ?). exists T, S. split; [| done]. by eapply lookup_weaken.
Qed.

(** Whatever works for an election works for a known one. *)
Lemma work_known n ps G E p g e i :
  elec_ok n ps G E p g -> request_of g = Some (e, i) \/ loop_of g = Some (e, i) -> is_Some (E !! e).
Proof.
  intros Hok [H | H]; destruct g; try done; cbn in H; injection H as -> ->; cbn in Hok;
    unfold requests in Hok; naive_solver.
Qed.

(** A new election, alone with its candidate's vote. *)
Lemma ci_elect n ps ths els fr G E tid p T :
  counts_inv n ps ths els fr G E -> 0 <= p < n -> (p, T, p) ∈ G -> term_is ps p T ->
  counts_inv n ps (<[tid := (p, GElectLoop fr 0)]> ths) (<[fr := 1]> els) (S fr) G
    (<[fr := (p, T, {[p]})]> E).
Proof.
  intros Hc Hp HG HT.
  assert (Hfr : E !! fr = None).
  { destruct (E !! fr) as [[[q T'] S']|] eqn:HE; [| done].
    destruct (ci_counted _ _ _ _ _ _ _ Hc _ _ _ _ HE) as [? _]. lia. }
  assert (Hnone : forall t q g i, ths !! t = Some (q, g) ->
    request_of g = Some (fr, i) \/ loop_of g = Some (fr, i) -> False).
  { intros t q g i Ht Hk. apply (ci_ok _ _ _ _ _ _ _ Hc) in Ht.
    destruct (work_known _ _ _ _ _ _ _ _ Ht Hk). congruence. }
  destruct Hc. split.
  - intros e q T' S'. rewrite (lookup_insert E). case_decide as E0.
    + intros [= <- <- <-]. subst e. rewrite lookup_insert_eq, size_singleton.
      split; [lia |]. split; [done |]. by intros x ->%elem_of_singleton.
    + intros (? & ? & ?)%ci_counted0. rewrite lookup_insert_ne by done. split; [lia | done].
  - intros t q g. rewrite lookup_insert. case_decide.
    + intros [= <- <-]. exists T, {[p]}.
      split; [by apply lookup_insert_eq |]. split; [done |]. split; [lia |]. set_solver.
    + intros Ht. eapply elec_ok_elections; [by apply insert_subseteq | by eapply ci_ok0].
  - intros t t' q q' g g' k. rewrite !lookup_insert. repeat case_decide; intros; simplify_eq; try done.
    by eapply ci_request0.
  - intros t t' q q' g g' e j j'. rewrite !lookup_insert.
    repeat case_decide; intros H1 H2 Hk Hk'; simplify_eq; try done.
    + exfalso. cbn in Hk. injection Hk as <- <-. eapply Hnone; [exact H2 | by right].
    + exfalso. cbn in Hk'. injection Hk' as <- <-. eapply Hnone; [exact H1 | by right].
    + by eapply ci_loop0.
  - intros t t' q q' g g' e i j. rewrite !lookup_insert.
    repeat case_decide; intros H1 H2 Hk Hk'; simplify_eq; try done.
    + exfalso. cbn in Hk'. injection Hk' as <- <-. eapply Hnone; [exact H1 | by left].
    + exact (ci_behind0 t t' _ _ _ _ e i j H1 H2 Hk Hk').
Qed.

(** A granted vote is counted by the goroutine that asked for it, which ends. *)
Lemma ci_count n ps ths els fr G E tid p g e i T S :
  counts_inv n ps ths els fr G E -> ths !! tid = Some (p, g) -> request_of g = Some (e, i) ->
  E !! e = Some (p, T, S) -> i ∉ S -> 0 <= i < n -> (i, T, p) ∈ G ->
  counts_inv n ps (delete tid ths) (<[e := Z.of_nat (size S) + 1]> els) fr G
    (<[e := (p, T, {[i]} ∪ S)]> E).
Proof.
  intros [] Ht Hk HE Hi Hr HG. destruct (ci_counted0 _ _ _ _ HE) as (Hlt & Hels & HS).
  assert (Hdel : forall t x, delete tid ths !! t = Some x -> t <> tid /\ ths !! t = Some x).
  { intros t x. rewrite lookup_delete. by case_decide. }
  split.
  - intros e' q T' S'. rewrite (lookup_insert E). case_decide as E0.
    + intros [= <- <- <-]. subst e'. rewrite lookup_insert_eq. split; [done |].
      rewrite size_union, size_singleton by set_solver. split; [f_equal; lia |].
      intros x [->%elem_of_singleton | ?]%elem_of_union; auto.
    + intros (? & ? & ?)%ci_counted0. by rewrite lookup_insert_ne by done.
  - intros t q g' [Hne Ht']%Hdel. pose proof (ci_ok0 _ _ _ Ht') as Hok.
    assert (Hreq : forall e' i' args, request_of g' = Some (e', i') -> requests n E q e' i' args ->
      requests n (<[e := (p, T, {[i]} ∪ S)]> E) q e' i' args).
    { intros e' i' args Hk' (S0 & HE0 & ? & ? & ? & ?). unfold requests. rewrite (lookup_insert E).
      case_decide as E0; [| by exists S0]. subst e'. rewrite HE in HE0. injection HE0 as <- <- <-.
      exists ({[i]} ∪ S). split_and!; try done; try lia.
      rewrite elem_of_union, elem_of_singleton. intros [-> |]; [| done].
      apply Hne. exact (ci_request0 _ _ _ _ _ _ (e, i) Ht' Ht Hk' Hk). }
    destruct g'; cbn in Hok |- *; try done; try (by apply Hreq);
      try (destruct Hok as [? ?]; split; [by apply Hreq | done]).
    destruct Hok as (T0 & S0 & HE0 & ? & ? & HS0). rewrite (lookup_insert E).
    case_decide as E0; [| by exists T0, S0]. subst e0. rewrite HE in HE0. injection HE0 as <- <- <-.
    exists T, ({[i]} ∪ S). split_and!; try done.
    intros x [->%elem_of_singleton | ?]%elem_of_union; [right | by apply HS0].
    exact (ci_behind0 _ _ _ _ _ _ e i i0 Ht Ht' Hk eq_refl).
  - intros t t' q q' g1 g2 k [_ H1]%Hdel [_ H2]%Hdel.
    exact (ci_request0 t t' q q' g1 g2 k H1 H2).
  - intros t t' q q' g1 g2 e' j j' [_ H1]%Hdel [_ H2]%Hdel.
    exact (ci_loop0 t t' q q' g1 g2 e' j j' H1 H2).
  - intros t t' q q' g1 g2 e' j j' [_ H1]%Hdel [_ H2]%Hdel.
    exact (ci_behind0 t t' q q' g1 g2 e' j j' H1 H2).
Qed.

(** What isolation says about a goroutine that did not act. *)
Lemma isolated_term w w' p rf rf' t g :
  isolated w w' -> peers w !! p = Some rf -> peers w' !! p = Some rf' ->
  threads w !! t = Some (p, g) -> threads w' !! t = Some (p, g) -> window g = true ->
  CurrentTerm rf' = CurrentTerm rf.
Proof.
  intros Hiso Hp Hp' Ht Ht' Hw. pose proof (isolated_stand _ _ _ _ _ Hiso Ht Ht' Hw) as Hs.
  unfold stand in Hs. rewrite Hp, Hp' in Hs. cbn in Hs. congruence.
Qed.

Lemma ei_elect n w G tid p rf rf' :
  terms_fit w -> peer_wf n p rf -> election_inv n w G ->
  threads w !! tid = Some (p, GElect) -> peers w !! p = Some rf -> campaigning rf rf' ->
  let w' := moved tid p (Some (GElectLoop (fresh w) 0))
    (set_fresh (S (fresh w)) (set_elects (<[fresh w := 1]> (elects w)) (updated p rf' w))) in
  isolated w w' -> exists G', votes_grow w' G G' /\ election_inv n w' G'.
Proof.
  intros Hfit Hwf (E & Hv & Hc) Ht Hp Hcamp w' Hiso.
  destruct (vs_campaigning n (peers w) G p rf rf') as [Hvs HT];
    [done | done | apply Hwf | by eapply Hfit | apply Hwf | done |].
  exists (G ∪ {[(p, CurrentTerm rf', p)]}).
  split; [eapply votes_grow_step; [done | apply lookup_insert_eq] |].
  exists (<[fresh w := (p, CurrentTerm rf', {[p]})]> E). cbn. split; [by eapply votes_step |].
  assert (counts_inv n (<[p := rf']> (peers w)) (delete tid (threads w)) (elects w) (fresh w)
    (G ∪ {[(p, CurrentTerm rf', p)]}) E) as Hc'.
  { eapply ci_step; [done | apply Hvs | done |]. intros t q g. rewrite lookup_delete.
    case_decide; [done |]. intros Htq. split; [| by eapply same_work_refl].
    eapply elec_ok_update; [done | apply Hvs | | by eapply ci_ok]. intros -> Hw.
    eapply (isolated_term w w'); [done | done | apply lookup_insert_eq | done | | done].
    cbn. by rewrite lookup_insert_ne. }
  apply (ci_elect _ _ _ _ _ _ _ tid p (CurrentTerm rf')) in Hc'.
  - by rewrite insert_delete_eq in Hc'.
  - by eapply vi_range.
  - set_solver.
  - apply term_is_insert. by rewrite decide_True.
Qed.

(** A granted vote, counted; [rf'] is the server that won or did not yet. *)
Lemma ei_counted n w tid p rf rf' e i args reply og G E :
  votes_inv n (peers w) G -> counts_inv n (peers w) (threads w) (elects w) (fresh w) G E ->
  threads w !! tid = Some (p, GVoteHandle e i args reply) -> peers w !! p = Some rf ->
  rvr_VoteGranted reply = true ->
  (forall S, E !! e = Some (p, rv_Term args, S) -> i ∉ S ->
    (forall x, x ∈ {[i]} ∪ S -> 0 <= x < n /\ (x, rv_Term args, p) ∈ G) ->
    vote_step n G G p rf rf') ->
  (og = None \/ og = Some GHeart) ->
  forall nv, elects w !! e = Some nv ->
  let w' := moved tid p og (set_elects (<[e := nv + 1]> (elects w)) (updated p rf' w)) in
  isolated w w' -> election_inv n w' G.
Proof.
  intros Hv Hc Ht Hp Hg Hvs Hog nv Hnv w' Hiso.
  destruct (ci_ok _ _ _ _ _ _ _ Hc _ _ _ Ht) as ((S & HE & Hcand & Hp0 & Hi & Hr) & Hgr & HT).
  destruct (ci_counted _ _ _ _ _ _ _ Hc _ _ _ _ HE) as (_ & Hels & HS).
  specialize (Hgr Hg). rewrite Hcand in Hgr. rewrite Hnv in Hels. injection Hels as ->.
  assert (Hstep : vote_step n G G p rf rf').
  { apply (Hvs S HE Hi). intros x [->%elem_of_singleton | ?]%elem_of_union; auto. }
  exists (<[e := (p, rv_Term args, {[i]} ∪ S)]> E). cbn.
  split; [by eapply votes_step |].
  eapply ci_step; [by eapply (ci_count _ _ _ _ _ _ _ tid) | done | done |].
  intros t q g Hq. apply (moved_lookup tid p og w) in Hq as Hq'.
  destruct Hq' as [(-> & -> & Hgo) | [Hne Htq]].
  { destruct Hog as [-> | ->]; [done |]. injection Hgo as <-. by split; [| apply no_work]. }
  assert (Hd : delete tid (threads w) !! t = Some (q, g)) by by rewrite lookup_delete_ne.
  split; [| by eapply same_work_refl].
  eapply elec_ok_update; [done | done | |].
  - intros -> Hw. by eapply (isolated_term w w'); [| | apply lookup_insert_eq | | |].
  - eapply ci_ok; [| exact Hd]. by eapply (ci_count _ _ _ _ _ _ _ tid).
Qed.

Lemma ei_vote n w G tid p rf e i args reply nv nv' won_ rf' :
  peer_wf n p rf -> election_inv n w G ->
  threads w !! tid = Some (p, GVoteHandle e i args reply) -> peers w !! p = Some rf ->
  elects w !! e = Some nv -> vote_handle reply nv rf = Ok ((nv', won_), rf') ->
  let w' := moved tid p (if won_ : bool then Some GHeart else None)
    (set_elects (<[e := nv']> (elects w)) (updated p rf' w)) in
  isolated w w' -> election_inv n w' G.
Proof.
  intros Hwf (E & Hv & Hc) Ht Hp Hnv Hh w' Hiso.
  apply vote_handle_inv in Hh as (Hnv' & Hcase). destruct (rvr_VoteGranted reply) eqn:Hg.
  - subst nv'. eapply ei_counted; try done; [| by destruct won_; auto].
    intros S HE Hi HS. destruct Hcase as [((_ & Hs & Hm) & -> & Hwon) | (_ & _ & [(? & _) | (_ & ->)])];
      [| done | by eapply vs_unchanged].
    destruct (ci_ok _ _ _ _ _ _ _ Hc _ _ _ Ht) as (_ & _ & HT).
    destruct (ci_counted _ _ _ _ _ _ _ Hc _ _ _ _ HE) as (_ & Hels & _).
    destruct Hwon. split; rewrite ?won_term, ?won_vote; try done; [auto | by eapply vi_vote |].
    intros _. right. rewrite (HT _ Hp). exists ({[i]} ∪ S). split; [| done].
    rewrite size_union, size_singleton by set_solver. rewrite Hnv in Hels. injection Hels as ->.
    rewrite (pw_npeers _ _ _ Hwf) in Hm. lia.
  - subst nv'. destruct Hcase as [((? & _) & _) | (_ & -> & Hr)]; [congruence |].
    eapply (election_update n w _ G G E tid p None p rf rf'); try done.
    + destruct Hr as [(_ & ? & ->) | (_ & ->)]; [by eapply vs_stepped_down | by eapply vs_unchanged].
    + cbn. by apply insert_id.
Qed.

Lemma ei_crash n w G p rf rf' ts :
  election_inv n w G -> peers w !! p = Some rf -> survivors (threads w) ts -> restarted n p rf rf' ->
  election_inv n (set_fresh (S (fresh w))
    (set_threads (<[fresh w := (p, GApply)]> (kill_threads p ts))
      (set_applied (<[p := []]> (applied w)) (updated p rf' w)))) G.
Proof.
  intros (E & Hv & Hc) Hp Hsv Hr. exists E. cbn. destruct Hr.
  assert (Hvs : vote_step n G G p rf rf') by (eapply vs_keeps; [done | done | done | done | congruence]).
  clear rs_vote.
  split; [by eapply votes_step |]. eapply ci_step; [done | done | lia |].
  intros t q g. rewrite lookup_insert. case_decide; [by intros [= <- <-]; split; [| apply no_work] |].
  intros (g0 & Ht & [[Hne ->] | [-> Ho]])%(survivors_killed _ _ _ _ _ _ Hsv);
    pose proof (ci_ok _ _ _ _ _ _ _ Hc _ _ _ Ht) as Hok.
  - split; [| by eapply same_work_refl]. by eapply elec_ok_update.
  - destruct g0; cbn in Ho; try done; injection Ho as <-;
      (split; [| by apply no_work]); try exact Hok; try exact I.
    destruct Hok as (S & _ & <- & ? & _). done.
Qed.

Lemma election_inv_step n w w' G :
  terms_fit w -> local_inv n w -> apply_inv w -> isolated w w' ->
  election_inv n w G -> wstep w w' -> exists G', votes_grow w' G G' /\ election_inv n w' G'.
Proof.
  intros Hfit Hl Ha Hiso Hi Hs.
  assert (Hsame : forall w', election_inv n w' G -> exists G', votes_grow w' G G' /\ election_inv n w' G')
    by (intros w1 ?; exists G; split; [apply votes_grow_refl | done]).
  destruct Hs; [apply Hsame | apply Hsame | apply Hsame | apply Hsame | apply Hsame | apply Hsame | apply Hsame | apply Hsame | |
    apply Hsame | apply Hsame | apply Hsame | apply Hsame | apply Hsame | | apply Hsame].
  - done.
  - eapply election_threads; [done | done | done | cbn; lia |].
    intros t q g [(-> & -> & ->) | [_ ?]]%spawned_lookup; [right | by left].
    split; [by apply no_work | done].
  - eapply election_threads; [done | done | done | cbn; lia |].
    intros t q g1 [(-> & -> & ->) | [_ ?]]%spawned_lookup; [right | by left].
    destruct H0 as [-> | ->]; (split; [by apply no_work | done]).
  - by eapply ei_read.
  - destruct Hi as (E & Hv & Hc).
    eapply (election_update n w _ G G E tid p _ p rf); [done | done | done | | done | reflexivity | reflexivity | done | done |].
    + destruct H1. eapply vs_unchanged; [done | done | done | done | congruence].
    + intros g [= <-]. split; [done | by apply no_work].
  - apply spawn_all_inv in H2 as []. cbn in *.
    eapply election_threads; [done | done | done | lia |].
    intros t q g [Ht | (_ & -> & i & _ & _ & ->)]%sa_threads.
    + rewrite lookup_delete in Ht. case_decide; [done | by left].
    + right. split; [by apply no_work | done].
  - destruct Hi as (E & Hv & Hc).
    eapply (election_update n w _ G G E tid p _ p rf); [done | done | done | | done | reflexivity | reflexivity | done | done |].
    + destruct H1. eapply vs_unchanged; [done | done | done | done | congruence].
    + intros g [= <-]. split; [done | by apply no_work].
  - destruct Hi as (E & Hv & Hc).
    pose proof (ci_ok _ _ _ _ _ _ _ Hc _ _ _ H) as HT. cbn in HT.
    eapply (election_update n w _ G G E tid p _ p rf); [done | done | done | | done | reflexivity | reflexivity | done | done |].
    + by eapply sender_handle_vote; [done | done | apply HT | done].
    + by destruct r; intros g [= <-]; (split; [done | by apply no_work]).
  - eapply ei_elect; try done. by eapply li_peers.
  - eapply ei_request; try done; [apply Ha | by eapply li_peers].
  - eapply ei_vote; try done. by eapply li_peers.
  - apply apply_one_inv in H2 as (-> & _). destruct Hi as (E & Hv & Hc).
    eapply (election_update n w _ G G E tid p _ p rf); [done | done | done | | done | reflexivity | reflexivity | done | done |].
    + by eapply vs_unchanged.
    + intros g [= <-]. split; [done | by apply no_work].
  - eapply election_threads; [done | done | done | done |].
    intros t q g [(-> & -> & [= <-]) | [_ ?]]%moved_lookup; [right | by left].
    split; [by apply no_work | done].
  - destruct Hi as (E & Hv & Hc). pose proof (li_threads _ _ Hl _ _ _ H) as Hg.
    eapply (election_update n w _ G G E tid p _ i rf); [done | done | done | | done | reflexivity | reflexivity | done | done |].
    + eapply vs_AppendEntries; [done | done | | done].
      destruct H0 as [(b & next & -> & _) | [-> _]]; apply Hg.
    + destruct H0 as [(b & next & -> & ->) | [-> ->]]; [| done].
      intros g [= <-]. split; [done | by apply no_work].
  - destruct Hi as (E & Hv & Hc). pose proof (ci_ok _ _ _ _ _ _ _ Hc _ _ _ H) as Hok.
    destruct (vs_RequestVote n (peers w) G i rf t1 args reply rf') as (G' & Hvs & Hgr); try done.
    { by eapply wf_log_len, pw_log, li_peers. }
    { destruct H0 as [(e & -> & _) | [-> _]]; [| done]. destruct Hok as (S & _ & -> & ? & _). done. }
    exists G'. split; [eapply votes_grow_step; [done | apply lookup_insert_eq] |].
    eapply (election_update n w _ G G' E tid p _ i rf); [done | done | done | done | done | reflexivity | reflexivity | done | done |].
    destruct H0 as [(e & -> & ->) | [-> ->]]; [| done]. intros g [= <-]. split; [by split |].
    split; [| by left]. right. by exists p, (GVoteCall e i args).
  - destruct (crash_restarts _ _ _ _ _ _ _ _ _ Hl H H0 H1) as [Hsv Hr]. by eapply ei_crash.
Qed.

Lemma one_leader n w G p q T :
  election_inv n w G -> leads w p T -> leads w q T -> p = q.
Proof.
  intros (E & Hv & _) (rf & Hp & Hs & <-) (rf' & Hq & Hs' & HT).
  pose proof (vi_range _ _ _ Hv _ _ Hp).
  eapply quorum_unique; [| done | by eapply vi_leader |]; [lia |].
  rewrite <- HT. by eapply vi_leader.
Qed.

Lemma won_by_leader n w G p q T : election_inv n w G -> W T p -> leads w q T -> p = q.
Proof.
  intros (E & Hv & _) HW (rf' & Hq & Hs' & <-). pose proof (vi_range _ _ _ Hv _ _ Hq).
  eapply quorum_unique; [| done | by eapply vi_won | by eapply vi_leader]. lia.
Qed.

End elections.

(** Terms won are recorded as they are won. *)
Lemma election_inv_won (W W' : Z -> Z -> Prop) n w G :
  election_inv W n w G -> (forall T p, W' T p -> W T p \/ leads w p T) -> election_inv W' n w G.
Proof.
  intros (E & Hv & Hc) HW. exists E. split; [| done]. destruct Hv. split; try done.
  intros T p [? | (rf & ? & ? & <-)]%HW; auto.
Qed.

Lemma election_inv_initial n tm : election_inv (fun _ _ => False) n (initial n tm) ∅.
Proof.
  assert (Hg : forall t q g, threads (initial n tm) !! t = Some (q, g) -> g = GApply)
    by by intros t q g (_ & _ & ?)%initial_threads.
  exists ∅. split.
  - split; try set_solver.
    + by intros p rf [? _]%initial_peers.
    + by intros q rf [_ ->]%initial_peers.
    + by intros p rf [_ ->]%initial_peers.
  - split.
    + done.
    + by intros t p g ->%Hg.
    + by intros t t' p p' g g' k ->%Hg _.
    + by intros t t' p p' g g' e j j' ->%Hg _.
    + by intros t t' p p' g g' e i j ->%Hg _.
Qed.

Lemma ireachable_election_inv n w : ireachable n w -> exists G, election_inv (fun _ _ => False) n w G.
Proof.
  apply (ireachable_ind_inv n (fun w => exists G, election_inv (fun _ _ => False) n w G)).
  - intros tm. exists ∅. apply election_inv_initial.
  - intros w1 w2 Hf Hl Ha Hiso [G Hi] Hs.
    destruct (election_inv_step _ n w1 w2 G Hf Hl Ha Hiso Hi Hs) as (G' & _ & ?). by exists G'.
Qed.

(** ** Property *)

(** C3: Election Safety.  In every reachable world of an execution in which no
    server changes its term or role while one of its own goroutines is between
    a check and the section relying on it, at most one server is the leader of
    any given term, whatever is lost, delayed, reordered or crashed. *)
Theorem election_safety n w p q T :
  ireachable n w -> leads w p T -> leads w q T -> p = q.
Proof. intros [G Hi]%ireachable_election_inv. by eapply one_leader. Qed.

(** Server 0 wins term 1; server 1, which has not heard of it, wins term 2. *)
Definition two_elections : list Event := campaign 0 3 ++ answered 5 ++ campaign 1 7 ++ answered 10.

Lemma election_safety_witness :
  exists w, ireachable 3 w /\ leads w 0 1 /\ leads w 1 2 /\ forall q, leads w q 2 -> q = 1.
Proof.
  destruct (irun two_elections (initial 3 t0)) as [w|] eqn:E; [| by vm_compute in E].
  pose proof (irun_ireachable 3 t0 two_elections w E) as Hr.
  assert (H0 : leads w 0 1).
  { vm_compute in E. injection E as <-. eexists. split; [reflexivity | done]. }
  assert (H1 : leads w 1 2).
  { vm_compute in E. injection E as <-. eexists. split; [reflexivity | done]. }
  exists w. split; [exact Hr |]. split; [exact H0 |]. split; [exact H1 |].
  intros q Hq. exact (election_safety 3 w q 1 2 Hr Hq H1).
Defined.
