(* ===== verification/RaftLogs.v ===== *)
(** * Log Matching

    In the isolated executions of RaftElection, two logs that hold entries of
    the same term at the same index agree on everything up to that index.  The
    proof keeps a ledger: for every term that was won, the winner and the
    longest log it had as the leader of that term. *)

From S2P Require Import Prelude LabGob Persister Raft RaftRPC RaftNode RaftSystem RaftSteps RaftRaces RaftLocal RaftApply RaftElection.

Definition ledger := gmap Z (Z * list LogEntry).

(** Every entry of [log] sits where the leader of its term put it. *)
Definition log_ok (L : ledger) (log : list LogEntry) : Prop :=
  wf_log log /\
  forall k x, log !! k = Some x -> 0 < Term x ->
    exists p l, L !! Term x = Some (p, l) /\ take (S k) log = take (S k) l.

(** A request quotes the log of the leader of its term. *)
Definition msg_ok (L : ledger) (args : AppendEntriesArgs) : Prop :=
  exists p l, L !! ae_Term args = Some (p, l) /\ 0 <= ae_PrevLogIndex args /\
    Term <$> l !! Z.to_nat (ae_PrevLogIndex args) = Some (ae_PrevLogTerm args) /\
    ae_Entries args = take (length (ae_Entries args)) (drop (Z.to_nat (ae_PrevLogIndex args + 1)) l).

Definition extends (L L' : ledger) : Prop :=
  forall T p l, L !! T = Some (p, l) -> exists k, L' !! T = Some (p, l ++ k).

#[export] Instance extends_preorder : PreOrder extends.
Proof.
  split.
  - intros L T p l H. exists []. by rewrite app_nil_r.
  - intros x y z H1 H2 T p l (k & Hk)%H1. apply H2 in Hk as (k' & Hk').
    exists (k ++ k'). by rewrite app_assoc.
Qed.

Lemma log_ok_extends L L' log : extends L L' -> log_ok L log -> log_ok L' log.
Proof.
  intros He [Hw H]. split; [done |]. intros k x Hk Ht.
  destruct (H k x Hk Ht) as (p & l & HL & Heq). destruct (He _ _ _ HL) as (l' & HL').
  exists p, (l ++ l'). split; [done |]. rewrite Heq. rewrite take_app_le; [done |].
  apply lookup_lt_Some in Hk. pose proof (f_equal length Heq) as Hl. rewrite !length_take in Hl. lia.
Qed.

Lemma msg_ok_extends L L' args : extends L L' -> msg_ok L args -> msg_ok L' args.
Proof.
  intros He (p & l & HL & Hp & Ht & Hes). destruct (He _ _ _ HL) as (k & HL').
  exists p, (l ++ k). split; [done |]. split; [done |].
  destruct (l !! Z.to_nat (ae_PrevLogIndex args)) as [x|] eqn:Hx; [| done].
  apply lookup_lt_Some in Hx as Hlt. split; [by rewrite (lookup_app_l_Some _ _ _ _ Hx) |].
  rewrite drop_app_le by lia. rewrite take_app_le; [done |].
  pose proof (f_equal length Hes) as Hl. rewrite length_take in Hl. lia.
Qed.

(** A prefix of a leader's log. *)
Lemma log_ok_take L log n : log_ok L log -> (0 < n)%nat -> log_ok L (take n log).
Proof.
  intros [Hw H] Hn. split.
  - rewrite <- (app_nil_r (take n log)). by apply wf_log_take_app.
  - intros k x [Hk Hlt]%lookup_take_Some Ht. destruct (H k x Hk Ht) as (p & l & HL & Heq).
    exists p, l. split; [done |]. rewrite take_take, <- Heq. f_equal. lia.
Qed.

Lemma log_ok_snoc L p log e :
  log_ok L log -> 0 < Term e -> L !! Term e = Some (p, log ++ [e]) -> log_ok L (log ++ [e]).
Proof.
  intros [Hw H] Ht HL. split; [auto with go |]. intros k x Hk Hx.
  apply lookup_app_Some in Hk as [Hk | [Hlen Hk]].
  - destruct (H k x Hk Hx) as (q & l & HL' & Heq). exists q, l. split; [done |].
    rewrite take_app_le; [done |]. apply lookup_lt_Some in Hk. lia.
  - apply list_lookup_singleton_Some in Hk as [? <-]. by exists p, (log ++ [e]).
Qed.

(** Two logs of one ledger match. *)
Lemma log_ok_matching L log log' : log_ok L log -> log_ok L log' -> log_matching log log'.
Proof.
  intros [Hw H] [Hw' H'] n x y Hx Hy Ht. destruct (decide (n = 0%nat)) as [-> | Hn].
  { destruct Hw as (l & -> & _), Hw' as (l' & -> & _). done. }
  pose proof (wf_log_pos _ n x Hw Hx Hn) as Hpos.
  destruct (H n x Hx Hpos) as (p & l & HL & ->).
  destruct (H' n y Hy) as (q & l' & HL' & ->); [lia |]. rewrite <- Ht, HL in HL'. by simplify_eq.
Qed.

(** The log after an accepted request is the old one, or a prefix of the
    leader's. *)
Lemma log_ok_merged L log args :
  log_ok L log -> msg_ok L args -> (forall T p l, L !! T = Some (p, l) -> log_ok L l) ->
  prev_matches log args -> log_ok L (merged log args).
Proof.
  intros Hlog (p & l & HL & Hp & Ht & Hes) HLs Hm. unfold merged. case_decide; [done |].
  unfold prev_matches in Hm.
  destruct (l !! Z.to_nat (ae_PrevLogIndex args)) as [x|] eqn:Hx; [| done].
  destruct (log !! Z.to_nat (ae_PrevLogIndex args)) as [y|] eqn:Hy; [| done].
  cbn in Ht, Hm. pose proof (HLs _ _ _ HL) as Hl.
  assert (Heq : take (Z.to_nat (ae_PrevLogIndex args + 1)) log = take (Z.to_nat (ae_PrevLogIndex args + 1)) l).
  { replace (Z.to_nat (ae_PrevLogIndex args + 1)) with (S (Z.to_nat (ae_PrevLogIndex args))) by lia.
    eapply (log_ok_matching L); [done | done | exact Hy | exact Hx | congruence]. }
  rewrite Heq, Hes, take_take_drop. apply log_ok_take; [done | lia].
Qed.

(** The entries of a request that still shares the leader's log do not change. *)
Lemma aliased_same L args p l j next :
  L !! ae_Term args = Some (p, l) -> msg_ok L args -> next = ae_PrevLogIndex args + 1 ->
  aliased j next l args = args.
Proof.
  intros HL (p' & l' & HL' & Hp & _ & Hes) ->. rewrite HL in HL'. injection HL' as <- <-.
  unfold aliased. destruct (l !! _) as [x|] eqn:Hx; [| done].
  unfold set_Entries. assert (<[j := x]> (ae_Entries args) = ae_Entries args) as ->; [| by destruct args].
  destruct (decide (j < length (ae_Entries args))%nat) as [Hj | Hj].
  - apply list_insert_id. rewrite Hes, lookup_take_lt, lookup_drop by done. done.
  - apply list_insert_ge. lia.
Qed.

(** ** The invariant *)

Definition leading (ps : gmap Z Raft) (p : Z) (P : Raft -> Prop) : Prop :=
  forall rf, ps !! p = Some rf -> state rf = Leader /\ P rf.

Definition logs_thread (ps : gmap Z Raft) (bs : gmap nat Bcast) (L : ledger) (p : Z) (g : Goroutine) : Prop :=
  match g with
  | GStartAppend _ | GSendTerm _ _ => leading ps p (fun _ => True)
  | GSendArgs b i =>
      exists bc, bs !! b = Some bc /\ leading ps p (fun rf => CurrentTerm rf = b_term bc)
  | GSendEnc b i next args =>
      leading ps p (fun rf => CurrentTerm rf = ae_Term args) /\ msg_ok L args /\
      next = ae_PrevLogIndex args + 1
  | GSendCall _ _ _ args | GSendRet _ _ _ args _ | GSendCheck _ _ _ args _
  | GSendHandle _ _ _ args _ | GOrphanAE _ args => msg_ok L args
  | _ => True
  end.

Definition won_in (L : ledger) (T p : Z) : Prop := exists l, L !! T = Some (p, l).

Record ledger_inv (n : Z) (w : World) (G : votes) (L : ledger) : Prop := {
  lg_elections : election_inv (won_in L) n w G;
  lg_leader : forall p rf, peers w !! p = Some rf -> state rf = Leader ->
    L !! CurrentTerm rf = Some (p, Log rf);
  lg_owner : forall T p l, L !! T = Some (p, l) -> log_ok L l /\ exists rf, peers w !! p = Some rf /\
    T <= CurrentTerm rf /\ (CurrentTerm rf = T -> state rf <> Candidate);
  lg_peers : forall p rf, peers w !! p = Some rf -> log_ok L (Log rf);
  lg_threads : forall t p g, threads w !! t = Some (p, g) ->
    logs_thread (peers w) (bcasts w) L p g;
}.

(** The terms of the broadcasts stay. *)
Definition same_terms (bs bs' : gmap nat Bcast) : Prop :=
  forall b bc, bs !! b = Some bc -> exists bc', bs' !! b = Some bc' /\ b_term bc' = b_term bc.

Lemma same_terms_insert bs b bc bc' :
  bs !! b = Some bc -> b_term bc' = b_term bc -> same_terms bs (<[b := bc']> bs).
Proof.
  intros Hb Ht b0 bc0 Hb0. rewrite lookup_insert. case_decide; [| by exists bc0].
  subst. exists bc'. split; [done | congruence].
Qed.

Lemma leading_insert ps q rf rf' p (P : Raft -> Prop) :
  ps !! q = Some rf ->
  (p = q -> (CurrentTerm rf', state rf') = (CurrentTerm rf, state rf)) ->
  (forall rf rf', CurrentTerm rf' = CurrentTerm rf -> P rf -> P rf') ->
  leading ps p P -> leading (<[q := rf']> ps) p P.
Proof.
  intros Hq Hst HP Hl rf1. rewrite lookup_insert. case_decide; [| apply Hl].
  intros [= <-]. subst p. destruct (Hl _ Hq) as [Hs HP0]. injection (Hst eq_refl) as HT Hs'.
  split; [congruence | by eapply HP].
Qed.

Lemma logs_thread_update ps bs bs' L L' q rf rf' p g :
  ps !! q = Some rf -> extends L L' -> same_terms bs bs' ->
  (p = q -> window g = true -> (CurrentTerm rf', state rf') = (CurrentTerm rf, state rf)) ->
  logs_thread ps bs L p g -> logs_thread (<[q := rf']> ps) bs' L' p g.
Proof.
  intros Hq He Hb Hst. destruct g; cbn; try done; try by apply msg_ok_extends.
  - eapply leading_insert; [done | auto | done].
  - eapply leading_insert; [done | auto | done].
  - intros (bc & Hbc & Hl). destruct (Hb _ _ Hbc) as (bc' & Hbc' & Ht). exists bc'.
    split; [done |]. rewrite Ht. eapply leading_insert; [done | auto | congruence | done].
  - intros (Hl & Hm & ->). split_and!; [| by eapply msg_ok_extends | done].
    eapply leading_insert; [done | auto | congruence | done].
Qed.

Lemma logs_thread_same ps bs bs' L p g :
  same_terms bs bs' -> logs_thread ps bs L p g -> logs_thread ps bs' L p g.
Proof.
  intros Hb. destruct g; cbn; try done. intros (bc & Hbc & Hl).
  destruct (Hb _ _ Hbc) as (bc' & Hbc' & Ht). exists bc'. split; [done |]. by rewrite Ht.
Qed.

(** The ledger of the next world [w']: it grows with the leaders there. *)
Definition ledger_grow (w' : World) (L L' : ledger) : Prop :=
  extends L L' /\ forall T p l, L' !! T = Some (p, l) -> L !! T = Some (p, l) \/
    exists rf, peers w' !! p = Some rf /\ state rf = Leader /\ T = CurrentTerm rf /\ l = Log rf.

Lemma ledger_grow_refl w' L : ledger_grow w' L L.
Proof. split; [done | by left]. Qed.

(** The votes before and after a step. *)
Section steps.
Context {G G' : votes}.

(** Steps that leave the servers alone. *)
Lemma lg_threads_step n w w' L :
  ledger_inv n w G L -> election_inv (won_in L) n w' G' -> peers w' = peers w ->
  same_terms (bcasts w) (bcasts w') ->
  (forall t p g, threads w' !! t = Some (p, g) -> threads w !! t = Some (p, g) \/
    logs_thread (peers w) (bcasts w') L p g) ->
  ledger_inv n w' G' L.
Proof.
  intros [] He Hp Hb Hth. split; rewrite ?Hp; try done.
  intros t p g [?%lg_threads0 | ?]%Hth; [by eapply logs_thread_same | done].
Qed.

(** Steps of goroutine [tid] that change server [q]. *)
Lemma lg_step n w w1 L L' tid p og q rf rf' :
  ledger_inv n w G L -> extends L L' -> peers w !! q = Some rf ->
  isolated w (moved tid p og w1) ->
  threads w1 = threads w -> peers w1 = <[q := rf']> (peers w) ->
  same_terms (bcasts w) (bcasts w1) ->
  election_inv (won_in L) n (moved tid p og w1) G' ->
  log_ok L' (Log rf') -> CurrentTerm rf <= CurrentTerm rf' ->
  (CurrentTerm rf' = CurrentTerm rf -> state rf' = Candidate -> state rf = Candidate) ->
  (state rf' = Leader -> L' !! CurrentTerm rf' = Some (q, Log rf')) ->
  (forall T p l, L' !! T = Some (p, l) -> L !! T = Some (p, l) \/
     (T = CurrentTerm rf' /\ p = q /\ l = Log rf' /\ state rf' = Leader)) ->
  (forall g, og = Some g -> logs_thread (peers w1) (bcasts w1) L' p g) ->
  ledger_inv n (moved tid p og w1) G' L'.
Proof.
  intros [] Hext Hq Hiso Hth Hps Hbs He Hlog HT Hcand Hlead Hnew Hog.
  split; cbn [peers bcasts moved set_threads]; rewrite ?Hps.
  - eapply election_inv_won; [done |]. intros T q' [l [HL | (-> & -> & _ & Hs)]%Hnew].
    + left. by exists l.
    + right. exists rf'. cbn. rewrite Hps, lookup_insert_eq. done.
  - intros q' rf1. rewrite lookup_insert. case_decide; [intros [= <-]; subst; auto |].
    intros Hq' Hs. pose proof (lg_leader0 _ _ Hq' Hs) as HL. destruct (Hext _ _ _ HL) as (k & HL').
    destruct (Hnew _ _ _ HL') as [HL'' | (_ & ? & _)]; [| congruence]. congruence.
  - intros T q' l [HL | (-> & -> & -> & Hs)]%Hnew.
    + destruct (lg_owner0 _ _ _ HL) as (Hl & rf1 & Hq' & HT1 & Hc1).
      split; [by eapply log_ok_extends |]. rewrite lookup_insert. case_decide; [| by exists rf1].
      subst q'. rewrite Hq in Hq'. injection Hq' as <-. exists rf'.
      split; [done |]. split; [lia |]. intros HT' Hcd. apply Hc1; [lia |]. apply Hcand; [lia | done].
    + split; [done |]. exists rf'. rewrite lookup_insert_eq. split; [done |]. split; [lia |]. by rewrite Hs.
  - intros q' rf1. rewrite lookup_insert. case_decide; [by intros [= <-] |].
    intros ?%lg_peers0. by eapply log_ok_extends.
  - intros t q' g Ht. apply moved_lookup in Ht as Ht'. destruct Ht' as [(-> & -> & ->) | [Hne Ht']].
    { rewrite <- Hps. auto. }
    rewrite Hth in Ht'. eapply logs_thread_update; [done | done | done | | by eapply lg_threads0].
    intros -> Hw. pose proof (isolated_stand _ _ _ _ _ Hiso Ht' Ht Hw) as Hst.
    unfold stand in Hst. cbn [peers moved set_threads] in Hst.
    rewrite Hps, lookup_insert_eq, Hq in Hst. cbn in Hst. congruence.
Qed.

(** A server that leads as before, or campaigns anew, or follows. *)
Definition follows (rf rf' : Raft) : Prop :=
  CurrentTerm rf <= CurrentTerm rf' /\
  (state rf' = Follower \/ (state rf' = Candidate /\ CurrentTerm rf < CurrentTerm rf') \/
   (state rf' = state rf /\ CurrentTerm rf' = CurrentTerm rf /\ Log rf' = Log rf)).

Lemma follows_unchanged rf rf' :
  CurrentTerm rf' = CurrentTerm rf -> state rf' = state rf -> Log rf' = Log rf -> follows rf rf'.
Proof. intros HT Hs Hl. split; [lia |]. right. right. done. Qed.

Lemma follows_stepped_down rf T : CurrentTerm rf <= T -> follows rf (stepped_down T rf).
Proof. intros HT. unfold follows, stepped_down. raft_fields. split; [done | by left]. Qed.

Lemma follows_adopted t T rf : CurrentTerm rf <= T -> follows rf (adopted t T rf).
Proof.
  intros HT. unfold follows. rewrite adopted_Log, adopted_CurrentTerm, adopted_state by done.
  split; [done |]. case_decide; [by left | right; right]. split_and!; [done | lia | done].
Qed.

(** Steps that keep the ledger. *)
Lemma lg_keep n w w1 L tid p og q rf rf' :
  ledger_inv n w G L -> peers w !! q = Some rf -> isolated w (moved tid p og w1) ->
  threads w1 = threads w -> peers w1 = <[q := rf']> (peers w) ->
  same_terms (bcasts w) (bcasts w1) ->
  election_inv (won_in L) n (moved tid p og w1) G' ->
  log_ok L (Log rf') -> follows rf rf' ->
  (forall g, og = Some g -> logs_thread (peers w1) (bcasts w1) L p g) ->
  ledger_inv n (moved tid p og w1) G' L.
Proof.
  intros Hi Hq Hiso Hth Hps Hbs He Hlog [HT Hst] Hog.
  eapply lg_step; try done; [| | by left].
  - intros HT' Hc. destruct Hst as [? | [[_ ?] | [<- _]]]; [congruence | lia | done].
  - intros Hs. destruct Hst as [? | [[? _] | (Hs0 & -> & ->)]]; [congruence.. |].
    eapply lg_leader; [done.. | congruence].
Qed.

(** ** The steps *)

Lemma leading_intro ps p rf (P : Raft -> Prop) :
  ps !! p = Some rf -> state rf = Leader -> P rf -> leading ps p P.
Proof. intros Hp Hs HP rf' Hp'. rewrite Hp in Hp'. by injection Hp' as <-. Qed.

(** The request a leader builds quotes its log. *)
Lemma sender_args_msg L p i bc rf next args :
  L !! CurrentTerm rf = Some (p, Log rf) -> CurrentTerm rf = b_term bc ->
  sender_args i bc rf = Ok ((next, args), rf) ->
  msg_ok L args /\ next = ae_PrevLogIndex args + 1 /\ ae_Term args = CurrentTerm rf.
Proof.
  intros HL HT H. apply sender_args_inv in H as (_ & _ & x & Hx & Hlen & ->). cbn.
  apply idx_Ok in Hx as [Hn Hx]. split; [| split; [lia | done]].
  exists p, (Log rf). cbn. rewrite <- HT. split; [done |]. split; [done |]. split; [by rewrite Hx |].
  replace (next - 1 + 1) with next by lia. unfold entries_between.
  rewrite length_take. symmetry. destruct (decide (Z.to_nat (b_index bc + 1 - next)
    <= length (drop (Z.to_nat next) (Log rf)))%nat).
  - f_equal. lia.
  - rewrite !take_ge; [done | lia | lia].
Qed.

Lemma lg_read n w tid p rf g og L :
  ledger_inv n w G L -> threads w !! tid = Some (p, g) -> reads w p rf g og ->
  peers w !! p = Some rf \/ unlocked g og -> election_inv (won_in L) n (moved tid p og w) G' ->
  ledger_inv n (moved tid p og w) G' L.
Proof.
  intros Hi Ht Hr Hp He. eapply lg_threads_step; [done | done | done | |].
  { intros b bc Hb. by exists bc. }
  intros t q g' [(-> & -> & ->) | [_ ?]]%moved_lookup; [right | by left].
  pose proof (lg_threads _ _ _ _ Hi _ _ _ Ht) as Hg. cbn [bcasts moved set_threads].
  destruct g; cbn in Hr, Hg; try done;
    try (destruct Hr as [[[= ->] ?] | [=]]; exact Hg || exact I);
    try (destruct Hr as [[= ->] | [=]]; exact Hg || exact I);
    try (injection Hr as ->; exact Hg || exact I);
    try (naive_solver).
  - destruct Hr as [[[= ->] Hs] | [=]]. destruct Hp as [Hp | []]. by eapply leading_intro.
  - destruct Hr as (bc & Hb & [[[= ->] HT] | [=]]). destruct Hp as [Hp | []].
    exists bc. split; [done |]. eapply leading_intro; [done | by apply Hg | done].
  - destruct Hr as (bc & next & args & Hb & Ha & [= ->]). destruct Hp as [Hp | []].
    destruct Hg as (bc' & Hb' & Hl). rewrite Hb in Hb'. injection Hb' as <-.
    destruct (Hl _ Hp) as [Hs HT].
    destruct (sender_args_msg L p i bc rf next args) as (Hm & Hn & HT'); [by eapply lg_leader | done | done |].
    split_and!; [| done | done]. by eapply leading_intro.
  - destruct Hg as (Hl & Hm & Hn). destruct Hr as [[= ->] | [j [= ->]]]; [done |].
    destruct Hp as [Hp | [=]]. destruct (Hl _ Hp) as [Hs HT].
    rewrite (aliased_same L args p (Log rf)); [by split | | done | done].
    rewrite <- HT. by eapply lg_leader.
Qed.

Lemma lg_append n w tid p rf rf' cmd L :
  local_inv n w -> ledger_inv n w G L -> threads w !! tid = Some (p, GStartAppend cmd) ->
  peers w !! p = Some rf -> started cmd rf rf' ->
  let w' := moved tid p (Some (GStartSpawn (len (Log rf)))) (updated p rf' w) in
  isolated w w' -> election_inv (won_in L) n w' G' -> exists L', ledger_grow w' L L' /\ ledger_inv n w' G' L'.
Proof.
  intros Hl Hi Ht Hp [] w' Hiso He.
  destruct (lg_threads _ _ _ _ Hi _ _ _ Ht rf Hp) as [Hs _].
  pose proof (lg_leader _ _ _ _ Hi _ _ Hp Hs) as HL.
  set (L' := <[CurrentTerm rf := (p, Log rf')]> L).
  assert (Hext : extends L L').
  { intros T q l HT. unfold L'. rewrite (lookup_insert L). case_decide as E.
    - subst T. rewrite HL in HT. injection HT as <- <-. eexists. by rewrite sd_log.
    - exists []. by rewrite app_nil_r. }
  assert (HL' : L' !! CurrentTerm rf' = Some (p, Log rf')).
  { rewrite sd_term. apply lookup_insert_eq. }
  assert (1 <= CurrentTerm rf).
  { apply (pw_active n p); [by eapply li_peers | by rewrite Hs]. }
  assert (Hnew : forall T q l, L' !! T = Some (q, l) -> L !! T = Some (q, l) \/
     (T = CurrentTerm rf' /\ q = p /\ l = Log rf' /\ state rf' = Leader)).
  { intros T q l. unfold L'. rewrite (lookup_insert L). case_decide; [| by left].
    intros [= <- <-]. right. split; [congruence |]. split; [done |]. split; [done | congruence]. }
  exists L'. split.
  { split; [done |]. intros T q l [? | (-> & -> & -> & ?)]%Hnew; [by left |]. right.
    exists rf'. cbn. by rewrite lookup_insert_eq. }
  eapply (lg_step n w _ L L' tid p _ p rf rf'); try done.
  - intros b bc Hb. by exists bc.
  - rewrite sd_log. eapply log_ok_snoc; [eapply log_ok_extends; [done | by eapply lg_peers] | cbn; lia |].
    cbn [Term]. rewrite <- sd_log. apply lookup_insert_eq.
  - lia.
  - congruence.
  - by intros g [= <-].
Qed.

Lemma lg_won n w tid p rf rf' e i args reply nv L :
  ledger_inv n w G L -> threads w !! tid = Some (p, GVoteHandle e i args reply) ->
  peers w !! p = Some rf -> state rf = Candidate -> won rf rf' ->
  let w' := moved tid p (Some GHeart) (set_elects (<[e := nv]> (elects w)) (updated p rf' w)) in
  isolated w w' -> election_inv (won_in L) n w' G' -> exists L', ledger_grow w' L L' /\ ledger_inv n w' G' L'.
Proof.
  intros Hi Ht Hp Hs [] w' Hiso He.
  assert (HN : L !! CurrentTerm rf = None).
  { destruct (L !! CurrentTerm rf) as [[q l]|] eqn:HL; [| done].
    assert (q = p) as ->.
    { eapply (won_by_leader (won_in L) n w' G' q p (CurrentTerm rf)); [done | by exists l |].
      exists rf'. cbn. by rewrite lookup_insert_eq. }
    destruct (lg_owner _ _ _ _ Hi _ _ _ HL) as (_ & rf1 & Hp1 & _ & Hc).
    rewrite Hp in Hp1. injection Hp1 as <-. by destruct (Hc eq_refl). }
  set (L' := <[CurrentTerm rf := (p, Log rf)]> L).
  assert (Hext : extends L L').
  { intros T q l HT. exists []. rewrite app_nil_r. unfold L'.
    rewrite (lookup_insert_ne L); [done | congruence]. }
  assert (Hnew : forall T q l, L' !! T = Some (q, l) -> L !! T = Some (q, l) \/
     (T = CurrentTerm rf' /\ q = p /\ l = Log rf' /\ state rf' = Leader)).
  { intros T q l. unfold L'. rewrite (lookup_insert L). case_decide; [| by left].
    intros [= <- <-]. right. split; [congruence |]. split; [done |]. split; [congruence | done]. }
  exists L'. split.
  { split; [done |]. intros T q l [? | (-> & -> & -> & ?)]%Hnew; [by left |]. right.
    exists rf'. cbn. by rewrite lookup_insert_eq. }
  eapply (lg_step n w _ L L' tid p _ p rf rf'); try done.
  - intros b bc Hb. by exists bc.
  - rewrite won_log. eapply log_ok_extends; [done | by eapply lg_peers].
  - lia.
  - intros _. rewrite won_term, won_log. apply lookup_insert_eq.
  - by intros g [= <-].
Qed.

(** Replies and requests that leave the ledger alone. *)
Lemma sender_handle_logs rf i next args reply bc bc' r rf' :
  CurrentTerm rf = ae_Term args -> sender_handle i next args reply bc rf = Ok ((bc', r), rf') ->
  Log rf' = Log rf /\ follows rf rf' /\ b_term bc' = b_term bc.
Proof.
  intros HT H. unfold sender_handle in H. destruct (aer_Success reply).
  - apply sender_accepted_inv in H as ([] & _ & _ & Hc).
    split; [done |]. split; [by apply follows_unchanged |].
    destruct Hc as [(_ & -> & _) | (_ & [? ->] & _)]; done.
  - sec_inv. match goal with H : sender_rejected _ _ _ _ _ = Ok _ |- _ =>
      apply sender_rejected_inv in H as [(? & _ & ->) | (_ & _ & ni & _ & _ & _ & ->)] end.
    + split; [unfold stepped_down; by raft_fields |]. split; [apply follows_stepped_down; lia | done].
    + split; [done |]. split; [by apply follows_unchanged | done].
Qed.

Lemma vote_handle_logs reply nv rf nv' rf' :
  vote_handle reply nv rf = Ok ((nv', false), rf') -> Log rf' = Log rf /\ follows rf rf'.
Proof.
  intros (_ & [(_ & [=] & _) | (_ & _ & [(_ & ? & ->) | (_ & ->)])])%vote_handle_inv.
  - split; [unfold stepped_down; by raft_fields |]. apply follows_stepped_down. lia.
  - split; [done | by apply follows_unchanged].
Qed.

Lemma AppendEntries_logs L rf t1 t2 args reply rf' :
  log_ok L (Log rf) -> msg_ok L args -> (forall T p l, L !! T = Some (p, l) -> log_ok L l) ->
  AppendEntries t1 t2 args rf = Ok (reply, rf') -> log_ok L (Log rf') /\ follows rf rf'.
Proof.
  intros Hlog Hm HLs H. assert (Hp : 0 <= ae_PrevLogIndex args) by (destruct Hm as (? & ? & ? & ? & _); done).
  destruct (AppendEntries_total t1 t2 args rf Hp) as (r & rf1 & He & Hc).
  rewrite H in He. injection He as <- <-.
  destruct Hc as [(_ & _ & ->) | [(HT & _ & -> & _) | (HT & Hprev & _ & [])]].
  - split; [done | by apply follows_unchanged].
  - rewrite adopted_Log. split; [done | by apply follows_adopted].
  - rewrite aa_log. split; [by apply log_ok_merged |]. split; [lia | by left].
Qed.

Lemma RequestVote_logs rf t1 args reply rf' :
  0 < len (Log rf) -> RequestVote t1 args rf = Ok (reply, rf') -> Log rf' = Log rf /\ follows rf rf'.
Proof.
  intros Hl H. destruct (RequestVote_total t1 args rf Hl) as (r & rf1 & He & Hc).
  rewrite H in He. injection He as <- <-.
  destruct Hc as [(_ & -> & ->) | [(HT & _ & -> & ->) | (Hm & _ & -> & ->)]].
  - split; [done | by apply follows_unchanged].
  - rewrite adopted_Log. split; [done | by apply follows_adopted].
  - assert (HT : CurrentTerm rf <= rv_Term args) by (destruct Hm as [|[]]; lia).
    unfold voted, follows. raft_fields. rewrite adopted_Log, adopted_CurrentTerm by done.
    split; [done |]. split; [done | by left].
Qed.

Lemma same_terms_refl bs : same_terms bs bs.
Proof. intros b bc Hb. by exists bc. Qed.
#[local] Hint Resolve same_terms_refl : core.

Lemma lg_crash n w p rf rf' ts L :
  ledger_inv n w G L -> peers w !! p = Some rf -> survivors (threads w) ts -> restarted n p rf rf' ->
  let w' := set_fresh (S (fresh w))
    (set_threads (<[fresh w := (p, GApply)]> (kill_threads p ts))
      (set_applied (<[p := []]> (applied w)) (updated p rf' w))) in
  election_inv (won_in L) n w' G' -> ledger_inv n w' G' L.
Proof.
  intros [] Hp Hsv [] w' He. clear rs_vote. split; cbn; try done.
  - intros q rf1. rewrite lookup_insert. case_decide; [intros [= <-]; congruence | by apply lg_leader0].
  - intros T q l (Hl & rf1 & Hq & HT & Hc)%lg_owner0. split; [done |]. rewrite lookup_insert.
    case_decide; [| by exists rf1]. subst q. rewrite Hp in Hq. injection Hq as <-. exists rf'.
    split; [done |]. split; [lia |]. by rewrite rs_state.
  - intros q rf1. rewrite lookup_insert. case_decide; [| by apply lg_peers0].
    intros [= <-]. rewrite rs_log. by eapply lg_peers0.
  - intros t q g. rewrite lookup_insert. case_decide; [by intros [= <- <-] |].
    intros (g0 & Ht & [[Hne ->] | [-> Ho]])%(survivors_killed _ _ _ _ _ _ Hsv); pose proof (lg_threads0 _ _ _ Ht) as Hg.
    + eapply logs_thread_update; [done | done | apply same_terms_refl | done | done].
    + destruct g0; cbn in Ho; try done; by injection Ho as <-.
Qed.

(** Steps that start goroutines. *)
Lemma lg_spawned n w p g L :
  ledger_inv n w G L -> election_inv (won_in L) n (spawned p g w) G' ->
  logs_thread (peers w) (bcasts w) L p g -> ledger_inv n (spawned p g w) G' L.
Proof.
  intros Hi He Hg. eapply lg_threads_step; [done | done | done | apply same_terms_refl |].
  intros t q g' [(-> & -> & ->) | [_ ?]]%spawned_lookup; [by right | by left].
Qed.

Lemma lg_senders n w tid p rf index term ci w' L :
  local_inv n w -> ledger_inv n w G L -> election_inv (won_in L) n w' G' ->
  spawn_all p (fresh w) (seqZ 0 (npeers rf))
    (set_fresh (S (fresh w))
      (set_bcasts (<[fresh w := mkBcast index term ci 1 false]> (bcasts w)) (moved tid p None w)))
    = Ok (tt, w') -> ledger_inv n w' G' L.
Proof.
  intros Hl Hi He Hs. apply spawn_all_inv in Hs as []. cbn in *.
  eapply lg_threads_step; [done | done | done | |].
  - rewrite sa_bcasts. intros b bc Hb. exists bc. split; [| done].
    apply (li_bcasts _ _ Hl) in Hb as Hlt. by rewrite lookup_insert_ne by lia.
  - intros t q g [Ht | (_ & -> & i & _ & _ & ->)]%sa_threads; [| by right].
    rewrite lookup_delete in Ht. case_decide; [done | by left].
Qed.

(** A change of server [q] that keeps its log and the ledger. *)
Lemma lg_same_log n w w1 L tid p og q rf rf' :
  ledger_inv n w G L -> peers w !! q = Some rf -> isolated w (moved tid p og w1) ->
  election_inv (won_in L) n (moved tid p og w1) G' ->
  threads w1 = threads w -> peers w1 = <[q := rf']> (peers w) ->
  same_terms (bcasts w) (bcasts w1) -> Log rf' = Log rf -> follows rf rf' ->
  (forall g, og = Some g -> logs_thread (peers w1) (bcasts w1) L p g) ->
  ledger_inv n (moved tid p og w1) G' L.
Proof.
  intros Hi Hq Hiso He Hth Hps Hbs Hlog Hf Hog. eapply lg_keep; try done.
  rewrite Hlog. by eapply lg_peers.
Qed.

Lemma lg_handle n w tid p rf b i next args reply bc bc' r rf' L :
  ledger_inv n w G L -> threads w !! tid = Some (p, GSendHandle b i next args reply) ->
  peers w !! p = Some rf -> bcasts w !! b = Some bc ->
  sender_handle i next args reply bc rf = Ok ((bc', r), rf') ->
  let w' := moved tid p (match r with
      | SReturn => None | SRetry => Some (GSend b i) | SHeartbeat => Some GHeart end)
    (set_bcasts (<[b := bc']> (bcasts w)) (updated p rf' w)) in
  isolated w w' -> election_inv (won_in L) n w' G' -> ledger_inv n w' G' L.
Proof.
  intros Hi Ht Hp Hb Hh w' Hiso He. pose proof (lg_elections _ _ _ _ Hi) as (E & _ & Hc).
  pose proof (ci_ok _ _ _ _ _ _ _ Hc _ _ _ Ht rf Hp) as HT.
  destruct (sender_handle_logs _ _ _ _ _ _ _ _ _ HT Hh) as (Hlog & Hf & Hbt).
  eapply (lg_same_log n w _ L tid p _ p rf rf'); try done.
  - cbn. by eapply same_terms_insert.
  - by destruct r; intros g [= <-].
Qed.

Lemma lg_deliver_ae n w tid p g i args og rf reply rf' t1 t2 L :
  ledger_inv n w G L -> threads w !! tid = Some (p, g) ->
  (exists b next, g = GSendCall b i next args /\ og = Some (GSendRet b i next args reply)) \/
    g = GOrphanAE i args /\ og = None ->
  peers w !! i = Some rf -> AppendEntries t1 t2 args rf = Ok (reply, rf') ->
  isolated w (moved tid p og (updated i rf' w)) ->
  election_inv (won_in L) n (moved tid p og (updated i rf' w)) G' ->
  ledger_inv n (moved tid p og (updated i rf' w)) G' L.
Proof.
  intros Hi Ht Hg Hp Ha Hiso He. pose proof (lg_threads _ _ _ _ Hi _ _ _ Ht) as Hth.
  assert (Hm : msg_ok L args) by (destruct Hg as [(b & next & -> & _) | [-> _]]; exact Hth).
  destruct (AppendEntries_logs L rf t1 t2 args reply rf') as (Hlog & Hf);
    [by eapply lg_peers | done | by intros T p0 l [? _]%(lg_owner _ _ _ _ Hi) | done |].
  eapply (lg_keep n w _ L tid p _ i rf rf'); try done.
  destruct Hg as [(b & next & -> & ->) | [-> ->]]; [by intros g1 [= <-] | done].
Qed.

End steps.

#[local] Hint Resolve same_terms_refl : core.

Lemma ledger_inv_step n w w' G L :
  terms_fit w -> local_inv n w -> apply_inv w -> isolated w w' ->
  ledger_inv n w G L -> wstep w w' ->
  exists G' L', votes_grow w' G G' /\ ledger_grow w' L L' /\ ledger_inv n w' G' L'.
Proof.
  intros Hfit Hl Ha Hiso Hi Hs.
  destruct (election_inv_step _ _ _ _ _ Hfit Hl Ha Hiso (lg_elections _ _ _ _ Hi) Hs) as (G' & HG & He).
  exists G'. enough (exists L', ledger_grow w' L L' /\ ledger_inv n w' G' L') as (L' & ? & ?) by (by exists L').
  assert (Hsame : ledger_inv n w' G' L -> exists L', ledger_grow w' L L' /\ ledger_inv n w' G' L')
    by (intros ?; exists L; split; [apply ledger_grow_refl | done]).
  destruct Hs.
  - apply Hsame. eapply lg_threads_step; [done | done | done | done | by left].
  - apply Hsame. eapply lg_spawned; [done | done |]. by eapply leading_intro.
  - apply Hsame. eapply lg_spawned; [done | done |]. by destruct H0 as [-> | ->].
  - apply Hsame. by eapply lg_read.
  - apply Hsame. destruct H1. eapply (lg_same_log n w _ L tid p _ p rf rf'); try done.
    + by apply follows_unchanged.
    + by intros g [= <-].
  - apply Hsame. by eapply lg_senders.
  - by eapply lg_append.
  - apply Hsame. by eapply lg_handle.
  - apply Hsame. assert (CurrentTerm rf' = CurrentTerm rf + 1) as HT.
    { pose proof (pw_term _ _ _ (li_peers _ _ Hl _ _ H0)). pose proof (Hfit p rf H0) as Hf. cbn in Hf.
      rewrite (cp_term _ _ H1), wrap64_small; [done | unfold MinInt; lia]. }
    destruct H1. eapply (lg_same_log n w _ L tid p _ p rf rf'); try done.
    + split; [lia |]. right. left. split; [done | lia].
    + by intros g [= <-].
  - apply Hsame. eapply lg_threads_step; [done | done | done | apply same_terms_refl |].
    intros t q g [(-> & -> & [= <-]) | [_ Ht]]%moved_lookup; [by right |].
    apply spawned_lookup in Ht as [(-> & -> & ->) | [_ ?]]; [by right | by left].
  - destruct won_.
    + apply vote_handle_inv in H2 as (-> & [((_ & Hs & _) & _ & Hwon) | (_ & [=] & _)]).
      by eapply lg_won.
    + apply Hsame. apply vote_handle_logs in H2 as [Hlog Hf].
      by eapply (lg_same_log n w _ L tid p _ p rf rf').
  - apply Hsame. apply apply_one_inv in H2 as (-> & _). eapply (lg_same_log n w _ L tid p _ p rf); try done.
    + by apply follows_unchanged.
    + by intros g [= <-].
  - apply Hsame. eapply lg_threads_step; [done | done | done | apply same_terms_refl |].
    intros t q g [(-> & -> & [= <-]) | [_ ?]]%moved_lookup; [by right | by left].
  - apply Hsame. by eapply lg_deliver_ae.
  - apply Hsame. apply RequestVote_logs in H2 as [Hlog Hf]; [| by eapply wf_log_len, pw_log, li_peers].
    eapply (lg_same_log n w _ L tid p _ i rf rf'); try done.
    destruct H0 as [(e & -> & ->) | [-> ->]]; [by intros g1 [= <-] | done].
  - apply Hsame. destruct (crash_restarts _ _ _ _ _ _ _ _ _ Hl H H0 H1) as [Hsv Hr]. by eapply lg_crash.
Qed.

Lemma ledger_inv_initial n tm : ledger_inv n (initial n tm) ∅ ∅.
Proof.
  split.
  - eapply election_inv_won; [apply election_inv_initial |]. by intros T p [l ?].
  - by intros p rf [_ ->]%initial_peers.
  - done.
  - intros p rf [_ ->]%initial_peers. split; [apply wf_log_sentinel |].
    intros k x. destruct (fresh_peer_recovered n p tm) as (rf & _ & -> & _ & _ & -> & _).
    by intros [_ <-]%list_lookup_singleton_Some.
  - by intros t p g (_ & _ & ->)%initial_threads.
Qed.

Lemma ireachable_ledger_inv n w : ireachable n w -> exists G L, ledger_inv n w G L.
Proof.
  apply (ireachable_ind_inv n (fun w => exists G L, ledger_inv n w G L)).
  - intros tm. exists ∅, ∅. apply ledger_inv_initial.
  - intros w1 w2 Hf Hl Ha Hiso (G & L & Hi) Hs.
    destruct (ledger_inv_step n w1 w2 G L Hf Hl Ha Hiso Hi Hs) as (G' & L' & _ & _ & ?). by exists G', L'.
Qed.

(** ** Properties *)

(** Any two servers' logs match. *)
Definition all_match (w : World) : Prop :=
  forall p q rf rf', peers w !! p = Some rf -> peers w !! q = Some rf' ->
    log_matching (Log rf) (Log rf').

(** C4: Log Matching.  In every reachable world of an isolated execution, if the
    logs of two servers hold entries with the same term at the same index, the
    logs are identical up to and including that index. *)
Theorem log_matching_holds n w : ireachable n w -> all_match w.
Proof.
  intros (G & L & Hi)%ireachable_ledger_inv p q rf rf' Hp Hq.
  eapply (log_ok_matching L); by eapply lg_peers.
Qed.

(** Leader 0 replicates an entry of term 1 to server 1 only; server 1 then wins
    term 2, and an entry of its own reaches server 2. *)
Definition replication : list Event :=
  campaign 0 3 ++ answered 5 ++
  [EStart 0 (Some (VInt 10)); R 7; R 7; R 7; R 7] ++ [R 9; R 9; R 9; R 9] ++ answered 9 ++
  campaign 1 11 ++ answered 14 ++
  [EStart 1 (Some (VInt 20)); R 15; R 15; R 15; R 15] ++
  [R 18; R 18; R 18; R 18; D 18; EReply 18; R 18; R 18] ++ [R 18; R 18; R 18; R 18; D 18].

Lemma log_matching_holds_witness :
  exists w rf1 rf2, ireachable 3 w /\ peers w !! 1 = Some rf1 /\ peers w !! 2 = Some rf2 /\
    (Term <$> Log rf1 !! 2%nat) = Some 2 /\ (Term <$> Log rf2 !! 2%nat) = Some 2 /\
    log_matching (Log rf1) (Log rf2).
Proof.
  destruct (irun replication (initial 3 t0)) as [w|] eqn:E; [| by vm_compute in E].
  pose proof (irun_ireachable 3 t0 replication w E) as Hr.
  destruct (peers w !! 1) as [rf1|] eqn:H1; [| vm_compute in E; injection E as <-; done].
  destruct (peers w !! 2) as [rf2|] eqn:H2; [| vm_compute in E; injection E as <-; done].
  exists w, rf1, rf2. split; [exact Hr |]. split; [exact H1 |]. split; [exact H2 |].
  assert (Hl : (Term <$> Log rf1 !! 2%nat) = Some 2 /\ (Term <$> Log rf2 !! 2%nat) = Some 2).
  { vm_compute in E. injection E as <-. vm_compute in H1, H2.
    injection H1 as <-. injection H2 as <-. done. }
  split; [apply Hl |]. split; [apply Hl |].
  exact (log_matching_holds 3 w Hr 1 2 rf1 rf2 H1 H2).
Defined.
