(* ===== verification/RaftCommit.v ===== *)
(** * Leader Completeness

    In the isolated executions of RaftElection: once a majority of the servers
    has held an entry in the term in which it was created, every later leader
    has that entry, and everything before it.  The proof follows the history of
    the cluster in ghost state: the votes and the ledger of the files
    RaftElection and RaftLogs, the entries of its own term that each server has
    held, and the logs with which servers became candidates. *)

From S2P Require Import Prelude LabGob Persister Raft RaftRPC RaftNode RaftSystem RaftSteps RaftRaces RaftLocal RaftApply RaftElection RaftLogs.

(** ** Logs that agree up to an index *)

Definition same_upto (i : nat) (l l' : list LogEntry) : Prop :=
  take (S i) l = take (S i) l' /\ (i < length l)%nat /\ (i < length l')%nat.

Lemma same_upto_refl i l : (i < length l)%nat -> same_upto i l l.
Proof. done. Qed.

Lemma same_upto_sym i l l' : same_upto i l l' -> same_upto i l' l.
Proof. intros (H & ? & ?). by split. Qed.

Lemma same_upto_trans i l1 l2 l3 : same_upto i l1 l2 -> same_upto i l2 l3 -> same_upto i l1 l3.
Proof. intros (H & ? & ?) (H' & ? & ?). split; [congruence | done]. Qed.

Lemma same_upto_le i j l l' : (j <= i)%nat -> same_upto i l l' -> same_upto j l l'.
Proof.
  intros Hj (H & ? & ?). split; [| lia]. apply (f_equal (take (S j))) in H.
  by rewrite !take_take, !Nat.min_l in H by lia.
Qed.

Lemma same_upto_app_r i l l' k : same_upto i l l' -> same_upto i l (l' ++ k).
Proof. intros (H & ? & ?). split; [by rewrite take_app_le by lia |]. rewrite length_app. lia. Qed.

Lemma same_upto_app_l i l l' k : same_upto i l l' -> same_upto i (l ++ k) l'.
Proof. intros H. by apply same_upto_sym, same_upto_app_r, same_upto_sym. Qed.

Lemma same_upto_lookup i j l l' : same_upto i l l' -> (j <= i)%nat -> l !! j = l' !! j.
Proof.
  intros (H & _ & _) Hj. rewrite <- (lookup_take_lt l (S i)), <- (lookup_take_lt l' (S i)) by lia.
  by rewrite H.
Qed.

Lemma same_upto_intro i l l' x : l !! i = Some x -> take (S i) l = take (S i) l' -> same_upto i l l'.
Proof.
  intros Hx H. apply lookup_lt_Some in Hx. split; [done |]. split; [done |].
  pose proof (f_equal length H) as Hl. rewrite !length_take in Hl. lia.
Qed.

(** ** Ghost state *)

(** (q, T, i): server [q] held, in term [T], an entry of term [T] at index [i]. *)
Definition acks := gset (Z * Z * nat).
(** Server [c] became a candidate of term [T] with the log [l]. *)
Definition cands := Z -> Z -> list LogEntry -> Prop.

Definition acks_of (ps : gmap Z Raft) : acks :=
  list_to_set (map_to_list ps ≫= fun '(q, rf) =>
    (fun i => (q, CurrentTerm rf, i)) <$>
      filter (fun i => Term <$> Log rf !! i = Some (CurrentTerm rf) /\ 0 < CurrentTerm rf) (seq 0 (length (Log rf)))).

Lemma elem_of_acks_of ps q T i :
  (q, T, i) ∈ acks_of ps <->
  exists rf x, ps !! q = Some rf /\ T = CurrentTerm rf /\ Log rf !! i = Some x /\ Term x = T /\ 0 < T.
Proof.
  unfold acks_of. rewrite elem_of_list_to_set, list_elem_of_bind. split.
  - intros ([q' rf] & Hin & Hq%elem_of_map_to_list). apply list_elem_of_fmap in Hin as (j & [= -> -> ->] & Hj).
    apply list_elem_of_filter in Hj as [[Ht Hpos] _]. apply fmap_Some in Ht as (x & Hx & Ht). by exists rf, x.
  - intros (rf & x & Hq & -> & Hx & Ht & Hpos). exists (q, rf). split; [| by apply elem_of_map_to_list].
    apply list_elem_of_fmap. exists i. split; [done |]. apply list_elem_of_filter. rewrite Hx. cbn.
    split; [by rewrite Ht |]. apply elem_of_seq. apply lookup_lt_Some in Hx. lia.
Qed.

Definition cands_of (ps : gmap Z Raft) : cands := fun T c l =>
  exists rf, ps !! c = Some rf /\ state rf = Candidate /\ T = CurrentTerm rf /\ l = Log rf.

Definition majority (n : Z) (Q : gset Z) : Prop :=
  Z.quot n 2 + 1 <= Z.of_nat (size Q) /\ forall q, q ∈ Q -> 0 <= q < n.

(** The ledger has an entry of term [T] itself at [i]. *)
Definition own_entry (L : ledger) (T : Z) (i : nat) : Prop :=
  exists p l x, L !! T = Some (p, l) /\ l !! i = Some x /\ Term x = T.

(** [l] has the log of the leader of term [T] up to [i]. *)
Definition includes (L : ledger) (l : list LogEntry) (T : Z) (i : nat) : Prop :=
  exists p lT, L !! T = Some (p, lT) /\ same_upto i l lT.

Definition passed (ps : gmap Z Raft) (T q : Z) : Prop :=
  exists rf, ps !! q = Some rf /\ T < CurrentTerm rf.

(** Entry [i] of term [T] will never be held, in that term, by a majority. *)
Definition dead (n : Z) (ps : gmap Z Raft) (A : acks) (T : Z) (i : nat) : Prop :=
  exists Q, majority n Q /\ forall q, q ∈ Q -> passed ps T q /\ (q, T, i) ∉ A.

(** A majority held it. *)
Definition chosen (n : Z) (A : acks) (T : Z) (i : nat) : Prop :=
  exists Q, majority n Q /\ forall q, q ∈ Q -> (q, T, i) ∈ A.

Definition kept (n : Z) (ps : gmap Z Raft) (L : ledger) (A : acks) (l : list LogEntry) (T : Z) (i : nat) : Prop :=
  includes L l T i \/ dead n ps A T i.

Lemma chosen_not_dead n ps A T i : 0 <= n -> chosen n A T i -> dead n ps A T i -> False.
Proof.
  intros Hn (Q & [H HQ] & HA) (Q' & [H' HQ'] & HD).
  destruct (majorities_meet n Q Q') as (q & Hq%HA & [_ ?]%HD); done.
Qed.

Lemma includes_kept n ps L A l T i : 0 <= n -> chosen n A T i -> kept n ps L A l T i -> includes L l T i.
Proof. intros Hn Hc [? | Hd]; [done |]. by destruct (chosen_not_dead n ps A T i). Qed.

Lemma includes_extends L L' l T i : extends L L' -> includes L l T i -> includes L' l T i.
Proof.
  intros He (p & lT & HL & H). destruct (He _ _ _ HL) as (k & HL'). exists p, (lT ++ k).
  split; [done | by apply same_upto_app_r].
Qed.

Lemma own_entry_extends L L' T i : extends L L' -> own_entry L T i -> own_entry L' T i.
Proof.
  intros He (p & lT & x & HL & Hx & HT). destruct (He _ _ _ HL) as (k & HL'). exists p, (lT ++ k), x.
  split; [done |]. split; [by apply lookup_app_l_Some | done].
Qed.

(** ** The invariant *)

(** A request for votes quotes the end of the candidate's log. *)
Definition asks (C : cands) (args : RequestVoteArgs) : Prop :=
  exists l x, C (rv_Term args) (rv_CandidateId args) l /\ last l = Some x /\
    rv_LastLogTerm args = Term x /\ rv_LastLogIndex args = len l - 1.

Definition core_thread (C : cands) (ps : gmap Z Raft) (p : Z) (g : Goroutine) : Prop :=
  match g with
  | GElectLoop _ _ => forall rf, ps !! p = Some rf -> state rf = Candidate
  | GVoteCall _ _ args | GOrphanRV _ args => asks C args
  | _ => True
  end.

Record core_inv (n : Z) (w : World) (G : votes) (L : ledger) (A : acks) (C : cands) : Prop := {
  co_ledger : forall T p l, L !! T = Some (p, l) -> 0 < T /\ Forall (fun x => Term x <= T) l;
  co_terms : forall p rf, peers w !! p = Some rf -> Forall (fun x => Term x <= CurrentTerm rf) (Log rf);
  co_acks_now : acks_of (peers w) ⊆ A;
  co_acks : forall q T i, (q, T, i) ∈ A -> own_entry L T i /\
    exists rf, peers w !! q = Some rf /\ T <= CurrentTerm rf /\ kept n (peers w) L A (Log rf) T i;
  co_cands : forall T c l, C T c l -> log_ok L l /\ Forall (fun x => Term x < T) l /\
    exists rf, peers w !! c = Some rf /\ T <= CurrentTerm rf /\
      (T = CurrentTerm rf -> state rf = Candidate -> Log rf = l);
  co_cands_fun : forall T c l l', C T c l -> C T c l' -> l = l';
  co_cands_now : forall T c l, cands_of (peers w) T c l -> C T c l;
  co_votes : forall q U c, (q, U, c) ∈ G -> exists l, C U c l /\
    forall T i, T < U -> (q, T, i) ∈ A -> kept n (peers w) L A l T i;
  co_leaders : forall U p l, L !! U = Some (p, l) -> forall T i, T < U -> own_entry L T i ->
    kept n (peers w) L A l T i;
  co_threads : forall t p g, threads w !! t = Some (p, g) -> core_thread C (peers w) p g;
}.

(** ** Lemmas about the logs of one ledger *)

Section logs.
Context (L : ledger).
Hypothesis Hterms : forall T p l, L !! T = Some (p, l) -> 0 < T /\ Forall (fun x => Term x <= T) l.
Hypothesis Hlogs : forall T p l, L !! T = Some (p, l) -> log_ok L l.

(** An entry and the ledger of its term. *)
Lemma log_ok_includes log k x :
  log_ok L log -> log !! k = Some x -> 0 < Term x -> includes L log (Term x) k.
Proof.
  intros [_ H] Hx Ht. destruct (H k x Hx Ht) as (p & l & HL & Heq). exists p, l. split; [done |].
  by eapply same_upto_intro.
Qed.

(** The terms along a log do not decrease. *)
Lemma log_sorted log j k x y :
  log_ok L log -> log !! j = Some x -> log !! k = Some y -> (j <= k)%nat -> Term x <= Term y.
Proof.
  intros Hok Hx Hy Hjk. destruct (decide (k = 0%nat)) as [-> | Hk].
  { assert (j = 0%nat) as -> by lia. by simplify_eq. }
  assert (Hpos : 0 < Term y) by (eapply wf_log_pos; [apply Hok | done..]).
  destruct (log_ok_includes _ _ _ Hok Hy Hpos) as (p & l & HL & Hs).
  destruct (Hterms _ _ _ HL) as [_ Hle]. rewrite (same_upto_lookup k j log l Hs Hjk) in Hx.
  by eapply (Forall_lookup_1 _ _ _ _ Hle).
Qed.

(** Accepting a request keeps what the log has in common with the leader's. *)
Lemma merged_keeps log args p lV i :
  log_ok L log -> msg_ok L args -> L !! ae_Term args = Some (p, lV) -> prev_matches log args ->
  same_upto i log lV -> same_upto i (merged log args) lV.
Proof.
  intros Hlog (p' & l' & HL' & Hp & Ht & Hes) HL Hm Hs. rewrite HL in HL'. injection HL' as <- <-.
  unfold merged. case_decide as Hd; [done |]. unfold prev_matches in Hm.
  destruct (lV !! Z.to_nat (ae_PrevLogIndex args)) as [x|] eqn:Hx; [| done].
  destruct (log !! Z.to_nat (ae_PrevLogIndex args)) as [y|] eqn:Hy; [| done].
  cbn in Ht, Hm. set (nx := Z.to_nat (ae_PrevLogIndex args + 1)) in *.
  assert (Heq : take nx log = take nx lV).
  { unfold nx. replace (Z.to_nat (ae_PrevLogIndex args + 1)) with (S (Z.to_nat (ae_PrevLogIndex args))) by lia.
    eapply (log_ok_matching L); [done | by eapply Hlogs | exact Hy | exact Hx | congruence]. }
  set (m := length (ae_Entries args)) in *.
  assert (Hres : take nx log ++ ae_Entries args = take (nx + m) lV) by (rewrite Heq, Hes; apply take_take_drop).
  rewrite Hres. destruct Hs as (Hs & Hl & HlV). assert (Hi : (i < nx + m)%nat).
  { destruct (decide (i < nx + m)%nat) as [| Hge]; [done |]. exfalso. apply Hd. unfold terms_match. fold m. f_equal.
    rewrite Hes, !take_drop_commute. f_equal. apply (f_equal (take (nx + m))) in Hs.
    by rewrite !take_take, Nat.min_l in Hs by lia. }
  split; [rewrite take_take; f_equal; lia |]. rewrite length_take. lia.
Qed.

(** A log that is at least as up to date as one that has the log of term [T] up
    to [i], with entries of terms between that are known to have it. *)
Lemma up_to_date_includes log l T i x y :
  log_ok L log -> log_ok L l -> includes L log T i -> own_entry L T i ->
  last log = Some x -> last l = Some y ->
  Term x < Term y \/ Term x = Term y /\ (length log <= length l)%nat ->
  (forall p lV, L !! Term y = Some (p, lV) -> T < Term y -> includes L lV T i) ->
  includes L l T i.
Proof.
  intros Hlog Hl (p & lT & HL & Hs) (p' & lT' & e & HL' & He & Hte) Hx Hy Hup Hbet.
  rewrite HL in HL'. injection HL' as <- <-. destruct (Hterms _ _ _ HL) as [HT _].
  rewrite last_lookup in Hx, Hy. pose proof Hs as (_ & Hil & _).
  assert (HTx : T <= Term x).
  { rewrite <- Hte. eapply (log_sorted log i (pred (length log))); [done | | done | lia].
    by rewrite (same_upto_lookup i i log lT Hs). }
  assert (Hyl : (0 < length l)%nat) by (apply lookup_lt_Some in Hy; lia).
  assert (Hin : includes L l (Term y) (pred (length l))) by (apply log_ok_includes; [done | done | lia]).
  destruct Hin as (q & lV & HV & HsV). destruct (decide (T < Term y)) as [Hlt | Hge].
  - destruct (Hbet q lV HV Hlt) as (p2 & lT2 & HL2 & Hs2). rewrite HL in HL2. injection HL2 as <- <-.
    exists p, lT. split; [done |]. eapply same_upto_trans; [| exact Hs2]. eapply same_upto_le; [| exact HsV].
    destruct (decide (i <= pred (length l))%nat) as [| Hn]; [done |]. exfalso.
    assert (Term y <= Term e); [| lia].
    eapply (log_sorted lV (pred (length l)) i); [by eapply Hlogs | | | lia].
    + by rewrite <- (same_upto_lookup _ _ _ _ HsV).
    + by rewrite (same_upto_lookup _ _ _ _ Hs2).
  - assert (Term y = T) as E by lia. rewrite E in HV. rewrite HL in HV. injection HV as <- <-.
    exists p, lT. split; [done |]. eapply same_upto_le; [| exact HsV]. lia.
Qed.

End logs.

(** ** One step *)

(** What a step does to server [q]. *)
Record srv_step (L : ledger) (C : cands) (q : Z) (rf rf' : Raft) : Prop := {
  ss_term : CurrentTerm rf <= CurrentTerm rf';
  ss_log : Log rf' = Log rf \/
    (CurrentTerm rf' = CurrentTerm rf /\ state rf' <> Follower /\
       exists cmd, Log rf' = Log rf ++ [mkEntry cmd (CurrentTerm rf)]) \/
    (exists args, msg_ok L args /\ CurrentTerm rf' = ae_Term args /\ state rf' = Follower /\
       prev_matches (Log rf) args /\ Log rf' = merged (Log rf) args);
  ss_cand : state rf' = Candidate -> Log rf' = Log rf /\
    (CurrentTerm rf < CurrentTerm rf' \/ CurrentTerm rf' = CurrentTerm rf /\ state rf = Candidate);
  ss_lead : state rf' = Leader -> CurrentTerm rf' = CurrentTerm rf /\
    (state rf = Leader \/ state rf = Candidate /\ Log rf' = Log rf);
  ss_vote : 0 <= VoteFor rf' -> (VoteFor rf' = VoteFor rf /\ CurrentTerm rf' = CurrentTerm rf) \/
    (VoteFor rf' = q /\ state rf' = Candidate /\ Log rf' = Log rf) \/
    (exists args, asks C args /\ rv_Term args = CurrentTerm rf' /\ rv_CandidateId args = VoteFor rf' /\
       up_to_date (Log rf) args /\ Log rf' = Log rf);
}.

Section core_step.
Context (n : Z) (w w' : World) (G G' : votes) (L L' : ledger) (A : acks) (C : cands).
Hypothesis Hl' : local_inv n w'.
Hypothesis Hco : core_inv n w G L A C.
Hypothesis Hlg : ledger_inv n w G L.
Hypothesis Hlg' : ledger_inv n w' G' L'.
Hypothesis HG : votes_grow w' G G'.
Hypothesis HL : ledger_grow w' L L'.
Hypothesis Hps : forall q rf, peers w !! q = Some rf ->
  exists rf', peers w' !! q = Some rf' /\ srv_step L C q rf rf'.
Hypothesis Hdom : forall q, is_Some (peers w' !! q) -> is_Some (peers w !! q).

Definition acks' : acks := A ∪ acks_of (peers w').
Definition cands' : cands := fun T c l => C T c l \/ cands_of (peers w') T c l.

Lemma came_from q rf' : peers w' !! q = Some rf' ->
  exists rf, peers w !! q = Some rf /\ srv_step L C q rf rf'.
Proof.
  intros Hq. destruct (Hdom q) as [rf Hrf]; [by eexists |]. exists rf. split; [done |].
  destruct (Hps q rf Hrf) as (rf1 & Hq1 & Hs). rewrite Hq in Hq1. by injection Hq1 as <-.
Qed.

Lemma passed_step T q : passed (peers w) T q -> passed (peers w') T q.
Proof.
  intros (rf & Hq & HT). destruct (Hps q rf Hq) as (rf' & Hq' & Hs). exists rf'. split; [done |].
  pose proof (ss_term _ _ _ _ _ Hs). lia.
Qed.

(** A server acknowledges nothing of a term it has left. *)
Lemma acks_new q T i rf' : (q, T, i) ∈ acks' -> peers w' !! q = Some rf' -> T <> CurrentTerm rf' -> (q, T, i) ∈ A.
Proof.
  intros [? | (rf1 & x & Hq & -> & _)%elem_of_acks_of]%elem_of_union; [done |].
  intros Hq' HT. rewrite Hq in Hq'. by injection Hq' as <-.
Qed.

Lemma dead_step T i : dead n (peers w) A T i -> dead n (peers w') acks' T i.
Proof.
  intros (Q & HQ & Hd). exists Q. split; [done |]. intros q Hq. destruct (Hd q Hq) as [Hp HA].
  apply passed_step in Hp as Hp'. split; [done |]. destruct Hp' as (rf' & Hq' & HT).
  intros Hin. apply HA. eapply acks_new; [done | done | lia].
Qed.

Lemma kept_step l T i : kept n (peers w) L A l T i -> kept n (peers w') L' acks' l T i.
Proof.
  intros [Hi | Hd]; [left | right; by apply dead_step]. eapply includes_extends; [apply HL | done].
Qed.

Lemma own_entry_dec T i : own_entry L T i \/ ~ own_entry L T i.
Proof.
  destruct (L !! T) as [[p l]|] eqn:HT; [| right; intros (? & ? & ? & ? & _); congruence].
  destruct (l !! i) as [x|] eqn:Hx; [| right; intros (? & ? & ? & ? & ? & _); congruence].
  destruct (decide (Term x = T)); [left; by exists p, l, x |].
  right. intros (? & ? & ? & ? & ? & ?). congruence.
Qed.

Lemma quorum_passed U p (Q : gset Z) T q : (forall q, q ∈ Q -> 0 <= q < n /\ (q, U, p) ∈ G') -> T < U -> q ∈ Q ->
  exists rf', peers w' !! q = Some rf' /\ T < CurrentTerm rf'.
Proof.
  intros HQ HT [_ Hq]%HQ. destruct (lg_elections _ _ _ _ Hlg') as (E & Hv & _).
  destruct (vi_term _ _ _ _ Hv _ _ _ Hq) as (_ & rf' & Hq' & HU & _). exists rf'. split; [done | lia].
Qed.

(** An entry made after the election of a later term comes too late. *)
Lemma late_entry_dead U p T i : quorum n G' U p -> T < U -> ~ own_entry L T i -> dead n (peers w') acks' T i.
Proof.
  intros (Q & Hs & HQ) HT Hno. exists Q. split; [split; [done |]; by intros q [? _]%HQ |].
  intros q Hq. destruct (quorum_passed U p Q T q HQ HT Hq) as (rf' & Hq' & HT').
  split; [by exists rf' |]. intros Hin. apply Hno.
  assert (Hin' : (q, T, i) ∈ A) by (eapply acks_new; [done | done | lia]).
  apply (co_acks _ _ _ _ _ _ Hco _ _ _ Hin').
Qed.

Lemma core_cands_kept T c l rf rf' :
  C T c l -> peers w !! c = Some rf -> srv_step L C c rf rf' -> T = CurrentTerm rf' -> state rf' = Candidate ->
  Log rf' = l.
Proof.
  intros HC Hc Hs -> Hst. destruct (co_cands _ _ _ _ _ _ Hco _ _ _ HC) as (_ & _ & rf1 & Hc1 & HT & Hl).
  rewrite Hc in Hc1. injection Hc1 as <-.
  destruct (ss_cand _ _ _ _ _ Hs Hst) as [-> [Hlt | [HT' Hst']]]; [lia | by apply Hl].
Qed.

Lemma core_cands_fun T c l l' : cands' T c l -> cands' T c l' -> l = l'.
Proof.
  assert (Hmix : forall l l', C T c l -> cands_of (peers w') T c l' -> l = l').
  { intros l1 l2 HC (rf' & Hc' & Hst & HT & ->). destruct (came_from c rf' Hc') as (rf & Hc & Hs).
    symmetry. by eapply core_cands_kept. }
  intros [H | H] [H' | H'].
  - by eapply co_cands_fun.
  - by apply Hmix.
  - symmetry. by apply Hmix.
  - destruct H as (rf' & Hc' & _ & _ & ->), H' as (rf2 & Hc2 & _ & _ & ->). congruence.
Qed.

Lemma core_cands T c l : cands' T c l -> log_ok L' l /\ Forall (fun x => Term x < T) l /\
  exists rf, peers w' !! c = Some rf /\ T <= CurrentTerm rf /\ (T = CurrentTerm rf -> state rf = Candidate -> Log rf = l).
Proof.
  intros [HC | (rf' & Hc' & Hst & -> & ->)].
  - destruct (co_cands _ _ _ _ _ _ Hco _ _ _ HC) as (Hlog & Hf & rf & Hc & HT & _).
    split; [eapply log_ok_extends; [apply HL | done] |]. split; [done |].
    destruct (Hps c rf Hc) as (rf' & Hc' & Hs). exists rf'. split; [done |].
    split; [pose proof (ss_term _ _ _ _ _ Hs); lia |]. intros HT' Hst. by eapply core_cands_kept.
  - split; [by eapply lg_peers |]. split; [| by exists rf'].
    destruct (came_from c rf' Hc') as (rf & Hc & Hs).
    destruct (ss_cand _ _ _ _ _ Hs Hst) as [-> [Hlt | [-> Hst']]].
    + eapply Forall_impl; [by eapply (co_terms _ _ _ _ _ _ Hco) |]. cbn. lia.
    + apply (co_cands _ _ _ _ _ _ Hco _ c). apply (co_cands_now _ _ _ _ _ _ Hco). by exists rf.
Qed.

(** A server that has acknowledged keeps the entry, unless the entry is dead. *)
Lemma srv_keeps q rf rf' T i :
  peers w !! q = Some rf -> srv_step L C q rf rf' -> T <= CurrentTerm rf -> own_entry L T i ->
  includes L (Log rf) T i -> kept n (peers w) L A (Log rf') T i.
Proof.
  intros Hq Hs HT Hown Hin. destruct (ss_log _ _ _ _ _ Hs) as [-> | [(_ & _ & cmd & ->) | (args & Hm & HT' & _ & Hp & ->)]].
  - by left.
  - left. destruct Hin as (p & lT & HLT & Hu). exists p, lT. split; [done | by apply same_upto_app_l].
  - pose proof (ss_term _ _ _ _ _ Hs) as Hle. pose proof Hm as (p & lV & HV & _).
    assert (Hlogs : forall T p l, L !! T = Some (p, l) -> log_ok L l) by by intros ? ? ? [? _]%(lg_owner _ _ _ _ Hlg).
    assert (HlV : kept n (peers w) L A lV T i).
    { destruct (decide (T = ae_Term args)) as [E | Hne].
      - left. destruct Hin as (p' & lT & HLT & Hu). exists p', lT. split; [done |]. rewrite E, HV in HLT.
        injection HLT as <- <-. apply same_upto_refl. apply Hu.
      - eapply (co_leaders _ _ _ _ _ _ Hco); [done | lia | done]. }
    destruct HlV as [(p1 & lT & HLT & Hu) | ?]; [left | by right].
    destruct Hin as (p2 & lT2 & HLT2 & Hu2). rewrite HLT in HLT2. injection HLT2 as <- <-.
    exists p1, lT. split; [done |]. eapply same_upto_trans; [| exact Hu].
    eapply merged_keeps; [done | by eapply lg_peers | done | done | done |].
    eapply same_upto_trans; [exact Hu2 | by apply same_upto_sym].
Qed.

Lemma core_acks q T i : (q, T, i) ∈ acks' -> own_entry L' T i /\
  exists rf, peers w' !! q = Some rf /\ T <= CurrentTerm rf /\ kept n (peers w') L' acks' (Log rf) T i.
Proof.
  intros [Hin | (rf & x & Hq & -> & Hx & HT & Hpos)%elem_of_acks_of]%elem_of_union.
  - destruct (co_acks _ _ _ _ _ _ Hco _ _ _ Hin) as (Hown & rf & Hq & HT & Hk).
    split; [eapply own_entry_extends; [apply HL | done] |]. destruct (Hps q rf Hq) as (rf' & Hq' & Hs).
    exists rf'. split; [done |]. split; [pose proof (ss_term _ _ _ _ _ Hs); lia |]. apply kept_step.
    destruct Hk as [Hin' | ?]; [by eapply srv_keeps | by right].
  - assert (Hin : includes L' (Log rf) (CurrentTerm rf) i).
    { rewrite <- HT. eapply log_ok_includes; [by eapply lg_peers | done | lia]. }
    destruct Hin as (p & lT & HLT & Hu). split.
    + exists p, lT, x. split; [done |]. split; [| done]. by rewrite <- (same_upto_lookup i i _ _ Hu).
    + exists rf. split; [done |]. split; [done |]. left. by exists p, lT.
Qed.

(** A vote is only given to a log that has what the voter has acknowledged. *)
Lemma vote_keeps q rf l args T i :
  peers w !! q = Some rf -> C (rv_Term args) (rv_CandidateId args) l ->
  asks C args -> up_to_date (Log rf) args -> (q, T, i) ∈ A -> kept n (peers w) L A l T i.
Proof.
  intros Hq HC (l' & y & HC' & Hy & Hty & Hiy) (x & Hx & Hup) Hin.
  assert (l' = l) as -> by (eapply (co_cands_fun _ _ _ _ _ _ Hco); done).
  destruct (co_acks _ _ _ _ _ _ Hco _ _ _ Hin) as (Hown & rf1 & Hq1 & HT & Hk).
  rewrite Hq in Hq1. injection Hq1 as <-. destruct Hk as [Hinc | ?]; [| by right].
  assert (Hlogs : forall T p l, L !! T = Some (p, l) -> log_ok L l) by by intros ? ? ? [? _]%(lg_owner _ _ _ _ Hlg).
  assert (Hbet : dead n (peers w) A T i \/
    forall p lV, L !! Term y = Some (p, lV) -> T < Term y -> includes L lV T i).
  { destruct (L !! Term y) as [[p lV]|] eqn:HV; [| by right]. destruct (decide (T < Term y)); [| by right].
    destruct (co_leaders _ _ _ _ _ _ Hco _ _ _ HV T i) as [? | ?]; [done | done | right | by left].
    by intros ? ? [= <- <-]. }
  destruct Hbet as [? | Hbet]; [by right | left].
  eapply (up_to_date_includes L (co_ledger _ _ _ _ _ _ Hco) Hlogs (Log rf) l T i x y); try done.
  - by eapply lg_peers.
  - by eapply (co_cands _ _ _ _ _ _ Hco).
  - rewrite <- Hty. destruct Hup as [? | [? Hle]]; [by left | right]. split; [done |].
    rewrite Hiy in Hle. unfold len in Hle. lia.
Qed.

Lemma core_votes q U c : (q, U, c) ∈ G' -> exists l, cands' U c l /\
  forall T i, T < U -> (q, T, i) ∈ acks' -> kept n (peers w') L' acks' l T i.
Proof.
  intros Hv. destruct (lg_elections _ _ _ _ Hlg) as (E & Hvi & _).
  assert (Hold : (q, U, c) ∈ G -> exists l, cands' U c l /\
    forall T i, T < U -> (q, T, i) ∈ acks' -> kept n (peers w') L' acks' l T i).
  { intros HvG. destruct (co_votes _ _ _ _ _ _ Hco _ _ _ HvG) as (l & HC & Hk). exists l. split; [by left |].
    intros T i HT Hin. apply kept_step, Hk; [done |].
    destruct (vi_term _ _ _ _ Hvi _ _ _ HvG) as (_ & rf & Hq & HU & _).
    destruct (Hps q rf Hq) as (rf' & Hq' & Hs). pose proof (ss_term _ _ _ _ _ Hs).
    eapply acks_new; [done | done | lia]. }
  destruct (proj2 HG _ Hv) as [? | (q' & rf' & Hq' & [= <- -> ->] & Hpos)]; [by apply Hold |].
  destruct (came_from q rf' Hq') as (rf & Hq & Hs).
  assert (Hnew : forall T i, T < CurrentTerm rf' -> (q, T, i) ∈ acks' -> (q, T, i) ∈ A)
    by (intros T i HT Hin; eapply acks_new; [done | done | lia]).
  destruct (ss_vote _ _ _ _ _ Hs Hpos) as [[E1 E2] | [(E1 & Hst & HlogE) | (args & Hask & E1 & E2 & Hup & HlogE)]].
  - apply Hold. rewrite E1, E2. eapply vi_vote; [done | done | lia].
  - exists (Log rf'). rewrite E1. split; [right; by exists rf' |]. intros T i HT Hin%Hnew; [| done].
    destruct (co_acks _ _ _ _ _ _ Hco _ _ _ Hin) as (_ & rf1 & Hq1 & _ & Hk).
    rewrite Hq in Hq1. injection Hq1 as <-. rewrite HlogE. by apply kept_step.
  - pose proof Hask as (l & y & HC & _). exists l. rewrite <- E1, <- E2. split; [by left |].
    intros T i HT Hin. apply kept_step. eapply vote_keeps; try done. apply Hnew; [lia | done].
Qed.

Lemma core_leaders U p l : L' !! U = Some (p, l) -> forall T i, T < U -> own_entry L' T i ->
  kept n (peers w') L' acks' l T i.
Proof.
  intros HU T i HT _. assert (Hquo : quorum n G' U p).
  { destruct (lg_elections _ _ _ _ Hlg') as (E & Hv & _). eapply vi_won; [done |]. by exists l. }
  destruct (own_entry_dec T i) as [Hown | Hno]; [| right; by eapply late_entry_dead].
  destruct (proj2 HL _ _ _ HU) as [HU' | (rf' & Hp' & Hst & -> & ->)].
  { apply kept_step. by eapply (co_leaders _ _ _ _ _ _ Hco). }
  destruct (came_from p rf' Hp') as (rf & Hp & Hs).
  destruct (ss_lead _ _ _ _ _ Hs Hst) as [HTeq [Hst0 | [Hst0 HlogE]]].
  - pose proof (lg_leader _ _ _ _ Hlg _ _ Hp Hst0) as HLp. rewrite HTeq in HT.
    destruct (co_leaders _ _ _ _ _ _ Hco _ _ _ HLp T i HT Hown) as [Hin | ?]; [| right; by apply dead_step].
    apply kept_step. eapply srv_keeps; [done | done | lia | done | done].
  - destruct Hquo as (Q & HsQ & HQ).
    destruct (decide (set_Forall (fun q => (q, T, i) ∉ acks') Q)) as [Hnone | Hsome].
    { right. exists Q. split; [split; [done |]; by intros q [? _]%HQ |]. intros q Hq. split; [| by apply Hnone].
      by eapply (quorum_passed (CurrentTerm rf') p Q). }
    apply not_set_Forall_Exists in Hsome as (q & Hq & Hin); [| apply _].
    destruct (HQ q Hq) as [_ Hvote]. destruct (core_votes _ _ _ Hvote) as (l & HC & Hk).
    assert (l = Log rf') as <-.
    { rewrite HlogE. eapply core_cands_fun; [exact HC |]. left. apply (co_cands_now _ _ _ _ _ _ Hco).
      exists rf. by rewrite HTeq. }
    apply Hk; [done |]. destruct (decide ((q, T, i) ∈ acks')); [done |]. by destruct Hin.
Qed.

Lemma core_terms p rf' : peers w' !! p = Some rf' -> Forall (fun x => Term x <= CurrentTerm rf') (Log rf').
Proof.
  intros Hp'. destruct (came_from p rf' Hp') as (rf & Hp & Hs). pose proof (ss_term _ _ _ _ _ Hs) as HT.
  assert (Hold : Forall (fun x => Term x <= CurrentTerm rf') (Log rf)).
  { eapply Forall_impl; [by eapply (co_terms _ _ _ _ _ _ Hco) |]. cbn. lia. }
  destruct (ss_log _ _ _ _ _ Hs) as [-> | [(_ & _ & cmd & ->) | (args & Hm & HT' & _ & _ & ->)]].
  - done.
  - apply Forall_app. split; [done |]. by repeat constructor.
  - unfold merged. case_decide; [done |]. apply Forall_app. split; [by apply Forall_take |].
    destruct Hm as (q & lV & HV & _ & _ & ->). apply Forall_take, Forall_drop. rewrite HT'.
    by eapply (co_ledger _ _ _ _ _ _ Hco).
Qed.

Lemma core_ledger T p l : L' !! T = Some (p, l) -> 0 < T /\ Forall (fun x => Term x <= T) l.
Proof.
  intros [? | (rf' & Hp' & Hst & -> & ->)]%(proj2 HL); [by eapply (co_ledger _ _ _ _ _ _ Hco) |].
  split; [| by eapply core_terms]. pose proof (pw_active _ _ _ (li_peers _ _ Hl' _ _ Hp')) as Hact.
  rewrite Hst in Hact. specialize (Hact ltac:(done)). lia.
Qed.

Lemma core_step :
  (forall t p g, threads w' !! t = Some (p, g) -> core_thread cands' (peers w') p g) ->
  core_inv n w' G' L' acks' cands'.
Proof.
  intros Hth. split.
  - apply core_ledger.
  - apply core_terms.
  - apply union_subseteq_r.
  - apply core_acks.
  - apply core_cands.
  - apply core_cands_fun.
  - intros T c l. by right.
  - apply core_votes.
  - apply core_leaders.
  - done.
Qed.
End core_step.

(** ** What the sections of a server do *)

Lemma srv_follows L C q rf rf' :
  CurrentTerm rf <= CurrentTerm rf' -> Log rf' = Log rf ->
  state rf' = Follower \/ state rf' = state rf /\ CurrentTerm rf' = CurrentTerm rf ->
  VoteFor rf' = -1 \/ VoteFor rf' = VoteFor rf /\ CurrentTerm rf' = CurrentTerm rf ->
  srv_step L C q rf rf'.
Proof.
  intros HT Hl Hs Hv. split; [done | by left | | |].
  - intros Hc. destruct Hs as [? | [? ?]]; [congruence |]. split; [done |]. right. split; congruence.
  - intros Hc. destruct Hs as [? | [? ?]]; [congruence |]. split; [done |]. left. congruence.
  - intros Hp. destruct Hv as [? | ?]; [lia | by left].
Qed.

Lemma srv_same L C q rf rf' :
  CurrentTerm rf' = CurrentTerm rf -> Log rf' = Log rf -> state rf' = state rf -> VoteFor rf' = VoteFor rf ->
  srv_step L C q rf rf'.
Proof. intros HT Hl Hs Hv. apply srv_follows; [lia | done | by right | by right]. Qed.

Lemma srv_refl L C q rf : srv_step L C q rf rf.
Proof. by apply srv_same. Qed.

Lemma srv_stepped_down L C q rf T : CurrentTerm rf <= T -> srv_step L C q rf (stepped_down T rf).
Proof. intros HT. unfold stepped_down. apply srv_follows; raft_fields; [done | done | by left | by left]. Qed.

Lemma srv_adopted L C q t rf T : CurrentTerm rf <= T -> srv_step L C q rf (adopted t T rf).
Proof.
  intros HT. apply srv_follows; rewrite ?adopted_Log, ?adopted_CurrentTerm, ?adopted_state, ?adopted_VoteFor by done; try done.
  - case_decide; [by left | right]. split; [done | lia].
  - case_decide; [by left | right]. split; [done | lia].
Qed.

Lemma srv_AppendEntries L C q rf t1 t2 args reply rf' :
  msg_ok L args -> AppendEntries t1 t2 args rf = Ok (reply, rf') -> srv_step L C q rf rf'.
Proof.
  intros Hm H. assert (Hp : 0 <= ae_PrevLogIndex args) by (destruct Hm as (? & ? & ? & ? & _); done).
  destruct (AppendEntries_total t1 t2 args rf Hp) as (r & rf1 & He & Hc). rewrite H in He. injection He as <- <-.
  destruct Hc as [(_ & _ & ->) | [(HT & _ & -> & _) | (HT & Hprev & _ & [])]].
  - apply srv_refl.
  - by apply srv_adopted.
  - split; [lia | | by rewrite aa_state | by rewrite aa_state |].
    + right. right. by exists args.
    + rewrite aa_vote. case_decide; [done |]. intros _. left. split; [done | lia].
Qed.

Lemma srv_RequestVote L C q rf t1 args reply rf' :
  0 < len (Log rf) -> asks C args -> RequestVote t1 args rf = Ok (reply, rf') -> srv_step L C q rf rf'.
Proof.
  intros Hl Hask H. destruct (RequestVote_total t1 args rf Hl) as (r & rf1 & He & Hc).
  rewrite H in He. injection He as <- <-.
  destruct Hc as [(_ & -> & ->) | [(HT & _ & -> & ->) | (Hm & Hup & -> & ->)]].
  - apply srv_refl.
  - by apply srv_adopted.
  - assert (HT : CurrentTerm rf <= rv_Term args) by (destruct Hm as [|[]]; lia).
    unfold voted. split; raft_fields; rewrite ?adopted_Log, ?adopted_CurrentTerm by done; try done.
    + by left.
    + intros _. right. right. by exists args.
Qed.

Lemma srv_campaigning L C q rf rf' :
  me rf = q -> campaigning rf rf' -> CurrentTerm rf' = CurrentTerm rf + 1 -> srv_step L C q rf rf'.
Proof.
  intros Hme [] HT. split; [lia | by left | | by rewrite cp_state |].
  - intros _. split; [done |]. left. lia.
  - intros _. right. left. split; [congruence | done].
Qed.

Lemma srv_sender_handle L C q rf i next args reply bc bc' r rf' :
  CurrentTerm rf = ae_Term args -> sender_handle i next args reply bc rf = Ok ((bc', r), rf') -> srv_step L C q rf rf'.
Proof.
  intros HT H. unfold sender_handle in H. destruct (aer_Success reply).
  - apply sender_accepted_inv in H as ([] & _). by apply srv_same.
  - sec_inv. match goal with H : sender_rejected _ _ _ _ _ = Ok _ |- _ =>
      apply sender_rejected_inv in H as [(? & _ & ->) | (_ & _ & ni & _ & _ & _ & ->)] end.
    + apply srv_stepped_down. lia.
    + by apply srv_same.
Qed.

Lemma srv_vote_handle L C q rf reply nv nv' won_ rf' :
  vote_handle reply nv rf = Ok ((nv', won_), rf') -> srv_step L C q rf rf'.
Proof.
  intros (_ & [((_ & Hs & _) & _ & []) | (_ & _ & [(_ & ? & ->) | (_ & ->)])])%vote_handle_inv.
  - split; [lia | by left | by rewrite won_state | |].
    + intros _. split; [done |]. by right.
    + intros _. by left.
  - apply srv_stepped_down. lia.
  - apply srv_refl.
Qed.

Definition servers_step (L : ledger) (C : cands) (w w' : World) : Prop :=
  peers w' = peers w \/
  exists q rf rf', peers w !! q = Some rf /\ peers w' = <[q := rf']> (peers w) /\ srv_step L C q rf rf'.

Lemma servers_step_forth L C w w' q rf :
  servers_step L C w w' -> peers w !! q = Some rf -> exists rf', peers w' !! q = Some rf' /\ srv_step L C q rf rf'.
Proof.
  intros [-> | (q' & rf1 & rf1' & Hq' & -> & Hs)] Hq; [exists rf; split; [done | apply srv_refl] |].
  rewrite lookup_insert. case_decide as E; [| exists rf; split; [done | apply srv_refl]].
  subst. exists rf1'. split; [done |]. rewrite Hq in Hq'. by injection Hq' as <-.
Qed.

Lemma servers_step_dom L C w w' q : servers_step L C w w' -> is_Some (peers w' !! q) -> is_Some (peers w !! q).
Proof.
  intros [-> | (q' & rf1 & rf1' & Hq' & -> & _)]; [done |]. rewrite lookup_insert. case_decide; [| done].
  subst. eauto.
Qed.

(** Every step of the cluster is such a step of its servers. *)
Lemma wstep_servers n w w' G L C :
  terms_fit w -> local_inv n w -> ledger_inv n w G L ->
  (forall t p g, threads w !! t = Some (p, g) -> core_thread C (peers w) p g) -> wstep w w' ->
  servers_step L C w w'.
Proof.
  intros Hfit Hl Hlg Hth Hs. destruct Hs; try (by left).
  - right. exists p, rf, rf'. split; [done |]. split; [done |]. destruct H1. by apply srv_same.
  - left. apply spawn_all_inv in H2 as []. done.
  - right. exists p, rf, rf'. split; [done |]. split; [done |].
    destruct (lg_threads _ _ _ _ Hlg _ _ _ H rf H0) as [Hst _]. destruct H1. split; [lia | | | |].
    + right. left. split; [done |]. split; [congruence | by eexists].
    + congruence.
    + intros _. split; [done | by left].
    + intros _. by left.
  - right. exists p, rf, rf'. split; [done |]. split; [done |]. destruct (lg_elections _ _ _ _ Hlg) as (E & _ & Hc).
    eapply srv_sender_handle; [| done]. exact (ci_ok _ _ _ _ _ _ _ Hc _ _ _ H rf H0).
  - right. exists p, rf, rf'. split; [done |]. split; [done |]. pose proof (li_peers _ _ Hl _ _ H0) as Hw.
    apply srv_campaigning; [apply Hw | done |]. pose proof (pw_term _ _ _ Hw). pose proof (Hfit p rf H0) as Hf. cbn in Hf.
    rewrite (cp_term _ _ H1), wrap64_small; [done | unfold MinInt; lia].
  - right. exists p, rf, rf'. split; [done |]. split; [done |]. by eapply srv_vote_handle.
  - right. exists p, rf, rf'. split; [done |]. split; [done |]. apply apply_one_inv in H2 as (-> & _). by apply srv_same.
  - right. exists i, rf, rf'. split; [done |]. split; [done |]. pose proof (lg_threads _ _ _ _ Hlg _ _ _ H) as Hg.
    eapply srv_AppendEntries; [| done]. destruct H0 as [(b & next & -> & _) | [-> _]]; exact Hg.
  - right. exists i, rf, rf'. split; [done |]. split; [done |]. pose proof (Hth _ _ _ H) as Hg.
    eapply srv_RequestVote; [by eapply wf_log_len, pw_log, li_peers | | done].
    destruct H0 as [(e & -> & _) | [-> _]]; exact Hg.
  - right. exists p, rf, rf'. split; [done |]. split; [done |]. 
    destruct (crash_restarts _ _ _ _ _ _ _ _ _ Hl H H0 H1) as [_ []].
    apply srv_follows; [done | done | by left |]. rewrite rs_vote. case_decide; [by left | right; split; [done | lia]].
Qed.

Lemma asks_mono (C C' : cands) args : (forall T c l, C T c l -> C' T c l) -> asks C args -> asks C' args.
Proof. intros HC (l & x & H & ?). exists l, x. split; [by apply HC | done]. Qed.

Lemma wstep_core_threads n w w' G L A C t p g :
  local_inv n w -> core_inv n w G L A C -> wstep w w' -> threads w' !! t = Some (p, g) ->
  threads w !! t = Some (p, g) \/ core_thread (cands' w' C) (peers w') p g.
Proof.
  intros Hl Hco Hs Ht.
  assert (Hmono : forall args, asks C args -> asks (cands' w' C) args)
    by (intros args; apply asks_mono; by left).
  destruct Hs.
  - by left.
  - apply spawned_lookup in Ht as [(-> & -> & ->) | [_ ?]]; [by right | by left].
  - apply spawned_lookup in Ht as [(-> & -> & ->) | [_ ?]]; [right | by left]. by destruct H0 as [-> | ->].
  - apply moved_lookup in Ht as [(-> & -> & ->) | [_ ?]]; [right | by left].
    pose proof (co_threads _ _ _ _ _ _ Hco _ _ _ H) as Hg.
    destruct g0; cbn in H0; try done; try (destruct g; cbn; try done; naive_solver).
  - apply moved_lookup in Ht as [(-> & -> & [= <-]) | [_ ?]]; [by right | by left].
  - apply spawn_all_inv in H2 as []. apply sa_threads in Ht as [Ht | (_ & -> & i & _ & _ & ->)]; [left | by right].
    cbn in Ht. rewrite lookup_delete in Ht. by case_decide.
  - apply moved_lookup in Ht as [(-> & -> & [= <-]) | [_ ?]]; [by right | by left].
  - apply moved_lookup in Ht as [(-> & -> & Hog) | [_ ?]]; [right | by left]. by destruct r; simplify_eq.
  - apply moved_lookup in Ht as [(-> & -> & [= <-]) | [_ ?]]; [right | by left].
    intros rf1. cbn. rewrite lookup_insert_eq. intros [= <-]. apply H1.
  - pose proof (co_threads _ _ _ _ _ _ Hco _ _ _ H) as Hg. cbn in Hg.
    apply moved_lookup in Ht as [(-> & -> & [= <-]) | [_ Ht]]; [by right |].
    apply spawned_lookup in Ht as [(-> & -> & ->) | [_ ?]]; [right | by left].
    pose proof (li_peers _ _ Hl _ _ H0) as Hw.
    destruct (election_args_Ok rf (wf_log_len _ (pw_log _ _ _ Hw))) as (x & Hx & Ha).
    rewrite H3 in Ha. injection Ha as ->. apply Hmono. exists (Log rf), x. cbn.
    split; [| done]. apply (co_cands_now _ _ _ _ _ _ Hco). exists rf.
    rewrite (pw_me _ _ _ Hw). auto.
  - apply moved_lookup in Ht as [(-> & -> & Hog) | [_ ?]]; [right | by left]. by destruct won_; [injection Hog as <- |].
  - apply moved_lookup in Ht as [(-> & -> & [= <-]) | [_ ?]]; [by right | by left].
  - apply moved_lookup in Ht as [(-> & -> & [= <-]) | [_ ?]]; [by right | by left].
  - apply moved_lookup in Ht as [(-> & -> & Hog) | [_ ?]]; [right | by left].
    destruct H0 as [(b & next & -> & ->) | [-> ->]]; [by injection Hog as <- | done].
  - apply moved_lookup in Ht as [(-> & -> & Hog) | [_ ?]]; [right | by left].
    destruct H0 as [(e & -> & ->) | [-> ->]]; [by injection Hog as <- | done].
  - destruct (crash_restarts _ _ _ _ _ _ _ _ _ Hl H H0 H1) as [Hsv _].
    cbn in Ht. rewrite lookup_insert in Ht. case_decide; [injection Ht as <- <-; by right |].
    apply (survivors_killed _ _ _ _ _ _ Hsv) in Ht as (g0 & Ht & [[_ ->] | [-> Ho]]); [by left | right].
    pose proof (co_threads _ _ _ _ _ _ Hco _ _ _ Ht) as Hg.
    destruct g0; cbn in Ho; try done; injection Ho as <-; try done; by apply Hmono.
Qed.

Lemma core_inv_step n w w' G G' L L' A C :
  terms_fit w -> local_inv n w -> local_inv n w' -> isolated w w' -> wstep w w' ->
  core_inv n w G L A C -> ledger_inv n w G L -> ledger_inv n w' G' L' ->
  votes_grow w' G G' -> ledger_grow w' L L' ->
  core_inv n w' G' L' (acks' w' A) (cands' w' C).
Proof.
  intros Hfit Hl Hl' Hiso Hs Hco Hlg Hlg' HG HL.
  pose proof (wstep_servers n w w' G L C Hfit Hl Hlg (co_threads _ _ _ _ _ _ Hco) Hs) as Hss.
  eapply (core_step n w w' G G' L L' A C); try done.
  - intros q rf Hq. by eapply servers_step_forth.
  - intros q. by eapply servers_step_dom.
  - intros t p g Ht. destruct (wstep_core_threads n w w' G L A C t p g Hl Hco Hs Ht) as [Ht0 | ?]; [| done].
    pose proof (co_threads _ _ _ _ _ _ Hco _ _ _ Ht0) as Hg. destruct g; cbn in Hg |- *; try done.
    + intros rf' Hp'. pose proof (isolated_stand w w' t p (GElectLoop e i) Hiso Ht0 Ht eq_refl) as Hst.
      unfold stand in Hst. rewrite Hp' in Hst. destruct (peers w !! p) as [rf|] eqn:Hp; [| done].
      cbn in Hst. injection Hst as _ ->. by apply Hg.
    + eapply asks_mono; [| exact Hg]. by left.
    + eapply asks_mono; [| exact Hg]. by left.
Qed.

Lemma core_inv_initial n tm : core_inv n (initial n tm) ∅ ∅ ∅ (fun _ _ _ => False).
Proof.
  assert (Hp : forall p rf, peers (initial n tm) !! p = Some rf -> CurrentTerm rf = 0 /\ state rf = Follower /\ Log rf = [sentinel]).
  { intros p rf [_ ->]%initial_peers. destruct (fresh_peer_recovered n p tm) as (rf & _ & -> & -> & _ & -> & -> & _). done. }
  split; try done.
  - intros p rf (-> & _ & ->)%Hp. by apply Forall_singleton.
  - intros [[q T] i] (rf & x & Hq & -> & _ & _ & Hpos)%elem_of_acks_of. apply Hp in Hq as (HT & _). lia.
  - intros T c l (rf & Hc & Hst & _). apply Hp in Hc as (_ & Hf & _). congruence.
  - by intros t p g (_ & _ & ->)%initial_threads.
Qed.
