(* ===== verification/RaftSafety.v ===== *)
(** * State Machine Safety

    In the isolated executions of RaftElection: a server that considers an entry
    committed has the log of a leader whose entry a majority held, every leader
    of that term or a later one has the same entries, and two servers never
    apply different commands at the same index.  On top of RaftCommit the proof
    follows the broadcasts: which servers were counted for each of them. *)

From S2P Require Import Prelude LabGob Persister Raft RaftRPC RaftNode RaftSystem RaftSteps RaftRaces RaftLocal RaftApply RaftElection RaftLogs RaftCommit.

(** ** Committed indices *)

(** In term [V], every index up to [c] is committed. *)
Definition committed_by (n : Z) (A : acks) (V c : Z) : Prop :=
  c <= 0 \/ exists T i, chosen n A T i /\ T <= V /\ c <= Z.of_nat i.

(** The log of [rf] up to [c] is the committed one. *)
Definition srv_committed (n : Z) (L : ledger) (A : acks) (rf : Raft) (c : Z) : Prop :=
  c <= 0 \/ exists T i p l, chosen n A T i /\ T <= CurrentTerm rf /\ c <= Z.of_nat i /\
    L !! T = Some (p, l) /\ same_upto (Z.to_nat c) (Log rf) l.

(** Message [m] of applyCh carries the committed command of its index. *)
Definition agreed (n : Z) (L : ledger) (A : acks) (m : ApplyMsg) : Prop :=
  exists T i p l x, chosen n A T i /\ L !! T = Some (p, l) /\ (i < length l)%nat /\
    0 <= CommandIndex m <= Z.of_nat i /\ l !! Z.to_nat (CommandIndex m) = Some x /\ Command x = am_Command m.

(** Server [q] has entry [i] of the leader of term [T], and has held it in term
    [T] if it is an entry of that term. *)
Definition got (L : ledger) (A : acks) (q T : Z) (i : nat) : Prop :=
  exists p l x, L !! T = Some (p, l) /\ l !! i = Some x /\ (Term x = T -> (q, T, i) ∈ A).

(** [q] has everything up to the last entry of the request. *)
Definition covers (L : ledger) (A : acks) (q : Z) (args : AppendEntriesArgs) : Prop :=
  forall i, Z.of_nat i <= ae_PrevLogIndex args + len (ae_Entries args) -> got L A q (ae_Term args) i.

(** ** Broadcasts

    [K] gives for every broadcast its server and the servers that were counted. *)
Definition counts := gmap nat (Z * gset Z).

Definition sender (n : Z) (bs : gmap nat Bcast) (K : counts) (p : Z) (b : nat) (i : Z) (bc : Bcast) : Prop :=
  exists S, K !! b = Some (p, S) /\ bs !! b = Some bc /\ i ∉ S /\ 0 <= i < n.

Definition sends (n : Z) (bs : gmap nat Bcast) (A : acks) (K : counts) (p : Z) (b : nat) (i : Z)
    (args : AppendEntriesArgs) : Prop :=
  exists bc, sender n bs K p b i bc /\ ae_Term args = b_term bc /\
    b_index bc <= ae_PrevLogIndex args + len (ae_Entries args) /\ committed_by n A (ae_Term args) (ae_LeaderCommit args).

(** The broadcast and the peer a sender works for. *)
Definition sender_of (g : Goroutine) : option (nat * Z) :=
  match g with
  | GSend b i | GSendTerm b i | GSendArgs b i | GSendEnc b i _ _ | GSendCall b i _ _
  | GSendRet b i _ _ _ | GSendCheck b i _ _ _ | GSendHandle b i _ _ _ => Some (b, i)
  | _ => None
  end.

Definition now_committed (n : Z) (ps : gmap Z Raft) (L : ledger) (A : acks) (p c : Z) : Prop :=
  forall rf, ps !! p = Some rf -> srv_committed n L A rf c.

Definition safe_thread (n : Z) (ps : gmap Z Raft) (bs : gmap nat Bcast) (L : ledger) (A : acks) (K : counts)
    (p : Z) (g : Goroutine) : Prop :=
  match g with
  | GBcast _ T c | GBcastTerm _ T c => committed_by n A T c
  | GSend b i | GSendTerm b i | GSendArgs b i => exists bc, sender n bs K p b i bc
  | GSendEnc b i _ args | GSendCall b i _ args => sends n bs A K p b i args
  | GSendRet b i _ args r | GSendCheck b i _ args r | GSendHandle b i _ args r =>
      sends n bs A K p b i args /\ (aer_Success r = true -> covers L A i args)
  | GOrphanAE _ args => committed_by n A (ae_Term args) (ae_LeaderCommit args)
  | GApplyLoop _ c => now_committed n ps L A p c
  | GApplySend m _ c => agreed n L A m /\ now_committed n ps L A p c
  | _ => True
  end.

Definition counted (n : Z) (L : ledger) (A : acks) (K : counts) (b : nat) (bc : Bcast) : Prop :=
  committed_by n A (b_term bc) (b_commitIndex bc) /\
  exists p S, K !! b = Some (p, S) /\ p ∈ S /\ b_nReplica bc = Z.of_nat (size S) /\
    forall q, q ∈ S -> 0 <= q < n /\ (q <> p -> 0 <= b_index bc -> got L A q (b_term bc) (Z.to_nat (b_index bc))).

Record safe_inv (n : Z) (w : World) (L : ledger) (A : acks) (K : counts) : Prop := {
  sf_commit : forall p rf, peers w !! p = Some rf -> srv_committed n L A rf (commitIndex rf);
  sf_bcasts : forall b bc, bcasts w !! b = Some bc -> counted n L A K b bc;
  sf_threads : forall t p g, threads w !! t = Some (p, g) -> safe_thread n (peers w) (bcasts w) L A K p g;
  sf_unique : forall t t' p p' g g' k, threads w !! t = Some (p, g) -> threads w !! t' = Some (p', g') ->
    sender_of g = Some k -> sender_of g' = Some k -> t = t';
  sf_applied : forall p, Forall (agreed n L A) (sent_by w p);
}.

(** ** Everything is stable *)

Section mono.
Context (n : Z) (L L' : ledger) (A A' : acks).
Hypothesis HL : extends L L'.
Hypothesis HA : A ⊆ A'.

Lemma chosen_mono T i : chosen n A T i -> chosen n A' T i.
Proof. intros (Q & HQ & Hq). exists Q. split; [done |]. set_solver. Qed.

Lemma committed_by_mono V c : committed_by n A V c -> committed_by n A' V c.
Proof. intros [? | (T & i & Hc & ?)]; [by left | right]. exists T, i. split; [by apply chosen_mono | done]. Qed.

Lemma srv_committed_mono rf c : srv_committed n L A rf c -> srv_committed n L' A' rf c.
Proof.
  intros [? | (T & i & p & l & Hc & HT & Hi & Hl & Hs)]; [by left | right].
  destruct (HL _ _ _ Hl) as (k & Hl'). exists T, i, p, (l ++ k).
  split; [by apply chosen_mono |]. split_and!; [done | done | done | by apply same_upto_app_r].
Qed.

Lemma agreed_mono m : agreed n L A m -> agreed n L' A' m.
Proof.
  intros (T & i & p & l & x & Hc & Hl & Hlen & Hi & Hx & Hm). destruct (HL _ _ _ Hl) as (k & Hl').
  exists T, i, p, (l ++ k), x. split; [by apply chosen_mono |]. split; [done |].
  split; [rewrite length_app; lia |]. split; [done |]. split; [by apply lookup_app_l_Some | done].
Qed.

Lemma got_mono q T i : got L A q T i -> got L' A' q T i.
Proof.
  intros (p & l & x & Hl & Hx & Hq). destruct (HL _ _ _ Hl) as (k & Hl').
  exists p, (l ++ k), x. split; [done |]. split; [by apply lookup_app_l_Some |]. auto.
Qed.

Lemma covers_mono q args : covers L A q args -> covers L' A' q args.
Proof. intros H i Hi. by apply got_mono, H. Qed.

Lemma counted_mono K b bc : counted n L A K b bc -> counted n L' A' K b bc.
Proof.
  intros [Hc (p & S & HK & Hp & Hn & HS)]. split; [by apply committed_by_mono |].
  exists p, S. split; [done |]. split; [done |]. split; [done |]. intros q [Hr Hg]%HS.
  split; [done |]. intros. by apply got_mono, Hg.
Qed.

(** A goroutine that does not act. *)
Lemma safe_thread_mono ps ps' bs bs' K K' p g :
  (forall b bc, bs !! b = Some bc -> exists bc', bs' !! b = Some bc' /\ b_term bc' = b_term bc /\ b_index bc' = b_index bc) ->
  (forall b i S, sender_of g = Some (b, i) -> is_Some (bs !! b) -> K !! b = Some (p, S) -> i ∉ S ->
     exists S', K' !! b = Some (p, S') /\ i ∉ S') ->
  (forall c, now_committed n ps L A p c -> now_committed n ps' L' A' p c) ->
  safe_thread n ps bs L A K p g -> safe_thread n ps' bs' L' A' K' p g.
Proof.
  intros Hbs HK Hps.
  assert (Hs : forall b i bc, sender_of g = Some (b, i) -> sender n bs K p b i bc ->
    exists bc', sender n bs' K' p b i bc' /\ b_term bc' = b_term bc /\ b_index bc' = b_index bc).
  { intros b i bc Hg (S & HKb & Hb & Hi & Hr). destruct (Hbs b bc Hb) as (bc' & Hb' & ? & ?).
    destruct (HK b i S Hg ltac:(by eexists) HKb Hi) as (S' & ? & ?). exists bc'. split; [| done]. by exists S'. }
  assert (Hsend : forall b i args, sender_of g = Some (b, i) -> sends n bs A K p b i args -> sends n bs' A' K' p b i args).
  { intros b i args Hg (bc & Hse & HT & Hi & Hc). destruct (Hs b i bc Hg Hse) as (bc' & ? & ? & ?).
    exists bc'. split; [done |]. split; [congruence |]. split; [congruence | by apply committed_by_mono]. }
  destruct g; cbn in *; try done; try (by apply committed_by_mono); try (by apply Hsend); try (by apply Hps).
  - intros [bc (bc' & ? & _)%Hs]; [by exists bc' | done].
  - intros [bc (bc' & ? & _)%Hs]; [by exists bc' | done].
  - intros [bc (bc' & ? & _)%Hs]; [by exists bc' | done].
  - intros [? Hc]. split; [by apply Hsend | intros; by apply covers_mono, Hc].
  - intros [? Hc]. split; [by apply Hsend | intros; by apply covers_mono, Hc].
  - intros [? Hc]. split; [by apply Hsend | intros; by apply covers_mono, Hc].
  - intros [Ha Hc]. split; [by apply agreed_mono | by apply Hps].
Qed.
End mono.

(** ** What RaftCommit gives *)

Section facts.
Context (n : Z) (w : World) (G : votes) (L : ledger) (A : acks) (C : cands).
Hypothesis Hn : 0 <= n.
Hypothesis Hco : core_inv n w G L A C.
Hypothesis Hlg : ledger_inv n w G L.

Lemma chosen_own T i : chosen n A T i -> own_entry L T i.
Proof.
  intros (Q & [Hs _] & HQ). destruct (decide (Q = ∅)) as [-> | [q Hq]%set_choose_L].
  - rewrite size_empty in Hs. pose proof (Z.quot_pos n 2). lia.
  - by eapply (co_acks _ _ _ _ _ _ Hco), HQ.
Qed.

(** Leader Completeness: the leader of a later term has what was chosen. *)
Lemma leaders_have T i p l V q lV :
  chosen n A T i -> L !! T = Some (p, l) -> L !! V = Some (q, lV) -> T <= V -> same_upto i lV l.
Proof.
  intros Hc Hl HV HT. pose proof (chosen_own T i Hc) as Hown. destruct (decide (T = V)) as [<- | Hne].
  - rewrite Hl in HV. injection HV as <- <-. destruct Hown as (? & ? & x & Hl' & Hx & _).
    rewrite Hl in Hl'. injection Hl' as <- <-. apply same_upto_refl. by eapply lookup_lt_Some.
  - destruct (includes_kept n (peers w) L A lV T i Hn Hc) as (p' & l' & Hl' & Hs).
    { eapply (co_leaders _ _ _ _ _ _ Hco); [done | lia | done]. }
    rewrite Hl in Hl'. by injection Hl' as <- <-.
Qed.

Lemma chosen_agree T i p l U j q l' k :
  chosen n A T i -> L !! T = Some (p, l) -> chosen n A U j -> L !! U = Some (q, l') ->
  (k <= i)%nat -> (k <= j)%nat -> l !! k = l' !! k.
Proof.
  intros Hc Hl Hc' Hl' Hi Hj. destruct (decide (T <= U)).
  - symmetry. eapply same_upto_lookup; [| exact Hi]. by eapply (leaders_have T i p l U q l').
  - eapply same_upto_lookup; [| exact Hj]. eapply (leaders_have U j q l' T p l); try done. lia.
Qed.

Lemma ledger_log_ok T p l : L !! T = Some (p, l) -> log_ok L l.
Proof. by intros [? _]%(lg_owner _ _ _ _ Hlg). Qed.

(** The committed part of a log stays. *)
Lemma srv_committed_step q rf rf' c :
  peers w !! q = Some rf -> srv_step L C q rf rf' -> srv_committed n L A rf c -> srv_committed n L A rf' c.
Proof.
  intros Hq Hs [? | (T & i & p & l & Hc & HT & Hi & Hl & Hu)]; [by left |].
  destruct (decide (c <= 0)); [by left | right]. exists T, i, p, l. pose proof (ss_term _ _ _ _ _ Hs) as Hle.
  split_and!; [done | lia | done | done |].
  destruct (ss_log _ _ _ _ _ Hs) as [-> | [(_ & _ & cmd & ->) | (args & Hm & HT' & _ & Hp & ->)]].
  - done.
  - by apply same_upto_app_l.
  - pose proof Hm as (p' & lV & HV & _).
    assert (HlV : same_upto (Z.to_nat c) lV l).
    { eapply same_upto_le; [| by eapply (leaders_have T i p l (ae_Term args)); try done; lia]. lia. }
    eapply same_upto_trans; [| exact HlV]. eapply merged_keeps; [apply ledger_log_ok | by eapply lg_peers | done | done | done |].
    eapply same_upto_trans; [exact Hu | by apply same_upto_sym].
Qed.

(** After an accepted request the log is the leader's up to its last entry. *)
Lemma accepted_matches log args p lV :
  log_ok L log -> msg_ok L args -> L !! ae_Term args = Some (p, lV) -> prev_matches log args ->
  same_upto (Z.to_nat (ae_PrevLogIndex args + len (ae_Entries args))) (merged log args) lV.
Proof.
  intros Hlog (p' & l' & HV' & Hp & Ht & Hes) HV Hm. rewrite HV in HV'. injection HV' as <- <-.
  destruct (lV !! Z.to_nat (ae_PrevLogIndex args)) as [x|] eqn:Hx; [| done]. cbn in Ht. injection Ht as Ht.
  apply lookup_lt_Some in Hx as Hlt. set (prev := ae_PrevLogIndex args) in *.
  set (m := length (ae_Entries args)) in *. assert (Hlen : (Z.to_nat (prev + 1) + m <= length lV)%nat).
  { pose proof (f_equal length Hes) as Hl. rewrite length_take, length_drop in Hl. fold m in Hl. lia. }
  assert (Heq : take (Z.to_nat (prev + len (ae_Entries args) + 1)) (merged log args) =
                take (Z.to_nat (prev + len (ae_Entries args) + 1)) lV).
  { eapply (merged_prefix lV log args (prev + 1) _ x).
    - eapply log_ok_matching; [by eapply ledger_log_ok | done].
    - lia.
    - unfold len. fold m. lia.
    - apply idx_Ok. replace (prev + 1 - 1) with prev by lia. done.
    - fold prev. lia.
    - done.
    - unfold entries_between, len. fold m. rewrite Hes at 1. f_equal; lia.
    - done. }
  unfold len in *. fold m in Heq |- *. replace (Z.to_nat (prev + Z.of_nat m + 1)) with (S (Z.to_nat (prev + Z.of_nat m))) in Heq by lia.
  apply same_upto_sym.
  destruct (lookup_lt_is_Some_2 lV (Z.to_nat (prev + Z.of_nat m))) as [y Hy]; [lia |].
  by eapply same_upto_intro.
Qed.

(** The commit index of an accepted request. *)
Lemma advanced_committed q rf rf' args :
  peers w !! q = Some rf -> CurrentTerm rf <= ae_Term args -> msg_ok L args ->
  committed_by n A (ae_Term args) (ae_LeaderCommit args) -> prev_matches (Log rf) args -> ae_accepted args rf rf' ->
  srv_step L C q rf rf' -> srv_committed n L A rf (commitIndex rf) -> srv_committed n L A rf' (commitIndex rf').
Proof.
  intros Hq HT Hm Hc Hp Ha Hs Hold. rewrite (aa_commit _ _ _ Ha). unfold advanced. case_decide as Hgt.
  2:{ by eapply srv_committed_step. }
  destruct Hc as [? | (T & i & Hc & HTV & Hi)]; [left; lia |].
  pose proof Hm as (p' & lV & HV & Hp0 & _). pose proof (chosen_own T i Hc) as (p & l & x & Hl & Hx & HTx).
  destruct (decide (ae_LeaderCommit args `min` (ae_PrevLogIndex args + len (ae_Entries args)) <= 0)); [by left | right].
  exists T, i, p, l. rewrite (aa_term _ _ _ Ha). split_and!; [done | done | lia | done |].
  eapply same_upto_trans.
  - rewrite (aa_log _ _ _ Ha). eapply same_upto_le; [| by eapply accepted_matches; [by eapply lg_peers | ..]]. lia.
  - eapply same_upto_le; [| by eapply (leaders_have T i p l (ae_Term args))]. lia.
Qed.

(** A majority counted for an entry of the leader's term. *)
Lemma commit_chosen p rf bc i (S : gset Z) :
  peers w !! p = Some rf -> b_term bc = CurrentTerm rf -> 0 < CurrentTerm rf ->
  commits bc rf -> npeers rf = n -> p ∈ S -> i ∉ S -> 0 <= i < n -> b_nReplica bc = Z.of_nat (size S) ->
  (forall q, q ∈ S -> 0 <= q < n /\ (q <> p -> 0 <= b_index bc -> got L A q (b_term bc) (Z.to_nat (b_index bc)))) ->
  (0 <= b_index bc -> got L A i (b_term bc) (Z.to_nat (b_index bc))) ->
  srv_committed n L A rf (b_index bc).
Proof.
  intros Hp HT Hpos (_ & _ & Hmaj & _ & x & Hx & HTx) Hnp HpS HiS Hir HnR HS Hgi. apply idx_Ok in Hx as [Hi0 Hx].
  pose proof (lg_peers _ _ _ _ Hlg _ _ Hp) as Hlog.
  destruct (log_ok_includes L (Log rf) _ x Hlog Hx) as (p' & l & Hl & Hu); [lia |]. rewrite HTx in Hl.
  right. exists (CurrentTerm rf), (Z.to_nat (b_index bc)), p', l.
  assert (Hack : forall q, (q <> p -> got L A q (b_term bc) (Z.to_nat (b_index bc))) ->
    (q, CurrentTerm rf, Z.to_nat (b_index bc)) ∈ A).
  { intros q Hq. destruct (decide (q = p)) as [-> | Hne].
    - apply (co_acks_now _ _ _ _ _ _ Hco). apply elem_of_acks_of. by exists rf, x.
    - destruct (Hq Hne) as (p2 & l2 & y & Hl2 & Hy & Hin). rewrite HT in Hl2, Hin. rewrite Hl in Hl2. injection Hl2 as <- <-.
      apply Hin. rewrite <- (same_upto_lookup _ _ _ _ Hu) in Hy by done. rewrite Hx in Hy. by injection Hy as <-. }
  split; [| split; [done |]; split; [lia |]; by split].
  exists ({[i]} ∪ S). split; [split |].
  - rewrite size_union, size_singleton by set_solver. rewrite Hnp in Hmaj. lia.
  - intros q [->%elem_of_singleton | Hq]%elem_of_union; [done | by apply HS].
  - intros q [->%elem_of_singleton | Hq]%elem_of_union; apply Hack; [auto |].
    intros Hne. by apply HS.
Qed.

(** The command applied at [i] is the committed one. *)
Lemma apply_agreed p rf i c m rf' :
  peers w !! p = Some rf -> srv_committed n L A rf c -> apply_one i rf = Ok (m, rf') -> 1 <= i <= c -> agreed n L A m.
Proof.
  intros Hp Hc (-> & x & Hx & ->)%apply_one_inv Hi.
  destruct Hc as [? | (T & j & q & l & Hch & HT & Hj & Hl & Hu)]; [lia |].
  apply idx_Ok in Hx as [_ Hx]. exists T, j, q, l, x. cbn.
  assert (own_entry L T j) as (? & ? & y & Hl' & Hy & _) by by apply chosen_own.
  rewrite Hl in Hl'. injection Hl' as <- <-. apply lookup_lt_Some in Hy.
  split; [done |]. split; [done |]. split; [lia |]. split; [lia |]. split; [| done].
  by rewrite <- (same_upto_lookup _ _ _ _ Hu) by lia.
Qed.
End facts.

(** ** The steps *)

Lemma srv_committed_by n L A rf c : srv_committed n L A rf c -> committed_by n A (CurrentTerm rf) c.
Proof. intros [? | (T & i & p & l & Hc & HT & Hi & _)]; [by left | right]. by exists T, i. Qed.

(** The request a sender builds reaches the index of its broadcast. *)
Lemma sender_args_sends n w L A K p b i bc rf next args :
  safe_inv n w L A K -> sender n (bcasts w) K p b i bc -> sender_args i bc rf = Ok ((next, args), rf) ->
  sends n (bcasts w) A K p b i args.
Proof.
  intros Hi Hs (_ & _ & x & Hx & Hlen & ->)%sender_args_inv. exists bc. split; [done |]. split; [done |].
  pose proof Hs as (S & _ & Hb & _). split; [| by destruct (sf_bcasts _ _ _ _ _ Hi _ _ Hb)].
  cbn. apply idx_Ok in Hx as [Hn Hx]. unfold entries_between, len. rewrite length_take, length_drop.
  unfold len in Hlen. apply lookup_lt_Some in Hx. lia.
Qed.

Lemma aliased_sends n bs A K p b i j next log args :
  sends n bs A K p b i args -> sends n bs A K p b i (aliased j next log args).
Proof.
  intros (bc & Hs & HT & Hi & Hc). exists bc. unfold aliased. destruct (log !! _); [| done].
  cbn. unfold len. by rewrite length_insert.
Qed.

Lemma reads_safe n w L A K tid p rf g g' :
  safe_inv n w L A K -> threads w !! tid = Some (p, g) -> reads w p rf g (Some g') ->
  peers w !! p = Some rf \/ unlocked g (Some g') ->
  safe_thread n (peers w) (bcasts w) L A K p g' /\ (sender_of g' = None \/ sender_of g' = sender_of g).
Proof.
  intros Hi Ht Hr Hp. pose proof (sf_threads _ _ _ _ _ Hi _ _ _ Ht) as Hg.
  assert (Hc : peers w !! p = Some rf -> srv_committed n L A rf (commitIndex rf)) by apply (sf_commit _ _ _ _ _ Hi).
  destruct g; cbn [reads] in Hr; cbn [safe_thread] in Hg; cbn [unlocked] in Hp; try done.
  - injection Hr as ->. destruct Hp as [Hp | []]. split; [by apply (srv_committed_by n L), Hc | by left].
  - destruct Hr as [[[= ->] _] | [=]]. split; [done | by left].
  - injection Hr as ->. destruct Hp as [Hp | []]. split; [by apply (srv_committed_by n L), Hc | by left].
  - destruct Hr as [[[= ->] _] | [=]]. split; [done | by left].
  - destruct Hr as [[[= ->] _] | [=]]. split; [done | by right].
  - destruct Hr as (bc & _ & [[[= ->] _] | [=]]). split; [done | by right].
  - destruct Hr as (bc & next & args & Hb & Ha & [= ->]). split; [| by right]. destruct Hg as (bc' & Hs).
    assert (bc' = bc) as -> by (destruct Hs as (S & _ & Hb' & _); congruence). by eapply sender_args_sends.
  - destruct Hr as [[= ->] | (j & [= ->])]; (split; [| by right]); [done | by apply aliased_sends].
  - injection Hr as ->. split; [| by left]. by destruct Hg as (bc & _ & _ & _ & ?).
  - destruct Hr as [[= ->] | [=]]. split; [done | by right].
  - destruct Hr as [[[= ->] _] | [=]]. split; [done | by right].
  - destruct Hr as [[? _] | [[= ->] _]]; [done |]. split; [done | by left].
  - injection Hr as ->. split; [done | by left].
  - destruct Hr as [[= ->] | [=]]. split; [done | by left].
  - destruct Hr as [[[= ->] _] | [=]]. split; [done | by left].
  - destruct Hr as [[= ->] | [= ->]]; (split; [| by left]); [done |]. destruct Hp as [Hp | []].
    intros rf1 Hp1. rewrite Hp in Hp1. injection Hp1 as <-. by apply Hc.
  - injection Hr as ->. split; [done | by left].
  - injection Hr as ->. split; [done | by left].
  - destruct Hr as [[= ->] _]. split; [done | by left].
Qed.

Section safe_step.
Context (n : Z) (w w' : World) (G : votes) (L L' : ledger) (A A' : acks) (C : cands) (K : counts).
Hypothesis Hn : 0 <= n.
Hypothesis Hco : core_inv n w G L A C.
Hypothesis Hlg : ledger_inv n w G L.
Hypothesis Hss : servers_step L C w w'.
Hypothesis HL : extends L L'.
Hypothesis HA : A ⊆ A'.
Hypothesis Hi : safe_inv n w L A K.

Lemma now_committed_step p c : now_committed n (peers w) L A p c -> now_committed n (peers w') L' A' p c.
Proof.
  intros H rf' Hp'. destruct (servers_step_dom L C w w' p Hss) as [rf Hp]; [by eexists |].
  destruct (servers_step_forth L C w w' p rf Hss Hp) as (rf1 & Hp1 & Hs). rewrite Hp' in Hp1. injection Hp1 as <-.
  eapply srv_committed_mono; [done | done |]. eapply (srv_committed_step n w G L A C Hn Hco Hlg); [done | done | by apply H].
Qed.

(** The commit indices after the step. *)
Definition commits_ok : Prop :=
  forall p rf', peers w' !! p = Some rf' -> srv_committed n L' A' rf' (commitIndex rf').

Lemma commits_same : (forall p rf', peers w' !! p = Some rf' -> exists rf, peers w !! p = Some rf /\
    (commitIndex rf' = commitIndex rf \/ commitIndex rf' = 0 \/ srv_committed n L A rf' (commitIndex rf'))) -> commits_ok.
Proof.
  intros H p rf' Hp'. destruct (H p rf' Hp') as (rf & Hp & Hc). destruct Hc as [-> | [-> | Hc]].
  - apply (now_committed_step p); [| done]. intros rf1 Hp1. rewrite Hp in Hp1. injection Hp1 as <-.
    by eapply (sf_commit _ _ _ _ _ Hi).
  - by left.
  - by eapply srv_committed_mono.
Qed.

(** A sender stays at its work, or a goroutine is none. *)
Definition same_sender (t : nat) (g : Goroutine) : Prop :=
  sender_of g = None \/ exists p0 g0, threads w !! t = Some (p0, g0) /\ sender_of g = sender_of g0.

Lemma unique_kept :
  (forall t p g, threads w' !! t = Some (p, g) -> same_sender t g) ->
  forall t t' p p' g g' k, threads w' !! t = Some (p, g) -> threads w' !! t' = Some (p', g') ->
    sender_of g = Some k -> sender_of g' = Some k -> t = t'.
Proof.
  intros Hth t t' p p' g g' k Ht Ht' Hk Hk'.
  destruct (Hth _ _ _ Ht) as [? | (? & ? & H1 & ?)]; [congruence |].
  destruct (Hth _ _ _ Ht') as [? | (? & ? & H2 & ?)]; [congruence |].
  apply (sf_unique _ _ _ _ _ Hi t t' _ _ _ _ k H1 H2); congruence.
Qed.

(** Steps that do not concern the counts. *)
Lemma safe_local :
  bcasts w' = bcasts w -> commits_ok ->
  (forall t p g, threads w' !! t = Some (p, g) -> threads w !! t = Some (p, g) \/
    (safe_thread n (peers w') (bcasts w') L' A' K p g /\ same_sender t g)) ->
  (forall p, Forall (agreed n L' A') (sent_by w' p)) -> safe_inv n w' L' A' K.
Proof.
  intros Hb Hc Hth Hap. split.
  - done.
  - intros b bc. rewrite Hb. intros Hbc. eapply counted_mono; [done | done |]. by apply (sf_bcasts _ _ _ _ _ Hi).
  - intros t p g Ht. destruct (Hth _ _ _ Ht) as [Ht0 | [? _]]; [| done].
    eapply (safe_thread_mono n L L' A A' HL HA (peers w) (peers w') (bcasts w) (bcasts w') K K).
    + rewrite Hb. intros b bc Hbc. by exists bc.
    + intros b i S _ _ HK Hnot. by exists S.
    + apply now_committed_step.
    + by apply (sf_threads _ _ _ _ _ Hi _ _ _ Ht0).
  - apply unique_kept. intros t p g Ht. destruct (Hth _ _ _ Ht) as [Ht0 | [_ ?]]; [| done]. right. by exists p, g.
  - done.
Qed.

Lemma applied_same : applied w' = applied w -> forall p, Forall (agreed n L' A') (sent_by w' p).
Proof.
  intros Ha p. unfold sent_by. rewrite Ha. eapply Forall_impl; [apply (sf_applied _ _ _ _ _ Hi) |].
  intros m. by apply agreed_mono.
Qed.
End safe_step.

(** A reply is handled: an acceptance is counted. *)
Lemma safe_accepted n w G L L' A A' C K tid p rf b i next args reply bc bc' r rf' :
  0 <= n -> core_inv n w G L A C -> ledger_inv n w G L -> extends L L' -> A ⊆ A' -> safe_inv n w L A K ->
  local_inv n w -> threads w !! tid = Some (p, GSendHandle b i next args reply) -> peers w !! p = Some rf ->
  CurrentTerm rf = ae_Term args -> bcasts w !! b = Some bc -> aer_Success reply = true ->
  sender_accepted i bc rf = Ok ((bc', r), rf') ->
  let w' := moved tid p (match r with
      | SReturn => None | SRetry => Some (GSend b i) | SHeartbeat => Some GHeart end)
    (set_bcasts (<[b := bc']> (bcasts w)) (updated p rf' w)) in
  servers_step L C w w' -> exists K', safe_inv n w' L' A' K'.
Proof.
  intros Hn Hco Hlg HL HA Hi Hl Ht Hp HT Hb Hok Hh w' Hss.
  destruct (sf_threads _ _ _ _ _ Hi _ _ _ Ht) as [(bc0 & (S & HK & Hb0 & HiS & Hir) & HTb & Hidx & _) Hcov].
  rewrite Hb in Hb0. injection Hb0 as <-. specialize (Hcov Hok).
  destruct (sf_bcasts _ _ _ _ _ Hi _ _ Hb) as (Hcb & p0 & S0 & HK0 & HpS & HnR & HS).
  rewrite HK in HK0. injection HK0 as <- <-.
  assert (Hgi : 0 <= b_index bc -> got L A i (b_term bc) (Z.to_nat (b_index bc))).
  { intros H0. rewrite <- HTb. apply Hcov. lia. }
  pose proof (li_peers _ _ Hl _ _ Hp) as Hw.
  apply sender_accepted_inv in Hh as (Hun & _ & _ & Hcase).
  assert (Hbc' : exists agree, bc' = bcast_counted bc agree) by (destruct Hcase as [(_ & -> & _) | (_ & ? & _)]; eauto).
  assert (Hcm : srv_committed n L A rf' (commitIndex rf')).
  { assert (Hstep : srv_step L C p rf rf') by (destruct Hun; by apply srv_same).
    eapply (srv_committed_step n w G L A C Hn Hco Hlg); [done | exact Hstep |].
    destruct Hcase as [(Hcs & _ & _ & ->) | (_ & _ & _ & ->)]; [| by eapply (sf_commit _ _ _ _ _ Hi)].
    eapply (commit_chosen n w G L A C Hn Hco Hlg p rf bc i S); try done; [congruence | | apply Hw].
    enough (1 <= CurrentTerm rf) by lia. apply (pw_active _ _ _ Hw). destruct Hcs as (_ & -> & _). done. }
  exists (<[b := (p, {[i]} ∪ S)]> K). split.
  - apply (commits_same n w w' G L L' A A' C K); try done. intros q rf1. cbn. rewrite lookup_insert.
    case_decide as E; [intros [= <-]; subst q; exists rf; auto | intros Hq; exists rf1; auto].
  - intros b1 bc1. cbn. rewrite lookup_insert. case_decide as E.
    + intros [= <-]. subst b1. destruct Hbc' as [agree ->]. split; [by eapply committed_by_mono |].
      exists p, ({[i]} ∪ S). cbn. rewrite (lookup_insert_eq K). split; [done |]. split; [set_solver |].
      split; [rewrite size_union, size_singleton by set_solver; lia |].
      intros q [->%elem_of_singleton | Hq]%elem_of_union.
      * split; [done |]. intros _ H0. eapply got_mono; [done | done |]. auto.
      * destruct (HS q Hq) as [? Hg]. split; [done |]. intros. eapply got_mono; [done | done |]. auto.
    + intros Hbc1. destruct (sf_bcasts _ _ _ _ _ Hi _ _ Hbc1) as (Hc1 & p1 & S1 & HK1 & Hrest).
      eapply counted_mono; [done | done |]. split; [done |]. exists p1, S1. split; [| done].
      by rewrite (lookup_insert_ne K).
  - intros t q g Hq. apply moved_lookup in Hq as [(-> & -> & Hog) | [Hne Hq]]; [by destruct r; simplify_eq; destruct Hcase as [(_ & _ & ? & _) | (_ & _ & ? & _)] |].
    cbn in Hq. eapply (safe_thread_mono n L L' A A' HL HA (peers w) _ (bcasts w) _ K); [| | | by apply (sf_threads _ _ _ _ _ Hi _ _ _ Hq)].
    + intros b1 bc1 Hb1. cbn. rewrite lookup_insert. case_decide as E; [| by exists bc1]. subst b1.
      rewrite Hb in Hb1. injection Hb1 as <-. destruct Hbc' as [agree ->]. by eexists.
    + intros b1 i1 S1 Hsg _ HK1 Hi1. rewrite (lookup_insert K). case_decide as E; [| by exists S1]. subst b1.
      rewrite HK in HK1. injection HK1 as <- <-. exists ({[i]} ∪ S). split; [done |].
      rewrite elem_of_union, elem_of_singleton. intros [-> | ?]; [| done].
      apply Hne. exact (sf_unique _ _ _ _ _ Hi _ _ _ _ _ _ (b, i) Hq Ht Hsg eq_refl).
    + intros c. by apply (now_committed_step n w w' G L L' A A' C).
  - apply (unique_kept n w w' L A K Hi). intros t q g Hq.
    apply moved_lookup in Hq as [(-> & -> & Hog) | [Hne Hq]]; [| right; by exists q, g].
    destruct r; simplify_eq; [| by left]. right. by exists p, (GSendHandle b i next args reply).
  - by eapply (applied_same n w w' L L' A A' K).
Qed.

(** A new broadcast counts its own server. *)
Lemma safe_senders n w G L L' A A' C K tid p rf index term ci w' :
  0 <= n -> core_inv n w G L A C -> ledger_inv n w G L -> extends L L' -> A ⊆ A' -> safe_inv n w L A K ->
  local_inv n w -> apply_inv w -> 0 <= p < n ->
  threads w !! tid = Some (p, GBcastTerm index term ci) -> peers w !! p = Some rf ->
  spawn_all p (fresh w) (seqZ 0 (npeers rf))
    (set_fresh (S (fresh w))
      (set_bcasts (<[fresh w := mkBcast index term ci 1 false]> (bcasts w)) (moved tid p None w)))
    = Ok (tt, w') ->
  servers_step L C w w' -> exists K', safe_inv n w' L' A' K'.
Proof.
  intros Hn Hco Hlg HL HA Hi Hl Hap Hpn Ht Hp Hs Hss.
  pose proof (spawn_all_inv _ _ _ _ _ Hs) as []. cbn in sa_peers, sa_bcasts, sa_applied, sa_fresh, sa_threads.
  pose proof (sf_threads _ _ _ _ _ Hi _ _ _ Ht) as Hci. cbn in Hci.
  rewrite (pw_npeers _ _ _ (li_peers _ _ Hl _ _ Hp)) in *.
  assert (Hold : forall b bc, bcasts w !! b = Some bc -> b <> fresh w).
  { intros b bc [_ Hb]%(li_bcasts _ _ Hl). lia. }
  assert (Hdel : forall t q g, delete tid (threads w) !! t = Some (q, g) -> t <> tid /\ threads w !! t = Some (q, g)).
  { intros t q g. rewrite lookup_delete. by case_decide. }
  assert (Hnot : forall t q g b i, threads w !! t = Some (q, g) -> sender_of g = Some (b, i) -> b <> fresh w).
  { intros t q g b i Hq Hg. pose proof (sf_threads _ _ _ _ _ Hi _ _ _ Hq) as Hsf.
    assert (exists bc, sender n (bcasts w) K q b i bc) as (bc & S & _ & Hb & _).
    { destruct g; try done; cbn in Hg; injection Hg as <- <-; cbn in Hsf; unfold sends in Hsf; naive_solver. }
    by eapply Hold. }
  exists (<[fresh w := (p, {[p]})]> K). split.
  - apply (commits_same n w w' G L L' A A' C K); try done. intros q rf1. rewrite sa_peers. eauto.
  - intros b bc. rewrite sa_bcasts, lookup_insert. case_decide as E.
    + intros [= <-]. subst b. split; [by eapply committed_by_mono |]. exists p, {[p]}. cbn.
      rewrite (lookup_insert_eq K), size_singleton. split; [done |]. split; [set_solver |]. split; [done |].
      intros q ->%elem_of_singleton. done.
    + intros Hb. destruct (sf_bcasts _ _ _ _ _ Hi _ _ Hb) as (Hc1 & p1 & S1 & HK1 & Hrest).
      eapply counted_mono; [done | done |]. split; [done |]. exists p1, S1. split; [| done]. by rewrite (lookup_insert_ne K).
  - intros t q g [Hq | (_ & -> & i & Hin & Hne & ->)]%sa_threads.
    + apply Hdel in Hq as [_ Hq].
      eapply (safe_thread_mono n L L' A A' HL HA (peers w) _ (bcasts w) _ K); [| | | by apply (sf_threads _ _ _ _ _ Hi _ _ _ Hq)].
      * intros b bc Hb. rewrite sa_bcasts. exists bc. split; [| done]. rewrite lookup_insert_ne; [done |]. by apply not_eq_sym, (Hold b bc).
      * intros b i S Hg _ HK1 Hi1. exists S. split; [| done]. rewrite (lookup_insert_ne K); [done |].
        apply not_eq_sym. by eapply Hnot.
      * intros c. by apply (now_committed_step n w w' G L L' A A' C).
    + apply elem_of_seqZ in Hin. eexists _, {[p]}. rewrite (lookup_insert_eq K), sa_bcasts, lookup_insert_eq.
      split; [done |]. split; [done |]. split; [set_solver | lia].
  - intros t t' q q' g g' k Hq Hq' Hk Hk'.
    pose proof (sa_threads _ _ _ Hq) as [H1 | (Hr & -> & i & _ & _ & ->)];
      pose proof (sa_threads _ _ _ Hq') as [H2 | (Hr' & -> & i' & _ & _ & ->)].
    + apply Hdel in H1 as [_ H1]. apply Hdel in H2 as [_ H2].
      exact (sf_unique _ _ _ _ _ Hi _ _ _ _ _ _ k H1 H2 Hk Hk').
    + cbn in Hk'. injection Hk' as <-. apply Hdel in H1 as [_ H1]. by destruct (Hnot _ _ _ _ _ H1 Hk).
    + cbn in Hk. injection Hk as <-. apply Hdel in H2 as [_ H2]. by destruct (Hnot _ _ _ _ _ H2 Hk').
    + cbn in Hk, Hk'. rewrite <- Hk' in Hk. injection Hk as ->.
      eapply (spawn_all_unique p (fresh w) (seqZ 0 n)); [apply NoDup_seqZ | exact Hs | | | | exact Hq | exact Hq'].
      * intros u Hu. cbn in Hu |- *. rewrite lookup_delete. case_decide; [done |].
        destruct (threads w !! u) as [x|] eqn:Hux; [| done]. apply (ap_names _ Hap) in Hux. lia.
      * cbn. lia.
      * cbn. lia.
  - by eapply (applied_same n w w' L L' A A' K).
Qed.

Lemma acks_grow w A : A ⊆ acks' w A.
Proof. unfold acks'. set_solver. Qed.

(** A request is executed. *)
Lemma safe_deliver_ae n w G L L' A C K tid p g i args og rf reply rf' t1 t2 :
  0 <= n -> core_inv n w G L A C -> ledger_inv n w G L -> extends L L' -> safe_inv n w L A K ->
  threads w !! tid = Some (p, g) ->
  (exists b next, g = GSendCall b i next args /\ og = Some (GSendRet b i next args reply)) \/
    g = GOrphanAE i args /\ og = None ->
  peers w !! i = Some rf -> AppendEntries t1 t2 args rf = Ok (reply, rf') ->
  let w' := moved tid p og (updated i rf' w) in
  servers_step L C w w' -> safe_inv n w' L' (acks' w' A) K.
Proof.
  intros Hn Hco Hlg HL Hi Ht Hg Hp Ha w' Hss. pose proof (acks_grow w' A) as HA.
  pose proof (lg_threads _ _ _ _ Hlg _ _ _ Ht) as Hm0. pose proof (sf_threads _ _ _ _ _ Hi _ _ _ Ht) as Hs0.
  assert (Hm : msg_ok L args) by (destruct Hg as [(b & next & -> & _) | [-> _]]; exact Hm0).
  assert (Hc : committed_by n A (ae_Term args) (ae_LeaderCommit args)).
  { destruct Hg as [(b & next & -> & _) | [-> _]]; [| exact Hs0]. by destruct Hs0 as (bc & _ & _ & _ & ?). }
  pose proof (lg_peers _ _ _ _ Hlg _ _ Hp) as Hlog. pose proof Hm as (pV & lV & HV & Hp0 & _).
  pose proof (srv_AppendEntries L C i rf t1 t2 args reply rf' Hm Ha) as Hstep.
  destruct (AppendEntries_total t1 t2 args rf Hp0) as (r & rf1 & He & Hcase). rewrite Ha in He. injection He as <- <-.
  assert (Hold : srv_committed n L A rf (commitIndex rf)) by (by eapply (sf_commit _ _ _ _ _ Hi)).
  assert (Hnew : srv_committed n L A rf' (commitIndex rf')).
  { destruct Hcase as [(_ & _ & ->) | [(HT & _ & -> & _) | (HT & Hprev & _ & Hacc)]]; [done | |].
    - rewrite adopted_commitIndex. by eapply (srv_committed_step n w G L A C Hn Hco Hlg).
    - by eapply (advanced_committed n w G L A C). }
  assert (Hcov : aer_Success reply = true -> covers L A i args \/
    exists rf1, peers w' !! i = Some rf1 /\ CurrentTerm rf1 = ae_Term args /\
      same_upto (Z.to_nat (ae_PrevLogIndex args + len (ae_Entries args))) (Log rf1) lV).
  { intros Hok. destruct Hcase as [(_ & -> & _) | [(_ & _ & _ & ct & cfi & -> & _) | (HT & Hprev & -> & Hacc)]]; [done | done |].
    right. exists rf'. cbn. rewrite lookup_insert_eq, (aa_term _ _ _ Hacc), (aa_log _ _ _ Hacc).
    split; [done |]. split; [done |]. by eapply (accepted_matches n w G L). }
  apply (safe_local n w w' G L L' A _ C K); try done.
  - apply (commits_same n w w' G L L' A _ C K); try done. intros q rf1. cbn. rewrite lookup_insert.
    case_decide as E; [intros [= <-]; subst q; exists rf; auto | intros Hq; exists rf1; auto].
  - intros t q g1 [(-> & -> & Hog) | [_ Hq]]%moved_lookup; [right | by left].
    destruct Hg as [(b & next & -> & ->) | [-> ->]]; [| done]. injection Hog as <-.
    split; [split |].
    + destruct Hs0 as (bc & Hse & HT & Hix & _). exists bc. split; [done |]. split; [done |]. split; [done |].
      by eapply committed_by_mono.
    + intros Hok. destruct (Hcov Hok) as [Hcv | (rf1 & Hq1 & HT1 & Hu)]; [by eapply covers_mono |].
      intros k Hk. destruct (HL _ _ _ HV) as (e & HV'). assert (Hkl : (k <= Z.to_nat (ae_PrevLogIndex args + len (ae_Entries args)))%nat) by lia.
      pose proof (same_upto_le _ k _ _ Hkl Hu) as Huk. destruct (lookup_lt_is_Some_2 lV k) as [x Hx]; [apply Huk |].
      exists pV, (lV ++ e), x. split; [done |]. split; [by apply lookup_app_l_Some |]. intros HTx.
      unfold acks'. apply elem_of_union. right. apply elem_of_acks_of. exists rf1, x. split; [done |]. split; [done |].
      split; [by rewrite (same_upto_lookup k k _ _ Huk) |]. split; [done |]. by eapply (co_ledger _ _ _ _ _ _ Hco).
    + right. by exists p, (GSendCall b i next args).
  - by eapply (applied_same n w w' L L' A _ K).
Qed.

(** One server changes and keeps its commit index, or forgets it. *)
Lemma commits_updated n w w' G L L' A A' C K q rf rf' :
  0 <= n -> core_inv n w G L A C -> ledger_inv n w G L -> servers_step L C w w' -> extends L L' -> A ⊆ A' ->
  safe_inv n w L A K -> peers w !! q = Some rf -> peers w' = <[q := rf']> (peers w) ->
  commitIndex rf' = commitIndex rf \/ commitIndex rf' = 0 -> commits_ok n w' L' A'.
Proof.
  intros Hn Hco Hlg Hss HL HA Hi Hq Hps Hc. apply (commits_same n w w' G L L' A A' C K); try done.
  intros q1 rf1. rewrite Hps, lookup_insert. case_decide as E.
  - intros [= <-]. subst q1. exists rf. split; [done |]. tauto.
  - intros Hq1. exists rf1. auto.
Qed.

Lemma sender_rejected_commit i next args reply rf r rf' :
  sender_rejected i next args reply rf = Ok (r, rf') -> commitIndex rf' = commitIndex rf /\ r <> SHeartbeat.
Proof.
  intros [(_ & -> & ->) | (_ & -> & ni & _ & _ & _ & ->)]%sender_rejected_inv; [| done].
  unfold stepped_down. by raft_fields.
Qed.

Lemma vote_handle_commit reply nv rf nv' won_ rf' :
  vote_handle reply nv rf = Ok ((nv', won_), rf') -> commitIndex rf' = commitIndex rf.
Proof.
  intros (_ & [(_ & _ & []) | (_ & _ & [(_ & _ & ->) | (_ & ->)])])%vote_handle_inv; [done | | done].
  unfold stepped_down. by raft_fields.
Qed.

Lemma RequestVote_commit t1 args rf reply rf' :
  0 < len (Log rf) -> RequestVote t1 args rf = Ok (reply, rf') -> commitIndex rf' = commitIndex rf.
Proof.
  intros Hl H. destruct (RequestVote_total t1 args rf Hl) as (r & rf1 & He & Hc). rewrite H in He. injection He as <- <-.
  destruct Hc as [(_ & _ & ->) | [(_ & _ & _ & ->) | (_ & _ & _ & ->)]]; [done | apply adopted_commitIndex |].
  unfold voted. raft_fields. apply adopted_commitIndex.
Qed.

Lemma safe_inv_step n w w' G L L' A C K :
  0 <= n -> terms_fit w -> local_inv n w -> apply_inv w -> wstep w w' ->
  core_inv n w G L A C -> ledger_inv n w G L -> extends L L' -> safe_inv n w L A K ->
  exists K', safe_inv n w' L' (acks' w' A) K'.
Proof.
  intros Hn Hfit Hl Hap Hs Hco Hlg HL Hi. pose proof (acks_grow w' A) as HA.
  pose proof (wstep_servers n w w' G L C Hfit Hl Hlg (co_threads _ _ _ _ _ _ Hco) Hs) as Hss.
  assert (Hsame : peers w' = peers w -> commits_ok n w' L' (acks' w' A)).
  { intros Hps. apply (commits_same n w w' G L L' A _ C K); try done. intros p rf. rewrite Hps. eauto. }
  assert (Hupd : forall q rf rf', peers w !! q = Some rf -> peers w' = <[q := rf']> (peers w) ->
    commitIndex rf' = commitIndex rf \/ commitIndex rf' = 0 -> commits_ok n w' L' (acks' w' A)).
  { intros. by eapply (commits_updated n w w' G L L' A). }
  assert (Happ : applied w' = applied w -> forall p, Forall (agreed n L' (acks' w' A)) (sent_by w' p)).
  { by apply (applied_same n w w' L L' A _ K). }
  assert (Hmono : forall ps' p g, (forall c, now_committed n (peers w) L A p c -> now_committed n ps' L' (acks' w' A) p c) ->
    safe_thread n (peers w) (bcasts w) L A K p g -> safe_thread n ps' (bcasts w) L' (acks' w' A) K p g).
  { intros ps' p g Hc. apply (safe_thread_mono n L L' A _ HL HA); [intros b bc Hb; by exists bc | | done].
    intros b i S _ _ ? ?. by exists S. }
  pose proof (now_committed_step n w w' G L L' A (acks' w' A) C Hn Hco Hlg Hss HL HA) as Hnow.
  pose proof (safe_local n w w' G L L' A (acks' w' A) C K Hn Hco Hlg Hss HL HA Hi) as Hloc.
  destruct Hs.
  - exists K. apply Hloc; [done | by apply Hsame | by left | by apply Happ].
  - exists K. apply Hloc; [done | by apply Hsame | | by apply Happ].
    intros t q g [(-> & -> & ->) | [_ ?]]%spawned_lookup; [right | by left]. split; [done | by left].
  - exists K. apply Hloc; [done | by apply Hsame | | by apply Happ].
    intros t q g1 [(-> & -> & ->) | [_ ?]]%spawned_lookup; [right | by left].
    destruct H0 as [-> | ->]; (split; [done | by left]).
  - exists K. apply Hloc; [done | by apply Hsame | | by apply Happ].
    intros t q g1 [(-> & -> & ->) | [_ ?]]%moved_lookup; [right | by left].
    destruct (reads_safe n w L A K tid p rf g g1 Hi H H0 H1) as [Hsf Hso].
    split; [apply Hmono; [intros c; apply Hnow | done] |].
    destruct Hso as [? | ?]; [by left | right; by exists p, g].
  - exists K. apply Hloc; [done | eapply Hupd; [done | done | auto] | | by apply Happ].
    intros t q g [(-> & -> & [= <-]) | [_ ?]]%moved_lookup; [right | by left]. split; [done | by left].
  - destruct (lg_elections _ _ _ _ Hlg) as (E & Hv & _).
    eapply (safe_senders n w G L L' A _ C K tid p rf); try done. by eapply vi_range.
  - exists K. apply Hloc; [done | eapply Hupd; [done | done | left; apply H1] | | by apply Happ].
    intros t q g [(-> & -> & [= <-]) | [_ ?]]%moved_lookup; [right | by left]. split; [done | by left].
  - destruct (lg_elections _ _ _ _ Hlg) as (E & _ & Hc).
    pose proof (ci_ok _ _ _ _ _ _ _ Hc _ _ _ H rf H0) as HT. unfold sender_handle in H2.
    destruct (aer_Success reply) eqn:Hok; [by eapply (safe_accepted n w G L L' A _ C K) |].
    apply st_bind_Ok in H2 as (r0 & rf0 & Hr & [= <- <- <-]). apply sender_rejected_commit in Hr as [Hci Hr].
    exists K. apply Hloc; [cbn; by apply insert_id | eapply Hupd; [done | done | by left] | | by apply Happ].
    intros t q g [(-> & -> & Hog) | [_ ?]]%moved_lookup; [right | by left].
    destruct r0; simplify_eq. destruct (sf_threads _ _ _ _ _ Hi _ _ _ H) as [(bc0 & Hse & _) _].
    split; [| right; by exists p, (GSendHandle b i next args reply)].
    exists bc0. cbn. by rewrite insert_id.
  - exists K. apply Hloc; [done | eapply Hupd; [done | done | left; apply H1] | | by apply Happ].
    intros t q g [(-> & -> & [= <-]) | [_ ?]]%moved_lookup; [right | by left]. split; [done | by left].
  - exists K. apply Hloc; [done | by apply Hsame | | by apply Happ].
    intros t q g [(-> & -> & [= <-]) | [_ Ht]]%moved_lookup; [right; split; [done | by left] |].
    apply spawned_lookup in Ht as [(-> & -> & ->) | [_ ?]]; [right | by left]. split; [done | by left].
  - exists K. apply Hloc; [done | eapply Hupd; [done | done | left; by eapply vote_handle_commit] | | by apply Happ].
    intros t q g [(-> & -> & Hog) | [_ ?]]%moved_lookup; [right | by left].
    destruct won_; simplify_eq. split; [done | by left].
  - pose proof (sf_threads _ _ _ _ _ Hi _ _ _ H) as Hc. pose proof (ap_ok _ Hap _ _ _ _ H0 H) as [Hla Hix].
    assert (Hag : agreed n L A m).
    { eapply (apply_agreed n w G L A C Hn Hco p rf i ci m rf'); [done | by apply Hc | done |].
      pose proof (len_nonneg (sent_by w p)). lia. }
    apply apply_one_inv in H2 as (-> & _).
    exists K. apply Hloc; [done | eapply Hupd; [done | done | by left] | | by apply Happ].
    intros t q g [(-> & -> & [= <-]) | [_ ?]]%moved_lookup; [right | by left]. split; [| by left].
    split; [by eapply agreed_mono | by apply Hnow].
  - destruct (sf_threads _ _ _ _ _ Hi _ _ _ H) as [Hag Hc]. exists K. apply Hloc; [done | by apply Hsame | |].
    + intros t q g [(-> & -> & [= <-]) | [_ ?]]%moved_lookup; [right | by left]. split; [by apply Hnow | by left].
    + intros q. unfold sent_by. cbn. rewrite lookup_insert. case_decide as E; cbn.
      * subst q. apply Forall_app. split; [| apply Forall_singleton; by eapply agreed_mono].
        eapply Forall_impl; [apply (sf_applied _ _ _ _ _ Hi) |]. intros x. by apply agreed_mono.
      * eapply Forall_impl; [apply (sf_applied _ _ _ _ _ Hi) |]. intros x. by apply agreed_mono.
  - exists K. by eapply (safe_deliver_ae n w G L L' A C K).
  - exists K. apply Hloc; [done | eapply Hupd; [done | done | left] | | by apply Happ].
    + eapply RequestVote_commit; [| done]. by eapply wf_log_len, pw_log, li_peers.
    + intros t q g1 [(-> & -> & Hog) | [_ ?]]%moved_lookup; [right | by left].
      destruct H0 as [(e & -> & ->) | [-> ->]]; simplify_eq. split; [done | by left].
  - destruct (crash_restarts _ _ _ _ _ _ _ _ _ Hl H H0 H1) as [Hsv Hr].
    exists K. apply Hloc; [done | eapply Hupd; [done | done | right; apply Hr] | |].
    + intros t q g Ht. cbn in Ht. rewrite lookup_insert in Ht.
      case_decide; [injection Ht as <- <-; right; split; [done | by left] |].
      apply (survivors_killed _ _ _ _ _ _ Hsv) in Ht as (g0 & Ht & [[_ ->] | [-> Ho]]); [by left | right].
      pose proof (sf_threads _ _ _ _ _ Hi _ _ _ Ht) as Hg.
      destruct g0; cbn in Ho; simplify_eq; (split; [| by left]); try done.
      * destruct Hg as (bc & _ & _ & _ & ?). by eapply committed_by_mono.
      * by eapply committed_by_mono.
    + intros q. unfold sent_by. cbn. rewrite lookup_insert. case_decide; [done |].
      eapply Forall_impl; [apply (sf_applied _ _ _ _ _ Hi) |]. intros x. by apply agreed_mono.
Qed.

Lemma safe_inv_initial n tm : safe_inv n (initial n tm) ∅ ∅ ∅.
Proof.
  split; try done.
  - intros p rf [_ ->]%initial_peers. left.
    destruct (fresh_peer_recovered n p tm) as (rf & _ & -> & _ & _ & _ & _ & _ & _ & -> & _). done.
  - by intros t p g (_ & _ & ->)%initial_threads.
  - by intros t t' p p' g g' k (_ & _ & ->)%initial_threads.
Qed.

(** Further invariants of isolated executions, proved together with these. *)
Lemma ireachable_safe_ind n (I : World -> ledger -> acks -> Prop) w :
  0 <= n -> (forall tm, I (initial n tm) ∅ ∅) ->
  (forall w w' G L L' A C K, terms_fit w -> local_inv n w -> apply_inv w -> isolated w w' -> ledger_inv n w G L ->
    core_inv n w G L A C -> safe_inv n w L A K -> extends L L' -> wstep w w' -> I w L A -> I w' L' (acks' w' A)) ->
  ireachable n w ->
  exists G L A C K, ledger_inv n w G L /\ core_inv n w G L A C /\ safe_inv n w L A K /\ I w L A.
Proof.
  intros Hn Hinit Hstep. apply (ireachable_ind_inv n (fun w =>
    exists G L A C K, ledger_inv n w G L /\ core_inv n w G L A C /\ safe_inv n w L A K /\ I w L A)).
  - intros tm. exists ∅, ∅, ∅, (fun _ _ _ => False), ∅.
    split_and!; auto using ledger_inv_initial, core_inv_initial, safe_inv_initial.
  - intros w1 w2 Hfit Hl Hap Hiso (G & L & A & C & K & Hlg & Hco & Hsf & Hi) Hs.
    destruct (ledger_inv_step n w1 w2 G L Hfit Hl Hap Hiso Hlg Hs) as (G' & L' & HG & HL & Hlg').
    pose proof (local_inv_step n w1 w2 Hfit Hl Hs) as Hl2.
    pose proof (core_inv_step n w1 w2 G G' L L' A C Hfit Hl Hl2 Hiso Hs Hco Hlg Hlg' HG HL) as Hco'.
    destruct (safe_inv_step n w1 w2 G L L' A C K) as [K' Hsf']; try done; [apply HL |].
    exists G', L', (acks' w2 A), (cands' w2 C), K'. split_and!; try done.
    by eapply (Hstep w1 w2 G L L' A C K); [.. | apply HL | |].
Qed.

Lemma ireachable_safe n w : 0 <= n -> ireachable n w ->
  exists G L A C K, ledger_inv n w G L /\ core_inv n w G L A C /\ safe_inv n w L A K.
Proof.
  intros Hn Hr. destruct (ireachable_safe_ind n (fun _ _ _ => True) w) as (G & L & A & C & K & ? & ? & ? & _); try done.
  by exists G, L, A, C, K.
Qed.

(** ** Properties *)

(** Two committed prefixes of logs agree. *)
Lemma committed_agree n w G L A C p q rf rf' c c' k :
  0 <= n -> core_inv n w G L A C -> ledger_inv n w G L ->
  peers w !! p = Some rf -> peers w !! q = Some rf' ->
  srv_committed n L A rf c -> srv_committed n L A rf' c' -> 0 <= k <= c -> k <= c' ->
  Log rf !! Z.to_nat k = Log rf' !! Z.to_nat k.
Proof.
  intros Hn Hco Hlg Hp Hq Hc Hc' Hk Hk'.
  destruct (decide (k = 0)) as [-> | Hk0].
  { destruct (lg_peers _ _ _ _ Hlg _ _ Hp) as [(l & -> & _) _], (lg_peers _ _ _ _ Hlg _ _ Hq) as [(l' & -> & _) _]. done. }
  destruct Hc as [? | (T & i & p1 & l & Hch & _ & Hi & Hl & Hu)]; [lia |].
  destruct Hc' as [? | (T' & j & p2 & l' & Hch' & _ & Hj & Hl' & Hu')]; [lia |].
  rewrite (same_upto_lookup _ (Z.to_nat k) _ _ Hu), (same_upto_lookup _ (Z.to_nat k) _ _ Hu') by lia.
  eapply (chosen_agree n w G L A C Hn Hco T i p1 l T' j p2 l'); try done; lia.
Qed.

Lemma in_order_lookup ms k m : in_order ms -> ms !! k = Some m -> CommandValid m = true /\ CommandIndex m = Z.of_nat k + 1.
Proof.
  intros [Hx Hv] Hm. split; [by eapply (Forall_lookup_1 _ _ _ _ Hv) |].
  apply (f_equal (lookup k)) in Hx. rewrite list_lookup_fmap, Hm in Hx. cbn in Hx. symmetry in Hx.
  apply lookup_seqZ in Hx as [-> _]. lia.
Qed.

(** What two servers sent on applyCh agrees, message by message. *)
Definition same_applied (w : World) (p q : Z) : Prop :=
  forall k m m', sent_by w p !! k = Some m -> sent_by w q !! k = Some m' -> m = m'.

(** The logs of two servers agree on what both consider committed. *)
Definition same_committed (w : World) (p q : Z) : Prop :=
  forall rf rf' k, peers w !! p = Some rf -> peers w !! q = Some rf' ->
    0 <= k <= commitIndex rf -> k <= commitIndex rf' -> Log rf !! Z.to_nat k = Log rf' !! Z.to_nat k.

(** [leader] has everything that [rf] considers committed. *)
Definition has_committed (leader rf : Raft) : Prop :=
  take (S (Z.to_nat (commitIndex rf))) (Log leader) = take (S (Z.to_nat (commitIndex rf))) (Log rf).

(** C1: State Machine Safety.  In every reachable world of an isolated execution
    -- with any losses, delays, reorderings and crashes -- the messages that any
    two servers have sent on applyCh since they were last started agree: the
    k-th message of one is the k-th message of the other.  And their logs agree
    on every index that both consider committed. *)
Theorem state_machine_safety n w p q :
  0 <= n -> ireachable n w -> same_applied w p q /\ same_committed w p q.
Proof.
  intros Hn Hr. pose proof (reachable_apply_inv n w (ireachable_reachable n w Hr)) as Hap.
  destruct (ireachable_safe n w Hn Hr) as (G & L & A & C & K & Hlg & Hco & Hsf). split.
  - intros k m m' Hm Hm'.
    destruct (in_order_lookup _ _ _ (ap_order _ Hap p) Hm) as [Hv Hx].
    destruct (in_order_lookup _ _ _ (ap_order _ Hap q) Hm') as [Hv' Hx'].
    pose proof (Forall_lookup_1 _ _ _ _ (sf_applied _ _ _ _ _ Hsf p) Hm) as (T & i & p1 & l & x & Hc & Hl & _ & Hi & Hlx & Hcm).
    pose proof (Forall_lookup_1 _ _ _ _ (sf_applied _ _ _ _ _ Hsf q) Hm') as (T' & j & p2 & l' & y & Hc' & Hl' & _ & Hj & Hly & Hcm').
    assert (l !! Z.to_nat (CommandIndex m) = l' !! Z.to_nat (CommandIndex m)) as E
      by (eapply (chosen_agree n w G L A C Hn Hco T i p1 l T' j p2 l'); try done; lia).
    rewrite Hlx, Hx, <- Hx', Hly in E. injection E as <-. destruct m, m'; cbn in *; congruence.
  - intros rf rf' k Hp Hq Hk Hk'. eapply (committed_agree n w G L A C p q); try done;
      by eapply (sf_commit _ _ _ _ _ Hsf).
Qed.

(** Server 0 leads term 1 and commits a command with server 1; both apply it.
    Then server 1 wins term 2 with the vote of server 2. *)
Definition agreement : list Event :=
  campaign 0 3 ++ answered 5 ++
  [EStart 0 (Some (VInt 10)); R 7; R 7; R 7; R 7] ++ [R 9; R 9; R 9; R 9] ++ answered 9 ++
  [R 9; R 9; R 9; R 9; R 9; R 12; R 12; R 12; R 12; D 12] ++ [R 0; R 0; R 0; R 1; R 1; R 1] ++
  campaign 1 14 ++ answered 17.

Lemma state_machine_safety_witness :
  exists w m, ireachable 3 w /\ sent_by w 0 !! 0%nat = Some m /\ sent_by w 1 !! 0%nat = Some m /\
    am_Command m = Some (VInt 10).
Proof.
  destruct (irun agreement (initial 3 t0)) as [w|] eqn:E; [| by vm_compute in E].
  pose proof (irun_ireachable 3 t0 agreement w E) as Hr.
  destruct (sent_by w 0 !! 0%nat) as [m|] eqn:H0; [| vm_compute in E; injection E as <-; by vm_compute in H0].
  destruct (sent_by w 1 !! 0%nat) as [m'|] eqn:H1; [| vm_compute in E; injection E as <-; by vm_compute in H1].
  exists w, m. split; [exact Hr |]. split; [done |].
  split; [rewrite H1; f_equal; symmetry; exact (proj1 (state_machine_safety 3 w 0 1 ltac:(lia) Hr) 0%nat m m' H0 H1) |].
  clear Hr. vm_compute in E. injection E as <-. vm_compute in H0. by injection H0 as <-.
Defined.

(** C2: Leader Completeness.  In every reachable world of an isolated execution,
    the leader of a term at least as high as a server's has, in its own log,
    everything up to and including the index which that server considers
    committed. *)
Theorem leader_completeness n w p q rf leader :
  ireachable n w -> peers w !! p = Some rf -> peers w !! q = Some leader ->
  state leader = Leader -> CurrentTerm rf <= CurrentTerm leader -> has_committed leader rf.
Proof.
  intros Hr Hp Hq Hs HT. unfold has_committed. assert (Hn : 0 <= n).
  { destruct (ireachable_election_inv n w Hr) as (G & E & Hv & _). pose proof (vi_range _ _ _ _ Hv _ _ Hp). lia. }
  destruct (ireachable_safe n w Hn Hr) as (G & L & A & C & K & Hlg & Hco & Hsf).
  destruct (sf_commit _ _ _ _ _ Hsf _ _ Hp) as [Hle | (T & i & p1 & l & Hc & HTl & Hi & Hl & Hu)].
  { rewrite Z2Nat.nonpos by done.
    destruct (lg_peers _ _ _ _ Hlg _ _ Hp) as [(l & -> & _) _], (lg_peers _ _ _ _ Hlg _ _ Hq) as [(l' & -> & _) _]. done. }
  pose proof (lg_leader _ _ _ _ Hlg _ _ Hq Hs) as HV.
  assert (Hh : same_upto i (Log leader) l) by (eapply (leaders_have n w G L A C Hn Hco T i p1 l); [done | done | done | lia]).
  destruct (decide (commitIndex rf <= 0)).
  { rewrite Z2Nat.nonpos by done. rewrite Z2Nat.nonpos in Hu by done.
    destruct (same_upto_trans _ _ _ _ (same_upto_le i 0 _ _ ltac:(lia) Hh) (same_upto_sym _ _ _ Hu)). done. }
  eapply same_upto_trans; [| apply same_upto_sym, Hu]. eapply same_upto_le; [| exact Hh]. lia.
Qed.

Lemma leader_completeness_witness :
  exists w rf leader, ireachable 3 w /\ peers w !! 0 = Some rf /\ peers w !! 1 = Some leader /\
    commitIndex rf = 1 /\ CurrentTerm leader = 2 /\ take 2 (Log leader) = take 2 (Log rf).
Proof.
  destruct (irun agreement (initial 3 t0)) as [w|] eqn:E; [| by vm_compute in E].
  pose proof (irun_ireachable 3 t0 agreement w E) as Hr.
  destruct (peers w !! 0) as [rf|] eqn:H0; [| vm_compute in E; injection E as <-; done].
  destruct (peers w !! 1) as [leader|] eqn:H1; [| vm_compute in E; injection E as <-; done].
  assert (Hf : state leader = Leader /\ CurrentTerm leader = 2 /\ CurrentTerm rf = 1 /\ commitIndex rf = 1).
  { clear Hr. vm_compute in E. injection E as <-. vm_compute in H0, H1. injection H0 as <-. by injection H1 as <-. }
  destruct Hf as (Hs & HT & HT0 & Hc). exists w, rf, leader.
  split; [exact Hr |]. split; [done |]. split; [done |]. split; [done |]. split; [done |].
  pose proof (leader_completeness 3 w 0 1 rf leader Hr H0 H1 Hs ltac:(lia)) as Hres. unfold has_committed in Hres. by rewrite Hc in Hres.
Defined.
