(* ===== verification/RaftPanic.v ===== *)
(** * No step of an isolated execution panics

    Every index and slice expression of src/raft/raft.go stays in range in the
    isolated executions of RaftElection: the index of a broadcast is inside the
    log of the leader that made it, nextIndex[] of a leader points into its log,
    what a refused request quotes is a conflict with a real log, and a committed
    index stays inside the log.  So the length checks of the model (where Go
    checks a capacity) are never decisive either. *)

From S2P Require Import Prelude LabGob Persister Raft RaftRPC RaftNode RaftSystem RaftSteps RaftRaces RaftLocal RaftApply RaftElection RaftLogs RaftCommit RaftSafety.

(** ** What a step leaves of a server *)

Record grows (rf rf' : Raft) : Prop := {
  gr_term : CurrentTerm rf <= CurrentTerm rf';
  gr_log : CurrentTerm rf' = CurrentTerm rf -> state rf' <> Follower ->
    state rf <> Follower /\ len (Log rf) <= len (Log rf');
}.

Definition keeps_lead (rf rf' : Raft) : Prop :=
  CurrentTerm rf' = CurrentTerm rf -> state rf = Leader -> state rf' = Leader.

Lemma grows_refl rf : grows rf rf.
Proof. split; [done | intros _ Hs; split; [done | lia]]. Qed.

Lemma keeps_lead_refl rf : keeps_lead rf rf.
Proof. by intros _ ?. Qed.

Lemma srv_grows L C q rf rf' : srv_step L C q rf rf' -> grows rf rf'.
Proof.
  intros []. split; [done |]. intros HT Hs. split.
  - destruct (state rf') eqn:Es; [done | |].
    + destruct ss_cand as (_ & [? | [_ ->]]); [done | lia | done].
    + destruct ss_lead as (_ & [-> | [-> _]]); done.
  - destruct ss_log as [-> | [(_ & _ & cmd & ->) | (args & _ & _ & Hf & _)]]; [done | | congruence].
    rewrite len_app. pose proof (len_nonneg [mkEntry cmd (CurrentTerm rf)]). lia.
Qed.

(** ** The invariant *)

(** Server [p] broadcast index [k] in term [T]. *)
Definition index_ok (ps : gmap Z Raft) (p T k : Z) : Prop :=
  0 <= k /\ forall rf, ps !! p = Some rf -> T <= CurrentTerm rf /\
    (CurrentTerm rf = T -> state rf <> Follower -> k < len (Log rf)).

Definition still_leads (ps : gmap Z Raft) (p T : Z) : Prop :=
  forall rf, ps !! p = Some rf -> T <= CurrentTerm rf /\ (CurrentTerm rf = T -> state rf = Leader).

(** The leader of its term sent the request, to another server. *)
Definition sent_ok (L : ledger) (i : Z) (args : AppendEntriesArgs) : Prop :=
  exists l, L !! ae_Term args = Some (ae_LeaderId args, l) /\ i <> ae_LeaderId args.

Definition sender_ok (n : Z) (ps : gmap Z Raft) (bs : gmap nat Bcast) (p : Z) (b : nat) (i : Z) : Prop :=
  0 <= i < n /\ i <> p /\ exists bc, bs !! b = Some bc /\ index_ok ps p (b_term bc) (b_index bc).

Definition request_ok (ps : gmap Z Raft) (L : ledger) (p i next : Z) (args : AppendEntriesArgs) : Prop :=
  next = ae_PrevLogIndex args + 1 /\ index_ok ps p (ae_Term args) (ae_PrevLogIndex args) /\
  still_leads ps p (ae_Term args) /\ sent_ok L i args.

(** A refusal names a conflict with some log. *)
Definition refusal_ok (args : AppendEntriesArgs) (reply : AppendEntriesReply) : Prop :=
  aer_Success reply = false -> aer_Term reply <= ae_Term args ->
  exists log, wf_log log /\ ~ prev_matches log args /\
    conflict_reply log (ae_PrevLogIndex args) (aer_ConflictTerm reply) (aer_ConflictFirstIndex reply).

Definition bounds_thread (n : Z) (ps : gmap Z Raft) (bs : gmap nat Bcast) (L : ledger) (p : Z) (g : Goroutine) : Prop :=
  match g with
  | GStartSpawn k => 0 <= k /\ leading ps p (fun rf => k < len (Log rf))
  | GBcast k T _ | GBcastTerm k T _ => index_ok ps p T k
  | GSend b i | GSendTerm b i | GSendArgs b i => sender_ok n ps bs p b i
  | GSendEnc b i next args | GSendCall b i next args =>
      sender_ok n ps bs p b i /\ request_ok ps L p i next args
  | GSendRet b i next args reply | GSendCheck b i next args reply | GSendHandle b i next args reply =>
      sender_ok n ps bs p b i /\ request_ok ps L p i next args /\ refusal_ok args reply
  | GOrphanAE i args => sent_ok L i args
  | GVoteCall _ i args | GOrphanRV i args => i <> rv_CandidateId args
  | _ => True
  end.

Record bounds_peer (n : Z) (rf : Raft) : Prop := {
  bp_next : length (nextIndex rf) = Z.to_nat n;
  bp_match : length (matchIndex rf) = Z.to_nat n;
  bp_range : state rf = Leader -> Forall (fun v => 1 <= v <= len (Log rf)) (nextIndex rf);
  bp_vote : state rf <> Follower -> VoteFor rf = me rf;
}.

Record bounds_inv (n : Z) (w : World) (L : ledger) : Prop := {
  bi_peers : forall p rf, peers w !! p = Some rf -> bounds_peer n rf;
  bi_threads : forall t p g, threads w !! t = Some (p, g) -> bounds_thread n (peers w) (bcasts w) L p g;
}.

(** ** A goroutine that does not act *)

Definition bcasts_kept (bs bs' : gmap nat Bcast) : Prop :=
  forall b bc, bs !! b = Some bc -> exists bc', bs' !! b = Some bc' /\ b_term bc' = b_term bc /\ b_index bc' = b_index bc.

Lemma bcasts_kept_refl bs : bcasts_kept bs bs.
Proof. intros b bc Hb. by exists bc. Qed.

Definition orphan (g : Goroutine) : bool :=
  match g with GOrphanAE _ _ | GOrphanRV _ _ => true | _ => false end.

Section stay.
Context (n p : Z) (ps ps' : gmap Z Raft) (bs bs' : gmap nat Bcast) (L L' : ledger).
Hypothesis HL : extends L L'.
Hypothesis Hbs : bcasts_kept bs bs'.

Lemma sent_ok_extends i args : sent_ok L i args -> sent_ok L' i args.
Proof. intros (l & Hl & Hi). destruct (HL _ _ _ Hl) as (k & ?). by exists (l ++ k). Qed.

Hypothesis Hps : forall rf', ps' !! p = Some rf' -> exists rf, ps !! p = Some rf /\ grows rf rf'.

Lemma index_ok_step T k : index_ok ps p T k -> index_ok ps' p T k.
Proof.
  intros [Hk Hp]. split; [done |]. intros rf' (rf & Hrf & [Ht Hg])%Hps. destruct (Hp rf Hrf) as [HT Hlen].
  split; [lia |]. intros <- Hs. destruct (decide (CurrentTerm rf' = CurrentTerm rf)) as [He | He].
  - destruct (Hg He Hs) as [Hs0 Hle]. specialize (Hlen (eq_sym He) Hs0). lia.
  - lia.
Qed.

Lemma sender_ok_step b i : sender_ok n ps bs p b i -> sender_ok n ps' bs' p b i.
Proof.
  intros (Hi & Hne & bc & Hb & Hx). split; [done |]. split; [done |]. destruct (Hbs b bc Hb) as (bc' & Hb' & HT & Hi').
  exists bc'. split; [done |]. rewrite HT, Hi'. by apply index_ok_step.
Qed.

Hypothesis Hlead : forall rf rf', ps !! p = Some rf -> ps' !! p = Some rf' -> keeps_lead rf rf'.

Lemma request_ok_step i next args : request_ok ps L p i next args -> request_ok ps' L' p i next args.
Proof.
  intros (Hn & Hx & Hl & Hs). split; [done |]. split; [by apply index_ok_step |]. split; [| by apply sent_ok_extends].
  intros rf' Hrf'. destruct (Hps rf' Hrf') as (rf & Hrf & [Ht _]). destruct (Hl rf Hrf) as [HT Hs0]. split; [lia |].
  intros He. apply (Hlead rf rf' Hrf Hrf'); [lia | apply Hs0; lia].
Qed.

Lemma bounds_thread_step g :
  (forall k rf rf', g = GStartSpawn k -> ps !! p = Some rf -> ps' !! p = Some rf' ->
    CurrentTerm rf' = CurrentTerm rf /\ state rf' = state rf) ->
  bounds_thread n ps bs L p g -> bounds_thread n ps' bs' L' p g.
Proof.
  intros Hst. destruct g; cbn; try done; auto using index_ok_step, sender_ok_step, sent_ok_extends.
  - intros [Hk Hl]. split; [done |]. intros rf' Hrf'. destruct (Hps rf' Hrf') as (rf & Hrf & [Ht Hg]).
    destruct (Hst index rf rf' eq_refl Hrf Hrf') as [HT Hs]. destruct (Hl rf Hrf) as [Hs0 Hk0].
    rewrite Hs, Hs0 in *. split; [done |]. destruct (Hg HT) as [_ ?]; [done | lia].
  - intros [Hs Hr]. auto using sender_ok_step, request_ok_step.
  - intros [Hs Hr]. auto using sender_ok_step, request_ok_step.
  - intros (Hs & Hr & Hf). auto using sender_ok_step, request_ok_step.
  - intros (Hs & Hr & Hf). auto using sender_ok_step, request_ok_step.
  - intros (Hs & Hr & Hf). auto using sender_ok_step, request_ok_step.
Qed.
End stay.

(** ** Shapes of steps *)

(** No server changes. *)
Lemma bi_threads_step n w w' L L' :
  bounds_inv n w L -> extends L L' -> peers w' = peers w -> bcasts_kept (bcasts w) (bcasts w') ->
  (forall t p g, threads w' !! t = Some (p, g) ->
     threads w !! t = Some (p, g) \/ bounds_thread n (peers w) (bcasts w') L' p g) ->
  bounds_inv n w' L'.
Proof.
  intros [] HL Hps Hbs Hth. split; rewrite Hps; [done |].
  intros t p g [Ht | ?]%Hth; [| done].
  apply (bounds_thread_step n p (peers w) (peers w) (bcasts w) (bcasts w') L L' HL Hbs); [| | | by eapply bi_threads0].
  - intros rf' ?. exists rf'. split; [done | apply grows_refl].
  - intros rf rf' Hrf Hrf'. rewrite Hrf in Hrf'. injection Hrf' as <-. apply keeps_lead_refl.
  - intros k rf rf' _ Hrf Hrf'. rewrite Hrf in Hrf'. by injection Hrf' as <-.
Qed.

(** Goroutine [tid] acts on server [q], which does not lose its lead. *)
Lemma bi_update n w w1 L L' tid p og q rf rf' :
  bounds_inv n w L -> extends L L' -> isolated w (moved tid p og w1) -> threads w1 = threads w ->
  peers w !! q = Some rf -> peers w1 = <[q := rf']> (peers w) -> bcasts_kept (bcasts w) (bcasts w1) ->
  grows rf rf' -> keeps_lead rf rf' -> bounds_peer n rf' ->
  (forall g, og = Some g -> bounds_thread n (peers w1) (bcasts w1) L' p g) ->
  bounds_inv n (moved tid p og w1) L'.
Proof.
  intros [] HL Hiso Hth Hq Hps Hbs Hg Hk Hb Hog. split; cbn [peers bcasts moved set_threads]; rewrite ?Hps.
  - intros q' rf1. rewrite lookup_insert. case_decide; [intros [= <-]; exact Hb | apply bi_peers0].
  - intros t p' g Ht. apply moved_lookup in Ht as Ht'. destruct Ht' as [(-> & -> & ->) | [Hne Ht']].
    { rewrite <- Hps. auto. }
    rewrite Hth in Ht'.
    eapply (bounds_thread_step n p' (peers w)); [done | done | | | | by eapply bi_threads0].
    + intros rf1. rewrite lookup_insert. case_decide as E.
      * subst. intros [= <-]. by exists rf.
      * intros Hrf1. exists rf1. split; [done | apply grows_refl].
    + intros rf1 rf2 Hrf1. rewrite lookup_insert. case_decide as E.
      * subst. intros [= <-]. rewrite Hq in Hrf1. by injection Hrf1 as <-.
      * rewrite Hrf1. intros [= <-]. apply keeps_lead_refl.
    + intros k rf1 rf2 -> Hrf1 Hrf2. pose proof (isolated_stand _ _ _ _ _ Hiso Ht' Ht eq_refl) as Hst.
      unfold stand in Hst. cbn [peers moved set_threads] in Hst. rewrite Hps, Hrf2, Hrf1 in Hst. by injection Hst.
Qed.

(** ** One server *)

Lemma bp_step n rf rf' :
  nextIndex rf' = nextIndex rf -> matchIndex rf' = matchIndex rf -> me rf' = me rf ->
  (state rf' = Leader -> state rf = Leader /\ len (Log rf) <= len (Log rf')) ->
  (state rf' <> Follower -> VoteFor rf' = me rf \/ state rf <> Follower /\ VoteFor rf' = VoteFor rf) ->
  bounds_peer n rf -> bounds_peer n rf'.
Proof.
  intros Hn Hm Hme Hl Hv []. split; [congruence | congruence | |].
  - intros [Hs Hle]%Hl. rewrite Hn. eapply Forall_impl; [by apply bp_range0 |]. cbn. lia.
  - intros Hs. rewrite Hme. destruct (Hv Hs) as [? | [Hs0 ->]]; auto.
Qed.

Lemma bp_follower n rf rf' : same_core rf rf' -> state rf' = Follower -> bounds_peer n rf -> bounds_peer n rf'.
Proof. intros [] Hs. apply bp_step; try done; congruence. Qed.

Lemma bp_unchanged n rf rf' : unchanged rf rf' -> nextIndex rf' = nextIndex rf -> matchIndex rf' = matchIndex rf ->
  bounds_peer n rf -> bounds_peer n rf'.
Proof.
  intros [] Hn Hm. apply bp_step; try done.
  - intros Hs. split; [congruence |]. rewrite un_log. lia.
  - intros Hs. right. split; congruence.
Qed.

Lemma stepped_down_core T rf : same_core rf (stepped_down T rf).
Proof. unfold stepped_down. split; by raft_fields. Qed.

Lemma bp_adopted n t T rf : bounds_peer n rf -> bounds_peer n (adopted t T rf).
Proof.
  intros Hb. unfold adopted. case_decide; [| done]. destruct t; eapply bp_follower; try exact Hb; try (by raft_fields);
    split; by raft_fields.
Qed.

(** Election Safety keeps a leader from the requests of its own term. *)
Lemma AppendEntries_bounds n L i t1 t2 args rf reply rf' :
  wf_log (Log rf) -> 0 <= ae_PrevLogIndex args -> sent_ok L i args ->
  (state rf = Leader -> L !! CurrentTerm rf = Some (i, Log rf)) ->
  AppendEntries t1 t2 args rf = Ok (reply, rf') -> bounds_peer n rf ->
  bounds_peer n rf' /\ keeps_lead rf rf' /\ refusal_ok args reply.
Proof.
  intros Hwf Hp (l & Hl & Hne) Hlead H Hb.
  destruct (AppendEntries_total t1 t2 args rf Hp) as (r & rf1 & He & Hc). rewrite H in He. injection He as <- <-.
  destruct Hc as [(HT & -> & ->) | [(HT & Hm & -> & ct & cfi & -> & Hc) | (HT & _ & -> & Ha)]].
  - split; [done |]. split; [apply keeps_lead_refl |]. intros _. cbn. lia.
  - split; [by apply bp_adopted |]. split; [| intros _ _; by exists (Log rf)].
    unfold keeps_lead. rewrite adopted_CurrentTerm, adopted_state by done. intros -> ->. by rewrite decide_False by lia.
  - split; [eapply bp_follower; [apply Ha | apply Ha | done] |]. split; [| by intros [=]].
    intros HT' Hs. rewrite (aa_term _ _ _ Ha) in HT'. specialize (Hlead Hs). rewrite <- HT', Hl in Hlead. congruence.
Qed.

Lemma RequestVote_bounds n i t1 args rf reply rf' :
  0 < len (Log rf) -> me rf = i -> 0 <= i -> i <> rv_CandidateId args ->
  RequestVote t1 args rf = Ok (reply, rf') -> bounds_peer n rf -> bounds_peer n rf' /\ keeps_lead rf rf'.
Proof.
  intros Hl Hme Hi Hne H Hb. destruct (RequestVote_total t1 args rf Hl) as (r & rf1 & He & Hc).
  rewrite H in He. injection He as <- <-.
  destruct Hc as [(_ & _ & ->) | [(HT & _ & _ & ->) | (Hm & _ & _ & ->)]].
  - split; [done | apply keeps_lead_refl].
  - split; [by apply bp_adopted |]. unfold keeps_lead. rewrite adopted_CurrentTerm, adopted_state by done.
    intros -> ->. by rewrite decide_False by lia.
  - assert (HT : CurrentTerm rf <= rv_Term args) by (destruct Hm as [|[]]; lia). split.
    + pose proof (bp_adopted n None (rv_Term args) rf Hb) as [].
      pose proof (adopted_same_core None (rv_Term args) rf) as []. unfold voted. split; raft_fields; done.
    + unfold keeps_lead, voted. raft_fields. rewrite adopted_CurrentTerm by done. intros Heq Hs.
      pose proof (bp_vote _ _ Hb ltac:(by rewrite Hs)). destruct Hm as [? | [_ [? | ?]]]; lia.
Qed.

Lemma insert_Forall (P : Z -> Prop) (l : list Z) i v : Forall P l -> P v -> Forall P (<[i := v]> l).
Proof. intros Hl Hv. by apply Forall_insert. Qed.

Lemma sender_handle_bounds n i next args reply bc rf bc' r rf' :
  0 <= b_index bc < len (Log rf) -> CurrentTerm rf = ae_Term args ->
  sender_handle i next args reply bc rf = Ok ((bc', r), rf') -> bounds_peer n rf ->
  bounds_peer n rf' /\ keeps_lead rf rf' /\ b_term bc' = b_term bc /\ b_index bc' = b_index bc.
Proof.
  intros Hx HT H Hb. unfold sender_handle in H. destruct (aer_Success reply); sec_inv.
  - apply sender_accepted_inv in H as (Hu & _ & (k & Hk & Hn & Hm) & Hr).
    split; [| split; [intros _; by rewrite (un_state _ _ Hu) |];
              destruct Hr as [(_ & -> & _) | (_ & (agree & ->) & _)]; done].
    destruct Hu, Hb. split.
    + rewrite Hn. case_decide; by rewrite ?length_insert.
    + rewrite Hm. case_decide; by rewrite ?length_insert.
    + rewrite un_state, un_log, Hn. intros Hs. case_decide; [| by apply bp_range0].
      apply insert_Forall; [by apply bp_range0 | lia].
    + rewrite un_state, un_vote, un_me. done.
  - match goal with H : sender_rejected _ _ _ _ _ = Ok _ |- _ =>
      apply sender_rejected_inv in H as [(HT' & _ & ->) | (_ & _ & k & _ & Hi & Hk & ->)] end.
    + split; [eapply bp_follower; [apply stepped_down_core | by unfold stepped_down; raft_fields | done] |].
      split; [| done]. unfold keeps_lead, stepped_down. raft_fields. lia.
    + split; [| split; [by intros _ ? | done]]. destruct Hb. split; cbn; rewrite ?length_insert; try done.
      intros Hs. apply insert_Forall; [by apply bp_range0 | lia].
Qed.

Lemma vote_handle_bounds n reply nv rf nv' won_ rf' :
  npeers rf = n -> 0 < len (Log rf) ->
  vote_handle reply nv rf = Ok ((nv', won_), rf') -> bounds_peer n rf -> bounds_peer n rf' /\ keeps_lead rf rf'.
Proof.
  intros Hn Hl (_ & [((_ & Hs & _) & _ & Hw) | (_ & _ & [(_ & HT & ->) | (_ & ->)])])%vote_handle_inv Hb.
  - destruct Hw, Hb. rewrite Hn in *. split; [| by intros _ _]. split.
    + by rewrite won_next, length_replicate.
    + by rewrite won_match, length_replicate.
    + intros _. rewrite won_next by done. apply Forall_replicate. rewrite won_log. lia.
    + intros _. rewrite won_vote, won_me. apply bp_vote0. by rewrite Hs.
  - split; [eapply bp_follower; [apply stepped_down_core | by unfold stepped_down; raft_fields | done] |].
    unfold keeps_lead, stepped_down. raft_fields. lia.
  - split; [done | apply keeps_lead_refl].
Qed.

Lemma started_bounds n cmd rf rf' : started cmd rf rf' -> bounds_peer n rf -> bounds_peer n rf' /\ keeps_lead rf rf'.
Proof.
  intros []. destruct sd_core. intros Hb. split; [| intros _; by rewrite sd_state].
  eapply bp_step; [done | done | done | | | exact Hb].
  - intros Hs. split; [congruence |]. rewrite sd_log, len_app.
    pose proof (len_nonneg [mkEntry cmd (CurrentTerm rf)]). lia.
  - intros Hs. right. split; congruence.
Qed.

Lemma campaigning_bounds n rf rf' : campaigning rf rf' -> CurrentTerm rf' = CurrentTerm rf + 1 ->
  bounds_peer n rf -> bounds_peer n rf' /\ keeps_lead rf rf'.
Proof.
  intros [] HT. destruct cp_core. intros Hb. split; [| intros Heq; lia].
  eapply bp_step; [done | done | done | by rewrite cp_state | by left | exact Hb].
Qed.

Lemma restarted_bounds n p rf rf' : restarted n p rf rf' -> bounds_peer n rf'.
Proof. intros []. split; [by rewrite rs_next, length_replicate | by rewrite rs_match, length_replicate | congruence | done]. Qed.

(** ** The steps *)

(** What a goroutine that only reads goes on with. *)
Lemma reads_bounds n w G L tid p rf g g' :
  local_inv n w -> ledger_inv n w G L -> bounds_inv n w L ->
  threads w !! tid = Some (p, g) -> reads w p rf g (Some g') -> peers w !! p = Some rf \/ unlocked g (Some g') ->
  bounds_thread n (peers w) (bcasts w) L p g'.
Proof.
  intros Hl Hlg Hi Ht Hr Hp. pose proof (bi_threads _ _ _ Hi _ _ _ Ht) as Hg.
  pose proof (lg_threads _ _ _ _ Hlg _ _ _ Ht) as Hlt.
  assert (Hnil : 0 < len (Log rf) \/ unlocked g (Some g'))
    by (destruct Hp as [Hp | ?]; [left; exact (wf_log_len _ (pw_log _ _ _ (li_peers _ _ Hl _ _ Hp))) | by right]).
  destruct g; cbn [reads] in Hr; try done; cbn [bounds_thread] in Hg; cbn [unlocked] in Hp, Hnil;
    try (naive_solver).
  - injection Hr as ->. destruct Hp as [Hp | []], Hg as [Hk Hlead]. split; [done |].
    intros rf1 Hrf1. split; [| intros _ _; by apply Hlead]. rewrite Hp in Hrf1. by injection Hrf1 as <-.
  - injection Hr as ->. destruct Hp as [Hp | []], Hnil as [Hnil | []]. split; [lia |].
    intros rf1 Hrf1. rewrite Hp in Hrf1. injection Hrf1 as <-. split; [lia | intros; lia].
  - destruct Hr as (bc & next & args & Hb & Ha & [= ->]), Hp as [Hp | []].
    destruct Hlt as (bc' & Hb' & Hlead). rewrite Hb in Hb'. injection Hb' as <-. destruct (Hlead rf Hp) as [Hs HT].
    split; [done |]. pose proof (lg_leader _ _ _ _ Hlg _ _ Hp Hs) as HL.
    apply sender_args_inv in Ha as (_ & _ & x & Hx%idx_Ok_lt & _ & ->). split; [cbn; lia |]. cbn.
    split; [split; [lia |] | split].
    + intros rf1 Hrf1. rewrite Hp in Hrf1. injection Hrf1 as <-. split; [lia | intros; lia].
    + intros rf1 Hrf1. rewrite Hp in Hrf1. injection Hrf1 as <-. split; [lia | done].
    + exists (Log rf). cbn. rewrite <- HT, (pw_me _ _ _ (li_peers _ _ Hl _ _ Hp)). split; [done | apply Hg].
  - destruct Hr as [[= ->] | (j & [= ->])]; [exact Hg |]. unfold aliased. by destruct (Log rf !! _).
  - injection Hr as ->. apply Hg.
Qed.

Lemma kept_insert bs b bc bc' : bs !! b = Some bc -> b_term bc' = b_term bc -> b_index bc' = b_index bc ->
  bcasts_kept bs (<[b := bc']> bs).
Proof.
  intros Hb HT Hx b1 bc1 Hb1. rewrite lookup_insert. case_decide; [| by exists bc1].
  subst. rewrite Hb in Hb1. injection Hb1 as <-. by exists bc'.
Qed.

Lemma kept_new bs b bc : bs !! b = None -> bcasts_kept bs (<[b := bc]> bs).
Proof. intros Hb b1 bc1 Hb1. exists bc1. by rewrite lookup_insert_ne by congruence. Qed.

Lemma bi_crash n w L L' p rf rf' ts :
  bounds_inv n w L -> extends L L' -> survivors (threads w) ts -> peers w !! p = Some rf -> grows rf rf' -> bounds_peer n rf' ->
  bounds_inv n (set_fresh (S (fresh w)) (set_threads (<[fresh w := (p, GApply)]> (kill_threads p ts))
    (set_applied (<[p := []]> (applied w)) (updated p rf' w)))) L'.
Proof.
  intros [] HL Hsv Hp Hg Hb. split; cbn.
  - intros q rf1. rewrite lookup_insert. case_decide; [intros [= <-]; exact Hb | apply bi_peers0].
  - intros t q g. rewrite lookup_insert. case_decide; [by intros [= <- <-] |].
    intros (g0 & Ht & [[Hne ->] | [-> Ho]])%(survivors_killed _ _ _ _ _ _ Hsv); pose proof (bi_threads0 _ _ _ Ht) as Hg0.
    + eapply (bounds_thread_step n q (peers w)); [done | apply bcasts_kept_refl | | | | exact Hg0].
      * intros rf1. rewrite lookup_insert_ne by done. intros Hrf1. exists rf1. split; [done | apply grows_refl].
      * intros rf1 rf2 Hrf1. rewrite lookup_insert_ne, Hrf1 by done. intros [= <-]. apply keeps_lead_refl.
      * intros k rf1 rf2 _ Hrf1. rewrite lookup_insert_ne, Hrf1 by done. by intros [= <-].
    + destruct g0; cbn in Ho; try done; injection Ho as <-; cbn in *; try done;
        eapply sent_ok_extends; [done | apply Hg0 | done | apply Hg0].
Qed.

Lemma bi_senders n w L L' tid p rf index term ci w' :
  local_inv n w -> bounds_inv n w L -> extends L L' ->
  threads w !! tid = Some (p, GBcastTerm index term ci) -> peers w !! p = Some rf ->
  spawn_all p (fresh w) (seqZ 0 (npeers rf))
    (set_fresh (S (fresh w)) (set_bcasts (<[fresh w := mkBcast index term ci 1 false]> (bcasts w)) (moved tid p None w)))
    = Ok (tt, w') ->
  bounds_inv n w' L'.
Proof.
  intros Hl Hi HL Ht Hp Hsp. pose proof (bi_threads _ _ _ Hi _ _ _ Ht) as Hx. cbn in Hx.
  apply spawn_all_inv in Hsp as []. cbn in *.
  apply (bi_threads_step n w w' L L' Hi HL); [done | |].
  - rewrite sa_bcasts. apply kept_new. destruct (bcasts w !! fresh w) eqn:E; [| done].
    apply (li_bcasts _ _ Hl) in E as [_ ?]. lia.
  - intros t q g [H | (_ & -> & i & Hi' & Hne & ->)]%sa_threads.
    + left. rewrite lookup_delete in H. by case_decide.
    + right. apply elem_of_seqZ in Hi'. rewrite (pw_npeers _ _ _ (li_peers _ _ Hl _ _ Hp)) in Hi'.
      split; [lia |]. split; [done |]. eexists. rewrite sa_bcasts, lookup_insert_eq. by split.
Qed.

Section step.
Context (n : Z) (w : World) (G : votes) (L L' : ledger) (A : acks) (C : cands) (K : counts).
Hypothesis Hfit : terms_fit w.
Hypothesis Hl : local_inv n w.
Hypothesis Hlg : ledger_inv n w G L.
Hypothesis Hco : core_inv n w G L A C.
Hypothesis Hsf : safe_inv n w L A K.
Hypothesis HL : extends L L'.
Hypothesis Hi : bounds_inv n w L.

Lemma peer_facts q rf : peers w !! q = Some rf -> 0 < len (Log rf) /\ peer_wf n q rf /\ bounds_peer n rf.
Proof.
  intros Hq. pose proof (li_peers _ _ Hl _ _ Hq) as Hw. split; [by apply wf_log_len, Hw |].
  split; [done | by eapply bi_peers].
Qed.

Lemma bounds_thread_extends bs g q : bounds_thread n (peers w) bs L q g -> bounds_thread n (peers w) bs L' q g.
Proof.
  apply bounds_thread_step; [done | apply bcasts_kept_refl | | |].
  - intros rf1 ?. exists rf1. split; [done | apply grows_refl].
  - intros rf1 rf2 H1 H2. rewrite H1 in H2. injection H2 as <-. apply keeps_lead_refl.
  - intros k rf1 rf2 _ H1 H2. rewrite H1 in H2. by injection H2 as <-.
Qed.

(** The server of a step grows. *)
Lemma step_grows w' q rf rf' : wstep w w' -> peers w !! q = Some rf -> peers w' !! q = Some rf' -> grows rf rf'.
Proof.
  intros Hs Hq Hq'. pose proof (wstep_servers n w w' G L C Hfit Hl Hlg (co_threads _ _ _ _ _ _ Hco) Hs) as Hss.
  destruct (servers_step_forth _ _ _ _ _ _ Hss Hq) as (rf1 & Hq1 & Hst).
  rewrite Hq' in Hq1. injection Hq1 as <-. by eapply srv_grows.
Qed.

Lemma bi_append tid p rf rf' cmd :
  threads w !! tid = Some (p, GStartAppend cmd) -> peers w !! p = Some rf -> started cmd rf rf' -> grows rf rf' ->
  isolated w (moved tid p (Some (GStartSpawn (len (Log rf)))) (updated p rf' w)) ->
  bounds_inv n (moved tid p (Some (GStartSpawn (len (Log rf)))) (updated p rf' w)) L'.
Proof.
  intros Ht Hp Hst Hg Hiso. destruct (peer_facts _ _ Hp) as (_ & _ & Hb).
  destruct (started_bounds n cmd rf rf' Hst Hb) as [Hb' Hk].
  eapply (bi_update n w (updated p rf' w)); try done; [apply bcasts_kept_refl |].
  intros g [= <-]. split; [apply len_nonneg |]. intros rf1. cbn. rewrite lookup_insert_eq. intros [= <-].
  destruct (lg_threads _ _ _ _ Hlg _ _ _ Ht rf Hp) as [Hs _]. destruct Hst. rewrite sd_state, sd_log, len_app.
  split; [done |]. unfold len at 3. cbn. lia.
Qed.

(** At a reply the sender's server still leads the term of the request, and the
    index of the broadcast is in its log. *)
Lemma handle_facts tid p rf b i next args reply bc :
  threads w !! tid = Some (p, GSendHandle b i next args reply) -> peers w !! p = Some rf -> bcasts w !! b = Some bc ->
  0 <= i < n /\ i <> p /\ CurrentTerm rf = ae_Term args /\ state rf = Leader /\ ae_Term args = b_term bc /\
  0 <= b_index bc < len (Log rf) /\ next = ae_PrevLogIndex args + 1 /\ 0 < next <= len (Log rf) /\ refusal_ok args reply.
Proof.
  intros Ht Hp Hb. pose proof (bi_threads _ _ _ Hi _ _ _ Ht) as ((Hir & Hne & bc0 & Hb0 & Hx) & Hreq & Href).
  rewrite Hb in Hb0. injection Hb0 as <-.
  destruct (sf_threads _ _ _ _ _ Hsf _ _ _ Ht) as [(bc1 & (S & _ & Hb1 & _) & HT & _) _].
  rewrite Hb in Hb1. injection Hb1 as <-.
  destruct (lg_elections _ _ _ _ Hlg) as (E & _ & Hc). pose proof (ci_ok _ _ _ _ _ _ _ Hc _ _ _ Ht rf Hp) as HTa.
  destruct Hreq as (Hnext & [Hp0 Hprev] & Hlead & _). destruct (Hlead rf Hp) as [_ Hst]. specialize (Hst HTa).
  destruct Hx as [Hx0 Hx]. destruct (Hx rf Hp) as [_ Hlen], (Hprev rf Hp) as [_ Hplen].
  specialize (Hlen ltac:(congruence) ltac:(by rewrite Hst)). specialize (Hplen HTa ltac:(by rewrite Hst)).
  split_and!; try done; lia.
Qed.

Lemma bi_handle tid p rf b i next args reply bc bc' r rf' og :
  threads w !! tid = Some (p, GSendHandle b i next args reply) -> peers w !! p = Some rf -> bcasts w !! b = Some bc ->
  sender_handle i next args reply bc rf = Ok ((bc', r), rf') -> grows rf rf' ->
  og = match r with SReturn => None | SRetry => Some (GSend b i) | SHeartbeat => Some GHeart end ->
  isolated w (moved tid p og (set_bcasts (<[b := bc']> (bcasts w)) (updated p rf' w))) ->
  bounds_inv n (moved tid p og (set_bcasts (<[b := bc']> (bcasts w)) (updated p rf' w))) L'.
Proof.
  intros Ht Hp Hb Hh Hg Hog Hiso. destruct (peer_facts _ _ Hp) as (_ & _ & Hbp).
  destruct (handle_facts tid p rf b i next args reply bc Ht Hp Hb) as (Hir & Hne & HT & _ & _ & Hx & _).
  destruct (sender_handle_bounds n i next args reply bc rf bc' r rf') as (Hb' & Hk & HTb & Hxb); try done.
  eapply (bi_update n w (set_bcasts (<[b := bc']> (bcasts w)) (updated p rf' w))); try done; [by eapply kept_insert |].
  intros g ->. pose proof (bi_threads _ _ _ Hi _ _ _ Ht) as [Hs _].
  destruct r; simplify_eq; try done. apply (sender_ok_step n p (peers w) _ (bcasts w)); [by eapply kept_insert | | exact Hs].
  cbn. intros rf1. rewrite lookup_insert_eq. intros [= <-]. by exists rf.
Qed.

Lemma bi_deliver_ae tid p g i args og rf reply rf' t1 t2 :
  threads w !! tid = Some (p, g) ->
  (exists b next, g = GSendCall b i next args /\ og = Some (GSendRet b i next args reply)) \/
    g = GOrphanAE i args /\ og = None ->
  peers w !! i = Some rf -> AppendEntries t1 t2 args rf = Ok (reply, rf') -> grows rf rf' ->
  isolated w (moved tid p og (updated i rf' w)) -> bounds_inv n (moved tid p og (updated i rf' w)) L'.
Proof.
  intros Ht Hg Hp Ha Hgr Hiso. destruct (peer_facts _ _ Hp) as (_ & Hw & Hb).
  pose proof (bi_threads _ _ _ Hi _ _ _ Ht) as Hbt. pose proof (li_threads _ _ Hl _ _ _ Ht) as Hgw.
  assert (Hsent : sent_ok L i args) by (destruct Hg as [(b & next & -> & _) | [-> _]]; apply Hbt).
  assert (Hprev : 0 <= ae_PrevLogIndex args) by (destruct Hg as [(b & next & -> & _) | [-> _]]; apply Hgw).
  destruct (AppendEntries_bounds n L i t1 t2 args rf reply rf') as (Hb' & Hk & Href); try done;
    [apply Hw | by apply (lg_leader _ _ _ _ Hlg) |].
  eapply (bi_update n w (updated i rf' w)); try done; [apply bcasts_kept_refl |].
  intros g' Hg'. destruct Hg as [(b & next & -> & ->) | [-> ->]]; [| done]. injection Hg' as <-.
  assert (Hstep : bounds_thread n (peers (updated i rf' w)) (bcasts w) L' p (GSendCall b i next args)).
  { eapply (bounds_thread_step n p (peers w)); [done | apply bcasts_kept_refl | | | done | exact Hbt].
    - intros rf1. cbn. rewrite lookup_insert. case_decide as E; [subst; intros [= <-]; by exists rf |].
      intros Hrf1. exists rf1. split; [done | apply grows_refl].
    - intros rf1 rf2 Hrf1. cbn. rewrite lookup_insert. case_decide as E.
      + subst. intros [= <-]. rewrite Hp in Hrf1. by injection Hrf1 as <-.
      + rewrite Hrf1. intros [= <-]. apply keeps_lead_refl. }
  destruct Hstep. cbn. done.
Qed.

Lemma bi_deliver_rv tid p g i args og rf reply rf' t1 :
  threads w !! tid = Some (p, g) ->
  (exists e, g = GVoteCall e i args /\ og = Some (GVoteRet e i args reply)) \/ g = GOrphanRV i args /\ og = None ->
  peers w !! i = Some rf -> RequestVote t1 args rf = Ok (reply, rf') -> grows rf rf' ->
  isolated w (moved tid p og (updated i rf' w)) -> bounds_inv n (moved tid p og (updated i rf' w)) L'.
Proof.
  intros Ht Hg Hp Hv Hgr Hiso. destruct (peer_facts _ _ Hp) as (Hlen & Hw & Hb).
  pose proof (bi_threads _ _ _ Hi _ _ _ Ht) as Hbt.
  assert (Hne : i <> rv_CandidateId args) by (destruct Hg as [(e & -> & _) | [-> _]]; exact Hbt).
  destruct (lg_elections _ _ _ _ Hlg) as (E & Hvi & _).
  destruct (RequestVote_bounds n i t1 args rf reply rf') as [Hb' Hk]; try done; [apply Hw | by eapply vi_range |].
  eapply (bi_update n w (updated i rf' w)); try done; [apply bcasts_kept_refl |].
  intros g' Hg'. destruct Hg as [(e & -> & ->) | [-> ->]]; [by injection Hg' as <- | done].
Qed.

Lemma bounds_inv_step w' : isolated w w' -> wstep w w' -> bounds_inv n w' L'.
Proof.
  intros Hiso Hs. pose proof (fun q rf rf' => step_grows w' q rf rf' Hs) as Hgrow.
  destruct Hs.
  - apply (bi_threads_step n w w L L'); auto using bcasts_kept_refl.
  - apply (bi_threads_step n w _ L L'); [done | done | done | apply bcasts_kept_refl |].
    intros t q g [(-> & -> & ->) | [_ ?]]%spawned_lookup; [by right | by left].
  - apply (bi_threads_step n w _ L L'); [done | done | done | apply bcasts_kept_refl |].
    intros t q g' [(-> & -> & ->) | [_ ?]]%spawned_lookup; [right | by left]. by destruct H0 as [-> | ->].
  - apply (bi_threads_step n w _ L L'); [done | done | done | apply bcasts_kept_refl |].
    intros t q g' [(-> & -> & ->) | [_ ?]]%moved_lookup; [right | by left].
    apply bounds_thread_extends. by apply (reads_bounds n w G L tid p rf g g').
  - destruct (peer_facts _ _ H0) as (_ & _ & Hb).
    eapply (bi_update n w (updated p rf' w)); try done; [apply bcasts_kept_refl | | | | by intros g [= <-]].
    + eapply Hgrow; [exact H0 | apply lookup_insert_eq].
    + intros _. by rewrite (un_state _ _ H1).
    + by eapply bp_unchanged.
  - by eapply bi_senders.
  - eapply bi_append; try done. eapply Hgrow; [exact H0 | apply lookup_insert_eq].
  - eapply bi_handle; try done. eapply Hgrow; [exact H0 | cbn; apply lookup_insert_eq].
  - destruct (peer_facts _ _ H0) as (_ & Hw & Hb).
    assert (HT : CurrentTerm rf' = CurrentTerm rf + 1).
    { pose proof (pw_term _ _ _ Hw). pose proof (Hfit p rf H0) as Hf. cbn in Hf.
      rewrite (cp_term _ _ H1), wrap64_small; [done | unfold MinInt; lia]. }
    destruct (campaigning_bounds n rf rf' H1 HT Hb) as [Hb' Hk].
    eapply (bi_update n w (set_fresh (S (fresh w)) (set_elects (<[fresh w := 1]> (elects w)) (updated p rf' w)))); try done;
      [apply bcasts_kept_refl | eapply Hgrow; [exact H0 | cbn; apply lookup_insert_eq] | by intros g [= <-]].
  - apply (bi_threads_step n w _ L L'); [done | done | done | apply bcasts_kept_refl |].
    intros t q g [(-> & -> & [= <-]) | [_ Ht]]%moved_lookup; [by right |].
    apply spawned_lookup in Ht as [(-> & -> & ->) | [_ ?]]; [right | by left]. cbn.
    destruct (peer_facts _ _ H0) as (Hlen & Hw & _). destruct (election_args_Ok rf Hlen) as (x & _ & Ha).
    rewrite H3 in Ha. injection Ha as ->. cbn. by rewrite (pw_me _ _ _ Hw).
  - destruct (peer_facts _ _ H0) as (Hlen & Hw & Hb).
    destruct (vote_handle_bounds n reply nv rf nv' won_ rf') as [Hb' Hk]; try done; [apply Hw |].
    eapply (bi_update n w (set_elects (<[e := nv']> (elects w)) (updated p rf' w))); try done;
      [apply bcasts_kept_refl | eapply Hgrow; [exact H0 | cbn; apply lookup_insert_eq] |].
    intros g Hg. by destruct won_; simplify_eq.
  - destruct (peer_facts _ _ H0) as (_ & _ & Hb). apply apply_one_inv in H2 as (-> & _).
    eapply (bi_update n w (updated p (set_lastApplied i rf) w) L L' tid p _ p rf (set_lastApplied i rf)); try done.
    + apply bcasts_kept_refl.
    + by intros _ ?.
    + by eapply bp_unchanged; [apply unchanged_set_lastApplied | ..].
    + by intros g [= <-].
  - apply (bi_threads_step n w _ L L'); [done | done | done | apply bcasts_kept_refl |].
    intros t q g [(-> & -> & [= <-]) | [_ ?]]%moved_lookup; [by right | by left].
  - eapply bi_deliver_ae; try done. eapply Hgrow; [exact H1 | cbn; apply lookup_insert_eq].
  - eapply bi_deliver_rv; try done. eapply Hgrow; [exact H1 | cbn; apply lookup_insert_eq].
  - destruct (crash_restarts _ _ _ _ _ _ _ _ _ Hl H H0 H1) as [Hsv Hr].
    eapply bi_crash; try done; [eapply Hgrow; [exact H | cbn; apply lookup_insert_eq] | by eapply restarted_bounds].
Qed.

End step.

Lemma bounds_inv_initial n tm : bounds_inv n (initial n tm) ∅.
Proof.
  split.
  - intros p rf [_ ->]%initial_peers. destruct (fresh_peer_recovered n p tm)
      as (rf & _ & -> & _ & _ & _ & Hs & _ & _ & _ & _ & _ & Hn & Hm).
    split; [by rewrite Hn, length_replicate | by rewrite Hm, length_replicate | congruence | done].
  - by intros t p g (_ & _ & ->)%initial_threads.
Qed.

Lemma ireachable_bounds n w : 0 <= n -> ireachable n w ->
  exists G L A C K, ledger_inv n w G L /\ core_inv n w G L A C /\ safe_inv n w L A K /\ bounds_inv n w L.
Proof.
  intros Hn. apply (ireachable_safe_ind n (fun w L _ => bounds_inv n w L)); [done | apply bounds_inv_initial |].
  intros w1 w2 G L L' A C K Hfit Hl _ Hiso Hlg Hco Hsf HL Hs Hb. by eapply (bounds_inv_step n w1 G L L').
Qed.

(** ** Every section returns *)

Definition fails {A} (r : res A) : Prop := r = Panic \/ r = Fatal.

Lemma ok_fails {A} (r : res A) x : r = Ok x -> ~ fails r.
Proof. by intros -> [|]. Qed.

Lemma bind_fails {S A B} (m : ST S A) (f : A -> ST S B) s :
  ~ fails (m s) -> (forall a s', m s = Ok (a, s') -> ~ fails (f a s')) -> ~ fails (st_bind A B f m s).
Proof.
  intros Hm Hf. unfold st_bind. destruct (m s) as [[a s'] | | |]; [by apply Hf | | | by intros [|]];
    destruct Hm; [by left | by right].
Qed.

Lemma on_peer_fails {A} p (m : ST Raft A) w :
  (forall rf, peers w !! p = Some rf -> ~ fails (m rf)) -> ~ fails (on_peer p m w).
Proof.
  intros Hm. unfold on_peer. destruct (peers w !! p) as [rf|]; [| by intros [|]]. specialize (Hm rf eq_refl).
  destruct (m rf) as [x | | |]; cbn; [by intros [|] | | | by intros [|]]; destruct Hm; [by left | by right].
Qed.

Lemma sender_handle_fails n i next args reply bc rf :
  wf_log (Log rf) -> bounds_peer n rf -> 0 <= i < n -> 0 <= b_index bc < len (Log rf) ->
  next = ae_PrevLogIndex args + 1 -> 0 < next <= len (Log rf) ->
  Term <$> Log rf !! Z.to_nat (ae_PrevLogIndex args) = Some (ae_PrevLogTerm args) -> refusal_ok args reply ->
  ~ fails (sender_handle i next args reply bc rf).
Proof.
  intros Hwf [Hn Hm _ _] Hi Hx Hnext Hlen Hprev Href. unfold sender_handle. destruct (aer_Success reply) eqn:Es.
  - destruct (sender_accepted_total i bc rf) as (b' & r & rf' & He & _); [unfold len; lia | unfold len; lia | done |].
    by eapply ok_fails.
  - unfold sender_rejected. destruct (decide (ae_Term args < aer_Term reply)) as [HT | HT].
    { unfold st_bind, modify. rewrite switchTo_eq, persist_eq. by intros [|]. }
    destruct (Href Es ltac:(lia)) as (flog & Hf & Hno & Hc).
    destruct (getNextIndex_progress (Log rf) flog next (aer_ConflictTerm reply) (aer_ConflictFirstIndex reply) reply)
      as (next' & Hg & Hlt); try done; [| by replace (next - 1) with (ae_PrevLogIndex args) by lia |].
    { replace (next - 1) with (ae_PrevLogIndex args) by lia. by rewrite Hprev. }
    unfold st_bind, gets, lift, modify. rewrite Hg. cbn [mbind res_bind].
    rewrite store_in_range by (unfold len; lia). cbn [mbind res_bind].
    destruct (idx_in_range (Log rf) (next' - 1)) as [x ->]; [lia |]. by intros [|].
Qed.

Lemma vote_handle_fails n reply nv rf : npeers rf = n -> bounds_peer n rf -> ~ fails (vote_handle reply nv rf).
Proof.
  intros <- [Hn Hm _ _]. destruct (vote_handle_total reply nv rf Hn Hm) as (x & rf' & He). by eapply ok_fails.
Qed.

Lemma spawn_all_fails p b js w : ~ fails (spawn_all p b js w).
Proof.
  revert w. induction js as [| i js IH]; intros w; cbn; [by intros [|] |].
  apply bind_fails; [case_decide; by intros [|] | auto].
Qed.

Lemma get_bcast_fails {B} b (f : Bcast -> ST World B) w :
  (forall bc, bcasts w !! b = Some bc -> ~ fails (f bc w)) -> ~ fails (st_bind _ _ f (get_bcast b) w).
Proof.
  intros Hf. unfold st_bind, get_bcast. destruct (bcasts w !! b) as [bc|]; [by apply Hf | by intros [|]].
Qed.

Section total.
Context (n : Z) (w : World) (G : votes) (L : ledger) (A : acks) (C : cands) (K : counts).
Hypothesis Hl : local_inv n w.
Hypothesis Hap : apply_inv w.
Hypothesis Hlg : ledger_inv n w G L.
Hypothesis Hsf : safe_inv n w L A K.
Hypothesis Hi : bounds_inv n w L.

(** A section after which nothing can fail. *)
Ltac last_section := intros ? ? _; repeat (case_decide || case_match); by intros [|].
Ltac total_section := apply bind_fails; [apply on_peer_fails; intros rf Hp; try (by intros [|]) | try last_section].

Lemma args_fails tid p b i bc rf :
  threads w !! tid = Some (p, GSendArgs b i) -> bcasts w !! b = Some bc -> peers w !! p = Some rf ->
  ~ fails (sender_args i bc rf).
Proof.
  intros Ht Hb Hp. destruct (lg_threads _ _ _ _ Hlg _ _ _ Ht) as (bc' & Hb' & Hlead). rewrite Hb in Hb'. injection Hb' as <-.
  destruct (Hlead rf Hp) as [Hs HT]. pose proof (bi_threads _ _ _ Hi _ _ _ Ht) as (Hir & _ & bc' & Hb' & Hx).
  rewrite Hb in Hb'. injection Hb' as <-. destruct Hx as [_ Hx]. destruct (Hx rf Hp) as [_ Hlen].
  specialize (Hlen HT ltac:(by rewrite Hs)). destruct (bi_peers _ _ _ Hi _ _ Hp) as [Hn _ Hr _].
  destruct (idx_in_range (nextIndex rf) i) as [next Hnext]; [unfold len; lia |].
  assert (Hrange : 1 <= next <= len (Log rf)).
  { apply idx_Ok in Hnext as [_ Hnext]. exact (Forall_lookup_1 _ _ _ _ (Hr Hs) Hnext). }
  destruct (idx_in_range (Log rf) (next - 1)) as [x Hx']; [lia |].
  eapply ok_fails. by apply (sender_args_Ok i bc rf next x).
Qed.

Lemma handle_fails tid p b i next args reply bc rf :
  threads w !! tid = Some (p, GSendHandle b i next args reply) -> bcasts w !! b = Some bc -> peers w !! p = Some rf ->
  ~ fails (sender_handle i next args reply bc rf).
Proof.
  intros Ht Hb Hp.
  destruct (handle_facts n w G L A K Hlg Hsf Hi tid p rf b i next args reply bc Ht Hp Hb)
    as (Hir & _ & HT & Hs & _ & Hx & Hnext & Hlen & Href).
  eapply (sender_handle_fails n); try done; [by apply (li_peers _ _ Hl _ _ Hp) | by eapply bi_peers |].
  destruct (lg_threads _ _ _ _ Hlg _ _ _ Ht) as (q & l & Hq & _ & Hterm & _).
  rewrite <- HT, (lg_leader _ _ _ _ Hlg _ _ Hp Hs) in Hq. by injection Hq as <- <-.
Qed.

Lemma apply_fails tid p i ci rf :
  threads w !! tid = Some (p, GApplyLoop i ci) -> peers w !! p = Some rf -> i <= ci -> ~ fails (apply_one i rf).
Proof.
  intros Ht Hp Hle. pose proof (ap_ok _ Hap _ _ _ _ Hp Ht) as Hok. cbn in Hok.
  pose proof (len_nonneg (sent_by w p)).
  assert (Hin : 0 <= i < len (Log rf)).
  { destruct (sf_threads _ _ _ _ _ Hsf _ _ _ Ht rf Hp) as [? | (T & j & q & l & _ & _ & _ & _ & _ & Hu & _)];
      unfold len in *; lia. }
  destruct (idx_in_range (Log rf) i Hin) as [x Hx]. unfold apply_one, st_bind, gets, lift, modify. rewrite Hx. by intros [|].
Qed.

Lemma run_thread_fails tid p g t1 : threads w !! tid = Some (p, g) -> ~ fails (run_thread tid p g t1 w).
Proof.
  intros Ht. destruct g; cbn [run_thread]; try (by intros [|]); try (by total_section).
  - apply bind_fails; [apply on_peer_fails; intros rf Hp; by intros [|] |]. intros d w1 _.
    apply bind_fails; [by intros [|] |]. intros [] w2 _. destruct d; [by intros [|] |].
    apply bind_fails; [apply on_peer_fails; intros rf Hp; by intros [|] |]. intros m w3 _.
    apply bind_fails; [by intros [|] |]. intros b w4 _. apply spawn_all_fails.
  - apply get_bcast_fails. intros bc Hb. by total_section.
  - apply get_bcast_fails. intros bc Hb. total_section. by eapply args_fails.
  - apply get_bcast_fails. intros bc Hb. total_section. by eapply handle_fails.
  - total_section. destruct (startElection_begin_spec t1 rf) as (rf' & He & _). by eapply ok_fails.
  - apply bind_fails; [apply on_peer_fails; intros rf Hp; by intros [|] |]. intros m w1 H1. world_inv.
    case_decide; [by intros [|] |]. case_decide; [by intros [|] |]. read_only. total_section.
    pose proof (wf_log_len _ (pw_log _ _ _ (li_peers _ _ Hl _ _ Hp))) as Hlen.
    destruct (election_args_Ok rf Hlen) as (y & _ & He). by eapply ok_fails.
  - apply bind_fails; [unfold get_elect; case_match; by intros [|] |].
    intros nv w1 H1. unfold get_elect in H1. case_match; [| done]. injection H1 as <- <-.
    total_section. eapply vote_handle_fails; [| by eapply bi_peers]. by apply (li_peers _ _ Hl _ _ Hp).
  - case_decide; [| by intros [|]]. total_section. by eapply apply_fails.
Qed.

Lemma deliver_fails tid p g t1 t2 : threads w !! tid = Some (p, g) -> ~ fails (deliver tid p g t1 t2 w).
Proof.
  intros Ht. pose proof (li_threads _ _ Hl _ _ _ Ht) as Hg.
  destruct g; cbn [deliver]; try (by intros [|]); total_section.
  1, 3: destruct (AppendEntries_total t1 t2 args rf) as (r & rf' & He & _); [apply Hg | by eapply ok_fails].
  all: pose proof (wf_log_len _ (pw_log _ _ _ (li_peers _ _ Hl _ _ Hp))) as Hlen;
    destruct (RequestVote_total t1 args rf Hlen) as (r & rf' & He & _); by eapply ok_fails.
Qed.

Lemma interrupted_fails p mid t1 rf ts : ~ fails (interrupted p mid t1 rf ts).
Proof.
  destruct mid as [tid |]; cbn; [| by intros [|]]. destruct (ts !! tid) as [[q g] |]; cbn; [| by intros [|]].
  destruct (handler_begin t1 g) as [[i m] |] eqn:Hg; [| by intros [|]]. case_decide; [| by intros [|]].
  destruct (handler_begin_inv _ _ _ _ rf Hg) as (t & T & ->). by intros [|].
Qed.

Lemma crash_fails p mid tm : ~ fails (crash p mid tm w).
Proof.
  destruct (peers w !! p) as [rf|] eqn:Hp; [| unfold crash; rewrite Hp; by intros [|]].
  destruct (interrupted p mid tm rf (threads w)) as [[rf1 ts] | | |] eqn:Hin.
  - destruct (crash_recovery n p mid tm tm rf _ _ _ (li_peers _ _ Hl _ _ Hp) Hin) as (rf' & Hm & _).
    rewrite (crash_run _ _ _ _ _ _ _ _ Hp Hin Hm). by intros [|].
  - destruct (interrupted_fails p mid tm rf (threads w)). by left.
  - destruct (interrupted_fails p mid tm rf (threads w)). by right.
  - unfold crash. rewrite Hp, Hin. by intros [|].
Qed.

Lemma exec_fails ev : ~ fails (exec ev w).
Proof.
  destruct ev as [p cmd | p | p | tid t1 | tid j | tid t1 t2 | tid | tid | p mid tm]; cbn [exec].
  1-3: by total_section.
  1-5: unfold with_thread; destruct (threads w !! tid) as [[p g]|] eqn:Ht; [| by intros [|]].
  - by apply run_thread_fails.
  - destruct g; cbn; try (by intros [|]). by total_section.
  - by apply deliver_fails.
  - by destruct g; intros [|].
  - by destruct g; intros [|].
  - apply crash_fails.
Qed.

End total.

(** C5: no step of an isolated execution panics or ends the program.  In every
    world that the cluster can reach without a change of a server's term or role
    in one of the gaps (RaftElection), with losses, reorderings, crashes and calls
    of Start at any time, every section of every goroutine and every handler
    returns or has to wait: all indices and slices of logs, nextIndex and
    matchIndex are in range, also those of the trace output, and a restarted
    server can read what it persisted. *)
Theorem no_step_panics n w ev : 0 <= n -> ireachable n w -> exec ev w <> Panic /\ exec ev w <> Fatal.
Proof.
  intros Hn Hr. destruct (ireachable_bounds n w Hn Hr) as (G & L & A & C & K & Hlg & _ & Hsf & Hb).
  apply ireachable_reachable in Hr. pose proof (reachable_local_inv n w Hr) as Hl.
  pose proof (reachable_apply_inv n w Hr) as Hap.
  pose proof (exec_fails n w G L A K Hl Hap Hlg Hsf Hb ev) as Hf. unfold fails in Hf. tauto.
Qed.

Lemma no_step_panics_witness :
  exists w, ireachable 3 w /\ (exists rf, peers w !! 0 = Some rf /\ state rf = Leader) /\
    exec (EStart 0 (Some (VInt 7))) w <> Panic /\ exec (ECrash 1 None t0) w <> Fatal.
Proof.
  destruct (irun (campaign 0 3 ++ answered 5) (initial 3 t0)) as [w|] eqn:E; [| by vm_compute in E].
  pose proof (irun_ireachable 3 t0 _ w E) as Hr. exists w. split; [exact Hr |]. split.
  - vm_compute in E. injection E as <-. eexists. split; [reflexivity | done].
  - split; [exact (proj1 (no_step_panics 3 w (EStart 0 (Some (VInt 7))) ltac:(lia) Hr))
           | exact (proj2 (no_step_panics 3 w (ECrash 1 None t0) ltac:(lia) Hr))].
Defined.
