(* ===== verification/RaftProgress.v ===== *)
(** * A leader can always be elected

    Under every interleaving, with any losses and crashes so far, two or more
    servers can go on in such a way that one of them leads a new term: nothing
    that happened can block elections for good.  A cluster of a single server, on
    the other hand, never has a leader: startElection counts its votes only when
    a reply arrives. *)

From S2P Require Import Prelude LabGob Persister Raft RaftRPC RaftNode RaftSystem RaftSteps RaftRaces RaftLocal RaftApply.

(** ** The servers and their arrays *)

Record arrays_inv (n : Z) (w : World) : Prop := {
  ar_dom : forall p, is_Some (peers w !! p) <-> 0 <= p < n;
  ar_len : forall p rf, peers w !! p = Some rf ->
    length (nextIndex rf) = Z.to_nat n /\ length (matchIndex rf) = Z.to_nat n;
}.

Lemma ar_same n w w' : peers w' = peers w -> arrays_inv n w -> arrays_inv n w'.
Proof. intros Hp []. by split; rewrite Hp. Qed.

Lemma ar_update n w w' p rf rf' :
  arrays_inv n w -> peers w !! p = Some rf -> peers w' = <[p := rf']> (peers w) ->
  length (nextIndex rf') = length (nextIndex rf) -> length (matchIndex rf') = length (matchIndex rf) ->
  arrays_inv n w'.
Proof.
  intros [] Hp Hps Hn Hm. split; rewrite Hps.
  - intros q. rewrite <- ar_dom0, lookup_insert. case_decide; [subst; rewrite Hp; by split; eauto | done].
  - intros q rf1. rewrite lookup_insert. case_decide; [| apply ar_len0]. intros [= <-].
    rewrite Hn, Hm. by apply (ar_len0 p).
Qed.

Lemma core_lengths rf rf' : same_core rf rf' ->
  length (nextIndex rf') = length (nextIndex rf) /\ length (matchIndex rf') = length (matchIndex rf).
Proof. intros []. by split; congruence. Qed.

Lemma handle_lengths i next args reply bc rf x rf' : sender_handle i next args reply bc rf = Ok (x, rf') ->
  length (nextIndex rf') = length (nextIndex rf) /\ length (matchIndex rf') = length (matchIndex rf).
Proof.
  destruct x as [bc' r]. unfold sender_handle. intros H. destruct (aer_Success reply).
  - apply sender_accepted_inv in H as (_ & _ & (k & _ & -> & ->) & _). case_decide; by rewrite ?length_insert.
  - sec_inv. match goal with H : sender_rejected _ _ _ _ _ = Ok _ |- _ =>
      apply sender_rejected_inv in H as [(_ & _ & ->) | (_ & _ & k & _ & _ & _ & ->)] end.
    + unfold stepped_down. by raft_fields.
    + cbn. by rewrite length_insert.
Qed.

Lemma AppendEntries_core t1 t2 args rf reply rf' : 0 <= ae_PrevLogIndex args ->
  AppendEntries t1 t2 args rf = Ok (reply, rf') -> same_core rf rf' /\ (state rf' = Leader -> state rf = Leader).
Proof.
  intros Hp H. destruct (AppendEntries_total t1 t2 args rf Hp) as (r & rf1 & He & Hc).
  rewrite H in He. injection He as <- <-.
  destruct Hc as [(_ & _ & ->) | [(_ & _ & -> & _) | (_ & _ & _ & Ha)]].
  - done.
  - split; [apply adopted_same_core |]. rewrite adopted_state. by case_decide.
  - split; [apply Ha |]. by rewrite (aa_state _ _ _ Ha).
Qed.

Lemma RequestVote_core t1 args rf reply rf' : 0 < len (Log rf) ->
  RequestVote t1 args rf = Ok (reply, rf') -> same_core rf rf' /\ (state rf' = Leader -> state rf = Leader).
Proof.
  intros Hl H. destruct (RequestVote_total t1 args rf Hl) as (r & rf1 & He & Hc).
  rewrite H in He. injection He as <- <-.
  destruct Hc as [(_ & _ & ->) | [(_ & _ & _ & ->) | (_ & _ & _ & ->)]].
  - done.
  - split; [apply adopted_same_core |]. rewrite adopted_state. by case_decide.
  - split; [| unfold voted; by raft_fields]. etrans; [apply (adopted_same_core None (rv_Term args)) |].
    unfold voted. split; by raft_fields.
Qed.

Lemma arrays_inv_step n w w' : local_inv n w -> arrays_inv n w -> wstep w w' -> arrays_inv n w'.
Proof.
  intros Hl Hi Hs. destruct Hs; try (by apply (ar_same n w)).
  - eapply (ar_update n w); [done | exact H0 | done | congruence | congruence].
  - apply spawn_all_inv in H2 as []. by apply (ar_same n w).
  - destruct (core_lengths _ _ (sd_core _ _ _ H1)). by eapply (ar_update n w).
  - destruct (handle_lengths _ _ _ _ _ _ _ _ H2). by eapply (ar_update n w).
  - destruct (core_lengths _ _ (cp_core _ _ H1)). by eapply (ar_update n w).
  - pose proof (pw_npeers _ _ _ (li_peers _ _ Hl _ _ H0)) as Hn. destruct (ar_len _ _ Hi _ _ H0) as [Hni Hmi].
    apply vote_handle_inv in H2 as (_ & [(_ & _ & []) | (_ & _ & [(_ & _ & ->) | (_ & ->)])]).
    + rewrite Hn in *. eapply (ar_update n w); [done | exact H0 | done | |].
      * by rewrite won_next, length_replicate, Hni.
      * by rewrite won_match, length_replicate, Hmi.
    + eapply (ar_update n w); [done | exact H0 | done | |]; unfold stepped_down; by raft_fields.
    + by eapply (ar_update n w).
  - apply apply_one_inv in H2 as (-> & _). by eapply (ar_update n w).
  - pose proof (li_threads _ _ Hl _ _ _ H) as Hg.
    apply AppendEntries_core in H2 as [[? ?]%core_lengths _]; [by eapply (ar_update n w) |].
    destruct H0 as [(b & next & -> & _) | [-> _]]; apply Hg.
  - apply RequestVote_core in H2 as [[? ?]%core_lengths _]; [by eapply (ar_update n w) |].
    exact (wf_log_len _ (pw_log _ _ _ (li_peers _ _ Hl _ _ H1))).
  - destruct (crash_restarts _ _ _ _ _ _ _ _ _ Hl H H0 H1) as [_ []].
    destruct (ar_len _ _ Hi _ _ H) as [Hni Hmi].
    eapply (ar_update n w); [done | exact H | done | rewrite rs_next | rewrite rs_match]; by rewrite length_replicate.
Qed.

Lemma arrays_inv_initial n tm : arrays_inv n (initial n tm).
Proof.
  split.
  - intros p. split; [intros [rf Hrf]; by apply initial_peers in Hrf as [? _] |]. intros Hp. exists (fresh_peer n p tm). by apply initial_peers.
  - intros p rf [_ ->]%initial_peers.
    destruct (fresh_peer_recovered n p tm) as (rf & _ & -> & _ & _ & _ & _ & _ & _ & _ & _ & _ & -> & ->).
    by rewrite length_replicate.
Qed.

Lemma reachable_arrays n w : reachable n w -> arrays_inv n w.
Proof.
  intros Hr. enough (local_inv n w /\ arrays_inv n w) by tauto. revert Hr.
  apply (reachable_ind_inv n (fun w => local_inv n w /\ arrays_inv n w)).
  - intros tm. split; [apply local_inv_initial | apply arrays_inv_initial].
  - intros w1 w2 Hfit [Hl Hi] Hs. split; [by eapply local_inv_step | by eapply arrays_inv_step].
Qed.

(** ** The most recent log *)

Definition lastTerm (log : list LogEntry) : Z := match last log with Some x => Term x | None => 0 end.

(** [up_to_date] of RaftRPC, between two logs. *)
Definition newer (log log' : list LogEntry) : Prop :=
  lastTerm log < lastTerm log' \/ lastTerm log = lastTerm log' /\ len log <= len log'.

Lemma newest (l : list (Z * Raft)) x : exists p rf, (p, rf) ∈ x :: l /\ forall q rf', (q, rf') ∈ x :: l -> newer (Log rf') (Log rf).
Proof.
  revert x. induction l as [| y l IH]; intros [p rf].
  - exists p, rf. split; [by left |]. intros q rf' [= -> ->]%list_elem_of_singleton. right. lia.
  - destruct (IH y) as (p' & rf' & Hin & Hmax). destruct (decide (lastTerm (Log rf) < lastTerm (Log rf') \/
      lastTerm (Log rf) = lastTerm (Log rf') /\ len (Log rf) <= len (Log rf'))) as [Hd | Hd].
    + exists p', rf'. split; [by right |]. intros q rf1 [[= -> ->] | ?]%elem_of_cons; [exact Hd | by eapply Hmax].
    + exists p, rf. split; [by left |]. intros q rf1 [[= -> ->] | H]%elem_of_cons; [right; lia |].
      specialize (Hmax _ _ H). unfold newer in *. lia.
Qed.

Lemma newest_server (ps : gmap Z Raft) : ps <> ∅ ->
  exists p rf, ps !! p = Some rf /\ forall q rf', ps !! q = Some rf' -> newer (Log rf') (Log rf).
Proof.
  intros Hne. destruct (map_to_list ps) as [| x l] eqn:E.
  { destruct Hne. by apply map_to_list_empty_iff. }
  destruct (newest l x) as (p & rf & Hin & Hmax). rewrite <- E in *. exists p, rf.
  split; [by apply elem_of_map_to_list |]. intros q rf' Hq. eapply Hmax. by apply elem_of_map_to_list.
Qed.

(** ** Elections, step by step *)

Definition below (T : Z) (w : World) : Prop := forall q rf, peers w !! q = Some rf -> CurrentTerm rf <= T.

Lemma below_fit T w : below T w -> T < MaxInt -> terms_fit w.
Proof. intros Hb HT q rf Hq. specialize (Hb q rf Hq). lia. Qed.

(** Steps in which nothing goes wrong: no crash, no lost message, no write into
    the array of a request. *)
Definition calm (ev : Event) : bool :=
  match ev with ECrash _ _ _ | ELose _ | EAlias _ _ => false | _ => true end.

Definition calm_step (w w' : World) : Prop :=
  terms_fit w /\ exists ev, exec ev w = Ok (tt, w') /\ calm ev = true.

Lemma one_step ev w w' : terms_fit w -> exec ev w = Ok (tt, w') -> calm ev = true -> rtc calm_step w w'.
Proof. intros Hf He Hc. apply rtc_once. split; [done |]. by exists ev. Qed.

Lemma calm_steps w w' : rtc calm_step w w' -> rtc step w w'.
Proof. apply rtc_subrel. intros w1 w2 (Hf & ev & He & _). split; [done |]. by exists ev. Qed.

Lemma rtc_reachable n w w' : reachable n w -> rtc calm_step w w' -> reachable n w'.
Proof. intros [tm Hr] Hs%calm_steps. exists tm. by etrans. Qed.

(** What an election leaves alone: the goroutines older than [m], what was
    applied, the logs and the commit indices. *)
Record election_frame (m : nat) (w w' : World) : Prop := {
  ef_threads : forall t, (t < m)%nat -> threads w' !! t = threads w !! t;
  ef_applied : applied w' = applied w;
  ef_fresh : (fresh w <= fresh w')%nat;
  ef_peers : forall q rf, peers w !! q = Some rf -> exists rf', peers w' !! q = Some rf' /\
    Log rf' = Log rf /\ commitIndex rf' = commitIndex rf;
}.

#[export] Instance election_frame_preorder m : PreOrder (election_frame m).
Proof.
  split; [split; eauto |]. intros x y z [H1 H2 H3 H4] [K1 K2 K3 K4]. split; [| congruence | lia |].
  - intros t Ht. by rewrite K1, H1.
  - intros q rf (rf1 & Hq & ? & ?)%H4. apply K4 in Hq as (rf2 & ? & ? & ?). exists rf2. split_and!; congruence.
Qed.

Lemma timeout_exec p rf w : peers w !! p = Some rf -> exec (ETimeout p) w = Ok (tt, spawned p GElect w).
Proof.
  intros Hp. cbn. unfold st_bind, on_peer. rewrite Hp. cbn. unfold spawn, modify. cbn.
  rewrite (insert_id (peers w) p rf) by done. by destruct w.
Qed.

(** Server [p] times out and its startElection runs up to its loop. *)
Lemma election_starts w p rf : peers w !! p = Some rf -> terms_fit w ->
  exists w' rf' tid e, rtc calm_step w w' /\ peers w' = <[p := rf']> (peers w) /\ campaigning rf rf' /\
    threads w' !! tid = Some (p, GElectLoop e 0) /\ elects w' !! e = Some 1 /\ (fresh w <= tid < fresh w')%nat /\
    forall m, (m <= fresh w)%nat -> election_frame m w w'.
Proof.
  intros Hp Hf. pose proof (timeout_exec p rf w Hp) as H1.
  destruct (startElection_begin_spec t0 rf) as (rf' & He & Hc).
  eexists _, rf', (fresh w), (S (fresh w)).
  split; [etrans; [by eapply one_step |]; eapply (one_step (R (fresh w)));
          [by apply Hf | | done] |].
  { cbn. unfold with_thread, spawned. cbn. rewrite lookup_insert_eq. cbn. unfold st_bind, on_peer. cbn. rewrite Hp, He. reflexivity. }
  cbn. split; [done |]. split; [done |]. rewrite !lookup_insert_eq. split; [done |]. split; [done |]. split; [lia |].
  intros m Hm. split; cbn.
  - intros t Ht. by rewrite !lookup_insert_ne by lia.
  - done.
  - lia.
  - intros q rfq Hq. destruct (decide (p = q)) as [-> | Hne].
    + rewrite lookup_insert_eq. exists rf'. rewrite Hp in Hq. injection Hq as <-. split; [done |]. split; apply Hc.
    + rewrite lookup_insert_ne by done. by exists rfq.
Qed.

Lemma campaigning_term n p rf rf' : peer_wf n p rf -> CurrentTerm rf < MaxInt -> campaigning rf rf' ->
  CurrentTerm rf' = CurrentTerm rf + 1.
Proof.
  intros Hw HT Hc. pose proof (pw_term _ _ _ Hw). rewrite (cp_term _ _ Hc), wrap64_small; [done | unfold MinInt; lia].
Qed.

Lemma below_insert T w w' p rf' : below T w -> peers w' = <[p := rf']> (peers w) -> CurrentTerm rf' <= T -> below T w'.
Proof.
  intros Hb Hp HT q rf. rewrite Hp, lookup_insert. case_decide; [by intros [= <-] | apply Hb].
Qed.

(** By timing out again and again [p] reaches any term. *)
Lemma term_raised n B p k : B < MaxInt -> forall w rf, reachable n w -> below B w -> peers w !! p = Some rf ->
  CurrentTerm rf + Z.of_nat k <= B ->
  exists w' rf', rtc calm_step w w' /\ peers w' = <[p := rf']> (peers w) /\ Log rf' = Log rf /\
    CurrentTerm rf' = CurrentTerm rf + Z.of_nat k /\ forall m, (m <= fresh w)%nat -> election_frame m w w'.
Proof.
  intros HB. induction k as [| k IH]; intros w rf Hr Hb Hp Hk.
  { exists w, rf. rewrite insert_id by done. split_and!; [done.. | lia | done]. }
  destruct (election_starts w p rf Hp (below_fit B w Hb HB)) as (w1 & rf1 & tid & e & Hs1 & Hp1 & Hc & _ & _ & Ht & Hfr).
  pose proof (li_peers _ _ (reachable_local_inv n w Hr) _ _ Hp) as Hw.
  pose proof (campaigning_term n p rf rf1 Hw ltac:(lia) Hc) as HT.
  destruct (IH w1 rf1) as (w2 & rf2 & Hs2 & Hp2 & Hl & HT2 & Hfr2).
  - by eapply rtc_reachable.
  - eapply below_insert; [exact Hb | done | lia].
  - by rewrite Hp1, lookup_insert_eq.
  - lia.
  - exists w2, rf2. split; [by etrans |]. rewrite Hp2, Hp1, insert_insert_eq.
    split; [done |]. split; [by rewrite Hl, (cp_log _ _ Hc) |]. split; [lia |].
    intros m Hm. etrans; [by apply Hfr | apply Hfr2; lia].
Qed.

(** Candidate [p] of term [T] has [v] votes and is about to ask server [j]. *)
Record canvass (m : nat) (p T : Z) (e tid : nat) (j v : Z) (w : World) : Prop := {
  cv_thread : threads w !! tid = Some (p, GElectLoop e j);
  cv_votes : elects w !! e = Some v;
  cv_fresh : (m <= tid < fresh w)%nat;
  cv_me : exists rf, peers w !! p = Some rf /\ CurrentTerm rf = T /\ state rf = Candidate;
  cv_below : below T w;
  cv_others : forall q rf rfq, j <= q -> q <> p -> peers w !! p = Some rf -> peers w !! q = Some rfq ->
    CurrentTerm rfq < T /\ newer (Log rfq) (Log rf);
}.

Lemma last_lastTerm log x : last log = Some x -> lastTerm log = Term x.
Proof. unfold lastTerm. by intros ->. Qed.

(** A server of an older term with an older log grants its vote. *)
Lemma grants n j rf rfq args : peer_wf n j rfq -> 0 < len (Log rf) ->
  election_args rf = Ok (args, rf) -> CurrentTerm rfq < CurrentTerm rf -> newer (Log rfq) (Log rf) ->
  rv_Term args = CurrentTerm rf /\
  exists rfq', RequestVote t0 args rfq = Ok (mkRVReply (CurrentTerm rf) true, rfq') /\
    CurrentTerm rfq' = CurrentTerm rf /\ Log rfq' = Log rfq /\ commitIndex rfq' = commitIndex rfq.
Proof.
  intros Hw Hlen Ha HT Hnew. destruct (election_args_Ok rf Hlen) as (x & Hx & Ha'). rewrite Ha in Ha'.
  injection Ha' as ->. split; [done |]. pose proof (wf_log_len _ (pw_log _ _ _ Hw)) as Hlq.
  destruct (last_is_Some' _ Hlq) as [y Hy].
  destruct (RequestVote_total t0 (mkRVArgs (CurrentTerm rf) (me rf) (len (Log rf) - 1) (Term x)) rfq Hlq)
    as (r & rfq' & He & [(? & _) | [(_ & Hno & _) | (_ & _ & -> & ->)]]).
  - cbn in *. lia.
  - destruct Hno. split; [by left |]. exists y. split; [done |]. cbn. unfold newer in Hnew.
    rewrite (last_lastTerm _ _ Hx), (last_lastTerm _ _ Hy) in Hnew. lia.
  - eexists. split; [exact He |]. unfold voted. raft_fields.
    rewrite adopted_CurrentTerm, adopted_Log, adopted_commitIndex by (cbn; lia). done.
Qed.

Lemma bind_run {S A B} (m : ST S A) (f : A -> ST S B) s a s' : m s = Ok (a, s') -> st_bind A B f m s = f a s'.
Proof. unfold st_bind. by intros ->. Qed.

Lemma on_peer_run {A} p (m : ST Raft A) w rf a rf' :
  peers w !! p = Some rf -> m rf = Ok (a, rf') -> on_peer p m w = Ok (a, updated p rf' w).
Proof. intros Hp Hm. apply on_peer_Ok. by exists rf, rf'. Qed.

(** A section that only reads. *)
Lemma on_peer_reads {A} p (m : ST Raft A) w rf a :
  peers w !! p = Some rf -> m rf = Ok (a, rf) -> on_peer p m w = Ok (a, w).
Proof. intros Hp Hm. rewrite (on_peer_run p m w rf a rf Hp Hm). by rewrite updated_same. Qed.

Lemma exec_thread tid p g t1 w : threads w !! tid = Some (p, g) -> exec (ERun tid t1) w = run_thread tid p g t1 w.
Proof. intros Ht. cbn. unfold with_thread. by rewrite Ht. Qed.

Section round.
Context (p : Z) (e tid : nat) (j : Z) (w : World) (rf : Raft).
Hypothesis Ht : threads w !! tid = Some (p, GElectLoop e j).
Hypothesis Hp : peers w !! p = Some rf.

Lemma exec_skip : j < npeers rf -> j = p -> exec (R tid) w = Ok (tt, moved tid p (Some (GElectLoop e (j + 1))) w).
Proof.
  intros Hj Hjp. unfold R. rewrite (exec_thread _ _ _ _ _ Ht). cbn [run_thread].
  rewrite (bind_run _ _ w (npeers rf) w) by (by eapply on_peer_reads).
  rewrite decide_False by lia. by rewrite decide_True.
Qed.

Lemma exec_ask args : j < npeers rf -> j <> p -> election_args rf = Ok (args, rf) ->
  exec (R tid) w = Ok (tt, moved tid p (Some (GElectLoop e (j + 1))) (spawned p (GVoteCall e j args) w)).
Proof.
  intros Hj Hjp Ha. unfold R. rewrite (exec_thread _ _ _ _ _ Ht). cbn [run_thread].
  rewrite (bind_run _ _ w (npeers rf) w) by (by eapply on_peer_reads).
  rewrite !decide_False by lia.
  by rewrite (bind_run _ _ w args w) by (by eapply on_peer_reads).
Qed.
End round.

(** The request, its reply and the two sections of the requester, in a row. *)
Lemma vote_taken p e t w rf rfq j args rfq' v :
  threads w !! t = Some (p, GVoteCall e j args) -> peers w !! p = Some rf -> peers w !! j = Some rfq -> j <> p ->
  elects w !! e = Some v -> CurrentTerm rf = rv_Term args ->
  RequestVote t0 args rfq = Ok (mkRVReply (CurrentTerm rf) true, rfq') ->
  length (nextIndex rf) = Z.to_nat (npeers rf) -> length (matchIndex rf) = Z.to_nat (npeers rf) ->
  terms_fit w -> CurrentTerm rfq' < MaxInt ->
  exists w' won_ rf', rtc calm_step w w' /\
    w' = moved t p (if won_ : bool then Some GHeart else None) (set_elects (<[e := v + 1]> (elects w))
      (set_peers (<[p := rf']> (<[j := rfq']> (peers w))) w)) /\
    vote_handle (mkRVReply (CurrentTerm rf) true) v rf = Ok ((v + 1, won_), rf').
Proof.
  intros Ht Hp Hj Hjp He HT Hv Hn Hm Hf Hq.
  destruct (vote_handle_total (mkRVReply (CurrentTerm rf) true) v rf Hn Hm) as ([v' won_] & rf' & Hh).
  pose proof (vote_handle_inv _ _ _ _ _ _ Hh) as [Hv' _]. cbn in Hv'. subst v'.
  set (reply := mkRVReply (CurrentTerm rf) true) in *.
  set (w1 := moved t p (Some (GVoteRet e j args reply)) (updated j rfq' w)).
  set (w2 := moved t p (Some (GVoteCheck e j args reply)) w1).
  set (w3 := moved t p (Some (GVoteHandle e j args reply)) w2).
  set (w4 := moved t p (if won_ then Some GHeart else None) (set_elects (<[e := v + 1]> (elects w3)) (updated p rf' w3))).
  assert (Hf1 : terms_fit (updated j rfq' w)) by (unfold terms_fit; cbn; by apply map_Forall_insert_2).
  assert (H1 : exec (D t) w = Ok (tt, w1)).
  { unfold D. cbn. unfold with_thread. rewrite Ht. cbn.
    by rewrite (bind_run _ _ w reply (updated j rfq' w)) by (by eapply on_peer_run). }
  assert (H2 : exec (EReply t) w1 = Ok (tt, w2)).
  { cbn. unfold with_thread. unfold w1 at 1. cbn. by rewrite lookup_insert_eq. }
  assert (Hp1 : peers w2 !! p = Some rf) by (cbn; by rewrite lookup_insert_ne by done).
  assert (H3 : exec (R t) w2 = Ok (tt, w3)).
  { unfold R. rewrite (exec_thread t p (GVoteCheck e j args reply)) by (cbn; apply lookup_insert_eq). cbn [run_thread].
    rewrite (bind_run _ _ w2 false w2); [done |]. eapply on_peer_reads; [exact Hp1 |].
    unfold term_differs, st_bind, gets. by rewrite bool_decide_false by tauto. }
  assert (H4 : exec (R t) w3 = Ok (tt, w4)).
  { unfold R. rewrite (exec_thread t p (GVoteHandle e j args reply)) by (cbn; apply lookup_insert_eq). cbn [run_thread].
    rewrite (bind_run _ _ w3 v w3) by (unfold get_elect; cbn; by rewrite He).
    rewrite (bind_run _ _ w3 (v + 1, won_) (updated p rf' w3)) by (by eapply on_peer_run).
    unfold st_bind, modify. cbn. by destruct won_. }
  exists w4, won_, rf'. split; [| split; [| done]].
  - do 3 (etrans; [by eapply one_step |]). by eapply one_step.
  - unfold w4, w3, w2, w1, moved, updated. cbn. unfold set_threads, set_elects, set_peers. cbn.
    destruct won_; f_equal; by rewrite ?insert_insert_eq, ?delete_insert_eq.
Qed.

(** A leader that was just elected. *)
Definition elected (n p T : Z) (w : World) : Prop :=
  exists rf, peers w !! p = Some rf /\ state rf = Leader /\ CurrentTerm rf = T /\
    nextIndex rf = replicate (Z.to_nat n) (len (Log rf)) /\ matchIndex rf = replicate (Z.to_nat n) 0.

Lemma ef_vote m t p og e v rf rf' j rfq rfq' w w1 :
  (m <= t)%nat -> peers w !! p = Some rf -> peers w !! j = Some rfq -> j <> p ->
  Log rf' = Log rf -> commitIndex rf' = commitIndex rf -> Log rfq' = Log rfq -> commitIndex rfq' = commitIndex rfq ->
  election_frame m w w1 -> peers w1 = peers w ->
  election_frame m w (moved t p og (set_elects (<[e := v]> (elects w1)) (set_peers (<[p := rf']> (<[j := rfq']> (peers w1))) w1))).
Proof.
  intros Ht Hp Hj Hjp Hl Hc Hlq Hcq [H1 H2 H3 H4] Hw. split; cbn; [| done.. |].
  - intros t' Ht'. destruct og; rewrite ?lookup_insert_ne, ?lookup_delete_ne by lia; by apply H1.
  - intros q rf0 Hq. rewrite Hw, !lookup_insert. case_decide as E; [subst q; exists rf'; naive_solver |].
    case_decide as E'; [subst q; exists rfq'; naive_solver |]. by exists rf0.
Qed.

(** One iteration of the loop over the peers, with the vote of peer [j]. *)
Lemma canvass_round n m p T e tid j v w :
  T < MaxInt -> 0 <= j < n -> v < Z.quot n 2 + 1 -> reachable n w -> canvass m p T e tid j v w ->
  exists w', rtc calm_step w w' /\ below T w' /\ election_frame m w w' /\
    (elected n p T w' \/
     exists v', v' = (if decide (j = p) then v else v + 1) /\ v' < Z.quot n 2 + 1 /\ canvass m p T e tid (j + 1) v' w').
Proof.
  intros HT Hj Hv Hr [Hth Hel Hfr (rf & Hp & HTp & Hs) Hb Ho].
  pose proof (reachable_local_inv n w Hr) as Hl. pose proof (li_peers _ _ Hl _ _ Hp) as Hw.
  pose proof (pw_npeers _ _ _ Hw) as Hnp. pose proof (below_fit T w Hb HT) as Hf.
  destruct (decide (j = p)) as [Hjp | Hjp].
  - exists (moved tid p (Some (GElectLoop e (j + 1))) w). split; [eapply (one_step (R tid)); [done | | done];
      eapply exec_skip; [done | done | lia | done] |]. split; [done |]. split.
    { split; cbn; [intros; by rewrite lookup_insert_ne by lia | done.. | eauto]. }
    right. exists v. split; [done |]. split; [done |].
    split; cbn; try done; [by rewrite lookup_insert_eq | by exists rf |]. intros; apply (Ho q); auto; lia.
  - destruct (reachable_arrays n w Hr) as [Hdom Har]. destruct (proj2 (Hdom j) Hj) as [rfq Hq].
    destruct (Ho j rf rfq) as [HTq Hnew]; [lia | done | done | done |].
    pose proof (wf_log_len _ (pw_log _ _ _ Hw)) as Hlen. destruct (election_args_Ok rf Hlen) as (x & _ & Ha).
    set (args := mkRVArgs _ _ _ _) in Ha.
    destruct (grants n j rf rfq args (li_peers _ _ Hl _ _ Hq) Hlen Ha) as (HTa & rfq' & Hg & HTq' & Hlq & Hcq); [lia | done |].
    destruct (Har p rf Hp) as [Hni Hmi]. rewrite <- Hnp in Hni, Hmi.
    set (w1 := moved tid p (Some (GElectLoop e (j + 1))) (spawned p (GVoteCall e j args) w)).
    assert (H1 : rtc calm_step w w1) by (eapply (one_step (R tid)); [done | eapply exec_ask; [done | done | lia | done | done] | done]).
    assert (Hf1 : election_frame m w w1).
    { split; cbn; [intros; by rewrite !lookup_insert_ne by lia | done | lia | eauto]. }
    destruct (vote_taken p e (fresh w) w1 rf rfq j args rfq' v) as (w' & won_ & rf' & Hs' & -> & Hh); try done.
    { cbn. rewrite lookup_insert_ne by lia. apply lookup_insert_eq. }
    { lia. }
    eexists. split; [etrans; [exact H1 | exact Hs'] |]. apply vote_handle_inv in Hh as (_ & Hcase).
    assert (CurrentTerm rf' = T /\ Log rf' = Log rf /\ commitIndex rf' = commitIndex rf) as (HT' & Hl' & Hc').
    { destruct Hcase as [(_ & _ & []) | (_ & _ & [([=] & _) | (_ & ->)])]; split_and!; congruence. }
    split.
    { intros q rfx. cbn. rewrite !lookup_insert. case_decide; [intros [= <-]; lia |].
      case_decide; [intros [= <-]; lia | apply Hb]. }
    split; [by eapply ef_vote; try done; lia |].
    destruct Hcase as [(_ & -> & Hwon) | (Hno & -> & [([=] & _) | (_ & ->)])].
    + left. exists rf'. cbn. rewrite lookup_insert_eq. split; [done |]. split; [apply Hwon |]. split; [done |].
      by rewrite (won_next _ _ Hwon), (won_match _ _ Hwon), Hl', Hnp by done.
    + right. exists (v + 1). split; [done |]. split.
      { destruct (decide (v + 1 >= Z.quot n 2 + 1)); [| lia]. destruct Hno. unfold wins. by rewrite Hnp. }
      split; cbn.
      * rewrite lookup_delete_ne by lia. by rewrite lookup_insert_eq.
      * apply lookup_insert_eq.
      * lia.
      * exists rf. by rewrite lookup_insert_eq.
      * intros q rfx. cbn. rewrite !lookup_insert. case_decide; [intros [= <-]; lia |].
        case_decide; [intros [= <-]; lia | apply Hb].
      * intros q rf1 rf2 Hle Hqp. rewrite lookup_insert_eq. intros [= <-].
        rewrite !lookup_insert_ne by lia. intros Hq2. apply (Ho q); [lia | done | done | done].
Qed.

(** The votes at iteration [j], while the candidate has not won. *)
Definition votes_at (p j : Z) : Z := if decide (p < j) then j else j + 1.

Lemma canvass_wins n m p T e tid k : T < MaxInt -> 0 <= p < n -> forall j w,
  Z.of_nat k = n - j -> 0 <= j -> votes_at p j < Z.quot n 2 + 1 -> reachable n w ->
  canvass m p T e tid j (votes_at p j) w ->
  exists w', rtc calm_step w w' /\ below T w' /\ election_frame m w w' /\ elected n p T w'.
Proof.
  intros HT Hp. induction k as [| k IH]; intros j w Hk Hj Hv Hr Hc.
  { exfalso. unfold votes_at in Hv. rewrite decide_True in Hv by lia.
    pose proof (Z.quot_rem' n 2). pose proof (Z.rem_bound_pos n 2). lia. }
  destruct (canvass_round n m p T e tid j (votes_at p j) w) as (w1 & Hs1 & Hb1 & Hf1 & [Hlead | (v' & Hv' & Hlt & Hc1)]);
    try done; [lia | by exists w1 |].
  assert (v' = votes_at p (j + 1)) as ->.
  { unfold votes_at in *. destruct (decide (j = p)); repeat case_decide; lia. }
  destruct (IH (j + 1) w1) as (w2 & Hs2 & Hb2 & Hf2 & Hlead); [lia | lia | done | by eapply rtc_reachable | done |].
  exists w2. split; [by etrans |]. split; [done |]. split; [by etrans | done].
Qed.

(** The server with the newest log wins term [M + 1]. *)
Lemma newest_wins n w M : 2 <= n -> reachable n w -> below M w -> M + 1 < MaxInt ->
  exists w' p, rtc calm_step w w' /\ elected n p (M + 1) w' /\ below (M + 1) w' /\ election_frame (fresh w) w w'.
Proof.
  intros Hn Hr Hb HM. destruct (reachable_arrays n w Hr) as [Hdom _].
  destruct (newest_server (peers w)) as (p & rf & Hp & Hmax).
  { intros He. destruct (proj2 (Hdom 0) ltac:(lia)) as [rf Hrf]. by rewrite He in Hrf. }
  pose proof (proj1 (Hdom p) (mk_is_Some _ _ Hp)) as Hpn. pose proof (Hb p rf Hp) as HTp.
  destruct (term_raised n M p (Z.to_nat (M - CurrentTerm rf)) ltac:(lia) w rf Hr Hb Hp)
    as (w1 & rf1 & Hs1 & Hp1 & Hl1 & HT1 & Hf1); [lia |].
  specialize (Hf1 (fresh w) ltac:(lia)).
  assert (Hr1 : reachable n w1) by (by eapply rtc_reachable).
  assert (Hb1 : below M w1) by (eapply below_insert; [exact Hb | done | lia]).
  assert (Hw1 : peers w1 !! p = Some rf1) by (by rewrite Hp1, lookup_insert_eq).
  destruct (election_starts w1 p rf1 Hw1 (below_fit M w1 Hb1 ltac:(lia)))
    as (w2 & rf2 & tid & e & Hs2 & Hp2 & Hc & Hth & Hel & Hfr & Hf2).
  pose proof (ef_fresh _ _ _ Hf1) as Hfresh. specialize (Hf2 (fresh w) Hfresh).
  pose proof (campaigning_term n p rf1 rf2 (li_peers _ _ (reachable_local_inv n w1 Hr1) _ _ Hw1) ltac:(lia) Hc) as HT2.
  assert (Hb2 : below (M + 1) w2).
  { eapply below_insert; [| done | lia]. intros q rfq Hq. specialize (Hb1 q rfq Hq). lia. }
  destruct (canvass_wins n (fresh w) p (M + 1) e tid (Z.to_nat n) ltac:(lia) Hpn 0 w2) as (w3 & Hs3 & Hb3 & Hf3 & Hlead).
  - lia.
  - done.
  - unfold votes_at. rewrite decide_False by lia. pose proof (Z.quot_rem' n 2). pose proof (Z.rem_bound_pos n 2). lia.
  - by do 2 (eapply rtc_reachable; [| done]).
  - replace (votes_at p 0) with 1 by (unfold votes_at; by rewrite decide_False by lia).
    split; try done; [lia | exists rf2; rewrite Hp2, lookup_insert_eq; split_and!; [done | lia | apply Hc] |].
    intros q rfa rfq _ Hqp. rewrite Hp2, Hp1, lookup_insert_eq. intros [= <-].
    rewrite !lookup_insert_ne by done. intros Hq. specialize (Hb q rfq Hq). specialize (Hmax q rfq Hq).
    rewrite (cp_log _ _ Hc), Hl1. split; [lia | done].
  - exists w3, p. split; [by do 2 (etrans; [done |]) |]. split; [done |]. split; [done |]. by do 2 (etrans; [done |]).
Qed.


(** Three servers after a split vote: all of them are candidates of term 1. *)
Definition split_vote : list Event := [ETimeout 0; ETimeout 1; ETimeout 2; R 3; R 4; R 5].


(** ** A single server *)

(** Nobody asks for votes, and Start finds no leader. *)
Definition lonely (g : Goroutine) : Prop :=
  match g with
  | GElectLoop _ i => 0 <= i
  | GVoteCall _ _ _ | GVoteRet _ _ _ _ | GVoteCheck _ _ _ _ | GVoteHandle _ _ _ _ | GStartAppend _ => False
  | _ => True
  end.

Record alone (w : World) : Prop := {
  al_one : forall p rf, peers w !! p = Some rf -> p = 0 /\ npeers rf = 1 /\ state rf <> Leader;
  al_threads : forall t p g, threads w !! t = Some (p, g) -> p = 0 /\ lonely g;
}.

Lemma al_same w w' : alone w -> peers w' = peers w ->
  (forall t p g, threads w' !! t = Some (p, g) -> threads w !! t = Some (p, g) \/
     p = 0 /\ lonely g) -> alone w'.
Proof. intros [Hone Hth] Hp Ht. split; [by rewrite Hp |]. intros t p g [?%Hth | ?]%Ht; done. Qed.

Lemma al_update w w1 tid p og q rf rf' :
  alone w -> peers w !! q = Some rf -> peers w1 = <[q := rf']> (peers w) -> threads w1 = threads w -> p = 0 ->
  npeers rf' = npeers rf -> (state rf' = Leader -> state rf = Leader) ->
  (forall g, og = Some g -> lonely g) -> alone (moved tid p og w1).
Proof.
  intros [Hone Hth] Hq Hp Ht -> Hn Hs Hog. split; cbn [peers moved set_threads]; rewrite ?Hp.
  - intros q' rf1. rewrite lookup_insert. case_decide; [| apply Hone]. intros [= <-]. subst.
    destruct (Hone q' rf Hq) as (? & ? & ?). split; [done |]. split; [congruence | auto].
  - intros t p' g [(-> & -> & Hg) | [_ Hg]]%moved_lookup; [split; [done | by apply Hog] | rewrite Ht in Hg; by eapply Hth].
Qed.

Lemma handle_state i next args reply bc rf x rf' : sender_handle i next args reply bc rf = Ok (x, rf') ->
  npeers rf' = npeers rf /\ (state rf' = Leader -> state rf = Leader).
Proof.
  destruct x as [bc' r]. unfold sender_handle. intros H. destruct (aer_Success reply).
  - apply sender_accepted_inv in H as ([] & _). split; congruence.
  - sec_inv. match goal with H : sender_rejected _ _ _ _ _ = Ok _ |- _ =>
      apply sender_rejected_inv in H as [(_ & _ & ->) | (_ & _ & k & _ & _ & _ & ->)] end; [| done].
    unfold stepped_down. by raft_fields.
Qed.

Lemma alone_step w w' : local_inv 1 w -> alone w -> wstep w w' -> alone w'.
Proof.
  intros Hl Ha Hs. pose proof Ha as [Hone Hth]. destruct Hs.
  - done.
  - by destruct (Hone _ _ H) as (_ & _ & ?).
  - apply (al_same w); [done | done |]. destruct (Hone _ _ H) as (-> & _).
    intros t q g' [(-> & -> & ->) | [_ ?]]%spawned_lookup; [right | by left]. by destruct H0 as [-> | ->].
  - destruct (Hth _ _ _ H) as [-> Hg]. apply (al_same w); [done | done |].
    intros t q g' [(-> & -> & ->) | [_ ?]]%moved_lookup; [right | by left].
    split; [done |]. destruct g, g'; cbn in H0, Hg; try done; naive_solver lia.
  - destruct (Hth _ _ _ H) as [-> _]. eapply (al_update w _ tid 0 _ 0 rf rf'); try done; [apply H1 | by rewrite (un_state _ _ H1) |].
    by intros g [= <-].
  - destruct (Hth _ _ _ H) as [-> _]. apply spawn_all_inv in H2 as []. apply (al_same w); [done | done |].
    intros t q g [Hg | (_ & -> & i & _ & _ & ->)]%sa_threads; [left | by right].
    cbn in Hg. rewrite lookup_delete in Hg. by case_decide.
  - by destruct (Hth _ _ _ H) as [_ []].
  - destruct (Hth _ _ _ H) as [-> _]. destruct (handle_state _ _ _ _ _ _ _ _ H2).
    eapply (al_update w _ tid 0 _ 0 rf rf'); try done. by destruct r; intros g [= <-].
  - destruct (Hth _ _ _ H) as [-> _]. eapply (al_update w _ tid 0 _ 0 rf rf'); try done;
      [apply H1 | by rewrite (cp_state _ _ H1) | by intros g [= <-]].
  - destruct (Hth _ _ _ H) as [-> Hi], (Hone _ _ H0) as (_ & Hn & _). cbn in Hi. lia.
  - by destruct (Hth _ _ _ H) as [_ []].
  - destruct (Hth _ _ _ H) as [-> _]. apply apply_one_inv in H2 as (-> & _).
    eapply (al_update w _ tid 0 _ 0 rf); try done. by intros g [= <-].
  - destruct (Hth _ _ _ H) as [-> _]. apply (al_same w); [done | done |].
    intros t q g [(-> & -> & [= <-]) | [_ ?]]%moved_lookup; [by right | by left].
  - destruct (Hth _ _ _ H) as [-> _]. pose proof (li_threads _ _ Hl _ _ _ H) as Hg.
    apply AppendEntries_core in H2 as [[] Hlead]; [| destruct H0 as [(b & next & -> & _) | [-> _]]; apply Hg].
    eapply (al_update w _ tid 0 _ i rf rf'); try done.
    by destruct H0 as [(b & next & -> & ->) | [-> ->]]; intros g' [= <-].
  - destruct (Hth _ _ _ H) as [-> Hg]. destruct H0 as [(e & -> & ->) | [-> ->]]; [done |].
    apply RequestVote_core in H2 as [[] Hlead]; [by eapply (al_update w _ tid 0 _ i rf rf') |].
    exact (wf_log_len _ (pw_log _ _ _ (li_peers _ _ Hl _ _ H1))).
  - destruct (Hone _ _ H) as (-> & Hn & _).
    destruct (crash_restarts _ _ _ _ _ _ _ _ _ Hl H H0 H1) as [Hsv []]. clear rs_vote.
    split; cbn.
    + intros q rf2. rewrite lookup_insert. case_decide; [| apply Hone]. intros [= <-]. subst. split; [done |]. split; congruence.
    + intros t q g. rewrite lookup_insert. case_decide; [by intros [= <- <-] |].
      intros (g0 & Hg & [[Hne ->] | [-> Ho]])%(survivors_killed _ _ _ _ _ _ Hsv); [by eapply Hth |].
      destruct (Hth _ _ _ Hg) as [_ Hg0]. destruct g0; cbn in Ho; try done; by injection Ho as <-.
Qed.

(** A cluster of one server never has a leader, whatever happens: the only vote
    that is counted without a reply is the candidate's own, and the count is
    compared with the majority only when a reply arrives. *)
Theorem single_server_never_leads w p T : reachable 1 w -> ~ leads w p T.
Proof.
  intros Hr. enough (local_inv 1 w /\ alone w) as [_ [Hone _]].
  { intros (rf & Hp & Hs & _). by destruct (Hone _ _ Hp) as (_ & _ & ?). }
  revert Hr. apply (reachable_ind_inv 1 (fun w => local_inv 1 w /\ alone w)).
  - intros tm. split; [apply local_inv_initial |]. split.
    + intros q rf [Hq ->]%initial_peers.
      destruct (fresh_peer_recovered 1 q tm) as (rf & _ & -> & _ & _ & _ & Hs & _ & Hn & _). split; [lia |]. split; congruence.
    + intros t q g (Hq & _ & ->)%initial_threads. split; [lia | done].
  - intros w1 w2 Hfit [Hl Ha] Hs. split; [by eapply local_inv_step | by eapply alone_step].
Qed.
