(* ===== verification/RaftReplicate.v ===== *)
(** * A command can always be committed

    From every state of an isolated execution two or more servers can go on,
    without further failures, in such a way that a new leader takes a command,
    brings the logs of all the others up to date, commits the command and applies
    it.  The loop of a sender is [retryLoop] of RaftNode, run here step by step in
    the cluster; the wake-up of applyEntries needs that a waiting goroutine is
    woken by the next Broadcast, and that what a server applied stays in its log. *)

From S2P Require Import Prelude LabGob Persister Raft RaftRPC RaftNode RaftSystem RaftSteps RaftRaces RaftLocal RaftApply RaftElection RaftLogs RaftCommit RaftSafety RaftPanic RaftProgress.

(** ** Waiting for applyCond *)

(** No section takes a Broadcast back. *)
Definition signals {A} (m : ST Raft A) : Prop :=
  forall rf a rf', m rf = Ok (a, rf') -> (applyCond rf <= applyCond rf')%nat.

Lemma signals_bind {A B} (m : ST Raft A) (f : A -> ST Raft B) :
  signals m -> (forall a, signals (f a)) -> signals (st_bind A B f m).
Proof. intros Hm Hf rf b rf' (a & rf1 & H1 & H2)%st_bind_Ok. etrans; [by eapply Hm | by eapply Hf]. Qed.

Lemma signals_gets {A} (f : Raft -> A) : signals (gets f).
Proof. by intros rf a rf' [= <- <-]. Qed.

Lemma signals_lift {A} (r : res A) : signals (lift r).
Proof. by intros rf a rf' [_ ->]%lift_Ok. Qed.

Lemma signals_ret {A} (a : A) : signals (mret a).
Proof. by intros rf b rf' [= <- <-]. Qed.

Lemma signals_modify f : (forall rf, applyCond rf <= applyCond (f rf))%nat -> signals (modify f).
Proof. by intros Hf rf a rf' [= <- <-]. Qed.

Lemma signals_when b m : signals m -> signals (when b m).
Proof. destruct b; [done | intros _; apply signals_ret]. Qed.

(** One step of a proof that a section signals. *)
Ltac signals_step :=
  first
    [ apply signals_bind | apply signals_when | apply signals_gets | apply signals_lift | apply signals_ret
    | apply signals_modify; intros; cbn; lia
    | match goal with
      | |- signals (match ?x with _ => _ end) => destruct x
      | |- signals (let _ := _ in _) => cbv zeta
      | |- forall _, _ => intro
      end ].

Ltac signals :=
  repeat first [ signals_step
    | progress unfold switchTo, persist, resetElectionTimer, GetState, AppendEntries, RequestVote, Start_append,
        broadcast_params, heartbeat_stamp, heartbeat_params, term_differs, sender_args, sender_handle, sender_accepted,
        sender_rejected, startElection_begin, election_args, vote_handle, apply_window, apply_one ].

Lemma signals_handle i next args reply b : signals (sender_handle i next args reply b).
Proof. signals. Qed.

(** A goroutine that waits was not yet woken by more Broadcasts than there were. *)
Definition waiting (w : World) : Prop :=
  forall t p seen rf, threads w !! t = Some (p, GApplyWait seen) -> peers w !! p = Some rf -> (seen <= applyCond rf)%nat.

Definition keeps_waiting {A} (m : ST World A) : Prop :=
  forall w a w', waiting w -> m w = Ok (a, w') -> waiting w'.

Lemma kw_bind {A B} (m : ST World A) (f : A -> ST World B) :
  keeps_waiting m -> (forall a, keeps_waiting (f a)) -> keeps_waiting (st_bind A B f m).
Proof. intros Hm Hf w b w' Hw (a & w1 & H1 & H2)%st_bind_Ok. eapply Hf; [| done]. by eapply Hm. Qed.

Lemma kw_on_peer {A} p (m : ST Raft A) : signals m -> keeps_waiting (on_peer p m).
Proof.
  intros Hm w a w' Hw (rf & rf' & Hp & He & ->)%on_peer_Ok t q seen rf1 Ht. cbn in *. rewrite lookup_insert.
  case_decide as E; [| by eapply Hw]. intros [= <-]. subst q. etrans; [by eapply Hw | by eapply Hm].
Qed.

Lemma kw_threads (f : World -> World) :
  (forall w, peers (f w) = peers w) ->
  (forall w t p seen, threads (f w) !! t = Some (p, GApplyWait seen) -> threads w !! t = Some (p, GApplyWait seen)) ->
  keeps_waiting (modify f).
Proof. intros Hp Ht w a w' Hw [= <- <-] t p seen rf Hth. rewrite Hp. eapply Hw. by apply (Ht w). Qed.

Lemma kw_become tid p g : (forall seen, g <> GApplyWait seen) -> keeps_waiting (become tid p g).
Proof.
  intros Hg. apply kw_threads; [done |]. intros w t q seen. cbn. rewrite lookup_insert. case_decide; [| done].
  intros [= <- E]. by destruct (Hg seen).
Qed.

Lemma kw_finish tid : keeps_waiting (finish tid).
Proof. apply kw_threads; [done |]. intros w t q seen. cbn. rewrite lookup_delete. by case_decide. Qed.

Lemma kw_spawn p g : (forall seen, g <> GApplyWait seen) -> keeps_waiting (spawn p g).
Proof.
  intros Hg. apply kw_threads; [done |]. intros w t q seen. cbn. rewrite lookup_insert. case_decide; [| done].
  intros [= <- E]. by destruct (Hg seen).
Qed.

(** Sections that touch neither the servers nor the goroutines. *)
Lemma kw_rest {A} (m : ST World A) :
  (forall w a w', m w = Ok (a, w') -> peers w' = peers w /\ threads w' = threads w) -> keeps_waiting m.
Proof. intros Hm w a w' Hw [Hp Ht]%Hm t p seen rf. rewrite Hp, Ht. apply Hw. Qed.

Lemma kw_spawn_all p b js : keeps_waiting (spawn_all p b js).
Proof.
  induction js as [| j js IH]; cbn [spawn_all]; [by apply kw_rest; intros w a w' [= <- <-] |].
  apply kw_bind; [| done]. case_decide; [by apply kw_rest; intros w a w' [= <- <-] | by apply kw_spawn].
Qed.

Ltac kw_step :=
  first
    [ apply kw_bind | apply kw_on_peer; solve [signals] | apply kw_become; done | apply kw_finish
    | apply kw_spawn; done | apply kw_spawn_all
    | apply kw_rest; intros ? ? ?; unfold get_bcast, get_elect, new_bcast, new_elect, lift, modify, mret, st_ret; cbn;
        repeat case_match; naive_solver
    | match goal with
      | |- keeps_waiting (match ?x with _ => _ end) => destruct x
      | |- forall _, _ => intro
      end ].

Lemma kw_run_thread tid p g t1 : keeps_waiting (run_thread tid p g t1).
Proof.
  destruct g; cbn [run_thread]; try (by repeat kw_step).
  intros w a w' Hw (c & w1 & (rf & rf' & Hp & [-> ->]%gets_Ok & ->)%on_peer_Ok & [= <- <-])%st_bind_Ok t q seen rf1.
  cbn. rewrite (insert_id (peers w) p rf) by done. rewrite lookup_insert. case_decide; [| apply Hw].
  intros [= <- <-] Hq. rewrite Hp in Hq. by injection Hq as <-.
Qed.

Lemma kw_with_thread tid f : (forall p g, keeps_waiting (f p g)) -> keeps_waiting (with_thread tid f).
Proof. intros Hf w a w' Hw. unfold with_thread. destruct (threads w !! tid) as [[p g] |]; [by apply Hf | done]. Qed.

Lemma kw_crash p mid tm : keeps_waiting (crash p mid tm).
Proof.
  intros w a w' Hw (rf & rfm & ts & rf' & _ & [Hsv _]%interrupted_inv & _ & ->)%crash_inv t q seen rf1. cbn. rewrite lookup_insert.
  case_decide; [done |]. intros (g0 & Ht & [[Hne <-] | [_ Ho]])%(survivors_killed _ _ _ _ _ _ Hsv); [| by destruct g0].
  rewrite lookup_insert_ne by done. by eapply Hw.
Qed.

Lemma kw_exec ev : keeps_waiting (exec ev).
Proof.
  destruct ev; cbn [exec]; try (by repeat kw_step); [apply kw_with_thread; intros p g.. | apply kw_crash].
  - apply kw_run_thread.
  - destruct g; cbn [overwrite]; repeat kw_step.
  - destruct g; cbn [deliver]; repeat kw_step.
  - destruct g; cbn [call_true]; repeat kw_step.
  - destruct g; cbn [call_false]; repeat kw_step.
Qed.

Lemma reachable_waiting n w : reachable n w -> waiting w.
Proof.
  intros [tm Hr]. assert (H0 : waiting (initial n tm)) by (by intros t p seen rf (_ & _ & ?)%initial_threads).
  induction Hr as [| x y z (_ & ev & He) _ IH]; [done |]. apply IH. by eapply kw_exec.
Qed.

(** ** What was applied stays in the log *)

Lemma wstep_lastApplied n w w' q rf' : local_inv n w -> wstep w w' -> peers w' !! q = Some rf' ->
  exists rf, peers w !! q = Some rf /\ (lastApplied rf' = lastApplied rf \/ lastApplied rf' = 0 \/
    exists tid ci, threads w !! tid = Some (q, GApplyLoop (lastApplied rf') ci) /\ lastApplied rf' <= ci).
Proof.
  intros Hl Hs Hq.
  assert (Hupd : forall p rf rf1, peers w !! p = Some rf -> peers w' = <[p := rf1]> (peers w) ->
    (lastApplied rf1 = lastApplied rf \/ lastApplied rf1 = 0 \/
     exists tid ci, threads w !! tid = Some (p, GApplyLoop (lastApplied rf1) ci) /\ lastApplied rf1 <= ci) ->
    exists rf, peers w !! q = Some rf /\ (lastApplied rf' = lastApplied rf \/ lastApplied rf' = 0 \/
      exists tid ci, threads w !! tid = Some (q, GApplyLoop (lastApplied rf') ci) /\ lastApplied rf' <= ci)).
  { intros p rf rf1 Hp Hps Hc. rewrite Hps, lookup_insert in Hq. case_decide; [| by eauto].
    injection Hq as <-. subst q. by exists rf. }
  destruct Hs; try (by eauto); try (eapply Hupd; [done | done |]).
  - apply spawn_all_inv in H2 as []. cbn in sa_peers. rewrite sa_peers in Hq. eauto.
  - left. apply H1.
  - left. by eapply sender_handle_lastApplied.
  - left. apply H1.
  - left. by eapply vote_handle_lastApplied.
  - right. right. apply apply_one_inv in H2 as (-> & _). by exists tid, ci.
  - left. eapply AppendEntries_lastApplied; [| done]. pose proof (li_threads _ _ Hl _ _ _ H) as Hg.
    destruct H0 as [(b & next & -> & _) | [-> _]]; apply Hg.
  - left. eapply RequestVote_lastApplied; [| done]. by eapply wf_log_len, pw_log, li_peers.
  - right. left. destruct (crash_restarts _ _ _ _ _ _ _ _ _ Hl H H0 H1) as [_ Hr]. apply Hr.
Qed.

Lemma srv_committed_le n L A rf c c' : c' <= c -> srv_committed n L A rf c -> srv_committed n L A rf c'.
Proof.
  intros Hc [? | (T & i & p & l & Hch & HT & Hi & Hl & Hu)]; [left; lia | right]. exists T, i, p, l.
  split_and!; [done | done | lia | done |]. eapply same_upto_le; [| exact Hu]. lia.
Qed.

Definition applied_inv (n : Z) (w : World) (L : ledger) (A : acks) : Prop :=
  forall p rf, peers w !! p = Some rf -> srv_committed n L A rf (lastApplied rf).

Lemma applied_inv_step n w w' G L L' A C K :
  0 <= n -> terms_fit w -> local_inv n w -> core_inv n w G L A C -> ledger_inv n w G L -> extends L L' ->
  safe_inv n w L A K -> wstep w w' -> applied_inv n w L A -> applied_inv n w' L' (acks' w' A).
Proof.
  intros Hn Hfit Hl Hco Hlg HL Hsf Hs Hi q rf' Hq.
  pose proof (wstep_servers n w w' G L C Hfit Hl Hlg (co_threads _ _ _ _ _ _ Hco) Hs) as Hss.
  pose proof (now_committed_step n w w' G L L' A (acks' w' A) C Hn Hco Hlg Hss HL (acks_grow w' A) q) as Hnow.
  destruct (wstep_lastApplied n w w' q rf' Hl Hs Hq) as (rf & Hp & [Hla | [Hla | (tid & ci & Ht & Hle)]]).
  - apply Hnow; [| done]. intros rf1 Hp1. rewrite Hla. rewrite Hp in Hp1. injection Hp1 as <-. by apply Hi in Hp.
  - left. lia.
  - apply Hnow; [| done]. intros rf1 Hp1. eapply srv_committed_le; [exact Hle |]. by apply (sf_threads _ _ _ _ _ Hsf _ _ _ Ht).
Qed.

Lemma ireachable_applied n w : 0 <= n -> ireachable n w ->
  exists G L A C K, ledger_inv n w G L /\ core_inv n w G L A C /\ safe_inv n w L A K /\ applied_inv n w L A.
Proof.
  intros Hn. apply (ireachable_safe_ind n (fun w L A => applied_inv n w L A)); [done | |].
  - intros tm p rf [_ ->]%initial_peers. left.
    destruct (fresh_peer_recovered n p tm) as (rf & _ & -> & _ & _ & _ & _ & _ & _ & _ & -> & _). done.
  - intros w1 w2 G L L' A C K Hfit Hl _ _ Hlg Hco Hsf HL Hs. by eapply applied_inv_step.
Qed.

(** ** The rounds of a sender *)

Lemma moved_moved t p og g w : moved t p og (moved t p (Some g) w) = moved t p og w.
Proof. unfold moved, set_threads. destruct og; cbn; by rewrite ?insert_insert_eq, ?delete_insert_eq. Qed.

Lemma moved_id t p g w : threads w !! t = Some (p, g) -> moved t p (Some g) w = w.
Proof. intros Ht. unfold moved, set_threads. rewrite insert_id by done. by destruct w. Qed.

Lemma run_at t p g t1 w : exec (ERun t t1) (moved t p (Some g) w) = run_thread t p g t1 (moved t p (Some g) w).
Proof. apply exec_thread. apply lookup_insert_eq. Qed.

Lemma become_at t p g g' w : become t p g' (moved t p (Some g) w) = Ok (tt, moved t p (Some g') w).
Proof. rewrite <- (moved_moved t p (Some g') g w). done. Qed.

Lemma get_bcast_run b bc w : bcasts w !! b = Some bc -> get_bcast b w = Ok (bc, w).
Proof. unfold get_bcast. by intros ->. Qed.

(** What the goroutine of a sender does after a reply. *)
Definition after_reply (b : nat) (i : Z) (r : sender_next) : option Goroutine :=
  match r with SReturn => None | SRetry => Some (GSend b i) | SHeartbeat => Some GHeart end.

(** The leader, its follower and the broadcast after a round of sender [t]. *)
Definition sent_world (t : nat) (p : Z) (og : option Goroutine) (b : nat) (bc : Bcast) (i : Z) (leader follower : Raft)
    (w : World) : World :=
  moved t p og (set_bcasts (<[b := bc]> (bcasts w)) (set_peers (<[p := leader]> (<[i := follower]> (peers w))) w)).

Section round.
Context (t : nat) (p i : Z) (b : nat) (bc : Bcast) (w : World) (rf rfq : Raft).
Hypothesis Hp : peers w !! p = Some rf.
Hypothesis Hi : peers w !! i = Some rfq.
Hypothesis Hip : i <> p.
Hypothesis Hb : bcasts w !! b = Some bc.
Hypothesis Hs : state rf = Leader.
Hypothesis HT : CurrentTerm rf = b_term bc.

Let at_ (g : Goroutine) : World := moved t p (Some g) w.

Lemma on_peer_at {A} g (m : ST Raft A) a : m rf = Ok (a, rf) -> on_peer p m (at_ g) = Ok (a, at_ g).
Proof. intros Hm. by eapply on_peer_reads. Qed.

Lemma round_state : exec (R t) (at_ (GSend b i)) = Ok (tt, at_ (GSendTerm b i)).
Proof.
  unfold R, at_. rewrite run_at. cbn [run_thread]. erewrite bind_run by (apply on_peer_at, GetState_leader, Hs).
  apply become_at.
Qed.

Lemma round_term : exec (R t) (at_ (GSendTerm b i)) = Ok (tt, at_ (GSendArgs b i)).
Proof.
  unfold R, at_. rewrite run_at. cbn [run_thread]. erewrite bind_run by (by apply get_bcast_run).
  erewrite bind_run by (by apply on_peer_at, term_differs_same). apply become_at.
Qed.

Lemma round_args next args : sender_args i bc rf = Ok ((next, args), rf) ->
  exec (R t) (at_ (GSendArgs b i)) = Ok (tt, at_ (GSendEnc b i next args)).
Proof.
  intros Ha. unfold R, at_. rewrite run_at. cbn [run_thread]. erewrite bind_run by (by apply get_bcast_run).
  erewrite bind_run by (by apply on_peer_at). apply become_at.
Qed.

Lemma round_encoded next args : exec (R t) (at_ (GSendEnc b i next args)) = Ok (tt, at_ (GSendCall b i next args)).
Proof. unfold R, at_. rewrite run_at. apply become_at. Qed.

Lemma round_delivered next args reply rfq' : AppendEntries t0 t0 args rfq = Ok (reply, rfq') ->
  exec (D t) (at_ (GSendCall b i next args)) = Ok (tt, moved t p (Some (GSendRet b i next args reply)) (updated i rfq' w)).
Proof.
  intros Hae. unfold D, at_. cbn. unfold with_thread. cbn. rewrite lookup_insert_eq. cbn [deliver].
  erewrite bind_run by (by eapply (on_peer_run i)). apply (become_at t p (GSendCall b i next args) _ (updated i rfq' w)).
Qed.

Lemma round_returned g next args reply : g = GSendRet b i next args reply ->
  exec (EReply t) (at_ g) = Ok (tt, at_ (GSendCheck b i next args reply)).
Proof. intros ->. unfold at_. cbn. unfold with_thread. cbn. rewrite lookup_insert_eq. apply become_at. Qed.

Lemma round_checked next args reply : ae_Term args = CurrentTerm rf ->
  exec (R t) (at_ (GSendCheck b i next args reply)) = Ok (tt, at_ (GSendHandle b i next args reply)).
Proof.
  intros Ha. unfold R, at_. rewrite run_at. cbn [run_thread]. erewrite bind_run by (by apply on_peer_at, term_differs_same).
  apply become_at.
Qed.

Lemma round_handled next args reply bc' r rf' : sender_handle i next args reply bc rf = Ok ((bc', r), rf') ->
  exec (R t) (at_ (GSendHandle b i next args reply)) =
  Ok (tt, moved t p (after_reply b i r) (set_bcasts (<[b := bc']> (bcasts w)) (updated p rf' w))).
Proof.
  intros Hh. unfold R, at_. rewrite run_at. cbn [run_thread]. erewrite bind_run by (by apply get_bcast_run).
  erewrite bind_run by (by eapply (on_peer_run p)). rewrite <- (moved_moved t p (after_reply b i r) (GSendHandle b i next args reply)).
  by destruct r.
Qed.
End round.

(** One round of sender [t], from the check of the state to the handling of the reply. *)
Lemma send_round t p i b bc w rf rfq next args reply rfq' bc' r rf' :
  threads w !! t = Some (p, GSend b i) -> peers w !! p = Some rf -> peers w !! i = Some rfq -> i <> p ->
  bcasts w !! b = Some bc -> state rf = Leader -> CurrentTerm rf = b_term bc ->
  sender_args i bc rf = Ok ((next, args), rf) -> AppendEntries t0 t0 args rfq = Ok (reply, rfq') ->
  ae_Term args = CurrentTerm rf -> sender_handle i next args reply bc rf = Ok ((bc', r), rf') ->
  terms_fit w -> CurrentTerm rfq' < MaxInt ->
  rtc calm_step w (sent_world t p (after_reply b i r) b bc' i rf' rfq' w).
Proof.
  intros Ht Hp Hi Hip Hb Hs HT Ha Hae HTa Hh Hf Hq.
  assert (Hf' : terms_fit (updated i rfq' w)) by (unfold terms_fit; cbn; by apply map_Forall_insert_2).
  assert (Hp' : peers (updated i rfq' w) !! p = Some rf) by (cbn; by rewrite lookup_insert_ne).
  rewrite <- (moved_id _ _ _ _ Ht) at 1.
  etrans; [by eapply one_step; [| eapply round_state; [exact Hp | exact Hs] |] |].
  etrans; [by eapply one_step; [| eapply round_term; [exact Hp | exact Hb | exact HT] |] |].
  etrans; [by eapply one_step; [| eapply round_args; [exact Hp | exact Hb | exact Ha] |] |].
  etrans; [by eapply one_step; [| eapply round_encoded |] |].
  etrans; [by eapply one_step; [| eapply round_delivered; [exact Hi | exact Hae] |] |].
  etrans; [by eapply one_step; [| eapply round_returned; reflexivity |] |].
  etrans; [by eapply one_step; [| eapply round_checked; [exact Hp' | exact HTa] |] |].
  by eapply one_step; [| exact (round_handled t p i b bc (updated i rfq' w) rf Hp' Hb next args reply bc' r rf' Hh) |].
Qed.

(** ** The loop of a sender *)

Lemma AppendEntries_term t1 t2 args rf reply rf' : 0 <= ae_PrevLogIndex args ->
  AppendEntries t1 t2 args rf = Ok (reply, rf') -> CurrentTerm rf' = Z.max (CurrentTerm rf) (ae_Term args).
Proof.
  intros Hp H. destruct (AppendEntries_total t1 t2 args rf Hp) as (r & rf1 & He & Hc). rewrite H in He. injection He as <- <-.
  destruct Hc as [(? & _ & ->) | [(? & _ & -> & _) | (? & _ & _ & Ha)]]; [lia | rewrite adopted_CurrentTerm by done; lia |].
  rewrite (aa_term _ _ _ Ha). lia.
Qed.

(** What the whole loop did: refusals moved nextIndex[i], and then a request was
    accepted. *)
Record delivered (i : Z) (b b' : Bcast) (leader leader' follower follower' : Raft) (r : sender_next) : Prop := {
  dl_ready : exists rf, unchanged leader rf /\ commitIndex rf = commitIndex leader /\ applyCond rf = applyCond leader /\
    length (nextIndex rf) = length (nextIndex leader) /\ length (matchIndex rf) = length (matchIndex leader) /\
    (forall k, k <> Z.to_nat i -> nextIndex rf !! k = nextIndex leader !! k) /\
    sender_accepted i b rf = Ok ((b', r), leader');
  dl_term : CurrentTerm follower' = Z.max (CurrentTerm follower) (b_term b);
}.

Lemma sent_world_twice t p og b bc bc1 i l l1 f f1 g w : i <> p ->
  sent_world t p og b bc i l f (sent_world t p (Some g) b bc1 i l1 f1 w) = sent_world t p og b bc i l f w.
Proof.
  intros Hip. unfold sent_world. cbn. rewrite !insert_insert_eq.
  replace (<[p := l]> (<[i := f]> (<[p := l1]> (<[i := f1]> (peers w))))) with (<[p := l]> (<[i := f]> (peers w))).
  - apply (moved_moved t p og g (set_bcasts (<[b := bc]> (bcasts w)) (set_peers _ w))).
  - apply map_eq. intros k. rewrite !lookup_insert. by repeat case_decide.
Qed.

(** [retryLoop] as a run of the cluster. *)
Lemma retryLoop_runs t p i b fuel : forall w bc leader follower bc' leader' follower' reply,
  retryLoop fuel (fun _ => (t0, t0)) i bc leader follower = Ok (mkSent bc' leader' follower' (Some reply)) ->
  aer_Success reply = true -> threads w !! t = Some (p, GSend b i) -> peers w !! p = Some leader ->
  peers w !! i = Some follower -> i <> p -> bcasts w !! b = Some bc -> state leader = Leader ->
  CurrentTerm leader = b_term bc -> terms_fit w ->
  exists r, rtc calm_step w (sent_world t p (after_reply b i r) b bc' i leader' follower' w) /\
    delivered i bc bc' leader leader' follower follower' r.
Proof.
  induction fuel as [| fuel IH]; intros w bc leader follower bc' leader' follower' reply H Hok Ht Hp Hi Hip Hb Hs HT Hf; [done |].
  cbn [retryLoop] in H. rewrite GetState_leader in H by done. cbn [mbind res_bind negb fst snd] in H.
  rewrite term_differs_same in H by done. cbn [mbind res_bind fst] in H.
  destruct (sender_args i bc leader) as [[[next args] l0] | | |] eqn:Ha; [| done..].
  pose proof (sender_args_inv _ _ _ _ _ _ Ha) as (-> & _ & x & [Hx _]%idx_Ok_lt & _ & Hargs).
  cbn [mbind res_bind] in H. destruct (AppendEntries t0 t0 args follower) as [[reply1 f1] | | |] eqn:Hae; [| done..].
  cbn [mbind res_bind] in H.
  assert (HTa : ae_Term args = b_term bc) by (by rewrite Hargs).
  rewrite term_differs_same in H by congruence. cbn [mbind res_bind fst] in H.
  destruct (sender_handle i next args reply1 bc leader) as [[[bc1 r1] l1] | | |] eqn:Hh; [| done..]. cbn [mbind res_bind] in H.
  apply AppendEntries_term in Hae as HTf; [| by rewrite Hargs].
  assert (HTf' : CurrentTerm f1 < MaxInt).
  { pose proof (Hf p leader Hp). pose proof (Hf i follower Hi). cbn in *. lia. }
  pose proof (send_round t p i b bc w leader follower next args reply1 f1 bc1 r1 l1 Ht Hp Hi Hip Hb Hs HT Ha Hae
    ltac:(congruence) Hh Hf HTf') as Hstep.
  destruct (aer_Success reply1) eqn:Hok1; unfold sender_handle in Hh; rewrite Hok1 in Hh.
  - assert (Hr1 : r1 <> SRetry) by (apply sender_accepted_inv in Hh; naive_solver).
    assert (bc1 = bc' /\ l1 = leader' /\ f1 = follower') as (<- & <- & <-) by (by destruct r1; simplify_eq).
    exists r1. split; [done |]. split; [| by rewrite HTf, HTa]. exists leader. by split_and!.
  - apply st_bind_Ok in Hh as (r0 & l2 & Hrej & [= <- <- <-]).
    apply sender_rejected_inv in Hrej as [(_ & -> & ->) | (_ & -> & k & _ & Hir & _ & ->)];
      [injection H as <- <- <- <-; congruence |].
    set (w1 := sent_world t p (Some (GSend b i)) b bc i (set_nextIndex (<[Z.to_nat i := k]> (nextIndex leader)) leader) f1 w) in *.
    destruct (IH w1 bc _ f1 bc' leader' follower' reply H) as (r & Hs' & [(rf & [] & Hrf) HTl]); try done.
    + apply lookup_insert_eq.
    + apply lookup_insert_eq.
    + cbn. rewrite lookup_insert_ne by done. apply lookup_insert_eq.
    + apply lookup_insert_eq.
    + unfold terms_fit, w1. cbn. apply map_Forall_insert_2; [by apply (Hf p leader) | by apply map_Forall_insert_2].
    + unfold w1 in Hs'. rewrite sent_world_twice in Hs' by done. exists r. split; [by etrans |]. split; [| lia].
      cbn in Hrf. exists rf. destruct Hrf as (? & ? & Hlen & ? & Hk & ?). rewrite length_insert in Hlen.
      split; [by split |]. split_and!; try done. intros k' Hk'. rewrite Hk by done. by apply list_lookup_insert_ne.
Qed.

(** ** All the senders of a broadcast *)

Lemma sender_accepted_few i b rf b' r rf' : sender_accepted i b rf = Ok ((b', r), rf') ->
  b_nReplica b + 1 < Z.quot (npeers rf) 2 + 1 -> b_isAgree b' = b_isAgree b.
Proof.
  unfold sender_accepted, st_bind at 1, gets at 1. intros H Hfew. cbv zeta in H.
  apply st_bind_Ok in H as (ni & s0 & [-> ->]%gets_Ok & H). apply st_bind_Ok in H as (next & s0 & [_ ->]%lift_Ok & H).
  apply st_bind_Ok in H as (u & rf1 & _ & H). apply st_bind_Ok in H as (st & s0 & [-> ->]%gets_Ok & H).
  rewrite decide_False in H by lia. by injection H as <- _ _.
Qed.

Lemma sender_accepted_wakes i b rf b' rf' : sender_accepted i b rf = Ok ((b', SHeartbeat), rf') ->
  (applyCond rf < applyCond rf')%nat.
Proof.
  unfold sender_accepted. cbv zeta. intros H.
  apply st_bind_Ok in H as (n & s0 & [-> ->]%gets_Ok & H). apply st_bind_Ok in H as (ni & s0 & [-> ->]%gets_Ok & H).
  apply st_bind_Ok in H as (next & s0 & [_ ->]%lift_Ok & H).
  apply st_bind_Ok in H as (u & rf1 & Hw & H).
  assert (Hw1 : (applyCond rf <= applyCond rf1)%nat).
  { clear H. revert Hw. match goal with |- ?m rf = _ -> _ => assert (Hm : signals m) by signals end. apply Hm. }
  apply st_bind_Ok in H as (st & s0 & [-> ->]%gets_Ok & H).
  clear Hw. case_decide; [| by sec_inv]. sec_inv. case_decide; [| by sec_inv]. sec_inv. case_decide; [| by sec_inv].
  sec_inv. cbn. lia.
Qed.

(** The replicas known at sender [j] of broadcast [b], which carries [log]. *)
Record replicating (n p T : Z) (b : nat) (log : list LogEntry) (c0 : nat) (m : nat) (j : Z) (w : World) : Prop := {
  rp_leader : exists rf bc, peers w !! p = Some rf /\ bcasts w !! b = Some bc /\
    state rf = Leader /\ CurrentTerm rf = T /\ Log rf = log /\
    (forall k v, j <= Z.of_nat k -> nextIndex rf !! k = Some v -> 0 < v <= len log) /\
    b_index bc = len log - 1 /\ b_term bc = T /\ b_nReplica bc = votes_at p j /\
    (commitIndex rf = len log - 1 /\ (c0 < applyCond rf)%nat \/
     b_isAgree bc = false /\ b_nReplica bc < Z.quot n 2 + 1 /\ commitIndex rf < len log - 1 /\ (c0 <= applyCond rf)%nat);
  rp_below : below T w;
  rp_senders : forall i, j <= i < n -> i <> p -> exists t, (m <= t)%nat /\ threads w !! t = Some (p, GSend b i);
  rp_behind : forall q rf, j <= q -> q <> p -> peers w !! q = Some rf -> log_matching log (Log rf);
  rp_done : forall q rf, 0 <= q < j -> q <> p -> peers w !! q = Some rf -> take (length log) (Log rf) = log;
}.

Record untouched (m : nat) (w w' : World) : Prop := {
  ut_threads : forall t, (t < m)%nat -> threads w' !! t = threads w !! t;
  ut_applied : applied w' = applied w;
}.

#[export] Instance untouched_preorder m : PreOrder (untouched m).
Proof.
  split; [done |]. intros x y z [H1 H2] [K1 K2]. split; [| congruence]. intros t Ht. by rewrite K1, H1.
Qed.

(** The leader after one more replica. *)
Lemma leader_counts n p T log c0 j rf bc bc' rf' f f' r :
  peer_wf n p rf -> 0 <= j -> j <> p -> delivered j bc bc' rf rf' f f' r ->
  state rf = Leader -> CurrentTerm rf = T -> Log rf = log -> Term <$> last log = Some T ->
  (forall k v, j <= Z.of_nat k -> nextIndex rf !! k = Some v -> 0 < v <= len log) ->
  b_index bc = len log - 1 -> b_term bc = T -> b_nReplica bc = votes_at p j ->
  (commitIndex rf = len log - 1 /\ (c0 < applyCond rf)%nat \/
   b_isAgree bc = false /\ b_nReplica bc < Z.quot n 2 + 1 /\ commitIndex rf < len log - 1 /\ (c0 <= applyCond rf)%nat) ->
  state rf' = Leader /\ CurrentTerm rf' = T /\ Log rf' = log /\
  (forall k v, j + 1 <= Z.of_nat k -> nextIndex rf' !! k = Some v -> 0 < v <= len log) /\
  b_index bc' = len log - 1 /\ b_term bc' = T /\ b_nReplica bc' = votes_at p (j + 1) /\
  (commitIndex rf' = len log - 1 /\ (c0 < applyCond rf')%nat \/
   b_isAgree bc' = false /\ b_nReplica bc' < Z.quot n 2 + 1 /\ commitIndex rf' < len log - 1 /\ (c0 <= applyCond rf')%nat).
Proof.
  intros Hw Hj Hjp [(rf0 & [] & Hci & Hac & _ & _ & Hni & Hacc) _] Hs HT Hl Hlast Hnext Hix Hbt Hrep Hcase.
  pose proof (signals_handle j 0 (mkAEArgs 0 0 0 0 [] 0) (mkAEReply 0 0 0 true) bc rf0 (bc', r) rf' Hacc) as Hsig.
  pose proof (pw_npeers _ _ _ Hw) as Hn.
  assert (Hv : votes_at p (j + 1) = votes_at p j + 1) by (unfold votes_at; repeat case_decide; lia).
  pose proof (sender_accepted_inv _ _ _ _ _ _ Hacc) as ([] & _ & (next & _ & Hni' & _) & Hcm).
  assert (Hbc : b_index bc' = b_index bc /\ b_term bc' = b_term bc /\ b_nReplica bc' = b_nReplica bc + 1).
  { destruct Hcm as [(_ & -> & _) | (_ & [? ->] & _)]; done. }
  destruct Hbc as (-> & -> & ->). split_and!; try congruence.
  - intros k v Hk. rewrite Hni'. intros Hlk. apply (Hnext k); [lia |]. rewrite <- Hni by lia.
    case_decide; [rewrite list_lookup_insert_ne in Hlk by lia |]; done.
  - destruct Hcm as [(_ & -> & -> & ->) | (Hno & _ & _ & ->)].
    + left. apply sender_accepted_wakes in Hacc. split; [done |]. destruct Hcase; lia.
    + destruct Hcase as [[Hc Ha] | (Hag & Hlt & Hc & Ha)]; [left; split; [congruence | lia] |].
      assert (Hfew : b_nReplica bc + 1 < Z.quot (npeers rf0) 2 + 1).
      { destruct (decide (b_nReplica bc + 1 < Z.quot (npeers rf0) 2 + 1)); [done |]. destruct Hno. unfold commits.
        apply fmap_Some in Hlast as (x & Hx & HTx). split_and!; [done | congruence | lia | congruence |].
        exists x. rewrite Hix, un_log, Hl. split; [by apply idx_last | congruence]. }
      right. split; [by rewrite (sender_accepted_few _ _ _ _ _ _ Hacc Hfew) |]. rewrite un_npeers, Hn in Hfew. lia.
Qed.

(** Sender [j] runs to its end. *)
Lemma replicates_one n p T b log c0 m j w :
  T < MaxInt -> 0 <= j < n -> reachable n w -> Term <$> last log = Some T -> replicating n p T b log c0 m j w ->
  exists w', rtc calm_step w w' /\ untouched m w w' /\ replicating n p T b log c0 m (j + 1) w'.
Proof.
  intros HT Hj Hr Hlast [(rf & bc & Hp & Hb & Hs & HTp & Hl & Hnext & Hix & Hbt & Hrep & Hcase) Hbel Hsend Hbeh Hdone].
  destruct (decide (j = p)) as [Hjp | Hjp].
  { exists w. split; [done |]. split; [done |]. split; [| done | | |].
    - exists rf, bc. split_and!; try done; [intros k v Hk; apply Hnext; lia |].
      rewrite Hrep. unfold votes_at. repeat case_decide; lia.
    - intros i Hi. apply Hsend. lia.
    - intros q rfq Hq. apply Hbeh. lia.
    - intros q rfq Hq Hqp. apply Hdone; [lia | done]. }
  pose proof (reachable_local_inv n w Hr) as Hli. pose proof (li_peers _ _ Hli _ _ Hp) as Hw.
  destruct (reachable_arrays n w Hr) as [Hdom Har]. destruct (Har p rf Hp) as [Hni Hmi].
  destruct (proj2 (Hdom j) Hj) as [rfq Hq]. destruct (Hsend j) as (t & Htm & Ht); [lia | done |].
  destruct (idx_in_range (nextIndex rf) j) as [ni Hnx]; [unfold len; lia |].
  assert (Hrange : 0 < ni <= len log) by (apply idx_Ok in Hnx as [_ Hnx]; apply (Hnext _ _) in Hnx; [done | lia]).
  pose proof (Hbel j rfq Hq) as HTq.
  destruct (retryLoop_converges_aux (fun _ => (t0, t0)) j bc (Z.to_nat ni) rf rfq ni) as (bc' & rf' & rfq' & reply & Hloop & Hcv);
    rewrite ?Hl; try (done || congruence || lia || (by eapply pw_log, li_peers) || (by apply (Hbeh j)) || (unfold len; lia)).
  { rewrite <- Hl. apply Hw. }
  destruct (retryLoop_runs t p j b _ w bc rf rfq bc' rf' rfq' reply Hloop (cv_success _ _ _ _ _ _ Hcv) Ht Hp Hq Hjp Hb Hs
    ltac:(congruence) (below_fit T w Hbel HT)) as (r & Hsteps & Hdl).
  destruct (leader_counts n p T log c0 j rf bc bc' rf' rfq rfq' r) as (Hs' & HT' & Hl' & Hn' & Hx' & Hb' & Hr' & Hc'); try done; [lia |].
  exists (sent_world t p (after_reply b j r) b bc' j rf' rfq' w). split; [done |]. split.
  { split; [| done]. intros t' Ht'. cbn. destruct (after_reply b j r); rewrite ?lookup_insert_ne, ?lookup_delete_ne by lia; done. }
  split; cbn.
  - exists rf', bc'. rewrite !lookup_insert_eq. by split_and!.
  - intros q rf1. cbn. rewrite !lookup_insert. case_decide; [intros [= <-]; lia |]. case_decide; [| apply Hbel].
    intros [= <-]. rewrite (dl_term _ _ _ _ _ _ _ _ Hdl). lia.
  - intros i Hi Hip. destruct (Hsend i) as (t' & Htm' & Ht'); [lia | done |]. exists t'. split; [done |].
    assert (t' <> t) by (intros ->; rewrite Ht in Ht'; injection Ht'; lia).
    destruct (after_reply b j r); by rewrite ?lookup_insert_ne, ?lookup_delete_ne by done.
  - intros q rf1 Hjq Hqp. rewrite !lookup_insert_ne by lia. apply Hbeh; [lia | done].
  - intros q rf1 Hjq Hqp. rewrite lookup_insert_ne by done. rewrite lookup_insert. case_decide; [| apply Hdone; [lia | done]].
    intros [= <-]. pose proof (cv_copy _ _ _ _ _ _ Hcv) as Hcp. rewrite Hix, Hl in Hcp.
    replace (Z.to_nat (len log - 1 + 1)) with (length log) in Hcp by (unfold len; lia). by rewrite firstn_all in Hcp.
Qed.

Lemma replicates_all n p T b log c0 m k : T < MaxInt -> Term <$> last log = Some T -> forall j w,
  Z.of_nat k = n - j -> 0 <= j -> reachable n w -> replicating n p T b log c0 m j w ->
  exists w', rtc calm_step w w' /\ untouched m w w' /\ replicating n p T b log c0 m n w'.
Proof.
  intros HT Hlast. induction k as [| k IH]; intros j w Hk Hj Hr Hrp.
  { assert (j = n) as -> by lia. exists w. by split_and!. }
  destruct (replicates_one n p T b log c0 m j w HT ltac:(lia) Hr Hlast Hrp) as (w1 & Hs1 & Hu1 & Hrp1).
  destruct (IH (j + 1) w1) as (w2 & Hs2 & Hu2 & Hrp2); [lia | lia | by eapply rtc_reachable | done |].
  exists w2. split; [by etrans |]. split; [by etrans | done].
Qed.

(** ** Start and its broadcast *)

Lemma spawn_all_runs p b js : forall w, exists w', spawn_all p b js w = Ok (tt, w') /\
  forall i, i ∈ js -> i <> p -> exists t, (fresh w <= t)%nat /\ threads w' !! t = Some (p, GSend b i).
Proof.
  induction js as [| j js IH]; intros w; cbn [spawn_all].
  { exists w. split; [done |]. by intros i ?%elem_of_nil. }
  case_decide as Hj.
  - destruct (IH w) as (w' & Hw & Hs). exists w'. split; [done |].
    intros i [-> | Hi]%elem_of_cons Hip; [done | by apply Hs].
  - destruct (IH (spawned p (GSend b j) w)) as (w' & Hw & Hs). exists w'. split; [done |].
    intros i [-> | Hi]%elem_of_cons Hip.
    + exists (fresh w). split; [done |]. apply spawn_all_inv in Hw as []. rewrite sa_old by (cbn; lia). apply lookup_insert_eq.
    + destruct (Hs i Hi Hip) as (t & Ht & Hth). exists t. cbn in Ht. split; [lia | done].
Qed.

(** A leader takes a command and starts the senders of its broadcast. *)
Lemma start_runs p cmd w rf : peers w !! p = Some rf -> state rf = Leader -> terms_fit w ->
  exists w' b rf', rtc calm_step w w' /\ untouched (fresh w) w w' /\ peers w' = <[p := rf']> (peers w) /\ started cmd rf rf' /\
    (applyCond rf <= applyCond rf')%nat /\
    bcasts w' !! b = Some (mkBcast (len (Log rf)) (CurrentTerm rf) (commitIndex rf) 1 false) /\
    forall i, 0 <= i < npeers rf -> i <> p -> exists t, (fresh w <= t)%nat /\ threads w' !! t = Some (p, GSend b i).
Proof.
  intros Hp Hs Hf. destruct (Start_append_spec cmd 0 rf) as (rf' & Ha & Hst).
  assert (Hac : (applyCond rf <= applyCond rf')%nat).
  { assert (Hsig : signals (Start_append cmd 0)) by signals. by eapply Hsig. }
  set (t := fresh w). set (w0 := set_fresh (S (fresh w)) w). set (w1 := updated p rf' w0).
  assert (Hp1 : peers w1 !! p = Some rf') by apply lookup_insert_eq.
  assert (Hf1 : terms_fit w1).
  { unfold terms_fit. apply map_Forall_insert_2; [| done]. rewrite (sd_term _ _ _ Hst). by apply (Hf p rf). }
  assert (H1 : exec (EStart p cmd) w = Ok (tt, moved t p (Some (GStartAppend cmd)) w0)).
  { cbn. by erewrite bind_run by (by eapply on_peer_reads; [exact Hp | apply GetState_leader]). }
  assert (H2 : exec (R t) (moved t p (Some (GStartAppend cmd)) w0) = Ok (tt, moved t p (Some (GStartSpawn (len (Log rf)))) w1)).
  { unfold R. rewrite run_at. cbn [run_thread]. erewrite bind_run by (by eapply (on_peer_run p)).
    apply (become_at t p (GStartAppend cmd) _ w1). }
  assert (H3 : exec (R t) (moved t p (Some (GStartSpawn (len (Log rf)))) w1) =
    Ok (tt, moved t p (Some (GBcast (len (Log rf)) (CurrentTerm rf) (commitIndex rf))) w1)).
  { unfold R. rewrite run_at. cbn [run_thread].
    erewrite bind_run by (by eapply on_peer_reads; [exact Hp1 | done]). cbn [fst snd].
    rewrite (sd_term _ _ _ Hst), (sd_commit _ _ _ Hst). apply become_at. }
  assert (H4 : exec (R t) (moved t p (Some (GBcast (len (Log rf)) (CurrentTerm rf) (commitIndex rf))) w1) =
    Ok (tt, moved t p (Some (GBcastTerm (len (Log rf)) (CurrentTerm rf) (commitIndex rf))) w1)).
  { unfold R. rewrite run_at. cbn [run_thread].
    erewrite bind_run by (eapply on_peer_reads; [exact Hp1 | apply GetState_leader; by rewrite (sd_state _ _ _ Hst)]).
    apply become_at. }
  set (w2 := set_fresh (S (fresh w1)) (set_bcasts (<[fresh w1 := mkBcast (len (Log rf)) (CurrentTerm rf) (commitIndex rf) 1 false]>
    (bcasts w1)) (moved t p None w1))).
  destruct (spawn_all_runs p (fresh w1) (seqZ 0 (npeers rf)) w2) as (w' & Hsp & Hsend).
  assert (H5 : exec (R t) (moved t p (Some (GBcastTerm (len (Log rf)) (CurrentTerm rf) (commitIndex rf))) w1) = Ok (tt, w')).
  { unfold R. rewrite run_at. cbn [run_thread].
    erewrite bind_run by (eapply on_peer_reads; [exact Hp1 | apply term_differs_same, (sd_term _ _ _ Hst)]).
    erewrite bind_run by reflexivity. erewrite bind_run by (eapply on_peer_reads; [exact Hp1 | reflexivity]).
    erewrite bind_run by reflexivity. rewrite (sc_npeers _ _ (sd_core _ _ _ Hst)), <- Hsp. f_equal.
    unfold w2. rewrite <- (moved_moved t p None (GBcastTerm (len (Log rf)) (CurrentTerm rf) (commitIndex rf)) w1). done. }
  apply spawn_all_inv in Hsp as [].
  exists w', (fresh w1), rf'. split.
  { do 4 (etrans; [by eapply one_step |]). by eapply one_step. }
  split; [split; [| done] |].
  { intros u Hu. rewrite sa_old by (cbn; lia). cbn. by rewrite lookup_delete_ne by lia. }
  split; [done |]. split; [done |]. split; [done |]. split; [rewrite sa_bcasts; apply lookup_insert_eq |].
  intros i Hi Hip. destruct (Hsend i) as (u & Hu & Hth); [by apply elem_of_seqZ | done |]. exists u. cbn in Hu. split; [lia | done].
Qed.

(** ** applyEntries catches up *)

(** Goroutine [t] of [p] moved on to [g]; of the server only lastApplied changed. *)
Record applying (t : nat) (p : Z) (g : Goroutine) (B : Z) (w w' : World) : Prop := {
  ay_steps : rtc calm_step w w';
  ay_thread : threads w' !! t = Some (p, g);
  ay_sent : forall m, m ∈ sent_by w p -> m ∈ sent_by w' p;
  ay_peers : forall rf, peers w !! p = Some rf -> lastApplied rf < B ->
    exists la, la < B /\ peers w' = <[p := set_lastApplied la rf]> (peers w);
}.

Lemma ay_trans t p g g' B w w1 w2 : applying t p g B w w1 -> applying t p g' B w1 w2 -> applying t p g' B w w2.
Proof.
  intros [H1 H2 H3 H4] [K1 K2 K3 K4]. split; [by etrans | done | auto |].
  intros rf Hp Hla. destruct (H4 rf Hp Hla) as (la & Hlt & Hps).
  destruct (K4 (set_lastApplied la rf)) as (la' & Hlt' & Hps'); [by rewrite Hps, lookup_insert_eq | done |].
  exists la'. split; [done |]. by rewrite Hps', Hps, insert_insert_eq.
Qed.

(** A step of the goroutine that changes nothing else. *)
Lemma ay_moved t p g g' B w rf : threads w !! t = Some (p, g) -> peers w !! p = Some rf -> terms_fit w ->
  exec (R t) (moved t p (Some g) w) = Ok (tt, moved t p (Some g') w) -> applying t p g' B w (moved t p (Some g') w).
Proof.
  intros Ht Hp Hf He. rewrite (moved_id _ _ _ _ Ht) in He.
  split; [by eapply one_step | apply lookup_insert_eq | done |].
  intros rf1 Hp1 Hla. exists (lastApplied rf1). split; [done |]. cbn.
  rewrite insert_id; [done |]. rewrite Hp1. by destruct rf1.
Qed.

Section applying.
Context (t : nat) (p B : Z).

(** A message is sent and the loop goes on. *)
Lemma ay_send w rf m i c : threads w !! t = Some (p, GApplySend m i c) -> peers w !! p = Some rf -> terms_fit w ->
  exists w', applying t p (GApplyLoop (i + 1) c) B w w' /\ m ∈ sent_by w' p.
Proof.
  intros Ht Hp Hf. eexists. split; [split |].
  - eapply (one_step (R t)); [done | | done]. unfold R. rewrite (exec_thread _ _ _ _ _ Ht). reflexivity.
  - apply lookup_insert_eq.
  - intros m' Hm. unfold sent_by in *. cbn. rewrite lookup_insert_eq. apply elem_of_app. by left.
  - intros rf1 Hp1 Hla. exists (lastApplied rf1). split; [done |]. cbn. rewrite insert_id; [done |]. rewrite Hp1. by destruct rf1.
  - unfold sent_by. cbn. rewrite lookup_insert_eq. apply elem_of_app. right. by left.
Qed.

(** An entry is applied. *)
Lemma ay_one w rf i c : threads w !! t = Some (p, GApplyLoop i c) -> peers w !! p = Some rf -> terms_fit w ->
  0 <= i <= c -> c < len (Log rf) -> c < B ->
  exists w' x, idx (Log rf) i = Ok x /\ applying t p (GApplyLoop (i + 1) c) B w w' /\
    mkApplyMsg true (Command x) i ∈ sent_by w' p.
Proof.
  intros Ht Hp Hf Hi Hlen HB. destruct (idx_in_range (Log rf) i) as [x Hx]; [lia |].
  set (m := mkApplyMsg true (Command x) i). set (w1 := moved t p (Some (GApplySend m i c)) (updated p (set_lastApplied i rf) w)).
  assert (H1 : applying t p (GApplySend m i c) B w w1).
  { split.
    - eapply (one_step (R t)); [done | | done]. unfold R. rewrite (exec_thread _ _ _ _ _ Ht). cbn [run_thread].
      rewrite decide_True by lia. erewrite bind_run; [reflexivity |]. eapply on_peer_run; [exact Hp |].
      unfold apply_one, st_bind, gets, lift, modify. by rewrite Hx.
    - apply lookup_insert_eq.
    - done.
    - intros rf1 Hp1 _. rewrite Hp in Hp1. injection Hp1 as <-. exists i. split; [lia | done]. }
  destruct (ay_send w1 (set_lastApplied i rf) m i c) as (w2 & H2 & Hm).
  - apply lookup_insert_eq.
  - apply lookup_insert_eq.
  - unfold terms_fit. apply map_Forall_insert_2; [by apply (Hf p rf) | done].
  - exists w2, x. split; [done |]. split; [by eapply ay_trans | done].
Qed.
Lemma ay_next g w w' rf : applying t p g B w w' -> peers w !! p = Some rf -> lastApplied rf < B -> terms_fit w ->
  exists la, la < B /\ peers w' !! p = Some (set_lastApplied la rf) /\ terms_fit w'.
Proof.
  intros [_ _ _ H] Hp Hla Hf. destruct (H rf Hp Hla) as (la & Hlt & Hps). exists la. split; [done |].
  unfold terms_fit. rewrite Hps, lookup_insert_eq. split; [done |].
  apply map_Forall_insert_2; [by apply (Hf p rf) | done].
Qed.

(** The loop runs up to [c] and the goroutine looks again. *)
Lemma ay_loop c k : c < B -> forall w rf i, Z.of_nat k = Z.max 0 (c + 1 - i) -> threads w !! t = Some (p, GApplyLoop i c) ->
  peers w !! p = Some rf -> terms_fit w -> 0 <= i -> c < len (Log rf) -> lastApplied rf < B ->
  exists w', applying t p GApply B w w' /\
    (i <= c -> exists x, idx (Log rf) c = Ok x /\ mkApplyMsg true (Command x) c ∈ sent_by w' p).
Proof.
  intros HB. induction k as [| k IH]; intros w rf i Hk Ht Hp Hf Hi Hlen Hla.
  { exists (moved t p (Some GApply) w). split; [| lia]. eapply ay_moved; [done | done | done |].
    unfold R. rewrite run_at. cbn [run_thread]. rewrite decide_False by lia. apply become_at. }
  destruct (ay_one w rf i c Ht Hp Hf ltac:(lia) Hlen HB) as (w1 & x & Hx & H1 & Hm).
  destruct (ay_next _ _ _ _ H1 Hp Hla Hf) as (la & Hlt & Hp1 & Hf1).
  destruct (IH w1 (set_lastApplied la rf) (i + 1)) as (w2 & H2 & Hmsg); try done; [lia | by apply (ay_thread _ _ _ _ _ _ H1) | lia |].
  exists w2. split; [by eapply ay_trans |]. intros _. destruct (decide (i + 1 <= c)) as [Hlt' | Hge]; [by apply Hmsg |].
  assert (i = c) as -> by lia. exists x. split; [done |]. by apply (ay_sent _ _ _ _ _ _ H2).
Qed.

(** The window of a goroutine that is applying entries. *)
Definition window_below (g : Goroutine) : Prop :=
  match g with GApplyLoop _ c | GApplySend _ _ c => c < B | _ => True end.

(** The goroutine can go on to its next comparison. *)
Definition awake (rf : Raft) (g : Goroutine) : Prop :=
  match g with GApplyBlock => False | GApplyWait seen => (seen < applyCond rf)%nat | _ => applier g end.

Lemma ay_looks w rf g : apply_inv w -> threads w !! t = Some (p, g) -> peers w !! p = Some rf -> terms_fit w ->
  awake rf g -> window_below g -> lastApplied rf < B -> B <= len (Log rf) -> exists w', applying t p GApply B w w'.
Proof.
  intros Hap Ht Hp Hf Ha Hc Hla HB. pose proof (ap_ok _ Hap _ _ _ _ Hp Ht) as Hok.
  pose proof (len_nonneg (sent_by w p)) as Hlen. destruct g; cbn in Ha, Hc, Hok; try done.
  - exists w. split; [done | done | done |]. intros rf1 Hp1 Hla1. exists (lastApplied rf1). split; [done |].
    rewrite insert_id; [done |]. rewrite Hp1. by destruct rf1.
  - exists (moved t p (Some GApply) w). eapply ay_moved; [done | done | done |]. unfold R. rewrite run_at. cbn [run_thread].
    erewrite bind_run by (by eapply on_peer_reads; [exact Hp | reflexivity]). rewrite decide_True by done. apply become_at.
  - destruct (ay_loop commitIndex_ (Z.to_nat (Z.max 0 (commitIndex_ + 1 - i))) Hc w rf i) as (w' & H & _); try done; [lia.. |].
    by exists w'.
  - destruct (ay_send w rf msg i commitIndex_ Ht Hp Hf) as (w1 & H1 & _).
    destruct (ay_next _ _ _ _ H1 Hp Hla Hf) as (la & Hlt & Hp1 & Hf1).
    destruct (ay_loop commitIndex_ (Z.to_nat (Z.max 0 (commitIndex_ + 1 - (i + 1)))) Hc w1 (set_lastApplied la rf) (i + 1))
      as (w' & H & _); try done; [lia | by apply (ay_thread _ _ _ _ _ _ H1) | lia | cbn; lia |].
    exists w'. by eapply ay_trans.
Qed.
End applying.

(** A server that has committed [B] applies it. *)
Lemma committed_applied n t p w rf g B : reachable n w -> threads w !! t = Some (p, g) -> peers w !! p = Some rf -> terms_fit w ->
  awake rf g -> window_below B g -> lastApplied rf < B -> commitIndex rf = B -> B < len (Log rf) ->
  exists w' x la, rtc calm_step w w' /\ peers w' = <[p := set_lastApplied la rf]> (peers w) /\ idx (Log rf) B = Ok x /\
    mkApplyMsg true (Command x) B ∈ sent_by w' p.
Proof.
  intros Hr Ht Hp Hf Ha Hc Hla Hci HB.
  destruct (ay_looks t p B w rf g (reachable_apply_inv n w Hr) Ht Hp Hf Ha Hc Hla ltac:(lia)) as [w1 H1].
  destruct (ay_next _ _ _ _ _ _ _ H1 Hp Hla Hf) as (la & Hlt & Hp1 & Hf1).
  pose proof (ay_thread _ _ _ _ _ _ H1) as Ht1.
  pose proof (reachable_apply_inv n w1 (rtc_reachable n w w1 Hr (ay_steps _ _ _ _ _ _ H1))) as Hap1.
  pose proof (ap_ok _ Hap1 _ _ _ _ Hp1 Ht1) as Hok. cbn in Hok. pose proof (len_nonneg (sent_by w1 p)) as Hlen.
  assert (H2 : applying t p (GApplyLoop (la + 1) B) (B + 1) w1 (moved t p (Some (GApplyLoop (la + 1) B)) w1)).
  { eapply ay_moved; [done | done | done |]. unfold R. rewrite run_at. cbn [run_thread].
    erewrite bind_run by (by eapply on_peer_reads; [exact Hp1 | reflexivity]). cbn [fst snd]. cbn. rewrite Hci.
    rewrite decide_False by lia. apply become_at. }
  destruct (ay_loop t p (B + 1) B (Z.to_nat (Z.max 0 (B + 1 - (la + 1)))) ltac:(lia) _ (set_lastApplied la rf) (la + 1)
    ltac:(lia) (ay_thread _ _ _ _ _ _ H2)) as (w3 & H3 & Hmsg); try (done || lia || (cbn; lia)).
  destruct (Hmsg ltac:(lia)) as (x & Hx & Hm).
  destruct (ay_peers _ _ _ _ _ _ H3 (set_lastApplied la rf)) as (la' & _ & Hps); [done | cbn; lia |].
  exists w3, x, la'. split; [etrans; [apply H1 |]; etrans; [apply H2 | apply H3] |]. split; [| done].
  rewrite Hps. cbn. destruct (ay_peers _ _ _ _ _ _ H1 rf Hp Hla) as (la1 & _ & Hps1). rewrite Hps1, insert_insert_eq. done.
Qed.

(** ** From a new leader to an applied command *)

Lemma log_matching_snoc l k e : log_matching l k -> Forall (fun y => Term y <> Term e) k -> log_matching (l ++ [e]) k.
Proof.
  intros Hm Hk n x y Hx Hy HT. destruct (decide (n < length l)%nat) as [Hn | Hn].
  - rewrite lookup_app_l in Hx by done. rewrite take_app_le by lia. by apply (Hm n x y).
  - rewrite lookup_app_r in Hx by lia. apply list_lookup_singleton_Some in Hx as [_ <-].
    by destruct (Forall_lookup_1 _ _ _ _ Hk Hy).
Qed.

Lemma srv_committed_bound n L A rf c : srv_committed n L A rf c -> 0 < len (Log rf) -> c < len (Log rf).
Proof. intros [? | (T & i & p & l & _ & _ & _ & _ & _ & Hlt & _)] Hl; unfold len in *; lia. Qed.

(** No log has an entry of a term beyond all servers. *)
Lemma terms_below n w G L M q rf : ledger_inv n w G L -> below M w -> 0 <= M -> peers w !! q = Some rf ->
  Forall (fun e => Term e <> M + 1) (Log rf).
Proof.
  intros Hlg Hb HM Hq. apply Forall_lookup_2. intros k x Hx HT. destruct (lg_peers _ _ _ _ Hlg _ _ Hq) as [_ Hk].
  destruct (Hk k x Hx ltac:(lia)) as (o & l & Ho & _). destruct (lg_owner _ _ _ _ Hlg _ _ _ Ho) as (_ & rfo & Hpo & Hle & _).
  specialize (Hb o rfo Hpo). lia.
Qed.

(** An applier that was about to wait waits now. *)
Lemma not_blocked t p g w rf : threads w !! t = Some (p, g) -> applier g -> peers w !! p = Some rf -> terms_fit w ->
  exists w' g', rtc calm_step w w' /\ threads w' !! t = Some (p, g') /\ g' <> GApplyBlock /\ applier g' /\
    peers w' = peers w /\ applied w' = applied w /\ fresh w' = fresh w /\ (forall B, window_below B g -> window_below B g') /\
    (forall ms rf, apply_ok ms rf g' -> apply_ok ms rf g).
Proof.
  intros Ht Hg Hp Hf. assert (g = GApplyBlock \/ g <> GApplyBlock) as [-> | Hne] by (destruct g; auto); [| by exists w, g].
  exists (moved t p (Some (GApplyWait (applyCond rf))) w), (GApplyWait (applyCond rf)). split.
  - eapply (one_step (R t)); [done | | done]. rewrite <- (moved_id _ _ _ _ Ht) at 1. unfold R. rewrite run_at. cbn [run_thread].
    erewrite bind_run by (by eapply on_peer_reads; [exact Hp | reflexivity]). apply become_at.
  - split; [apply lookup_insert_eq | done].
Qed.

(** A leader that was just elected takes a command and commits it, with all the
    logs up to date. *)
Lemma leader_commits n w p rf T cmd :
  2 <= n -> 0 <= p < n -> T < MaxInt -> reachable n w -> below T w -> elected n p T w -> peers w !! p = Some rf ->
  commitIndex rf < len (Log rf) ->
  (forall q rfq, peers w !! q = Some rfq -> q <> p -> log_matching (Log rf ++ [mkEntry cmd T]) (Log rfq)) ->
  exists w' rf', rtc calm_step w w' /\ untouched (fresh w) w w' /\ below T w' /\ peers w' !! p = Some rf' /\
    state rf' = Leader /\ CurrentTerm rf' = T /\ Log rf' = Log rf ++ [mkEntry cmd T] /\ commitIndex rf' = len (Log rf) /\
    (applyCond rf < applyCond rf')%nat /\
    forall q rfq, peers w' !! q = Some rfq -> q <> p -> 0 <= q < n -> take (length (Log rf')) (Log rfq) = Log rf'.
Proof.
  intros Hn Hpn HT Hr Hb (rf1 & Hp1 & Hs & HTp & Hni & _) Hp Hci Hmatch. rewrite Hp in Hp1. injection Hp1 as <-.
  pose proof (li_peers _ _ (reachable_local_inv n w Hr) _ _ Hp) as Hw. pose proof (wf_log_len _ (pw_log _ _ _ Hw)) as Hlen.
  destruct (start_runs p cmd w rf Hp Hs (below_fit T w Hb HT)) as (w1 & b & rf1 & Hs1 & Hu1 & Hps1 & Hst & Hac & Hbc & Hsend).
  rewrite (pw_npeers _ _ _ Hw) in Hsend. set (log := Log rf ++ [mkEntry cmd T]).
  assert (Hll : len log = len (Log rf) + 1) by (unfold log; by rewrite len_app).
  assert (Hrp : replicating n p T b log (applyCond rf) (fresh w) 0 w1).
  { split.
    - exists rf1. eexists. rewrite Hps1, lookup_insert_eq. split; [done |]. split; [exact Hbc |].
      rewrite (sd_state _ _ _ Hst), (sd_term _ _ _ Hst), (sd_log _ _ _ Hst), (sd_commit _ _ _ Hst), (sc_nextIndex _ _ (sd_core _ _ _ Hst)).
      cbn. split_and!; [done | done | by rewrite HTp | | lia | done | unfold votes_at; by rewrite decide_False by lia |].
      + intros k v _. rewrite Hni. intros [-> _]%lookup_replicate. lia.
      + right. split_and!; [done | | lia | done]. pose proof (Z.quot_rem' n 2). pose proof (Z.rem_bound_pos n 2). lia.
    - eapply below_insert; [exact Hb | exact Hps1 |]. rewrite (sd_term _ _ _ Hst). lia.
    - intros i Hi Hip. by apply Hsend.
    - intros q rfq _ Hqp. rewrite Hps1, lookup_insert_ne by done. intros Hq. by apply (Hmatch q).
    - intros q rfq Hq. lia. }
  destruct (replicates_all n p T b log (applyCond rf) (fresh w) (Z.to_nat n) HT) with (j := 0) (w := w1)
    as (w2 & Hs2 & Hu2 & [(rf2 & bc & Hp2 & _ & Hst2 & HT2 & Hl2 & _ & _ & _ & Hrep & Hcase) Hb2 _ _ Hdone]); try done.
  { unfold log. by rewrite last_snoc. }
  { lia. }
  { by eapply rtc_reachable. }
  exists w2, rf2. rewrite Hl2. split; [by etrans |]. split; [by etrans |]. split; [done |]. split; [done |].
  destruct Hcase as [[Hc Hac2] | (_ & Hlt & _)].
  - split_and!; try done; [lia |]. intros q rfq Hq Hqp Hqn. by apply (Hdone q).
  - exfalso. rewrite Hrep in Hlt. unfold votes_at in Hlt. rewrite decide_True in Hlt by lia.
    pose proof (Z.quot_rem' n 2). pose proof (Z.rem_bound_pos n 2). lia.
Qed.

(** The applier of a server, in an isolated execution: what it has applied and
    what it is about to apply is inside the log. *)
Lemma applier_bounds n w p rf t g : 0 <= n -> ireachable n w -> peers w !! p = Some rf -> threads w !! t = Some (p, g) ->
  lastApplied rf < len (Log rf) /\ commitIndex rf < len (Log rf) /\ window_below (len (Log rf)) g.
Proof.
  intros Hn Hr Hp Ht. destruct (ireachable_applied n w Hn Hr) as (G & L & A & C & K & _ & _ & Hsf & Hi).
  pose proof (reachable_local_inv n w (ireachable_reachable _ _ Hr)) as Hl.
  pose proof (wf_log_len _ (pw_log _ _ _ (li_peers _ _ Hl _ _ Hp))) as Hlen.
  pose proof (sf_threads _ _ _ _ _ Hsf _ _ _ Ht) as Hg.
  split_and!; [by eapply srv_committed_bound; [apply (Hi p) |] | by eapply srv_committed_bound; [apply (sf_commit _ _ _ _ _ Hsf p) |] |].
  destruct g; try done; cbn in *; eapply srv_committed_bound; try done; by apply Hg.
Qed.

(** A server after an election is one from before it. *)
Lemma ef_back n m w w1 q rf1 : reachable n w -> reachable n w1 -> election_frame m w w1 -> peers w1 !! q = Some rf1 ->
  exists rf, peers w !! q = Some rf /\ Log rf1 = Log rf /\ commitIndex rf1 = commitIndex rf.
Proof.
  intros Hr Hr1 Hef Hq1. destruct (proj2 (ar_dom _ _ (reachable_arrays n w Hr) q)) as [rf Hq].
  { apply (ar_dom _ _ (reachable_arrays n w1 Hr1)). by exists rf1. }
  exists rf. split; [done |]. destruct (ef_peers _ _ _ Hef q rf Hq) as (rf' & Hq' & ? & ?).
  rewrite Hq1 in Hq'. by injection Hq' as <-.
Qed.

(** The entry of a new term keeps the logs matching. *)
Lemma new_entry_matches n w M cmd p rf q rfq : ireachable n w -> below M w ->
  peers w !! p = Some rf -> peers w !! q = Some rfq -> log_matching (Log rf ++ [mkEntry cmd (M + 1)]) (Log rfq).
Proof.
  intros Hir Hb Hp Hq. destruct (ireachable_ledger_inv n w Hir) as (G & L & Hlg).
  pose proof (reachable_local_inv n w (ireachable_reachable _ _ Hir)) as Hl.
  apply log_matching_snoc; [eapply log_ok_matching; by eapply lg_peers |]. eapply terms_below; [done | done | | done].
  pose proof (pw_term _ _ _ (li_peers _ _ Hl _ _ Hp)). specialize (Hb p rf Hp). lia.
Qed.

(** The new leader of an isolated execution before it takes a command: its
    applier, if it waits, will be woken, and nothing is applied or about to be
    applied beyond its log. *)
Lemma leader_prepares n w M cmd : 2 <= n -> ireachable n w -> below M w -> M + 1 < MaxInt ->
  exists w2 p rf t g, rtc calm_step w w2 /\ reachable n w2 /\ 0 <= p < n /\ below (M + 1) w2 /\ elected n p (M + 1) w2 /\
    peers w2 !! p = Some rf /\ commitIndex rf < len (Log rf) /\
    (forall q rfq, peers w2 !! q = Some rfq -> q <> p -> log_matching (Log rf ++ [mkEntry cmd (M + 1)]) (Log rfq)) /\
    (t < fresh w2)%nat /\ threads w2 !! t = Some (p, g) /\ applier g /\ g <> GApplyBlock /\ window_below (len (Log rf)) g /\
    forall rf', apply_ok (sent_by w2 p) rf' g -> lastApplied rf' < len (Log rf).
Proof.
  intros Hn Hir Hb HM. pose proof (ireachable_reachable _ _ Hir) as Hr.
  destruct (newest_wins n w M Hn Hr Hb HM) as (w1 & p & Hs1 & Hel & Hb1 & Hef).
  assert (Hr1 : reachable n w1) by (by eapply rtc_reachable).
  pose proof Hel as (rf1 & Hp1 & _). pose proof (proj1 (ar_dom _ _ (reachable_arrays n w1 Hr1) p) (mk_is_Some _ _ Hp1)) as Hpn.
  destruct (ef_back n _ w w1 p rf1 Hr Hr1 Hef Hp1) as (rf & Hp & Hl1 & Hc1).
  pose proof (reachable_apply_inv n w Hr) as Hap. destruct (ap_alive _ Hap p rf Hp) as (t & g & Ht & Hg).
  pose proof (ap_names _ Hap _ _ Ht) as Htm. pose proof (ap_ok _ Hap _ _ _ _ Hp Ht) as Hok.
  destruct (applier_bounds n w p rf t g ltac:(lia) Hir Hp Ht) as (Hla & Hci & Hwin).
  rewrite <- (ef_threads _ _ _ Hef t Htm) in Ht.
  destruct (not_blocked t p g w1 rf1 Ht Hg Hp1 (below_fit _ _ Hb1 HM))
    as (w2 & g2 & Hs2 & Ht2 & Hnb & Hg2 & Hps2 & Happ2 & Hfr2 & Hw2 & Hok2).
  exists w2, p, rf1, t, g2. unfold below, elected. rewrite Hps2, Hc1, Hl1.
  split; [by etrans |]. split; [by eapply rtc_reachable |]. split; [done |]. split_and!; try done.
  - intros q rfq Hq _. destruct (ef_back n _ w w1 q rfq Hr Hr1 Hef Hq) as (rfq0 & Hq0 & -> & _). by eapply new_entry_matches.
  - pose proof (ef_fresh _ _ _ Hef). lia.
  - by apply Hw2.
  - intros rf' Hok'%Hok2. unfold sent_by in *. rewrite Happ2, (ef_applied _ _ _ Hef) in Hok'.
    destruct g; cbn in Hok, Hok'; try done; lia.
Qed.

Lemma lookup_last_entry log (e : LogEntry) : (log ++ [e]) !! Z.to_nat (len log) = Some e.
Proof. unfold len. rewrite Nat2Z.id. by apply list_lookup_middle. Qed.


(** Three servers in which a leader of term 1 has appended a command nobody else
    knows and crashed. *)
Definition lost_command : list Event :=
  campaign 0 3 ++ answered 5 ++ [EStart 0 (Some (VInt 1)); R 7; R 7; ECrash 0 None t0].

