(* ===== verification/RaftCommands.v ===== *)
(** * Where commands come from

    Whatever the interleaving, the commands in logs, in requests and on applyCh
    were given to Start: nothing is made up.  [P] is any property of commands
    that all the arguments of Start have. *)

From S2P Require Import Prelude LabGob Persister Raft RaftRPC RaftNode RaftSystem RaftSteps RaftRaces RaftLocal RaftApply.

Section commands.
Context (P : option GoVal -> Prop).

Definition entry_ok (e : LogEntry) : Prop := 0 < Term e -> P (Command e).

Definition command_thread (g : Goroutine) : Prop :=
  match g with
  | GStartAppend command => P command
  | GSendEnc _ _ _ args | GSendCall _ _ _ args | GSendRet _ _ _ args _ | GSendCheck _ _ _ args _
  | GSendHandle _ _ _ args _ | GOrphanAE _ args => Forall entry_ok (ae_Entries args)
  | GApplySend m _ _ => P (am_Command m)
  | _ => True
  end.

Record command_inv (w : World) : Prop := {
  cm_peers : forall p rf, peers w !! p = Some rf -> Forall entry_ok (Log rf);
  cm_threads : forall t p g, threads w !! t = Some (p, g) -> command_thread g;
  cm_applied : forall p, Forall (fun m => P (am_Command m)) (sent_by w p);
}.

(** The events whose calls of Start have [P]. *)
Definition event_ok (ev : Event) : Prop := match ev with EStart _ command => P command | _ => True end.

(** ** Only Start makes new commands *)

Definition calls_old (w w' : World) : Prop :=
  forall t q c, threads w' !! t = Some (q, GStartAppend c) -> threads w !! t = Some (q, GStartAppend c).

Lemma calls_moved tid p og w w1 : threads w1 = threads w -> (forall c, og <> Some (GStartAppend c)) ->
  calls_old w (moved tid p og w1).
Proof.
  intros Hw Hog t q c [(_ & _ & E) | [_ E]]%moved_lookup; [by destruct (Hog c) | by rewrite Hw in E].
Qed.

Ltac calls_done :=
  first [ eapply calls_moved; [done | by intros ? [=]]
        | match goal with H : finish ?t ?w = Ok _ |- _ => rewrite (finish_eq t 0) in H; injection H as <-;
            eapply calls_moved; [done | by intros ? [=]] end ].

Lemma run_thread_calls tid p g t1 w w' : run_thread tid p g t1 w = Ok (tt, w') -> calls_old w w'.
Proof.
  intros H. destruct g; cbn in H; world_inv; try discriminate H.
  all: repeat match goal with
    | H : (if ?b : bool then _ else _) _ = Ok _ |- _ => destruct b; world_inv
    | H : (if decide ?b then _ else _) _ = Ok _ |- _ => destruct (decide b); world_inv
    | H : (match ?r with SReturn => _ | SRetry => _ | SHeartbeat => _ end) _ = Ok _ |- _ => destruct r; world_inv
    | H : new_elect _ _ = Ok (_, _) |- _ => injection H as <- <-
    end.
  all: try calls_done.
  - rewrite (finish_eq tid 0) in *. simplify_eq. eapply calls_moved; [done | by intros ? [=]].
  - rewrite (finish_eq tid 0) in *. simplify_eq.
    match goal with H : new_bcast _ _ = Ok (_, _) |- _ => injection H as <- <- end.
    match goal with H : spawn_all _ _ _ _ = Ok _ |- _ => pose proof (spawn_all_inv _ _ _ _ _ H) as Hsa end.
    intros t q c [E | (_ & _ & i & _ & _ & [=])]%(sa_threads _ _ _ _ _ Hsa).
    revert E. eapply (calls_moved tid 0 None); [done | by intros ? [=]].
  - intros t q c [(_ & _ & [=]) | [_ E]]%moved_lookup.
    simplify_eq. apply spawned_lookup in E as [(_ & _ & [=]) | [_ ?]]. done.
Qed.

Lemma with_thread_Ok tid f w r : with_thread tid f w = Ok r -> exists p g, threads w !! tid = Some (p, g) /\ f p g w = Ok r.
Proof. unfold with_thread. destruct (threads w !! tid) as [[p g] |]; [eauto | done]. Qed.

Lemma exec_calls ev w w' : event_ok ev -> exec ev w = Ok (tt, w') ->
  forall t q c, threads w' !! t = Some (q, GStartAppend c) -> threads w !! t = Some (q, GStartAppend c) \/ P c.
Proof.
  intros Hev H t q c Ht. destruct ev as [p cmd | p | p | tid t1 | tid j | tid t1 t2 | tid | tid | p mid tm]; cbn [exec] in H.
  1: { world_inv. destruct (x.2); world_inv; [| by left].
       apply spawned_lookup in Ht as [(_ & _ & [= ->]) | [_ ?]]; [by right | by left]. }
  1, 2: world_inv; apply spawned_lookup in Ht as [(_ & _ & [=]) | [_ ?]]; by left.
  1: { apply with_thread_Ok in H as (p & g & _ & H). left. by eapply run_thread_calls. }
  1, 2, 3, 4: apply with_thread_Ok in H as (p & g & _ & H); enough (Hc : calls_old w w') by (left; by apply Hc);
    clear Ht; destruct g; cbn in H; try discriminate H; world_inv; calls_done.
  apply crash_inv in H as (rf & rf1 & ts & rf' & _ & [Hsv _]%interrupted_inv & _ & ->).
  cbn in Ht. rewrite lookup_insert in Ht. case_decide; [done |].
  apply (survivors_killed _ _ _ _ _ _ Hsv) in Ht as (g0 & Ht & [[_ ->] | [_ Ho]]); [by left |]. by destruct g0; cbn in Ho; simplify_eq.
Qed.

(** ** The invariant *)

Lemma command_local w w' : command_inv w ->
  (forall p rf', peers w' !! p = Some rf' -> peers w !! p = Some rf' \/ Forall entry_ok (Log rf')) ->
  (forall t p g, threads w' !! t = Some (p, g) -> threads w !! t = Some (p, g) \/ command_thread g) ->
  (forall p, Forall (fun m => P (am_Command m)) (sent_by w' p)) -> command_inv w'.
Proof.
  intros [Hp Ht _] Hp' Ht' Ha. split; [| | done].
  - intros p rf' [H | H]%Hp'; [by eapply Hp | done].
  - intros t p g [H | H]%Ht'; [by eapply Ht | done].
Qed.

Lemma peers_updated w p rf' q rf1 : Forall entry_ok (Log rf') ->
  peers (updated p rf' w) !! q = Some rf1 -> peers w !! q = Some rf1 \/ Forall entry_ok (Log rf1).
Proof. intros Hrf. cbn. rewrite lookup_insert. case_decide; [intros [= <-]; by right | by intros ?; left]. Qed.

Lemma entries_of_log log lo hi : Forall entry_ok log -> Forall entry_ok (entries_between log lo hi).
Proof. intros H. unfold entries_between. by apply Forall_take, Forall_drop. Qed.

Lemma aliased_ok j next log args : Forall entry_ok log -> Forall entry_ok (ae_Entries args) ->
  Forall entry_ok (ae_Entries (aliased j next log args)).
Proof.
  intros Hl Ha. unfold aliased. destruct (log !! _) as [x |] eqn:E; [| done]. cbn.
  apply Forall_insert; [done |]. exact (Forall_lookup_1 _ _ _ _ Hl E).
Qed.

Lemma reads_command w p rf g g' : command_inv w -> peers w !! p = Some rf \/ unlocked g (Some g') ->
  command_thread g -> reads w p rf g (Some g') -> command_thread g'.
Proof.
  intros Hi Hp Hg Hr. destruct g; cbn in Hr, Hg, Hp; try done; try (naive_solver; fail).
  - destruct Hr as (bc & next & args & _ & Ha & [= ->]). destruct Hp as [Hp |]; [| done]. cbn.
    apply sender_args_inv in Ha as (_ & _ & x & _ & _ & ->). cbn. apply entries_of_log. by eapply cm_peers.
  - destruct Hr as [[= ->] | [j [= ->]]]; [done |]. destruct Hp as [Hp | [=]]. cbn.
    apply aliased_ok; [by eapply cm_peers | done].
Qed.

Lemma merged_ok log args : Forall entry_ok log -> Forall entry_ok (ae_Entries args) -> Forall entry_ok (merged log args).
Proof. intros Hl Ha. unfold merged. case_decide; [done |]. apply Forall_app. split; [by apply Forall_take | done]. Qed.

Lemma AppendEntries_log t1 t2 args rf reply rf' : args_wf args -> AppendEntries t1 t2 args rf = Ok (reply, rf') ->
  Log rf' = Log rf \/ Log rf' = merged (Log rf) args.
Proof.
  intros (_ & Hpv & _) H. destruct (AppendEntries_total t1 t2 args rf Hpv) as (r & rf1 & He & Hc).
  rewrite H in He. injection He as <- <-. destruct Hc as [(_ & _ & ->) | [(_ & _ & -> & _) | (_ & _ & _ & Ha)]].
  - by left.
  - left. apply adopted_Log.
  - right. apply Ha.
Qed.

Lemma RequestVote_log t1 args rf reply rf' : 0 < len (Log rf) -> RequestVote t1 args rf = Ok (reply, rf') -> Log rf' = Log rf.
Proof.
  intros Hl H. destruct (RequestVote_total t1 args rf Hl) as (r & rf1 & He & Hc). rewrite H in He. injection He as <- <-.
  destruct Hc as [(_ & _ & ->) | [(_ & _ & _ & ->) | (_ & _ & _ & ->)]]; [done | apply adopted_Log |].
  unfold voted. raft_fields. apply adopted_Log.
Qed.

Lemma sender_handle_log i next args reply bc x rf rf' : sender_handle i next args reply bc rf = Ok (x, rf') -> Log rf' = Log rf.
Proof.
  unfold sender_handle. destruct (aer_Success reply).
  - destruct x as [b' r]. intros (Hu & _)%sender_accepted_inv. apply Hu.
  - intros (r & s & [(_ & _ & ->) | (_ & _ & ni & _ & _ & _ & ->)]%sender_rejected_inv & [= _ <-])%st_bind_Ok.
    + unfold stepped_down. by raft_fields.
    + done.
Qed.

Lemma vote_handle_log reply nv x rf rf' : vote_handle reply nv rf = Ok (x, rf') -> Log rf' = Log rf.
Proof.
  destruct x. intros (_ & [(_ & _ & []) | (_ & _ & [(_ & _ & ->) | (_ & ->)])])%vote_handle_inv; [done | | done].
  unfold stepped_down. by raft_fields.
Qed.

Lemma command_inv_step n w w' : local_inv n w -> apply_inv w -> command_inv w -> wstep w w' ->
  (forall t q c, threads w' !! t = Some (q, GStartAppend c) -> P c) -> command_inv w'.
Proof.
  intros Hl Hap Hi Hs Hcall. pose proof (cm_applied _ Hi) as Ha.
  assert (Hlog : forall p rf rf', peers w !! p = Some rf -> Log rf' = Log rf -> Forall entry_ok (Log rf')).
  { intros p rf rf' Hp ->. by eapply cm_peers. }
  assert (Hmv : forall tid p og w1, threads w1 = threads w -> (forall g, og = Some g -> command_thread g) ->
    forall t q g, threads (moved tid p og w1) !! t = Some (q, g) -> threads w !! t = Some (q, g) \/ command_thread g).
  { intros tid p og w1 Hw Hog t q g [(_ & _ & E) | [_ E]]%moved_lookup; [right; auto | left; by rewrite <- Hw]. }
  destruct Hs.
  - done.
  - apply (command_local w); [done | auto | | done].
    intros t q g [(-> & -> & ->) | [_ ?]]%spawned_lookup; [right | by left]. cbn.
    apply (Hcall (fresh w) p). cbn. apply lookup_insert_eq.
  - apply (command_local w); [done | auto | | done].
    intros t q g1 [(-> & -> & ->) | [_ ?]]%spawned_lookup; [right | by left]. by destruct H0 as [-> | ->].
  - apply (command_local w); [done | auto | | done]. apply Hmv; [done |]. intros g1 ->.
    eapply reads_command; [done | done | by eapply cm_threads | done].
  - apply (command_local w); [done | | | done].
    + intros q rf1. apply peers_updated. eapply Hlog; [done | apply H1].
    + apply Hmv; [done |]. by intros g [= <-].
  - pose proof (spawn_all_inv _ _ _ _ _ H2) as Hsa. apply (command_local w); [done | | |].
    + intros q rf1. rewrite (sa_peers _ _ _ _ _ Hsa). auto.
    + intros t q g [E | (_ & _ & i & _ & _ & ->)]%(sa_threads _ _ _ _ _ Hsa); [| by right].
      revert E. cbn. rewrite lookup_delete. case_decide; [done | auto].
    + intros q. unfold sent_by. rewrite (sa_applied _ _ _ _ _ Hsa). apply Ha.
  - apply (command_local w); [done | | | done].
    + intros q rf1. apply peers_updated. rewrite (sd_log _ _ _ H1). apply Forall_app. split; [by eapply cm_peers |].
      apply Forall_singleton. intros _. cbn. by apply (cm_threads _ Hi _ _ _ H).
    + apply Hmv; [done |]. by intros g [= <-].
  - apply (command_local w); [done | | | done].
    + intros q rf1. apply peers_updated. eapply Hlog; [done |]. by eapply sender_handle_log.
    + apply Hmv; [done |]. intros g. by destruct r; intros [= <-].
  - apply (command_local w); [done | | | done].
    + intros q rf1. apply peers_updated. eapply Hlog; [done | apply H1].
    + apply Hmv; [done |]. by intros g [= <-].
  - apply (command_local w); [done | auto | | done].
    intros t q g [(_ & _ & [= <-]) | [_ E]]%moved_lookup; [by right |].
    apply spawned_lookup in E as [(_ & _ & ->) | [_ ?]]; [by right | by left].
  - apply (command_local w); [done | | | done].
    + intros q rf1. apply peers_updated. eapply Hlog; [done |]. by eapply vote_handle_log.
    + apply Hmv; [done |]. intros g. by destruct won_; intros [= <-].
  - pose proof (ap_ok _ Hap _ _ _ _ H0 H) as [Hla Hix]. pose proof (len_nonneg (sent_by w p)) as Hn.
    apply apply_one_inv in H2 as (-> & x & Hx & ->). apply (command_local w); [done | | | done].
    + intros q rf1. apply peers_updated. by eapply Hlog.
    + apply Hmv; [done |]. intros g [= <-]. cbn. apply idx_Ok in Hx as [_ Hx].
      apply (Forall_lookup_1 _ _ _ _ (cm_peers _ Hi _ _ H0) Hx).
      eapply (wf_log_pos (Log rf)); [by eapply pw_log, li_peers | done | lia].
  - pose proof (cm_threads _ Hi _ _ _ H) as Hm. cbn in Hm. apply (command_local w); [done | auto | |].
    + apply Hmv; [done |]. by intros g [= <-].
    + intros q. unfold sent_by. cbn. rewrite lookup_insert. case_decide; [| apply Ha]. subst q. cbn.
      apply Forall_app. split; [apply Ha | by apply Forall_singleton].
  - pose proof (cm_threads _ Hi _ _ _ H) as Hg. pose proof (li_threads _ _ Hl _ _ _ H) as Hwf.
    assert (Hargs : args_wf args /\ Forall entry_ok (ae_Entries args)) by (by destruct H0 as [(b & next & -> & _) | [-> _]]).
    destruct Hargs as [Hwf' Hok]. apply (command_local w); [done | | | done].
    + intros q rf1. apply peers_updated. pose proof (cm_peers _ Hi _ _ H1) as Hrf.
      destruct (AppendEntries_log _ _ _ _ _ _ Hwf' H2) as [-> | ->]; [done | by apply merged_ok].
    + apply Hmv; [done |]. intros g1 ->. by destruct H0 as [(b & next & -> & [= ->]) | [_ [=]]].
  - apply (command_local w); [done | | | done].
    + intros q rf1. apply peers_updated. eapply Hlog; [done |]. eapply RequestVote_log; [| done].
      by eapply wf_log_len, pw_log, li_peers.
    + apply Hmv; [done |]. intros g1 ->. by destruct H0 as [(e & -> & [= ->]) | [_ [=]]].
  - destruct (crash_restarts _ _ _ _ _ _ _ _ _ Hl H H0 H1) as [Hsv Hr].
    apply (command_local w); [done | | |].
    + intros q rf2. apply peers_updated. eapply Hlog; [done | apply Hr].
    + intros t q g Ht. cbn in Ht. rewrite lookup_insert in Ht. case_decide; [injection Ht as <- <-; by right |].
      apply (survivors_killed _ _ _ _ _ _ Hsv) in Ht as (g0 & Ht & [[_ ->] | [-> Ho]]); [by left | right].
      pose proof (cm_threads _ Hi _ _ _ Ht) as Hg. by destruct g0; cbn in Ho; simplify_eq.
    + intros q. unfold sent_by. cbn. rewrite lookup_insert. case_decide; [done | apply Ha].
Qed.

Lemma command_inv_initial n tm : command_inv (initial n tm).
Proof.
  split; [| | done].
  - intros p rf [_ ->]%initial_peers. destruct (fresh_peer_recovered n p tm) as (rf & _ & -> & _ & _ & -> & _).
    apply Forall_singleton. by intros ?.
  - by intros t p g (_ & _ & ->)%initial_threads.
Qed.

(** One event. *)
Lemma command_inv_exec n ev w w' : local_inv n w -> apply_inv w -> command_inv w -> event_ok ev ->
  exec ev w = Ok (tt, w') -> command_inv w'.
Proof.
  intros Hl Hap Hi Hev He. eapply command_inv_step; [done.. | by eapply exec_wstep |].
  intros t q c Ht. destruct (exec_calls _ _ _ Hev He t q c Ht) as [Hc |]; [| done]. by apply (cm_threads _ Hi _ _ _ Hc).
Qed.

Lemma command_inv_run n evs w w' : local_inv n w -> apply_inv w -> command_inv w -> Forall event_ok evs ->
  run evs w = Some w' -> command_inv w'.
Proof.
  revert w. induction evs as [| ev evs IH]; intros w Hl Hap Hi Hev; cbn; [by intros [= <-] |].
  apply Forall_cons in Hev as [He Hev]. case_decide as Hfit; [| done].
  destruct (exec ev w) as [[[] w1] | | |] eqn:E; [| done..]. apply IH; [| | | done].
  - eapply local_inv_step; [done.. | by eapply exec_wstep].
  - eapply apply_inv_step; [done.. | by eapply exec_wstep].
  - by eapply command_inv_exec.
Qed.
End commands.

(** C8: nothing is made up.  In every execution -- any interleaving, with the
    races, losses and crashes -- each command that a server sends on applyCh is one
    that the service gave to Start at some server before. *)
Theorem applied_was_started n tm evs w p m :
  run evs (initial n tm) = Some w -> m ∈ sent_by w p -> exists q, EStart q (am_Command m) ∈ evs.
Proof.
  intros Hr Hm. pose (P c := exists q, EStart q c ∈ evs).
  assert (Hi : command_inv P w).
  { eapply (command_inv_run P n evs); [apply local_inv_initial | apply apply_inv_initial | apply command_inv_initial | | done].
    apply Forall_forall. intros [] Hev; try done. by exists p0. }
  apply (proj1 (Forall_forall _ _) (cm_applied _ _ Hi p) m Hm).
Qed.

Lemma applied_was_started_witness : exists w m, run start_race (initial 3 t0) = Some w /\ m ∈ sent_by w 0 /\
  exists q, EStart q (am_Command m) ∈ start_race.
Proof.
  destruct (run start_race (initial 3 t0)) as [w|] eqn:E; [| by vm_compute in E].
  destruct (sent_by w 0) as [| m ms] eqn:Hm; [vm_compute in E; injection E as <-; by vm_compute in Hm |].
  exists w, m. split; [reflexivity |]. assert (Hin : m ∈ sent_by w 0) by (rewrite Hm; apply list_elem_of_here).
  split; [exact Hin |]. exact (applied_was_started 3 t0 start_race w 0 m E Hin).
Defined.
