(* ===== verification/RaftTimers.v ===== *)
(** * The two ticks and the event loop of a Raft server

    Models electionTimeoutTick, heartbeatPeriodTick and eventLoop of
    src/raft/raft.go with the mutex rf.mu, the two unbuffered channels and the
    condition variables nonLeaderCond and leaderCond.  The ticks send on their
    channels while they hold rf.mu, so here the mutex is a part of the state: it
    is taken exactly while a tick is at its send or has just sent.  All other
    critical sections of the server ([Sec]) run in one step while it is free. *)

From S2P Require Import Prelude LabGob Persister Raft RaftRPC RaftNode.

(** ** Sections of the other goroutines *)

Inductive Sec :=
  | SecAppendEntries (t1 t2 : Reading) (args : AppendEntriesArgs)
  | SecRequestVote (t1 : Reading) (args : RequestVoteArgs)
  | SecElection (tm : Reading)
  | SecVote (reply : RequestVoteReply) (nVotes : Z)
  | SecSender (i next : Z) (args : AppendEntriesArgs) (reply : AppendEntriesReply) (b : Bcast)
  | SecStart (command : option GoVal) (tnow : Z)
  | SecStamp (tnow : Z)
  | SecApply (i : Z).

Definition ignore {S A} (m : ST S A) : ST S unit := m ;;; mret tt.

Definition sec_run (c : Sec) : ST Raft unit :=
  match c with
  | SecAppendEntries t1 t2 args => ignore (AppendEntries t1 t2 args)
  | SecRequestVote t1 args => ignore (RequestVote t1 args)
  | SecElection tm => startElection_begin tm
  | SecVote reply nVotes => ignore (vote_handle reply nVotes)
  | SecSender i next args reply b => ignore (sender_handle i next args reply b)
  | SecStart command tnow => ignore (Start_append command tnow)
  | SecStamp tnow => heartbeat_stamp tnow
  | SecApply i => ignore (apply_one i)
  end.

(** ** The ticks and the loop *)

Inductive Ticker := ElectionTick | HeartbeatTick.

#[export] Instance Ticker_eq_dec : EqDecision Ticker.
Proof. solve_decision. Defined.

Inductive TickPc :=
  | TGetState               (* at the top of the loop *)
  | TLockWait               (* the test said wait; before rf.mu.Lock() *)
  | TWaiting (seen : nat)   (* inside Wait, which released rf.mu *)
  | TLockCheck              (* the other branch; before rf.mu.Lock() *)
  | TSending                (* holds rf.mu; at the send on the channel *)
  | TSent                   (* holds rf.mu; before rf.mu.Unlock() *)
  | TSleep.

#[export] Instance TickPc_eq_dec : EqDecision TickPc.
Proof. solve_decision. Defined.

Inductive LoopPc :=
  | LSelect
  | LLock (t : Ticker).     (* received from t; before rf.mu.Lock() *)

Record Timers := mkTimers {
  t_rf : Raft;
  t_elect : TickPc;
  t_heart : TickPc;
  t_loop : LoopPc;
  t_fired : list Ticker;    (* the expiries the ticks saw *)
  t_started : list Ticker;  (* go startElection and go broadcastHeartbeat *)
}.

Definition pc_of (t : Ticker) (s : Timers) : TickPc :=
  match t with ElectionTick => t_elect s | HeartbeatTick => t_heart s end.
Definition set_pc (t : Ticker) (pc : TickPc) (s : Timers) : Timers :=
  match t with
  | ElectionTick => mkTimers (t_rf s) pc (t_heart s) (t_loop s) (t_fired s) (t_started s)
  | HeartbeatTick => mkTimers (t_rf s) (t_elect s) pc (t_loop s) (t_fired s) (t_started s)
  end.

Definition holds (pc : TickPc) : bool := match pc with TSending | TSent => true | _ => false end.
Definition mu_free (s : Timers) : bool := negb (holds (t_elect s)) && negb (holds (t_heart s)).

Definition must_wait (t : Ticker) (rf : Raft) : bool :=
  match t with
  | ElectionTick => bool_decide (state rf = Leader)
  | HeartbeatTick => bool_decide (state rf <> Leader)
  end.
Definition cond_of (t : Ticker) (rf : Raft) : nat :=
  match t with ElectionTick => nonLeaderCond rf | HeartbeatTick => leaderCond rf end.
Definition elapsed (t : Ticker) (tnow : Z) (rf : Raft) : bool :=
  match t with
  | ElectionTick => electionTimeoutElapsed tnow rf
  | HeartbeatTick => heartbeatPeriodElapsed tnow rf
  end.

Definition fire (t : Ticker) (s : Timers) : Timers :=
  mkTimers (t_rf s) (t_elect s) (t_heart s) (t_loop s) (t_fired s ++ [t]) (t_started s).

(** One step of a tick. *)
Definition tick_step (t : Ticker) (tnow : Z) : ST Timers unit := fun s =>
  match pc_of t s with
  | TSending => Blocked
  | TSent => Ok (tt, set_pc t TSleep s)
  | TSleep => Ok (tt, set_pc t TGetState s)
  | pc =>
      if mu_free s then
        match pc with
        | TGetState => Ok (tt, set_pc t (if must_wait t (t_rf s) then TLockWait else TLockCheck) s)
        | TLockWait => Ok (tt, set_pc t (TWaiting (cond_of t (t_rf s))) s)
        | TWaiting seen =>
            if decide (seen < cond_of t (t_rf s))%nat then Ok (tt, set_pc t TGetState s) else Blocked
        | _ =>
            if elapsed t tnow (t_rf s) then Ok (tt, set_pc t TSending (fire t s))
            else Ok (tt, set_pc t TSleep s)
        end
      else Blocked
  end.

(** The select of eventLoop takes what tick [t] sends. *)
Definition loop_receive (t : Ticker) : ST Timers unit := fun s =>
  match t_loop s, pc_of t s with
  | LSelect, TSending =>
      let s := set_pc t TSent s in
      Ok (tt, mkTimers (t_rf s) (t_elect s) (t_heart s) (LLock t) (t_fired s) (t_started s))
  | _, _ => Blocked
  end.

(** The rest of a case of the select: a section that only prints, then go. *)
Definition loop_start : ST Timers unit := fun s =>
  match t_loop s with
  | LLock t =>
      if mu_free s
      then Ok (tt, mkTimers (t_rf s) (t_elect s) (t_heart s) LSelect (t_fired s) (t_started s ++ [t]))
      else Blocked
  | LSelect => Blocked
  end.

Definition other_section (c : Sec) : ST Timers unit := fun s =>
  if mu_free s then
    x ← sec_run c (t_rf s);
    Ok (tt, mkTimers x.2 (t_elect s) (t_heart s) (t_loop s) (t_fired s) (t_started s))
  else Blocked.

Inductive TEvent :=
  | TTick (t : Ticker) (tnow : Z)
  | TReceive (t : Ticker)
  | TStart
  | TSection (c : Sec).

Definition timers_exec (ev : TEvent) : ST Timers unit :=
  match ev with
  | TTick t tnow => tick_step t tnow
  | TReceive t => loop_receive t
  | TStart => loop_start
  | TSection c => other_section c
  end.

Fixpoint timers_run (evs : list TEvent) : ST Timers unit :=
  match evs with
  | [] => mret tt
  | ev :: evs => timers_exec ev ;;; timers_run evs
  end.

Definition timers_init (rf : Raft) : Timers := mkTimers rf TGetState TGetState LSelect [] [].

Lemma timers_run_inv (P : Timers -> Prop) :
  (forall ev s s', P s -> timers_exec ev s = Ok (tt, s') -> P s') ->
  forall evs s s', P s -> timers_run evs s = Ok (tt, s') -> P s'.
Proof.
  intros Hstep. induction evs as [| ev evs IH]; intros s s' HP; cbn; [by intros [= <-] |].
  intros ([] & s1 & H1 & H2)%st_bind_Ok. eauto.
Qed.

(** ** Every expiry starts one goroutine *)

(** The expiries that are seen and not yet turned into a goroutine: at most one
    waits in the loop and at most one in a send. *)
Definition pending (s : Timers) : list Ticker :=
  (match t_loop s with LLock t => [t] | LSelect => [] end) ++
  (if decide (t_elect s = TSending) then [ElectionTick] else []) ++
  (if decide (t_heart s = TSending) then [HeartbeatTick] else []).

Definition timers_ok (s : Timers) : Prop :=
  t_fired s = t_started s ++ pending s /\ ~ (holds (t_elect s) = true /\ holds (t_heart s) = true).

Lemma mu_free_true s : mu_free s = true -> holds (t_elect s) = false /\ holds (t_heart s) = false.
Proof. unfold mu_free. destruct (holds (t_elect s)), (holds (t_heart s)); done. Qed.

(** A tick that moves between points without a send. *)
Lemma set_pc_ok t pc s :
  pc_of t s <> TSending -> holds pc = false -> timers_ok s -> timers_ok (set_pc t pc s).
Proof.
  intros Hs Hpc [Hf Hm]. assert (pc <> TSending) by (by intros ->). unfold timers_ok, pending in *.
  destruct t; cbn in *; rewrite Hpc; (split; [| by intros [? ?]]).
  - by rewrite (decide_False (P := t_elect s = TSending)) in Hf; [rewrite (decide_False (P := pc = TSending)) |].
  - by rewrite (decide_False (P := t_heart s = TSending)) in Hf; [rewrite (decide_False (P := pc = TSending)) |].
Qed.

(** A tick that begins to send. *)
Lemma set_pc_fire t s : mu_free s = true -> timers_ok s -> timers_ok (set_pc t TSending (fire t s)).
Proof.
  intros [He Hh]%mu_free_true [Hf Hm].
  assert (t_elect s <> TSending) by (intros E; by rewrite E in He).
  assert (t_heart s <> TSending) by (intros E; by rewrite E in Hh).
  unfold timers_ok, pending in *. rewrite !decide_False in Hf by done.
  destruct t; cbn; rewrite ?He, ?Hh; (split; [| by intros [? ?]]);
    rewrite Hf, (decide_True (P := TSending = TSending)), ?(decide_False (P := t_elect s = TSending)),
      ?(decide_False (P := t_heart s = TSending)) by done; by rewrite !app_nil_r, <- ?app_assoc.
Qed.

Lemma tick_step_ok t tnow s s' : timers_ok s -> tick_step t tnow s = Ok (tt, s') -> timers_ok s'.
Proof.
  intros Hok. unfold tick_step. destruct (pc_of t s) eqn:Hpc; try done.
  5-6: intros [= <-]; apply set_pc_ok; [by rewrite Hpc | done | done].
  all: destruct (mu_free s) eqn:Hmu; [| done].
  - intros [= <-]. apply set_pc_ok; [by rewrite Hpc | by destruct (must_wait _ _) | done].
  - intros [= <-]. apply set_pc_ok; [by rewrite Hpc | done | done].
  - case_decide; [| done]. intros [= <-]. apply set_pc_ok; [by rewrite Hpc | done | done].
  - destruct (elapsed _ _ _); intros [= <-]; [by apply set_pc_fire |].
    apply set_pc_ok; [by rewrite Hpc | done | done].
Qed.

Lemma timers_exec_ok ev s s' : timers_ok s -> timers_exec ev s = Ok (tt, s') -> timers_ok s'.
Proof.
  intros Hok. destruct ev as [t tnow | t | | c]; cbn [timers_exec].
  - by apply tick_step_ok.
  - destruct Hok as [Hf Hm]. unfold timers_ok, loop_receive, pending in *.
    destruct s as [rf pe ph l fd st], t, l; cbn in *; try done; destruct pe, ph; try done;
      try (destruct Hm; by split); intros [= <-]; (split; [exact Hf | by intros [? ?]]).
  - destruct Hok as [Hf Hm]. unfold timers_ok, loop_start, pending in *.
    destruct (t_loop s) as [| t]; [done |]. destruct (mu_free s) eqn:Hmu; [| done].
    intros [= <-]. cbn in *. by rewrite <- app_assoc.
  - unfold other_section. destruct (mu_free s); [| done]. intros (x & _ & [= <-])%res_bind_Ok. exact Hok.
Qed.

(** ** The election tick sleeps on *)

(** A section that leaves [P] as it is. *)
Definition keeps {A} (P : Raft -> Prop) (m : ST Raft A) : Prop :=
  forall rf a rf', P rf -> m rf = Ok (a, rf') -> P rf'.

Section keeps.
Context {P : Raft -> Prop}.

Lemma keeps_bind {A B} (m : ST Raft A) (f : A -> ST Raft B) :
  keeps P m -> (forall a, keeps P (f a)) -> keeps P (st_bind _ _ f m).
Proof. intros Hm Hf rf b rf' HP (a & s1 & H1 & H2)%st_bind_Ok. by eapply Hf; [eapply Hm |]. Qed.

Lemma keeps_gets {A} (f : Raft -> A) : keeps P (gets f).
Proof. by intros rf a rf' HP [= _ <-]. Qed.

Lemma keeps_lift {A} (r : res A) : keeps P (lift r).
Proof. intros rf a rf' HP (x & _ & [= _ <-])%res_bind_Ok. done. Qed.

Lemma keeps_mret {A} (a : A) : keeps P (mret a).
Proof. by intros rf b rf' HP [= _ <-]. Qed.

Lemma keeps_modify (f : Raft -> Raft) : (forall rf, P rf -> P (f rf)) -> keeps P (modify f).
Proof. intros Hf rf a rf' HP [= _ <-]. by apply Hf. Qed.

Lemma keeps_when b (m : ST Raft unit) : keeps P m -> keeps P (when b m).
Proof. intros Hm. unfold when. destruct b; [done | apply keeps_mret]. Qed.
End keeps.

Create HintDb keeps discriminated.
#[export] Hint Resolve keeps_gets keeps_lift keeps_mret : keeps.

(** Not a leader, after [n] broadcasts on nonLeaderCond. *)
Definition nonleader (n : nat) (rf : Raft) : Prop := state rf <> Leader /\ nonLeaderCond rf = n.

Lemma keeps_switchTo n st : st <> Leader -> keeps (nonleader n) (switchTo st).
Proof.
  intros Hst rf a rf' [Hs Hn]. rewrite switchTo_eq. intros [= _ <-]. unfold switched, nonleader.
  rewrite decide_False by naive_solver. by case_decide.
Qed.

(** Go through the code of a section. *)
Ltac keeps_tac :=
  repeat first
    [ apply keeps_switchTo; done
    | apply keeps_bind; [| intros ?]
    | apply keeps_when
    | apply keeps_modify; intros ? [? ?]; by split
    | progress auto with keeps
    | case_match
    | progress unfold resetElectionTimer, persist, ignore ].

Lemma keeps_AppendEntries n t1 t2 args : keeps (nonleader n) (AppendEntries t1 t2 args).
Proof. unfold AppendEntries. keeps_tac. Qed.
Lemma keeps_RequestVote n t1 args : keeps (nonleader n) (RequestVote t1 args).
Proof. unfold RequestVote. keeps_tac. Qed.
Lemma keeps_startElection n tm : keeps (nonleader n) (startElection_begin tm).
Proof. unfold startElection_begin. keeps_tac. Qed.
Lemma keeps_sender n i next args reply b : keeps (nonleader n) (sender_handle i next args reply b).
Proof. unfold sender_handle, sender_accepted, sender_rejected. keeps_tac. Qed.

(** Becoming the leader broadcasts on the other condition. *)
Lemma keeps_lead n : keeps (fun rf => nonLeaderCond rf = n) (switchTo Leader).
Proof.
  intros rf a rf' Hn. rewrite switchTo_eq. intros [= _ <-]. unfold switched.
  rewrite decide_False by naive_solver. by case_decide.
Qed.

Lemma vote_handle_cond n reply nv rf a rf' :
  nonleader n rf -> vote_handle reply nv rf = Ok (a, rf') -> nonLeaderCond rf' = n.
Proof.
  intros Hn. destruct reply as [t []].
  - assert (Hk : keeps (fun rf => nonLeaderCond rf = n) (vote_handle (mkRVReply t true) nv)).
    { unfold vote_handle. repeat first [apply keeps_lead | apply keeps_bind; [| intros ?] |
        progress auto with keeps | case_match | by apply keeps_modify | progress unfold persist]. }
    by apply Hk, Hn.
  - assert (Hk : keeps (nonleader n) (vote_handle (mkRVReply t false) nv)).
    { unfold vote_handle. cbn [rvr_VoteGranted]. keeps_tac. }
    intros He. by destruct (Hk _ _ _ Hn He).
Qed.

Lemma ignore_Ok {S A} (m : ST S A) s u s' : ignore m s = Ok (u, s') -> exists a, m s = Ok (a, s').
Proof. intros (a & s1 & H1 & [= _ <-])%st_bind_Ok. by exists a. Qed.

(** No section wakes the election tick of a server that is not the leader. *)
Lemma sec_run_cond n c rf u rf' : nonleader n rf -> sec_run c rf = Ok (u, rf') -> nonLeaderCond rf' = n.
Proof.
  intros Hn. destruct c; cbn [sec_run]; intros He; try apply ignore_Ok in He as [a He].
  - apply (keeps_AppendEntries n _ _ _ _ _ _ Hn He).
  - apply (keeps_RequestVote n _ _ _ _ _ Hn He).
  - apply (keeps_startElection n _ _ _ _ Hn He).
  - by eapply vote_handle_cond.
  - apply (keeps_sender n _ _ _ _ _ _ _ _ Hn He).
  - refine (proj2 ((_ : keeps (nonleader n) (Start_append _ _)) _ _ _ Hn He)). unfold Start_append. keeps_tac.
  - refine (proj2 ((_ : keeps (nonleader n) (heartbeat_stamp _)) _ _ _ Hn He)). unfold heartbeat_stamp. keeps_tac.
  - refine (proj2 ((_ : keeps (nonleader n) (apply_one _)) _ _ _ Hn He)). unfold apply_one. keeps_tac.
Qed.

(** The election tick waits for a broadcast that has not happened. *)
Definition asleep (s : Timers) : Prop := t_elect s = TWaiting (nonLeaderCond (t_rf s)).

Lemma asleep_exec ev s s' :
  asleep s -> state (t_rf s) <> Leader -> timers_exec ev s = Ok (tt, s') -> asleep s'.
Proof.
  unfold asleep. intros Ha Hs. destruct ev as [t tnow | t | | c]; cbn [timers_exec].
  - unfold tick_step. destruct t; cbn [pc_of].
    + rewrite Ha. destruct (mu_free s); [| done]. cbn. rewrite decide_False by lia. done.
    + repeat case_match; try done; intros [= <-]; exact Ha.
  - unfold loop_receive. destruct t; cbn [pc_of]; repeat case_match; try done; try congruence; intros [= <-]; exact Ha.
  - unfold loop_start. repeat case_match; try done. intros [= <-]. exact Ha.
  - unfold other_section. case_match; [| done]. intros ([u rf'] & Hr & [= <-])%res_bind_Ok. cbn.
    rewrite (sec_run_cond (nonLeaderCond (t_rf s)) _ _ _ _ (conj Hs eq_refl) Hr). exact Ha.
Qed.

(** The server is not the leader in any state of the run before its last. *)
Fixpoint never_leader (evs : list TEvent) (s : Timers) : Prop :=
  match evs with
  | [] => True
  | ev :: evs => state (t_rf s) <> Leader /\
      match timers_exec ev s with Ok (_, s') => never_leader evs s' | _ => True end
  end.

Lemma asleep_run evs s s' : asleep s -> never_leader evs s -> timers_run evs s = Ok (tt, s') -> asleep s'.
Proof.
  revert s. induction evs as [| ev evs IH]; intros s Ha Hn; cbn; [by intros [= <-] |].
  intros ([] & s1 & H1 & H2)%st_bind_Ok. cbn in Hn. rewrite H1 in Hn. destruct Hn as [Hs Hn].
  apply (IH s1); [by eapply asleep_exec | done | done].
Qed.

(** ** Properties *)

(** A server of three, just made, at time 0. *)
Definition server0 : Raft :=
  match Make 3 0 Persister.MakePersister (mkReading 0 0) with Ok rf => rf | _ => zeroRaft end.
Definition ms (n : Z) : Z := n * Millisecond.

(** C32: the timers neither lose nor invent an expiry.  In every execution of the
    two ticks and the event loop, interleaved with any sections of the other
    goroutines, the goroutines that eventLoop started are exactly the expiries
    the ticks saw, in the same order, except for at most one that waits in the
    loop and one that is being sent; and never do both ticks hold the mutex. *)
Theorem timers_start_what_fired rf evs s :
  timers_run evs (timers_init rf) = Ok (tt, s) ->
  t_fired s = t_started s ++ pending s /\ (length (pending s) <= 2)%nat /\
  ~ (holds (t_elect s) = true /\ holds (t_heart s) = true).
Proof.
  intros Hr. assert (Hok : timers_ok s).
  { revert Hr. apply timers_run_inv; [intros ???; apply timers_exec_ok |]. split; [done | by intros [? ?]]. }
  destruct Hok as [Hf Hm]. split; [done |]. split; [| done]. unfold pending.
  destruct (t_loop s); repeat case_decide; cbn; try lia;
    (destruct Hm; split; match goal with Hx : _ = TSending |- _ => by rewrite Hx end).
Qed.

Lemma timers_start_what_fired_witness :
  exists s, timers_run [TTick ElectionTick 0; TTick ElectionTick (ms 700); TReceive ElectionTick;
      TTick ElectionTick 0; TStart] (timers_init server0) = Ok (tt, s) /\
    t_started s = [ElectionTick] /\ t_fired s = t_started s ++ pending s.
Proof.
  eexists. split; [vm_compute; reflexivity |]. split; [reflexivity |].
  refine (proj1 (timers_start_what_fired server0 [TTick ElectionTick 0; TTick ElectionTick (ms 700);
    TReceive ElectionTick; TTick ElectionTick 0; TStart] _ _)).
  vm_compute. reflexivity.
Defined.

(** The election tick finds the timer expired again before the loop, which has
    received the first expiry, gets the mutex. *)
Definition deadlock_events : list TEvent :=
  [TTick ElectionTick 0; TTick ElectionTick (ms 700); TReceive ElectionTick; TTick ElectionTick 0;
   TTick ElectionTick 0; TTick ElectionTick 0; TTick ElectionTick (ms 710)].

(** C33: a server can deadlock.  The ticks send on an unbuffered channel while
    they hold rf.mu, and the event loop takes rf.mu after it has received: when
    the election tick comes back before the loop got the mutex, it sends while
    the loop waits for the mutex that the tick holds.  In the state that is
    reached no goroutine of the server, no RPC handler included, can make a step
    any more. *)
Theorem timers_deadlock :
  exists s, timers_run deadlock_events (timers_init server0) = Ok (tt, s) /\
    forall ev, timers_exec ev s = Blocked.
Proof.
  eexists. split; [vm_compute; reflexivity |].
  intros [[] tnow | [] | | c]; reflexivity.
Qed.

(** A second expiry before the votes for the first election arrive: the server
    wins, its election tick goes to sleep, and then the second election runs. *)
Definition yes : RequestVoteReply := mkRVReply 1 true.
Definition lost_timer_events : list TEvent :=
  [TTick ElectionTick 0; TTick ElectionTick (ms 700); TReceive ElectionTick; TTick ElectionTick 0; TStart;
   TSection (SecElection (mkReading (ms 700) 0)); TTick ElectionTick 0; TTick ElectionTick 0;
   TTick ElectionTick (ms 1400); TReceive ElectionTick; TTick ElectionTick 0; TStart;
   TSection (SecVote yes 1); TTick ElectionTick 0; TTick ElectionTick 0; TTick ElectionTick 0;
   TSection (SecElection (mkReading (ms 1400) 0))].

(** A candidate can lose its election timer.  switchTo broadcasts on
    nonLeaderCond only when a leader becomes a follower; an election that was
    started before the server won an earlier one turns the leader into a
    candidate, and the election tick stays inside Wait: whatever happens, it
    does not wake up before the server has been the leader again, so that the
    server never starts another election by itself. *)
Theorem election_timer_lost :
  exists s, timers_run lost_timer_events (timers_init server0) = Ok (tt, s) /\
    state (t_rf s) = Candidate /\ CurrentTerm (t_rf s) = 2 /\
    forall evs s', never_leader evs s -> timers_run evs s = Ok (tt, s') ->
      t_elect s' = TWaiting (nonLeaderCond (t_rf s')).
Proof.
  eexists. split; [vm_compute; reflexivity |]. split; [reflexivity |]. split; [reflexivity |].
  intros evs s' Hn Hr. refine (asleep_run evs _ s' _ Hn Hr). reflexivity.
Qed.
