(* ===== verification/MapReduce.v ===== *)
(** * MapReduce: the tasks, the sequential driver and the merge

    Models src/mapreduce/common.go, common_map.go, common_reduce.go,
    master_splitmerge.go and the sequential part of master.go.  The file system
    is a map from names to contents; a file holds the text of an input or of the
    final output, or the key/value pairs written with json.Encoder.  A file that
    cannot be opened ends the program with log.Fatal. *)

From Stdlib Require Import Ascii DecimalString DecimalN Sorted.
From S2P Require Import Prelude.

(** ** Data *)

Record KeyValue := mkKV { Key : string; Value : string }.

#[export] Instance KeyValue_eq_dec : EqDecision KeyValue.
Proof. solve_decision. Defined.

Inductive jobPhase := mapPhase | reducePhase.

Inductive File :=
  | Text (s : string)
  | Json (kvs : list KeyValue).

Notation FS := (gmap string File).

Open Scope string_scope.
Open Scope list_scope.
Open Scope Z_scope.

(** ** Strings: numbers, bytes, hashes and JSON *)

(** strconv.Itoa *)
Definition Itoa (z : Z) : string :=
  if decide (z < 0) then "-" +:+ NilEmpty.string_of_uint (N.to_uint (Z.to_N (- z)))
  else NilEmpty.string_of_uint (N.to_uint (Z.to_N z)).

Definition reduceName (jobName : string) (mapTask reduceTask : Z) : string :=
  "mrtmp." +:+ jobName +:+ "-" +:+ Itoa mapTask +:+ "-" +:+ Itoa reduceTask.

Definition mergeName (jobName : string) (reduceTask : Z) : string :=
  "mrtmp." +:+ jobName +:+ "-res-" +:+ Itoa reduceTask.

(** The file merge writes. *)
Definition outName (jobName : string) : string := "mrtmp." +:+ jobName.

Fixpoint bytes (s : string) : list Z :=
  match s with
  | EmptyString => []
  | String c s => Z.of_N (Ascii.N_of_ascii c) :: bytes s
  end.

(** fnv.New32a, Write and Sum32: the 32-bit FNV-1a hash. *)
Definition fnv32a (s : string) : Z :=
  foldl (fun h b => (Z.lxor h b * 16777619) `mod` 2 ^ 32) 2166136261 (bytes s).

Definition ihash (s : string) : Z := Z.land (fnv32a s) (2 ^ 31 - 1).

(** [a % b] on ints *)
Definition go_rem (a b : Z) : res Z := if decide (b = 0) then Panic else Ok (Z.rem a b).

(** The length of the UTF-8 sequence at the head of a byte string, 0 if there is
    none; the ranges are those of package unicode/utf8. *)
Definition between (lo hi b : Z) : bool := bool_decide (lo <= b <= hi).
Definition cont (b : Z) : bool := between 128 191 b.

Definition utf8_len (l : list Z) : nat :=
  match l with
  | b :: l =>
      if between 0 127 b then 1%nat
      else match l with
      | c :: l' =>
          if between 194 223 b && cont c then 2%nat
          else match l' with
          | d :: l'' =>
              if (bool_decide (b = 224) && between 160 191 c ||
                  (between 225 236 b || between 238 239 b) && cont c ||
                  bool_decide (b = 237) && between 128 159 c) && cont d then 3%nat
              else match l'' with
              | e :: _ =>
                  if (bool_decide (b = 240) && between 144 191 c ||
                      between 241 243 b && cont c ||
                      bool_decide (b = 244) && between 128 143 c) && cont d && cont e then 4%nat
                  else O
              | [] => O
              end
          | [] => O
          end
      | [] => O
      end
  | [] => O
  end.

Fixpoint of_bytes (l : list Z) : string :=
  match l with
  | [] => EmptyString
  | b :: l => String (Ascii.ascii_of_N (Z.to_N b)) (of_bytes l)
  end.

(** encoding/json writes a byte that is not part of a UTF-8 sequence as the
    replacement character U+FFFD; the first argument bounds the iterations. *)
Fixpoint coerce_bytes (fuel : nat) (l : list Z) : list Z :=
  match fuel, l with
  | S fuel, _ :: _ =>
      match utf8_len l with
      | O => [239; 191; 189] ++ coerce_bytes fuel (tail l)
      | n => take n l ++ coerce_bytes fuel (drop n l)
      end
  | _, _ => []
  end.
Definition utf8_coerce (s : string) : string := of_bytes (coerce_bytes (length (bytes s)) (bytes s)).

(** What a pair is after json.Encoder wrote and json.Decoder read it. *)
Definition json_kv (kv : KeyValue) : KeyValue :=
  mkKV (utf8_coerce (Key kv)) (utf8_coerce (Value kv)).

(** ** Files *)

(** ioutil.ReadFile on a text; the text of a JSON file is not modelled. *)
Definition ReadFile (name : string) : ST FS string := fun fs =>
  match fs !! name with
  | Some (Text s) => Ok (s, fs)
  | Some (Json _) => Blocked
  | None => Fatal
  end.

(** os.OpenFile with O_TRUNC and one Encode per pair. *)
Definition writeJson (name : string) (kvs : list KeyValue) : ST FS unit :=
  modify (fun fs => <[name := Json (json_kv <$> kvs)]> fs).

(** os.Open and Decode until it fails; JSON inside a text is not modelled. *)
Definition readJson (name : string) : ST FS (list KeyValue) := fun fs =>
  match fs !! name with
  | Some (Json kvs) => Ok (kvs, fs)
  | Some (Text _) => Blocked
  | None => Fatal
  end.

(** ** sort

    sort.Sort and sort.Strings sort in ascending order and promise nothing about
    the order of equal elements: the model is any function with this law. *)
Definition key_le (a b : string) : Prop := String.leb a b = true.

Class GoSort := {
  gosort : forall {A}, (A -> string) -> list A -> list A;
  gosort_perm : forall A (key : A -> string) l, gosort key l ≡ₚ l;
  gosort_sorted : forall A (key : A -> string) l,
    StronglySorted (fun a b => key_le (key a) (key b)) (gosort key l);
}.

(** ** doMap *)

(** [for _, kv := range kvpairs] *)
Fixpoint partitionLoop (nReduce : Z) (kvpairs : list KeyValue) (tmps : list (list KeyValue)) :
    res (list (list KeyValue)) :=
  match kvpairs with
  | [] => Ok tmps
  | kv :: kvpairs =>
      let hashCode := ihash (Key kv) in
      r ← go_rem hashCode nReduce;
      old ← idx tmps r;
      tmps' ← store tmps r (old ++ [kv]);
      partitionLoop nReduce kvpairs tmps'
  end.

(** [for i := 0; i < nReduce; i++]; the first argument counts the iterations
    left. *)
Fixpoint writeLoop (n : nat) (i : Z) (jobName : string) (mapTask : Z) (tmps : list (list KeyValue)) :
    ST FS unit :=
  match n with
  | O => mret tt
  | S n =>
      kvs <- lift (idx tmps i) ;;
      writeJson (reduceName jobName mapTask i) kvs ;;;
      writeLoop n (i + 1) jobName mapTask tmps
  end.

Definition doMap (jobName : string) (mapTask : Z) (inFile : string) (nReduce : Z)
    (mapF : string -> string -> list KeyValue) : ST FS unit :=
  contents <- ReadFile inFile ;;
  let kvpairs := mapF inFile contents in
  if decide (nReduce < 0) then lift Panic else
  tmps <- lift (partitionLoop nReduce kvpairs (replicate (Z.to_nat nReduce) [])) ;;
  writeLoop (Z.to_nat nReduce) 0 jobName mapTask tmps.

(** ** doReduce *)

Section doReduce.
Context `{GoSort}.

(** [for i := 0; i < nMap; i++] *)
Fixpoint readLoop (n : nat) (i : Z) (jobName : string) (reduceTask : Z) (data : list KeyValue) :
    ST FS (list KeyValue) :=
  match n with
  | O => mret data
  | S n =>
      tmp <- readJson (reduceName jobName i reduceTask) ;;
      readLoop n (i + 1) jobName reduceTask (data ++ gosort Key tmp)
  end.

(** [for ; end < len(data) && data[end].Key == data[begin].Key; end++] *)
Fixpoint endLoop (fuel : nat) (data : list KeyValue) (begin_ end_ : Z) : res Z :=
  match fuel with
  | O => Blocked
  | S fuel =>
      if decide (end_ < len data) then
        x ← idx data end_;
        y ← idx data begin_;
        if decide (Key x = Key y) then endLoop fuel data begin_ (end_ + 1) else Ok end_
      else Ok end_
  end.

(** [for i := begin; i < end; i++]; the first argument counts the iterations
    left. *)
Fixpoint valueLoop (n : nat) (i : Z) (data : list KeyValue) (value : list string) : res (list string) :=
  match n with
  | O => Ok value
  | S n => x ← idx data i; valueLoop n (i + 1) data (value ++ [Value x])
  end.

(** The loop over the keys; the pairs encoded so far are accumulated. *)
Fixpoint groupLoop (fuel : nat) (reduceF : string -> list string -> string) (data : list KeyValue)
    (begin_ : Z) (out : list KeyValue) : res (list KeyValue) :=
  match fuel with
  | O => Blocked
  | S fuel =>
      if decide (begin_ < len data) then
        end_ ← endLoop (S (length data)) data begin_ begin_;
        x ← idx data begin_;
        let key := Key x in
        value ← valueLoop (Z.to_nat (end_ - begin_)) begin_ data [];
        groupLoop fuel reduceF data end_ (out ++ [mkKV key (reduceF key value)])
      else Ok out
  end.

Definition doReduce (jobName : string) (reduceTask : Z) (outFile : string) (nMap : Z)
    (reduceF : string -> list string -> string) : ST FS unit :=
  if decide (nMap < 0) then lift Panic else
  data <- readLoop (Z.to_nat nMap) 0 jobName reduceTask [] ;;
  let data := gosort Key data in
  out <- lift (groupLoop (S (length data)) reduceF data 0 []) ;;
  writeJson outFile out.

(** ** merge *)

(** [for i := 0; i < mr.nReduce; i++], with the inner Decode loop. *)
Fixpoint mergeLoop (n : nat) (i : Z) (jobName : string) (kvs : gmap string string) :
    ST FS (gmap string string) :=
  match n with
  | O => mret kvs
  | S n =>
      l <- readJson (mergeName jobName i) ;;
      mergeLoop n (i + 1) jobName (foldl (fun m kv => <[Key kv := Value kv]> m) kvs l)
  end.

Definition line (k v : string) : string := k +:+ ": " +:+ v +:+ String (Ascii.ascii_of_nat 10) "".

Fixpoint render (out : list (string * string)) : string :=
  match out with
  | [] => ""
  | (k, v) :: out => line k v +:+ render out
  end.

(** The keys of the map in its iteration order, sorted, with their values. *)
Definition sorted_output (kvs : gmap string string) : list (string * string) :=
  (fun k => (k, default "" (kvs !! k))) <$> gosort id (map_to_list kvs).*1.

Definition merge (jobName : string) (nReduce : Z) : ST FS unit :=
  kvs <- mergeLoop (Z.to_nat nReduce) 0 jobName ∅ ;;
  modify (fun fs => <[outName jobName := Text (render (sorted_output kvs))]> fs).

(** ** Sequential, and run *)

(** [for i, f := range mr.files] *)
Fixpoint mapTasks (i : Z) (jobName : string) (files : list string) (nReduce : Z)
    (mapF : string -> string -> list KeyValue) : ST FS unit :=
  match files with
  | [] => mret tt
  | f :: files =>
      doMap jobName i f nReduce mapF ;;;
      mapTasks (i + 1) jobName files nReduce mapF
  end.

Fixpoint reduceTasks (n : nat) (i : Z) (jobName : string) (nMap : Z)
    (reduceF : string -> list string -> string) : ST FS unit :=
  match n with
  | O => mret tt
  | S n =>
      doReduce jobName i (mergeName jobName i) nMap reduceF ;;;
      reduceTasks n (i + 1) jobName nMap reduceF
  end.

(** Master.run: the two phases, then the merge. *)
Definition run (jobName : string) (nReduce : Z) (schedule : jobPhase -> ST FS unit) : ST FS unit :=
  schedule mapPhase ;;;
  schedule reducePhase ;;;
  merge jobName nReduce.

Definition Sequential (jobName : string) (files : list string) (nReduce : Z)
    (mapF : string -> string -> list KeyValue) (reduceF : string -> list string -> string) : ST FS unit :=
  run jobName nReduce (fun phase =>
    match phase with
    | mapPhase => mapTasks 0 jobName files nReduce mapF
    | reducePhase => reduceTasks (Z.to_nat nReduce) 0 jobName (len files) reduceF
    end).

End doReduce.

(** ** CleanupFiles *)

Definition removeFile (n : string) : ST FS unit := fun fs =>
  match fs !! n with Some _ => Ok (tt, delete n fs) | None => Fatal end.

Fixpoint removeAll (names : list string) : ST FS unit :=
  match names with
  | [] => mret tt
  | n :: names => removeFile n ;;; removeAll names
  end.

(** The names in the order of the loops. *)
Definition cleanupNames (jobName : string) (nMap nReduce : Z) : list string :=
  (i ← seqZ 0 nMap; (fun j => reduceName jobName i j) <$> seqZ 0 nReduce) ++
  ((fun i => mergeName jobName i) <$> seqZ 0 nReduce) ++ [outName jobName].

Definition CleanupFiles (jobName : string) (nMap nReduce : Z) : ST FS unit :=
  removeAll (cleanupNames jobName nMap nReduce).

(** ** Names are distinct *)

Fixpoint no_dash (s : string) : Prop :=
  match s with
  | EmptyString => True
  | String c s => c <> "-"%char /\ no_dash s
  end.

Lemma no_dash_uint d : no_dash (NilEmpty.string_of_uint d).
Proof. induction d; cbn; done. Qed.

Lemma no_dash_Itoa z : 0 <= z -> no_dash (Itoa z).
Proof. intros. unfold Itoa. rewrite decide_False by lia. apply no_dash_uint. Qed.

Lemma Itoa_inj x y : 0 <= x -> 0 <= y -> Itoa x = Itoa y -> x = y.
Proof.
  intros Hx Hy. unfold Itoa. rewrite !decide_False by lia. intros H.
  apply (f_equal NilEmpty.uint_of_string) in H. rewrite !NilEmpty.usu in H. injection H as H.
  apply Unsigned.to_uint_inj in H. lia.
Qed.

Lemma string_app_inj_l (a b c : string) : a +:+ b = a +:+ c -> b = c.
Proof. induction a as [| x a IH]; cbn; [done |]. intros [= H]. auto. Qed.

(** Splitting at the first dash. *)
Lemma dash_split a b c d :
  no_dash a -> no_dash c -> a +:+ "-" +:+ b = c +:+ "-" +:+ d -> a = c /\ b = d.
Proof.
  revert c. induction a as [| x a IH]; intros [| y c]; cbn; intros Ha Hc H.
  - by injection H.
  - injection H as <- _. by destruct Hc.
  - injection H as -> _. by destruct Ha.
  - injection H as -> H. destruct (IH c) as [-> ->]; [apply Ha | apply Hc | done |]. done.
Qed.

Lemma reduceName_inj job m r m' r' :
  0 <= m -> 0 <= r -> 0 <= m' -> 0 <= r' ->
  reduceName job m r = reduceName job m' r' -> m = m' /\ r = r'.
Proof.
  intros ???? H. do 3 apply string_app_inj_l in H.
  apply dash_split in H as [Hm Hr]; [| by apply no_dash_Itoa..].
  split; by apply Itoa_inj.
Qed.

Lemma mergeName_inj job r r' : 0 <= r -> 0 <= r' -> mergeName job r = mergeName job r' -> r = r'.
Proof. intros ?? H. do 3 apply string_app_inj_l in H. by apply Itoa_inj. Qed.

(** No decimal number is "res". *)
Lemma reduceName_mergeName job m r r' : 0 <= m -> reduceName job m r <> mergeName job r'.
Proof.
  intros Hm H. do 2 apply string_app_inj_l in H.
  change ("-res-" +:+ Itoa r') with ("-" +:+ ("res" +:+ ("-" +:+ Itoa r'))) in H.
  apply string_app_inj_l, dash_split in H as [H _]; [| by apply no_dash_Itoa | done].
  unfold Itoa in H. rewrite decide_False in H by lia.
  apply (f_equal NilEmpty.uint_of_string) in H. by rewrite NilEmpty.usu in H.
Qed.

Lemma string_app_nil_r_inv (a b : string) : a +:+ b = a -> b = "".
Proof. induction a as [| x a IH]; cbn; [done |]. intros [= H]. auto. Qed.

Lemma outName_reduceName job m r : outName job <> reduceName job m r.
Proof. intros H. apply string_app_inj_l in H. symmetry in H. by apply string_app_nil_r_inv in H. Qed.
Lemma outName_mergeName job r : outName job <> mergeName job r.
Proof. intros H. apply string_app_inj_l in H. symmetry in H. by apply string_app_nil_r_inv in H. Qed.

(** ** Hashing and partitioning *)

Lemma fnv32a_bound s : 0 <= fnv32a s < 2 ^ 32.
Proof.
  unfold fnv32a. generalize (bytes s) as l. intros l.
  assert (H : 0 <= 2166136261 < 2 ^ 32) by lia. revert H. generalize 2166136261 as h.
  induction l as [| b l IH]; intros h H; cbn [foldl]; [done |]. apply IH. apply Z.mod_pos_bound. lia.
Qed.

Lemma ihash_bound s : 0 <= ihash s < 2 ^ 31.
Proof.
  unfold ihash. change (2 ^ 31 - 1) with (Z.ones 31). rewrite Z.land_ones by lia.
  apply Z.mod_pos_bound. lia.
Qed.

(** The reduce task of a key. *)
Definition bucket (nReduce : Z) (k : string) : Z := Z.rem (ihash k) nReduce.

Lemma bucket_bound nReduce k : 0 < nReduce -> 0 <= bucket nReduce k < nReduce.
Proof. intros. unfold bucket. apply Z.rem_bound_pos; [apply ihash_bound | done]. Qed.

Definition in_bucket (nReduce : Z) (r : Z) (l : list KeyValue) : list KeyValue :=
  filter (fun kv => bucket nReduce (Key kv) = r) l.

Lemma partitionLoop_spec nReduce kvs tmps :
  0 < nReduce -> len tmps = nReduce ->
  exists tmps', partitionLoop nReduce kvs tmps = Ok tmps' /\ len tmps' = nReduce /\
    forall r l, tmps !! r = Some l -> tmps' !! r = Some (l ++ in_bucket nReduce (Z.of_nat r) kvs).
Proof.
  intros Hn. revert tmps. induction kvs as [| kv kvs IH]; intros tmps Hl; cbn [partitionLoop].
  { exists tmps. split_and!; [done | done |]. intros r l ->. unfold in_bucket. by rewrite filter_nil, app_nil_r. }
  unfold go_rem. rewrite decide_False by lia. cbn [mbind res_bind].
  pose proof (bucket_bound nReduce (Key kv) Hn) as Hb. fold (bucket nReduce (Key kv)).
  destruct (idx_in_range tmps (bucket nReduce (Key kv))) as [old Hold]; [lia |].
  rewrite Hold. cbn [mbind res_bind]. rewrite store_in_range by lia. cbn [mbind res_bind].
  destruct (IH (<[Z.to_nat (bucket nReduce (Key kv)) := old ++ [kv]]> tmps)) as (t' & -> & Hl' & Ht').
  { unfold len in *. by rewrite length_insert. }
  exists t'. split_and!; [done | done |]. intros r l Hr. apply idx_Ok in Hold as [_ Hold].
  unfold in_bucket. rewrite filter_cons. case_decide as E.
  - rewrite E, Nat2Z.id in Hold. rewrite Hold in Hr. injection Hr as ->.
    rewrite (Ht' r (l ++ [kv])); [by rewrite <- app_assoc |].
    rewrite E, Nat2Z.id. apply list_lookup_insert_eq. by eapply lookup_lt_Some.
  - apply Ht'. rewrite list_lookup_insert_ne; [done |]. lia.
Qed.

(** ** The map phase *)

(** [fs'] is [fs] with new contents [c r] for the names [name r], [r] in a range. *)
Record wrote (name : Z -> string) (lo hi : Z) (c : Z -> File) (fs fs' : FS) : Prop := {
  wr_new : forall r, lo <= r < hi -> fs' !! name r = Some (c r);
  wr_old : forall n, (forall r, lo <= r < hi -> n <> name r) -> fs' !! n = fs !! n;
}.

Lemma wrote_step name lo hi c fs fs' :
  lo < hi -> (forall r, lo < r < hi -> name r <> name lo) ->
  wrote name (lo + 1) hi c (<[name lo := c lo]> fs) fs' -> wrote name lo hi c fs fs'.
Proof.
  intros Hlt Hinj [Hn Ho]. split.
  - intros r Hr. destruct (decide (r = lo)) as [-> |]; [| apply Hn; lia].
    rewrite Ho; [apply lookup_insert_eq |]. intros r' Hr'. symmetry. apply Hinj. lia.
  - intros n Hnr. rewrite Ho by (intros r Hr; apply Hnr; lia).
    apply lookup_insert_ne. symmetry. apply Hnr. lia.
Qed.

Lemma wrote_empty name lo hi c fs : hi <= lo -> wrote name lo hi c fs fs.
Proof. split; [lia | done]. Qed.

Lemma writeLoop_spec n i job m tmps fs c :
  0 <= i -> 0 <= m ->
  (forall r, i <= r < i + Z.of_nat n -> exists kvs, idx tmps r = Ok kvs /\ c r = Json (json_kv <$> kvs)) ->
  exists fs', writeLoop n i job m tmps fs = Ok (tt, fs') /\
    wrote (reduceName job m) i (i + Z.of_nat n) c fs fs'.
Proof.
  revert i fs. induction n as [| n IH]; intros i fs Hi Hm Hc; cbn [writeLoop].
  { exists fs. split; [done |]. apply wrote_empty. lia. }
  destruct (Hc i) as (kvs & Hk & Hci); [lia |].
  unfold st_bind at 1, lift. rewrite Hk. cbn [mbind res_bind]. unfold st_bind, writeJson, modify.
  destruct (IH (i + 1) (<[reduceName job m i := Json (json_kv <$> kvs)]> fs)) as (fs' & He & Hw);
    [lia | done | intros r Hr; apply Hc; lia |].
  exists fs'. split; [exact He |]. apply wrote_step; [lia | |].
  - intros r Hr Heq. apply reduceName_inj in Heq; lia.
  - rewrite Hci. by replace (i + 1 + Z.of_nat n) with (i + Z.of_nat (S n)) in Hw by lia.
Qed.

(** What a map task leaves for reduce task [r]. *)
Definition map_output (nReduce : Z) (kvs : list KeyValue) (r : Z) : File :=
  Json (json_kv <$> in_bucket nReduce r kvs).

Lemma doMap_spec job m f nReduce mapF fs s :
  0 < nReduce -> 0 <= m -> fs !! f = Some (Text s) ->
  exists fs', doMap job m f nReduce mapF fs = Ok (tt, fs') /\
    wrote (reduceName job m) 0 nReduce (map_output nReduce (mapF f s)) fs fs'.
Proof.
  intros Hn Hm Hf. unfold doMap, st_bind at 1, ReadFile. rewrite Hf.
  rewrite decide_False by lia. unfold st_bind, lift.
  destruct (partitionLoop_spec nReduce (mapF f s) (replicate (Z.to_nat nReduce) []))
    as (tmps & -> & Hl & Ht); [done | unfold len; rewrite length_replicate; lia |].
  cbn [mbind res_bind].
  destruct (writeLoop_spec (Z.to_nat nReduce) 0 job m tmps fs (map_output nReduce (mapF f s)))
    as (fs' & He & Hw); [lia | done | |].
  - intros r Hr. exists (in_bucket nReduce r (mapF f s)). split; [| done].
    apply idx_Ok. split; [lia |]. rewrite (Ht (Z.to_nat r) []).
    + rewrite Z2Nat.id by lia. done.
    + apply lookup_replicate. split; [done | lia].
  - exists fs'. split; [done |]. by replace (0 + Z.of_nat (Z.to_nat nReduce)) with nReduce in Hw by lia.
Qed.

Definition text (fs : FS) (f : string) : string :=
  match fs !! f with Some (Text s) => s | _ => "" end.

(** The inputs are texts, and no intermediate file is an input. *)
Definition inputs_ok (job : string) (files : list string) (fs : FS) : Prop :=
  Forall (fun f => (exists s, fs !! f = Some (Text s)) /\ forall m r, f <> reduceName job m r) files.

(** What the map phase leaves. *)
Record mapped (job : string) (files : list string) (nReduce : Z)
    (mapF : string -> string -> list KeyValue) (i : Z) (fs fs' : FS) : Prop := {
  mp_new : forall k f r, files !! k = Some f -> 0 <= r < nReduce ->
    fs' !! reduceName job (i + Z.of_nat k) r = Some (map_output nReduce (mapF f (text fs f)) r);
  mp_old : forall n, (forall m r, i <= m < i + len files -> 0 <= r < nReduce -> n <> reduceName job m r) ->
    fs' !! n = fs !! n;
}.

Lemma mapTasks_spec i job files nReduce mapF fs :
  0 < nReduce -> 0 <= i -> inputs_ok job files fs ->
  exists fs', mapTasks i job files nReduce mapF fs = Ok (tt, fs') /\
    mapped job files nReduce mapF i fs fs'.
Proof.
  intros Hn. revert i fs. induction files as [| f files IH]; intros i fs Hi Hok; cbn [mapTasks].
  { exists fs. split; [done |]. split; [done |]. done. }
  apply Forall_cons in Hok as [[[s Hs] Hf] Hok]. rewrite Forall_forall in Hok. unfold st_bind at 1.
  destruct (doMap_spec job i f nReduce mapF fs s) as (fs1 & -> & [Hn1 Ho1]); [done | done | done |].
  assert (Hsame : forall g, g ∈ files -> fs1 !! g = fs !! g).
  { intros g Hg. apply Ho1. intros r _. by apply Hok. }
  destruct (IH (i + 1) fs1) as (fs' & -> & [Hn2 Ho2]); [lia | |].
  { apply Forall_forall. intros g Hg. destruct (Hok g Hg) as [[s' Hs'] Hne]. split; [| done].
    exists s'. by rewrite Hsame. }
  exists fs'. split; [done |]. split.
  - intros [| k] g r Hk Hr; cbn in Hk.
    + injection Hk as <-. rewrite Z.add_0_r, Ho2.
      * rewrite Hn1 by done. unfold text. by rewrite Hs.
      * intros m r' Hm Hr' Heq. apply reduceName_inj in Heq; lia.
    + replace (i + Z.of_nat (S k)) with (i + 1 + Z.of_nat k) by lia. rewrite (Hn2 k g r) by done.
      unfold text. rewrite Hsame; [done |]. by eapply list_elem_of_lookup_2.
  - intros n Hno. pose proof (len_nonneg files) as Hlen. rewrite len_cons in Hno.
    rewrite Ho2, Ho1; [done | |].
    + intros r Hr. apply Hno; [lia | done].
    + intros m r Hm Hr. apply Hno; [lia | done].
Qed.

(** ** Grouping a sorted list *)

(** Runs of adjacent pairs with the same key. *)
Fixpoint group (l : list KeyValue) : list (string * list string) :=
  match l with
  | [] => []
  | kv :: l =>
      match group l with
      | (k, vs) :: g => if decide (k = Key kv) then (k, Value kv :: vs) :: g
                        else (Key kv, [Value kv]) :: (k, vs) :: g
      | [] => [(Key kv, [Value kv])]
      end
  end.

Definition reduced (reduceF : string -> list string -> string) (x : string * list string) : KeyValue :=
  mkKV x.1 (reduceF x.1 x.2).

Lemma group_head l kv : exists vs g, group (kv :: l) = (Key kv, Value kv :: vs) :: g.
Proof.
  cbn. destruct (group l) as [| [k vs] g]; [by eexists _, _ |]. case_decide; [subst |]; by eexists _, _.
Qed.

(** The first group of a list is its maximal run. *)
Lemma group_run k run rest :
  run <> [] -> Forall (fun kv => Key kv = k) run ->
  (forall kv, head rest = Some kv -> Key kv <> k) ->
  group (run ++ rest) = (k, Value <$> run) :: group rest.
Proof.
  intros Hne Hk Hr. induction Hk as [| kv run Hkv Hk IH]; [done |]. cbn [app group fmap list_fmap].
  destruct run as [| kv' run].
  - cbn [app]. destruct rest as [| x rest]; [by rewrite Hkv |].
    destruct (group_head rest x) as (vs & g & ->). rewrite decide_False; [by rewrite Hkv |].
    rewrite Hkv. by apply Hr.
  - rewrite IH by done. rewrite decide_True by done. done.
Qed.

Lemma endLoop_spec fuel pre run rest k :
  Forall (fun kv => Key kv = k) run -> (forall kv, head rest = Some kv -> Key kv <> k) ->
  forall done_ begin_, (exists x, idx (pre ++ done_ ++ run ++ rest) begin_ = Ok x /\ Key x = k) ->
  (length run < fuel)%nat ->
  endLoop fuel (pre ++ done_ ++ run ++ rest) begin_ (len (pre ++ done_))
  = Ok (len (pre ++ done_ ++ run)).
Proof.
  intros Hrun Hrest. revert fuel. induction Hrun as [| kv run Hkv Hrun IH];
    intros fuel done_ begin_ (x & Hx & Hkx) Hf; (destruct fuel as [| fuel]; [cbn in Hf; lia |]);
    cbn [endLoop].
  - cbn [app] in *. rewrite !app_nil_r. rewrite app_assoc in Hx |- *. goal_decide as [Hlt | Hge]; [| done].
    destruct rest as [| y rest]; [rewrite app_nil_r in Hlt; lia |].
    assert (idx ((pre ++ done_) ++ y :: rest) (len (pre ++ done_)) = Ok y) as ->.
    { apply idx_Ok. split; [apply len_nonneg |]. unfold len. rewrite Nat2Z.id. by apply list_lookup_middle. }
    cbn [mbind res_bind]. rewrite Hx. cbn [mbind res_bind]. rewrite decide_False; [done |].
    rewrite Hkx. by apply Hrest.
  - assert (Heq : pre ++ done_ ++ (kv :: run) ++ rest = pre ++ (done_ ++ [kv]) ++ run ++ rest)
      by (by rewrite <- !app_assoc).
    rewrite decide_True by (autorewrite with go_len; pose proof (len_nonneg run); pose proof (len_nonneg rest); lia).
    assert (idx (pre ++ done_ ++ (kv :: run) ++ rest) (len (pre ++ done_)) = Ok kv) as ->.
    { apply idx_Ok. split; [apply len_nonneg |]. unfold len. rewrite Nat2Z.id, app_assoc. by apply list_lookup_middle. }
    cbn [mbind res_bind]. rewrite Hx. cbn [mbind res_bind]. rewrite decide_True by congruence.
    rewrite Heq in *. replace (len (pre ++ done_) + 1) with (len (pre ++ done_ ++ [kv]))
      by (autorewrite with go_len; lia).
    rewrite IH; [| by exists x | cbn in Hf; lia]. by rewrite <- !app_assoc.
Qed.

Lemma valueLoop_spec n : forall pre run rest value,
  length run = n ->
  valueLoop n (len pre) (pre ++ run ++ rest) value = Ok (value ++ (Value <$> run)).
Proof.
  induction n as [| n IH]; intros pre run rest value Hn; cbn [valueLoop].
  { destruct run; [| done]. cbn. by rewrite app_nil_r. }
  destruct run as [| kv run]; [done |].
  assert (idx (pre ++ (kv :: run) ++ rest) (len pre) = Ok kv) as ->.
  { apply idx_Ok. split; [apply len_nonneg |]. unfold len. rewrite Nat2Z.id. by apply list_lookup_middle. }
  cbn [mbind res_bind].
  replace (len pre + 1) with (len (pre ++ [kv])) by (autorewrite with go_len; lia).
  replace (pre ++ (kv :: run) ++ rest) with ((pre ++ [kv]) ++ run ++ rest) by (by rewrite <- !app_assoc).
  rewrite IH by (cbn in Hn; lia). cbn. by rewrite <- app_assoc.
Qed.

(** Every non-empty list starts with a maximal run. *)
Lemma maximal_run (l : list KeyValue) kv :
  exists run rest, kv :: l = (kv :: run) ++ rest /\ Forall (fun x => Key x = Key kv) run /\
    forall x, head rest = Some x -> Key x <> Key kv.
Proof.
  induction l as [| y l IH]; [by exists [], [] |].
  destruct (decide (Key y = Key kv)) as [E | E].
  - destruct IH as (run & rest & [= ->] & Hrun & Hrest). exists (y :: run), rest.
    split; [done |]. split; [by constructor | done].
  - exists [], (y :: l). split; [done |]. split; [done |]. by intros x [= <-].
Qed.

(** The loop of doReduce computes the groups. *)
Lemma groupLoop_spec fuel reduceF : forall pre suf out,
  (length suf < fuel)%nat ->
  groupLoop fuel reduceF (pre ++ suf) (len pre) out = Ok (out ++ (reduced reduceF <$> group suf)).
Proof.
  induction fuel as [| fuel IH]; intros pre suf out Hf; [lia |]. cbn [groupLoop].
  destruct suf as [| kv suf].
  { rewrite decide_False by (rewrite app_nil_r; lia). cbn. by rewrite app_nil_r. }
  rewrite decide_True by (rewrite len_app, len_cons; pose proof (len_nonneg suf); lia).
  destruct (maximal_run suf kv) as (run & rest & Heq & Hrun & Hrest). rewrite Heq in Hf |- *.
  assert (Hx : idx (pre ++ (kv :: run) ++ rest) (len pre) = Ok kv).
  { apply idx_Ok. split; [apply len_nonneg |]. unfold len. rewrite Nat2Z.id. by apply list_lookup_middle. }
  pose proof (endLoop_spec (S (length (pre ++ (kv :: run) ++ rest))) pre (kv :: run) rest (Key kv))
    as He. specialize (He ltac:(by constructor) Hrest [] (len pre)). rewrite app_nil_r in He. cbn [app] in He |- *.
  rewrite He; [| by exists kv | cbn; rewrite length_app; cbn; rewrite length_app; lia].
  cbn [mbind res_bind]. cbn [app] in Hx. rewrite Hx. cbn [mbind res_bind].
  replace (Z.to_nat (len (pre ++ kv :: run) - len pre)) with (length (kv :: run))
    by (unfold len; rewrite length_app; lia).
  pose proof (valueLoop_spec (length (kv :: run)) pre (kv :: run) rest [] eq_refl) as Hv.
  cbn [app] in Hv. rewrite Hv. cbn [mbind res_bind].
  change (pre ++ kv :: run ++ rest) with (pre ++ (kv :: run) ++ rest). rewrite app_assoc.
  rewrite IH by (rewrite length_app in Hf; cbn in Hf; lia).
  change (kv :: run ++ rest) with ((kv :: run) ++ rest).
  rewrite (group_run (Key kv)); [| done | by constructor | done].
  cbn. by rewrite <- app_assoc.
Qed.

(** All values of a key, in order of appearance. *)
Definition values_of (k : string) (l : list KeyValue) : list string :=
  Value <$> filter (fun kv => Key kv = k) l.

Lemma values_of_perm k l l' : l ≡ₚ l' -> values_of k l ≡ₚ values_of k l'.
Proof. intros H. unfold values_of. by rewrite H. Qed.

Lemma values_of_app k l l' : values_of k (l ++ l') = values_of k l ++ values_of k l'.
Proof. unfold values_of. by rewrite filter_app, fmap_app. Qed.

Lemma values_of_cons_eq kv l : values_of (Key kv) (kv :: l) = Value kv :: values_of (Key kv) l.
Proof. unfold values_of. by rewrite filter_cons_True. Qed.
Lemma values_of_cons_ne k kv l : Key kv <> k -> values_of k (kv :: l) = values_of k l.
Proof. intros. unfold values_of. by rewrite filter_cons_False. Qed.

Lemma values_of_ne k l : values_of k l <> [] <-> k ∈ Key <$> l.
Proof.
  unfold values_of. split.
  - destruct (filter _ l) as [| kv l'] eqn:E; [done |]. intros _.
    assert (H : kv ∈ kv :: l') by left. rewrite <- E in H. apply list_elem_of_filter in H as [<- ?].
    by apply list_elem_of_fmap_2.
  - intros (kv & -> & Hkv)%list_elem_of_fmap He. apply fmap_nil_inv in He.
    assert (H : kv ∈ filter (fun x => Key x = Key kv) l) by by apply list_elem_of_filter.
    rewrite He in H. by apply not_elem_of_nil in H.
Qed.

(** What the groups of a list sorted by key are: each key once, with all its
    values. *)
Record grouped (l : list KeyValue) (g : list (string * list string)) : Prop := {
  gr_nodup : NoDup g.*1;
  gr_values : forall k vs, (k, vs) ∈ g -> vs = values_of k l;
  gr_keys : forall k, k ∈ g.*1 <-> k ∈ Key <$> l;
}.

Lemma group_sorted l :
  StronglySorted (fun a b => key_le (Key a) (Key b)) l -> grouped l (group l).
Proof.
  induction 1 as [| kv l Hs IH Hle].
  { split; [constructor | by intros k vs ?%not_elem_of_nil | done]. }
  destruct IH as [Hnd Hv Hk]. cbn [group]. destruct l as [| y l].
  { cbn. split.
    - apply NoDup_singleton.
    - intros k vs [= -> ->]%list_elem_of_singleton. by rewrite values_of_cons_eq.
    - done. }
  destruct (group_head l y) as (vs & g & Hg). rewrite Hg in *. cbn in Hnd, Hk.
  apply NoDup_cons in Hnd as [Hny Hnd]. case_decide as E.
  - split; [by apply NoDup_cons | |].
    + intros k vs' [[= -> ->] | Hin]%elem_of_cons.
      * rewrite E, values_of_cons_eq. f_equal. rewrite <- E. apply Hv. left.
      * rewrite values_of_cons_ne; [apply Hv; by right |]. intros <-. apply Hny.
        rewrite E. by apply (list_elem_of_fmap_2 fst) in Hin.
    + intros k. specialize (Hk k). cbn. rewrite <- E. rewrite !elem_of_cons in *. tauto.
  - assert (Hfresh : Key kv ∉ Key <$> y :: l).
    { intros (x & Hx & Hin)%list_elem_of_fmap. apply E.
      apply Forall_cons in Hle as [Hky _]. apply StronglySorted_inv in Hs as [_ Hyl].
      apply String.leb_antisym; [| exact Hky]. rewrite Hx.
      apply elem_of_cons in Hin as [-> | Hin]; [| rewrite Forall_forall in Hyl; by apply Hyl].
      destruct (String.leb_total (Key y) (Key y)); done. }
    split; cbn [fmap list_fmap fst].
    + apply NoDup_cons. split; [by rewrite Hk | by apply NoDup_cons].
    + intros k vs' [[= -> ->] | Hin]%elem_of_cons.
      * rewrite values_of_cons_eq. f_equal. destruct (values_of (Key kv) (y :: l)) eqn:En; [done |].
        exfalso. apply Hfresh, values_of_ne. by rewrite En.
      * rewrite values_of_cons_ne; [by apply Hv |]. intros <-. apply Hfresh, Hk.
        by apply (list_elem_of_fmap_2 fst) in Hin.
    + intros k. specialize (Hk k). cbn in Hk |- *. rewrite !elem_of_cons in *. tauto.
Qed.

(** ** The reduce phase and the merge *)

Section reduce.
Context `{GoSort}.

Lemma readLoop_spec n i job r data fs c :
  (forall j, i <= j < i + Z.of_nat n -> fs !! reduceName job j r = Some (Json (c j))) ->
  exists d, readLoop n i job r data fs = Ok (data ++ d, fs) /\
    d ≡ₚ concat (c <$> seqZ i (Z.of_nat n)).
Proof.
  revert i data. induction n as [| n IH]; intros i data Hc; cbn [readLoop].
  { exists []. by rewrite app_nil_r. }
  unfold st_bind at 1, readJson. rewrite Hc by lia.
  destruct (IH (i + 1) (data ++ gosort Key (c i))) as (d & He & Hd); [intros j Hj; apply Hc; lia |].
  exists (gosort Key (c i) ++ d). rewrite app_assoc. split; [exact He |].
  rewrite seqZ_cons by lia. replace (Z.pred (Z.of_nat (S n))) with (Z.of_nat n) by lia.
  change (Z.succ i) with (i + 1). cbn. by rewrite Hd, gosort_perm.
Qed.

(** What a reduce task writes for the pairs [l]. *)
Definition reduce_output (reduceF : string -> list string -> string) (l : list KeyValue) (f : File) : Prop :=
  exists d g, d ≡ₚ l /\ grouped d g /\ f = Json (json_kv <$> (reduced reduceF <$> g)).

Lemma doReduce_spec job r nMap out reduceF fs c :
  0 <= nMap -> (forall j, 0 <= j < nMap -> fs !! reduceName job j r = Some (Json (c j))) ->
  exists f, doReduce job r out nMap reduceF fs = Ok (tt, <[out := f]> fs) /\
    reduce_output reduceF (concat (c <$> seqZ 0 nMap)) f.
Proof.
  intros Hn Hc. unfold doReduce. rewrite decide_False by lia. unfold st_bind at 1.
  destruct (readLoop_spec (Z.to_nat nMap) 0 job r [] fs c) as (d & -> & Hd).
  { intros j Hj. apply Hc. lia. }
  rewrite Z2Nat.id in Hd by done. cbn [app].
  pose proof (groupLoop_spec (S (length (gosort Key d))) reduceF [] (gosort Key d) []) as Hg.
  cbn [app] in Hg. change (len []) with 0 in Hg. unfold st_bind, lift. rewrite Hg by lia. cbn [mbind res_bind].
  eexists. split; [done |]. exists (gosort Key d), (group (gosort Key d)).
  split; [by rewrite gosort_perm |]. split; [| done]. apply group_sorted, gosort_sorted.
Qed.

Lemma reduceTasks_spec n i job nMap reduceF fs c :
  0 <= i -> 0 <= nMap ->
  (forall r j, i <= r < i + Z.of_nat n -> 0 <= j < nMap -> fs !! reduceName job j r = Some (Json (c j r))) ->
  exists o fs', reduceTasks n i job nMap reduceF fs = Ok (tt, fs') /\
    wrote (mergeName job) i (i + Z.of_nat n) o fs fs' /\
    forall r, i <= r < i + Z.of_nat n -> reduce_output reduceF (concat ((fun j => c j r) <$> seqZ 0 nMap)) (o r).
Proof.
  intros Hi Hn. revert i fs Hi. induction n as [| n IH]; intros i fs Hi Hc; cbn [reduceTasks].
  { exists (fun _ => Text ""), fs. split; [done |]. split; [apply wrote_empty; lia | lia]. }
  unfold st_bind at 1.
  destruct (doReduce_spec job i nMap (mergeName job i) reduceF fs (fun j => c j i)) as (f & -> & Hf);
    [done | intros j Hj; apply Hc; lia |].
  destruct (IH (i + 1) (<[mergeName job i := f]> fs)) as (o & fs' & He & Hw & Ho); [lia | |].
  { intros r j Hr Hj. rewrite (lookup_insert_ne fs); [apply Hc; lia |].
    intros Heq. symmetry in Heq. apply reduceName_mergeName in Heq; lia. }
  exists (fun r => if decide (r = i) then f else o r), fs'. split; [exact He |].
  replace (i + 1 + Z.of_nat n) with (i + Z.of_nat (S n)) in * by lia. split.
  - apply wrote_step; [lia | intros r Hr Heq; apply mergeName_inj in Heq; lia |].
    rewrite decide_True by done. destruct Hw as [Hn' Ho']. split; [| done].
    intros r Hr. rewrite decide_False by lia. by apply Hn'.
  - intros r Hr. case_decide; [by subst |]. apply Ho. lia.
Qed.

Definition insert_all (m : gmap string string) (l : list KeyValue) : gmap string string :=
  foldl (fun m kv => <[Key kv := Value kv]> m) m l.

Lemma insert_all_lookup l m k v :
  NoDup (Key <$> l) ->
  insert_all m l !! k = Some v <-> mkKV k v ∈ l \/ (k ∉ Key <$> l /\ m !! k = Some v).
Proof.
  revert m. induction l as [| kv l IH]; intros m Hnd; cbn.
  { split; [intros Hm; right; split; [apply not_elem_of_nil | done] |].
    by intros [?%not_elem_of_nil | [_ ?]]. }
  apply NoDup_cons in Hnd as [Hk Hnd]. fold (insert_all (<[Key kv := Value kv]> m) l).
  rewrite IH by done. rewrite lookup_insert, !elem_of_cons. destruct kv as [k0 v0]. cbn in *.
  split.
  - intros [? | [Hnk Hm]]; [tauto |]. case_decide; simplify_eq; [by left; left |]. right.
    split; [| done]. intros [? | ?]; congruence.
  - intros [[[= -> ->] | ?] | [Hno ?]]; [| by left |].
    + right. by rewrite decide_True.
    + right. split; [tauto |]. rewrite decide_False; [done |]. intros ->. tauto.
Qed.

Lemma mergeLoop_spec n i job kvs fs o :
  (forall r, i <= r < i + Z.of_nat n -> fs !! mergeName job r = Some (Json (o r))) ->
  mergeLoop n i job kvs fs = Ok (insert_all kvs (concat (o <$> seqZ i (Z.of_nat n))), fs).
Proof.
  revert i kvs. induction n as [| n IH]; intros i kvs Ho; cbn [mergeLoop]; [done |].
  unfold st_bind, readJson. rewrite Ho by lia. rewrite IH by (intros r Hr; apply Ho; lia).
  rewrite (seqZ_cons i (Z.of_nat (S n))) by lia.
  replace (Z.pred (Z.of_nat (S n))) with (Z.of_nat n) by lia. change (Z.succ i) with (i + 1).
  cbn. unfold insert_all. by rewrite foldl_app.
Qed.

(** ** The job as a whole *)

(** All the pairs the map functions produce. *)
Definition all_pairs (fs : FS) (files : list string) (mapF : string -> string -> list KeyValue) :
    list KeyValue :=
  files ≫= (fun f => mapF f (text fs f)).

(** The result of a job on [pairs]: each key once, in order, with the reduction
    of all its values. *)
Record job_result (pairs : list KeyValue) (reduceF : string -> list string -> string)
    (out : list (string * string)) : Prop := {
  jr_nodup : NoDup out.*1;
  jr_sorted : StronglySorted key_le out.*1;
  jr_keys : forall k, k ∈ out.*1 <-> k ∈ Key <$> pairs;
  jr_values : forall k v, (k, v) ∈ out -> exists vs, vs ≡ₚ values_of k pairs /\ v = reduceF k vs;
}.

(** Pairs that JSON can carry. *)
Definition clean (kv : KeyValue) : Prop := json_kv kv = kv.

Lemma values_of_in_bucket nReduce k l :
  values_of k (in_bucket nReduce (bucket nReduce k) l) = values_of k l.
Proof.
  unfold values_of, in_bucket. rewrite list_filter_filter. f_equal.
  apply list_filter_iff. naive_solver.
Qed.

Lemma in_bucket_keys nReduce r k l :
  k ∈ Key <$> in_bucket nReduce r l <-> bucket nReduce k = r /\ k ∈ Key <$> l.
Proof.
  unfold in_bucket. rewrite !list_elem_of_fmap. setoid_rewrite list_elem_of_filter. naive_solver.
Qed.

Lemma fmap_seqZ_lookup {A B} (l : list A) (g : option A -> B) :
  (fun j => g (l !! Z.to_nat j)) <$> seqZ 0 (len l) = (fun x => g (Some x)) <$> l.
Proof.
  apply list_eq. intros i. rewrite !list_lookup_fmap.
  destruct (l !! i) as [x|] eqn:E.
  - assert (seqZ 0 (len l) !! i = Some (Z.of_nat i)) as ->.
    { apply lookup_seqZ. apply lookup_lt_Some in E. unfold len. lia. }
    cbn. by rewrite Nat2Z.id, E.
  - rewrite lookup_seqZ_ge; [done |]. apply lookup_ge_None in E. unfold len. lia.
Qed.

Lemma json_clean l : Forall clean l -> json_kv <$> l = l.
Proof. induction 1 as [| kv l Hkv _ IH]; [done |]. cbn. by rewrite Hkv, IH. Qed.

Lemma in_bucket_concat nReduce r ls :
  concat (in_bucket nReduce r <$> ls) = in_bucket nReduce r (concat ls).
Proof.
  induction ls as [| l ls IH]; [done |]. cbn. rewrite IH. unfold in_bucket. by rewrite filter_app.
Qed.

(** The pairs of map task [j]. *)
Definition pairs_of (fs : FS) (mapF : string -> string -> list KeyValue) (o : option string) : list KeyValue :=
  match o with Some f => mapF f (text fs f) | None => [] end.

Lemma bucket_pairs fs files mapF nReduce r :
  Forall clean (all_pairs fs files mapF) ->
  concat ((fun j => json_kv <$> in_bucket nReduce r (pairs_of fs mapF (files !! Z.to_nat j)))
          <$> seqZ 0 (len files))
  = in_bucket nReduce r (all_pairs fs files mapF).
Proof.
  intros Hc. rewrite (fmap_seqZ_lookup files (fun o => json_kv <$> in_bucket nReduce r (pairs_of fs mapF o))).
  cbn [pairs_of]. revert Hc. unfold all_pairs. induction files as [| f files IH]; [done |].
  cbn. rewrite Forall_app. intros [Hf Hfs]. rewrite IH by done. unfold in_bucket.
  rewrite filter_app, json_clean; [done |]. apply Forall_forall.
  intros kv [_ Hkv]%list_elem_of_filter. rewrite Forall_forall in Hf. by apply Hf.
Qed.

(** The pairs a reduce task wrote, for its part of [pairs]. *)
Record bucket_result (nReduce r : Z) (pairs : list KeyValue) (reduceF : string -> list string -> string)
    (l : list KeyValue) : Prop := {
  br_nodup : NoDup (Key <$> l);
  br_keys : forall k, k ∈ Key <$> l <-> bucket nReduce k = r /\ k ∈ Key <$> pairs;
  br_values : forall k v, mkKV k v ∈ l -> exists vs, vs ≡ₚ values_of k pairs /\ v = reduceF k vs;
}.

Lemma reduce_output_bucket nReduce r pairs reduceF f :
  Forall clean pairs -> (forall k vs, utf8_coerce (reduceF k vs) = reduceF k vs) ->
  reduce_output reduceF (in_bucket nReduce r pairs) f ->
  exists l, f = Json l /\ bucket_result nReduce r pairs reduceF l.
Proof.
  intros Hc Hr (d & g & Hd & [Hnd Hv Hk] & ->).
  assert (Hkeys : forall k, k ∈ g.*1 <-> bucket nReduce k = r /\ k ∈ Key <$> pairs).
  { intros k. rewrite Hk, Hd. apply in_bucket_keys. }
  rewrite json_clean; cycle 1.
  { apply Forall_forall. intros kv ([k vs] & -> & Hg)%list_elem_of_fmap. unfold clean, json_kv, reduced.
    cbn [Key Value fst snd].
    rewrite Hr. f_equal. apply (list_elem_of_fmap_2 fst), Hkeys in Hg as [_ Hg]. cbn in Hg.
    apply list_elem_of_fmap in Hg as (kv & -> & Hkv). rewrite Forall_forall in Hc.
    specialize (Hc kv Hkv). apply (f_equal Key) in Hc. exact Hc. }
  exists (reduced reduceF <$> g). split; [done |].
  assert (Heq : Key <$> (reduced reduceF <$> g) = g.*1) by (rewrite <- list_fmap_compose; done).
  split; rewrite ?Heq; [done | done |].
  intros k v ([k' vs] & [= -> ->] & Hg)%list_elem_of_fmap. cbn. exists vs. split; [| done].
  rewrite (Hv _ _ Hg), (values_of_perm _ _ _ Hd).
  apply (list_elem_of_fmap_2 fst), Hkeys in Hg as [<- _]. cbn. by rewrite values_of_in_bucket.
Qed.

Lemma buckets_concat nReduce pairs reduceF outs n : forall i,
  (forall r, i <= r < i + Z.of_nat n -> bucket_result nReduce r pairs reduceF (outs r)) ->
  let M := concat (outs <$> seqZ i (Z.of_nat n)) in
  NoDup (Key <$> M) /\
  (forall k, k ∈ Key <$> M <-> i <= bucket nReduce k < i + Z.of_nat n /\ k ∈ Key <$> pairs) /\
  (forall k v, mkKV k v ∈ M -> exists vs, vs ≡ₚ values_of k pairs /\ v = reduceF k vs).
Proof.
  induction n as [| n IH]; intros i Ho M.
  { subst M. cbn. split; [constructor |]. split.
    - intros k. split; [by intros ?%not_elem_of_nil | lia].
    - by intros k v ?%not_elem_of_nil. }
  destruct (IH (i + 1)) as (Hnd & Hk & Hv); [intros r Hr; apply Ho; lia |].
  destruct (Ho i) as [Hnd0 Hk0 Hv0]; [lia |]. subst M. rewrite seqZ_cons by lia.
  replace (Z.pred (Z.of_nat (S n))) with (Z.of_nat n) by lia. change (Z.succ i) with (i + 1).
  cbn [fmap list_fmap concat]. rewrite fmap_app. split_and!.
  - apply NoDup_app. split_and!; [done | | done]. intros k [? _]%Hk0 [? _]%Hk. lia.
  - intros k. rewrite elem_of_app, Hk0, Hk. split; [intros [|]; split; try lia; tauto |].
    intros [? ?]. destruct (decide (bucket nReduce k = i)); [left | right]; (split; [lia | done]).
  - intros k v [?|?]%elem_of_app; auto.
Qed.

Lemma sorted_output_result pairs reduceF kvs :
  (forall k, is_Some (kvs !! k) <-> k ∈ Key <$> pairs) ->
  (forall k v, kvs !! k = Some v -> exists vs, vs ≡ₚ values_of k pairs /\ v = reduceF k vs) ->
  job_result pairs reduceF (sorted_output kvs).
Proof.
  intros Hk Hv.
  assert (Hkeys : (sorted_output kvs).*1 = gosort id (map_to_list kvs).*1).
  { unfold sorted_output. rewrite <- list_fmap_compose. apply list_fmap_id. }
  assert (Hin : forall k, k ∈ gosort id (map_to_list kvs).*1 <-> is_Some (kvs !! k)).
  { intros k. rewrite gosort_perm. rewrite list_elem_of_fmap. split.
    - intros ([k' v] & -> & Hm%elem_of_map_to_list). by exists v.
    - intros [v Hm%elem_of_map_to_list]. by exists (k, v). }
  split; rewrite ?Hkeys.
  - rewrite gosort_perm. apply NoDup_fst_map_to_list.
  - exact (gosort_sorted string id (map_to_list kvs).*1).
  - intros k. by rewrite Hin, Hk.
  - intros k v (k' & [= -> ->] & Hk')%list_elem_of_fmap. apply Hin in Hk' as [v Hm].
    rewrite Hm. cbn. by apply Hv.
Qed.

(** The file system after a job: the output, and all temporary files. *)
Record job_done (job : string) (nMap nReduce : Z) (fs fs' : FS) : Prop := {
  jd_reduce : forall m r, 0 <= m < nMap -> 0 <= r < nReduce -> is_Some (fs' !! reduceName job m r);
  jd_merge : forall r, 0 <= r < nReduce -> is_Some (fs' !! mergeName job r);
  jd_old : forall n, n ∉ cleanupNames job nMap nReduce -> fs' !! n = fs !! n;
}.

Lemma elem_of_cleanupNames job nMap nReduce n :
  n ∈ cleanupNames job nMap nReduce <->
  (exists m r, 0 <= m < nMap /\ 0 <= r < nReduce /\ n = reduceName job m r) \/
  (exists r, 0 <= r < nReduce /\ n = mergeName job r) \/ n = outName job.
Proof.
  unfold cleanupNames. rewrite !elem_of_app, list_elem_of_singleton, list_elem_of_bind, list_elem_of_fmap.
  split.
  - intros [(m & (r & -> & ?%elem_of_seqZ)%list_elem_of_fmap & ?%elem_of_seqZ) |
      [(r & -> & ?%elem_of_seqZ) | ->]].
    + left. exists m, r. split; [lia |]. split; [lia | done].
    + right. left. exists r. split; [lia | done].
    + by right; right.
  - intros [(m & r & ? & ? & ->) | [(r & ? & ->) | ->]].
    + left. exists m. split; [| apply elem_of_seqZ; lia]. apply list_elem_of_fmap_2, elem_of_seqZ. lia.
    + right. left. exists r. split; [done | apply elem_of_seqZ; lia].
    + by right; right.
Qed.

(** After the map phase, and after the reduce phase. *)
Definition all_mapped (job : string) (files : list string) (nReduce : Z)
    (mapF : string -> string -> list KeyValue) (fs fs1 : FS) : Prop :=
  forall m r, 0 <= m < len files -> 0 <= r < nReduce ->
    fs1 !! reduceName job m r = Some (Json (json_kv <$> in_bucket nReduce r (pairs_of fs mapF (files !! Z.to_nat m)))).

Definition all_reduced (job : string) (nReduce : Z) (pairs : list KeyValue)
    (reduceF : string -> list string -> string) (fs2 : FS) : Prop :=
  forall r, 0 <= r < nReduce -> exists f, fs2 !! mergeName job r = Some f /\
    reduce_output reduceF (in_bucket nReduce r pairs) f.

Lemma mapped_all job files nReduce mapF fs fs1 :
  mapped job files nReduce mapF 0 fs fs1 -> all_mapped job files nReduce mapF fs fs1.
Proof.
  intros [Hnew _] m r Hm Hrr.
  destruct (lookup_lt_is_Some_2 files (Z.to_nat m)) as [f Hf]; [unfold len in Hm; lia |].
  rewrite Hf. pose proof (Hnew (Z.to_nat m) f r Hf Hrr) as Hm'.
  by replace (0 + Z.of_nat (Z.to_nat m)) with m in Hm' by lia.
Qed.

(** merge() after a complete reduce phase. *)
Lemma merge_spec job nReduce pairs reduceF fs2 :
  0 < nReduce -> Forall clean pairs -> (forall k vs, utf8_coerce (reduceF k vs) = reduceF k vs) ->
  all_reduced job nReduce pairs reduceF fs2 ->
  exists out, merge job nReduce fs2 = Ok (tt, <[outName job := Text (render out)]> fs2) /\
    job_result pairs reduceF out.
Proof.
  intros Hn Hc Hr Hall.
  set (outs r := match fs2 !! mergeName job r with Some (Json l) => l | _ => [] end).
  assert (Hb : forall r, 0 <= r < nReduce -> fs2 !! mergeName job r = Some (Json (outs r)) /\
    bucket_result nReduce r pairs reduceF (outs r)).
  { intros r Hrr. destruct (Hall r Hrr) as (f & Hf & Ho).
    destruct (reduce_output_bucket _ _ _ _ _ Hc Hr Ho) as (l & -> & Hbr). unfold outs. by rewrite Hf. }
  destruct (buckets_concat nReduce pairs reduceF outs (Z.to_nat nReduce) 0)
    as (Hnd & Hk & Hv); [intros r Hrr; apply Hb; lia |].
  unfold merge, st_bind. rewrite (mergeLoop_spec _ 0 job ∅ fs2 outs); cycle 1.
  { intros r Hrr. apply Hb. lia. }
  rewrite Z2Nat.id in Hnd, Hk, Hv |- * by lia. eexists (sorted_output _). split; [done |].
  apply sorted_output_result.
  - intros k. pose proof (bucket_bound nReduce k Hn). split.
    + intros [v [Hm | [_ [=]]]%insert_all_lookup]; [| done]. apply (Hk k). by apply (list_elem_of_fmap_2 Key) in Hm.
    + intros Hp. assert (HM : k ∈ Key <$> concat (outs <$> seqZ 0 nReduce)) by (apply Hk; split; [lia | done]).
      apply list_elem_of_fmap in HM as ([k' v] & -> & HM). exists v. apply insert_all_lookup; [done | by left].
  - intros k v [Hm | [_ [=]]]%insert_all_lookup; [by apply Hv | done].
Qed.

Lemma Sequential_spec job files nReduce mapF reduceF fs :
  0 < nReduce -> inputs_ok job files fs -> Forall clean (all_pairs fs files mapF) ->
  (forall k vs, utf8_coerce (reduceF k vs) = reduceF k vs) ->
  exists fs' out, Sequential job files nReduce mapF reduceF fs = Ok (tt, fs') /\
    fs' !! outName job = Some (Text (render out)) /\
    job_result (all_pairs fs files mapF) reduceF out /\ job_done job (len files) nReduce fs fs'.
Proof.
  intros Hn Hin Hc Hr. unfold Sequential, run, st_bind.
  destruct (mapTasks_spec 0 job files nReduce mapF fs) as (fs1 & -> & Hmp); [done | lia | done |].
  pose proof (mapped_all _ _ _ _ _ _ Hmp) as Hmap. destruct Hmp as [_ Hold].
  destruct (reduceTasks_spec (Z.to_nat nReduce) 0 job (len files) reduceF fs1 (fun m r =>
    json_kv <$> in_bucket nReduce r (pairs_of fs mapF (files !! Z.to_nat m))))
    as (o & fs2 & -> & [Hnew2 Hold2] & Ho); [lia | apply len_nonneg | intros r m Hrr Hm; apply Hmap; lia |].
  replace (0 + Z.of_nat (Z.to_nat nReduce)) with nReduce in Hnew2, Hold2, Ho by lia.
  destruct (merge_spec job nReduce (all_pairs fs files mapF) reduceF fs2) as (out & -> & Hres); [done.. | |].
  { intros r Hrr. exists (o r). split; [by apply Hnew2 |]. rewrite <- (bucket_pairs fs files mapF) by done.
    by apply Ho. }
  eexists _, out. split; [done |]. split; [apply lookup_insert_eq |]. split; [done |]. split.
  - intros m r Hm Hrr. rewrite lookup_insert_ne by apply outName_reduceName. rewrite Hold2, Hmap by
      (done || (intros r' _; apply reduceName_mergeName; lia)). done.
  - intros r Hrr. rewrite lookup_insert_ne by apply outName_mergeName. by rewrite Hnew2.
  - intros n Hno. rewrite elem_of_cleanupNames in Hno.
    rewrite lookup_insert_ne, Hold2, Hold; [done | | |].
    + intros m r Hm Hrr ->. apply Hno. left. exists m, r. done.
    + intros r Hrr ->. apply Hno. right. left. exists r. done.
    + intros <-. apply Hno. by right; right.
Qed.

End reduce.

(** ** A sort *)

Section insertion.
Context {A : Type} (key : A -> string).

Fixpoint insert_by (x : A) (l : list A) : list A :=
  match l with
  | [] => [x]
  | y :: l => if String.leb (key x) (key y) then x :: y :: l else y :: insert_by x l
  end.

Definition insertion_sort (l : list A) : list A := foldr insert_by [] l.

Lemma insert_by_perm x l : insert_by x l ≡ₚ x :: l.
Proof.
  induction l as [| y l IH]; [done |]. cbn. destruct (String.leb _ _); [done |].
  rewrite IH. apply Permutation_swap.
Qed.

Lemma insertion_sort_perm l : insertion_sort l ≡ₚ l.
Proof. induction l as [| x l IH]; [done |]. cbn. by rewrite insert_by_perm, IH. Qed.

Lemma ascii_compare_Lt_trans a b c :
  Ascii.compare a b = Lt -> Ascii.compare b c = Lt -> Ascii.compare a c = Lt.
Proof. unfold Ascii.compare. rewrite !N.compare_lt_iff. lia. Qed.

Lemma key_le_trans a b c : key_le a b -> key_le b c -> key_le a c.
Proof.
  unfold key_le, String.leb. revert b c.
  induction a as [| x a IH]; intros [| y b] [| z c]; cbn; try done.
  specialize (IH b c).
  destruct (Ascii.compare x y) eqn:Exy, (Ascii.compare y z) eqn:Eyz; try done.
  - apply Ascii.compare_eq_iff in Exy, Eyz. subst. unfold Ascii.compare. rewrite N.compare_refl. done.
  - apply Ascii.compare_eq_iff in Exy. subst. by rewrite Eyz.
  - apply Ascii.compare_eq_iff in Eyz. subst. by rewrite Exy.
  - by rewrite (ascii_compare_Lt_trans x y z).
Qed.

Lemma insert_by_sorted x l :
  StronglySorted (fun a b => key_le (key a) (key b)) l ->
  StronglySorted (fun a b => key_le (key a) (key b)) (insert_by x l).
Proof.
  induction 1 as [| y l Hs IH Hy]; cbn; [by repeat constructor |].
  destruct (String.leb (key x) (key y)) eqn:E.
  - constructor; [by constructor |]. constructor; [done |].
    eapply List.Forall_impl; [| exact Hy]. intros z. by apply key_le_trans.
  - constructor; [done |]. rewrite insert_by_perm. constructor; [| done].
    unfold key_le. destruct (String.leb_total (key x) (key y)); [congruence | done].
Qed.

Lemma insertion_sort_sorted l : StronglySorted (fun a b => key_le (key a) (key b)) (insertion_sort l).
Proof. induction l as [| x l IH]; [constructor |]. by apply insert_by_sorted. Qed.
End insertion.

Definition insertion_GoSort : GoSort := {|
  gosort A key := insertion_sort key;
  gosort_perm A key := insertion_sort_perm key;
  gosort_sorted A key := insertion_sort_sorted key;
|}.

(** ** Removing what a job wrote *)

Lemma removeAll_spec names fs :
  NoDup names -> (forall n, n ∈ names -> is_Some (fs !! n)) ->
  exists fs', removeAll names fs = Ok (tt, fs') /\
    (forall n, n ∈ names -> fs' !! n = None) /\ (forall n, n ∉ names -> fs' !! n = fs !! n).
Proof.
  revert fs. induction names as [| x names IH]; intros fs Hnd Hex; cbn [removeAll].
  { exists fs. split; [done |]. split; [by intros n ?%not_elem_of_nil | done]. }
  apply NoDup_cons in Hnd as [Hx Hnd]. destruct (Hex x) as [f Hf]; [left |].
  unfold st_bind, removeFile. rewrite Hf.
  destruct (IH (delete x fs)) as (fs' & -> & Hin & Hout); [done | |].
  { intros n Hn. rewrite lookup_delete_ne; [apply Hex; by right | congruence]. }
  exists fs'. split; [done |]. split.
  - intros n [-> | Hn]%elem_of_cons; [| by apply Hin]. rewrite Hout by done. apply lookup_delete_eq.
  - intros n [? ?]%not_elem_of_cons. rewrite Hout by done. by rewrite lookup_delete_ne.
Qed.

Lemma NoDup_cleanupNames job nMap nReduce : NoDup (cleanupNames job nMap nReduce).
Proof.
  unfold cleanupNames. apply NoDup_app. split_and!.
  - apply NoDup_bind.
    + intros x y n Hx%elem_of_seqZ Hy%elem_of_seqZ (r & -> & ?%elem_of_seqZ)%list_elem_of_fmap
        (r' & Heq & ?%elem_of_seqZ)%list_elem_of_fmap. apply reduceName_inj in Heq; lia.
    + intros x Hx%elem_of_seqZ. apply NoDup_fmap_2_strong; [| apply NoDup_seqZ].
      intros r r' Hr%elem_of_seqZ Hr'%elem_of_seqZ Heq. apply reduceName_inj in Heq; lia.
    + apply NoDup_seqZ.
  - intros n (m & Hm & ?%elem_of_seqZ)%list_elem_of_bind.
    apply list_elem_of_fmap in Hm as (r & -> & _).
    intros [(r' & Heq & _)%list_elem_of_fmap | Heq%list_elem_of_singleton]%elem_of_app.
    + by apply reduceName_mergeName in Heq; [| lia].
    + symmetry in Heq. by apply outName_reduceName in Heq.
  - apply NoDup_app. split_and!; [| | apply NoDup_singleton].
    + apply NoDup_fmap_2_strong; [| apply NoDup_seqZ].
      intros r r' Hr%elem_of_seqZ Hr'%elem_of_seqZ Heq. apply mergeName_inj in Heq; lia.
    + intros n (r & -> & _)%list_elem_of_fmap Heq%list_elem_of_singleton.
      symmetry in Heq. by apply outName_mergeName in Heq.
Qed.

(** ** Properties *)

(** C22: a sequential MapReduce job computes what it should.  For every sort,
    every number of reduce tasks, all inputs that exist and are not named like
    intermediate files, and map and reduce functions whose strings JSON can
    carry, Sequential ends without an error; the file mrtmp.<job> lists every
    key that occurs in the map functions' output exactly once, in ascending
    order, with reduceF applied to all values of that key (in some order). *)
Theorem Sequential_correct `{GoSort} job files nReduce mapF reduceF fs :
  0 < nReduce -> inputs_ok job files fs -> Forall clean (all_pairs fs files mapF) ->
  (forall k vs, utf8_coerce (reduceF k vs) = reduceF k vs) ->
  exists fs' out, Sequential job files nReduce mapF reduceF fs = Ok (tt, fs') /\
    fs' !! outName job = Some (Text (render out)) /\
    job_result (all_pairs fs files mapF) reduceF out.
Proof.
  intros Hn Hin Hc Hr. destruct (Sequential_spec job files nReduce mapF reduceF fs Hn Hin Hc Hr)
    as (fs' & out & He & Ho & Hres & _). by exists fs', out.
Qed.

(** Word count on two small files. *)
Definition example_fs : FS := <["in2" := Text "a"]> (<["in1" := Text "b a"]> ∅).
Definition example_mapF (f s : string) : list KeyValue :=
  if decide (s = "b a") then [mkKV "b" "1"; mkKV "a" "1"] else [mkKV "a" "1"].
Definition example_reduceF (k : string) (vs : list string) : string :=
  if decide (length vs = 2%nat) then "2" else "1".

Lemma example_inputs_ok : inputs_ok "wc" ["in1"; "in2"] example_fs.
Proof. repeat constructor; try (by eexists); by intros m r [=]. Qed.

Lemma Sequential_correct_witness :
  exists fs' out, @Sequential insertion_GoSort "wc" ["in1"; "in2"] 3 example_mapF example_reduceF example_fs
      = Ok (tt, fs') /\
    fs' !! outName "wc" = Some (Text (render out)) /\
    job_result [mkKV "b" "1"; mkKV "a" "1"; mkKV "a" "1"] example_reduceF out.
Proof.
  apply (@Sequential_correct insertion_GoSort "wc" ["in1"; "in2"] 3 example_mapF example_reduceF example_fs).
  - lia.
  - apply example_inputs_ok.
  - by repeat constructor.
  - intros k vs. unfold example_reduceF. by case_decide.
Defined.

(** C28: CleanupFiles undoes a job.  When none of the job's files existed before,
    Sequential followed by CleanupFiles succeeds (every file CleanupFiles removes
    exists) and leaves exactly the file system the job started from. *)
Theorem CleanupFiles_restores `{GoSort} job files nReduce mapF reduceF fs :
  0 < nReduce -> inputs_ok job files fs -> Forall clean (all_pairs fs files mapF) ->
  (forall k vs, utf8_coerce (reduceF k vs) = reduceF k vs) ->
  (forall n, n ∈ cleanupNames job (len files) nReduce -> fs !! n = None) ->
  (Sequential job files nReduce mapF reduceF ;;; CleanupFiles job (len files) nReduce) fs = Ok (tt, fs).
Proof.
  intros Hn Hin Hc Hr Hno. destruct (Sequential_spec job files nReduce mapF reduceF fs Hn Hin Hc Hr)
    as (fs1 & out & He & Ho & _ & [Hjr Hjm Hjo]).
  unfold st_bind. rewrite He. unfold CleanupFiles.
  destruct (removeAll_spec (cleanupNames job (len files) nReduce) fs1) as (fs2 & -> & Hrm & Hkeep).
  - apply NoDup_cleanupNames.
  - intros n [(m & r & ? & ? & ->) | [(r & ? & ->) | ->]]%elem_of_cleanupNames; [by apply Hjr | by apply Hjm | by rewrite Ho].
  - do 2 f_equal. apply map_eq. intros n.
    destruct (decide (n ∈ cleanupNames job (len files) nReduce)) as [Hin' | Hnot].
    + by rewrite Hrm, Hno.
    + by rewrite Hkeep, Hjo.
Qed.

Lemma CleanupFiles_restores_witness :
  (@Sequential insertion_GoSort "wc" ["in1"; "in2"] 3 example_mapF example_reduceF ;;;
   CleanupFiles "wc" 2 3) example_fs = Ok (tt, example_fs).
Proof.
  apply (@CleanupFiles_restores insertion_GoSort "wc" ["in1"; "in2"] 3 example_mapF example_reduceF example_fs).
  - lia.
  - apply example_inputs_ok.
  - by repeat constructor.
  - intros k vs. unfold example_reduceF. by case_decide.
  - apply Forall_forall. by vm_compute; repeat constructor.
Defined.

(** doMap on every branch.  With at least one reduce task and an input that
    exists, doMap ends without an error and the intermediate file of every reduce
    task r holds exactly the pairs whose key hashes to r, in the order of mapF,
    while all other files stay; a missing input is fatal, and with no reduce
    task the first pair panics with a division by zero. *)
Theorem doMap_correct job m f nReduce mapF fs :
  0 <= m ->
  (0 < nReduce -> forall s, fs !! f = Some (Text s) ->
     exists fs', doMap job m f nReduce mapF fs = Ok (tt, fs') /\
       wrote (reduceName job m) 0 nReduce (map_output nReduce (mapF f s)) fs fs') /\
  (fs !! f = None -> doMap job m f nReduce mapF fs = Fatal) /\
  (forall s, nReduce = 0 -> fs !! f = Some (Text s) -> mapF f s <> [] ->
     doMap job m f nReduce mapF fs = Panic).
Proof.
  intros Hm. split_and!.
  - intros Hn s Hs. by apply doMap_spec.
  - intros Hf. unfold doMap, st_bind at 1, ReadFile. by rewrite Hf.
  - intros s -> Hs Hne. unfold doMap, st_bind at 1, ReadFile. rewrite Hs.
    destruct (mapF f s) as [| kv kvs]; [done |]. reflexivity.
Qed.

Lemma doMap_correct_witness :
  exists fs', doMap "wc" 0 "in1" 3 example_mapF example_fs = Ok (tt, fs') /\
    wrote (reduceName "wc" 0) 0 3 (map_output 3 [mkKV "b" "1"; mkKV "a" "1"]) example_fs fs' /\
    doMap "wc" 0 "in3" 3 example_mapF example_fs = Fatal.
Proof.
  destruct (doMap_correct "wc" 0 "in1" 3 example_mapF example_fs) as (H1 & _ & _); [lia |].
  destruct (H1 ltac:(lia) "b a" eq_refl) as (fs' & He & Hw). exists fs'. split; [exact He |].
  split; [exact Hw |]. apply (doMap_correct "wc" 0 "in3" 3 example_mapF example_fs); [lia | reflexivity].
Defined.

(** The function ihash, the 32-bit FNV-1a hash without its top bit, is a non-negative
    number below 2^31 for every string, so that its remainder by the number of
    reduce tasks is always the index of a reduce task. *)
Theorem ihash_picks_a_task s nReduce :
  0 <= ihash s < 2 ^ 31 /\ (0 < nReduce -> exists r, go_rem (ihash s) nReduce = Ok r /\ 0 <= r < nReduce).
Proof.
  split; [apply ihash_bound |]. intros Hn. exists (bucket nReduce s). split; [| by apply bucket_bound].
  unfold go_rem. by rewrite decide_False by lia.
Qed.

(** Two keys of one byte each that are not UTF-8. *)
Definition bad_mapF (f s : string) : list KeyValue :=
  [mkKV (String (ascii_of_nat 254) "") "x"; mkKV (String (ascii_of_nat 255) "") "y"].
Definition concat_reduceF (k : string) (vs : list string) : string := foldr String.append "" vs.

(** JSON does not carry every key.  A job whose map function emits two
    different keys that are not valid UTF-8 ends with one key in its output, the
    replacement character, and the value of only one of the two pairs: the keys
    are sent to different reduce tasks by their hashes, become equal when they
    are encoded, and the merge keeps one of the two results. *)
Theorem json_loses_keys :
  exists fs', @Sequential insertion_GoSort "bad" ["in2"] 2 bad_mapF concat_reduceF example_fs = Ok (tt, fs') /\
    fs' !! outName "bad" = Some (Text (line (of_bytes [239; 191; 189]) "x")) /\
    Key <$> bad_mapF "in2" "a" = [String (ascii_of_nat 254) ""; String (ascii_of_nat 255) ""].
Proof. eexists. split; [vm_compute; reflexivity |]. split; vm_compute; reflexivity. Qed.
