(* ===== verification/MRSchedule.v ===== *)
(** * MapReduce: workers, schedule() and distributed jobs

    Models src/mapreduce/worker.go, schedule.go and the distributed part of
    master.go.  The state [Phase_state] of one phase of a distributed job is the
    master's list of workers, what schedule() keeps, the goroutines it started,
    the workers and the files.  A step is one section of one goroutine: a
    registration, an iteration of forwardRegistrations, a part of an iteration of
    schedule's loop, the begin and the end of a DoTask on a worker, or the return
    of a call.  The files a task writes appear at its end.  A worker in [ready] is
    a goroutine blocked on sending that name to registerChan. *)

From Stdlib Require Import Sorted.
From S2P Require Import Prelude MapReduce.

(** ** Workers *)

Record DoTaskArgs := mkDoTaskArgs {
  JobName : string;
  dt_File : string;
  Phase : jobPhase;
  TaskNumber : Z;
  NumOtherPhase : Z;
}.

Record Parallelism := mkParallelism { now : Z; max : Z }.

Record Worker := mkWorker {
  nRPC : Z;
  nTasks : Z;
  concurrent : Z;
}.

(** One iteration of the loop of RunWorker: a worker that has served its number
    of connections has closed its listener; a negative number never gets there. *)
Definition accept : ST Worker unit := fun wk =>
  if decide (nRPC wk = 0) then Blocked
  else Ok (tt, mkWorker (nRPC wk - 1) (nTasks wk) (concurrent wk)).

(** DoTask up to the task: the task is counted, and a second concurrent task ends
    the program.  (The sleep of a worker that is alone is not modelled.) *)
Definition DoTask_enter : ST (Worker * option Parallelism) unit :=
  modify (fun s => (mkWorker (nRPC s.1) (nTasks s.1 + 1) (concurrent s.1 + 1), s.2)) ;;;
  nc <- gets (fun s => concurrent s.1) ;;
  if decide (nc > 1) then lift Fatal else
  modify (fun s => (s.1,
    match s.2 with
    | Some p => Some (mkParallelism (now p + 1) (if decide (now p + 1 > max p) then now p + 1 else max p))
    | None => None
    end)).

(** DoTask after the task. *)
Definition DoTask_leave : ST (Worker * option Parallelism) unit :=
  modify (fun s => (mkWorker (nRPC s.1) (nTasks s.1) (concurrent s.1 - 1), s.2)) ;;;
  modify (fun s => (s.1,
    match s.2 with
    | Some p => Some (mkParallelism (now p - 1) (max p))
    | None => None
    end)).

(** The reply of Shutdown; the worker waits for one more connection. *)
Definition Shutdown : ST Worker Z :=
  n <- gets nTasks ;;
  modify (fun wk => mkWorker 1 (nTasks wk) (concurrent wk)) ;;;
  mret n.

(** The task itself. *)
Definition DoTask_body `{GoSort} (mapF : string -> string -> list KeyValue)
    (reduceF : string -> list string -> string) (arg : DoTaskArgs) : ST FS unit :=
  match Phase arg with
  | mapPhase => doMap (JobName arg) (TaskNumber arg) (dt_File arg) (NumOtherPhase arg) mapF
  | reducePhase => doReduce (JobName arg) (TaskNumber arg) (mergeName (JobName arg) (TaskNumber arg))
                     (NumOtherPhase arg) reduceF
  end.

(** ** schedule() *)

(** Where the goroutine that called schedule is. *)
Inductive MainPc :=
  | MLoop                    (* at the top of the loop *)
  | MRecv (task : Z)         (* at [worker := <- registerChan] *)
  | MWait                    (* at wg.Wait() *)
  | MReturned.

(** How far the worker is with a call. *)
Inductive CallPc := Sent | Running | Done.
#[export] Instance CallPc_eq_dec : EqDecision CallPc.
Proof. solve_decision. Defined.

Record Call := mkCall { c_worker : string; c_args : DoTaskArgs; c_pc : CallPc }.

Record Sched := mkSched {
  workers : list string;     (* mr.workers *)
  fwd_i : nat;               (* i of forwardRegistrations *)
  ready : list string;       (* goroutines at [registerChan <- ...] *)
  tasks : list Z;
  main : MainPc;
  flying : list Call;        (* goroutines inside call; the WaitGroup counts them *)
  lost : list Call;          (* calls that returned false; their workers may go on *)
  succeeded : list Z;        (* tasks of the calls that returned true *)
}.

(** A phase of a job: the arguments of schedule. *)
Record Job := mkJob {
  jobName : string;
  mapFiles : list string;
  nReduce : Z;
  phase : jobPhase;
}.

Definition ntasks (j : Job) : Z :=
  match phase j with mapPhase => len (mapFiles j) | reducePhase => nReduce j end.
Definition n_other (j : Job) : Z :=
  match phase j with mapPhase => nReduce j | reducePhase => len (mapFiles j) end.

(** The arguments schedule sends; mapFiles[task] may panic. *)
Definition doTaskArgs (j : Job) (task : Z) : res DoTaskArgs :=
  f ← idx (mapFiles j) task;
  Ok (mkDoTaskArgs (jobName j) f (phase j) task (n_other j)).

Definition sched_init (j : Job) (ws : list string) : Sched :=
  mkSched ws 0 [] (seqZ 0 (ntasks j)) MLoop [] [] [].

Inductive SEvent :=
  | SRegister (w : string)         (* the RPC Register *)
  | SForward                       (* an iteration of forwardRegistrations *)
  | SMain (k : nat)                (* the goroutine of schedule; k picks a sender *)
  | SReply (i : nat) (ok : bool)   (* the i-th call returns *)
  | SBegin (late : bool) (i : nat) (* DoTask begins for the i-th call, or lost call *)
  | SEnd (late : bool) (i : nat).  (* and ends *)

Definition remove_nth {A} (i : nat) (l : list A) : list A := take i l ++ drop (S i) l.

Definition calls_of (late : bool) (s : Sched) : list Call := if late then lost s else flying s.
Definition set_calls (late : bool) (cs : list Call) (s : Sched) : Sched :=
  if late
  then mkSched (workers s) (fwd_i s) (ready s) (tasks s) (main s) (flying s) cs (succeeded s)
  else mkSched (workers s) (fwd_i s) (ready s) (tasks s) (main s) cs (lost s) (succeeded s).

Definition Register (w : string) (s : Sched) : Sched :=
  mkSched (workers s ++ [w]) (fwd_i s) (ready s) (tasks s) (main s) (flying s) (lost s) (succeeded s).

(** One iteration; without a new worker it waits. *)
Definition forwardRegistrations : ST Sched unit := fun s =>
  match workers s !! fwd_i s with
  | Some w => Ok (tt, mkSched (workers s) (S (fwd_i s)) (ready s ++ [w]) (tasks s) (main s)
                        (flying s) (lost s) (succeeded s))
  | None => Blocked
  end.

(** The goroutine of schedule, from one of its points to the next. *)
Definition schedule_main (j : Job) (k : nat) : ST Sched unit := fun s =>
  match main s with
  | MLoop =>
      match tasks s with
      | [] => Ok (tt, mkSched (workers s) (fwd_i s) (ready s) [] MWait (flying s) (lost s) (succeeded s))
      | task :: rest =>
          Ok (tt, mkSched (workers s) (fwd_i s) (ready s) rest (MRecv task) (flying s) (lost s) (succeeded s))
      end
  | MRecv task =>
      match ready s !! k with
      | None => Blocked
      | Some worker =>
          args ← doTaskArgs j task;
          Ok (tt, mkSched (workers s) (fwd_i s) (remove_nth k (ready s)) (tasks s) MLoop
                    (flying s ++ [mkCall worker args Sent]) (lost s) (succeeded s))
      end
  | MWait =>
      match flying s with
      | [] => Ok (tt, mkSched (workers s) (fwd_i s) (ready s) (tasks s) MReturned [] (lost s) (succeeded s))
      | _ => Blocked
      end
  | MReturned => Blocked
  end.

(** The goroutine of a call, when the call returns.  net/rpc reports success only
    after the handler has returned. *)
Definition schedule_reply (i : nat) (ok : bool) : ST Sched unit := fun s =>
  match flying s !! i with
  | None => Blocked
  | Some c =>
      let rest := remove_nth i (flying s) in
      let task := TaskNumber (c_args c) in
      if ok then
        match c_pc c with
        | Done => Ok (tt, mkSched (workers s) (fwd_i s) (ready s ++ [c_worker c]) (tasks s) (main s)
                            rest (lost s) (succeeded s ++ [task]))
        | _ => Blocked
        end
      else Ok (tt, mkSched (workers s) (fwd_i s) (ready s) (tasks s ++ [task]) (main s)
                     rest (lost s ++ [c]) (succeeded s))
  end.

(** ** The whole phase *)

Record Phase_state := mkPhase {
  sched : Sched;
  procs : gmap string Worker;       (* the worker processes *)
  par : option Parallelism;
  files : FS;
}.

(** Runs a section of DoTask on worker [w]. *)
Definition on_worker {A} (w : string) (m : ST (Worker * option Parallelism) A) : ST Phase_state A := fun s =>
  match procs s !! w with
  | None => Blocked
  | Some wk =>
      r ← m (wk, par s);
      Ok (r.1, mkPhase (sched s) (<[w := r.2.1]> (procs s)) r.2.2 (files s))
  end.

Definition on_sched (m : ST Sched unit) : ST Phase_state unit := fun s =>
  r ← m (sched s);
  Ok (tt, mkPhase r.2 (procs s) (par s) (files s)).

Definition on_files (m : ST FS unit) : ST Phase_state unit := fun s =>
  r ← m (files s);
  Ok (tt, mkPhase (sched s) (procs s) (par s) r.2).

Definition advance (late : bool) (i : nat) (c : Call) (pc : CallPc) : ST Sched unit :=
  modify (fun s => set_calls late (<[i := mkCall (c_worker c) (c_args c) pc]> (calls_of late s)) s).

Section phase.
Context `{GoSort}.
Context (mapF : string -> string -> list KeyValue) (reduceF : string -> list string -> string).

Definition phase_exec (j : Job) (ev : SEvent) : ST Phase_state unit := fun s =>
  match ev with
  | SRegister w => on_sched (modify (Register w)) s
  | SForward => on_sched forwardRegistrations s
  | SMain k => on_sched (schedule_main j k) s
  | SReply i ok => on_sched (schedule_reply i ok) s
  | SBegin late i =>
      match calls_of late (sched s) !! i with
      | Some (mkCall w args Sent as c) =>
          (on_worker w (fun x => r ← accept x.1; DoTask_enter (r.2, x.2)) ;;;
           on_sched (advance late i c Running)) s
      | _ => Blocked
      end
  | SEnd late i =>
      match calls_of late (sched s) !! i with
      | Some (mkCall w args Running as c) =>
          (on_files (DoTask_body mapF reduceF args) ;;;
           on_worker w DoTask_leave ;;;
           on_sched (advance late i c Done)) s
      | _ => Blocked
      end
  end.

Fixpoint phase_run (j : Job) (evs : list SEvent) : ST Phase_state unit :=
  match evs with
  | [] => mret tt
  | ev :: evs => phase_exec j ev ;;; phase_run j evs
  end.

(** schedule(), for one order of its steps: it returns when its goroutine has
    returned. *)
Definition schedule (j : Job) (evs : list SEvent) : ST Phase_state unit := fun s =>
  r ← phase_run j evs (mkPhase (sched_init j (workers (sched s))) (procs s) (par s) (files s));
  match main (sched r.2) with MReturned => Ok r | _ => Blocked end.

(** [for _, w := range mr.workers] of killWorkers; [reach w] says whether the call
    gets through to the worker and back. *)
Fixpoint killLoop (reach : string -> bool) (ws : list string) (procs : gmap string Worker) (ntasks : list Z) :
    list Z * gmap string Worker :=
  match ws with
  | [] => (ntasks, procs)
  | w :: ws =>
      match (if reach w then match procs !! w with
                             | Some wk => (accept ;;; Shutdown) wk
                             | None => Blocked
                             end else Blocked) with
      | Ok (n, wk') => killLoop reach ws (<[w := wk']> procs) (ntasks ++ [n])
      | _ => killLoop reach ws procs ntasks
      end
  end.

Definition killWorkers (reach : string -> bool) : ST Phase_state (list Z) := fun s =>
  let r := killLoop reach (workers (sched s)) (procs s) [] in
  Ok (r.1, mkPhase (sched s) r.2 (par s) (files s)).

(** Master.run as Distributed calls it; the steps of the two phases are given.
    The result is mr.stats. *)
Definition Distributed (job : string) (fs : list string) (nReduce : Z)
    (evs : jobPhase -> list SEvent) (reach : string -> bool) : ST Phase_state (list Z) :=
  schedule (mkJob job fs nReduce mapPhase) (evs mapPhase) ;;;
  schedule (mkJob job fs nReduce reducePhase) (evs reducePhase) ;;;
  stats <- killWorkers reach ;;
  on_files (merge job nReduce) ;;;
  mret stats.

End phase.

(** ** The scheduler alone

    What a step does to [Sched] does not depend on the workers and files. *)

Definition sched_event (j : Job) (ev : SEvent) : ST Sched unit := fun s =>
  match ev with
  | SRegister w => Ok (tt, Register w s)
  | SForward => forwardRegistrations s
  | SMain k => schedule_main j k s
  | SReply i ok => schedule_reply i ok s
  | SBegin late i =>
      match calls_of late s !! i with
      | Some (mkCall w args Sent as c) => advance late i c Running s
      | _ => Blocked
      end
  | SEnd late i =>
      match calls_of late s !! i with
      | Some (mkCall w args Running as c) => advance late i c Done s
      | _ => Blocked
      end
  end.

Lemma on_sched_Ok m s r :
  on_sched m s = Ok r <->
  exists u x, m (sched s) = Ok (u, x) /\ r = (tt, mkPhase x (procs s) (par s) (files s)).
Proof.
  unfold on_sched. rewrite res_bind_Ok. split.
  - intros ([u x] & -> & [= <-]). eauto.
  - intros (u & x & -> & ->). by exists (u, x).
Qed.

Lemma on_worker_Ok {A} w (m : ST (Worker * option Parallelism) A) s r :
  on_worker w m s = Ok r <->
  exists wk a wk' p', procs s !! w = Some wk /\ m (wk, par s) = Ok (a, (wk', p')) /\
    r = (a, mkPhase (sched s) (<[w := wk']> (procs s)) p' (files s)).
Proof.
  unfold on_worker. destruct (procs s !! w) as [wk|]; [| naive_solver]. rewrite res_bind_Ok. split.
  - intros ([a [wk' p']] & Hm & [= <-]). eauto 10.
  - intros (? & a & wk' & p' & [= <-] & Hm & ->). by exists (a, (wk', p')).
Qed.

Lemma on_files_Ok m s r :
  on_files m s = Ok r <->
  exists u x, m (files s) = Ok (u, x) /\ r = (tt, mkPhase (sched s) (procs s) (par s) x).
Proof.
  unfold on_files. rewrite res_bind_Ok. split.
  - intros ([u x] & -> & [= <-]). eauto.
  - intros (u & x & -> & ->). by exists (u, x).
Qed.

Lemma phase_exec_sched `{GoSort} mapF reduceF j ev s s' :
  phase_exec mapF reduceF j ev s = Ok (tt, s') -> sched_event j ev (sched s) = Ok (tt, sched s').
Proof.
  destruct ev as [w | | k | i ok | late i | late i]; cbn [phase_exec sched_event].
  1-4: intros ([] & x & Hx & [= ->])%on_sched_Ok; exact Hx.
  - destruct (calls_of late (sched s) !! i) as [[w args []]|]; try done.
    intros ([] & s1 & Hw & ([] & x & Hx & [= ->])%on_sched_Ok)%st_bind_Ok.
    apply on_worker_Ok in Hw as (wk & [] & wk' & p' & _ & _ & [= ->]). exact Hx.
  - destruct (calls_of late (sched s) !! i) as [[w args []]|]; try done.
    intros ([] & s1 & Hf & ([] & s2 & Hw & ([] & x & Hx & [= ->])%on_sched_Ok)%st_bind_Ok)%st_bind_Ok.
    apply on_files_Ok in Hf as ([] & f' & _ & [= ->]).
    apply on_worker_Ok in Hw as (wk & [] & wk' & p' & _ & _ & [= ->]). exact Hx.
Qed.

Fixpoint sched_events (j : Job) (evs : list SEvent) : ST Sched unit :=
  match evs with
  | [] => mret tt
  | ev :: evs => sched_event j ev ;;; sched_events j evs
  end.

Lemma phase_run_sched `{GoSort} mapF reduceF j evs s s' :
  phase_run mapF reduceF j evs s = Ok (tt, s') -> sched_events j evs (sched s) = Ok (tt, sched s').
Proof.
  revert s. induction evs as [| ev evs IH]; intros s; cbn; [by intros [= <-] |].
  intros ([] & s1 & H1 & H2)%st_bind_Ok. apply st_bind_Ok. exists tt, (sched s1).
  split; [by apply phase_exec_sched in H1 | by apply IH].
Qed.

Lemma sched_events_inv j (P : Sched -> Prop) :
  (forall ev s s', P s -> sched_event j ev s = Ok (tt, s') -> P s') ->
  forall evs s s', P s -> sched_events j evs s = Ok (tt, s') -> P s'.
Proof.
  intros Hstep. induction evs as [| ev evs IH]; intros s s' HP; cbn; [by intros [= <-] |].
  intros ([] & s1 & H1 & H2)%st_bind_Ok. eauto.
Qed.

(** ** Every task is somewhere, once *)

Definition task_of (c : Call) : Z := TaskNumber (c_args c).
Definition in_hand (s : Sched) : list Z := match main s with MRecv t => [t] | _ => [] end.
Definition places (s : Sched) : list Z := tasks s ++ in_hand s ++ (task_of <$> flying s) ++ succeeded s.

Lemma remove_nth_perm {A} (l : list A) i x : l !! i = Some x -> l ≡ₚ x :: remove_nth i l.
Proof.
  intros Hi. unfold remove_nth. rewrite <- (take_drop_middle l i x Hi) at 1. symmetry. apply Permutation_middle.
Qed.

Lemma fmap_insert_same {A B} (f : A -> B) (l : list A) i x y :
  l !! i = Some x -> f y = f x -> f <$> <[i := y]> l = f <$> l.
Proof.
  intros Hi Hf. rewrite list_fmap_insert, Hf. apply list_insert_id. by rewrite list_lookup_fmap, Hi.
Qed.

Lemma doTaskArgs_Ok j t args : doTaskArgs j t = Ok args -> TaskNumber args = t /\ 0 <= t < len (mapFiles j).
Proof. unfold doTaskArgs. rewrite res_bind_Ok. intros (f & Hf%idx_Ok_lt & [= <-]). done. Qed.

(** The steps of the scheduler as rules. *)
Inductive sstep (j : Job) (s : Sched) : SEvent -> Sched -> Prop :=
  | st_register w : sstep j s (SRegister w) (Register w s)
  | st_forward w : workers s !! fwd_i s = Some w ->
      sstep j s SForward (mkSched (workers s) (S (fwd_i s)) (ready s ++ [w]) (tasks s) (main s)
        (flying s) (lost s) (succeeded s))
  | st_exit k : main s = MLoop -> tasks s = [] ->
      sstep j s (SMain k)
        (mkSched (workers s) (fwd_i s) (ready s) [] MWait (flying s) (lost s) (succeeded s))
  | st_take k task rest : main s = MLoop -> tasks s = task :: rest ->
      sstep j s (SMain k)
        (mkSched (workers s) (fwd_i s) (ready s) rest (MRecv task) (flying s) (lost s) (succeeded s))
  | st_send k task w args : main s = MRecv task -> ready s !! k = Some w -> doTaskArgs j task = Ok args ->
      sstep j s (SMain k)
        (mkSched (workers s) (fwd_i s) (remove_nth k (ready s)) (tasks s) MLoop
          (flying s ++ [mkCall w args Sent]) (lost s) (succeeded s))
  | st_return k : main s = MWait -> flying s = [] ->
      sstep j s (SMain k)
        (mkSched (workers s) (fwd_i s) (ready s) (tasks s) MReturned [] (lost s) (succeeded s))
  | st_succeed i c : flying s !! i = Some c -> c_pc c = Done ->
      sstep j s (SReply i true)
        (mkSched (workers s) (fwd_i s) (ready s ++ [c_worker c]) (tasks s) (main s)
          (remove_nth i (flying s)) (lost s) (succeeded s ++ [task_of c]))
  | st_fail i c : flying s !! i = Some c ->
      sstep j s (SReply i false)
        (mkSched (workers s) (fwd_i s) (ready s) (tasks s ++ [task_of c]) (main s)
          (remove_nth i (flying s)) (lost s ++ [c]) (succeeded s))
  | st_work late i w args (b : bool) :
      calls_of late s !! i = Some (mkCall w args (if b then Running else Sent)) ->
      sstep j s (if b then SEnd late i else SBegin late i)
        (set_calls late (<[i := mkCall w args (if b then Done else Running)]> (calls_of late s)) s).

Lemma sched_event_sstep j ev s s' : sched_event j ev s = Ok (tt, s') -> sstep j s ev s'.
Proof.
  destruct ev as [w | | k | i ok | late i | late i]; cbn.
  - intros [= <-]. constructor.
  - unfold forwardRegistrations. destruct (_ !! _) eqn:?; [| done]. intros [= <-]. by constructor.
  - unfold schedule_main. destruct (main s) as [| t | |] eqn:?; [| | | done].
    + destruct (tasks s) as [| t rest] eqn:?; intros [= <-]; by econstructor.
    + destruct (ready s !! k) eqn:?; [| done]. intros (args & Ha & [= <-])%res_bind_Ok. by econstructor.
    + destruct (flying s) eqn:?; [| done]. intros [= <-]. by constructor.
  - unfold schedule_reply. destruct (flying s !! i) as [c|] eqn:Hi; [| done].
    destruct ok; [destruct (c_pc c) eqn:?; try done |]; intros [= <-]; by constructor.
  - destruct (calls_of late s !! i) as [[w args []]|] eqn:Hi; try done. intros [= <-].
    by apply (st_work j s late i w args false).
  - destruct (calls_of late s !! i) as [[w args []]|] eqn:Hi; try done. intros [= <-].
    by apply (st_work j s late i w args true).
Qed.

(** The begin or the end of a DoTask keeps what the calls are about. *)
Lemma set_calls_fmap {B} (f : Call -> B) late i c c' s :
  calls_of late s !! i = Some c -> f c' = f c ->
  f <$> flying (set_calls late (<[i := c']> (calls_of late s)) s) = f <$> flying s /\
  f <$> lost (set_calls late (<[i := c']> (calls_of late s)) s) = f <$> lost s.
Proof.
  intros Hi Hf. destruct late; cbn in *; split; try done;
    by apply (fmap_insert_same _ _ _ c).
Qed.

Lemma set_calls_other late cs s :
  workers (set_calls late cs s) = workers s /\ fwd_i (set_calls late cs s) = fwd_i s /\
  ready (set_calls late cs s) = ready s /\ tasks (set_calls late cs s) = tasks s /\
  main (set_calls late cs s) = main s /\ succeeded (set_calls late cs s) = succeeded s.
Proof. by destruct late. Qed.

Lemma sstep_places j s ev s' : sstep j s ev s' -> places s' ≡ₚ places s.
Proof.
  unfold places, in_hand.
  destruct 1 as [| | k Em Et | k t rest Em Et | k t w args Em Hw Ha | k Em Ef | i c Hi Hd | i c Hi
    | late i w args b Hi]; cbn; try rewrite Em; try rewrite Et; try done.
  - by rewrite <- Permutation_middle.
  - apply doTaskArgs_Ok in Ha as [Ht _]. rewrite fmap_app. cbn. unfold task_of at 2. cbn. rewrite Ht.
    apply Permutation_app_head. rewrite <- app_assoc. by rewrite Permutation_middle.
  - by rewrite Ef.
  - apply remove_nth_perm, (fmap_Permutation task_of) in Hi. rewrite Hi. cbn.
    apply Permutation_app_head, Permutation_app_head. rewrite app_assoc. by rewrite <- Permutation_cons_append.
  - apply remove_nth_perm, (fmap_Permutation task_of) in Hi. rewrite Hi. cbn.
    rewrite <- app_assoc. apply Permutation_app_head. cbn. by rewrite Permutation_middle.
  - destruct (set_calls_fmap task_of late i _ (mkCall w args (if b then Done else Running)) s Hi eq_refl) as [-> _].
    match goal with |- context [set_calls late ?cs s] =>
      destruct (set_calls_other late cs s) as (_ & _ & _ & -> & -> & ->) end. done.
Qed.

Lemma sched_events_places j ws evs s' :
  sched_events j evs (sched_init j ws) = Ok (tt, s') -> places s' ≡ₚ seqZ 0 (ntasks j).
Proof.
  apply (sched_events_inv j (fun s' => places s' ≡ₚ seqZ 0 (ntasks j))).
  - intros ev s1 s2 Hp He. by rewrite (sstep_places _ _ _ _ (sched_event_sstep _ _ _ _ He)).
  - unfold places. cbn. by rewrite app_nil_r.
Qed.

(** ** Calls carry the arguments of their task *)

Definition is_task (j : Job) (t : Z) : Prop := 0 <= t < ntasks j.
Definition called (j : Job) (c : Call) : Prop :=
  doTaskArgs j (task_of c) = Ok (c_args c) /\ is_task j (task_of c).
Definition waiting (m : MainPc) : bool := match m with MWait | MReturned => true | _ => false end.
Definition in_range (j : Job) (t : Z) : Prop := 0 <= t < len (mapFiles j).

Record calls_ok (j : Job) (s : Sched) : Prop := {
  co_flying : Forall (called j) (flying s);
  co_lost : Forall (called j) (lost s);
  co_succeeded : Forall (in_range j) (succeeded s);
  co_tasks : waiting (main s) = true -> Forall (in_range j) (tasks s);
  co_queued : Forall (is_task j) (tasks s ++ in_hand s);
  co_returned : main s = MReturned -> flying s = [];
}.

Lemma called_in_range j c : called j c -> in_range j (task_of c).
Proof. intros [Hc%doTaskArgs_Ok _]. apply Hc. Qed.

Lemma Forall_remove_nth {A} (P : A -> Prop) i l : Forall P l -> Forall P (remove_nth i l).
Proof. intros Hl. unfold remove_nth. apply Forall_app; split; [by apply Forall_take | by apply Forall_drop]. Qed.

Lemma sstep_calls_ok j s ev s' : sstep j s ev s' -> calls_ok j s -> calls_ok j s'.
Proof.
  intros Hs [Hf Hl Hsu Ht Hq Hr]. unfold in_hand in Hq.
  destruct Hs as [| | k Em Et | k t rest Em Et | k t w args Em Hw Ha | k Em Ef | i c Hi Hd | i c Hi
    | late i w args b Hi].
  1-3: split; cbn; try done; intros; congruence.
  - rewrite Em, Et, app_nil_r in Hq. apply Forall_cons in Hq as [? ?]. split; cbn; try done.
    apply Forall_app. split; [done |]. by apply Forall_singleton.
  - rewrite Em in Hq. apply Forall_app in Hq as [Hq Ht']. rewrite Forall_singleton in Ht'. split; cbn; try done.
    + apply Forall_app. split; [done |]. apply Forall_singleton.
      unfold called, task_of. cbn. destruct (doTaskArgs_Ok _ _ _ Ha) as [-> _]. done.
    + by rewrite app_nil_r.
  - rewrite Em in Hq, Ht. split; cbn; done.
  - pose proof (Forall_lookup_1 _ _ _ _ Hf Hi) as Hc%called_in_range. split; cbn; try done.
    + by apply Forall_remove_nth.
    + apply Forall_app. split; [done |]. by apply Forall_singleton.
    + intros Em. by rewrite Hr in Hi.
  - pose proof (Forall_lookup_1 _ _ _ _ Hf Hi) as Hc. split; cbn; try done.
    + by apply Forall_remove_nth.
    + apply Forall_app. split; [done |]. by apply Forall_singleton.
    + intros Hm. apply Forall_app. split; [by apply Ht |]. by apply Forall_singleton, called_in_range.
    + rewrite !Forall_app in *. rewrite Forall_singleton. destruct Hq. split; [split; [done | apply Hc] | done].
    + intros Em. by rewrite Hr in Hi.
  - set (c' := mkCall w args (if b then Done else Running)).
    assert (Hc : called j c') by (destruct late; cbn in Hi; [exact (Forall_lookup_1 _ _ _ _ Hl Hi) |
      exact (Forall_lookup_1 _ _ _ _ Hf Hi)]).
    split; destruct late; cbn; try done; try by apply Forall_insert.
    intros Em. cbn in Hi. by rewrite Hr in Hi.
Qed.

Lemma calls_ok_init j ws : calls_ok j (sched_init j ws).
Proof.
  split; cbn; try done. rewrite app_nil_r. apply Forall_forall. by intros t ?%elem_of_seqZ.
Qed.

Lemma sched_events_ok j ws evs s' :
  sched_events j evs (sched_init j ws) = Ok (tt, s') -> calls_ok j s'.
Proof.
  apply sched_events_inv; [| apply calls_ok_init].
  intros ev s1 s2 Hok He. by eapply sstep_calls_ok; [apply sched_event_sstep |].
Qed.

(** ** Failures before the loop ended are retried *)

Definition late_failure (s : Sched) (ev : SEvent) : bool :=
  match ev with SReply _ false => waiting (main s) | _ => false end.

(** No call of the run fails after the loop found the queue empty. *)
Fixpoint no_late_failure (j : Job) (evs : list SEvent) (s : Sched) : bool :=
  match evs with
  | [] => true
  | ev :: evs =>
      negb (late_failure s ev) &&
      match sched_event j ev s with Ok (_, s') => no_late_failure j evs s' | _ => true end
  end.

Definition drained (s : Sched) : Prop := waiting (main s) = true -> tasks s = [].

Lemma sstep_drained j s ev s' : sstep j s ev s' -> late_failure s ev = false -> drained s -> drained s'.
Proof.
  unfold drained. intros Hs Hl Hd.
  destruct Hs as [| | k Em Et | k t rest Em Et | k t w args Em Hw Ha | k Em Ef | i c Hi Hp | i c Hi
    | late i w args b Hi]; cbn in *; try done.
  - rewrite Em in Hd. auto.
  - by rewrite Hl.
  - by destruct late.
Qed.

Lemma sched_events_drained j evs s s' :
  sched_events j evs s = Ok (tt, s') -> no_late_failure j evs s = true -> drained s -> drained s'.
Proof.
  revert s. induction evs as [| ev evs IH]; intros s; cbn; [by intros [= <-] |].
  intros ([] & s1 & H1 & H2)%st_bind_Ok. rewrite H1. intros [Hl Hno]%andb_true_iff Hd.
  apply (IH s1); [done.. |]. eapply sstep_drained; [by apply sched_event_sstep | | done].
  by apply negb_true_iff.
Qed.

(** The tasks of a schedule that returned. *)
Lemma returned_places j ws evs s' :
  sched_events j evs (sched_init j ws) = Ok (tt, s') -> main s' = MReturned ->
  tasks s' ++ succeeded s' ≡ₚ seqZ 0 (ntasks j).
Proof.
  intros Hs Hm. pose proof (sched_events_places _ _ _ _ Hs) as Hp.
  pose proof (co_returned _ _ (sched_events_ok _ _ _ _ Hs) Hm) as Hf.
  unfold places, in_hand in Hp. by rewrite Hm, Hf in Hp.
Qed.

Lemma returned_succeeded j ws evs s' :
  sched_events j evs (sched_init j ws) = Ok (tt, s') -> main s' = MReturned ->
  no_late_failure j evs (sched_init j ws) = true -> succeeded s' ≡ₚ seqZ 0 (ntasks j).
Proof.
  intros Hs Hm Hno. pose proof (returned_places _ _ _ _ Hs Hm) as Hp.
  rewrite (sched_events_drained _ _ _ _ Hs Hno) in Hp; [done | done |]. by rewrite Hm.
Qed.

(** ** Workers *)

(** The workers that are idle, and those that have a call. *)
Definition pool (s : Sched) : list string := ready s ++ (c_worker <$> flying s) ++ (c_worker <$> lost s).

Definition pool_ok (s : Sched) : Prop :=
  pool s ≡ₚ take (fwd_i s) (workers s) /\ (fwd_i s <= length (workers s))%nat.

Lemma sstep_pool j s ev s' : sstep j s ev s' -> pool_ok s -> pool_ok s'.
Proof.
  unfold pool_ok, pool. intros Hs [Hp Hi].
  destruct Hs as [w | w Hw | k Em Et | k t rest Em Et | k t w args Em Hw Ha | k Em Ef | i c Hc Hd | i c Hc
    | late i w args b Hc]; cbn; try done.
  - rewrite take_app_le, length_app by done. split; [done | lia].
  - rewrite (take_S_r _ _ _ Hw). split; [| by apply lookup_lt_Some in Hw].
    rewrite <- Hp, <- app_assoc. cbn. rewrite <- Permutation_middle. by rewrite Permutation_cons_append.
  - split; [| done]. rewrite <- Hp. etrans; [| apply Permutation_app_tail; symmetry; exact (remove_nth_perm _ _ _ Hw)].
    rewrite fmap_app, <- app_assoc. cbn. by rewrite <- !Permutation_middle.
  - by rewrite Ef in Hp.
  - split; [| done]. rewrite <- Hp. apply remove_nth_perm, (fmap_Permutation c_worker) in Hc. rewrite Hc.
    cbn. rewrite <- app_assoc. done.
  - split; [| done]. rewrite <- Hp. apply remove_nth_perm, (fmap_Permutation c_worker) in Hc. rewrite Hc.
    cbn. rewrite fmap_app. cbn. apply Permutation_app_head. rewrite app_assoc.
    by rewrite <- Permutation_cons_append.
  - destruct (set_calls_fmap c_worker late i _ (mkCall w args (if b then Done else Running)) s Hc eq_refl)
      as [-> ->].
    match goal with |- context [set_calls late ?cs s] =>
      destruct (set_calls_other late cs s) as (-> & -> & -> & _) end. done.
Qed.

(** ** How many DoTasks run on a worker *)

Definition weight (w : string) (c : Call) : Z :=
  if decide (c_worker c = w /\ c_pc c = Running) then 1 else 0.
#[global] Arguments weight : simpl never.
Definition running (w : string) (l : list Call) : Z := foldr (fun c n => weight w c + n) 0 l.
#[global] Arguments running : simpl never.

#[export] Instance running_proper w : Proper ((≡ₚ) ==> eq) (running w).
Proof. induction 1; unfold running in *; cbn in *; lia. Qed.

Lemma running_nil w : running w [] = 0.
Proof. done. Qed.

Lemma running_cons w c l : running w (c :: l) = weight w c + running w l.
Proof. done. Qed.

Lemma running_app w l k : running w (l ++ k) = running w l + running w k.
Proof. induction l as [| c l IH]; [done |]. cbn [app]. rewrite !running_cons. lia. Qed.

Lemma running_remove w l i c : l !! i = Some c -> running w (remove_nth i l) = running w l - weight w c.
Proof. intros Hi%remove_nth_perm. pose proof (running_proper w _ _ Hi) as Hr. rewrite running_cons in Hr. lia. Qed.

Lemma running_insert w l i c c' :
  l !! i = Some c -> running w (<[i := c']> l) = running w l - weight w c + weight w c'.
Proof.
  intros Hi. rewrite insert_take_drop by by eapply lookup_lt_Some.
  rewrite <- (take_drop_middle l i c Hi) at 3. rewrite !running_app, !running_cons. lia.
Qed.

(** At most one call per worker means at most one running DoTask. *)
Lemma running_absent w l : w ∉ c_worker <$> l -> running w l = 0.
Proof.
  induction l as [| c l IH]; [done |]. rewrite running_cons. intros [Hc Hl]%not_elem_of_cons. rewrite IH by done.
  unfold weight. rewrite decide_False; [done |]. naive_solver.
Qed.

Lemma running_le_1 w l : NoDup (c_worker <$> l) -> 0 <= running w l <= 1.
Proof.
  induction l as [| c l IH]; [by cbv |]. rewrite running_cons. intros [Hc Hl]%NoDup_cons. unfold weight. case_decide as Hw.
  - destruct Hw as [<- _]. rewrite running_absent by done. lia.
  - specialize (IH Hl). lia.
Qed.

Lemma running_sent w args l i :
  NoDup (c_worker <$> l) -> l !! i = Some (mkCall w args Sent) -> running w l = 0.
Proof.
  intros Hnd Hi%remove_nth_perm. pose proof (running_proper w _ _ Hi) as Hr. rewrite running_cons in Hr.
  apply (fmap_Permutation c_worker) in Hi. rewrite Hi in Hnd. apply NoDup_cons in Hnd as [Hw _].
  rewrite (running_absent w (remove_nth i l) Hw) in Hr. rewrite Hr. unfold weight.
  rewrite decide_False; [done |]. cbn. naive_solver.
Qed.

(** The counter of every worker process is right. *)
Definition counted (s : Phase_state) : Prop :=
  forall w wk, procs s !! w = Some wk ->
    concurrent wk = running w (flying (sched s)) + running w (lost (sched s)).

Lemma sched_only_counted j s ev x :
  sstep j (sched s) ev x -> (forall late i, ev <> SBegin late i /\ ev <> SEnd late i) ->
  counted s -> counted (mkPhase x (procs s) (par s) (files s)).
Proof.
  unfold counted. intros Hs Hev Hc w wk Hw. cbn. rewrite (Hc w wk Hw).
  destruct Hs as [w' | w' Hw' | k Em Et | k t rest Em Et | k t w' args Em Hw' Ha | k Em Ef | i c Hi Hd | i c Hi
    | late i w' args b Hi]; cbn; try done.
  - rewrite running_app, running_cons, running_nil. unfold weight. cbn. rewrite decide_False; [lia |]. naive_solver.
  - by rewrite Ef.
  - rewrite (running_remove _ _ _ _ Hi). unfold weight. rewrite decide_False; [lia |]. rewrite Hd. naive_solver.
  - rewrite (running_remove _ _ _ _ Hi), running_app, running_cons, running_nil. lia.
  - exfalso. destruct (Hev late i). by destruct b.
Qed.

(** The begin or the end of a DoTask, with the worker's own counter. *)
Lemma work_counted s late i w args (b : bool) wk wk' p f :
  calls_of late (sched s) !! i = Some (mkCall w args (if b then Running else Sent)) ->
  procs s !! w = Some wk -> concurrent wk' = concurrent wk + (if b then -1 else 1) ->
  counted s ->
  counted (mkPhase (set_calls late (<[i := mkCall w args (if b then Done else Running)]>
    (calls_of late (sched s))) (sched s)) (<[w := wk']> (procs s)) p f).
Proof.
  intros Hi Hw Hk Hc v vk Hv. cbn in *.
  assert (Hd : running v (<[i := mkCall w args (if b then Done else Running)]> (calls_of late (sched s)))
    = running v (calls_of late (sched s)) + (if decide (w = v) then if b then -1 else 1 else 0)).
  { rewrite (running_insert _ _ _ _ _ Hi). unfold weight. cbn.
    destruct b; repeat case_decide; naive_solver lia. }
  destruct (decide (w = v)) as [-> | Hne].
  - rewrite lookup_insert_eq in Hv. injection Hv as <-. specialize (Hc v wk Hw).
    destruct late; cbn in *; lia.
  - rewrite lookup_insert_ne in Hv by done. specialize (Hc v vk Hv). destruct late; cbn in *; lia.
Qed.

Section phase_invariants.
Context `{GoSort}.
Context (mapF : string -> string -> list KeyValue) (reduceF : string -> list string -> string).

Lemma phase_run_inv j (P : Phase_state -> Prop) :
  (forall ev s s', P s -> phase_exec mapF reduceF j ev s = Ok (tt, s') -> P s') ->
  forall evs s s', P s -> phase_run mapF reduceF j evs s = Ok (tt, s') -> P s'.
Proof.
  intros Hstep. induction evs as [| ev evs IH]; intros s s' HP; cbn; [by intros [= <-] |].
  intros ([] & s1 & H1 & H2)%st_bind_Ok. eauto.
Qed.

Lemma DoTask_enter_Ok x p u wk' p' :
  DoTask_enter (x, p) = Ok (u, (wk', p')) -> concurrent wk' = concurrent x + 1 /\ nTasks wk' = nTasks x + 1.
Proof. unfold DoTask_enter, st_bind, modify, gets, lift. cbn. case_decide; [done |]. by intros [= _ <- _]. Qed.

Lemma phase_exec_counted j ev s s' :
  counted s -> phase_exec mapF reduceF j ev s = Ok (tt, s') -> counted s'.
Proof.
  intros Hc He. pose proof (sched_event_sstep _ _ _ _ (phase_exec_sched _ _ _ _ _ _ He)) as Hs.
  destruct ev as [w | | k | i ok | late i | late i]; cbn [phase_exec] in He.
  1-4: apply on_sched_Ok in He as ([] & x & Hx & [= ->]); by eapply sched_only_counted.
  - destruct (calls_of late (sched s) !! i) as [[w args []]|] eqn:Hi; try done.
    apply st_bind_Ok in He as ([] & s1 & Hw & ([] & x & [= <-] & [= ->])%on_sched_Ok).
    apply on_worker_Ok in Hw as (wk & [] & wk' & p' & Hw & Hm & [= ->]). cbn.
    apply (work_counted s late i w args false wk); [done.. | | done].
    apply res_bind_Ok in Hm as ([[] wk0] & Ha & Hm%DoTask_enter_Ok). cbn in Ha, Hm. unfold accept in Ha.
    case_decide; [done |]. injection Ha as <-. cbn in Hm. lia.
  - destruct (calls_of late (sched s) !! i) as [[w args []]|] eqn:Hi; try done.
    apply st_bind_Ok in He as ([] & s1 & Hf & He). apply on_files_Ok in Hf as (u & f' & _ & [= ->]).
    apply st_bind_Ok in He as ([] & s2 & Hw & ([] & x & [= <-] & [= ->])%on_sched_Ok).
    apply on_worker_Ok in Hw as (wk & [] & wk' & p' & Hw & [= <- _] & [= ->]). cbn in *.
    apply (work_counted s late i w args true wk); [done.. | cbn; lia | done].
Qed.

Definition phase_init (j : Job) (ws : list string) (procs : gmap string Worker) (par : option Parallelism)
    (fs : FS) : Phase_state := mkPhase (sched_init j ws) procs par fs.

Definition idle (procs : gmap string Worker) : Prop := forall w wk, procs !! w = Some wk -> concurrent wk = 0.

Lemma phase_run_counted j ws ps p fs evs s :
  idle ps -> phase_run mapF reduceF j evs (phase_init j ws ps p fs) = Ok (tt, s) -> counted s.
Proof.
  intros Hi. apply phase_run_inv; [intros ???; apply phase_exec_counted |].
  intros w wk Hw. cbn. by rewrite (Hi w wk Hw).
Qed.

Lemma phase_run_pool j ws ps p fs evs s :
  phase_run mapF reduceF j evs (phase_init j ws ps p fs) = Ok (tt, s) -> pool_ok (sched s).
Proof.
  intros Hs%phase_run_sched. revert Hs. apply sched_events_inv.
  - intros ev s1 s2 Hp He. by eapply sstep_pool; [apply sched_event_sstep |].
  - split; [done | cbn; lia].
Qed.

Lemma pool_nodup s : pool_ok s -> NoDup (workers s) -> NoDup (pool s).
Proof.
  intros [-> _] Hnd. rewrite <- (take_drop (fwd_i s) (workers s)) in Hnd. by apply NoDup_app in Hnd as [? _].
Qed.

End phase_invariants.

(** ** What the tasks leave in the files

    A phase is described by what holds of the files throughout ([frame]) and by
    what a task leaves there ([written]); tasks keep both, in any order and when
    they are executed again. *)

Record task_spec `{GoSort} (mapF : string -> string -> list KeyValue)
    (reduceF : string -> list string -> string) (j : Job)
    (frame : FS -> Prop) (written : FS -> Z -> Prop) : Prop := {
  ts_exec : forall t args fs, doTaskArgs j t = Ok args -> is_task j t -> frame fs ->
    exists fs', DoTask_body mapF reduceF args fs = Ok (tt, fs') /\ frame fs' /\ written fs' t /\
      forall t', is_task j t' -> written fs t' -> written fs' t';
}.

Section task_phase.
Context `{GoSort} {mapF : string -> string -> list KeyValue} {reduceF : string -> list string -> string}.
Context {j : Job} {frame : FS -> Prop} {written : FS -> Z -> Prop}.
Hypothesis Hspec : task_spec mapF reduceF j frame written.

Record phase_ok (s : Phase_state) : Prop := {
  po_calls : calls_ok j (sched s);
  po_frame : frame (files s);
  po_done : forall c, c ∈ flying (sched s) ++ lost (sched s) -> c_pc c = Done -> written (files s) (task_of c);
  po_succeeded : forall t, t ∈ succeeded (sched s) -> is_task j t /\ written (files s) t;
}.

Lemma sched_only_written s ev x :
  sstep j (sched s) ev x -> (forall late i, ev <> SEnd late i) ->
  phase_ok s -> forall p q, phase_ok (mkPhase x p q (files s)).
Proof.
  intros Hs Hev [Hc Hf Hd Hsu] p q. pose proof (sstep_calls_ok _ _ _ _ Hs Hc) as Hc'.
  split; cbn; [done | done | |].
  - destruct Hs as [| | | | k t w args Em Hw Ha | k Em Ef | i c Hi Hp | i c Hi | late i w args b Hi]; cbn; try done.
    + intros c'. rewrite !elem_of_app, list_elem_of_singleton. intros [[? | ->] | ?]; [| done |];
        apply Hd; rewrite elem_of_app; tauto.
    + intros c' Hin. apply Hd. apply elem_of_app. tauto.
    + intros c'. rewrite elem_of_app. intros [Hin | ?]; apply Hd; apply elem_of_app; [left | tauto].
      rewrite (remove_nth_perm _ _ _ Hi). by right.
    + intros c'. rewrite !elem_of_app, list_elem_of_singleton. intros [Hin | [? | ->]]; apply Hd; apply elem_of_app.
      * left. rewrite (remove_nth_perm _ _ _ Hi). by right.
      * by right.
      * left. by eapply list_elem_of_lookup_2.
    + destruct b; [by destruct (Hev late i) |]. intros c'.
      destruct late; cbn in *; rewrite elem_of_app; intros [Hin | Hin];
        try (apply Hd; rewrite elem_of_app; tauto);
        apply list_elem_of_lookup in Hin as [k Hk];
        apply list_lookup_insert_Some in Hk as [(-> & <- & _) | (_ & Hk)]; try done;
        apply list_elem_of_lookup_2 in Hk; apply Hd; rewrite elem_of_app; tauto.
  - destruct Hs as [| | | | | | i c Hi Hp | | late i w args b Hi]; cbn; try done.
    + intros t. rewrite elem_of_app, list_elem_of_singleton. intros [Ht | ->]; [by apply Hsu |].
      pose proof (Forall_lookup_1 _ _ _ _ (co_flying _ _ Hc) Hi) as [_ ?]. split; [done |].
      apply Hd; [| done]. apply elem_of_app. left. by eapply list_elem_of_lookup_2.
    + destruct (set_calls_other late (<[i := mkCall w args (if b then Done else Running)]>
        (calls_of late (sched s))) (sched s)) as (_ & _ & _ & _ & _ & ->). done.
Qed.

Lemma phase_exec_ok ev s s' : phase_ok s -> phase_exec mapF reduceF j ev s = Ok (tt, s') -> phase_ok s'.
Proof.
  intros Hok He. pose proof (sched_event_sstep _ _ _ _ (phase_exec_sched _ _ _ _ _ _ He)) as Hs.
  destruct ev as [w | | k | i ok | late i | late i]; cbn [phase_exec] in He.
  1-4: apply on_sched_Ok in He as ([] & x & Hx & [= ->]); by eapply sched_only_written.
  - destruct (calls_of late (sched s) !! i) as [[w args []]|] eqn:Hi; try done.
    apply st_bind_Ok in He as ([] & s1 & Hw & ([] & x & Hx & [= ->])%on_sched_Ok).
    apply on_worker_Ok in Hw as (wk & [] & wk' & p' & Hw & Hm & [= ->]). 
    exact (sched_only_written s _ x Hs ltac:(done) Hok _ _).
  - destruct Hok as [Hc Hf Hd Hsu]. pose proof (sstep_calls_ok _ _ _ _ Hs Hc) as Hc'.
    destruct (calls_of late (sched s) !! i) as [[w args []]|] eqn:Hi; try done.
    assert (Hcall : called j (mkCall w args Running)).
    { destruct late; cbn in Hi; [exact (Forall_lookup_1 _ _ _ _ (co_lost _ _ Hc) Hi) |
        exact (Forall_lookup_1 _ _ _ _ (co_flying _ _ Hc) Hi)]. }
    assert (Hin : forall c, c ∈ flying (sched s) ++ lost (sched s) -> is_task j (task_of c)).
    { intros c [Hcf | Hcl]%elem_of_app.
      - pose proof (co_flying _ _ Hc) as Hall. rewrite Forall_forall in Hall. apply (Hall c Hcf).
      - pose proof (co_lost _ _ Hc) as Hall. rewrite Forall_forall in Hall. apply (Hall c Hcl). }
    apply st_bind_Ok in He as ([] & s1 & Hff & He). apply on_files_Ok in Hff as (u & f' & Hb & [= ->]).
    apply st_bind_Ok in He as ([] & s2 & Hw & ([] & x & [= <-] & [= ->])%on_sched_Ok).
    apply on_worker_Ok in Hw as (wk & [] & wk' & p' & Hw & _ & [= ->]). cbn in *.
    destruct (ts_exec _ _ _ _ _ Hspec _ _ _ (proj1 Hcall) (proj2 Hcall) Hf) as (fs' & Hb' & Hf' & Hwr & Hkeep).
    cbn in Hb'. rewrite Hb' in Hb. injection Hb as <- <-.
    split; cbn; [done | done | |].
    + intros c Hcin Hdone. destruct late; cbn in *; apply elem_of_app in Hcin as [Hcin | Hcin];
        try (assert (Hx : c ∈ flying (sched s) ++ lost (sched s)) by (apply elem_of_app; tauto); by auto);
        apply list_elem_of_lookup in Hcin as [k Hk];
        apply list_lookup_insert_Some in Hk as [(-> & <- & _) | (_ & Hk)]; try exact Hwr;
        apply list_elem_of_lookup_2 in Hk;
        (assert (Hx : c ∈ flying (sched s) ++ lost (sched s)) by (apply elem_of_app; tauto); by auto).
    + destruct (set_calls_other late (<[i := mkCall w args Done]> (calls_of late (sched s))) (sched s))
        as (_ & _ & _ & _ & _ & ->). intros t Ht. destruct (Hsu t Ht). auto.
Qed.

Lemma phase_ok_init ws ps p fs : frame fs -> phase_ok (phase_init j ws ps p fs).
Proof.
  intros Hf. split; cbn; [apply calls_ok_init | done | by intros c ?%not_elem_of_nil | by intros t ?%not_elem_of_nil].
Qed.

Lemma phase_run_ok ws ps p fs evs s :
  frame fs -> phase_run mapF reduceF j evs (phase_init j ws ps p fs) = Ok (tt, s) -> phase_ok s.
Proof. intros Hf. apply phase_run_inv; [intros ???; apply phase_exec_ok | by apply phase_ok_init]. Qed.

(** A phase that returned, without a failure at the end, has done every task. *)
Lemma phase_complete ws ps p fs evs s :
  frame fs -> phase_run mapF reduceF j evs (phase_init j ws ps p fs) = Ok (tt, s) ->
  main (sched s) = MReturned -> no_late_failure j evs (sched_init j ws) = true ->
  frame (files s) /\ forall t, is_task j t -> written (files s) t.
Proof.
  intros Hf Hrun Hm Hno. destruct (phase_run_ok _ _ _ _ _ _ Hf Hrun) as [_ Hf' _ Hsu].
  split; [done |]. intros t Ht. apply Hsu.
  rewrite (returned_succeeded _ _ _ _ (phase_run_sched _ _ _ _ _ _ Hrun) Hm Hno).
  apply elem_of_seqZ. unfold is_task in Ht. lia.
Qed.

End task_phase.

(** ** The two phases *)

Section phases.
Context `{GoSort} {mapF : string -> string -> list KeyValue} {reduceF : string -> list string -> string}.
Context {job : string} {fl : list string} {nR : Z} {fs0 : FS}.
Hypothesis HnR : 0 < nR.
Hypothesis Hin : inputs_ok job fl fs0.

Definition map_frame (fs : FS) : Prop :=
  forall n, (forall m r, 0 <= m < len fl -> 0 <= r < nR -> n <> reduceName job m r) -> fs !! n = fs0 !! n.
Definition map_written (fs : FS) (t : Z) : Prop :=
  forall r, 0 <= r < nR ->
    fs !! reduceName job t r = Some (Json (json_kv <$> in_bucket nR r (pairs_of fs0 mapF (fl !! Z.to_nat t)))).

Lemma map_task_spec : task_spec mapF reduceF (mkJob job fl nR mapPhase) map_frame map_written.
Proof.
  split. intros t args fs (f & Hf & [= <-])%res_bind_Ok Ht Hfr. unfold is_task in Ht. cbn in *.
  apply idx_Ok in Hf as [_ Hf].
  pose proof (Forall_lookup_1 _ _ _ _ Hin Hf) as [[s Hs] Hne].
  destruct (doMap_spec job t f nR mapF fs s) as (fs' & He & [Hnew Hold]); [done | lia | |].
  { rewrite Hfr by done. exact Hs. }
  exists fs'. split; [exact He |]. split_and!.
  - intros n Hn. rewrite Hold; [by apply Hfr |]. intros r Hr. by apply Hn.
  - intros r Hr. rewrite Hnew by done. rewrite Hf. unfold map_output, pairs_of, text. by rewrite Hs.
  - intros t' Ht' Hw r Hr. destruct (decide (t' = t)) as [-> | Hd].
    + rewrite Hnew by done. rewrite Hf. unfold map_output, pairs_of, text. by rewrite Hs.
    + rewrite Hold; [by apply Hw |]. intros r' Hr' Heq. unfold is_task in Ht'. cbn in Ht'.
      apply reduceName_inj in Heq; lia.
Qed.

Definition reduce_written (fs : FS) (t : Z) : Prop :=
  exists f, fs !! mergeName job t = Some f /\ reduce_output reduceF (in_bucket nR t (all_pairs fs0 fl mapF)) f.

Lemma reduce_task_spec :
  Forall clean (all_pairs fs0 fl mapF) ->
  task_spec mapF reduceF (mkJob job fl nR reducePhase) (all_mapped job fl nR mapF fs0) reduce_written.
Proof.
  intros Hclean. split. intros t args fs (f & Hf & [= <-])%res_bind_Ok Ht Hfr. unfold is_task in Ht. cbn in *.
  destruct (doReduce_spec job t (len fl) (mergeName job t) reduceF fs (fun m =>
    json_kv <$> in_bucket nR t (pairs_of fs0 mapF (fl !! Z.to_nat m)))) as (o & He & Ho);
    [apply len_nonneg | intros m Hm; by apply Hfr |].
  rewrite bucket_pairs in Ho by done.
  eexists. split; [exact He |]. split_and!.
  - intros m r Hm Hr. rewrite (lookup_insert_ne fs); [by apply Hfr |].
    intros Heq. symmetry in Heq. apply reduceName_mergeName in Heq; lia.
  - exists o. split; [apply lookup_insert_eq | exact Ho].
  - intros t' Ht' (f' & Hf' & Ho'). unfold is_task in Ht'. cbn in Ht'.
    destruct (decide (t' = t)) as [-> | Hd].
    + exists o. split; [apply lookup_insert_eq | exact Ho].
    + exists f'. split; [| exact Ho']. rewrite (lookup_insert_ne fs); [done |].
      intros Heq. apply mergeName_inj in Heq; lia.
Qed.

End phases.

(** ** No step of a phase ends the program *)

Fixpoint registered (evs : list SEvent) : list string :=
  match evs with
  | [] => []
  | SRegister w :: evs => w :: registered evs
  | _ :: evs => registered evs
  end.

Lemma sstep_workers j s ev s' : sstep j s ev s' -> workers s' = workers s ++ registered [ev].
Proof.
  destruct 1 as [| | | | | | | | late i w args b Hi]; cbn; rewrite ?app_nil_r; try done.
  destruct (set_calls_other late (<[i := mkCall w args (if b then Done else Running)]> (calls_of late s)) s)
    as (-> & _). by destruct b; cbn; rewrite app_nil_r.
Qed.

Lemma registered_cons ev evs : registered (ev :: evs) = registered [ev] ++ registered evs.
Proof. by destruct ev. Qed.

Lemma sched_events_workers j evs s s' :
  sched_events j evs s = Ok (tt, s') -> workers s' = workers s ++ registered evs.
Proof.
  revert s. induction evs as [| ev evs IH]; intros s; cbn [sched_events].
  { intros [= <-]. by rewrite app_nil_r. }
  intros ([] & s1 & H1 & ->%IH)%st_bind_Ok. apply sched_event_sstep, sstep_workers in H1.
  rewrite (registered_cons ev evs), H1. by rewrite app_assoc.
Qed.

Definition ended {A} (r : res A) : Prop := r = Panic \/ r = Fatal.

Section safety.
Context `{GoSort} {mapF : string -> string -> list KeyValue} {reduceF : string -> list string -> string}.
Context {j : Job} {frame : FS -> Prop} {written : FS -> Z -> Prop}.
Hypothesis Hspec : task_spec mapF reduceF j frame written.

Lemma on_sched_safe m s : ~ ended (m (sched s)) -> ~ ended (on_sched m s).
Proof. unfold ended, on_sched. destruct (m (sched s)); cbn; naive_solver. Qed.

Lemma sched_safe k s : ntasks j <= len (mapFiles j) -> calls_ok j s -> ~ ended (schedule_main j k s).
Proof.
  intros Hn Hok. unfold schedule_main. destruct (main s) as [| t | |] eqn:Em.
  - destruct (tasks s); by intros [[=] | [=]].
  - destruct (ready s !! k); [| by intros [[=] | [=]]].
    pose proof (co_queued _ _ Hok) as Hq. unfold in_hand in Hq. rewrite Em in Hq.
    apply Forall_app in Hq as [_ Hq]. rewrite Forall_singleton in Hq. unfold is_task in Hq.
    unfold doTaskArgs. destruct (idx_in_range (mapFiles j) t) as [f ->]; [lia |]. by intros [[=] | [=]].
  - destruct (flying s); by intros [[=] | [=]].
  - by intros [[=] | [=]].
Qed.

Lemma begin_safe s late i w args :
  counted s -> NoDup (pool (sched s)) -> calls_of late (sched s) !! i = Some (mkCall w args Sent) ->
  ~ ended (on_worker w (fun x => r ← accept x.1; DoTask_enter (r.2, x.2)) s).
Proof.
  intros Hc Hnd Hi. unfold on_worker. destruct (procs s !! w) as [wk|] eqn:Hw; [| by intros [[=] | [=]]].
  unfold accept. cbn. case_decide; [by intros [[=] | [=]] |]. cbn.
  assert (Hz : concurrent wk = 0).
  { rewrite (Hc w wk Hw), <- running_app. unfold pool in Hnd. rewrite <- fmap_app in Hnd.
    apply NoDup_app in Hnd as (_ & _ & Hnd).
    destruct late; cbn in Hi.
    - apply (running_sent w args _ (length (flying (sched s)) + i)); [done |].
      by rewrite lookup_app_r, Nat.add_comm, Nat.add_sub by lia.
    - apply (running_sent w args _ i); [done |]. rewrite lookup_app_l; [done | by eapply lookup_lt_Some]. }
  unfold DoTask_enter, st_bind, modify, gets, lift. cbn. rewrite Hz. by intros [[=] | [=]].
Qed.

Lemma phase_exec_safe ev s :
  ntasks j <= len (mapFiles j) -> counted s -> NoDup (pool (sched s)) -> @phase_ok j frame written s ->
  ~ ended (phase_exec mapF reduceF j ev s).
Proof.
  intros Hn Hc Hnd Hok. destruct ev as [w | | k | i ok | late i | late i]; cbn [phase_exec].
  - apply on_sched_safe. by intros [[=] | [=]].
  - apply on_sched_safe. unfold forwardRegistrations. destruct (_ !! _); by intros [[=] | [=]].
  - apply on_sched_safe, sched_safe; [done | apply Hok].
  - apply on_sched_safe. unfold schedule_reply. destruct (_ !! _) as [c|]; [| by intros [[=] | [=]]].
    destruct ok; [destruct (c_pc c) |]; by intros [[=] | [=]].
  - destruct (calls_of late (sched s) !! i) as [[w args []]|] eqn:Hi; try (by intros [[=] | [=]]).
    pose proof (begin_safe s late i w args Hc Hnd Hi) as Hb. unfold st_bind.
    destruct (on_worker w _ s) as [[[] s1] | | |]; try exact Hb; by intros [[=] | [=]].
  - destruct (calls_of late (sched s) !! i) as [[w args []]|] eqn:Hi; try (by intros [[=] | [=]]).
    assert (Hcall : called j (mkCall w args Running)).
    { destruct late; cbn in Hi; [exact (Forall_lookup_1 _ _ _ _ (co_lost _ _ (po_calls _ Hok)) Hi) |
        exact (Forall_lookup_1 _ _ _ _ (co_flying _ _ (po_calls _ Hok)) Hi)]. }
    destruct (ts_exec _ _ _ _ _ Hspec _ _ _ (proj1 Hcall) (proj2 Hcall) (po_frame _ Hok)) as (fs' & Hb & _).
    unfold st_bind, on_files. cbn in Hb. rewrite Hb. cbn. unfold on_worker. cbn.
    destruct (procs s !! w); by intros [[=] | [=]].
Qed.
(** With distinct names, along a whole run. *)
Lemma phase_run_safe evs s :
  ntasks j <= len (mapFiles j) -> counted s -> pool_ok (sched s) -> @phase_ok j frame written s ->
  NoDup (workers (sched s) ++ registered evs) -> ~ ended (phase_run mapF reduceF j evs s).
Proof.
  intros Hn. revert s. induction evs as [| ev evs IH]; intros s Hc Hp Hok Hnd; cbn [phase_run].
  { by intros [[=] | [=]]. }
  rewrite registered_cons, app_assoc in Hnd.
  pose proof (phase_exec_safe ev s Hn Hc) as Hsafe. unfold st_bind.
  destruct (phase_exec mapF reduceF j ev s) as [[[] s1] | | |] eqn:E.
  - pose proof (sched_event_sstep _ _ _ _ (phase_exec_sched _ _ _ _ _ _ E)) as Hs. apply IH.
    + by eapply phase_exec_counted.
    + by eapply sstep_pool.
    + by eapply phase_exec_ok.
    + by rewrite (sstep_workers _ _ _ _ Hs).
  - apply Hsafe; [apply pool_nodup; [done |] | done]. rewrite <- app_assoc in Hnd. by apply NoDup_app in Hnd as [? _].
  - apply Hsafe; [apply pool_nodup; [done |] | done]. rewrite <- app_assoc in Hnd. by apply NoDup_app in Hnd as [? _].
  - by intros [[=] | [=]].
Qed.
End safety.

(** ** Progress

    What is left to do: five steps for a task in the queue, down to one for a
    call that only has to return. *)

Definition left_flying (c : Call) : Z := match c_pc c with Sent => 3 | Running => 2 | Done => 1 end.
Definition left_lost (c : Call) : Z := match c_pc c with Sent => 2 | Running => 1 | Done => 0 end.
Definition total (f : Call -> Z) (l : list Call) : Z := foldr (fun c n => f c + n) 0 l.
Definition left_main (m : MainPc) : Z := match m with MLoop => 2 | MRecv _ => 6 | MWait => 1 | MReturned => 0 end.

Definition work_left (s : Sched) : Z :=
  5 * len (tasks s) + left_main (main s) + total left_flying (flying s) + total left_lost (lost s) +
  (len (workers s) - Z.of_nat (fwd_i s)).

(** A registration and a failure add work. *)
Definition added (ev : SEvent) : Z :=
  match ev with SRegister _ => 2 | SReply _ false => 5 | _ => 0 end.

Lemma total_cons f c l : total f (c :: l) = f c + total f l.
Proof. done. Qed.
#[global] Arguments total : simpl never.

Lemma total_app f l k : total f (l ++ k) = total f l + total f k.
Proof. induction l as [| c l IH]; [done |]. cbn [app]. rewrite !total_cons. lia. Qed.

Lemma total_remove f l i c : l !! i = Some c -> total f (remove_nth i l) = total f l - f c.
Proof.
  intros Hi. unfold remove_nth. rewrite <- (take_drop_middle l i c Hi) at 3. rewrite !total_app, !total_cons. lia.
Qed.

Lemma total_insert f l i c c' : l !! i = Some c -> total f (<[i := c']> l) = total f l - f c + f c'.
Proof.
  intros Hi. rewrite insert_take_drop by by eapply lookup_lt_Some.
  rewrite <- (take_drop_middle l i c Hi) at 3. rewrite !total_app, !total_cons. lia.
Qed.

Lemma total_nonneg f l : (forall c, 0 <= f c) -> 0 <= total f l.
Proof. intros Hf. induction l as [| c l IH]; [by cbv |]. rewrite total_cons. specialize (Hf c). lia. Qed.

Lemma sstep_work_left j s ev s' : sstep j s ev s' -> work_left s' = work_left s - 1 + added ev.
Proof.
  unfold work_left. destruct 1 as [w | w Hw | k Em Et | k t rest Em Et | k t w args Em Hw Ha | k Em Ef
    | i c Hi Hp | i c Hi | late i w args b Hi]; cbn; rewrite ?Em, ?Et, ?Ef; cbn; autorewrite with go_len; try lia.
  - rewrite total_app, total_cons. cbn. unfold total at 2. cbn. lia.
  - rewrite (total_remove _ _ _ _ Hi). unfold left_flying at 2. rewrite Hp. lia.
  - rewrite (total_remove _ _ _ _ Hi), total_app, total_cons. unfold left_flying at 2, left_lost at 2, total at 3. cbn.
    destruct (c_pc c); lia.
  - destruct late; cbn in *; rewrite (total_insert _ _ _ _ _ Hi); unfold left_flying, left_lost; cbn;
      destruct b; cbn; lia.
Qed.

Definition total_added (evs : list SEvent) : Z := foldr (fun ev n => added ev + n) 0 evs.

Lemma sched_events_work_left j evs s s' :
  sched_events j evs s = Ok (tt, s') -> work_left s' = work_left s - len evs + total_added evs.
Proof.
  revert s. induction evs as [| ev evs IH]; intros s; cbn.
  { intros [= <-]. unfold len. cbn. lia. }
  intros ([] & s1 & H1 & H2%IH)%st_bind_Ok. apply sched_event_sstep, sstep_work_left in H1.
  rewrite len_cons. unfold total_added in *. lia.
Qed.

Lemma work_left_nonneg s : pool_ok s -> 0 <= work_left s.
Proof.
  intros [_ Hi]. unfold work_left.
  pose proof (total_nonneg left_flying (flying s) ltac:(intros []; unfold left_flying; cbn; case_match; lia)).
  pose proof (total_nonneg left_lost (lost s) ltac:(intros []; unfold left_lost; cbn; case_match; lia)).
  pose proof (len_nonneg (tasks s)). unfold len in *. destruct (main s); cbn; lia.
Qed.

(** ** A run that ends: one worker does one task after the other *)

Section one_worker.
Context `{GoSort} {mapF : string -> string -> list KeyValue} {reduceF : string -> list string -> string}.
Context {j : Job} {frame : FS -> Prop} {written : FS -> Z -> Prop}.
Hypothesis Hspec : task_spec mapF reduceF j frame written.
Hypothesis Hfit : ntasks j <= len (mapFiles j).

Definition one_task : list SEvent := [SMain 0; SMain 0; SBegin false 0; SEnd false 0; SReply 0 true].

Definition at_loop (w : string) (ws : list string) (q d : list Z) (wk : Worker) (p : option Parallelism)
    (fs : FS) : Phase_state := mkPhase (mkSched ws 1 [w] q MLoop [] [] d) {[w := wk]} p fs.

Lemma phase_run_app evs1 evs2 s :
  phase_run mapF reduceF j (evs1 ++ evs2) s = (phase_run mapF reduceF j evs1 ;;; phase_run mapF reduceF j evs2) s.
Proof.
  revert s. induction evs1 as [| ev evs1 IH]; intros s; cbn; [done |]. unfold st_bind in *.
  destruct (phase_exec mapF reduceF j ev s) as [[[] s1] | | |]; [| done..]. apply IH.
Qed.

Lemma enter_idle wk p :
  nRPC wk <> 0 -> concurrent wk = 0 ->
  exists p', (r ← accept (wk, p).1; DoTask_enter (r.2, (wk, p).2))
    = Ok (tt, (mkWorker (nRPC wk - 1) (nTasks wk + 1) (concurrent wk + 1), p')).
Proof.
  intros Hr Hc. unfold accept. cbn. rewrite decide_False by done. cbn. rewrite Hc. by eexists.
Qed.

Lemma leave_Ok wk p : exists p',
  DoTask_leave (wk, p) = Ok (tt, (mkWorker (nRPC wk) (nTasks wk) (concurrent wk - 1), p')).
Proof. by eexists. Qed.

Lemma one_task_runs w ws t q d wk p fs :
  is_task j t -> frame fs -> nRPC wk < 0 -> concurrent wk = 0 ->
  exists wk' p' fs', phase_run mapF reduceF j one_task (at_loop w ws (t :: q) d wk p fs)
    = Ok (tt, at_loop w ws q (d ++ [t]) wk' p' fs') /\
    frame fs' /\ nRPC wk' < 0 /\ concurrent wk' = 0.
Proof.
  intros Ht Hf Hr Hc. destruct (idx_in_range (mapFiles j) t) as [f Hfi]; [unfold is_task in Ht; lia |].
  assert (Ha : doTaskArgs j t = Ok (mkDoTaskArgs (jobName j) f (phase j) t (n_other j))).
  { unfold doTaskArgs. by rewrite Hfi. }
  destruct (ts_exec _ _ _ _ _ Hspec _ _ _ Ha Ht Hf) as (fs' & Hb & Hf' & _).
  set (args := mkDoTaskArgs (jobName j) f (phase j) t (n_other j)) in *.
  set (wk1 := mkWorker (nRPC wk - 1) (nTasks wk + 1) (concurrent wk + 1)).
  set (wk2 := mkWorker (nRPC wk - 1) (nTasks wk + 1) (concurrent wk + 1 - 1)).
  destruct (enter_idle wk p) as (p1 & Hent); [lia | done |].
  destruct (leave_Ok wk1 p1) as (p2 & Hlv).
  exists wk2, p2, fs'. split; [| split; [exact Hf' | cbn; lia]].
  unfold one_task, at_loop. cbn [phase_run].
  eapply st_bind_Ok. eexists tt, _. split; [reflexivity |].
  eapply st_bind_Ok. eexists tt, (mkPhase (mkSched ws 1 [] q MLoop [mkCall w args Sent] [] d) {[w := wk]} p fs).
  split; [apply on_sched_Ok; eexists tt, _; split; [| reflexivity]; cbn; by rewrite Ha |].
  eapply st_bind_Ok. eexists tt, (mkPhase (mkSched ws 1 [] q MLoop [mkCall w args Running] [] d) {[w := wk1]} p1 fs).
  split.
  { cbn [phase_exec calls_of sched flying lookup list_lookup]. apply st_bind_Ok.
    eexists tt, _. split; [apply on_worker_Ok; eexists wk, tt, wk1, p1; split_and!;
      [apply lookup_singleton_eq | exact Hent | reflexivity] |].
    apply on_sched_Ok. eexists tt, _. split; [reflexivity |]. cbn. by rewrite insert_singleton_eq. }
  eapply st_bind_Ok. eexists tt, (mkPhase (mkSched ws 1 [] q MLoop [mkCall w args Done] [] d) {[w := wk2]} p2 fs').
  split; [| reflexivity].
  cbn [phase_exec calls_of sched flying lookup list_lookup]. apply st_bind_Ok.
  eexists tt, _. split; [apply on_files_Ok; eexists tt, fs'; by split |].
  apply st_bind_Ok. eexists tt, _. split; [apply on_worker_Ok; eexists wk1, tt, wk2, p2; split_and!;
    [apply lookup_singleton_eq | exact Hlv | reflexivity] |].
  apply on_sched_Ok. eexists tt, _. split; [reflexivity |]. cbn. by rewrite insert_singleton_eq.
Qed.

Lemma tasks_run w ws q : forall d wk p fs,
  Forall (is_task j) q -> frame fs -> nRPC wk < 0 -> concurrent wk = 0 ->
  exists wk' p' fs', phase_run mapF reduceF j (concat (replicate (length q) one_task)) (at_loop w ws q d wk p fs)
    = Ok (tt, at_loop w ws [] (d ++ q) wk' p' fs') /\ nRPC wk' < 0 /\ concurrent wk' = 0.
Proof.
  induction q as [| t q IH]; intros d wk p fs Hq Hf Hr Hc.
  { exists wk, p, fs. by rewrite app_nil_r. }
  apply Forall_cons in Hq as [Ht Hq]. cbn [length replicate concat]. rewrite phase_run_app.
  destruct (one_task_runs w ws t q d wk p fs Ht Hf Hr Hc) as (wk1 & p1 & fs1 & He & Hf1 & Hr1 & Hc1).
  destruct (IH (d ++ [t]) wk1 p1 fs1 Hq Hf1 Hr1 Hc1) as (wk2 & p2 & fs2 & He2 & Hr2 & Hc2).
  exists wk2, p2, fs2. unfold st_bind. rewrite He. split; [| done]. rewrite He2, <- app_assoc. done.
Qed.

Definition one_worker_events : list SEvent :=
  SForward :: concat (replicate (Z.to_nat (ntasks j)) one_task) ++ [SMain 0; SMain 0].

Lemma replicate_one_task_no_failure n s :
  Forall (fun ev => forall i, ev <> SReply i false) (concat (replicate n one_task)) /\
  no_late_failure j (SForward :: concat (replicate n one_task) ++ [SMain 0; SMain 0]) s = true.
Proof.
  assert (Hall : Forall (fun ev => forall i, ev <> SReply i false) (concat (replicate n one_task))).
  { induction n; cbn [replicate concat]; [constructor |]. apply Forall_app. split; [by repeat constructor | done]. }
  split; [done |].
  assert (Hall' : Forall (fun ev => forall i, ev <> SReply i false)
    (SForward :: concat (replicate n one_task) ++ [SMain 0; SMain 0])).
  { constructor; [done |]. apply Forall_app. split; [done | by repeat constructor]. }
  revert s Hall'. generalize (SForward :: concat (replicate n one_task) ++ [SMain 0; SMain 0]) as evs.
  clear Hall. intros evs s Hall. revert s. induction Hall as [| ev evs Hev _ IH]; intros s; cbn; [done |].
  apply andb_true_iff. split; [| by destruct (sched_event j ev s) as [[[] s1] | | |]].
  destruct ev as [| | | i [] | |]; try done. by destruct (Hev i).
Qed.

Lemma one_worker_returns w wk p fs :
  frame fs -> nRPC wk < 0 -> concurrent wk = 0 ->
  exists s, phase_run mapF reduceF j one_worker_events (phase_init j [w] {[w := wk]} p fs) = Ok (tt, s) /\
    main (sched s) = MReturned /\ workers (sched s) = [w] /\
    exists wk', procs s = {[w := wk']} /\ nRPC wk' < 0 /\ concurrent wk' = 0.
Proof.
  intros Hf Hr Hc. unfold one_worker_events. cbn [phase_run].
  destruct (tasks_run w [w] (seqZ 0 (ntasks j)) [] wk p fs) as (wk' & p' & fs' & He & Hr' & Hc'); [| done.. |].
  { apply Forall_forall. by intros t ?%elem_of_seqZ. }
  unfold st_bind at 1. cbn [phase_exec]. unfold on_sched at 1. cbn.
  change (mkPhase _ _ _ _) with (at_loop w [w] (seqZ 0 (ntasks j)) [] wk p fs).
  rewrite phase_run_app. unfold st_bind at 1. rewrite length_seqZ in He. rewrite He.
  eexists. split; [reflexivity |]. split; [done |]. split; [done |]. by exists wk'.
Qed.
End one_worker.

(** ** Properties *)

(** A worker process that serves any number of connections, between tasks. *)
Definition fresh (procs : gmap string Worker) (w : string) : Prop :=
  exists wk, procs = {[w := wk]} /\ nRPC wk < 0 /\ concurrent wk = 0.

(** No call of a phase fails after the loop of schedule ended. *)
Definition settled (j : Job) (evs : list SEvent) (s : Phase_state) : bool :=
  no_late_failure j evs (sched_init j (workers (sched s))).

Section results.
Context `{GoSort} (mapF : string -> string -> list KeyValue) (reduceF : string -> list string -> string).

Lemma schedule_Ok j evs s s' :
  schedule mapF reduceF j evs s = Ok (tt, s') <->
  phase_run mapF reduceF j evs (phase_init j (workers (sched s)) (procs s) (par s) (files s)) = Ok (tt, s') /\
  main (sched s') = MReturned.
Proof.
  unfold schedule. rewrite res_bind_Ok. split.
  - intros ([[] x] & Hx & Hm). cbn in Hm. destruct (main (sched x)) eqn:Em; try done. injection Hm as ->. done.
  - intros [Hx Hm]. exists (tt, s'). cbn. by rewrite Hm.
Qed.

(** The number of tasks that can be sent. *)
Lemma returned_in_range j evs s s' :
  schedule mapF reduceF j evs s = Ok (tt, s') -> Forall (in_range j) (seqZ 0 (ntasks j)).
Proof.
  intros [Hx Hm]%schedule_Ok. apply phase_run_sched in Hx.
  pose proof (sched_events_ok _ _ _ _ Hx) as Hok. rewrite <- (returned_places _ _ _ _ Hx Hm).
  apply Forall_app. split; [apply (co_tasks _ _ Hok); by rewrite Hm | apply Hok].
Qed.

Lemma map_schedule job fl nR evs s s' :
  0 < nR -> inputs_ok job fl (files s) ->
  schedule mapF reduceF (mkJob job fl nR mapPhase) evs s = Ok (tt, s') ->
  settled (mkJob job fl nR mapPhase) evs s = true ->
  all_mapped job fl nR mapF (files s) (files s').
Proof.
  intros Hn Hin [Hx Hm]%schedule_Ok Hno.
  destruct (phase_complete (map_task_spec Hn Hin) _ _ _ (files s) evs s' ltac:(done) Hx Hm Hno) as [_ Hw].
  intros m r Hm' Hr. by apply Hw.
Qed.

Lemma reduce_schedule job fl nR evs s s' fs0 :
  0 < nR -> Forall clean (all_pairs fs0 fl mapF) -> all_mapped job fl nR mapF fs0 (files s) ->
  schedule mapF reduceF (mkJob job fl nR reducePhase) evs s = Ok (tt, s') ->
  settled (mkJob job fl nR reducePhase) evs s = true ->
  all_reduced job nR (all_pairs fs0 fl mapF) reduceF (files s').
Proof.
  intros Hn Hc Hmap [Hx Hm]%schedule_Ok Hno.
  destruct (phase_complete (reduce_task_spec Hc) _ _ _ (files s) evs s' Hmap Hx Hm Hno) as [_ Hw].
  exact Hw.
Qed.

Lemma one_worker_settled j s : settled j (@one_worker_events j) s = true.
Proof. apply replicate_one_task_no_failure. Qed.

Lemma Distributed_returns job fl nR s w :
  0 < nR <= len fl -> inputs_ok job fl (files s) -> Forall clean (all_pairs (files s) fl mapF) ->
  (forall k vs, utf8_coerce (reduceF k vs) = reduceF k vs) ->
  workers (sched s) = [w] -> fresh (procs s) w ->
  exists evs s1,
    schedule mapF reduceF (mkJob job fl nR mapPhase) (evs mapPhase) s = Ok (tt, s1) /\
    settled (mkJob job fl nR mapPhase) (evs mapPhase) s = true /\
    settled (mkJob job fl nR reducePhase) (evs reducePhase) s1 = true /\
    forall reach, exists stats s2, Distributed mapF reduceF job fl nR evs reach s = Ok (stats, s2).
Proof.
  intros [Hn Hfit] Hin Hc Hr Hws (wk & Hps & Hrpc & Hcon).
  set (evs := fun ph => @one_worker_events (mkJob job fl nR ph)).
  destruct (one_worker_returns (map_task_spec (mapF := mapF) (reduceF := reduceF) Hn Hin) ltac:(cbn; lia)
    w wk (par s) (files s)) as (s1 & He1 & Hm1 & Hw1 & wk1 & Hp1 & Hrpc1 & Hcon1); [done.. |].
  assert (H1 : schedule mapF reduceF (mkJob job fl nR mapPhase) (evs mapPhase) s = Ok (tt, s1)).
  { apply schedule_Ok. by rewrite Hws, Hps. }
  pose proof (map_schedule _ _ _ _ _ _ Hn Hin H1 (one_worker_settled _ _)) as Hmap.
  destruct (one_worker_returns (reduce_task_spec (reduceF := reduceF) (job := job) (nR := nR) Hc)
    ltac:(cbn; lia) w wk1 (par s1) (files s1)) as (sr & He2 & Hm2 & Hw2 & _); [exact Hmap | done.. |].
  assert (H2 : schedule mapF reduceF (mkJob job fl nR reducePhase) (evs reducePhase) s1 = Ok (tt, sr)).
  { apply schedule_Ok. by rewrite Hw1, Hp1. }
  pose proof (reduce_schedule _ _ _ _ _ _ _ Hn Hc Hmap H2 (one_worker_settled _ _)) as Hred.
  destruct (merge_spec job nR _ reduceF (files sr) Hn Hc Hr Hred) as (out & Hm & Hres).
  exists evs, s1. split; [done |]. split; [apply one_worker_settled |]. split; [apply one_worker_settled |].
  intros reach. eexists _, _. apply st_bind_Ok. exists tt, s1. split; [done |].
  apply st_bind_Ok. exists tt, sr. split; [done |].
  apply st_bind_Ok. eexists _, _. split; [reflexivity |].
  apply st_bind_Ok. eexists tt, _. split; [| reflexivity].
  apply on_files_Ok. eexists tt, _. split; [exact Hm | reflexivity].
Qed.

End results.


(** A master with one worker, before the word count job. *)
Definition example_state : Phase_state :=
  mkPhase (mkSched ["w"] 0 [] [] MReturned [] [] []) {["w" := mkWorker (-1) 0 0]} None example_fs.


(** C24: schedule accounts for every task.  When schedule returns, no call is out
    any more, and every task of the phase is exactly once either among those
    whose call succeeded or still in the queue; if no call failed after the loop
    found the queue empty, every task has succeeded exactly once, however many
    calls failed before. *)
Theorem schedule_accounts `{GoSort} mapF reduceF j evs s s' :
  schedule mapF reduceF j evs s = Ok (tt, s') ->
  flying (sched s') = [] /\
  tasks (sched s') ++ succeeded (sched s') ≡ₚ seqZ 0 (ntasks j) /\
  (settled j evs s = true -> tasks (sched s') = [] /\ succeeded (sched s') ≡ₚ seqZ 0 (ntasks j)).
Proof.
  intros [Hx Hm]%schedule_Ok. apply phase_run_sched in Hx.
  split; [exact (co_returned _ _ (sched_events_ok _ _ _ _ Hx) Hm) |].
  split; [exact (returned_places _ _ _ _ Hx Hm) |]. intros Hno.
  split; [| exact (returned_succeeded _ _ _ _ Hx Hm Hno)].
  apply (sched_events_drained _ _ _ _ Hx Hno); [done | by rewrite Hm].
Qed.

(** One input, one worker; the first call fails before the loop sees the empty
    queue, and the task is sent again. *)
Definition wc1 : Job := mkJob "wc" ["in1"] 1 mapPhase.
Definition example_state2 : Phase_state :=
  mkPhase (mkSched ["w"; "v"] 0 [] [] MReturned [] [] [])
    (<["v" := mkWorker (-1) 0 0]> {["w" := mkWorker (-1) 0 0]}) None example_fs.
Definition retry_events : list SEvent :=
  [SForward; SForward; SMain 0; SMain 0; SReply 0 false; SMain 0; SMain 0; SBegin false 0; SEnd false 0;
   SReply 0 true; SMain 0; SMain 0].

Lemma schedule_accounts_witness :
  exists s', @schedule insertion_GoSort example_mapF example_reduceF wc1 retry_events example_state2 = Ok (tt, s') /\
    succeeded (sched s') ≡ₚ [0].
Proof.
  eexists. split; [vm_compute; reflexivity |].
  refine (proj2 (proj2 (proj2 (@schedule_accounts insertion_GoSort example_mapF example_reduceF wc1 retry_events
    example_state2 _ _)) _)).
  - vm_compute; reflexivity.
  - vm_compute; reflexivity.
Defined.

(** The same, but the failure comes after the loop has ended. *)
Definition late_events : list SEvent :=
  [SForward; SMain 0; SMain 0; SMain 0; SReply 0 false; SMain 0].


(** A reduce phase with more reduce tasks than input files never returns.
    schedule reads mapFiles[task] for reduce tasks too, so that the first task
    whose number is not the index of an input panics; no order of the steps
    avoids it. *)
Theorem reduce_phase_panics `{GoSort} mapF reduceF job fl nReduce evs s :
  len fl < nReduce ->
  (forall s', schedule mapF reduceF (mkJob job fl nReduce reducePhase) evs s <> Ok (tt, s')) /\
  (forall k w t, main (sched s) = MRecv t -> len fl <= t -> ready (sched s) !! k = Some w ->
     phase_exec mapF reduceF (mkJob job fl nReduce reducePhase) (SMain k) s = Panic).
Proof.
  intros Hlt. split.
  - intros s' Hs%returned_in_range. rewrite Forall_forall in Hs. pose proof (len_nonneg fl).
    destruct (Hs (len fl)) as [_ Hr]; [apply elem_of_seqZ; cbn; lia |]. cbn in Hr. lia.
  - intros k w t Hm Ht Hk. cbn [phase_exec]. unfold on_sched, schedule_main. rewrite Hm, Hk.
    unfold doTaskArgs. cbn [mapFiles]. by rewrite idx_out_of_range by lia.
Qed.

Lemma reduce_phase_panics_witness :
  len ["in1"] < 2 /\
  (forall s', @schedule insertion_GoSort example_mapF example_reduceF (mkJob "wc" ["in1"] 2 reducePhase)
    retry_events example_state2 <> Ok (tt, s')).
Proof.
  assert (Hl : len ["in1"] < 2) by (cbv; reflexivity). split; [exact Hl |].
  exact (proj1 (@reduce_phase_panics insertion_GoSort example_mapF example_reduceF "wc" ["in1"] 2
    retry_events example_state2 Hl)).
Defined.



(** C26: schedule terminates and does not get stuck.  The number of steps of a
    phase is at most five per task, plus two, one per worker known at the start,
    two per registration and five per failed call; and in every state before the
    return some goroutine can make a step, unless schedule waits for a worker
    while every registered worker has been given up. *)
Theorem schedule_terminates `{GoSort} mapF reduceF j ws ps p fs evs s :
  0 <= ntasks j ->
  phase_run mapF reduceF j evs (phase_init j ws ps p fs) = Ok (tt, s) ->
  len evs <= 5 * ntasks j + 2 + len ws + total_added evs /\
  (main (sched s) = MReturned \/
   (exists ev, registered [ev] = [] /\ phase_exec mapF reduceF j ev s <> Blocked) \/
   (exists t, main (sched s) = MRecv t) /\
     pool (sched s) ≡ₚ workers (sched s) /\ ready (sched s) = [] /\ flying (sched s) = []).
Proof.
  intros Hnt Hs. pose proof (phase_run_pool _ _ _ _ _ _ _ _ _ Hs) as Hp. split.
  - apply phase_run_sched, sched_events_work_left in Hs. pose proof (work_left_nonneg _ Hp) as H0.
    unfold work_left in Hs at 2. cbn in Hs. unfold total in Hs. cbn in Hs. unfold len in *.
    rewrite length_seqZ in Hs. lia.
  - destruct (flying (sched s)) as [| c l] eqn:Ef.
    2:{ right. left. exists (SReply 0 false). split; [done |]. cbn [phase_exec]. unfold on_sched, schedule_reply.
        by rewrite Ef. }
    destruct (workers (sched s) !! fwd_i (sched s)) as [w|] eqn:Ew.
    { right. left. exists SForward. split; [done |]. cbn [phase_exec]. unfold on_sched, forwardRegistrations.
      by rewrite Ew. }
    destruct (main (sched s)) as [| t | |] eqn:Em; [| | | by left].
    + right. left. exists (SMain 0). split; [done |]. cbn [phase_exec]. unfold on_sched, schedule_main.
      rewrite Em. by destruct (tasks (sched s)).
    + destruct (ready (sched s)) as [| w l] eqn:Er.
      * right. right. split; [by exists t |]. split; [| done]. destruct Hp as [Hp _].
        apply lookup_ge_None in Ew. by rewrite take_ge in Hp by done.
      * right. left. exists (SMain 0). split; [done |]. cbn [phase_exec]. unfold on_sched, schedule_main.
        rewrite Em, Er. cbn. unfold doTaskArgs. by destruct (idx (mapFiles j) t) eqn:Ei;
          unfold idx in Ei; repeat case_match.
    + right. left. exists (SMain 0). split; [done |]. cbn [phase_exec]. unfold on_sched, schedule_main.
      by rewrite Em, Ef.
Qed.

Lemma schedule_terminates_witness :
  len retry_events <= 5 * ntasks wc1 + 2 + len ["w"; "v"] + total_added retry_events.
Proof.
  refine (proj1 (@schedule_terminates insertion_GoSort example_mapF example_reduceF wc1 ["w"; "v"]
    (procs example_state2) None example_fs retry_events _ _ _)).
  - cbv. congruence.
  - vm_compute. reflexivity.
Defined.

(** ** Statistics *)

Definition tasks_done (procs : gmap string Worker) (w : string) : Z :=
  match procs !! w with Some wk => nTasks wk | None => 0 end.
Definition sum_tasks (ws : list string) (procs : gmap string Worker) : Z :=
  foldr (fun w n => tasks_done procs w + n) 0 ws.

Fixpoint begins (evs : list SEvent) : Z :=
  match evs with
  | [] => 0
  | SBegin _ _ :: evs => 1 + begins evs
  | _ :: evs => begins evs
  end.

Lemma sum_tasks_insert ws procs w wk wk' :
  NoDup ws -> w ∈ ws -> procs !! w = Some wk ->
  sum_tasks ws (<[w := wk']> procs) = sum_tasks ws procs + (nTasks wk' - nTasks wk).
Proof.
  assert (Hout : forall l, w ∉ l -> sum_tasks l (<[w := wk']> procs) = sum_tasks l procs).
  { induction l as [| v l IH]; [done |]. intros [Hv Hl]%not_elem_of_cons. cbn. unfold sum_tasks in IH.
    rewrite IH by done. unfold tasks_done. by rewrite lookup_insert_ne. }
  intros Hnd Hw Hp. induction ws as [| v ws IH]; [by apply not_elem_of_nil in Hw |].
  apply NoDup_cons in Hnd as [Hv Hnd]. apply elem_of_cons in Hw as [<- | Hw].
  - specialize (Hout ws Hv). unfold sum_tasks in *. cbn. rewrite Hout. unfold tasks_done at 1 3.
    rewrite lookup_insert_eq, Hp. lia.
  - specialize (IH Hnd Hw). unfold sum_tasks in *. cbn. rewrite IH. unfold tasks_done at 1 3.
    rewrite lookup_insert_ne by (by intros ->). lia.
Qed.

Section statistics.
Context `{GoSort} (mapF : string -> string -> list KeyValue) (reduceF : string -> list string -> string).

(** A begun task is counted by the worker that has its call. *)
Lemma phase_exec_sum j ev s s' ws :
  NoDup ws -> (forall w, w ∈ pool (sched s) -> w ∈ ws) ->
  phase_exec mapF reduceF j ev s = Ok (tt, s') ->
  sum_tasks ws (procs s') = sum_tasks ws (procs s) + begins [ev].
Proof.
  intros Hnd Hpool. destruct ev as [w | | k | i ok | late i | late i]; cbn [phase_exec begins].
  1-4: intros ([] & x & _ & [= ->])%on_sched_Ok; cbn; lia.
  - destruct (calls_of late (sched s) !! i) as [[w args []]|] eqn:Hi; try done.
    intros ([] & s1 & Hw & ([] & x & _ & [= ->])%on_sched_Ok)%st_bind_Ok.
    apply on_worker_Ok in Hw as (wk & [] & wk' & p' & Hw & Hm & [= ->]). cbn.
    apply res_bind_Ok in Hm as ([[] wk0] & Ha & Hm%DoTask_enter_Ok). cbn in Ha, Hm. unfold accept in Ha.
    case_decide; [done |]. injection Ha as <-. cbn in Hm.
    rewrite (sum_tasks_insert _ _ _ wk); [lia | done | | done].
    apply Hpool. unfold pool. rewrite !elem_of_app. apply list_elem_of_lookup_2 in Hi.
    apply (list_elem_of_fmap_2 c_worker) in Hi. destruct late; cbn in Hi; tauto.
  - destruct (calls_of late (sched s) !! i) as [[w args []]|] eqn:Hi; try done.
    intros ([] & s1 & Hf & ([] & s2 & Hw & ([] & x & _ & [= ->])%on_sched_Ok)%st_bind_Ok)%st_bind_Ok.
    apply on_files_Ok in Hf as ([] & f' & _ & [= ->]).
    apply on_worker_Ok in Hw as (wk & [] & wk' & p' & Hw & [= <- _] & [= ->]). cbn in *.
    rewrite (sum_tasks_insert _ _ _ wk); [cbn; lia | done | | done].
    apply Hpool. unfold pool. rewrite !elem_of_app. apply list_elem_of_lookup_2 in Hi.
    apply (list_elem_of_fmap_2 c_worker) in Hi. destruct late; cbn in Hi; tauto.
Qed.

Lemma phase_run_sum j evs s s' ws :
  NoDup ws -> pool_ok (sched s) -> (forall w, w ∈ workers (sched s) ++ registered evs -> w ∈ ws) ->
  phase_run mapF reduceF j evs s = Ok (tt, s') ->
  sum_tasks ws (procs s') = sum_tasks ws (procs s) + begins evs.
Proof.
  intros Hnd. revert s. induction evs as [| ev evs IH]; intros s Hp Hws; cbn [phase_run].
  { intros [= <-]. cbn. lia. }
  intros ([] & s1 & H1 & H2)%st_bind_Ok.
  pose proof (sched_event_sstep _ _ _ _ (phase_exec_sched _ _ _ _ _ _ H1)) as Hs.
  rewrite (IH s1); [| by eapply sstep_pool | | done].
  - rewrite (phase_exec_sum j ev s s1 ws); [destruct ev; cbn; lia | done | | done].
    intros w Hw. apply Hws, elem_of_app. left. destruct Hp as [Hp _]. rewrite Hp in Hw.
    rewrite <- (take_drop (fwd_i (sched s)) (workers (sched s))). apply elem_of_app. by left.
  - rewrite (sstep_workers _ _ _ _ Hs), <- app_assoc, <- (registered_cons ev evs). exact Hws.
Qed.
End statistics.

Lemma killLoop_all ws : forall procs acc,
  NoDup ws -> (forall w, w ∈ ws -> exists wk, procs !! w = Some wk /\ nRPC wk <> 0) ->
  (killLoop (fun _ => true) ws procs acc).1 = acc ++ (tasks_done procs <$> ws).
Proof.
  induction ws as [| w ws IH]; intros procs acc Hnd Hw; cbn [killLoop].
  { by rewrite app_nil_r. }
  apply NoDup_cons in Hnd as [Hni Hnd]. destruct (Hw w) as (wk & Hwk & Hr); [left |]. rewrite Hwk.
  unfold st_bind at 1, accept. rewrite decide_False by done. cbn [Shutdown st_bind gets modify mret st_ret nTasks].
  rewrite IH; [| done |].
  - rewrite <- app_assoc, fmap_cons. cbn [app].
    replace (tasks_done procs w) with (nTasks wk) by (unfold tasks_done; by rewrite Hwk).
    apply (f_equal (fun l => acc ++ nTasks wk :: l)), list_fmap_ext. intros i v Hv%list_elem_of_lookup_2. unfold tasks_done.
    rewrite lookup_insert_ne; [done | by intros ->].
  - intros v Hv. rewrite lookup_insert_ne by (by intros ->). apply Hw. by right.
Qed.

(** The statistics of a job count its tasks.  For workers with different
    names that are all reachable at the end, killWorkers reports for each of
    them, in the order of their registration, how many tasks it was given, and
    the sum of the reports is what the workers had done before plus the number
    of DoTasks begun in the phase, those of failed and repeated calls included. *)
Theorem stats_count_tasks `{GoSort} mapF reduceF j ws ps p fs evs s :
  phase_run mapF reduceF j evs (phase_init j ws ps p fs) = Ok (tt, s) ->
  NoDup (ws ++ registered evs) ->
  (forall w, w ∈ ws ++ registered evs -> exists wk, procs s !! w = Some wk /\ nRPC wk <> 0) ->
  exists stats s', killWorkers (fun _ => true) s = Ok (stats, s') /\
    stats = tasks_done (procs s) <$> ws ++ registered evs /\
    foldr Z.add 0 stats = sum_tasks (ws ++ registered evs) ps + begins evs.
Proof.
  intros Hr Hnd Hall. unfold killWorkers.
  assert (Hws : workers (sched s) = ws ++ registered evs).
  { pose proof (phase_run_sched _ _ _ _ _ _ Hr) as Hs. apply (sched_events_workers _ _ _ _ Hs). }
  eexists _, _. split; [reflexivity |]. rewrite Hws, killLoop_all by done. cbn [app]. split; [done |].
  assert (Hp : pool_ok (sched (phase_init j ws ps p fs))) by (split; [done | cbn; lia]).
  pose proof (phase_run_sum mapF reduceF j evs _ s _ Hnd Hp (fun w Hw => Hw) Hr) as Hsum.
  cbn [procs phase_init] in Hsum. rewrite <- Hsum. clear Hsum.
  generalize (ws ++ registered evs) as l. induction l as [| w l IH]; [done |]. cbn.
  unfold sum_tasks in IH. by rewrite IH.
Qed.

Lemma stats_count_tasks_witness :
  exists s stats s', @phase_run insertion_GoSort example_mapF example_reduceF wc1 retry_events
      (phase_init wc1 ["w"; "v"] (procs example_state2) None example_fs) = Ok (tt, s) /\
    killWorkers (fun _ => true) s = Ok (stats, s') /\ foldr Z.add 0 stats = 1.
Proof.
  eexists.
  assert (Hr : @phase_run insertion_GoSort example_mapF example_reduceF wc1 retry_events
      (phase_init wc1 ["w"; "v"] (procs example_state2) None example_fs) = Ok (tt, _)) by (vm_compute; reflexivity).
  destruct (@stats_count_tasks insertion_GoSort example_mapF example_reduceF wc1 ["w"; "v"] (procs example_state2)
    None example_fs retry_events _ Hr) as (stats & s' & Hk & _ & Hsum).
  - clear Hr. cbn. repeat constructor; set_solver.
  - cbn. intros w [-> | [-> | []%not_elem_of_nil]%elem_of_cons]%elem_of_cons; eexists; (split; [reflexivity | done]).
  - exists stats, s'. split; [exact Hr |]. split; [exact Hk |]. rewrite Hsum. vm_compute. reflexivity.
Defined.
