(* ===== verification/MRRpc.v ===== *)
(** * MapReduce: the processes behind the RPCs

    Models src/mapreduce/master_rpc.go, the accept loop of RunWorker in worker.go
    and [call] of common_rpc.go.  A process listens on a Unix socket; [call] dials
    it, sends one request on the new connection and waits for the reply, so a
    connection is a call.  The kernel queues a connection until the process
    accepts it; a dial fails when nobody listens, and a connection that is still
    in the queue when the listener closes is reset.  An accepted connection is
    served by a goroutine of its own, also after the loop has ended.  Every step
    is one section of one goroutine.

    MRSchedule models a call that gets through as one step on the worker; here it
    is shown that RunWorker justifies that. *)

From S2P Require Import Prelude MapReduce MRSchedule.

(** ** Calls *)

(** The reply of a handler: [struct{}], or ShutdownReply. *)
Inductive Reply :=
  | Empty
  | ShutdownReply (Ntasks : Z).

Inductive ConnPc :=
  | Backlog                       (* dialled, not accepted *)
  | Accepted                      (* Accept has returned it *)
  | Serving                       (* ServeConn has it, the handler has not begun *)
  | Inside                        (* the handler has done its first section *)
  | Answered (r : Reply)          (* the handler has returned *)
  | Returned (r : option Reply).  (* call has returned: true with a reply, or false *)
#[export] Instance Reply_eq_dec : EqDecision Reply.
Proof. solve_decision. Defined.
#[export] Instance ConnPc_eq_dec : EqDecision ConnPc.
Proof. solve_decision. Defined.

Section calls.
Context {Req : Type}.

(** rpc.Dial of call *)
Definition dial (listening : bool) (req : Req) (cs : list (Req * ConnPc)) : list (Req * ConnPc) :=
  cs ++ [(req, if listening then Backlog else Returned None)].

Definition set_conn (i : nat) (pc : ConnPc) (cs : list (Req * ConnPc)) : list (Req * ConnPc) :=
  match cs !! i with Some (req, _) => <[i := (req, pc)]> cs | None => cs end.

(** c.Call of call, when it returns *)
Definition call_returns (listening : bool) (i : nat) : ST (list (Req * ConnPc)) unit := fun cs =>
  match cs !! i with
  | Some (_, Answered r) => Ok (tt, set_conn i (Returned (Some r)) cs)
  | Some (_, Backlog) => if listening then Blocked else Ok (tt, set_conn i (Returned None) cs)
  | _ => Blocked
  end.

End calls.

(** ** A worker process *)

Inductive WReq := WDoTask (arg : DoTaskArgs) | WShutdown.

(** Where RunWorker is. *)
Inductive WLoop :=
  | WRegister                (* in wk.register *)
  | WTop                     (* at the top of the loop *)
  | WAccept                  (* at Accept *)
  | WGot (i : nat)           (* Accept has returned the [i]-th connection *)
  | WClose                   (* after the loop *)
  | WExited.
#[export] Instance WLoop_eq_dec : EqDecision WLoop.
Proof. solve_decision. Defined.

(** The counters of parallelism and the files are shared with other processes. *)
Record WProc := mkWProc {
  wk : Worker;
  wpar : option Parallelism;
  wfiles : FS;
  wl : bool;                          (* wk.l is open *)
  wloop : WLoop;
  wconns : list (WReq * ConnPc);
}.

(** RunWorker up to the call of register: it listens. *)
Definition RunWorker (nRPC : Z) (p : option Parallelism) (fs : FS) : WProc :=
  mkWProc (mkWorker nRPC 0 0) p fs true WRegister [].

Definition set_wloop (l : WLoop) (s : WProc) : WProc :=
  mkWProc (wk s) (wpar s) (wfiles s) (wl s) l (wconns s).
Definition set_wconn (i : nat) (pc : ConnPc) (s : WProc) : WProc :=
  mkWProc (wk s) (wpar s) (wfiles s) (wl s) (wloop s) (set_conn i pc (wconns s)).

(** register, when its call returns; whether it succeeded makes no difference. *)
Definition register : ST WProc unit := modify (set_wloop WTop).

(** The goroutine of RunWorker, from one of its points to the next; [i] is the
    connection that Accept returns. *)
Definition RunWorker_loop (i : nat) : ST WProc unit := fun s =>
  match wloop s with
  | WRegister => register s
  | WTop => Ok (tt, set_wloop (if decide (nRPC (wk s) = 0) then WClose else WAccept) s)
  | WAccept =>
      if wl s then
        match wconns s !! i with
        | Some (_, Backlog) => Ok (tt, set_wloop (WGot i) (set_wconn i Accepted s))
        | _ => Blocked
        end
      else Ok (tt, set_wloop WClose s)
  | WGot i =>
      let w := mkWorker (nRPC (wk s) - 1) (nTasks (wk s)) (concurrent (wk s)) in
      Ok (tt, mkWProc w (wpar s) (wfiles s) (wl s) WTop (set_conn i Serving (wconns s)))
  | WClose => Ok (tt, mkWProc (wk s) (wpar s) (wfiles s) false WExited (wconns s))
  | WExited => Blocked
  end.

Section worker.
Context `{GoSort}.
Context (mapF : string -> string -> list KeyValue) (reduceF : string -> list string -> string).

(** The goroutine that serves connection [i]. *)
Definition worker_serve (i : nat) : ST WProc unit := fun s =>
  match wconns s !! i with
  | Some (WDoTask arg, Serving) =>
      r ← DoTask_enter (wk s, wpar s);
      Ok (tt, set_wconn i Inside (mkWProc r.2.1 r.2.2 (wfiles s) (wl s) (wloop s) (wconns s)))
  | Some (WDoTask arg, Inside) =>
      f ← DoTask_body mapF reduceF arg (wfiles s);
      r ← DoTask_leave (wk s, wpar s);
      Ok (tt, set_wconn i (Answered Empty) (mkWProc r.2.1 r.2.2 f.2 (wl s) (wloop s) (wconns s)))
  | Some (WShutdown, Serving) =>
      r ← Shutdown (wk s);
      Ok (tt, set_wconn i (Answered (ShutdownReply r.1))
                (mkWProc r.2 (wpar s) (wfiles s) (wl s) (wloop s) (wconns s)))
  | _ => Blocked
  end.

Inductive WEvent :=
  | ECall (req : WReq)                               (* somebody dials *)
  | ELoop (i : nat)
  | EServe (i : nat)
  | EReturn (i : nat)                                (* a call returns *)
  | EOthers (p : option Parallelism) (fs : FS).      (* other processes change what is shared *)

Definition worker_exec (ev : WEvent) : ST WProc unit := fun s =>
  match ev with
  | ECall req => Ok (tt, mkWProc (wk s) (wpar s) (wfiles s) (wl s) (wloop s) (dial (wl s) req (wconns s)))
  | ELoop i => RunWorker_loop i s
  | EServe i => worker_serve i s
  | EReturn i =>
      r ← call_returns (wl s) i (wconns s);
      Ok (tt, mkWProc (wk s) (wpar s) (wfiles s) (wl s) (wloop s) r.2)
  | EOthers p fs => Ok (tt, mkWProc (wk s) p fs (wl s) (wloop s) (wconns s))
  end.

Fixpoint worker_run (evs : list WEvent) : ST WProc unit :=
  match evs with
  | [] => mret tt
  | ev :: evs => worker_exec ev ;;; worker_run evs
  end.

End worker.

(** ** The master's RPC server *)

Record RegisterArgs := mkRegisterArgs { ra_Worker : string }.

Inductive MReq := MRegister (args : RegisterArgs) | MShutdown.

(** Where the accept loop of startRPCServer is. *)
Inductive ALoop := ATop | AAccept | AEnd.

Record RegServer := mkRegServer {
  mr_workers : list string;
  shutdown : bool;                    (* the channel is closed *)
  ml : bool;                          (* mr.l is open *)
  aloop : ALoop;
  mconns : list (MReq * ConnPc);
}.

(** There is no listener and no loop yet. *)
Definition newMaster : RegServer := mkRegServer [] false false AEnd [].

(** startRPCServer of a new master: it listens and starts the loop. *)
Definition startRPCServer : RegServer :=
  mkRegServer (mr_workers newMaster) (shutdown newMaster) true ATop (mconns newMaster).

(** The accept loop; the connection [i] is handed to a goroutine at once. *)
Definition accept_loop (i : nat) : ST RegServer unit := fun s =>
  match aloop s with
  | ATop => Ok (tt, mkRegServer (mr_workers s) (shutdown s) (ml s) (if shutdown s then AEnd else AAccept) (mconns s))
  | AAccept =>
      if ml s then
        match mconns s !! i with
        | Some (_, Backlog) =>
            Ok (tt, mkRegServer (mr_workers s) (shutdown s) (ml s) ATop (set_conn i Serving (mconns s)))
        | _ => Blocked
        end
      else Ok (tt, mkRegServer (mr_workers s) (shutdown s) (ml s) AEnd (mconns s))
  | AEnd => Blocked
  end.

(** Master.Register and the two statements of Master.Shutdown; closing a closed
    channel panics. *)
Definition master_serve (i : nat) : ST RegServer unit := fun s =>
  match mconns s !! i with
  | Some (MRegister args, Serving) =>
      Ok (tt, mkRegServer (mr_workers s ++ [ra_Worker args]) (shutdown s) (ml s) (aloop s)
                (set_conn i (Answered Empty) (mconns s)))
  | Some (MShutdown, Serving) =>
      if shutdown s then Panic
      else Ok (tt, mkRegServer (mr_workers s) true (ml s) (aloop s) (set_conn i Inside (mconns s)))
  | Some (MShutdown, Inside) =>
      Ok (tt, mkRegServer (mr_workers s) (shutdown s) false (aloop s) (set_conn i (Answered Empty) (mconns s)))
  | _ => Blocked
  end.

Inductive MEvent := MCall (req : MReq) | MLoopStep (i : nat) | MServe (i : nat) | MReturn (i : nat).

Definition master_exec (ev : MEvent) : ST RegServer unit := fun s =>
  match ev with
  | MCall req => Ok (tt, mkRegServer (mr_workers s) (shutdown s) (ml s) (aloop s) (dial (ml s) req (mconns s)))
  | MLoopStep i => accept_loop i s
  | MServe i => master_serve i s
  | MReturn i =>
      r ← call_returns (ml s) i (mconns s);
      Ok (tt, mkRegServer (mr_workers s) (shutdown s) (ml s) (aloop s) r.2)
  end.

Fixpoint master_run (evs : list MEvent) : ST RegServer unit :=
  match evs with
  | [] => mret tt
  | ev :: evs => master_exec ev ;;; master_run evs
  end.

(** stopRPCServer makes this call; its return is a [MReturn]. *)
Definition stopRPCServer : MEvent := MCall MShutdown.

(** ** Counting connections *)

Section tally.
Context {Req : Type}.
Implicit Types (cs : list (Req * ConnPc)) (f : ConnPc -> Z).

Definition tally f cs : Z := foldr (fun c n => f c.2 + n) 0 cs.

Lemma tally_app f cs ds : tally f (cs ++ ds) = tally f cs + tally f ds.
Proof. induction cs as [| c cs IH]; unfold tally in *; cbn; [lia |]. rewrite IH. lia. Qed.

Lemma tally_insert f cs i req pc c :
  cs !! i = Some (req, pc) -> tally f (<[i := c]> cs) = tally f cs - f pc + f c.2.
Proof.
  intros Hi. rewrite insert_take_drop by (by apply lookup_lt_Some in Hi).
  rewrite <- (take_drop_middle cs i (req, pc) Hi) at 3. rewrite !tally_app. cbn. lia.
Qed.

Lemma tally_set_conn f cs i req pc pc' :
  cs !! i = Some (req, pc) -> tally f (set_conn i pc' cs) = tally f cs - f pc + f pc'.
Proof. intros Hi. unfold set_conn. rewrite Hi. by rewrite (tally_insert f cs i req pc). Qed.

Lemma tally_nonneg f cs : (forall pc, 0 <= f pc) -> 0 <= tally f cs.
Proof. intros Hf. induction cs as [| c cs IH]; unfold tally in *; cbn; [lia |]. specialize (Hf c.2). lia. Qed.

Lemma tally_lookup f cs i req pc :
  (forall pc, 0 <= f pc) -> cs !! i = Some (req, pc) -> f pc <= tally f cs.
Proof.
  intros Hf Hi. rewrite <- (take_drop_middle cs i (req, pc) Hi), tally_app. cbn.
  pose proof (tally_nonneg f (take i cs) Hf). pose proof (tally_nonneg f (drop (S i) cs) Hf).
  unfold tally in *. lia.
Qed.

Lemma set_conn_lookup cs i req pc pc' j :
  cs !! i = Some (req, pc) ->
  set_conn i pc' cs !! j = if decide (j = i) then Some (req, pc') else cs !! j.
Proof.
  intros Hi. unfold set_conn. rewrite Hi. case_decide as Hj.
  - subst. apply list_lookup_insert_eq. by apply lookup_lt_Some in Hi.
  - by apply list_lookup_insert_ne.
Qed.

Lemma set_conn_reqs cs i pc : (set_conn i pc cs).*1 = cs.*1.
Proof.
  unfold set_conn. destruct (cs !! i) as [[req pc']|] eqn:Hi; [| done].
  rewrite list_fmap_insert. apply list_insert_id. by rewrite list_lookup_fmap, Hi.
Qed.

Lemma dial_lookup b (req : Req) cs j :
  dial b req cs !! j =
  if decide (j = length cs) then Some (req, if b then Backlog else Returned None) else cs !! j.
Proof.
  unfold dial. case_decide as Hj.
  - subst. by rewrite list_lookup_middle.
  - destruct (decide (j < length cs)%nat); [by rewrite lookup_app_l |].
    rewrite lookup_app_r by lia. rewrite (lookup_ge_None_2 cs) by lia.
    apply lookup_ge_None_2. cbn. lia.
Qed.

Lemma call_returns_Ok b i cs u cs' : call_returns (Req := Req) b i cs = Ok (u, cs') ->
  exists req pc r, cs !! i = Some (req, pc) /\ cs' = set_conn i (Returned r) cs /\
    ((exists r', pc = Answered r' /\ r = Some r') \/ (pc = Backlog /\ b = false /\ r = None)).
Proof.
  unfold call_returns. destruct (cs !! i) as [[req pc]|]; [| done].
  destruct pc, b; intros [= <-]; eauto 12.
Qed.

End tally.
#[local] Arguments tally : simpl never.
#[local] Arguments set_conn : simpl never.
#[local] Arguments dial : simpl never.

(** ** The steps of a worker as rules *)

Section rules.
Context `{GoSort}.
Context (mapF : string -> string -> list KeyValue) (reduceF : string -> list string -> string).

Definition with_conn (i : nat) (pc : ConnPc) (w : Worker) (p : option Parallelism) (fs : FS) (s : WProc) : WProc :=
  mkWProc w p fs (wl s) (wloop s) (set_conn i pc (wconns s)).

Inductive worker_rule (s : WProc) : WEvent -> WProc -> Prop :=
  | r_call req : worker_rule s (ECall req)
      (mkWProc (wk s) (wpar s) (wfiles s) (wl s) (wloop s) (dial (wl s) req (wconns s)))
  | r_registered i : wloop s = WRegister -> worker_rule s (ELoop i) (set_wloop WTop s)
  | r_quota i : wloop s = WTop -> nRPC (wk s) = 0 -> worker_rule s (ELoop i) (set_wloop WClose s)
  | r_go_on i : wloop s = WTop -> nRPC (wk s) <> 0 -> worker_rule s (ELoop i) (set_wloop WAccept s)
  | r_accept i req : wloop s = WAccept -> wl s = true -> wconns s !! i = Some (req, Backlog) ->
      worker_rule s (ELoop i) (set_wloop (WGot i) (set_wconn i Accepted s))
  | r_accept_error i : wloop s = WAccept -> wl s = false -> worker_rule s (ELoop i) (set_wloop WClose s)
  | r_got i j : wloop s = WGot j -> worker_rule s (ELoop i)
      (mkWProc (mkWorker (nRPC (wk s) - 1) (nTasks (wk s)) (concurrent (wk s))) (wpar s) (wfiles s) (wl s) WTop
        (set_conn j Serving (wconns s)))
  | r_close i : wloop s = WClose ->
      worker_rule s (ELoop i) (mkWProc (wk s) (wpar s) (wfiles s) false WExited (wconns s))
  | r_enter i arg w p : wconns s !! i = Some (WDoTask arg, Serving) ->
      DoTask_enter (wk s, wpar s) = Ok (tt, (w, p)) ->
      worker_rule s (EServe i) (with_conn i Inside w p (wfiles s) s)
  | r_leave i arg fs w p : wconns s !! i = Some (WDoTask arg, Inside) ->
      DoTask_body mapF reduceF arg (wfiles s) = Ok (tt, fs) ->
      DoTask_leave (wk s, wpar s) = Ok (tt, (w, p)) ->
      worker_rule s (EServe i) (with_conn i (Answered Empty) w p fs s)
  | r_shutdown i : wconns s !! i = Some (WShutdown, Serving) ->
      worker_rule s (EServe i) (with_conn i (Answered (ShutdownReply (nTasks (wk s))))
        (mkWorker 1 (nTasks (wk s)) (concurrent (wk s))) (wpar s) (wfiles s) s)
  | r_reply i req r : wconns s !! i = Some (req, Answered r) ->
      worker_rule s (EReturn i) (with_conn i (Returned (Some r)) (wk s) (wpar s) (wfiles s) s)
  | r_reset i req : wconns s !! i = Some (req, Backlog) -> wl s = false ->
      worker_rule s (EReturn i) (with_conn i (Returned None) (wk s) (wpar s) (wfiles s) s)
  | r_others p fs : worker_rule s (EOthers p fs) (mkWProc (wk s) p fs (wl s) (wloop s) (wconns s)).

Lemma worker_exec_rule ev s s' : worker_exec mapF reduceF ev s = Ok (tt, s') -> worker_rule s ev s'.
Proof.
  destruct ev as [req | i | i | i | p fs]; cbn [worker_exec].
  - intros [= <-]. constructor.
  - unfold RunWorker_loop. destruct (wloop s) eqn:E; try done.
    + intros [= <-]. by constructor.
    + intros [= <-]. case_decide; by constructor.
    + destruct (wl s) eqn:El; [| intros [= <-]; by constructor].
      destruct (wconns s !! i) as [[req []]|] eqn:Ei; try done. intros [= <-]. by econstructor.
    + intros [= <-]. by constructor.
    + intros [= <-]. by constructor.
  - unfold worker_serve. destruct (wconns s !! i) as [[[arg|] []]|] eqn:Ei; try done.
    + intros ([[] [w p]] & He & [= <-])%res_bind_Ok. exact (r_enter s i arg w p Ei He).
    + intros ([[] f] & Hb & ([[] [w p]] & Hl & [= <-])%res_bind_Ok)%res_bind_Ok.
      exact (r_leave s i arg f w p Ei Hb Hl).
    + intros [= <-]. exact (r_shutdown s i Ei).
  - intros ([u cs'] & (req & pc & r & Hi & -> & Hr)%call_returns_Ok & [= <-])%res_bind_Ok.
    destruct Hr as [(r' & -> & ->) | (-> & Hb & ->)]; [exact (r_reply s i req r' Hi) | exact (r_reset s i req Hi Hb)].
  - intros [= <-]. constructor.
Qed.

Lemma worker_run_inv (P : WProc -> Prop) (Q : WEvent -> Prop) :
  (forall ev s s', Q ev -> P s -> worker_rule s ev s' -> P s') ->
  forall evs s s', Forall Q evs -> P s -> worker_run mapF reduceF evs s = Ok (tt, s') -> P s'.
Proof.
  intros Hstep. induction evs as [| ev evs IH]; intros s s' HQ HP; cbn; [by intros [= <-] |].
  apply Forall_cons in HQ as [HQ HQs].
  intros ([] & s1 & H1%worker_exec_rule & H2)%st_bind_Ok. eauto.
Qed.

(** ** What a worker does before it is told to shut down *)

Definition is_accepted (pc : ConnPc) : Z := match pc with Accepted => 1 | _ => 0 end.
Definition is_taken (pc : ConnPc) : Z :=
  match pc with Serving | Inside | Answered _ | Returned (Some _) => 1 | _ => 0 end.
Definition is_pending (pc : ConnPc) : Z := match pc with Serving => 1 | _ => 0 end.

(** The connections that Accept has returned so far. *)
Definition served (s : WProc) : Z := tally is_accepted (wconns s) + tally is_taken (wconns s).

Definition no_shutdown (ev : WEvent) : Prop := ev <> ECall WShutdown.

Record worker_ok (k : Z) (s : WProc) : Prop := {
  ok_tasks : WShutdown ∉ (wconns s).*1;
  ok_count : nRPC (wk s) = k - tally is_taken (wconns s);
  ok_got : tally is_accepted (wconns s) = match wloop s with WGot _ => 1 | _ => 0 end;
  ok_which : forall i, wloop s = WGot i -> exists req, wconns s !! i = Some (req, Accepted);
  ok_nonzero : match wloop s with WAccept | WGot _ => nRPC (wk s) <> 0
                             | WClose | WExited => nRPC (wk s) = 0 | _ => True end;
  ok_open : wl s = bool_decide (wloop s <> WExited);
  ok_sign : 0 <= k -> 0 <= nRPC (wk s);
}.

Lemma worker_ok_init k p fs : worker_ok k (RunWorker k p fs).
Proof. split; unfold tally; cbn; first [done | set_solver | lia]. Qed.

Lemma tally_dial f b (req : WReq) cs :
  tally f (dial b req cs) = tally f cs + f (if b then Backlog else Returned None).
Proof. unfold dial. rewrite tally_app. unfold tally. cbn. lia. Qed.

Lemma DoTask_enter_nRPC x p u w' p' : DoTask_enter (x, p) = Ok (u, (w', p')) -> nRPC w' = nRPC x.
Proof. unfold DoTask_enter, st_bind, modify, gets, lift. cbn. case_decide; [done |]. by intros [= _ <- _]. Qed.

(** A step that changes only the counters, the files and one connection that the
    loop does not hold. *)
Lemma worker_ok_conn k s i req pc pc' w p fs :
  worker_ok k s -> wconns s !! i = Some (req, pc) -> nRPC w = nRPC (wk s) ->
  is_accepted pc = 0 -> is_accepted pc' = 0 -> is_taken pc' = is_taken pc ->
  worker_ok k (with_conn i pc' w p fs s).
Proof.
  intros [] Hi Hn Ha Ha' Ht. split; cbn [with_conn wconns wk wloop wl]; rewrite ?Hn, ?set_conn_reqs; try done.
  - erewrite tally_set_conn by exact Hi. lia.
  - erewrite tally_set_conn by exact Hi. lia.
  - intros j Hj. destruct (ok_which0 j Hj) as [req' Hr]. exists req'.
    erewrite set_conn_lookup by exact Hi. destruct (decide (j = i)) as [-> |]; [by simplify_eq | done].
Qed.

Lemma worker_ok_loop k s l :
  worker_ok k s -> match wloop s with WGot _ => False | _ => wloop s <> WExited end ->
  match l with WGot _ | WExited => False | WAccept => nRPC (wk s) <> 0 | WClose => nRPC (wk s) = 0 | _ => True end ->
  worker_ok k (set_wloop l s).
Proof.
  intros [] Hs Hl. split; cbn [set_wloop wconns wk wloop wl]; try done.
  - rewrite ok_got0. destruct (wloop s), l; done.
  - by destruct l.
  - by destruct l.
  - rewrite ok_open0. destruct (wloop s), l; done.
Qed.

Lemma worker_rule_ok k ev s s' : no_shutdown ev -> worker_ok k s -> worker_rule s ev s' -> worker_ok k s'.
Proof.
  intros Hev Hs Hr. destruct Hr as [req | i Hl | i Hl Hn | i Hl Hn | i req Hl Ho Hi | i Hl Ho | i j Hl | i Hl
    | i arg w p Hi He | i arg fs w p Hi Hb He | i Hi | i req r Hi | i req Hi Ho | p fs].
  - destruct Hs. split; cbn [wconns wk wloop wl]; rewrite ?tally_dial; try done.
    + unfold dial. rewrite fmap_app. unfold no_shutdown in Hev. set_solver.
    + destruct (wl s); cbn; lia.
    + destruct (wl s); cbn; lia.
    + intros i Hl. destruct (ok_which0 i Hl) as [r Hr]. exists r. rewrite dial_lookup.
      destruct (decide (i = length (wconns s))) as [-> |]; [| done]. apply lookup_lt_Some in Hr. lia.
  - apply worker_ok_loop; [done | by rewrite Hl | done].
  - apply worker_ok_loop; [done | by rewrite Hl | done].
  - apply worker_ok_loop; [done | by rewrite Hl | done].
  - destruct Hs. rewrite Hl in *. split; cbn [set_wloop set_wconn wconns wk wloop wl]; rewrite ?set_conn_reqs; try done.
    + erewrite tally_set_conn by exact Hi. cbn. lia.
    + erewrite tally_set_conn by exact Hi. cbn. lia.
    + intros j [= <-]. exists req. erewrite set_conn_lookup by exact Hi. by rewrite decide_True.
  - destruct Hs. rewrite Hl in *. rewrite ok_open0 in Ho. done.
  - destruct Hs. destruct (ok_which0 j Hl) as [req Hj]. rewrite Hl in *.
    split; cbn [wconns wk wloop wl nRPC]; rewrite ?set_conn_reqs; try done.
    + erewrite tally_set_conn by exact Hj. cbn. lia.
    + erewrite tally_set_conn by exact Hj. cbn. lia.
    + intros Hk. specialize (ok_sign0 Hk). lia.
  - destruct Hs. rewrite Hl in *. by split.
  - eapply worker_ok_conn; try done. by apply DoTask_enter_nRPC in He.
  - eapply worker_ok_conn; try done. injection He as <- <-. done.
  - destruct Hs. destruct ok_tasks0. apply list_elem_of_fmap. exists (WShutdown, Serving).
    split; [done | by eapply list_elem_of_lookup_2].
  - by eapply worker_ok_conn.
  - by eapply worker_ok_conn.
  - destruct Hs. by split.
Qed.

(** ** Refinement: the steps that MRSchedule has for a worker

    [OBegin] is what [SBegin] does to the worker, [OEnd] what [SEnd] does to it
    and to the files. *)

Inductive WOp := OBegin | OEnd (arg : DoTaskArgs) | OOthers (p : option Parallelism) (fs : FS).

Definition worker_op (w : string) (o : WOp) : ST Phase_state unit := fun s =>
  match o with
  | OBegin => on_worker w (fun x => r ← accept x.1; DoTask_enter (r.2, x.2)) s
  | OEnd arg => (on_files (DoTask_body mapF reduceF arg) ;;; on_worker w DoTask_leave) s
  | OOthers p fs => Ok (tt, mkPhase (sched s) (procs s) p fs)
  end.

Fixpoint worker_ops (w : string) (os : list WOp) : ST Phase_state unit :=
  match os with
  | [] => mret tt
  | o :: os => worker_op w o ;;; worker_ops w os
  end.

(** A connection that waits for its handler still counts for the worker of
    MRSchedule. *)
Definition abs_worker (s : WProc) : Worker :=
  mkWorker (nRPC (wk s) + tally is_pending (wconns s)) (nTasks (wk s)) (concurrent (wk s)).
Definition abs_phase (sc : Sched) (w : string) (s : WProc) : Phase_state :=
  mkPhase sc {[w := abs_worker s]} (wpar s) (wfiles s).

(** Both sides end in the same way. *)
Definition same_outcome (sc : Sched) (w : string) (r : res (unit * WProc)) (a : res (unit * Phase_state)) : Prop :=
  match r with
  | Ok (_, s) => a = Ok (tt, abs_phase sc w s)
  | Panic => a = Panic
  | Fatal => a = Fatal
  | Blocked => True
  end.

Lemma on_worker_single {A} sc w x p fs (m : ST (Worker * option Parallelism) A) :
  on_worker w m (mkPhase sc {[w := x]} p fs) =
  (r ← m (x, p); Ok (r.1, mkPhase sc {[w := r.2.1]} r.2.2 fs)).
Proof.
  unfold on_worker. cbn. rewrite lookup_singleton_eq. destruct (m (x, p)) as [[a [x' p']]| | |]; cbn; [| done..].
  by rewrite insert_singleton_eq.
Qed.

Lemma enter_at n x p : DoTask_enter (mkWorker n (nTasks x) (concurrent x), p) =
  (r ← DoTask_enter (x, p); Ok (tt, (mkWorker n (nTasks r.2.1) (concurrent r.2.1), r.2.2))).
Proof. unfold DoTask_enter, st_bind, modify, gets, lift. cbn. by case_decide. Qed.

Lemma accept_pending k s i arg : worker_ok k s -> wconns s !! i = Some (WDoTask arg, Serving) ->
  nRPC (abs_worker s) <> 0.
Proof.
  intros [] Hi. cbn. pose proof (tally_lookup is_pending _ _ _ _ ltac:(by intros []) Hi). cbn in H0.
  assert (Hle : tally is_pending (wconns s) <= tally is_taken (wconns s)).
  { clear. induction (wconns s) as [| [r pc] cs IH]; unfold tally in *; cbn in *; [lia |].
    destruct pc as [| | | | | []]; cbn; lia. }
  lia.
Qed.

Lemma abs_with_conn sc w i req pc pc' x p fs s :
  wconns s !! i = Some (req, pc) ->
  abs_phase sc w (with_conn i pc' x p fs s) =
  mkPhase sc {[w := mkWorker (nRPC x + tally is_pending (wconns s) - is_pending pc + is_pending pc')
                      (nTasks x) (concurrent x)]} p fs.
Proof.
  intros Hi. unfold abs_phase, abs_worker. cbn. erewrite tally_set_conn by exact Hi. do 3 f_equal. lia.
Qed.

Lemma begin_refines sc w k s i arg : worker_ok k s -> wconns s !! i = Some (WDoTask arg, Serving) ->
  same_outcome sc w (worker_serve mapF reduceF i s) (worker_op w OBegin (abs_phase sc w s)).
Proof.
  intros Hs Hi. pose proof (accept_pending _ _ _ _ Hs Hi) as Hn.
  assert (Ha : accept (abs_worker s) =
    Ok (tt, mkWorker (nRPC (abs_worker s) - 1) (nTasks (wk s)) (concurrent (wk s)))).
  { unfold accept. by rewrite decide_False. }
  unfold worker_serve. rewrite Hi. unfold worker_op, abs_phase. rewrite on_worker_single.
  cbn [fst snd]. rewrite Ha. cbn [mbind res_bind fst snd]. rewrite enter_at.
  destruct (DoTask_enter (wk s, wpar s)) as [[[] [x p]]| | |] eqn:E; cbn; [| done..].
  change (set_wconn i Inside _) with (with_conn i Inside x p (wfiles s) s).
  rewrite (abs_with_conn _ _ _ _ _ _ _ _ _ _ Hi). cbn. rewrite (DoTask_enter_nRPC _ _ _ _ _ E).
  do 5 f_equal. lia.
Qed.

Lemma end_refines sc w s i arg : wconns s !! i = Some (WDoTask arg, Inside) ->
  same_outcome sc w (worker_serve mapF reduceF i s) (worker_op w (OEnd arg) (abs_phase sc w s)).
Proof.
  intros Hi. unfold worker_serve. rewrite Hi. unfold worker_op, st_bind, on_files, abs_phase. cbn.
  destruct (DoTask_body mapF reduceF arg (wfiles s)) as [[[] f]| | |] eqn:E; cbn; [| done..].
  rewrite on_worker_single. cbn.
  match goal with |- context [set_wconn i (Answered Empty) (mkWProc ?x ?p f _ _ _)] =>
    change (set_wconn i (Answered Empty) _) with (with_conn i (Answered Empty) x p f s) end.
  rewrite (abs_with_conn _ _ _ _ _ _ _ _ _ _ Hi). cbn. do 5 f_equal. lia.
Qed.

(** The other steps change nothing that the abstract worker has. *)
Lemma loop_refines sc w k ev s s' : worker_ok k s -> worker_rule s ev s' ->
  match ev with EServe _ | EOthers _ _ => False | _ => True end -> abs_phase sc w s' = abs_phase sc w s.
Proof.
  intros Hs Hr Hev. destruct Hr as [req | i Hl | i Hl Hn | i Hl Hn | i req Hl Ho Hi | i Hl Ho | i j Hl | i Hl
    | i arg x p Hi He | i arg fs x p Hi Hb He | i Hi | i req r Hi | i req Hi Ho | p fs]; try done.
  - unfold abs_phase, abs_worker. cbn. rewrite tally_dial. do 3 f_equal. destruct (wl s); cbn; lia.
  - unfold abs_phase, abs_worker. cbn. erewrite tally_set_conn by exact Hi. cbn. do 3 f_equal. lia.
  - destruct (ok_which _ _ Hs j Hl) as [req Hj].
    unfold abs_phase, abs_worker. cbn. erewrite tally_set_conn by exact Hj. cbn. do 3 f_equal. lia.
  - rewrite (abs_with_conn _ _ _ _ _ _ _ _ _ _ Hi). unfold abs_phase, abs_worker. cbn. do 3 f_equal. lia.
  - rewrite (abs_with_conn _ _ _ _ _ _ _ _ _ _ Hi). unfold abs_phase, abs_worker. cbn. do 3 f_equal. lia.
Qed.

Lemma worker_ops_one w o a : worker_ops w [o] a = worker_op w o a.
Proof. cbn. unfold st_bind. by destruct (worker_op w o a) as [[[] ?]| | |]. Qed.

Lemma worker_ops_app w os1 os2 a : worker_ops w (os1 ++ os2) a = (worker_ops w os1 ;;; worker_ops w os2) a.
Proof.
  revert a. induction os1 as [| o os1 IH]; intros a; cbn; [done |].
  unfold st_bind in *. destruct (worker_op w o a) as [[[] a']| | |]; [apply IH | done..].
Qed.

(** One step of the process is at most one step of the abstract worker. *)
Lemma worker_step_refines sc w k ev s : no_shutdown ev -> worker_ok k s ->
  exists os, same_outcome sc w (worker_exec mapF reduceF ev s) (worker_ops w os (abs_phase sc w s)).
Proof.
  intros Hev Hs. destruct ev as [req | i | i | i | p fs].
  3: { cbn [worker_exec]. destruct (wconns s !! i) as [[[arg|] pc]|] eqn:Hi; swap 1 2.
       - destruct Hs. destruct ok_tasks0. apply list_elem_of_fmap. exists (WShutdown, pc).
         split; [done | by eapply list_elem_of_lookup_2].
       - destruct (decide (pc = Serving)) as [-> |]; [exists [OBegin]; rewrite worker_ops_one; by eapply begin_refines |].
         destruct (decide (pc = Inside)) as [-> |]; [exists [OEnd arg]; rewrite worker_ops_one; by eapply end_refines |].
         exists []. unfold worker_serve. rewrite Hi. by destruct pc.
       - exists []. unfold worker_serve. by rewrite Hi. }
  4: { exists [OOthers p fs]. by rewrite worker_ops_one. }
  all: exists []; destruct (worker_exec mapF reduceF _ s) as [[[] s']| | |] eqn:E;
    [cbn; unfold mret, st_ret; do 2 f_equal; symmetry;
     eapply loop_refines; [done | by eapply worker_exec_rule | done] | | | done].
  all: cbn in E; unfold RunWorker_loop, call_returns in E; repeat case_match; done.
Qed.

Lemma worker_run_refines sc w k evs : forall s, Forall no_shutdown evs -> worker_ok k s ->
  exists os, same_outcome sc w (worker_run mapF reduceF evs s) (worker_ops w os (abs_phase sc w s)).
Proof.
  induction evs as [| ev evs IH]; intros s Hq Hs; [by exists [] |]. apply Forall_cons in Hq as [Hq Hqs].
  destruct (worker_step_refines sc w k ev s Hq Hs) as [os Hos]. cbn [worker_run]. unfold st_bind.
  destruct (worker_exec mapF reduceF ev s) as [[[] s']| | |] eqn:E; cbn in Hos; [| by exists os..].
  destruct (IH s' Hqs) as [os' Hos']. { eapply worker_rule_ok; eauto using worker_exec_rule. }
  exists (os ++ os'). rewrite worker_ops_app. unfold st_bind. by rewrite Hos.
Qed.

(** ** A worker that is told to shut down *)

Definition no_call (ev : WEvent) : Prop := match ev with ECall _ => False | _ => True end.

(** Everything but the [n]-th connection, a Shutdown, is accepted. *)
Record stopping (n : nat) (s : WProc) : Prop := {
  stop_open : wl s = true;
  stop_loop : wloop s <> WClose /\ wloop s <> WExited;
  stop_others : forall i req pc, i <> n -> wconns s !! i = Some (req, pc) ->
    req <> WShutdown /\ pc <> Backlog /\ pc <> Accepted;
  stop_last : exists pc, wconns s !! n = Some (WShutdown, pc) /\
    match pc with
    | Backlog | Serving => nRPC (wk s) < 0 /\ wloop s <> WGot n
    | Accepted => nRPC (wk s) < 0
    | Inside => False
    | _ => nRPC (wk s) = 1 /\ wloop s <> WGot n
    end;
  stop_got : forall i, wloop s = WGot i -> i = n;
}.

Lemma stopping_loop n s l : stopping n s -> (forall i, wloop s <> WGot i) -> (forall i, l <> WGot i) ->
  l <> WClose -> l <> WExited -> stopping n (set_wloop l s).
Proof.
  intros [] Hs Hl Hc He. split; cbn; try done; [| by intros i ?; destruct (Hl i)].
  destruct stop_last0 as (pc & Hn & Hpc). exists pc. split; [done |]. destruct pc; naive_solver.
Qed.

Lemma stopping_other n s i req pc pc' w p fs : stopping n s -> wconns s !! i = Some (req, pc) -> i <> n ->
  pc' <> Backlog -> pc' <> Accepted -> nRPC w = nRPC (wk s) -> stopping n (with_conn i pc' w p fs s).
Proof.
  intros [] Hi Hne Hb Ha Hw. split; cbn; try done.
  - intros j req' pc'' Hj. erewrite set_conn_lookup by exact Hi. destruct (decide (j = i)) as [-> |]; [| by apply stop_others0].
    intros [= <- <-]. by destruct (stop_others0 _ _ _ Hne Hi).
  - erewrite set_conn_lookup by exact Hi. rewrite decide_False by done. by rewrite Hw.
Qed.

Lemma stopping_last n s pc pc' w p fs l : stopping n s -> wconns s !! n = Some (WShutdown, pc) ->
  l <> WClose -> l <> WExited -> (forall i, l = WGot i -> i = n) ->
  match pc' with
  | Backlog | Serving => nRPC w < 0 /\ l <> WGot n
  | Accepted => nRPC w < 0
  | Inside => False
  | _ => nRPC w = 1 /\ l <> WGot n
  end ->
  stopping n (mkWProc w p fs (wl s) l (set_conn n pc' (wconns s))).
Proof.
  intros [] Hn Hc He Hg Hpc. split; cbn; try done.
  - intros j req' pc'' Hj. erewrite set_conn_lookup by exact Hn. rewrite decide_False by done. by apply stop_others0.
  - exists pc'. erewrite set_conn_lookup by exact Hn. by rewrite decide_True.
Qed.

Lemma stopping_rule n ev s s' : no_call ev -> stopping n s -> worker_rule s ev s' -> stopping n s'.
Proof.
  intros Hev Hs Hr. pose proof Hs as [Ho [Hc He] Hothers (pc & Hn & Hpc) Hg].
  destruct Hr as [req | i Hl | i Hl Hz | i Hl Hz | i req Hl Ho' Hi | i Hl Ho' | i j Hl | i Hl
    | i arg w p Hi Hw | i arg fs w p Hi Hb Hw | i Hi | i req r Hi | i req Hi Ho' | p fs]; try congruence.
  - done.
  - by apply stopping_loop; [| rewrite Hl | ..].
  - exfalso. destruct pc; try done; lia.
  - by apply stopping_loop; [| rewrite Hl | ..].
  - assert (i = n) as ->. { destruct (decide (i = n)); [done |]. by destruct (Hothers _ _ _ n0 Hi) as (_ & ? & _). }
    rewrite Hn in Hi. injection Hi as <- ->. apply (stopping_last n s Backlog); naive_solver.
  - assert (j = n) as -> by auto. rewrite Hl in *.
    assert (pc = Accepted) as -> by (destruct pc; naive_solver).
    apply (stopping_last n s Accepted); try done. cbn. split; [lia | done].
  - destruct (decide (i = n)) as [-> |]; [congruence |].
    eapply stopping_other; try done. by eapply DoTask_enter_nRPC.
  - destruct (decide (i = n)) as [-> |]; [congruence |].
    eapply stopping_other; try done. by injection Hw as <- _.
  - destruct (decide (i = n)) as [-> |]; [| by destruct (Hothers _ _ _ n0 Hi)].
    rewrite Hn in Hi. injection Hi as ->. eapply stopping_last; try done. split; [done | naive_solver].
  - destruct (decide (i = n)) as [-> |]; [| by eapply stopping_other].
    rewrite Hn in Hi. injection Hi as <- ->. eapply stopping_last; try done.
  - split; try done. exists pc. done.
Qed.

Lemma stopping_start k s : worker_ok k s -> k < 0 -> wloop s = WAccept -> Forall (fun c => c.2 <> Backlog) (wconns s) ->
  stopping (length (wconns s)) (mkWProc (wk s) (wpar s) (wfiles s) (wl s) (wloop s) (dial (wl s) WShutdown (wconns s))).
Proof.
  intros [] Hk Hl Hb. rewrite Hl in *. assert (Hn : nRPC (wk s) < 0).
  { pose proof (tally_nonneg is_taken (wconns s) ltac:(by intros [| | | | | []])). lia. }
  rewrite ok_open0. split; cbn; try done.
  - intros i req pc Hi. rewrite dial_lookup, decide_False by done. intros Hi'. split_and!.
    + intros ->. apply ok_tasks0, list_elem_of_fmap. exists (WShutdown, pc). split; [done | by eapply list_elem_of_lookup_2].
    + by apply (Forall_lookup_1 _ _ _ _ Hb Hi').
    + intros ->. pose proof (tally_lookup is_accepted _ _ _ _ ltac:(by intros []) Hi'). cbn in *. lia.
  - exists Backlog. rewrite dial_lookup, decide_True by done. done.
Qed.

Lemma worker_run_app evs1 evs2 s :
  worker_run mapF reduceF (evs1 ++ evs2) s = (worker_run mapF reduceF evs1 ;;; worker_run mapF reduceF evs2) s.
Proof.
  revert s. induction evs1 as [| ev evs1 IH]; intros s; cbn; [done |].
  unfold st_bind in *. destruct (worker_exec mapF reduceF ev s) as [[[] s']| | |]; [apply IH | done..].
Qed.

(** The way of a Shutdown through a worker that waits for connections. *)
Definition shutdown_call (n : nat) : list WEvent := [ECall WShutdown; ELoop n; ELoop n; EServe n; EReturn n].

Lemma set_conn_last i pc pc' (req : WReq) cs : i = length cs -> set_conn i pc (cs ++ [(req, pc')]) = cs ++ [(req, pc)].
Proof.
  intros ->. unfold set_conn. rewrite list_lookup_middle by done.
  by rewrite insert_app_r_alt, Nat.sub_diag by done.
Qed.

Lemma shutdown_call_returns s : wloop s = WAccept -> wl s = true ->
  worker_run mapF reduceF (shutdown_call (length (wconns s))) s =
  Ok (tt, mkWProc (mkWorker 1 (nTasks (wk s)) (concurrent (wk s))) (wpar s) (wfiles s) true WTop
            (wconns s ++ [(WShutdown, Returned (Some (ShutdownReply (nTasks (wk s)))))])).
Proof.
  intros Hl Ho. destruct s as [w p fs l lp cs]. cbn in *. subst. unfold st_bind, worker_exec.
  cbn [RunWorker_loop wloop wl wconns]. rewrite dial_lookup, decide_True by done.
  unfold RunWorker_loop. cbn [set_wloop set_wconn wloop wl wconns wk wpar wfiles].
  unfold dial. rewrite !set_conn_last by done. unfold worker_serve. cbn [wconns].
  rewrite list_lookup_middle by done. cbn [Shutdown]. cbn -[set_conn].
  unfold call_returns. cbn [wconns set_wconn]. rewrite set_conn_last by done.
  rewrite list_lookup_middle by done. cbn -[set_conn]. by rewrite set_conn_last.
Qed.

End rules.

(** ** The registration server *)

Definition stop_pcs (cs : list (MReq * ConnPc)) : list ConnPc :=
  omap (fun c => match c.1 with MShutdown => Some c.2 | _ => None end) cs.
(** The workers whose Register call was answered. *)
Definition registered_name (c : MReq * ConnPc) : option string :=
  match c with
  | (MRegister args, Answered _) | (MRegister args, Returned (Some _)) => Some (ra_Worker args)
  | _ => None
  end.
Definition registered_names (cs : list (MReq * ConnPc)) : list string := omap registered_name cs.

(** The state that the only Shutdown call leaves the server in. *)
Definition stop_state (s : RegServer) (pc : ConnPc) : Prop :=
  match pc with
  | Backlog | Serving => shutdown s = false /\ ml s = true
  | Inside => shutdown s = true /\ ml s = true
  | Answered _ | Returned (Some _) => shutdown s = true /\ ml s = false
  | _ => False
  end.

Record server_ok (s : RegServer) : Prop := {
  srv_stop : match stop_pcs (mconns s) with
             | [] => shutdown s = false /\ ml s = true
             | [pc] => stop_state s pc
             | _ => False
             end;
  srv_end : aloop s = AEnd -> shutdown s = true;
  srv_names : mr_workers s ≡ₚ registered_names (mconns s);
}.

Lemma set_conn_split {Req} (cs : list (Req * ConnPc)) i req pc pc' : cs !! i = Some (req, pc) ->
  cs = take i cs ++ (req, pc) :: drop (S i) cs /\
  set_conn i pc' cs = take i cs ++ (req, pc') :: drop (S i) cs.
Proof.
  intros Hi. split; [symmetry; by apply take_drop_middle |]. unfold set_conn. rewrite Hi.
  apply insert_take_drop. by apply lookup_lt_Some in Hi.
Qed.

Lemma stop_pcs_register cs i args pc pc' :
  cs !! i = Some (MRegister args, pc) -> stop_pcs (set_conn i pc' cs) = stop_pcs cs.
Proof.
  intros Hi. destruct (set_conn_split cs i _ _ pc' Hi) as [H1 ->]. rewrite H1 at 3.
  unfold stop_pcs. by rewrite !omap_app.
Qed.

Lemma stop_pcs_shutdown cs i pc pc' : cs !! i = Some (MShutdown, pc) ->
  exists l k, stop_pcs cs = l ++ pc :: k /\ stop_pcs (set_conn i pc' cs) = l ++ pc' :: k.
Proof.
  intros Hi. destruct (set_conn_split cs i _ _ pc' Hi) as [H1 H2].
  exists (stop_pcs (take i cs)), (stop_pcs (drop (S i) cs)).
  split; [rewrite H1 at 1 | rewrite H2]; unfold stop_pcs; by rewrite omap_app.
Qed.

Lemma stop_pcs_only cs i pc pc0 : cs !! i = Some (MShutdown, pc) -> stop_pcs cs = [pc0] -> pc = pc0.
Proof. intros Hi Hs. assert (pc ∈ stop_pcs cs) as Hin; [| rewrite Hs in Hin; set_solver].
  apply list_elem_of_omap. exists (MShutdown, pc). split; [by eapply list_elem_of_lookup_2 | done].
Qed.

Lemma server_ok_shutdown s i pc : server_ok s -> mconns s !! i = Some (MShutdown, pc) ->
  stop_state s pc /\ forall pc', stop_pcs (set_conn i pc' (mconns s)) = [pc'].
Proof.
  intros [Hs _ _] Hi. split.
  - destruct (stop_pcs_shutdown _ _ _ pc Hi) as (l & k & Hl & _). rewrite Hl in Hs.
    destruct l as [| ? [|]], k; try done.
  - intros pc'. destruct (stop_pcs_shutdown _ _ _ pc' Hi) as (l & k & Hl & ->). rewrite Hl in Hs.
    destruct l as [| ? [|]], k; try done.
Qed.

Lemma registered_names_same cs i req pc pc' : cs !! i = Some (req, pc) ->
  registered_name (req, pc') = registered_name (req, pc) ->
  registered_names (set_conn i pc' cs) = registered_names cs.
Proof.
  intros Hi Hr. destruct (set_conn_split cs i _ _ pc' Hi) as [H1 ->]. rewrite H1 at 3.
  unfold registered_names. rewrite !omap_app. cbn [omap list_omap]. by rewrite Hr.
Qed.

(** The steps of the server. *)
Inductive server_rule (s : RegServer) : MEvent -> RegServer -> Prop :=
  | m_call req : server_rule s (MCall req)
      (mkRegServer (mr_workers s) (shutdown s) (ml s) (aloop s) (dial (ml s) req (mconns s)))
  | m_top i : aloop s = ATop -> server_rule s (MLoopStep i)
      (mkRegServer (mr_workers s) (shutdown s) (ml s) (if shutdown s then AEnd else AAccept) (mconns s))
  | m_accept i req : aloop s = AAccept -> ml s = true -> mconns s !! i = Some (req, Backlog) ->
      server_rule s (MLoopStep i)
        (mkRegServer (mr_workers s) (shutdown s) (ml s) ATop (set_conn i Serving (mconns s)))
  | m_error i : aloop s = AAccept -> ml s = false -> server_rule s (MLoopStep i)
      (mkRegServer (mr_workers s) (shutdown s) (ml s) AEnd (mconns s))
  | m_register i args : mconns s !! i = Some (MRegister args, Serving) -> server_rule s (MServe i)
      (mkRegServer (mr_workers s ++ [ra_Worker args]) (shutdown s) (ml s) (aloop s) (set_conn i (Answered Empty) (mconns s)))
  | m_close i : mconns s !! i = Some (MShutdown, Serving) -> shutdown s = false -> server_rule s (MServe i)
      (mkRegServer (mr_workers s) true (ml s) (aloop s) (set_conn i Inside (mconns s)))
  | m_close_l i : mconns s !! i = Some (MShutdown, Inside) -> server_rule s (MServe i)
      (mkRegServer (mr_workers s) (shutdown s) false (aloop s) (set_conn i (Answered Empty) (mconns s)))
  | m_reply i req r : mconns s !! i = Some (req, Answered r) -> server_rule s (MReturn i)
      (mkRegServer (mr_workers s) (shutdown s) (ml s) (aloop s) (set_conn i (Returned (Some r)) (mconns s)))
  | m_reset i req : mconns s !! i = Some (req, Backlog) -> ml s = false -> server_rule s (MReturn i)
      (mkRegServer (mr_workers s) (shutdown s) (ml s) (aloop s) (set_conn i (Returned None) (mconns s))).

Lemma master_exec_rule ev s s' : master_exec ev s = Ok (tt, s') -> server_rule s ev s'.
Proof.
  destruct ev as [req | i | i | i]; cbn [master_exec].
  - intros [= <-]. constructor.
  - unfold accept_loop. destruct (aloop s) eqn:E; try done.
    + intros [= <-]. by constructor.
    + destruct (ml s) eqn:El; [| intros [= <-]; rewrite <- El; by constructor].
      destruct (mconns s !! i) as [[req []]|] eqn:Ei; try done. intros [= <-]. rewrite <- El. by econstructor.
  - unfold master_serve. destruct (mconns s !! i) as [[[args|] []]|] eqn:Ei; try done.
    + intros [= <-]. by constructor.
    + destruct (shutdown s) eqn:Es; [done |]. intros [= <-]. by constructor.
    + intros [= <-]. by constructor.
  - intros ([u cs'] & (req & pc & r & Hi & -> & Hr)%call_returns_Ok & [= <-])%res_bind_Ok.
    destruct Hr as [(r' & -> & ->) | (-> & Hb & ->)]; by econstructor.
Qed.

Definition is_stop (ev : MEvent) : nat := match ev with MCall MShutdown => 1 | _ => 0 end.
Definition stops (evs : list MEvent) : nat := sum_list_with is_stop evs.

Lemma stop_pcs_dial b req cs :
  stop_pcs (dial b req cs) =
  stop_pcs cs ++ match req with MShutdown => [if b then Backlog else Returned None] | _ => [] end.
Proof. unfold dial, stop_pcs. rewrite omap_app. by destruct req. Qed.

Lemma stop_pcs_length i pc cs : length (stop_pcs (set_conn i pc cs)) = length (stop_pcs cs).
Proof.
  destruct (cs !! i) as [[[args|] pc0]|] eqn:Hi; [by erewrite stop_pcs_register | | by unfold set_conn; rewrite Hi].
  destruct (stop_pcs_shutdown cs i pc0 pc Hi) as (l & k & -> & ->). by rewrite !length_app.
Qed.

Lemma server_rule_stops ev s s' : server_rule s ev s' ->
  length (stop_pcs (mconns s')) = (length (stop_pcs (mconns s)) + is_stop ev)%nat.
Proof.
  intros []; cbn [mconns is_stop]; rewrite ?stop_pcs_length; try lia.
  rewrite stop_pcs_dial, length_app. by destruct req.
Qed.

(** A step of a connection whose state says nothing about Shutdown. *)
Lemma server_ok_conn s i req pc pc' ws lp :
  server_ok s -> mconns s !! i = Some (req, pc) ->
  (req = MShutdown -> stop_state s pc -> stop_state s pc') ->
  (lp = AEnd -> shutdown s = true) -> ws ≡ₚ registered_names (set_conn i pc' (mconns s)) ->
  server_ok (mkRegServer ws (shutdown s) (ml s) lp (set_conn i pc' (mconns s))).
Proof.
  intros Hs Hi Hstop Hl Hws. split; cbn [mconns aloop shutdown mr_workers]; [| done..].
  destruct req as [args|]; [erewrite stop_pcs_register by exact Hi; exact (srv_stop _ Hs) |].
  destruct (server_ok_shutdown _ _ _ Hs Hi) as [Hst ->]. by apply Hstop.
Qed.

Lemma server_rule_ok ev s s' :
  server_ok s -> (length (stop_pcs (mconns s)) + is_stop ev <= 1)%nat -> server_rule s ev s' -> server_ok s'.
Proof.
  intros Hs Hone Hr. pose proof Hs as [Hstop Hend Hnames].
  destruct Hr as [req | i Hl | i req Hl Ho Hi | i Hl Ho | i args Hi | i Hi Hsh | i Hi | i req r Hi | i req Hi Ho].
  - split; cbn [mconns aloop shutdown mr_workers ml]; [| done |].
    + rewrite stop_pcs_dial. destruct req; [by rewrite app_nil_r |].
      destruct (stop_pcs (mconns s)); [| cbn in Hone; lia]. destruct Hstop as [? ->]. by split.
    + unfold registered_names, dial. rewrite omap_app. cbn. destruct req, (ml s); by rewrite app_nil_r.
  - split; cbn; try done. by destruct (shutdown s).
  - eapply server_ok_conn; [done | exact Hi | done | done |].
    erewrite registered_names_same; [exact Hnames | exact Hi |]. by destruct req.
  - split; cbn; try done. intros _.
    destruct (stop_pcs (mconns s)) as [| pc [|]]; [naive_solver congruence | | done].
    destruct pc as [| | | | | []]; naive_solver congruence.
  - eapply server_ok_conn; [done | exact Hi | done | done |].
    destruct (set_conn_split _ _ _ _ (Answered Empty) Hi) as [H1 ->]. rewrite Hnames, H1 at 1.
    unfold registered_names. rewrite !omap_app. cbn. rewrite Permutation_app_comm. cbn.
    apply Permutation_middle.
  - destruct (server_ok_shutdown _ _ _ Hs Hi) as [[_ Hm] Hp]. split; cbn; [rewrite Hp; by split | done |].
    erewrite registered_names_same; [exact Hnames | exact Hi | done].
  - destruct (server_ok_shutdown _ _ _ Hs Hi) as [[Hm _] Hp]. split; cbn; [rewrite Hp; by split | done |].
    erewrite registered_names_same; [exact Hnames | exact Hi | done].
  - eapply server_ok_conn; [done | exact Hi | done | done |].
    erewrite registered_names_same; [exact Hnames | exact Hi |]. by destruct req.
  - eapply server_ok_conn; [done | exact Hi | by intros -> [_ ?]; congruence | done |].
    erewrite registered_names_same; [exact Hnames | exact Hi |]. by destruct req.
Qed.

Lemma master_run_ok evs : forall s s', server_ok s -> (length (stop_pcs (mconns s)) + stops evs <= 1)%nat ->
  master_run evs s = Ok (tt, s') ->
  server_ok s' /\ length (stop_pcs (mconns s')) = (length (stop_pcs (mconns s)) + stops evs)%nat.
Proof.
  induction evs as [| ev evs IH]; intros s s' Hs Hone; cbn; [intros [= <-]; split; [done | lia] |].
  cbn in Hone. change (sum_list_with is_stop evs) with (stops evs) in *.
  intros ([] & s1 & H1%master_exec_rule & H2)%st_bind_Ok. pose proof (server_rule_stops _ _ _ H1) as Hlen.
  destruct (IH s1 s') as [? ?]; [eapply server_rule_ok; eauto; lia | lia | done |]. split; [done | lia].
Qed.

Lemma server_ok_init : server_ok startRPCServer.
Proof. by split. Qed.

(** After Shutdown nothing more is accepted. *)
Definition unserved (pc : ConnPc) : Prop := pc = Backlog \/ pc = Returned None.

Definition unserved_at (s : RegServer) (i : nat) : Prop :=
  forall req pc, mconns s !! i = Some (req, pc) -> unserved pc.

Lemma closed_rule ev s s' i : ml s = false -> server_rule s ev s' ->
  ml s' = false /\ (unserved_at s i -> unserved_at s' i).
Proof.
  unfold unserved_at. intros Hml Hr.
  assert (Hset : forall j req pc pc', mconns s !! j = Some (req, pc) -> (unserved pc -> unserved pc') ->
    (forall req pc, mconns s !! i = Some (req, pc) -> unserved pc) ->
    forall req pc, set_conn j pc' (mconns s) !! i = Some (req, pc) -> unserved pc).
  { intros j req pc pc' Hj Hp Hu req' pc''. erewrite set_conn_lookup by exact Hj.
    case_decide; [subst; intros [= <- <-]; eauto | apply Hu]. }
  destruct Hr as [req | j Hl | j req Hl Ho Hi | j Hl Ho | j args Hi | j Hi Hsh | j Hi | j req r Hi | j req Hi Ho];
    cbn [ml mconns]; (split; [done |]); try congruence; try done.
  2-6: eapply Hset; [exact Hi |]; unfold unserved; naive_solver.
  intros Hu req' pc'. rewrite Hml, dial_lookup. case_decide; [intros [= <- <-]; by right | apply Hu].
Qed.

Lemma closed_run evs : forall s s' i, ml s = false -> master_run evs s = Ok (tt, s') ->
  ml s' = false /\ (unserved_at s i -> unserved_at s' i).
Proof.
  induction evs as [| ev evs IH]; intros s s' i Hml; cbn; [by intros [= <-] |].
  intros ([] & s1 & H1%master_exec_rule & H2)%st_bind_Ok. destruct (closed_rule _ _ _ i Hml H1) as [Hm Hu].
  destruct (IH _ _ i Hm H2). auto.
Qed.

(** ** Claims *)


Definition demo_task : DoTaskArgs := mkDoTaskArgs "wc" "in1" mapPhase 0 1.
(** A worker with a quota of one that serves one of two calls. *)
Definition quota_events : list WEvent :=
  [ECall (WDoTask demo_task); ELoop 0; ELoop 0; ECall (WDoTask demo_task); ELoop 0; ELoop 0; EServe 0;
   ELoop 0; EServe 0; EReturn 0; ELoop 0; EReturn 1].


(** C30: Worker.Shutdown does not end RunWorker.  A worker without a quota waits for
    connections, all that arrived are accepted, and the master calls Shutdown.  The
    call can return its reply, the number of tasks; but as long as nobody dials the
    worker again its loop does not end and its socket stays open.  Shutdown sets
    nRPC to 1 when the connection that carries it has been counted already, so the
    loop waits for one more. *)
Theorem worker_outlives_shutdown `{GoSort} mapF reduceF k p fs evs s : k < 0 -> Forall no_shutdown evs ->
  worker_run mapF reduceF evs (RunWorker k p fs) = Ok (tt, s) ->
  wloop s = WAccept -> Forall (fun c => c.2 <> Backlog) (wconns s) ->
  (exists s', worker_run mapF reduceF (shutdown_call (length (wconns s))) s = Ok (tt, s') /\
     wconns s' = wconns s ++ [(WShutdown, Returned (Some (ShutdownReply (nTasks (wk s)))))]) /\
  forall evs' s', Forall no_call evs' -> worker_run mapF reduceF (ECall WShutdown :: evs') s = Ok (tt, s') ->
    wloop s' <> WExited /\ wl s' = true.
Proof.
  intros Hk Hev Hrun Hl Hb.
  assert (Hs : worker_ok k s).
  { eapply (worker_run_inv mapF reduceF (worker_ok k)); [| exact Hev | apply worker_ok_init | exact Hrun].
    intros; eapply worker_rule_ok; eauto. }
  split.
  - eexists. split; [apply shutdown_call_returns; [done |]; by rewrite (ok_open _ _ Hs), Hl | done].
  - intros evs' s' Hc ([] & s1 & [= <-] & Hrun')%st_bind_Ok.
    destruct (worker_run_inv mapF reduceF (stopping (length (wconns s))) no_call
      (fun ev s s' => stopping_rule mapF reduceF _ ev s s') evs' _ s' Hc (stopping_start k s Hs Hk Hl Hb) Hrun').
    tauto.
Qed.

Definition idle_worker : WProc := mkWProc (mkWorker (-1) 0 0) None example_fs true WAccept [].

Definition last_events : list WEvent := [ELoop 0; ELoop 0; EServe 0; EReturn 0; ELoop 0].

Lemma worker_outlives_shutdown_witness :
  exists s', @worker_run insertion_GoSort example_mapF example_reduceF (ECall WShutdown :: last_events) idle_worker
    = Ok (tt, s') /\ wloop s' <> WExited /\ wl s' = true.
Proof.
  destruct (@worker_run insertion_GoSort example_mapF example_reduceF (ECall WShutdown :: last_events) idle_worker)
    as [[[] s']| | |] eqn:E; [| vm_compute in E; discriminate..].
  exists s'. split; [done |].
  assert (Hrun : @worker_run insertion_GoSort example_mapF example_reduceF [ELoop 0; ELoop 0] (RunWorker (-1) None example_fs)
    = Ok (tt, idle_worker)) by reflexivity.
  destruct (@worker_outlives_shutdown insertion_GoSort example_mapF example_reduceF (-1) None example_fs
    [ELoop 0; ELoop 0] idle_worker) as [_ Hnever]; [lia | by repeat constructor | exact Hrun | done | constructor |].
  apply (Hnever last_events s'); [by repeat constructor | exact E].
Defined.

(** C31: the life of the registration server, with one call of stopRPCServer at
    most.  No step panics; mr.workers holds exactly the workers whose Register was
    answered, once for each call; the loop ends only after Shutdown has closed the
    channel; a Shutdown call never fails, and when it returns the socket is closed,
    the accept loop ends after at most one more step of its own, and nothing that
    was not accepted by then is served later: such calls and all later ones can
    only fail.  A second Shutdown that is accepted before the first one is handled
    closes a closed channel and panics. *)
Theorem registration_server evs s : (stops evs <= 1)%nat -> master_run evs startRPCServer = Ok (tt, s) ->
  (forall ev, master_exec ev s <> Panic) /\
  mr_workers s ≡ₚ registered_names (mconns s) /\
  (aloop s = AEnd -> shutdown s = true) /\
  (forall i r, mconns s !! i = Some (MShutdown, Returned r) ->
     r <> None /\ ml s = false /\
     (exists n s', (n <= 1)%nat /\ master_run (replicate n (MLoopStep 0)) s = Ok (tt, s') /\ aloop s' = AEnd) /\
     forall evs' s', master_run evs' s = Ok (tt, s') -> forall i, unserved_at s i -> unserved_at s' i) /\
  (exists evs2 s2, stops evs2 = 2%nat /\ master_run evs2 startRPCServer = Ok (tt, s2) /\ master_exec (MServe 1) s2 = Panic).
Proof.
  intros Hone Hrun. destruct (master_run_ok evs _ _ server_ok_init Hone Hrun) as [Hs Hlen].
  split_and!; [| apply Hs | apply Hs | |].
  - intros ev. destruct ev as [req | i | i | i]; cbn [master_exec]; try done.
    + unfold accept_loop. repeat case_match; done.
    + unfold master_serve. destruct (mconns s !! i) as [[[args|] []]|] eqn:Hi; try done.
      destruct (server_ok_shutdown _ _ _ Hs Hi) as [[-> _] _]. done.
    + unfold call_returns. repeat case_match; done.
  - intros i r Hi. destruct (server_ok_shutdown _ _ _ Hs Hi) as [Hst _]. destruct r as [r|]; [| done].
    destruct Hst as [Hsh Hml]. split_and!; [done | done | |].
    + destruct (aloop s) eqn:Hl; [exists 1%nat | exists 1%nat | exists 0%nat]; eexists;
        (split; [lia |]); (split; [cbn; unfold st_bind, master_exec, accept_loop; rewrite ?Hl, ?Hml, ?Hsh; reflexivity | done]).
    + intros evs' s' Hrun' j. by eapply closed_run.
  - exists [stopRPCServer; stopRPCServer; MLoopStep 0; MLoopStep 0; MLoopStep 0; MLoopStep 1; MServe 0].
    eexists. split; [done |]. split; [vm_compute; reflexivity | done].
Qed.

Definition registration_events : list MEvent :=
  [MCall (MRegister (mkRegisterArgs "w1")); MLoopStep 0; MLoopStep 0; MServe 0; stopRPCServer; MReturn 0;
   MLoopStep 0; MLoopStep 1; MServe 1; MLoopStep 0; MServe 1; MReturn 1].

Lemma registration_server_witness :
  exists s, master_run registration_events startRPCServer = Ok (tt, s) /\ mr_workers s = ["w1"] /\ ml s = false.
Proof.
  eexists. split; [vm_compute; reflexivity |]. split; [reflexivity |].
  destruct (registration_server registration_events _ ltac:(vm_compute; lia) ltac:(vm_compute; reflexivity))
    as (_ & _ & _ & Hstop & _).
  by apply (Hstop 1%nat (Some Empty)).
Defined.
