(* ===== verification/LabRpc.v ===== *)
(** * labrpc: the network of the tests

    Models src/labrpc/labrpc.go: client ends, the network with its switches,
    servers with their services, and one goroutine ProcessReq per request.  A
    step of the model is one section of a goroutine; sleeps have no effect and
    the random choices are arguments of the steps.  Ends are named by strings
    and servers by integers, as config.go does.  Servers are pointers, because
    IsServerDead compares them. *)

From S2P Require Import Prelude LabGob.

Definition dot : Ascii.ascii := Ascii.ascii_of_nat 46.

(** strings.LastIndex(s, ".") *)
Fixpoint lastDot (s : string) : Z :=
  match s with
  | EmptyString => -1
  | String c s =>
      let r := lastDot s in
      if decide (0 <= r) then r + 1 else if decide (c = dot) then 0 else -1
  end.

(** s[:dot] and s[dot+1:]; a negative [dot] panics. *)
Definition splitAt (s : string) (dot : Z) : res (string * string) :=
  if decide (0 <= dot < Z.of_nat (String.length s)) then
    Ok (String.substring 0 (Z.to_nat dot) s,
        String.substring (Z.to_nat dot + 1) (String.length s - (Z.to_nat dot + 1)) s)
  else Panic.

Fixpoint no_dot (s : string) : bool :=
  match s with EmptyString => true | String c s => bool_decide (c <> dot) && no_dot s end.

Lemma lastDot_none s : no_dot s = true -> lastDot s = -1.
Proof.
  induction s as [| c s IH]; [done |]. cbn. intros [Hc%bool_decide_eq_true Hs]%andb_true_iff.
  rewrite IH by done. rewrite decide_False by lia. by rewrite decide_False.
Qed.

Lemma string_app_nil t : "" +:+ t = t.
Proof. done. Qed.
Lemma string_app_cons c s t : String c s +:+ t = String c (s +:+ t).
Proof. done. Qed.
Local Ltac string_induction s :=
  induction s as [| ?c s IH]; intros; rewrite ?string_app_nil, ?string_app_cons; cbn; [try done | rewrite ?IH; try done].

Lemma string_app_length s t : String.length (s +:+ t) = (String.length s + String.length t)%nat.
Proof. string_induction s. Qed.
Lemma string_app_assoc s t u : (s +:+ t) +:+ u = s +:+ (t +:+ u).
Proof. string_induction s. Qed.

Lemma lastDot_app s meth : no_dot meth = true -> lastDot (s +:+ String dot meth) = Z.of_nat (String.length s).
Proof.
  intros Hm. string_induction s; [by rewrite (lastDot_none _ Hm) |].
  rewrite decide_True by lia. lia.
Qed.

Lemma substring_whole s : String.substring 0 (String.length s) s = s.
Proof. string_induction s. Qed.

Lemma substring_prefix s s' : String.substring 0 (String.length s) (s +:+ s') = s.
Proof. string_induction s. by destruct s'. Qed.

Lemma substring_suffix s s' n :
  String.substring (String.length s) n (s +:+ s') = String.substring 0 n s'.
Proof. string_induction s. Qed.

(** The name of a method is split at its last dot. *)
Lemma splitAt_dot s meth :
  no_dot meth = true -> splitAt (s +:+ String dot meth) (lastDot (s +:+ String dot meth)) = Ok (s, meth).
Proof.
  intros Hm. rewrite lastDot_app by done. unfold splitAt.
  rewrite string_app_length, decide_True by (cbn; lia). rewrite Nat2Z.id, substring_prefix. do 2 f_equal.
  change (String dot meth) with (String dot "" +:+ meth). rewrite <- string_app_assoc.
  replace (String.length s + 1)%nat with (String.length (s +:+ String dot "")) by (rewrite string_app_length; cbn; lia).
  rewrite substring_suffix, !string_app_length. cbn [String.length].
  replace (String.length s + (1 + String.length meth) - (String.length s + 1))%nat with (String.length meth) by lia.
  apply substring_whole.
Qed.

(** [R] is the state of a receiver and [T] what a handler reads of its
    environment (the clock). *)
Section LabRpc.
Context {R T : Type}.

(** ** Services and servers *)

Record Method := mkMethod {
  PkgPath : string;
  NumIn : Z;
  In2Ptr : bool;                               (* mtype.In(2).Kind() == reflect.Ptr *)
  NumOut : Z;
  ArgT : GoType;                               (* mtype.In(1) *)
  ReplyT : GoType;                             (* mtype.In(2).Elem() *)
  Func : T -> GoVal -> GoVal -> ST R GoVal;    (* args and *reply before, *reply after *)
}.

Record Service := mkService {
  svc_name : string;
  rcvr : nat;
  methods : gmap string Method;
}.

Definition suitable (m : Method) : bool :=
  bool_decide (PkgPath m = "") && bool_decide (NumIn m = 3) && In2Ptr m && bool_decide (NumOut m = 0).

(** [for m := 0; m < svc.typ.NumMethod(); m++] *)
Fixpoint methodLoop (typ : list (string * Method)) (ms : gmap string Method) : gmap string Method :=
  match typ with
  | [] => ms
  | (mname, m) :: typ => methodLoop typ (if suitable m then <[mname := m]> ms else ms)
  end.

Definition MakeService (name : string) (typ : list (string * Method)) (obj : nat) : Service :=
  mkService name obj (methodLoop typ ∅).

Record Server := mkServer {
  services : gmap string Service;
  srv_count : Z;
}.

Definition MakeServer : Server := mkServer ∅ 0.

Definition AddService (svc : Service) (rs : Server) : Server :=
  mkServer (<[svc_name svc := svc]> (services rs)) (srv_count rs).

Definition Server_GetCount (rs : Server) : Z := srv_count rs.

(** ** The network *)

Record Network := mkNetwork {
  reliable : bool;
  longDelays : bool;
  longReordering : bool;
  ends : gset string;
  enabled : gmap string bool;
  servers : gmap Z (option nat);
  connections : gmap string (option Z);
  cleaned : bool;                              (* rn.done is closed *)
  count : Z;
}.

Definition MakeNetwork : Network := mkNetwork true false false ∅ ∅ ∅ ∅ false 0.

Definition Cleanup (rn : Network) : res Network :=
  if cleaned rn then Panic else
  Ok (mkNetwork (reliable rn) (longDelays rn) (longReordering rn) (ends rn) (enabled rn) (servers rn)
        (connections rn) true (count rn)).
Definition Reliable (yes : bool) (rn : Network) : Network :=
  mkNetwork yes (longDelays rn) (longReordering rn) (ends rn) (enabled rn) (servers rn) (connections rn)
    (cleaned rn) (count rn).
Definition LongReordering (yes : bool) (rn : Network) : Network :=
  mkNetwork (reliable rn) (longDelays rn) yes (ends rn) (enabled rn) (servers rn) (connections rn)
    (cleaned rn) (count rn).
Definition LongDelays (yes : bool) (rn : Network) : Network :=
  mkNetwork (reliable rn) yes (longReordering rn) (ends rn) (enabled rn) (servers rn) (connections rn)
    (cleaned rn) (count rn).

(** A missing key of a Go map reads as the zero value. *)
Definition ReadEndnameInfo (endname : string) (rn : Network) : bool * option Z * option nat * bool * bool :=
  let en := default false (enabled rn !! endname) in
  let servername := mjoin (connections rn !! endname) in
  let server := match servername with Some sn => mjoin (servers rn !! sn) | None => None end in
  (en, servername, server, reliable rn, longReordering rn).

Definition IsServerDead (endname : string) (servername : Z) (server : nat) (rn : Network) : bool :=
  bool_decide (default false (enabled rn !! endname) = false \/
               mjoin (servers rn !! servername) <> Some server).

Definition MakeEnd (endname : string) (rn : Network) : res Network :=
  if decide (endname ∈ ends rn) then Fatal else
  Ok (mkNetwork (reliable rn) (longDelays rn) (longReordering rn) ({[endname]} ∪ ends rn)
        (<[endname := false]> (enabled rn)) (servers rn) (<[endname := None]> (connections rn))
        (cleaned rn) (count rn)).

Definition AddServer (servername : Z) (rs : nat) (rn : Network) : Network :=
  mkNetwork (reliable rn) (longDelays rn) (longReordering rn) (ends rn) (enabled rn)
    (<[servername := Some rs]> (servers rn)) (connections rn) (cleaned rn) (count rn).
Definition DeleteServer (servername : Z) (rn : Network) : Network :=
  mkNetwork (reliable rn) (longDelays rn) (longReordering rn) (ends rn) (enabled rn)
    (<[servername := None]> (servers rn)) (connections rn) (cleaned rn) (count rn).
Definition Connect (endname : string) (servername : Z) (rn : Network) : Network :=
  mkNetwork (reliable rn) (longDelays rn) (longReordering rn) (ends rn) (enabled rn) (servers rn)
    (<[endname := Some servername]> (connections rn)) (cleaned rn) (count rn).
Definition Enable (endname : string) (en : bool) (rn : Network) : Network :=
  mkNetwork (reliable rn) (longDelays rn) (longReordering rn) (ends rn)
    (<[endname := en]> (enabled rn)) (servers rn) (connections rn) (cleaned rn) (count rn).

(** atomic.AddInt32(&rn.count, 1) *)
Definition wrap32 (z : Z) : Z := (z + 2 ^ 31) `mod` 2 ^ 32 - 2 ^ 31.
Definition count_request (rn : Network) : Network :=
  mkNetwork (reliable rn) (longDelays rn) (longReordering rn) (ends rn) (enabled rn) (servers rn)
    (connections rn) (cleaned rn) (wrap32 (count rn + 1)).
Definition GetTotalCount (rn : Network) : Z := count rn.

(** ** Calls *)

Record reqMsg := mkReq {
  endname : string;
  svcMeth : string;
  argsType : GoType;
  args : list Wire;
}.

Record replyMsg := mkReply { ok : bool; reply : list Wire }.
Definition failure : replyMsg := mkReply false [].

(** What ProcessReq read about the end of a request. *)
Record Info := mkInfo {
  i_servername : Z;
  i_server : nat;
  i_reliable : bool;
  i_longreordering : bool;
}.

(** Where the goroutine ProcessReq of a request is. *)
Inductive ReqPc :=
  | PStart
  | PTimeout                                     (* not connected *)
  | PConnected (i : Info)                        (* before the request may be dropped *)
  | PWaiting (i : Info)                          (* in the select on ech *)
  | PAfter (i : Info) (r : option replyMsg)      (* after the loop; Some is replyOK *)
  | PAnswer (r : replyMsg).                      (* sending on replyCh, maybe later *)

(** Where the goroutine that calls the handler is. *)
Inductive HandlerPc :=
  | HNone
  | HReady (server : nat)
  | HDone (r : replyMsg).

(** Where the caller is. *)
Inductive ClientPc :=
  | CWaiting
  | CReturned (result : bool) (reply_ : GoVal).

Record Call := mkCall {
  c_req : reqMsg;
  c_replyType : GoType;
  c_reply : GoVal;                               (* *reply before the call *)
  c_pc : ReqPc;
  c_handler : HandlerPc;
  c_client : ClientPc;
}.

Record World := mkWorld {
  net : Network;
  heap : gmap nat Server;
  objs : gmap nat R;
  calls : gmap nat Call;
  gob : LabGob.t;
  next : nat;
}.

Definition set_net (n : Network) (w : World) : World :=
  mkWorld n (heap w) (objs w) (calls w) (gob w) (next w).
Definition set_call (c : nat) (x : Call) (w : World) : World :=
  mkWorld (net w) (heap w) (objs w) (<[c := x]> (calls w)) (gob w) (next w).
Definition set_gob (g : LabGob.t) (w : World) : World :=
  mkWorld (net w) (heap w) (objs w) (calls w) g (next w).
Definition set_pc (pc : ReqPc) (x : Call) : Call :=
  mkCall (c_req x) (c_replyType x) (c_reply x) pc (c_handler x) (c_client x).
Definition set_handler (h : HandlerPc) (x : Call) : Call :=
  mkCall (c_req x) (c_replyType x) (c_reply x) (c_pc x) h (c_client x).
Definition set_client (cl : ClientPc) (x : Call) : Call :=
  mkCall (c_req x) (c_replyType x) (c_reply x) (c_pc x) (c_handler x) cl.

Definition with_gob {A} (m : ST LabGob.t A) : ST World A := fun w =>
  r ← m (gob w); Ok (r.1, set_gob r.2 w).

(** The method is called on the object the service was made for. *)
Definition on_obj {A} (p : nat) (m : ST R A) : ST World A := fun w =>
  match objs w !! p with
  | None => Blocked
  | Some o => r ← m o;
      Ok (r.1, mkWorld (net w) (heap w) (<[p := r.2]> (objs w)) (calls w) (gob w) (next w))
  end.

(** Service.dispatch: an argument that does not decode stays zero. *)
Definition Service_dispatch (svc : Service) (methname : string) (req : reqMsg) (t : T) : ST World replyMsg :=
  match methods svc !! methname with
  | None => lift Fatal
  | Some m =>
      d <- with_gob (LabGob.Decode (argsType req) (zero_val (argsType req)) (args req)) ;;
      let argv := default (zero_val (argsType req)) d.1 in
      if decide (argsType req <> ArgT m) then lift Panic else
      replyv <- on_obj (rcvr svc) (Func m t argv (zero_val (ReplyT m))) ;;
      e <- with_gob (LabGob.EncodeValue (TPtr (ReplyT m)) (VPtr (Some replyv)) []) ;;
      mret (mkReply true e.2)
  end.

(** Server.dispatch on server [p]. *)
Definition dispatch (p : nat) (req : reqMsg) (t : T) : ST World replyMsg := fun w =>
  match heap w !! p with
  | None => Blocked
  | Some rs =>
      let w1 := mkWorld (net w) (<[p := mkServer (services rs) (srv_count rs + 1)]> (heap w)) (objs w)
                  (calls w) (gob w) (next w) in
      let dot := lastDot (svcMeth req) in
      x ← splitAt (svcMeth req) dot;
      match services rs !! x.1 with
      | Some svc => Service_dispatch svc x.2 req t w1
      | None => Fatal
      end
  end.

(** ClientEnd.Call up to the wait for the reply: [e.ch <- req], received by the
    goroutine of MakeNetwork; [late] takes the other case of the select. *)
Definition Call_send (e svcMeth_ : string) (argsT : GoType) (argv : GoVal) (replyT : GoType) (old : GoVal)
    (late : bool) : ST World unit :=
  b <- with_gob (LabGob.Encode argsT argv []) ;;
  cl <- gets (fun w : World => cleaned (net w)) ;;
  if (late : bool) then
    if (cl : bool) then
      modify (fun w => mkWorld (net w) (heap w) (objs w)
        (<[next w := mkCall (mkReq e svcMeth_ argsT b.2) replyT old (PAnswer failure) HNone (CReturned false old)]> (calls w))
        (gob w) (S (next w)))
    else lift Blocked
  else
    modify (fun w => mkWorld (count_request (net w)) (heap w) (objs w)
      (<[next w := mkCall (mkReq e svcMeth_ argsT b.2) replyT old PStart HNone CWaiting]> (calls w))
      (gob w) (S (next w))).

(** ClientEnd.Call when the reply arrives. *)
Definition Call_return (c : nat) (x : Call) (rep : replyMsg) : ST World unit :=
  if ok rep then
    d <- with_gob (LabGob.Decode (c_replyType x) (c_reply x) (reply rep)) ;;
    match d.1 with
    | None => lift Fatal
    | Some v => modify (set_call c (set_client (CReturned true v) x))
    end
  else modify (set_call c (set_client (CReturned false (c_reply x)) x)).

(** One section of ProcessReq; [drop] is the outcome of the random test. *)
Definition ProcessReq (c : nat) (x : Call) (drop : bool) : ST World unit := fun w =>
  let e := endname (c_req x) in
  match c_pc x with
  | PStart =>
      match ReadEndnameInfo e (net w) with
      | (true, Some sn, Some p, rel, lr) => Ok (tt, set_call c (set_pc (PConnected (mkInfo sn p rel lr)) x) w)
      | _ => Ok (tt, set_call c (set_pc PTimeout x) w)
      end
  | PTimeout => Ok (tt, set_call c (set_pc (PAnswer failure) x) w)
  | PConnected i =>
      if negb (i_reliable i) && drop then Ok (tt, set_call c (set_pc (PAnswer failure) x) w)
      else Ok (tt, set_call c (set_handler (HReady (i_server i)) (set_pc (PWaiting i) x)) w)
  | PWaiting i =>
      match c_handler x with
      | HDone r => Ok (tt, set_call c (set_pc (PAfter i (Some r)) x) w)
      | _ => Blocked
      end
  | PAfter i r =>
      let serverDead := IsServerDead e (i_servername i) (i_server i) (net w) in
      match r with
      | Some r =>
          if serverDead || (negb (i_reliable i) && drop)
          then Ok (tt, set_call c (set_pc (PAnswer failure) x) w)
          else Ok (tt, set_call c (set_pc (PAnswer r) x) w)
      | None => Ok (tt, set_call c (set_pc (PAnswer failure) x) w)
      end
  | PAnswer r => match c_client x with CWaiting => Call_return c x r w | _ => Blocked end
  end.

(** The timer case of the select in ProcessReq. *)
Definition check_dead (c : nat) (x : Call) : ST World unit := fun w =>
  match c_pc x with
  | PWaiting i =>
      if IsServerDead (endname (c_req x)) (i_servername i) (i_server i) (net w)
      then Ok (tt, set_call c (set_pc (PAfter i None) x) w)
      else Ok (tt, w)
  | _ => Blocked
  end.

(** The goroutine around server.dispatch. *)
Definition handle (c : nat) (x : Call) (t : T) : ST World unit :=
  match c_handler x with
  | HReady p => r <- dispatch p (c_req x) t ;; modify (set_call c (set_handler (HDone r) x))
  | _ => lift Blocked
  end.

(** Network.GetCount: a nil server panics. *)
Definition GetCount (servername : Z) (w : World) : res Z :=
  match mjoin (servers (net w) !! servername) with
  | None => Panic
  | Some p => match heap w !! p with Some rs => Ok (Server_GetCount rs) | None => Panic end
  end.

Inductive NEvent :=
  | NCall (e svcMeth_ : string) (argsT : GoType) (argv : GoVal) (replyT : GoType) (old : GoVal) (late : bool)
  | NProcess (c : nat) (drop : bool)
  | NTimer (c : nat)
  | NHandle (c : nat) (t : T)
  | NNew (rs : nat -> Server) (o : R)   (* an object, and the server made for it *)
  | NMakeEnd (e : string)
  | NNet (f : Network -> Network)       (* the switches, Connect, Enable, AddServer, DeleteServer *)
  | NCleanup.

Definition with_call (c : nat) (f : Call -> ST World unit) : ST World unit := fun w =>
  match calls w !! c with Some x => f x w | None => Blocked end.

Definition net_exec (ev : NEvent) : ST World unit :=
  match ev with
  | NCall e sm aT av rT old late => Call_send e sm aT av rT old late
  | NProcess c drop => with_call c (fun x => ProcessReq c x drop)
  | NTimer c => with_call c (check_dead c)
  | NHandle c t => with_call c (fun x => handle c x t)
  | NNew rs o => modify (fun w => mkWorld (net w) (<[next w := rs (next w)]> (heap w)) (<[next w := o]> (objs w))
                   (calls w) (gob w) (S (next w)))
  | NMakeEnd e => fun w => n ← MakeEnd e (net w); Ok (tt, set_net n w)
  | NNet f => modify (fun w => set_net (f (net w)) w)
  | NCleanup => fun w => n ← Cleanup (net w); Ok (tt, set_net n w)
  end.

Fixpoint net_run (evs : list NEvent) : ST World unit :=
  match evs with
  | [] => mret tt
  | ev :: evs => net_exec ev ;;; net_run evs
  end.

Definition net_init : World := mkWorld MakeNetwork ∅ ∅ ∅ LabGob.init 0.

End LabRpc.

Arguments Method : clear implicits.
Arguments Service : clear implicits.
Arguments Server : clear implicits.
Arguments World : clear implicits.
Arguments NEvent : clear implicits.

(** ** What the network promises

    The signatures and handlers of a set of remote methods. *)
Class RpcSpec (R T : Type) := {
  rpc_sig : string -> option (GoType * GoType);
  rpc_handler : string -> T -> GoVal -> ST R GoVal;
  rpc_gobable : forall m aT rT, rpc_sig m = Some (aT, rT) -> gobable aT = true /\ gobable rT = true;
  rpc_typed : forall m aT rT t a o v o', rpc_sig m = Some (aT, rT) -> has_type a aT = true ->
    rpc_handler m t a o = Ok (v, o') -> has_type v rT = true;
}.

(** A call as its caller and the servers see it. *)
Inductive AStatus :=
  | AInFlight
  | AExecuted (v : GoVal)
  | AReturned (v : GoVal)
  | AOrphan                (* Call returned false; the request may still be executed *)
  | AFailed.               (* Call returned false, and the request was executed *)

Record ACall := mkACall { a_end : string; a_meth : string; a_arg : GoVal; a_status : AStatus }.

Definition with_status (st : AStatus) (a : ACall) : ACall := mkACall (a_end a) (a_meth a) (a_arg a) st.

Section refinement.
Context {R T : Type} `{RpcSpec R T}.
(** The objects an end may be connected to. *)
Context (links : string -> nat -> Prop).

(** The abstract network: a request is executed at most once, on an object that
    its end is linked to; Call returns the value the handler left, or false. *)
Inductive astep : gmap nat R * gmap nat ACall -> gmap nat R * gmap nat ACall -> Prop :=
  | a_object o cs p ob : o !! p = None -> astep (o, cs) (<[p := ob]> o, cs)
  | a_call o cs c a : cs !! c = None -> a_status a = AInFlight -> astep (o, cs) (o, <[c := a]> cs)
  | a_execute o cs c a t p ob v ob' st' : cs !! c = Some a -> links (a_end a) p -> o !! p = Some ob ->
      rpc_handler (a_meth a) t (a_arg a) ob = Ok (v, ob') ->
      (a_status a = AInFlight /\ st' = AExecuted v \/ a_status a = AOrphan /\ st' = AFailed) ->
      astep (o, cs) (<[p := ob']> o, <[c := with_status st' a]> cs)
  | a_reply o cs c a v : cs !! c = Some a -> a_status a = AExecuted v ->
      astep (o, cs) (o, <[c := with_status (AReturned v) a]> cs)
  | a_lose o cs c a st' : cs !! c = Some a ->
      (a_status a = AInFlight /\ st' = AOrphan \/ (exists v, a_status a = AExecuted v) /\ st' = AFailed) ->
      astep (o, cs) (o, <[c := with_status st' a]> cs).

(** ** The abstract view of a world *)

Definition arg_of (r : reqMsg) : GoVal :=
  match args r with
  | x :: _ => match gob_decode (argsType r) (zero_val (argsType r)) x with
              | Some (VPtr (Some v)) => v
              | _ => zero_val (argsType r)
              end
  | [] => zero_val (argsType r)
  end.
Definition reply_of (x : Call) (r : replyMsg) : GoVal :=
  match reply r with
  | y :: _ => default (c_reply x) (gob_decode (c_replyType x) (c_reply x) y)
  | [] => c_reply x
  end.

Definition status_of (x : Call) : AStatus :=
  match c_client x, c_handler x with
  | CReturned true v, _ => AReturned v
  | CReturned false _, HDone _ => AFailed
  | CReturned false _, _ => AOrphan
  | CWaiting, HDone r => AExecuted (reply_of x r)
  | CWaiting, _ => AInFlight
  end.

Definition abs_call (x : Call) : ACall :=
  mkACall (endname (c_req x)) (svcMeth (c_req x)) (arg_of (c_req x)) (status_of x).
Definition abs (w : World R T) : gmap nat R * gmap nat ACall := (objs w, abs_call <$> calls w).

(** ** The invariant *)

(** Server [p] has the remote methods, for object [p]. *)
Definition serves (p : nat) (rs : Server R T) : Prop :=
  forall m aT rT, rpc_sig m = Some (aT, rT) ->
  exists sv mn svc f, splitAt m (lastDot m) = Ok (sv, mn) /\ services rs !! sv = Some svc /\ rcvr svc = p /\
    methods svc !! mn = Some f /\ ArgT f = TPtr aT /\ ReplyT f = rT /\
    forall t a, Func f t (VPtr (Some a)) (zero_val rT) = rpc_handler m t a.

Definition wired (n : Network) (h : gmap nat (Server R T)) : Prop :=
  forall e sn p, mjoin (connections n !! e) = Some sn -> mjoin (servers n !! sn) = Some p ->
    links e p /\ is_Some (h !! p).

(** The request and the variable for the reply have the types of the method. *)
Definition req_ok (x : Call) : Prop :=
  exists aT rT av y, rpc_sig (svcMeth (c_req x)) = Some (aT, rT) /\ argsType (c_req x) = TPtr aT /\
    c_replyType x = rT /\ c_reply x = zero_val rT /\ has_type av aT = true /\
    args (c_req x) = [y] /\ gob_decode aT (zero_val aT) y = Some av.

(** A reply the handler made. *)
Definition reply_ok (x : Call) (r : replyMsg) : Prop :=
  exists v y, ok r = true /\ reply r = [y] /\ gob_decode (c_replyType x) (c_reply x) y = Some v.

Definition routed (h : gmap nat (Server R T)) (x : Call) (p : nat) : Prop :=
  links (endname (c_req x)) p /\ is_Some (h !! p).

Record call_ok (h : gmap nat (Server R T)) (x : Call) : Prop := {
  ck_req : req_ok x;
  ck_done : forall r, c_handler x = HDone r -> reply_ok x r;
  ck_ready : forall p, c_handler x = HReady p -> routed h x p;
  ck_pc : match c_pc x with
          | PStart | PTimeout => c_handler x = HNone
          | PConnected i => c_handler x = HNone /\ routed h x (i_server i)
          | PWaiting i => c_handler x <> HNone
          | PAfter i (Some r) => c_handler x = HDone r
          | PAfter i None => True
          | PAnswer r => r = failure \/ c_handler x = HDone r
          end;
  ck_client : c_client x <> CWaiting -> exists r, c_pc x = PAnswer r;
  ck_true : forall v, c_client x = CReturned true v -> exists r, c_handler x = HDone r;
}.

Record net_ok (w : World R T) : Prop := {
  no_wired : wired (net w) (heap w);
  no_heap : forall p rs, heap w !! p = Some rs -> serves p rs /\ is_Some (objs w !! p);
  no_calls : map_Forall (fun _ x => call_ok (heap w) x) (calls w);
  no_next : forall k, (next w <= k)%nat -> heap w !! k = None /\ objs w !! k = None /\ calls w !! k = None;
}.

(** What the program that uses the network respects. *)
Definition ev_ok (ev : NEvent R T) (w : World R T) : Prop :=
  match ev with
  | NCall e m argsT argv replyT old _ =>
      exists aT av, rpc_sig m = Some (aT, replyT) /\ argsT = TPtr aT /\ argv = VPtr (Some av) /\
        has_type av aT = true /\ old = zero_val replyT
  | NNew rs o => serves (next w) (rs (next w))
  | NNet f => wired (f (net w)) (heap w)
  | _ => True
  end.

Definition nstep (w w' : World R T) : Prop := exists ev, ev_ok ev w /\ net_exec ev w = Ok (tt, w').

(** ** The dispatcher *)

Definition served (p : nat) (rs : Server R T) (w : World R T) (o : R) (g : LabGob.t) : World R T :=
  mkWorld (net w) (<[p := mkServer (services rs) (srv_count rs + 1)]> (heap w)) (<[p := o]> (objs w))
    (calls w) g (next w).

(** The request [req] for method [m] with argument [av]. *)
Definition carries (req : reqMsg) (m : string) (aT : GoType) (av : GoVal) : Prop :=
  svcMeth req = m /\ argsType req = TPtr aT /\
  exists y, args req = [y] /\ gob_decode aT (zero_val aT) y = Some av.

Lemma dispatch_spec p rs req t w m aT rT av ob :
  heap w !! p = Some rs -> serves p rs -> rpc_sig m = Some (aT, rT) -> carries req m aT av ->
  has_type av aT = true -> objs w !! p = Some ob ->
  match rpc_handler m t av ob with
  | Ok (v, ob') => exists y g, gob_decode rT (zero_val rT) y = Some v /\
      dispatch p req t w = Ok (mkReply true [y], served p rs w ob' g)
  | Panic => dispatch p req t w = Panic
  | Fatal => dispatch p req t w = Fatal
  | Blocked => dispatch p req t w = Blocked
  end.
Proof.
  intros Hh Hs Hm (<- & HaT & y & Hy & Hd) Hav Hob.
  destruct (Hs _ _ _ Hm) as (sv & mn & svc & f & Hsp & Hsv & Hr & Hf & HA & HR & HF).
  assert (Hrun : forall w1, objs w1 = objs w -> exists g, Service_dispatch svc mn req t w1 =
    (x ← rpc_handler (svcMeth req) t av ob;
     Ok (mkReply true (match gob_encode x.1 with Some y => [y] | None => [] end),
         mkWorld (net w1) (heap w1) (<[p := x.2]> (objs w)) (calls w1) g (next w1)))).
  { intros w1 Ho. unfold Service_dispatch. rewrite Hf, HA, HaT, Hy, HR, Hr.
    unfold st_bind at 1, with_gob at 1. cbn [LabGob.Decode st_bind modify mret st_ret mbind res_bind fst snd].
    cbn [gob_decode zero_val]. rewrite Hd. cbn [fmap option_fmap option_map from_option id fst].
    rewrite decide_False by naive_solver. unfold st_bind at 1, on_obj. cbn [objs set_gob].
    rewrite Ho, Hob. cbn [fst]. rewrite HF.
    destruct (rpc_handler (svcMeth req) t av ob) as [[v ob'] | | |]; eexists; try reflexivity.
    cbn. by destruct (gob_encode v). Unshelve. all: exact LabGob.init. }
  unfold dispatch. rewrite Hh, Hsp. cbn [mbind res_bind fst snd]. rewrite Hsv.
  match goal with |- context [Service_dispatch svc mn req t ?w1] => destruct (Hrun w1 eq_refl) as [g ->] end.
  destruct (rpc_handler (svcMeth req) t av ob) as [[v ob'] | | |] eqn:E; try done. cbn.
  destruct (gob_roundtrip rT v) as (y' & -> & Hd'); [by eapply rpc_gobable | by eapply rpc_typed |].
  by exists y', g.
Qed.

(** ** Every step is a step of the abstract network *)

Lemma call_ok_mono h h' x :
  (forall p, is_Some (h !! p) -> is_Some (h' !! p)) -> call_ok h x -> call_ok h' x.
Proof.
  intros Hh [Hr Hd Hp Hpc Hc Ht]. split; [done | done | | | done | done].
  - intros p [Hl ?]%Hp. split; [done | auto].
  - destruct (c_pc x) as [| | i | | |]; try done. destruct Hpc as (? & Hl & ?). split; [done |]. split; auto.
Qed.

Lemma abs_set_call c x w : abs (set_call c x w) = (objs w, <[c := abs_call x]> (abs_call <$> calls w)).
Proof. unfold abs. cbn. by rewrite fmap_insert. Qed.

(** A step of a call that its caller does not see. *)
Lemma abs_same c x x' w : calls w !! c = Some x -> abs_call x' = abs_call x -> abs (set_call c x' w) = abs w.
Proof.
  intros Hx Ha. rewrite abs_set_call, Ha. unfold abs. f_equal. apply insert_id. by rewrite lookup_fmap, Hx.
Qed.

Lemma net_ok_set_call c x w : call_ok (heap w) x -> is_Some (calls w !! c) -> net_ok w -> net_ok (set_call c x w).
Proof.
  intros Hx Hc [Hw Hh Hcs Hn]. split; cbn; [done | done | by apply map_Forall_insert_2 |].
  intros k Hk. destruct (Hn k Hk) as (? & ? & Hk'). split_and!; [done | done |].
  destruct (decide (c = k)) as [-> |]; [by rewrite Hk' in Hc; destruct Hc |]. by rewrite lookup_insert_ne.
Qed.

Lemma net_ok_gob g w : net_ok w -> net_ok (set_gob g w).
Proof. by intros [? ? ? ?]. Qed.

Lemma net_ok_net n w : wired n (heap w) -> net_ok w -> net_ok (set_net n w).
Proof. by intros ? [? ? ? ?]. Qed.

Lemma with_gob_Ok {A} (m : ST LabGob.t A) (w w' : World R T) a :
  with_gob m w = Ok (a, w') -> exists g', m (gob w) = Ok (a, g') /\ w' = set_gob g' w.
Proof. unfold with_gob. intros ([b g] & -> & [= <- <-])%res_bind_Ok. eauto. Qed.

(** A new call. *)
Lemma new_call_ok w n x g :
  net_ok w -> connections n = connections (net w) -> servers n = servers (net w) -> call_ok (heap w) x ->
  net_ok (mkWorld n (heap w) (objs w) (<[next w := x]> (calls w)) g (S (next w))).
Proof.
  intros [Hw Hh Hcs Hn] Hcn Hsn Hx. split; cbn.
  - unfold wired. by rewrite Hcn, Hsn.
  - done.
  - by apply map_Forall_insert_2.
  - intros k Hk. destruct (Hn k) as (? & ? & ?); [lia |]. by rewrite lookup_insert_ne by lia.
Qed.

Lemma sim_call e m argsT argv replyT old late w w' :
  net_ok w -> ev_ok (NCall e m argsT argv replyT old late) w ->
  Call_send e m argsT argv replyT old late w = Ok (tt, w') -> net_ok w' /\ rtc astep (abs w) (abs w').
Proof.
  intros Hok (aT & av & Hm & -> & -> & Hav & ->) He.
  destruct (rpc_gobable _ _ _ Hm) as [Hg _].
  destruct (gob_roundtrip aT av Hg Hav) as (y & Hy & Hd).
  set (req := mkReq e m (TPtr aT) [y]).
  assert (Harg : arg_of req = av).
  { unfold arg_of. cbn. by rewrite Hd. }
  assert (Hck : forall pc cl, (pc = PStart \/ pc = PAnswer failure) -> (pc = PStart -> cl = CWaiting) ->
    (forall v, cl <> CReturned true v) -> call_ok (heap w) (mkCall req replyT (zero_val replyT) pc HNone cl)).
  { intros pc cl Hpc Hcl Hnt. split; cbn; try done.
    - exists aT, replyT, av, y. done.
    - destruct Hpc as [-> | ->]; auto.
    - intros Hne. destruct Hpc as [-> | ->]; [by destruct (Hne (Hcl eq_refl)) | eauto].
    - intros v Hv. by destruct (Hnt v). }
  assert (Hnone : (abs w).2 !! next w = None).
  { cbn. rewrite lookup_fmap. by destruct (no_next _ Hok (next w)) as (_ & _ & ->). }
  unfold Call_send in He. apply st_bind_Ok in He as ([b bs] & w1 & Hb & He).
  apply with_gob_Ok in Hb as (g & Hb & ->). cbn in Hb. rewrite Hy in Hb. injection Hb as <- <- <-.
  apply st_bind_Ok in He as (cl & w2 & [= <- <-] & He). cbn [snd app] in He.
  destruct late; [destruct (cleaned _); [| done] |]; injection He as <-.
  - split; [apply (new_call_ok w (net w)); [done.. | apply Hck; [by right | done | done]] |].
    unfold abs. cbn [objs calls set_gob next]. rewrite fmap_insert.
    eapply rtc_l; [apply (a_call _ _ (next w) (mkACall e m av AInFlight)); [exact Hnone | done] |].
    eapply rtc_l; [eapply (a_lose _ _ (next w)); [apply lookup_insert_eq | left; split; [done | reflexivity]] |].
    rewrite insert_insert_eq. unfold abs_call at 2, with_status. cbn [c_req endname svcMeth status_of c_client c_handler]. fold req. by rewrite Harg.
  - split; [apply (new_call_ok w (count_request (net w))); [done.. | apply Hck; [by left | done | done]] |].
    unfold abs. cbn [objs calls set_gob next]. rewrite fmap_insert. apply rtc_once.
    unfold abs_call at 2. cbn [c_req endname svcMeth status_of c_client c_handler]. fold req. rewrite Harg. apply a_call; [exact Hnone | done].
Qed.

(** The request that is sent carries the argument of the caller. *)
Lemma call_sent e m aT av replyT old w :
  net_ok w -> rpc_sig m = Some (aT, replyT) -> has_type av aT = true ->
  exists w', Call_send e m (TPtr aT) (VPtr (Some av)) replyT old false w = Ok (tt, w') /\
    abs w' = (objs w, <[next w := mkACall e m av AInFlight]> (abs w).2).
Proof.
  intros Hok Hm Hav. destruct (rpc_gobable _ _ _ Hm) as [Hg _].
  destruct (gob_roundtrip aT av Hg Hav) as (y & Hy & Hd). eexists. split.
  - unfold Call_send. apply st_bind_Ok. eexists (_, _), _. split.
    { unfold with_gob. cbn. rewrite Hy. cbn. reflexivity. }
    apply st_bind_Ok. eexists _, _. split; reflexivity.
  - unfold abs. cbn. rewrite fmap_insert. unfold abs_call at 1, arg_of. cbn. by rewrite Hd.
Qed.

(** A section of ProcessReq that only moves its goroutine. *)
Lemma sim_silent c x x' w :
  net_ok w -> calls w !! c = Some x -> call_ok (heap w) x' -> abs_call x' = abs_call x ->
  net_ok (set_call c x' w) /\ rtc astep (abs w) (abs (set_call c x' w)).
Proof.
  intros Hok Hx Hx' Ha. split; [by apply net_ok_set_call; [| rewrite Hx |] |].
  by rewrite (abs_same c x).
Qed.

Lemma sim_set_pc c x pc w :
  net_ok w -> calls w !! c = Some x -> c_client x = CWaiting ->
  match pc with
  | PStart | PTimeout => c_handler x = HNone
  | PConnected i => c_handler x = HNone /\ routed (heap w) x (i_server i)
  | PWaiting i => c_handler x <> HNone
  | PAfter i (Some r) => c_handler x = HDone r
  | PAfter i None => True
  | PAnswer r => r = failure \/ c_handler x = HDone r
  end ->
  net_ok (set_call c (set_pc pc x) w) /\ rtc astep (abs w) (abs (set_call c (set_pc pc x) w)).
Proof.
  intros Hok Hx Hcl Hpc. destruct (no_calls _ Hok c x Hx) as [Hr Hd Hp _ _ Ht].
  apply (sim_silent c x); [done | done | | done]. by split.
Qed.

(** The waiting caller gets the answer. *)
Lemma sim_return c x r w w' :
  net_ok w -> calls w !! c = Some x -> c_client x = CWaiting -> c_pc x = PAnswer r ->
  Call_return c x r w = Ok (tt, w') -> net_ok w' /\ rtc astep (abs w) (abs w').
Proof.
  intros Hok Hx Hcl Hpc He. destruct (no_calls _ Hok c x Hx) as [Hr Hd Hp Hpc' Hc Ht].
  rewrite Hpc in Hpc'.
  assert (Hck : forall (b : bool) v, (b = true -> c_handler x = HDone r) ->
    call_ok (heap w) (set_client (CReturned b v) x)).
  { intros b v Hb. split; try done; cbn; [by rewrite Hpc | intros _; by exists r |].
    intros u [= -> _]. exists r. by apply Hb. }
  assert (Hlook : (abs_call <$> calls w) !! c = Some (abs_call x)) by (by rewrite lookup_fmap, Hx).
  unfold Call_return in He. destruct Hpc' as [-> | Hh].
  - cbn in He. injection He as <-. split; [apply net_ok_set_call; [by apply Hck | by rewrite Hx | done] |].
    rewrite abs_set_call. unfold abs. apply rtc_once.
    replace (abs_call (set_client (CReturned false (c_reply x)) x))
      with (with_status (status_of (set_client (CReturned false (c_reply x)) x)) (abs_call x)) by done.
    apply (a_lose _ _ c (abs_call x)); [done |]. unfold abs_call, status_of. cbn. rewrite Hcl.
    destruct (c_handler x); eauto.
  - destruct (Hd r Hh) as (v & y & Hrok & Hrep & Hdec). rewrite Hrok in He.
    apply st_bind_Ok in He as ([d ds] & w1 & Hw1 & He). apply with_gob_Ok in Hw1 as (g & Hg & ->).
    cbn in Hg. rewrite Hrep, Hdec in Hg. injection Hg as <- <- <-. cbn in He. injection He as <-.
    split; [apply net_ok_set_call; [by apply Hck | cbn; by rewrite Hx | by apply net_ok_gob] |].
    rewrite abs_set_call. cbn [calls set_gob objs]. unfold abs. apply rtc_once.
    replace (abs_call (set_client (CReturned true v) x)) with (with_status (AReturned v) (abs_call x)) by done.
    apply (a_reply _ _ c (abs_call x)); [done |]. unfold abs_call, status_of. cbn. rewrite Hcl, Hh.
    unfold reply_of. by rewrite Hrep, Hdec.
Qed.

Lemma sim_process c x drop w w' :
  net_ok w -> calls w !! c = Some x -> ProcessReq c x drop w = Ok (tt, w') ->
  net_ok w' /\ rtc astep (abs w) (abs w').
Proof.
  intros Hok Hx He. destruct (no_calls _ Hok c x Hx) as [Hr Hd Hp Hpc Hc Ht].
  assert (Hcl : (forall r, c_pc x <> PAnswer r) -> c_client x = CWaiting).
  { intros Hne. destruct (c_client x) as [| b v] eqn:E; [done |]. destruct Hc as [r Hr']; [done |]. by destruct (Hne r). }
  unfold ProcessReq in He. destruct (c_pc x) as [| | i | i | i r | r] eqn:Epc.
  - destruct (ReadEndnameInfo _ _) as [[[[en sn] p] rel] lr] eqn:Ei.
    assert (Htime : net_ok (set_call c (set_pc PTimeout x) w) /\
      rtc astep (abs w) (abs (set_call c (set_pc PTimeout x) w))) by (apply sim_set_pc; [done | done | by apply Hcl | done]).
    destruct en, sn as [sn|], p as [p|]; try (injection He as <-; exact Htime).
    injection He as <-. apply sim_set_pc; [done | done | by apply Hcl |]. split; [done |].
    unfold ReadEndnameInfo in Ei. injection Ei as _ Hsn Hsv _ _. rewrite Hsn in Hsv.
    exact (no_wired _ Hok _ _ _ Hsn Hsv).
  - injection He as <-. apply sim_set_pc; [done | done | by apply Hcl | by left].
  - destruct (negb (i_reliable i) && drop).
    + injection He as <-. apply sim_set_pc; [done | done | by apply Hcl | by left].
    + injection He as <-. destruct Hpc as [Hh Hrt]. apply (sim_silent c x); [done | done | |].
      * split; cbn; try done; [by intros p [= <-] | by rewrite Hcl | by rewrite Hcl].
      * unfold abs_call, status_of. cbn. by rewrite Hcl, Hh.
  - destruct (c_handler x) eqn:Eh; try done. injection He as <-. apply sim_set_pc; [done | done | by apply Hcl | done].
  - destruct r as [r|].
    + destruct (_ || _); injection He as <-; (apply sim_set_pc; [done | done | by apply Hcl | auto]).
    + injection He as <-. apply sim_set_pc; [done | done | by apply Hcl | by left].
  - destruct (c_client x) eqn:Ecl; [| done]. by eapply sim_return.
Qed.

(** The handler runs. *)
Lemma sim_handle c x t w w' :
  net_ok w -> calls w !! c = Some x -> handle c x t w = Ok (tt, w') ->
  net_ok w' /\ rtc astep (abs w) (abs w').
Proof.
  intros Hok Hx He. destruct (no_calls _ Hok c x Hx) as [Hr Hd Hp Hpc Hc Ht].
  unfold handle in He. destruct (c_handler x) as [| p |] eqn:Eh; try done.
  destruct (Hp p eq_refl) as [Hl [rs Hrs]].
  destruct (no_heap _ Hok p rs Hrs) as [Hs [ob Hob]].
  pose proof Hr as (aT & rT & av & y & Hm & HaT & HrT & Hold & Hav & Hargs & Hdec).
  apply st_bind_Ok in He as (r & w1 & Hdis & [= <-]).
  pose proof (dispatch_spec p rs (c_req x) t w _ aT rT av ob Hrs Hs Hm) as Hspec.
  specialize (Hspec ltac:(split; [done |]; split; [done | by exists y]) Hav Hob).
  destruct (rpc_handler (svcMeth (c_req x)) t av ob) as [[v ob'] | | |] eqn:Ehd; try congruence.
  destruct Hspec as (z & g & Hz & Hdis'). rewrite Hdis' in Hdis. injection Hdis as <- <-.
  assert (Harg : arg_of (c_req x) = av).
  { unfold arg_of. rewrite Hargs, HaT. cbn. by rewrite Hdec. }
  set (x' := set_handler (HDone (mkReply true [z])) x).
  assert (Hdone : reply_of x' (mkReply true [z]) = v) by (unfold reply_of; cbn; by rewrite HrT, Hold, Hz).
  split.
  - split; cbn.
    + intros e sn q H1 H2. destruct (no_wired _ Hok e sn q H1 H2) as [? [rs' Hq]]. split; [done |].
      destruct (decide (p = q)) as [-> |]; [by rewrite lookup_insert_eq | by rewrite lookup_insert_ne].
    + intros q rs' Hq. destruct (decide (p = q)) as [-> | Hne].
      * rewrite lookup_insert_eq in Hq. injection Hq as <-. rewrite lookup_insert_eq. done.
      * rewrite lookup_insert_ne in Hq by done. rewrite lookup_insert_ne by done. by apply (no_heap _ Hok).
    + assert (Hmono : forall q, is_Some (heap w !! q) ->
        is_Some (<[p := mkServer (services rs) (srv_count rs + 1)]> (heap w) !! q)).
      { intros q Hq. destruct (decide (p = q)) as [-> |]; [by rewrite lookup_insert_eq | by rewrite lookup_insert_ne]. }
      apply map_Forall_insert_2.
      * apply (call_ok_mono (heap w)); [done |]. split; cbn; try done.
        -- intros r [= <-]. exists v, z. split; [done |]. split; [done |]. cbn. by rewrite HrT, Hold.
        -- destruct (c_pc x) as [| | ? | | ? [] |]; try done; [by destruct Hpc | destruct Hpc as [-> |]; [by left | done]].
        -- eauto.
      * intros k y' Hk. apply (call_ok_mono (heap w)); [done |]. exact (no_calls _ Hok k y' Hk).
    + intros k Hk. destruct (no_next _ Hok k Hk) as (H1 & H2 & H3).
      rewrite !lookup_insert_ne; [done | congruence ..].
  - unfold abs. cbn. rewrite fmap_insert. apply rtc_once.
    replace (abs_call x') with (with_status (status_of x') (abs_call x)) by done.
    apply (a_execute _ _ c (abs_call x) t p ob v ob'); [by rewrite lookup_fmap, Hx | done | done | cbn; by rewrite Harg |].
    unfold abs_call, status_of. cbn. rewrite Eh. destruct (c_client x) as [| [] u].
    + left. split; [done |]. f_equal. exact Hdone.
    + by destruct (Ht u eq_refl) as [r Hr'].
    + by right.
Qed.

Lemma sim_step ev w w' :
  net_ok w -> ev_ok ev w -> net_exec ev w = Ok (tt, w') -> net_ok w' /\ rtc astep (abs w) (abs w').
Proof.
  intros Hok Hev. destruct ev as [e m aT av rT old late | c drop | c | c t | rs o | e | f |]; cbn [net_exec].
  - by apply sim_call.
  - unfold with_call. destruct (calls w !! c) as [x|] eqn:Hx; [| done]. by apply sim_process.
  - unfold with_call, check_dead. destruct (calls w !! c) as [x|] eqn:Hx; [| done].
    destruct (c_pc x) as [| | | i | |] eqn:Epc; try done. destruct (IsServerDead _ _ _ _); [| by intros [= <-]].
    intros [= <-]. apply sim_set_pc; [done | done | | done].
    destruct (c_client x) eqn:Ecl; [done |]. destruct (ck_client _ _ (no_calls _ Hok c x Hx)) as [r ?]; congruence.
  - unfold with_call. destruct (calls w !! c) as [x|] eqn:Hx; [| done]. by apply sim_handle.
  - intros [= <-]. destruct Hok as [Hw Hh Hcs Hn]. destruct (Hn (next w)) as (H1 & H2 & _); [lia |].
    assert (Hmono : forall q, is_Some (heap w !! q) -> is_Some (<[next w := rs (next w)]> (heap w) !! q)).
    { intros q Hq. destruct (decide (next w = q)) as [<- |]; [by rewrite lookup_insert_eq | by rewrite lookup_insert_ne]. }
    split; [split; cbn |].
    + intros e sn p He Hs. destruct (Hw e sn p He Hs). split; auto.
    + intros p rs' Hp. destruct (decide (next w = p)) as [<- | Hne].
      * rewrite lookup_insert_eq in Hp. injection Hp as <-. by rewrite lookup_insert_eq.
      * rewrite lookup_insert_ne in Hp by done. rewrite lookup_insert_ne by done. auto.
    + intros k x Hk. apply (call_ok_mono (heap w)); [done |]. exact (Hcs k x Hk).
    + intros k Hk. destruct (Hn k) as (? & ? & ?); [lia |]. by rewrite !lookup_insert_ne by lia.
    + unfold abs. cbn. apply rtc_once. by apply a_object.
  - intros (n & Hn & [= <-])%res_bind_Ok. split; [| done]. apply net_ok_net; [| done].
    unfold MakeEnd in Hn. case_decide; [done |]. injection Hn as <-. intros e' sn p; cbn.
    destruct (decide (e = e')) as [<- |]; [by rewrite lookup_insert_eq |].
    rewrite lookup_insert_ne by done. apply (no_wired _ Hok).
  - intros [= <-]. split; [| done]. by apply net_ok_net.
  - intros (n & Hn & [= <-])%res_bind_Ok. split; [| done]. apply net_ok_net; [| done].
    unfold Cleanup in Hn. destruct (cleaned (net w)); [done |]. injection Hn as <-. apply (no_wired _ Hok).
Qed.

Lemma net_ok_init : net_ok net_init.
Proof. split; cbn; [| done | by apply map_Forall_empty | done]. intros e sn p. by rewrite lookup_empty. Qed.

Lemma sim_steps w : rtc nstep net_init w -> net_ok w /\ rtc astep (∅, ∅) (abs w).
Proof.
  intros Hr. assert (Hi : net_ok (net_init (R := R) (T := T)) /\ rtc astep (∅, ∅) (abs net_init)).
  { split; [apply net_ok_init |]. unfold abs. cbn. by rewrite fmap_empty. }
  revert Hi. induction Hr as [w | w1 w2 w3 (ev & Hev & He) _ IH]; [done |].
  intros [Hok Hab]. apply IH. destruct (sim_step ev w1 w2 Hok Hev He) as [? ?]. split; [done |]. by etrans.
Qed.

(** ** A call returns *)

Definition returned (c : nat) (w : World R T) : Prop :=
  exists x b v, calls w !! c = Some x /\ c_client x = CReturned b v.

(** Only the network moves: ProcessReq and the handler of the call. *)
Definition own (c : nat) (ev : NEvent R T) : bool :=
  match ev with NProcess d _ | NHandle d _ => bool_decide (d = c) | _ => false end.

Definition returns_within (n : nat) (c : nat) (w : World R T) : Prop :=
  exists evs w', (length evs <= n)%nat /\ forallb (own c) evs = true /\
    net_run evs w = Ok (tt, w') /\ returned c w'.

Lemma returns_step n c ev w w1 :
  own c ev = true -> net_exec ev w = Ok (tt, w1) -> returns_within n c w1 -> returns_within (S n) c w.
Proof.
  intros Ho He (evs & w' & Hl & Hown & Hr & Hc). exists (ev :: evs), w'. cbn. rewrite Ho, Hown.
  split; [lia |]. split; [done |]. split; [| done]. apply st_bind_Ok. eauto.
Qed.

Lemma answer_returns c x r w :
  net_ok w -> calls w !! c = Some x -> c_pc x = PAnswer r -> returns_within 1 c w.
Proof.
  intros Hok Hx Hpc. destruct (c_client x) as [| b v] eqn:Ecl.
  2:{ exists [], w. split; [cbn; lia |]. split; [done |]. split; [done |]. by exists x, b, v. }
  destruct (no_calls _ Hok c x Hx) as [_ Hd _ Hpc' _ _]. rewrite Hpc in Hpc'.
  assert (He : exists w', Call_return c x r w = Ok (tt, w') /\ returned c w').
  { unfold Call_return. destruct Hpc' as [-> | Hh].
    - eexists. split; [reflexivity |]. eexists _, _, _. cbn. by rewrite lookup_insert_eq.
    - destruct (Hd r Hh) as (v & y & -> & Hrep & Hdec). unfold st_bind, with_gob. cbn.
      rewrite Hrep, Hdec. cbn. eexists. split; [reflexivity |]. eexists _, _, _. cbn. by rewrite lookup_insert_eq. }
  destruct He as (w' & He & Hret). exists [NProcess c false], w'. split; [cbn; lia |].
  split; [cbn; by rewrite bool_decide_true |]. split; [| done]. apply st_bind_Ok. exists tt, w'.
  split; [| done]. cbn [net_exec]. unfold with_call. rewrite Hx. unfold ProcessReq. by rewrite Hpc, Ecl.
Qed.

(** One section of ProcessReq, and the rest. *)
Lemma process_returns n c x x' w drop :
  net_ok w -> calls w !! c = Some x -> ProcessReq c x drop w = Ok (tt, set_call c x' w) ->
  (net_ok (set_call c x' w) -> calls (set_call c x' w) !! c = Some x' -> returns_within n c (set_call c x' w)) ->
  returns_within (S n) c w.
Proof.
  intros Hok Hx He Hrest.
  assert (He' : net_exec (NProcess c drop) w = Ok (tt, set_call c x' w)).
  { cbn [net_exec]. unfold with_call. by rewrite Hx. }
  eapply returns_step; [| exact He' |]; [cbn; by rewrite bool_decide_true |].
  apply Hrest; [by eapply (sim_step (NProcess c drop)) | apply lookup_insert_eq].
Qed.

Lemma after_returns c x i r w :
  net_ok w -> calls w !! c = Some x -> c_pc x = PAfter i r -> returns_within 2 c w.
Proof.
  intros Hok Hx Hpc.
  assert (He : exists q, ProcessReq c x false w = Ok (tt, set_call c (set_pc (PAnswer q) x) w)).
  { unfold ProcessReq. rewrite Hpc. destruct r as [r|]; [destruct (_ || _) |]; eauto. }
  destruct He as [q He]. eapply process_returns; [done | done | exact He |].
  intros Hok' Hx'. by eapply answer_returns.
Qed.

Lemma timeout_returns c x w :
  net_ok w -> calls w !! c = Some x -> c_pc x = PTimeout -> returns_within 2 c w.
Proof.
  intros Hok Hx Hpc. eapply (process_returns 1 c x (set_pc (PAnswer failure) x) w false); [done | done | |].
  - unfold ProcessReq. by rewrite Hpc.
  - intros Hok' Hx'. by eapply answer_returns.
Qed.

Lemma done_returns c x i r w :
  net_ok w -> calls w !! c = Some x -> c_pc x = PWaiting i -> c_handler x = HDone r -> returns_within 3 c w.
Proof.
  intros Hok Hx Hpc Hh. eapply (process_returns 2 c x (set_pc (PAfter i (Some r)) x) w false); [done | done | |].
  - unfold ProcessReq. by rewrite Hpc, Hh.
  - intros Hok' Hx'. by eapply after_returns.
Qed.

(** The handler of a request can run on the objects its end is linked to. *)
Definition can_run (x : Call) (w : World R T) : Prop :=
  forall p ob, links (endname (c_req x)) p -> objs w !! p = Some ob ->
  exists t v ob', rpc_handler (svcMeth (c_req x)) t (arg_of (c_req x)) ob = Ok (v, ob').

Lemma waiting_returns c x i w :
  net_ok w -> calls w !! c = Some x -> c_pc x = PWaiting i -> can_run x w -> returns_within 4 c w.
Proof.
  intros Hok Hx Hpc Hrun. destruct (no_calls _ Hok c x Hx) as [Hr _ Hp Hpc' _ _]. rewrite Hpc in Hpc'.
  destruct (c_handler x) as [| p | r] eqn:Eh; [done | |].
  2:{ destruct (done_returns c x i r w) as (evs & w' & ? & ?); [done.. |]. exists evs, w'. split; [lia | done]. }
  destruct (Hp p eq_refl) as [Hl [rs Hrs]]. destruct (no_heap _ Hok p rs Hrs) as [Hs [ob Hob]].
  destruct (Hrun p ob Hl Hob) as (t & v & ob' & Hhd).
  pose proof Hr as (aT & rT & av & y & Hm & HaT & HrT & Hold & Hav & Hargs & Hdec).
  assert (Harg : arg_of (c_req x) = av) by (unfold arg_of; rewrite Hargs, HaT; cbn; by rewrite Hdec).
  rewrite Harg in Hhd.
  pose proof (dispatch_spec p rs (c_req x) t w _ aT rT av ob Hrs Hs Hm
    ltac:(split; [done |]; split; [done | by exists y]) Hav Hob) as Hspec.
  rewrite Hhd in Hspec. destruct Hspec as (z & g & _ & Hdis).
  assert (He : net_exec (NHandle c t) w =
    Ok (tt, set_call c (set_handler (HDone (mkReply true [z])) x) (served p rs w ob' g))).
  { cbn [net_exec]. unfold with_call. rewrite Hx. unfold handle. rewrite Eh. apply st_bind_Ok.
    eexists _, _. split; [exact Hdis | reflexivity]. }
  eapply returns_step; [| exact He |]; [cbn; by rewrite bool_decide_true |].
  apply (done_returns c (set_handler (HDone (mkReply true [z])) x) i (mkReply true [z])); [| apply lookup_insert_eq | done | done].
  by eapply (sim_step (NHandle c t)).
Qed.

Lemma connected_returns c x i w :
  net_ok w -> calls w !! c = Some x -> c_pc x = PConnected i -> can_run x w -> returns_within 5 c w.
Proof.
  intros Hok Hx Hpc Hrun.
  eapply (process_returns 4 c x (set_handler (HReady (i_server i)) (set_pc (PWaiting i) x)) w false); [done | done | |].
  - unfold ProcessReq. rewrite Hpc. by rewrite andb_false_r.
  - intros Hok' Hx'. by eapply waiting_returns.
Qed.

Lemma call_returns c x w :
  net_ok w -> calls w !! c = Some x -> can_run x w -> returns_within 6 c w.
Proof.
  intros Hok Hx Hrun.
  assert (Hle : forall n, (n <= 6)%nat -> returns_within n c w -> returns_within 6 c w).
  { intros n Hn (evs & w' & ? & ?). exists evs, w'. split; [lia | done]. }
  destruct (c_pc x) as [| | i | i | i r | r] eqn:Epc.
  - assert (He : exists pc, ProcessReq c x false w = Ok (tt, set_call c (set_pc pc x) w) /\
      (pc = PTimeout \/ exists i, pc = PConnected i)).
    { unfold ProcessReq. rewrite Epc. repeat case_match; eauto. }
    destruct He as (pc & He & Hpc). eapply process_returns; [done | done | exact He |].
    intros Hok' Hx'. destruct Hpc as [-> | [i ->]].
    + destruct (timeout_returns c (set_pc PTimeout x) (set_call c (set_pc PTimeout x) w)) as (evs & w' & ? & ?); [done.. |].
      exists evs, w'. split; [lia | done].
    + by eapply connected_returns.
  - apply (Hle 2%nat); [lia |]. by eapply timeout_returns.
  - apply (Hle 5%nat); [lia |]. by eapply connected_returns.
  - apply (Hle 4%nat); [lia |]. by eapply waiting_returns.
  - apply (Hle 2%nat); [lia |]. by eapply after_returns.
  - apply (Hle 1%nat); [lia |]. by eapply answer_returns.
Qed.

End refinement.
