(* ===== verification/RaftNet.v ===== *)
(** * Raft over labrpc

    The service config.go makes of a Raft server, as an instance of what labrpc
    promises: the network of the tests delivers a request of a Raft server at
    most once and to the server it is meant for, and Call returns the reply that
    the handler made.  The cluster of the file RaftSystem can follow every step
    of that network. *)

From S2P Require Import Prelude LabGob Persister Raft RaftRPC RaftNode LabRpc RaftSystem.

(** ** The Raft service *)

(** The handlers on Go values: the reflect call checks the type of the argument. *)
Definition go_handler {A B} `{GoRepr A} `{GoRepr B} (f : Reading * Reading -> A -> ST Raft B)
    (t : Reading * Reading) (arg : GoVal) : ST Raft GoVal :=
  match of_go arg with
  | Some a => b <- f t a ;; mret (to_go b)
  | None => lift Panic
  end.

Definition ae_handler := go_handler (fun t (a : AppendEntriesArgs) => AppendEntries t.1 t.2 a).
Definition rv_handler := go_handler (fun t (a : RequestVoteArgs) => RequestVote t.1 a).

Definition on_pointer (h : Reading * Reading -> GoVal -> ST Raft GoVal)
    (t : Reading * Reading) (arg old : GoVal) : ST Raft GoVal :=
  match arg with VPtr (Some a) => h t a | _ => lift Panic end.

(** The methods of *Raft that package reflect lists. *)
Definition raft_typ : list (string * Method Raft (Reading * Reading)) :=
  [("AppendEntries", mkMethod "" 3 true 0 (TPtr (go_type AppendEntriesArgs)) (go_type AppendEntriesReply)
      (on_pointer ae_handler));
   ("GetState", mkMethod "" 1 false 2 TBool TBool (fun _ _ _ => lift Panic));
   ("Kill", mkMethod "" 1 false 0 TBool TBool (fun _ _ _ => lift Panic));
   ("RequestVote", mkMethod "" 3 true 0 (TPtr (go_type RequestVoteArgs)) (go_type RequestVoteReply)
      (on_pointer rv_handler));
   ("Start", mkMethod "" 2 false 3 TBool TBool (fun _ _ _ => lift Panic))].

(** svc := labrpc.MakeService(rf); srv := labrpc.MakeServer(); srv.AddService(svc) *)
Definition raft_server (p : nat) : Server Raft (Reading * Reading) :=
  AddService (MakeService "Raft" raft_typ p) MakeServer.

Lemma raft_methods p : dom (methods (MakeService "Raft" raft_typ p)) = {["AppendEntries"; "RequestVote"]}.
Proof. vm_compute. reflexivity. Qed.

#[export] Instance raft_rpc : RpcSpec Raft (Reading * Reading).
Proof.
  refine {|
    rpc_sig m := if decide (m = "Raft.AppendEntries")
                 then Some (go_type AppendEntriesArgs, go_type AppendEntriesReply)
                 else if decide (m = "Raft.RequestVote")
                 then Some (go_type RequestVoteArgs, go_type RequestVoteReply) else None;
    rpc_handler m := if decide (m = "Raft.AppendEntries") then ae_handler else rv_handler |}.
  - intros m aT rT. repeat case_decide; try done; intros [= <- <-]; by split.
  - intros m aT rT t a o v o' Hs _. revert Hs. repeat case_decide; try done; intros [= <- <-];
      unfold ae_handler, rv_handler, go_handler; (destruct (of_go a); [| done]);
      intros (b & s & _ & [= <- _])%st_bind_Ok; exact (to_go_typed b).
Defined.

Lemma raft_server_serves p : serves p (raft_server p).
Proof.
  intros m aT rT. cbn. repeat case_decide; try done; subst; intros [= <- <-].
  - eexists "Raft", "AppendEntries", _, _. split; [reflexivity |].
    split; [reflexivity |]. split; [reflexivity |]. split; [reflexivity |]. done.
  - eexists "Raft", "RequestVote", _, _. split; [reflexivity |].
    split; [reflexivity |]. split; [reflexivity |]. split; [reflexivity |]. done.
Qed.

(** The network with Raft services, and its specification. *)
Definition RaftNetwork : Type := LabRpc.World Raft (Reading * Reading).
Definition network_step (links : string -> nat -> Prop) : RaftNetwork -> RaftNetwork -> Prop := nstep links.
Definition network_spec (links : string -> nat -> Prop) :
    gmap nat Raft * gmap nat ACall -> gmap nat Raft * gmap nat ACall -> Prop := astep links.

(** ** The goroutines of RaftSystem as calls of the network *)

(** The call a goroutine of server [p] has in the network; [endname_] names the
    ends of the cluster. *)
Definition call_of (endname_ : Z -> Z -> string) (p : Z) (g : Goroutine) : option (Z * ACall) :=
  match g with
  | GSendCall _ i _ args =>
      Some (i, mkACall (endname_ p i) "Raft.AppendEntries" (to_go args) AInFlight)
  | GSendRet _ i _ args reply =>
      Some (i, mkACall (endname_ p i) "Raft.AppendEntries" (to_go args) (AExecuted (to_go reply)))
  | GOrphanAE i args => Some (i, mkACall (endname_ p i) "Raft.AppendEntries" (to_go args) AOrphan)
  | GVoteCall _ i args =>
      Some (i, mkACall (endname_ p i) "Raft.RequestVote" (to_go args) AInFlight)
  | GVoteRet _ i args reply =>
      Some (i, mkACall (endname_ p i) "Raft.RequestVote" (to_go args) (AExecuted (to_go reply)))
  | GOrphanRV i args => Some (i, mkACall (endname_ p i) "Raft.RequestVote" (to_go args) AOrphan)
  | _ => None
  end.

(** The point after Call returned true with [v] in *reply. *)
Definition answered (g g' : Goroutine) (v : GoVal) : Prop :=
  match g with
  | GSendRet b i next args _ => exists reply, g' = GSendCheck b i next args reply /\ v = to_go reply
  | GVoteRet e i args _ => exists reply, g' = GVoteCheck e i args reply /\ v = to_go reply
  | _ => False
  end.

(** The world after thread [tid] went to [g'] and server [i] to [rf]. *)
Definition moved (tid : nat) (pg : option (Z * Goroutine)) (irf : option (Z * Raft)) (w : RaftSystem.World) :
    RaftSystem.World :=
  RaftSystem.mkWorld
    (match irf with Some (i, rf) => <[i := rf]> (peers w) | None => peers w end)
    (match pg with Some x => <[tid := x]> (threads w) | None => delete tid (threads w) end)
    (bcasts w) (elects w) (applied w) (fresh w).

Lemma go_handler_Ok {A B} `{GoRepr A} `{GoRepr B} (f : Reading * Reading -> A -> ST Raft B) t a rf v rf' :
  go_handler f t (to_go a) rf = Ok (v, rf') -> exists b, f t a rf = Ok (b, rf') /\ v = to_go b.
Proof.
  unfold go_handler. rewrite of_to_go. intros (b & s & Hf & [= <- <-])%st_bind_Ok. by exists b.
Qed.

Lemma rpc_AppendEntries t args rf v rf' :
  rpc_handler "Raft.AppendEntries" t (to_go args) rf = Ok (v, rf') ->
  exists b, AppendEntries t.1 t.2 args rf = Ok (b, rf') /\ v = to_go b.
Proof. exact (go_handler_Ok (fun t a => AppendEntries t.1 t.2 a) t args rf v rf'). Qed.

Lemma rpc_RequestVote t args rf v rf' :
  rpc_handler "Raft.RequestVote" t (to_go args) rf = Ok (v, rf') ->
  exists b, RequestVote t.1 args rf = Ok (b, rf') /\ v = to_go b.
Proof. exact (go_handler_Ok (fun t a => RequestVote t.1 a) t args rf v rf'). Qed.

Lemma handler_AppendEntries t args rf r rf' :
  AppendEntries t.1 t.2 args rf = Ok (r, rf') -> rpc_handler "Raft.AppendEntries" t (to_go args) rf = Ok (to_go r, rf').
Proof.
  intros He. change (ae_handler t (to_go args) rf = Ok (to_go r, rf')).
  unfold ae_handler, go_handler, st_bind. by rewrite of_to_go, He.
Qed.

Lemma handler_RequestVote t args rf r rf' :
  RequestVote t.1 args rf = Ok (r, rf') -> rpc_handler "Raft.RequestVote" t (to_go args) rf = Ok (to_go r, rf').
Proof.
  intros He. change (rv_handler t (to_go args) rf = Ok (to_go r, rf')).
  unfold rv_handler, go_handler, st_bind. by rewrite of_to_go, He.
Qed.

Lemma some_pair_inv {A B} (x x' : A) (y y' : B) : Some (x, y) = Some (x', y') -> x = x' /\ y = y'.
Proof. by intros [= -> ->]. Qed.

Section cluster.
Context (endname_ : Z -> Z -> string) (w : RaftSystem.World) (tid : nat) (p i : Z) (g : Goroutine) (a : ACall).
Hypothesis Hg : threads w !! tid = Some (p, g).
Hypothesis Hc : call_of endname_ p g = Some (i, a).

Lemma with_thread_eq f : with_thread tid f w = f p g w.
Proof. unfold with_thread. by rewrite Hg. Qed.

Lemma on_peer_runs {A} (m : ST Raft A) rf x rf' :
  peers w !! i = Some rf -> m rf = Ok (x, rf') -> on_peer i m w = Ok (x, set_peers (<[i := rf']> (peers w)) w).
Proof. intros Hrf Hm. unfold on_peer. by rewrite Hrf, Hm. Qed.

(** The network executes the request. *)
Lemma cluster_executes t rf v rf' :
  peers w !! i = Some rf -> rpc_handler (a_meth a) t (a_arg a) rf = Ok (v, rf') ->
  (a_status a = AInFlight -> exists g',
     exec (EDeliver tid t.1 t.2) w = Ok (tt, moved tid (Some (p, g')) (Some (i, rf')) w) /\
     call_of endname_ p g' = Some (i, with_status (AExecuted v) a)) /\
  (a_status a = AOrphan -> exec (EDeliver tid t.1 t.2) w = Ok (tt, moved tid None (Some (i, rf')) w)).
Proof.
  intros Hrf Hh. unfold exec. rewrite with_thread_eq. unfold deliver.
  destruct g; cbn [call_of] in Hc; try done; apply some_pair_inv in Hc as [-> <-]; cbn [a_meth a_arg] in Hh;
    (split; intros Hst; try done);
    (apply rpc_AppendEntries in Hh as (rep & Hb & ->) || apply rpc_RequestVote in Hh as (rep & Hb & ->)).
  - eexists. split; [apply st_bind_Ok; exists rep; eexists; split; [by apply (on_peer_runs _ rf) | reflexivity] | reflexivity].
  - eexists. split; [apply st_bind_Ok; exists rep; eexists; split; [by apply (on_peer_runs _ rf) | reflexivity] | reflexivity].
  - apply st_bind_Ok. exists rep. eexists. split; [by apply (on_peer_runs _ rf) | reflexivity].
  - apply st_bind_Ok. exists rep. eexists. split; [by apply (on_peer_runs _ rf) | reflexivity].
Qed.

(** Call returns true. *)
Lemma cluster_replies v :
  a_status a = AExecuted v ->
  exists g', exec (EReply tid) w = Ok (tt, moved tid (Some (p, g')) None w) /\ answered g g' v.
Proof.
  intros Hst. unfold exec. rewrite with_thread_eq. unfold call_true.
  destruct g; cbn [call_of] in Hc; try done; apply some_pair_inv in Hc as [-> <-]; cbn in Hst; try done; injection Hst as <-;
    (eexists; split; [reflexivity |]); by eexists.
Qed.

(** Call returns false. *)
Lemma cluster_loses :
  (a_status a = AInFlight -> exists g', exec (ELose tid) w = Ok (tt, moved tid (Some (p, g')) None w) /\
     call_of endname_ p g' = Some (i, with_status AOrphan a)) /\
  ((exists v, a_status a = AExecuted v) -> exec (ELose tid) w = Ok (tt, moved tid None None w)).
Proof.
  unfold exec. rewrite with_thread_eq. unfold call_false.
  destruct g; cbn [call_of] in Hc; try done; apply some_pair_inv in Hc as [-> <-]; cbn; (split; [intros Hst | intros [v Hst]]; try done);
    (eexists; split; reflexivity) || reflexivity.
Qed.
End cluster.

(** ** The cluster follows the network *)

(** A call whose goroutine, or whose request, is still under way. *)
Definition pending (st : AStatus) : Prop :=
  match st with AReturned _ | AFailed => False | _ => True end.

Section follow.
Context (endname_ : Z -> Z -> string) (obj : Z -> nat) (ids : nat -> nat).

(** The end [endname_ p i] leads to server [i]. *)
Definition leads (e : string) (q : nat) : Prop := forall p i, e = endname_ p i -> q = obj i.

(** The objects are the servers of the cluster, and every pending call [c] is
    the one that goroutine [ids c] makes. *)
Record synced (s : gmap nat Raft * gmap nat ACall) (w : RaftSystem.World) : Prop := {
  sy_objs : forall i, s.1 !! obj i = peers w !! i;
  sy_calls : forall c a, s.2 !! c = Some a -> pending (a_status a) ->
    exists p i g, threads w !! ids c = Some (p, g) /\ call_of endname_ p g = Some (i, a);
}.

Lemma call_of_end p g i a : call_of endname_ p g = Some (i, a) -> a_end a = endname_ p i.
Proof. destruct g; cbn; try done; by intros [-> <-]%some_pair_inv. Qed.

Context `{!Inj (=) (=) obj} `{!Inj (=) (=) ids}.

(** One call and its goroutine move together. *)
Lemma synced_moved s w c a pg irf :
  synced s w ->
  (pending (a_status a) -> exists p i g, pg = Some (p, g) /\ call_of endname_ p g = Some (i, a)) ->
  synced (match irf with Some (i, rf) => <[obj i := rf]> s.1 | None => s.1 end, <[c := a]> s.2)
         (moved (ids c) pg irf w).
Proof.
  intros [Ho Hc] Hpg. split; cbn.
  - intros j. destruct irf as [[i rf] |]; [| apply Ho]. destruct (decide (i = j)) as [-> | Hne].
    + by rewrite !lookup_insert_eq.
    + rewrite !lookup_insert_ne; [apply Ho | done | by intros ?%(inj obj)].
  - intros k b Hk Hp. destruct (decide (c = k)) as [-> | Hne].
    + rewrite lookup_insert_eq in Hk. injection Hk as ->. destruct (Hpg Hp) as (p & i & g & -> & Hg).
      exists p, i, g. by rewrite lookup_insert_eq.
    + rewrite lookup_insert_ne in Hk by done. destruct (Hc k b Hk Hp) as (p & i & g & Hg & Hcall).
      exists p, i, g. split; [| done]. assert (ids c <> ids k) by (by intros ?%(inj ids)).
      destruct pg; [by rewrite lookup_insert_ne | by rewrite lookup_delete_ne].
Qed.

(** The goroutine of a call that got its reply has that reply. *)
Definition reply_arrives (s s' : gmap nat Raft * gmap nat ACall) (w w' : RaftSystem.World) : Prop :=
  forall c a v, s.2 !! c = Some a -> a_status a = AExecuted v -> s'.2 !! c = Some (with_status (AReturned v) a) ->
  exists p g g', threads w !! ids c = Some (p, g) /\ threads w' !! ids c = Some (p, g') /\ answered g g' v.

Lemma no_reply s o' w w' c a st :
  s.2 !! c = Some a -> (forall v, st <> AReturned v) -> reply_arrives s (o', <[c := with_status st a]> s.2) w w'.
Proof.
  intros Hc Hst k b v Hk Hb Hk'. exfalso. cbn in Hk'. destruct (decide (c = k)) as [-> | Hne].
  - rewrite lookup_insert_eq in Hk'. simplify_eq. by eapply Hst.
  - rewrite lookup_insert_ne in Hk' by done. rewrite Hk in Hk'. injection Hk' as Hk'. by rewrite Hk' in Hb.
Qed.

Lemma follow_step s s' w :
  synced s w -> astep leads s s' -> dom s'.1 = dom s.1 -> dom s'.2 = dom s.2 ->
  exists ev w', exec ev w = Ok (tt, w') /\ synced s' w' /\ reply_arrives s s' w w'.
Proof.
  intros Hsy Hst. pose proof Hsy as [Ho Hc].
  destruct Hst as [o cs p ob Hp | o cs c a Hn _ | o cs c a t q ob v ob' st' Ha Hl Hob Hh Hcase
                  | o cs c a v Ha Hv | o cs c a st' Ha Hcase]; cbn; intros Hd1 Hd2.
  - exfalso. apply not_elem_of_dom in Hp. rewrite <- Hd1 in Hp. set_solver.
  - exfalso. apply not_elem_of_dom in Hn. rewrite <- Hd2 in Hn. set_solver.
  - destruct (Hc c a Ha) as (p & i & g & Hg & Hcall); [by destruct Hcase as [[-> _] | [-> _]] |].
    assert (q = obj i) as -> by (apply (Hl p); by eapply call_of_end).
    cbn in Ho. rewrite Ho in Hob.
    destruct (cluster_executes endname_ w (ids c) p i g a Hg Hcall t ob v ob' Hob Hh) as [H1 H2].
    destruct Hcase as [[Hs ->] | [Hs ->]].
    + destruct (H1 Hs) as (g' & He & Hg'). eexists _, _. split; [exact He |]. split; [| by apply (no_reply (o, cs))].
      apply (synced_moved (o, cs) w c _ (Some (p, g')) (Some (i, ob'))); [done |]. intros _. by exists p, i, g'.
    + eexists _, _. split; [exact (H2 Hs) |]. split; [| by apply (no_reply (o, cs))].
      by apply (synced_moved (o, cs) w c _ None (Some (i, ob'))).
  - destruct (Hc c a Ha) as (p & i & g & Hg & Hcall); [by rewrite Hv |].
    destruct (cluster_replies endname_ w (ids c) p i g a Hg Hcall v Hv) as (g' & He & Hans).
    eexists _, _. split; [exact He |]. split.
    + by apply (synced_moved (o, cs) w c _ (Some (p, g')) None).
    + intros k b u Hk Hb Hk'. cbn in *. destruct (decide (c = k)) as [-> | Hne].
      * assert (b = a) as -> by congruence. assert (u = v) as -> by congruence.
        exists p, g, g'. by rewrite lookup_insert_eq.
      * rewrite lookup_insert_ne in Hk' by done. rewrite Hk in Hk'. injection Hk' as Hk'. by rewrite Hk' in Hb.
  - destruct (Hc c a Ha) as (p & i & g & Hg & Hcall); [by destruct Hcase as [[-> _] | [[? ->] _]] |].
    destruct (cluster_loses endname_ w (ids c) p i g a Hg Hcall) as [H1 H2].
    destruct Hcase as [[Hs ->] | [Hs ->]].
    + destruct (H1 Hs) as (g' & He & Hg'). eexists _, _. split; [exact He |]. split; [| by apply (no_reply (o, cs))].
      apply (synced_moved (o, cs) w c _ (Some (p, g')) None); [done |]. intros _. by exists p, i, g'.
    + eexists _, _. split; [exact (H2 Hs) |]. split; [| by apply (no_reply (o, cs))].
      by apply (synced_moved (o, cs) w c _ None None).
Qed.

End follow.

(** ** Properties *)

(** C34: the network of the tests does what the cluster model assumes of it.
    Whatever the program does with the network -- calls of the Raft methods with
    arguments of their types and fresh reply variables, new servers, enabling,
    disabling, connecting, deleting and adding servers, unreliable and
    reordering modes -- and however the goroutines of labrpc interleave, the
    calls behave like the abstract network: a request is executed at most once,
    by the handler of a server its end is linked to; Call returns true only after
    that, with exactly the reply the handler made; and after Call returned false
    the request may still be executed once.  The argument the handler gets is the
    one the caller passed: sending adds a request with that argument. *)
Theorem raft_network_refines links (w : RaftNetwork) :
  rtc (network_step links) net_init w ->
  rtc (network_spec links) (∅, ∅) (abs w) /\
  forall e m aT rT av old, rpc_sig m = Some (aT, rT) -> has_type av aT = true ->
    exists w', net_exec (NCall e m (TPtr aT) (VPtr (Some av)) rT old false) w = Ok (tt, w') /\
      abs w' = ((abs w).1, <[next w := mkACall e m av AInFlight]> (abs w).2).
Proof.
  intros [Hok Hs]%sim_steps. split; [done |]. intros e m aT rT av old Hm Hav. by eapply call_sent.
Qed.

(** One server, a client end to it, and a vote request. *)
Definition ask : RequestVoteArgs := mkRVArgs 1 1 0 0.
Definition demo_links (e : string) (p : nat) : Prop := e = "1-0" /\ p = 0%nat.
Definition demo_server : Raft :=
  match Make 3 0 Persister.MakePersister (mkReading 0 0) with Ok rf => rf | _ => zeroRaft end.
Definition demo_setup (n : Network) : Network := Enable "1-0" true (Connect "1-0" 0 (AddServer 0 0 n)).
Definition demo_events : list (NEvent Raft (Reading * Reading)) :=
  [NNew raft_server demo_server; NMakeEnd "1-0"; NNet demo_setup;
   NCall "1-0" "Raft.RequestVote" (TPtr (go_type RequestVoteArgs)) (VPtr (Some (to_go ask)))
     (go_type RequestVoteReply) (zero_val (go_type RequestVoteReply)) false;
   NProcess 1 false; NProcess 1 false; NHandle 1 (mkReading 5 0, mkReading 5 0);
   NProcess 1 false; NProcess 1 false; NProcess 1 false].

(** The network after a sequence of steps, and whether they all can be taken. *)
Definition after (evs : list (NEvent Raft (Reading * Reading))) : RaftNetwork :=
  match net_run evs net_init with Ok (_, w) => w | _ => net_init end.
Definition runs (evs : list (NEvent Raft (Reading * Reading))) : bool :=
  match net_run evs net_init with Ok _ => true | _ => false end.

Lemma net_run_app evs1 evs2 (w : RaftNetwork) :
  net_run (evs1 ++ evs2) w = (net_run evs1 ;;; net_run evs2) w.
Proof.
  revert w. induction evs1 as [| ev evs1 IH]; intros w; [done |]. cbn. unfold st_bind in *.
  destruct (net_exec ev w) as [[[] w1] | | |]; cbn; [apply IH | done..].
Qed.

Lemma run_ok evs : runs evs = true -> net_run evs net_init = Ok (tt, after evs).
Proof. unfold runs, after. by destruct (net_run evs net_init) as [[[] w] | | |]. Qed.

Lemma runs_snoc evs ev :
  runs (evs ++ [ev]) = true -> runs evs = true /\ net_exec ev (after evs) = Ok (tt, after (evs ++ [ev])).
Proof.
  intros Hr. pose proof (run_ok _ Hr) as He. rewrite net_run_app in He.
  apply st_bind_Ok in He as ([] & w1 & Hw & He). unfold runs. rewrite Hw. split; [done |].
  unfold after at 1. rewrite Hw. cbn in He. apply st_bind_Ok in He as ([] & w2 & He & [= <-]). done.
Qed.

Lemma after_reaches evs :
  runs evs = true -> (forall n ev, evs !! n = Some ev -> ev_ok demo_links ev (after (take n evs))) ->
  rtc (network_step demo_links) net_init (after evs).
Proof.
  induction evs as [| ev evs IH] using rev_ind; intros Hr Hok; [done |].
  destruct (runs_snoc _ _ Hr) as [Hr' He]. eapply rtc_r.
  - apply IH; [done |]. intros n ev' Hn. specialize (Hok n ev'). apply lookup_lt_Some in Hn as Hlt.
    rewrite take_app_le in Hok by lia. apply Hok. by apply lookup_app_l_Some.
  - exists ev. split; [| done]. specialize (Hok (length evs) ev). rewrite take_app_length in Hok.
    apply Hok. by rewrite list_lookup_middle.
Qed.

Lemma demo_net : net (after (take 2 demo_events)) =
  mkNetwork true false false {["1-0"]} {["1-0" := false]} ∅ {["1-0" := None]} false 0.
Proof. vm_compute. reflexivity. Qed.

Lemma demo_ok n ev : demo_events !! n = Some ev -> ev_ok demo_links ev (after (take n demo_events)).
Proof.
  intros Hn. destruct n as [| [| [| [| n]]]]; try (injection Hn as <-).
  - apply raft_server_serves.
  - done.
  - intros e sn p. rewrite demo_net. cbn. destruct (decide (e = "1-0")) as [-> |].
    + rewrite lookup_insert_eq. intros [= <-]. rewrite lookup_insert_eq. intros [= <-]. split; [done |].
      exists (raft_server 0). reflexivity.
    + by rewrite lookup_insert_ne, lookup_singleton_ne.
  - by eexists _, _.
  - by destruct n as [| [| [| [| [| [| n]]]]]]; try (injection Hn as <-).
Qed.

Lemma raft_network_refines_witness :
  rtc (network_spec demo_links) (∅, ∅) (abs (after demo_events)) /\
  (abs (after demo_events)).2 !! 1%nat =
    Some (mkACall "1-0" "Raft.RequestVote" (to_go ask) (AReturned (to_go (mkRVReply 1 true)))).
Proof.
  split; [apply (raft_network_refines demo_links), after_reaches; [vm_compute; reflexivity | apply demo_ok] |]. vm_compute. reflexivity.
Defined.

(** C35: the cluster of RaftSystem, in which a request is one step of its
    receiver, follows the network.  In a cluster whose servers are the objects of
    the network and whose goroutines make the pending calls, every move of the
    network -- a server executes a request, a reply arrives, a request or a reply
    is lost -- is one step of the cluster (EDeliver, EReply, ELose) after which
    they agree again; and the goroutine whose call got its reply goes on with
    exactly that reply. *)
Theorem cluster_follows_network endname_ obj ids s s' w :
  Inj (=) (=) obj -> Inj (=) (=) ids ->
  synced endname_ obj ids s w -> astep (leads endname_ obj) s s' -> dom s'.1 = dom s.1 -> dom s'.2 = dom s.2 ->
  exists ev w', exec ev w = Ok (tt, w') /\ synced endname_ obj ids s' w' /\ reply_arrives ids s s' w w'.
Proof. intros ? ?. by apply follow_step. Qed.

(** Server 1 asks server 0 for its vote. *)
Definition ask_end (p i : Z) : string := if decide (i = 0) then "1-0" else "1-1".
Definition ask_world : RaftSystem.World :=
  RaftSystem.mkWorld {[0 := demo_server]} {[0%nat := (1, GVoteCall 0 0 ask)]} ∅ ∅ ∅ 1.
Definition ask_state (st : AStatus) (rf : Raft) : gmap nat Raft * gmap nat ACall :=
  ({[encode_nat 0 := rf]}, {[0%nat := mkACall "1-0" "Raft.RequestVote" (to_go ask) st]}).
Definition voted : GoVal * Raft :=
  match rv_handler (mkReading 5 0, mkReading 5 0) (to_go ask) demo_server with Ok x => x | _ => (VBool false, zeroRaft) end.

Lemma cluster_follows_network_witness :
  exists ev w', exec ev ask_world = Ok (tt, w') /\
    synced ask_end (encode_nat (A := Z)) id (ask_state (AExecuted voted.1) voted.2) w' /\
    reply_arrives id (ask_state AInFlight demo_server) (ask_state (AExecuted voted.1) voted.2) ask_world w'.
Proof.
  assert (H0 : forall i, encode_nat (A := Z) 0 = encode_nat i <-> 0 = i)
    by (intros i; split; [apply (inj encode_nat) | by intros <-]).
  apply (cluster_follows_network ask_end encode_nat id (ask_state AInFlight demo_server)
    (ask_state (AExecuted voted.1) voted.2)).
  - apply _.
  - apply _.
  - split; cbn.
    + intros i. rewrite !lookup_singleton. by destruct (H0 i); repeat case_decide; naive_solver.
    + intros c a [<- <-]%lookup_singleton_Some _. exists 1, 0, (GVoteCall 0 0 ask). done.
  - pose proof (a_execute (leads ask_end encode_nat) {[encode_nat 0 := demo_server]}
      {[0%nat := mkACall "1-0" "Raft.RequestVote" (to_go ask) AInFlight]} 0 _ (mkReading 5 0, mkReading 5 0) (encode_nat 0)
      demo_server voted.1 voted.2 (AExecuted voted.1) (lookup_singleton_eq _ _)) as Hstep.
    rewrite !insert_singleton_eq in Hstep. apply Hstep.
    + intros p i. unfold ask_end. cbn. by case_decide as Hi; [rewrite Hi |].
    + apply lookup_singleton_eq.
    + vm_compute. reflexivity.
    + by left.
  - vm_compute. reflexivity.
  - vm_compute. reflexivity.
Defined.

(** A call of a Raft method returns.  In every state of the network, however
    it was reached, at most six further sections of the goroutines that serve a
    call of AppendEntries or RequestVote make it return, whatever else is going
    on and without any help from the caller: the loop of ProcessReq ends, the
    handler does not panic (for AppendEntries because PrevLogIndex is not
    negative, for RequestVote because no log is empty), and the reply decodes. *)
Theorem raft_call_returns links (w : RaftNetwork) c x :
  rtc (network_step links) net_init w -> calls w !! c = Some x ->
  (svcMeth (c_req x) = "Raft.AppendEntries" /\
     exists args, arg_of (c_req x) = to_go args /\ 0 <= ae_PrevLogIndex args) \/
  (svcMeth (c_req x) = "Raft.RequestVote" /\
     exists args : RequestVoteArgs, arg_of (c_req x) = to_go args /\ forall p rf, objs w !! p = Some rf -> 0 < len (Log rf)) ->
  returns_within 6 c w.
Proof.
  intros [Hok _]%sim_steps Hx Hm. apply (call_returns links c x w Hok Hx). intros p rf _ Hrf.
  pose (t := (mkReading 0 0, mkReading 0 0)). exists t.
  destruct Hm as [(-> & args & -> & Hp) | (-> & args & -> & Hl)].
  - destruct (AppendEntries_total t.1 t.2 args rf Hp) as (r & rf' & He & _).
    exists (to_go r), rf'. by apply handler_AppendEntries.
  - destruct (RequestVote_total t.1 args rf (Hl p rf Hrf)) as (r & rf' & He & _).
    exists (to_go r), rf'. by apply handler_RequestVote.
Qed.

(** The vote request of the example, just sent. *)
Lemma raft_call_returns_witness : returns_within 6 1 (after (take 4 demo_events)).
Proof.
  destruct (calls (after (take 4 demo_events)) !! 1%nat) as [x |] eqn:Hx; [| by vm_compute in Hx].
  apply (raft_call_returns demo_links _ 1 x); [| exact Hx |].
  - apply after_reaches; [vm_compute; reflexivity |]. intros n ev Hn.
    apply lookup_take_Some in Hn as [Hn Hlt]. rewrite take_take, Nat.min_l by lia. by apply demo_ok.
  - right. vm_compute in Hx. injection Hx as <-. split; [done |]. exists ask. split; [reflexivity |].
    intros p rf. assert (Ho : objs (after (take 4 demo_events)) = {[0%nat := demo_server]}) by (vm_compute; reflexivity).
    rewrite Ho. intros [_ <-]%lookup_singleton_Some. by vm_compute.
Defined.

(** C40: what MakeService offers of a Raft server, and what happens to other
    requests.  Of the methods of *Raft exactly AppendEntries and RequestVote have
    the shape of a handler (GetState, Kill and Start do not).  A request
    "svc.meth" ends the program if the server has no such service or Raft has no
    such handler; a request whose name has no dot panics. *)
Theorem raft_service_methods p (req : reqMsg) t (w : RaftNetwork) :
  heap w !! p = Some (raft_server p) ->
  dom (methods (MakeService "Raft" raft_typ p)) = {["AppendEntries"; "RequestVote"]} /\
  (forall sv meth, svcMeth req = (sv +:+ String dot meth)%string -> no_dot meth = true ->
     sv <> "Raft" \/ meth <> "AppendEntries" /\ meth <> "RequestVote" -> dispatch p req t w = Fatal) /\
  (no_dot (svcMeth req) = true -> dispatch p req t w = Panic).
Proof.
  intros Hp. split_and!.
  - apply raft_methods.
  - intros sv meth Hs Hm Hbad. unfold dispatch. rewrite Hp, Hs, splitAt_dot by done. cbn [mbind res_bind fst snd].
    destruct (decide (sv = "Raft")) as [-> | Hne].
    + destruct Hbad as [? | [H1 H2]]; [done |]. change (services (raft_server p) !! "Raft") with
        (Some (MakeService "Raft" raft_typ p)). cbv iota beta. unfold Service_dispatch.
      replace (methods (MakeService "Raft" raft_typ p) !! meth) with (@None (Method Raft (Reading * Reading))); [done |].
      symmetry. apply not_elem_of_dom. rewrite raft_methods. set_solver.
    + replace (services (raft_server p) !! sv) with (@None (Service Raft (Reading * Reading))); [done |].
      symmetry. cbn. by rewrite lookup_insert_ne, lookup_empty.
  - intros Hn. unfold dispatch. rewrite Hp, lastDot_none by done. done.
Qed.

Lemma raft_service_methods_witness :
  dispatch 0 (mkReq "1-0" "Raft.Kill" (TPtr (go_type RequestVoteArgs)) []) (mkReading 0 0, mkReading 0 0)
    (after (take 3 demo_events)) = Fatal.
Proof.
  eapply (raft_service_methods 0 (mkReq "1-0" "Raft.Kill" (TPtr (go_type RequestVoteArgs)) []) _ (after (take 3 demo_events)))
    with (sv := "Raft") (meth := "Kill"); [reflexivity | reflexivity | reflexivity |].
  right. done.
Defined.
