(* ===== verification/Config.v ===== *)
(** * The harness of the tests: starting, connecting and crashing servers

    Models src/raft/config.go: the record config, how the harness wires the
    ends of the network of LabRpc to Raft servers, how it crashes a server and
    starts a new instance from what the old one persisted, the goroutine that
    reads applyCh, and the checks of the tests.  Each operation is one step;
    the names that randstring draws and the readings of the clock are
    arguments.  A Raft is a pointer into the objects of the network, so that an
    old instance, which cannot be stopped, goes on next to the new one. *)

From S2P Require Import Prelude LabGob Persister Raft RaftRPC RaftNode RaftSystem RaftSteps RaftRaces RaftLocal.
From S2P Require Import LabRpc RaftNet.

Module Config.

(** A saved *Persister: nil, the one that the Raft [o] has and writes to, or one
    that only the harness has. *)
Inductive SavedPs :=
  | SNil
  | SOf (o : nat)
  | SOwn (ps : Persister.t).

Record config := mkConfig {
  n : Z;
  rafts : list (option nat);
  applyErr : list string;
  connected : list bool;
  saved : list SavedPs;
  endnames : list (option (list string));
  logs : list (option (gmap Z Z));
  rpcs0 : Z;
  cmds0 : Z;
  maxIndex : Z;
  maxIndex0 : Z;
}.

Definition set_rafts v c := mkConfig (n c) v (applyErr c) (connected c) (saved c) (endnames c) (logs c)
  (rpcs0 c) (cmds0 c) (maxIndex c) (maxIndex0 c).
Definition set_connected v c := mkConfig (n c) (rafts c) (applyErr c) v (saved c) (endnames c) (logs c)
  (rpcs0 c) (cmds0 c) (maxIndex c) (maxIndex0 c).
Definition set_saved v c := mkConfig (n c) (rafts c) (applyErr c) (connected c) v (endnames c) (logs c)
  (rpcs0 c) (cmds0 c) (maxIndex c) (maxIndex0 c).
Definition set_endnames v c := mkConfig (n c) (rafts c) (applyErr c) (connected c) (saved c) v (logs c)
  (rpcs0 c) (cmds0 c) (maxIndex c) (maxIndex0 c).
Definition set_logs v c := mkConfig (n c) (rafts c) (applyErr c) (connected c) (saved c) (endnames c) v
  (rpcs0 c) (cmds0 c) (maxIndex c) (maxIndex0 c).
Definition set_maxIndex v c := mkConfig (n c) (rafts c) (applyErr c) (connected c) (saved c) (endnames c) (logs c)
  (rpcs0 c) (cmds0 c) v (maxIndex0 c).

(** The harness and its network. *)
Record Test := mkTest { cfg : config; wld : RaftNetwork }.

Definition set_cfg (c : config) (s : Test) : Test := mkTest c (wld s).
Definition set_wld (w : RaftNetwork) (s : Test) : Test := mkTest (cfg s) w.

(** cfg.f[i] and cfg.f[i] = x *)
Definition read {A} (f : config -> list A) (i : Z) : ST Test A := fun s =>
  x ← idx (f (cfg s)) i; Ok (x, s).
Definition write {A} (f : config -> list A) (set : list A -> config -> config) (i : Z) (x : A) : ST Test unit :=
  fun s => l ← store (f (cfg s)) i x; Ok (tt, set_cfg (set l (cfg s)) s).

Definition on_net (f : Network -> Network) : ST Test unit :=
  modify (fun s => set_wld (set_net (f (net (wld s))) (wld s)) s).
Definition new_end (e : string) : ST Test unit := fun s =>
  rn ← MakeEnd e (net (wld s)); Ok (tt, set_wld (set_net rn (wld s)) s).

(** [for j := 0; j < cfg.n; j++] *)
Fixpoint for_each {S} (js : list Z) (body : Z -> ST S unit) : ST S unit :=
  match js with
  | [] => mret tt
  | j :: js => body j ;;; for_each js body
  end.
Definition for_n (body : Z -> ST Test unit) : ST Test unit := fun s =>
  for_each (seqZ 0 (n (cfg s))) body s.

(** ** Attaching a server to the net *)

(** endname := cfg.endnames[i][j]; cfg.net.Enable(endname, b); a nil row panics. *)
Definition enable_end (b : bool) (i j : Z) : ST Test unit :=
  row <- read endnames i ;;
  endname <- lift (idx (default [] row) j) ;;
  on_net (Enable endname b).

Definition connect (i : Z) : ST Test unit :=
  write connected set_connected i true ;;;
  for_n (fun j =>
    c <- read connected j ;;
    if c : bool then enable_end true i j else mret tt) ;;;
  for_n (fun j =>
    c <- read connected j ;;
    if c : bool then enable_end true j i else mret tt).

Definition disconnect (i : Z) : ST Test unit :=
  write connected set_connected i false ;;;
  for_n (fun j =>
    row <- read endnames i ;;
    match row with None => mret tt | Some _ => enable_end false i j end) ;;;
  for_n (fun j =>
    row <- read endnames j ;;
    match row with None => mret tt | Some _ => enable_end false j i end).

(** ** Crashing and starting a server *)

(** The content of a saved persister. *)
Definition content (ps : SavedPs) : ST Test (option Persister.t) :=
  match ps with
  | SNil => mret None
  | SOwn ps => mret (Some ps)
  | SOf o => fun s =>
      match objs (wld s) !! o with Some rf => Ok (Some (persister rf), s) | None => Blocked end
  end.

(** The part of crash1 under cfg.mu; Raft.Kill does nothing. *)
Definition forget (i : Z) : ST Test unit :=
  ps <- read saved i ;;
  ps <- content ps ;;
  match ps with
  | Some ps => write saved set_saved i (SOwn (Persister.Copy ps))
  | None => mret tt
  end ;;;
  rf <- read rafts i ;;
  match rf with
  | Some _ => write rafts set_rafts i None
  | None => mret tt
  end ;;;
  ps <- read saved i ;;
  ps <- content ps ;;
  match ps with
  | Some ps =>
      let raftlog := Persister.ReadRaftState ps in
      write saved set_saved i (SOwn (Persister.SaveRaftState raftlog (Persister.mk [] [])))
  | None => mret tt
  end.

Definition crash1 (i : Z) : ST Test unit :=
  disconnect i ;;;
  on_net (DeleteServer i) ;;;
  forget i.

(** rf := Make(ends, i, cfg.saved[i], applyCh), the service and the server made of it. *)
Definition new_server (rf : Raft) : ST Test nat := fun s =>
  let w := wld s in
  let o := next w in
  Ok (o, set_wld (mkWorld (net w) (<[o := raft_server o]> (heap w)) (<[o := rf]> (objs w))
                    (calls w) (gob w) (S o)) s).

(** ends[j] = cfg.net.MakeEnd(cfg.endnames[i][j]); cfg.net.Connect(cfg.endnames[i][j], j) *)
Definition make_end (i : Z) (j : Z) : ST Test unit :=
  row <- read endnames i ;;
  endname <- lift (idx (default [] row) j) ;;
  new_end endname ;;;
  on_net (Connect endname j).

(** start1 after the ends were made. *)
Definition launch (i peers : Z) (tm : Reading) : ST Test unit :=
  ps <- read saved i ;;
  ps <- content ps ;;
  let ps := match ps with Some ps => Persister.Copy ps | None => Persister.MakePersister end in
  rf <- lift (Make peers i ps tm) ;;
  o <- new_server rf ;;
  write saved set_saved i (SOf o) ;;;
  write rafts set_rafts i (Some o) ;;;
  on_net (AddServer i o).

(** [rnd j] is the string that randstring(20) gives for peer [j]. *)
Definition start1 (i : Z) (rnd : Z -> string) (tm : Reading) : ST Test unit :=
  crash1 i ;;;
  peers <- gets (fun s => n (cfg s)) ;;
  write endnames set_endnames i (Some (rnd <$> seqZ 0 peers)) ;;;
  for_n (make_end i) ;;;
  launch i peers tm.

Definition setunreliable (unrel : bool) : ST Test unit := on_net (Reliable (negb unrel)).
Definition setlongreordering (longrel : bool) : ST Test unit := on_net (LongReordering longrel).

(** [rnd i j] is the name of the end from [i] to [j], [tm i] what Make reads of the clock. *)
Definition empty_config (n : Z) : config :=
  mkConfig n (replicate (Z.to_nat n) None) (replicate (Z.to_nat n) "") (replicate (Z.to_nat n) false)
    (replicate (Z.to_nat n) SNil) (replicate (Z.to_nat n) None) (replicate (Z.to_nat n) None) 0 0 0 0.
Definition empty_test (n : Z) : Test := mkTest (empty_config n) net_init.

(** The body of the first loop of make_config. *)
Definition start_body (rnd : Z -> Z -> string) (tm : Z -> Reading) (i : Z) : ST Test unit :=
  write logs set_logs i (Some ∅) ;;; start1 i (rnd i) (tm i).

Definition make_body (unreliable : bool) (rnd : Z -> Z -> string) (tm : Z -> Reading) : ST Test unit :=
  setunreliable unreliable ;;;
  on_net (LongDelays true) ;;;
  for_n (start_body rnd tm) ;;;
  for_n connect.

Definition make_config (n : Z) (unreliable : bool) (rnd : Z -> Z -> string) (tm : Z -> Reading) : res Test :=
  if decide (n < 0) then Panic else
  x ← make_body unreliable rnd tm (empty_test n); Ok (x.2).

Definition rpcCount (server : Z) (s : Test) : res Z := GetCount server (wld s).
Definition rpcTotal (s : Test) : Z := GetTotalCount (net (wld s)).

(** [failed] is cfg.t.Failed(), [since] the nanoseconds since make_config. *)
Definition checkTimeout (failed : bool) (since : Z) : res unit :=
  if decide (failed = false /\ since > 120 * 10 ^ 9) then Fatal else Ok tt.

(** Raft.Kill does nothing. *)
Definition cleanup (failed : bool) (since : Z) : ST Test unit := fun s =>
  rn ← Cleanup (net (wld s));
  _ ← checkTimeout failed since;
  Ok (tt, set_wld (set_net rn (wld s)) s).

(** begin() and the numbers that end() prints *)
Definition begin (s : Test) : Test :=
  let c := cfg s in
  set_cfg (mkConfig (n c) (rafts c) (applyErr c) (connected c) (saved c) (endnames c) (logs c)
             (rpcTotal s) 0 (maxIndex c) (maxIndex c)) s.
Definition end_ (failed : bool) (since : Z) (s : Test) : res (option (Z * Z * Z)) :=
  _ ← checkTimeout failed since;
  if failed then Ok None
  else Ok (Some (n (cfg s), rpcTotal s - rpcs0 (cfg s), maxIndex (cfg s) - maxIndex0 (cfg s))).

(** ** Lists and loops *)

Definition at_ {A} (l : list A) (i : Z) : option A := if decide (0 <= i) then l !! Z.to_nat i else None.

Lemma idx_at {A} (l : list A) i : idx l i = match at_ l i with Some x => Ok x | None => Panic end.
Proof. unfold idx, at_. repeat case_decide; try done; lia. Qed.

Lemma at_lt {A} (l : list A) i x : at_ l i = Some x -> 0 <= i < len l.
Proof. unfold at_. case_decide; [| done]. intros ?%lookup_lt_Some. unfold len. lia. Qed.

Lemma at_in {A} (l : list A) i : 0 <= i < len l -> exists x, at_ l i = Some x.
Proof.
  intros ?. unfold at_. rewrite decide_True by lia. apply lookup_lt_is_Some_2. unfold len in *. lia.
Qed.

Lemma at_insert {A} (l : list A) i j x : 0 <= i < len l ->
  at_ (<[Z.to_nat i := x]> l) j = if decide (i = j) then Some x else at_ l j.
Proof.
  intros ?. unfold at_. unfold len in *. repeat case_decide; subst; try lia; try done.
  - apply list_lookup_insert_eq. lia.
  - apply list_lookup_insert_ne. lia.
Qed.

Lemma len_insert {A} (l : list A) i x : len (<[i := x]> l) = len l.
Proof. unfold len. by rewrite length_insert. Qed.

Lemma at_replicate {A} (k i : Z) (x y : A) : at_ (replicate (Z.to_nat k) x) i = Some y -> y = x.
Proof. unfold at_. case_decide; [| done]. by intros [-> _]%lookup_replicate_1. Qed.

Lemma len_replicate {A} (k : Z) (x : A) : 0 <= k -> len (replicate (Z.to_nat k) x) = k.
Proof. intros. unfold len. rewrite length_replicate. lia. Qed.

Lemma at_seqZ (f : Z -> string) k j : at_ (f <$> seqZ 0 k) j = if decide (0 <= j < k) then Some (f j) else None.
Proof.
  unfold at_. case_decide; [| by rewrite decide_False by lia]. rewrite list_lookup_fmap. case_decide.
  - rewrite lookup_seqZ_lt by lia. cbn. do 2 f_equal. lia.
  - by rewrite lookup_seqZ_ge by lia.
Qed.

(** ** Switching ends on and off *)

Definition set_enabled (m : gmap string bool) (rn : Network) : Network :=
  mkNetwork (reliable rn) (longDelays rn) (longReordering rn) (ends rn) m (servers rn) (connections rn)
    (cleaned rn) (count rn).
Definition enabled_by (b : bool) (es : list string) (m : gmap string bool) : gmap string bool :=
  foldl (fun m e => <[e := b]> m) m es.

(** The test after the ends [es] were set to [b]. *)
Definition enabling (b : bool) (es : list string) (s : Test) : Test :=
  set_wld (set_net (set_enabled (enabled_by b es (enabled (net (wld s)))) (net (wld s))) (wld s)) s.

Lemma enabled_by_lookup b es m e : enabled_by b es m !! e = if decide (e ∈ es) then Some b else m !! e.
Proof.
  revert m. induction es as [| e' es IH]; intros m; [by rewrite decide_False by apply not_elem_of_nil |].
  change (enabled_by b (e' :: es) m) with (enabled_by b es (<[e' := b]> m)). rewrite IH. destruct (decide (e = e')) as [-> | Hne].
  - rewrite lookup_insert_eq. rewrite (decide_True (P := e' ∈ e' :: es)) by apply list_elem_of_here. by case_decide.
  - rewrite lookup_insert_ne by done. apply decide_ext. rewrite elem_of_cons. naive_solver.
Qed.

Lemma enabling_app b es es' s : enabling b (es ++ es') s = enabling b es' (enabling b es s).
Proof. unfold enabling, enabled_by. cbn. by rewrite foldl_app. Qed.

Lemma enabling_nil b s : enabling b [] s = s.
Proof. by destruct s as [c [[] ? ? ? ? ?]]. Qed.

Lemma for_enabling b (f : Z -> list string) js body s :
  (forall j s', j ∈ js -> cfg s' = cfg s -> body j s' = Ok (tt, enabling b (f j) s')) ->
  for_each js body s = Ok (tt, enabling b (js ≫= f) s).
Proof.
  revert s. induction js as [| j js IH]; intros s Hb; cbn; [by rewrite enabling_nil |].
  unfold st_bind. rewrite (Hb j s) by (done || apply list_elem_of_here).
  rewrite enabling_app. apply IH. intros k s' Hk Hc. apply Hb; [by apply list_elem_of_further | done].
Qed.

(** The end from [i] to [j]; [on c i] says that [i] is on the net. *)
Definition name (c : config) (i j : Z) : option string := row ← mjoin (at_ (endnames c) i); at_ row j.
Definition on (c : config) (i : Z) : bool := default false (at_ (connected c) i).

(** The shape of a config. *)
Record shaped (c : config) : Prop := {
  sh_n : 0 <= n c;
  sh_rafts : len (rafts c) = n c;
  sh_errs : len (applyErr c) = n c;
  sh_connected : len (connected c) = n c;
  sh_saved : len (saved c) = n c;
  sh_endnames : len (endnames c) = n c;
  sh_logs : len (logs c) = n c;
  sh_row : forall i row, at_ (endnames c) i = Some (Some row) -> len row = n c;
}.

Lemma enable_end_eq b i j s : enable_end b i j s =
  match name (cfg s) i j with Some e => Ok (tt, enabling b [e] s) | None => Panic end.
Proof.
  unfold enable_end, name, st_bind, read. rewrite idx_at.
  destruct (at_ (endnames (cfg s)) i) as [[row|]|]; cbn; [| by rewrite idx_at; unfold at_; case_decide; rewrite ?lookup_nil | done].
  unfold lift. rewrite idx_at. by destruct (at_ row j).
Qed.

Definition names_of (c : config) (P : Z -> bool) (f : Z -> Z * Z) : list string :=
  seqZ 0 (n c) ≫= fun j => if P j then option_list (name c (f j).1 (f j).2) else [].

Lemma elem_of_names_of c P f e : e ∈ names_of c P f <->
  exists j, 0 <= j < n c /\ P j = true /\ name c (f j).1 (f j).2 = Some e.
Proof.
  unfold names_of. rewrite list_elem_of_bind. split.
  - intros (j & He & Hj). apply elem_of_seqZ in Hj. exists j. split; [lia |].
    destruct (P j); [| by apply not_elem_of_nil in He]. split; [done |].
    destruct (name c _ _); cbn in He; [apply list_elem_of_singleton in He; by subst | by apply not_elem_of_nil in He].
  - intros (j & Hj & HP & He). exists j. rewrite HP, He. split; [by apply list_elem_of_singleton |].
    apply elem_of_seqZ. lia.
Qed.

Lemma name_row c i j e : name c i j = Some e -> exists row, at_ (endnames c) i = Some (Some row) /\ at_ row j = Some e.
Proof. unfold name. destruct (at_ (endnames c) i) as [[row|]|]; cbn; naive_solver. Qed.

Lemma name_range c i j e : shaped c -> name c i j = Some e -> 0 <= i < n c /\ 0 <= j < n c.
Proof.
  intros Hs (row & Hr & He)%name_row. pose proof (at_lt _ _ _ Hr). pose proof (at_lt _ _ _ He).
  rewrite (sh_row _ Hs _ _ Hr), (sh_endnames _ Hs) in *. done.
Qed.

Lemma row_name c i j row : shaped c -> at_ (endnames c) i = Some (Some row) -> 0 <= j < n c ->
  exists e, name c i j = Some e.
Proof.
  intros Hs Hr Hj. destruct (at_in row j) as [e He]; [by rewrite (sh_row _ Hs _ _ Hr) |].
  exists e. unfold name. by rewrite Hr.
Qed.

Definition started (c : config) : Prop := forall i, 0 <= i < n c -> exists row, at_ (endnames c) i = Some (Some row).

Lemma write_eq {A} (f : config -> list A) set i x s : 0 <= i < len (f (cfg s)) ->
  write f set i x s = Ok (tt, set_cfg (set (<[Z.to_nat i := x]> (f (cfg s))) (cfg s)) s).
Proof. intros Hi. unfold write. by rewrite store_in_range. Qed.

Lemma read_eq {A} (f : config -> list A) i x s : at_ (f (cfg s)) i = Some x -> read f i s = Ok (x, s).
Proof. intros Hx. unfold read. by rewrite idx_at, Hx. Qed.

(** A loop of connect or disconnect over the ends [f j] of the peers [j] with [P]. *)
Lemma for_names b P (f : Z -> Z * Z) body s :
  (forall j s', 0 <= j < n (cfg s) -> cfg s' = cfg s ->
    body j s' = (if P j : bool then enable_end b (f j).1 (f j).2 else mret tt) s') ->
  (forall j, 0 <= j < n (cfg s) -> P j = true -> is_Some (name (cfg s) (f j).1 (f j).2)) ->
  for_n body s = Ok (tt, enabling b (names_of (cfg s) P f) s).
Proof.
  intros Hb Hn. unfold for_n, names_of.
  apply (for_enabling b (fun j => if P j then option_list (name (cfg s) (f j).1 (f j).2) else [])).
  intros j s' Hj Hc. apply elem_of_seqZ in Hj. rewrite Hb by (done || lia). specialize (Hn j ltac:(lia)).
  destruct (P j); [| by rewrite enabling_nil]. destruct (Hn eq_refl) as [e He].
  rewrite enable_end_eq, Hc. by rewrite He.
Qed.

Definition has_row (c : config) (i : Z) : bool := bool_decide (is_Some (mjoin (at_ (endnames c) i))).

Lemma has_row_name c i j : shaped c -> has_row c i = true -> 0 <= j < n c -> is_Some (name c i j).
Proof.
  intros Hs Hr Hj. apply bool_decide_eq_true in Hr as [row Hr]. eapply (row_name c i j row Hs); [| done].
  by destruct (at_ (endnames c) i) as [[]|]; simplify_eq/=.
Qed.

Lemma name_has_row c i j e : name c i j = Some e -> has_row c i = true.
Proof. intros (row & Hr & _)%name_row. unfold has_row. by rewrite Hr. Qed.

(** What disconnect and connect do to the network. *)
Lemma disconnect_eq i s : let c := set_connected (<[Z.to_nat i := false]> (connected (cfg s))) (cfg s) in
  shaped (cfg s) -> 0 <= i < n (cfg s) ->
  disconnect i s = Ok (tt, enabling false
    (names_of c (fun _ => has_row c i) (fun j => (i, j)) ++ names_of c (has_row c) (fun j => (j, i))) (set_cfg c s)).
Proof.
  intros c Hs Hi. assert (Hs' : shaped c) by (destruct Hs; split; cbn; rewrite ?len_insert; auto).
  unfold disconnect. unfold st_bind at 1. rewrite write_eq by (rewrite (sh_connected _ Hs); lia).
  change (set_cfg _ s) with (set_cfg c s). unfold st_bind at 1.
  rewrite (for_names false (fun _ => has_row c i) (fun j => (i, j))).
  - rewrite enabling_app. apply (for_names false (has_row c) (fun j => (j, i))).
    + intros j s' Hj Hc. destruct (at_in (endnames c) j) as [row Hr]; [rewrite (sh_endnames _ Hs'); exact Hj |].
      unfold st_bind. rewrite (read_eq endnames j row) by (by rewrite Hc). unfold has_row. rewrite Hr. by destruct row.
    + intros j Hj HP. by apply has_row_name.
  - intros j s' Hj Hc. destruct (at_in (endnames c) i) as [row Hr]; [rewrite (sh_endnames _ Hs'); exact Hi |].
    unfold st_bind. rewrite (read_eq endnames i row) by (by rewrite Hc). unfold has_row. rewrite Hr. by destruct row.
  - intros j Hj HP. by apply has_row_name.
Qed.

Lemma on_at c j : shaped c -> 0 <= j < n c -> at_ (connected c) j = Some (on c j).
Proof.
  intros Hs Hj. unfold on. destruct (at_in (connected c) j) as [b ->]; [by rewrite (sh_connected _ Hs) | done].
Qed.

Lemma connect_eq i s : let c := set_connected (<[Z.to_nat i := true]> (connected (cfg s))) (cfg s) in
  shaped (cfg s) -> started (cfg s) -> 0 <= i < n (cfg s) ->
  connect i s = Ok (tt, enabling true
    (names_of c (on c) (fun j => (i, j)) ++ names_of c (on c) (fun j => (j, i))) (set_cfg c s)).
Proof.
  intros c Hs Hst Hi. assert (Hs' : shaped c) by (destruct Hs; split; cbn; rewrite ?len_insert; auto).
  assert (Hname : forall i j, 0 <= i < n c -> 0 <= j < n c -> is_Some (name c i j)).
  { intros k j Hk Hj. destruct (Hst k Hk) as [row Hr]. by eapply (row_name c k j row). }
  assert (Hread : forall j s' (m : ST Test unit), 0 <= j < n c -> cfg s' = c ->
    (x <- read connected j ;; if x : bool then m else mret tt) s' = (if on c j then m else mret tt) s').
  { intros j s' m Hj Hc. unfold st_bind. rewrite (read_eq connected j (on c j)) by (rewrite Hc; by apply on_at). done. }
  unfold connect. unfold st_bind at 1. rewrite write_eq by (rewrite (sh_connected _ Hs); lia).
  change (set_cfg _ s) with (set_cfg c s). unfold st_bind at 1.
  rewrite (for_names true (on c) (fun j => (i, j))).
  - rewrite enabling_app. apply (for_names true (on c) (fun j => (j, i))).
    + intros j s' Hj Hc. by apply Hread.
    + intros j Hj _. by apply Hname.
  - intros j s' Hj Hc. by apply Hread.
  - intros j Hj _. by apply Hname.
Qed.

(** ** The wiring *)

(** An end is enabled exactly if it is the current end between two servers that
    are both on the net; it is connected to the second one. *)
Record ends_ok (c : config) (rn : Network) : Prop := {
  eo_inj : forall i j i' j' e, name c i j = Some e -> name c i' j' = Some e -> i = i' /\ j = j';
  eo_conn : forall i j e, name c i j = Some e -> mjoin (connections rn !! e) = Some j /\ e ∈ ends rn;
  eo_on : forall e, default false (enabled rn !! e) = true <->
    exists i j, on c i = true /\ on c j = true /\ name c i j = Some e;
}.

(** The network knows exactly the servers that run; the saved persister of a
    server that runs is the one it writes to. *)
Record servers_ok (c : config) (w : RaftNetwork) : Prop := {
  so_srv : forall j p, mjoin (servers (net w) !! j) = Some p <-> at_ (rafts c) j = Some (Some p);
  so_live : forall j p, at_ (rafts c) j = Some (Some p) ->
    at_ (saved c) j = Some (SOf p) /\ is_Some (objs w !! p) /\ is_Some (heap w !! p);
  so_dead : forall j o, at_ (rafts c) j = Some None -> at_ (saved c) j <> Some (SOf o);
  so_one : forall j j' p, at_ (rafts c) j = Some (Some p) -> at_ (rafts c) j' = Some (Some p) -> j = j';
  so_next : forall k, (next w <= k)%nat -> objs w !! k = None;
}.

Record wiring (s : Test) : Prop := {
  wi_shape : shaped (cfg s);
  wi_ends : ends_ok (cfg s) (net (wld s));
  wi_servers : servers_ok (cfg s) (wld s);
}.

Lemma on_insert c i j b : shaped c -> 0 <= i < n c ->
  on (set_connected (<[Z.to_nat i := b]> (connected c)) c) j = if decide (i = j) then b else on c j.
Proof.
  intros Hs Hi. unfold on. cbn. rewrite at_insert by (rewrite (sh_connected _ Hs); lia). by case_decide.
Qed.

(** The ends of [i]. *)
Lemma ends_disconnect c rn i es : shaped c -> 0 <= i < n c -> ends_ok c rn ->
  (forall e, e ∈ es <-> exists j, name c i j = Some e \/ name c j i = Some e) ->
  ends_ok (set_connected (<[Z.to_nat i := false]> (connected c)) c) (set_enabled (enabled_by false es (enabled rn)) rn).
Proof.
  intros Hs Hi [Hinj Hcn Hon] Hes. split; [exact Hinj | exact Hcn |]. intros e. cbn. rewrite enabled_by_lookup.
  case_decide as He.
  - apply Hes in He. split; [done |]. intros (k & j & Hk & Hj & Hn). change (name c k j = Some e) in Hn.
    rewrite on_insert in Hk, Hj by done.
    destruct He as [l [Hl | Hl]]; destruct (Hinj _ _ _ _ _ Hl Hn) as [<- <-]; by repeat case_decide.
  - rewrite Hon. split; intros (k & j & Hk & Hj & Hn).
    + exists k, j. rewrite !on_insert by done. split_and!; [| | exact Hn].
      * rewrite decide_False; [done |]. intros ->. apply He, Hes. eauto.
      * rewrite decide_False; [done |]. intros ->. apply He, Hes. eauto.
    + rewrite on_insert in Hk, Hj by done. exists k, j. repeat case_decide; try done.
Qed.

Lemma ends_connect c rn i es : shaped c -> 0 <= i < n c -> ends_ok c rn ->
  let c' := set_connected (<[Z.to_nat i := true]> (connected c)) c in
  (forall e, e ∈ es <-> exists j, on c' j = true /\ (name c i j = Some e \/ name c j i = Some e)) ->
  ends_ok c' (set_enabled (enabled_by true es (enabled rn)) rn).
Proof.
  intros Hs Hi [Hinj Hcn Hon] c' Hes. split; [exact Hinj | exact Hcn |]. intros e. cbn. rewrite enabled_by_lookup.
  assert (Hi' : on c' i = true) by (unfold c'; by rewrite on_insert, decide_True).
  case_decide as He.
  - apply Hes in He as (j & Hj & Hn). split; [intros _ | done].
    destruct Hn as [Hn | Hn]; [exists i, j | exists j, i]; done.
  - rewrite Hon. assert (Hne : forall k, k <> i -> on c' k = on c k).
    { intros k Hk. unfold c'. by rewrite on_insert, decide_False. }
    split; intros (k & j & Hk & Hj & Hn); exists k, j.
    + assert (Hup : forall k, on c k = true -> on c' k = true).
      { intros k' Hk'. destruct (decide (k' = i)) as [-> |]; [done | by rewrite Hne]. }
      split_and!; [by apply Hup | by apply Hup | exact Hn].
    + change (name c k j = Some e) in Hn. split_and!; [| | exact Hn].
      * rewrite <- Hne; [done |]. intros ->. apply He, Hes. eauto.
      * rewrite <- Hne; [done |]. intros ->. apply He, Hes. eauto.
Qed.

Lemma shaped_connected c i b : shaped c -> shaped (set_connected (<[i := b]> (connected c)) c).
Proof. intros []. split; cbn; rewrite ?len_insert; auto. Qed.

Lemma disconnect_wiring i s : wiring s -> 0 <= i < n (cfg s) ->
  exists rn, let s' := mkTest (set_connected (<[Z.to_nat i := false]> (connected (cfg s))) (cfg s)) (set_net rn (wld s)) in
    disconnect i s = Ok (tt, s') /\ servers rn = servers (net (wld s)) /\ ends rn = ends (net (wld s)) /\ wiring s'.
Proof.
  intros [Hs He Hv] Hi. rewrite disconnect_eq by done. eexists. split; [reflexivity |]. do 2 (split; [done |]).
  split; [by apply shaped_connected | | by destruct Hv]. cbn. apply ends_disconnect; [done.. |].
  intros e. rewrite elem_of_app, !elem_of_names_of. cbn. split.
  - intros [(j & _ & _ & Hn) | (j & _ & _ & Hn)]; eauto.
  - intros [j [Hn | Hn]]; pose proof (name_range _ _ _ _ Hs Hn) as [? ?];
      [left | right]; exists j; (split_and!; [lia | lia | by eapply (name_has_row (cfg s)) | done]).
Qed.

Lemma connect_wiring i s : wiring s -> started (cfg s) -> 0 <= i < n (cfg s) ->
  exists rn, let s' := mkTest (set_connected (<[Z.to_nat i := true]> (connected (cfg s))) (cfg s)) (set_net rn (wld s)) in
    connect i s = Ok (tt, s') /\ wiring s'.
Proof.
  intros [Hs He Hv] Hst Hi. rewrite connect_eq by done. eexists. split; [reflexivity |].
  split; [by apply shaped_connected | | by destruct Hv]. cbn. apply ends_connect; [done.. |].
  intros e. rewrite elem_of_app, !elem_of_names_of. cbn. split.
  - intros [(j & _ & Hj & Hn) | (j & _ & Hj & Hn)]; eauto.
  - intros (j & Hj & [Hn | Hn]); pose proof (name_range _ _ _ _ Hs Hn) as [? ?];
      [left | right]; exists j; (split_and!; [lia | lia | done | done]).
Qed.

(** ** Crashing a server *)

(** What the persister saved for [i] holds. *)
Definition last_saved (s : Test) (i : Z) : option Persister.t :=
  match at_ (saved (cfg s)) i with
  | Some (SOf o) => persister <$> objs (wld s) !! o
  | Some (SOwn ps) => Some ps
  | _ => None
  end.

(** Only server [i] changed. *)
Record others_same (i : Z) (s s' : Test) : Prop := {
  os_n : n (cfg s') = n (cfg s);
  os_logs : logs (cfg s') = logs (cfg s);
  os_maxIndex : maxIndex (cfg s') = maxIndex (cfg s);
  os_on : forall j, j <> i -> on (cfg s') j = on (cfg s) j;
  os_rafts : forall j, j <> i -> at_ (rafts (cfg s')) j = at_ (rafts (cfg s)) j;
  os_saved : forall j, j <> i -> at_ (saved (cfg s')) j = at_ (saved (cfg s)) j;
  os_endnames : forall j, j <> i -> at_ (endnames (cfg s')) j = at_ (endnames (cfg s)) j;
  os_objs : forall o rf, objs (wld s) !! o = Some rf -> objs (wld s') !! o = Some rf;
}.

Record crashed (i : Z) (s s' : Test) : Prop := {
  cr_others : others_same i s s';
  cr_wiring : wiring s';
  cr_off : on (cfg s') i = false;
  cr_gone : at_ (rafts (cfg s')) i = Some None;
  cr_saved : at_ (saved (cfg s')) i =
    Some (match last_saved s i with Some ps => SOwn (RaftSystem.crash1 ps) | None => SNil end);
  cr_endnames : endnames (cfg s') = endnames (cfg s);
  cr_ends : ends (net (wld s')) = ends (net (wld s));
}.

Lemma content_saved s i x : servers_ok (cfg s) (wld s) -> at_ (saved (cfg s)) i = Some x ->
  (forall o, x = SOf o -> is_Some (objs (wld s) !! o)) -> content x s = Ok (last_saved s i, s).
Proof.
  intros Hv Hx Ho. unfold last_saved. rewrite Hx. destruct x as [| o |]; [done | | done]. cbn.
  by destruct (Ho o eq_refl) as [rf ->].
Qed.

(** Replacing what the harness keeps of server [i]. *)
Lemma wiring_server i s ps r rn w' : wiring s -> 0 <= i < n (cfg s) ->
  ends rn = ends (net (wld s)) -> enabled rn = enabled (net (wld s)) -> connections rn = connections (net (wld s)) ->
  servers rn = <[i := r]> (servers (net (wld s))) -> net w' = rn ->
  (forall o, is_Some (objs (wld s) !! o) -> is_Some (objs w' !! o)) ->
  (forall o, is_Some (heap (wld s) !! o) -> is_Some (heap w' !! o)) ->
  (forall k, (next w' <= k)%nat -> objs w' !! k = None) ->
  match r with
  | Some p => ps = SOf p /\ objs (wld s) !! p = None /\ is_Some (objs w' !! p) /\ is_Some (heap w' !! p)
  | None => forall o, ps <> SOf o
  end ->
  wiring (mkTest (set_rafts (<[Z.to_nat i := r]> (rafts (cfg s)))
    (set_saved (<[Z.to_nat i := ps]> (saved (cfg s))) (cfg s))) w').
Proof.
  intros [Hs [Ha Hb Hc] [Hsrv Hlive Hdead Hone Hnext]] Hi He1 He2 He3 He4 Hrn Hob Hhp Hnx Hr.
  assert (Hlr : 0 <= i < len (rafts (cfg s))) by (rewrite (sh_rafts _ Hs); lia).
  assert (Hls : 0 <= i < len (saved (cfg s))) by (rewrite (sh_saved _ Hs); lia).
  split; cbn [cfg wld].
  - destruct Hs; split; cbn; rewrite ?len_insert; auto.
  - rewrite Hrn. split; [exact Ha | |]; rewrite ?He1, ?He2, ?He3; [exact Hb | exact Hc].
  - assert (Hfresh : forall j p, r = Some p -> at_ (rafts (cfg s)) j <> Some (Some p)).
    { intros j p -> Hj. destruct Hr as (_ & Hn & _). destruct (Hlive _ _ Hj) as (_ & [x Hx] & _). congruence. }
    split; cbn; intros *.
    + rewrite Hrn, He4, lookup_insert, at_insert by done. case_decide; [| apply Hsrv]. destruct r; naive_solver.
    + rewrite !at_insert by done. case_decide; [| naive_solver]. intros [= ->]. naive_solver.
    + rewrite !at_insert by done. case_decide; [| apply Hdead]. intros [= ->] [= ->]. naive_solver.
    + rewrite !at_insert by done. repeat case_decide; [congruence | | | apply Hone].
      * intros [= ->] Hj. by destruct (Hfresh j' p eq_refl).
      * intros Hj [= ->]. by destruct (Hfresh j p eq_refl).
    + apply Hnx.
Qed.

Lemma list_insert_at {A} (l : list A) i x : at_ l i = Some x -> <[Z.to_nat i := x]> l = l.
Proof. unfold at_. case_decide; [| done]. apply list_insert_id. Qed.

Lemma test_eta s : s = mkTest (mkConfig (n (cfg s)) (rafts (cfg s)) (applyErr (cfg s)) (connected (cfg s)) (saved (cfg s))
  (endnames (cfg s)) (logs (cfg s)) (rpcs0 (cfg s)) (cmds0 (cfg s)) (maxIndex (cfg s)) (maxIndex0 (cfg s))) (wld s).
Proof. by destruct s as [[] ?]. Qed.

Lemma st_run {S A B} (m : ST S A) (f : A -> ST S B) s a s' : m s = Ok (a, s') -> st_bind A B f m s = f a s'.
Proof. intros Hm. unfold st_bind. by rewrite Hm. Qed.

Lemma forget_eq i s x r : shaped (cfg s) -> 0 <= i < n (cfg s) ->
  at_ (saved (cfg s)) i = Some x -> at_ (rafts (cfg s)) i = Some r ->
  match x with SNil => r = None | SOf o => is_Some (objs (wld s) !! o) | SOwn _ => True end ->
  forget i s = Ok (tt, mkTest (set_rafts (<[Z.to_nat i := None]> (rafts (cfg s)))
    (set_saved (<[Z.to_nat i := match last_saved s i with Some ps => SOwn (RaftSystem.crash1 ps) | None => SNil end]>
      (saved (cfg s))) (cfg s))) (wld s)).
Proof.
  intros Hs Hi Hx Hr Ho.
  assert (Hlr : 0 <= i < len (rafts (cfg s))) by (rewrite (sh_rafts _ Hs); lia).
  assert (Hls : 0 <= i < len (saved (cfg s))) by (rewrite (sh_saved _ Hs); lia).
  unfold forget. rewrite (st_run _ _ _ _ _ (read_eq saved i x s Hx)).
  assert (Hc : content x s = Ok (last_saved s i, s)).
  { unfold last_saved. rewrite Hx. destruct x as [| o |]; [done | | done]. destruct Ho as [rf Ho]. cbn. by rewrite Ho. }
  rewrite (st_run _ _ _ _ _ Hc). destruct (last_saved s i) as [ps |] eqn:Hps.
  - rewrite (st_run _ _ _ _ _ (write_eq saved set_saved i _ s Hls)).
    set (c := set_saved _ (cfg s)). rewrite (st_run _ _ _ _ _ (read_eq rafts i r (set_cfg c s) Hr)).
    assert (Hd : (match r with Some _ => write rafts set_rafts i None | None => mret tt end) (set_cfg c s)
      = Ok (tt, set_cfg (set_rafts (<[Z.to_nat i := None]> (rafts (cfg s))) c) s)).
    { destruct r as [p |]; [exact (write_eq rafts set_rafts i None (set_cfg c s) Hlr) |].
      by rewrite (list_insert_at _ i None). }
    rewrite (st_run _ _ _ _ _ Hd). erewrite st_run; [| apply (read_eq saved i (SOwn (Persister.Copy ps)));
      cbn; by rewrite at_insert, decide_True].
    erewrite st_run; [| reflexivity]. cbv beta iota zeta. rewrite write_eq by (cbn; by rewrite len_insert). cbn.
    by rewrite list_insert_insert_eq.
  - assert (x = SNil /\ r = None) as [-> ->].
    { unfold last_saved in Hps. rewrite Hx in Hps. destruct x as [| o |]; [done | | done].
      destruct Ho as [rf Ho]. by rewrite Ho in Hps. }
    erewrite st_run; [| reflexivity]. rewrite (st_run _ _ _ _ _ (read_eq rafts i _ s Hr)).
    erewrite st_run; [| reflexivity]. rewrite (st_run _ _ _ _ _ (read_eq saved i _ s Hx)).
    erewrite st_run; [| reflexivity]. rewrite !list_insert_at by done. by rewrite (test_eta s) at 1.
Qed.

Lemma crash1_crashed i s : wiring s -> 0 <= i < n (cfg s) -> exists s', crash1 i s = Ok (tt, s') /\ crashed i s s'.
Proof.
  intros Hw Hi. destruct (disconnect_wiring i s Hw Hi) as (rn & Hd & Hsv & Hen & Hw1). destruct Hw as [Hs _ Hv].
  set (c1 := set_connected _ _) in *. set (s1 := mkTest c1 _) in *.
  set (s2 := mkTest c1 (set_net (DeleteServer i rn) (wld s))).
  assert (Hs2 : shaped c1) by apply Hw1.
  destruct (at_in (saved (cfg s)) i) as [x Hx]; [by rewrite (sh_saved _ Hs) |].
  destruct (at_in (rafts (cfg s)) i) as [r Hr]; [by rewrite (sh_rafts _ Hs) |].
  eexists. split.
  - unfold crash1. rewrite (st_run _ _ _ _ _ Hd). erewrite st_run; [| reflexivity].
    apply (forget_eq i s2 x r Hs2 Hi Hx Hr). destruct r as [p |].
    + destruct (so_live _ _ Hv _ _ Hr) as (Hp & Hob & _). rewrite Hx in Hp. by injection Hp as ->.
    + destruct x; [done | | done]. by destruct (so_dead _ _ Hv _ o Hr).
  - assert (Hlr : 0 <= i < len (rafts c1)) by (rewrite (sh_rafts _ Hs2); exact Hi).
    assert (Hls : 0 <= i < len (saved c1)) by (rewrite (sh_saved _ Hs2); exact Hi).
    split.
    + split; cbn; try done; intros j Hj.
      * change (on c1 j = on (cfg s) j). unfold c1. by rewrite on_insert, decide_False.
      * rewrite at_insert by done. by rewrite decide_False.
      * rewrite at_insert by done. by rewrite decide_False.
    + apply (wiring_server i s1 _ None (DeleteServer i rn)); try done.
      * apply Hw1.
      * cbn. by destruct (last_saved s2 i).
    + change (on c1 i = false). unfold c1. by rewrite on_insert, decide_True.
    + cbn. by rewrite at_insert, decide_True.
    + cbn. by rewrite at_insert, decide_True.
    + done.
    + exact Hen.
Qed.

(** ** Starting a server *)

(** The names drawn for the peers [js] are new. *)
Definition new_names (rnd : Z -> string) (js : list Z) (rn : Network) : Prop :=
  NoDup (rnd <$> js) /\ forall j, j ∈ js -> rnd j ∉ ends rn.

(** The network after ends with these names were made and connected. *)
Record made (rnd : Z -> string) (js : list Z) (rn rn' : Network) : Prop := {
  md_ends : forall e, e ∈ ends rn' <-> e ∈ rnd <$> js \/ e ∈ ends rn;
  md_enabled : forall e, enabled rn' !! e = if decide (e ∈ rnd <$> js) then Some false else enabled rn !! e;
  md_other : forall e, e ∉ rnd <$> js -> connections rn' !! e = connections rn !! e;
  md_conn : forall j, j ∈ js -> connections rn' !! rnd j = Some (Some j);
  md_servers : servers rn' = servers rn;
}.

Lemma make_end_eq i j rnd s : at_ (endnames (cfg s)) i = Some (Some (rnd <$> seqZ 0 (n (cfg s)))) -> 0 <= j < n (cfg s) ->
  make_end i j s = rn ← MakeEnd (rnd j) (net (wld s)); Ok (tt, mkTest (cfg s) (set_net (Connect (rnd j) j rn) (wld s))).
Proof.
  intros Hr Hj. unfold make_end. rewrite (st_run _ _ _ _ _ (read_eq endnames i _ s Hr)).
  unfold st_bind, lift. cbn [from_option]. unfold id. rewrite idx_at, at_seqZ, decide_True by done. cbn.
  unfold new_end. by destruct (MakeEnd _ _).
Qed.

Lemma make_ends_spec i rnd js s : at_ (endnames (cfg s)) i = Some (Some (rnd <$> seqZ 0 (n (cfg s)))) ->
  (forall j, j ∈ js -> 0 <= j < n (cfg s)) ->
  match for_each js (make_end i) s with
  | Ok (_, s') => new_names rnd js (net (wld s)) /\
      exists rn, s' = mkTest (cfg s) (set_net rn (wld s)) /\ made rnd js (net (wld s)) rn
  | Fatal => ~ new_names rnd js (net (wld s))
  | _ => False
  end.
Proof.
  revert s. induction js as [| j js IH]; intros s Hr Hjs.
  { cbn. split; [split; [apply NoDup_nil_2 | by intros j ?%not_elem_of_nil] |].
    exists (net (wld s)). split; [by destruct s as [? []] |].
    split; [intros e | intros e | done | by intros j ?%not_elem_of_nil | done].
    - split; [by right | by intros [?%not_elem_of_nil |]].
    - by rewrite decide_False by apply not_elem_of_nil. }
  cbn [for_each]. unfold st_bind. rewrite (make_end_eq i j rnd s Hr) by (apply Hjs, list_elem_of_here).
  unfold MakeEnd. case_decide as Hin.
  { cbn. intros [_ Hf]. by apply (Hf j); [apply list_elem_of_here |]. }
  cbn [mbind res_bind]. set (s1 := mkTest _ _).
  specialize (IH s1 Hr). destruct (for_each js (make_end i) s1) as [[[] s'] | | |].
  - destruct IH as [[Hnd Hf] (rn & -> & [H1 H2 H3 H4 H5])]; [intros k Hk; by apply Hjs, list_elem_of_further |].
    assert (Hj : rnd j ∉ rnd <$> js).
    { intros (k & Hk & Hkj)%list_elem_of_fmap. apply (Hf k Hkj). rewrite <- Hk. cbn. set_solver. }
    split.
    + split; [cbn; by apply NoDup_cons |]. intros k [-> | Hk]%elem_of_cons; [done |].
      intros Hk'. apply (Hf k Hk). cbn. set_solver.
    + exists rn. split; [done |]. cbn [s1 wld net set_net Connect ends enabled connections servers] in *.
      split; [| | | | done].
      * intros e. rewrite H1, fmap_cons, elem_of_cons. cbn. set_solver.
      * intros e. rewrite H2. cbn. rewrite (decide_ext (e ∈ rnd j :: (rnd <$> js)) (e = rnd j \/ e ∈ rnd <$> js)) by apply elem_of_cons.
        destruct (decide (e = rnd j)) as [-> |]; [rewrite lookup_insert_eq | rewrite lookup_insert_ne by done];
          repeat case_decide; naive_solver.
      * intros e. rewrite fmap_cons, not_elem_of_cons. intros [? ?]. rewrite H3 by done. cbn.
        by rewrite !lookup_insert_ne.
      * intros k [-> | Hk]%elem_of_cons; [| by apply H4]. rewrite H3 by done. cbn. apply lookup_insert_eq.
  - apply IH. intros k Hk. by apply Hjs, list_elem_of_further.
  - intros [Hnd Hf]. cbn in Hnd. apply NoDup_cons in Hnd as [Hj Hnd]. apply IH.
    + intros k Hk. by apply Hjs, list_elem_of_further.
    + split; [done |]. intros k Hk. cbn. specialize (Hf k ltac:(by apply list_elem_of_further)).
      assert (rnd k <> rnd j) by (intros E; apply Hj; rewrite <- E; by apply list_elem_of_fmap_2). set_solver.
  - apply IH. intros k Hk. by apply Hjs, list_elem_of_further.
Qed.

Definition with_row (i : Z) (row : list string) (c : config) : config :=
  set_endnames (<[Z.to_nat i := Some row]> (endnames c)) c.

Lemma with_row_name c i rnd k j : shaped c -> 0 <= i < n c ->
  name (with_row i (rnd <$> seqZ 0 (n c)) c) k j =
    if decide (i = k) then (if decide (0 <= j < n c) then Some (rnd j) else None) else name c k j.
Proof.
  intros Hs Hi. unfold name, with_row. cbn. rewrite at_insert by (by rewrite (sh_endnames _ Hs)).
  case_decide; [cbn; apply at_seqZ | done].
Qed.

Lemma with_row_shaped c i rnd : shaped c -> 0 <= i < n c -> shaped (with_row i (rnd <$> seqZ 0 (n c)) c).
Proof.
  intros Hs Hi. destruct Hs; split; cbn; rewrite ?len_insert; auto. intros k row.
  rewrite at_insert by lia. case_decide; [| apply sh_row0]. intros [= <-]. unfold len. rewrite length_fmap, length_seqZ. lia.
Qed.

Lemma ends_start c i rnd rn rn' : shaped c -> 0 <= i < n c -> on c i = false -> ends_ok c rn ->
  new_names rnd (seqZ 0 (n c)) rn -> made rnd (seqZ 0 (n c)) rn rn' ->
  ends_ok (with_row i (rnd <$> seqZ 0 (n c)) c) rn'.
Proof.
  intros Hs Hi Hoff [Hinj Hcn Hon] [Hnd Hnew] [H1 H2 H3 H4 H5].
  assert (Hdup : forall j j', 0 <= j < n c -> 0 <= j' < n c -> rnd j = rnd j' -> j = j').
  { intros j j' Hj Hj' E. apply (NoDup_lookup _ (Z.to_nat j) (Z.to_nat j') (rnd j)) in Hnd; [lia | |];
      rewrite list_lookup_fmap, lookup_seqZ_lt by lia; cbn; f_equal; [f_equal; lia |]. rewrite E. f_equal. lia. }
  assert (Hold : forall k j e, name c k j = Some e -> e ∉ rnd <$> seqZ 0 (n c)).
  { intros k j e Hn (j' & -> & Hj')%list_elem_of_fmap. by apply (Hnew j' Hj'), (Hcn k j). }
  assert (Hin : forall j, 0 <= j < n c -> j ∈ seqZ 0 (n c)) by (intros; apply elem_of_seqZ; lia).
  assert (Hmem : forall j, 0 <= j < n c -> rnd j ∈ rnd <$> seqZ 0 (n c)) by (intros; by apply list_elem_of_fmap_2, Hin).
  split.
  - intros k j k' j' e. rewrite !with_row_name by done. repeat case_decide; subst; try done.
    + intros [= <-] [= ?]. split; [done |]. by apply Hdup.
    + intros [= <-] Hn. by destruct (Hold _ _ _ Hn (Hmem j ltac:(done))).
    + intros Hn [= <-]. by destruct (Hold _ _ _ Hn (Hmem j' ltac:(done))).
    + apply Hinj.
  - intros k j e. rewrite with_row_name by done. rewrite H1. repeat case_decide; [| done |].
    + intros [= <-]. rewrite H4 by auto. auto.
    + intros Hn. rewrite H3 by (by eapply Hold). destruct (Hcn _ _ _ Hn). auto.
  - intros e. rewrite H2. case_decide as He.
    + split; [done |]. intros (k & j & Hk & _ & Hn). rewrite with_row_name in Hn by done.
      change (on c k = true) in Hk. case_decide; [congruence |]. by destruct (Hold _ _ _ Hn).
    + rewrite Hon. split; intros (k & j & Hk & Hj & Hn); exists k, j; (split_and!; [exact Hk | exact Hj |]).
      * rewrite with_row_name by done. rewrite decide_False; [done | congruence].
      * rewrite with_row_name in Hn by done. change (on c k = true) in Hk. rewrite decide_False in Hn; [done | congruence].
Qed.

(** The persister that start1 gives to Make. *)
Definition given (s : Test) (i : Z) : Persister.t :=
  match last_saved s i with Some ps => RaftSystem.start1 ps | None => Persister.MakePersister end.

(** Server [i] runs as a new object [o], in state [rf] and detached. *)
Record restarted (i : Z) (rnd : Z -> string) (rf : Raft) (s s' : Test) : Prop := {
  rs_others : others_same i s s';
  rs_wiring : wiring s';
  rs_off : on (cfg s') i = false;
  rs_row : at_ (endnames (cfg s')) i = Some (Some (rnd <$> seqZ 0 (n (cfg s))));
  rs_ends : forall e, e ∈ ends (net (wld s')) <-> e ∈ rnd <$> seqZ 0 (n (cfg s)) \/ e ∈ ends (net (wld s));
  rs_new : exists o, at_ (rafts (cfg s')) i = Some (Some o) /\ objs (wld s) !! o = None /\ objs (wld s') !! o = Some rf;
}.

Lemma given_crashed i s s' : crashed i s s' ->
  exists x, at_ (saved (cfg s')) i = Some x /\ content x s' = Ok (last_saved s' i, s') /\
    match last_saved s' i with Some ps => Persister.Copy ps | None => Persister.MakePersister end = given s i.
Proof.
  intros [_ _ _ _ Hsv _ _]. eexists. split; [done |]. unfold last_saved at 2 3. rewrite Hsv. unfold given.
  by destruct (last_saved s i).
Qed.

Definition launched (i : Z) (rf : Raft) (s : Test) : Test :=
  let w := wld s in
  let o := next w in
  mkTest (set_rafts (<[Z.to_nat i := Some o]> (rafts (cfg s))) (set_saved (<[Z.to_nat i := SOf o]> (saved (cfg s))) (cfg s)))
    (mkWorld (AddServer i o (net w)) (<[o := raft_server o]> (heap w)) (<[o := rf]> (objs w)) (calls w) (gob w) (S o)).

Lemma launch_eq i peers tm s x ps : shaped (cfg s) -> 0 <= i < n (cfg s) -> at_ (saved (cfg s)) i = Some x ->
  content x s = Ok (ps, s) ->
  launch i peers tm s =
    rf ← Make peers i (match ps with Some ps => Persister.Copy ps | None => Persister.MakePersister end) tm;
    Ok (tt, launched i rf s).
Proof.
  intros Hs Hi Hx Hc. unfold launch. rewrite (st_run _ _ _ _ _ (read_eq saved i x s Hx)), (st_run _ _ _ _ _ Hc).
  unfold st_bind at 1, lift. cbv zeta. destruct (Make _ _ _ _) as [rf | | |]; [| done..]. cbn [mbind res_bind].
  erewrite st_run; [| reflexivity].
  erewrite st_run; [| apply write_eq; cbn; rewrite (sh_saved _ Hs); lia].
  erewrite st_run; [| apply write_eq; cbn; rewrite (sh_rafts _ Hs); lia].
  done.
Qed.

Lemma launched_wiring i rf s : wiring s -> 0 <= i < n (cfg s) -> wiring (launched i rf s).
Proof.
  intros Hw Hi. pose proof (so_next _ _ (wi_servers _ Hw)) as Hn.
  apply (wiring_server i s (SOf (next (wld s))) (Some (next (wld s))) (AddServer i (next (wld s)) (net (wld s)))); try done; cbn.
  - intros o Ho. rewrite lookup_insert. by case_decide.
  - intros o Ho. rewrite lookup_insert. by case_decide.
  - intros k Hk. rewrite lookup_insert_ne by lia. apply Hn. lia.
  - split; [done |]. split; [by apply Hn |]. by rewrite !lookup_insert_eq.
Qed.

(** What start1 does, up to the outcome of Make. *)
Lemma start1_outcome i rnd tm s : wiring s -> 0 <= i < n (cfg s) ->
  start1 i rnd tm s = Fatal /\ ~ new_names rnd (seqZ 0 (n (cfg s))) (net (wld s)) \/
  new_names rnd (seqZ 0 (n (cfg s))) (net (wld s)) /\
  exists s', (forall rf, restarted i rnd rf s (launched i rf s')) /\
    start1 i rnd tm s = rf ← Make (n (cfg s)) i (given s i) tm; Ok (tt, launched i rf s').
Proof.
  intros Hw Hi. destruct (crash1_crashed i s Hw Hi) as (s1 & Hc1 & Hc).
  destruct (given_crashed i s s1 Hc) as (x & Hx & Hcx & Hgv).
  destruct Hc as [Ho [Hs1 He1 Hv1] Hoff Hgone Hsv Hen Hends].
  assert (Hi1 : 0 <= i < n (cfg s1)) by (by rewrite (os_n _ _ _ Ho)).
  set (row := rnd <$> seqZ 0 (n (cfg s1))). set (s2 := mkTest (with_row i row (cfg s1)) (wld s1)).
  assert (Hs2 : shaped (with_row i row (cfg s1))) by (by apply with_row_shaped).
  assert (Hrow : at_ (endnames (cfg s2)) i = Some (Some row)).
  { cbn. rewrite at_insert, decide_True by (done || by rewrite (sh_endnames _ Hs1)). done. }
  pose proof (make_ends_spec i rnd (seqZ 0 (n (cfg s2))) s2 Hrow) as Hloop.
  assert (Hrun : start1 i rnd tm s = (for_each (seqZ 0 (n (cfg s2))) (make_end i) ;;; launch i (n (cfg s1)) tm) s2).
  { unfold start1. rewrite (st_run _ _ _ _ _ Hc1). erewrite st_run; [| reflexivity].
    rewrite (st_run _ _ _ _ _ (write_eq endnames set_endnames i _ s1 ltac:(by rewrite (sh_endnames _ Hs1)))). done. }
  rewrite Hrun. unfold new_names. rewrite <- (os_n _ _ _ Ho), <- Hends. unfold st_bind.
  destruct (for_each _ _ s2) as [[[] s3] | | |].
  - destruct Hloop as (Hnew & rn & -> & Hmd); [intros j Hj%elem_of_seqZ; cbn in *; lia |].
    right. split; [exact Hnew |]. set (s3 := mkTest (cfg s2) (set_net rn (wld s1))).
    assert (Hw3 : wiring s3).
    { split; [exact Hs2 | by apply (ends_start (cfg s1) i rnd (net (wld s1))) |].
      destruct Hv1 as [Ha Hb Hd Hone Hnx]. split; try done. cbn. by rewrite (md_servers _ _ _ _ Hmd). }
    exists s3. split.
    + intros rf. split; [| by apply launched_wiring | exact Hoff | | |].
      * destruct Ho as [O1 O2 O3 O4 O5 O6 O7 O8]. pose proof (so_next _ _ Hv1) as Hnx.
        split; cbn; try done.
        -- intros j Hj. rewrite at_insert, decide_False by (done || by rewrite (sh_rafts _ Hs1)). by apply O5.
        -- intros j Hj. rewrite at_insert, decide_False by (done || by rewrite (sh_saved _ Hs1)). by apply O6.
        -- intros j Hj. rewrite at_insert, decide_False by (done || by rewrite (sh_endnames _ Hs1)). by apply O7.
        -- intros o rf' Hrf. apply O8 in Hrf. rewrite lookup_insert_ne; [done |]. intros <-. by rewrite Hnx in Hrf.
      * rewrite <- (os_n _ _ _ Ho). exact Hrow.
      * intros e. rewrite <- (os_n _ _ _ Ho), <- Hends. apply (md_ends _ _ _ _ Hmd).
      * exists (next (wld s1)). cbn. rewrite at_insert, decide_True by (done || by rewrite (sh_rafts _ Hs1)).
        rewrite lookup_insert_eq. split_and!; try done. destruct (objs (wld s) !! next (wld s1)) eqn:E; [| done].
        apply (os_objs _ _ _ Ho) in E. by rewrite (so_next _ _ Hv1) in E.
    + rewrite (launch_eq i _ tm s3 x (last_saved s1 i) Hs2 Hi1 Hx).
      * by rewrite Hgv.
      * clear -Hcx. destruct x; cbn in *; try (injection Hcx as <-; done).
        destruct (objs (wld s1) !! o); [| done]. injection Hcx as <-. done.
  - destruct Hloop. intros j Hj%elem_of_seqZ; cbn in *; lia.
  - left. split; [done |]. apply Hloop. intros j Hj%elem_of_seqZ; cbn in *; lia.
  - destruct Hloop. intros j Hj%elem_of_seqZ; cbn in *; lia.
Qed.

(** ** Executions of the harness *)

(** What the network and the servers do between two operations of the harness:
    nothing that concerns the wiring. *)
Record steady (w w' : RaftNetwork) : Prop := {
  st_ends : ends (net w') = ends (net w);
  st_enabled : enabled (net w') = enabled (net w);
  st_connections : connections (net w') = connections (net w);
  st_servers : servers (net w') = servers (net w);
  st_objs : forall o, is_Some (objs w' !! o) <-> is_Some (objs w !! o);
  st_heap : forall o, is_Some (heap w !! o) -> is_Some (heap w' !! o);
  st_next : (next w <= next w')%nat;
}.

#[export] Instance steady_preorder : PreOrder steady.
Proof.
  split; [split; done || lia |]. intros w1 w2 w3 [] []. split; try congruence; try lia.
  - intros o. etrans; eauto.
  - auto.
Qed.

Lemma insert_dom {A} (m : gmap nat A) k x y o : m !! k = Some x -> is_Some (<[k := y]> m !! o) <-> is_Some (m !! o).
Proof. intros Hk. rewrite lookup_insert. case_decide; [subst; by rewrite Hk |]. done. Qed.

Lemma with_gob_steady {A} (m : ST LabGob.t A) (w : RaftNetwork) a w' : with_gob m w = Ok (a, w') -> steady w w'.
Proof. intros (? & _ & [= <- <-])%res_bind_Ok. by split. Qed.

Lemma on_obj_steady {A} p (m : ST Raft A) (w : RaftNetwork) a w' : on_obj p m w = Ok (a, w') -> steady w w'.
Proof.
  unfold on_obj. destruct (objs w !! p) as [o |] eqn:E; [| done]. intros (x & _ & [= <- <-])%res_bind_Ok.
  split; try done. intros k. by eapply insert_dom.
Qed.

Lemma dispatch_steady p req t (w : RaftNetwork) r w' : dispatch p req t w = Ok (r, w') -> steady w w'.
Proof.
  unfold dispatch. destruct (heap w !! p) as [rs |] eqn:E; [| done].
  intros (x & _ & H)%res_bind_Ok. destruct (services rs !! x.1) as [svc |]; [| done].
  set (w1 := mkWorld _ _ _ _ _ _) in H.
  assert (steady w w1) as Hw by (split; try done; intros o; cbn; by rewrite (insert_dom _ _ rs)).
  unfold Service_dispatch in H. destruct (methods svc !! x.2) as [m |]; [| done].
  apply st_bind_Ok in H as (d & w2 & Hd & H). case_decide; [done |].
  apply st_bind_Ok in H as (v & w3 & Hv & H). apply st_bind_Ok in H as (b & w4 & He & [= _ <-]).
  apply with_gob_steady in Hd, He. apply on_obj_steady in Hv. by repeat (etrans; [eassumption |]).
Qed.

(** The events of the network that no operation of the harness makes. *)
Definition client_event (ev : NEvent Raft (Reading * Reading)) : bool :=
  match ev with NCall _ _ _ _ _ _ _ | NProcess _ _ | NTimer _ | NHandle _ _ => true | _ => false end.

Lemma Call_return_steady c x r (w w' : RaftNetwork) : Call_return c x r w = Ok (tt, w') -> steady w w'.
Proof.
  unfold Call_return. destruct (ok r); [| by intros [= <-]]. intros (d & w1 & Hd%with_gob_steady & H)%st_bind_Ok.
  destruct d.1; [| done]. injection H as <-. by etrans; [eassumption |].
Qed.

Lemma client_event_steady ev w w' : client_event ev = true -> net_exec ev w = Ok (tt, w') -> steady w w'.
Proof.
  intros Hc. destruct ev; try done; cbn [net_exec]; intros H.
  - apply st_bind_Ok in H as (b & w1 & Hb%with_gob_steady & H).
    apply st_bind_Ok in H as (cl & w2 & [= _ ->] & H).
    destruct late; [destruct cl; [| done] |]; injection H as <-;
      (etrans; [eassumption |]); split; try done; cbn; lia.
  - unfold with_call in H. destruct (calls w !! c) as [x |]; [| done]. unfold ProcessReq in H.
    destruct (c_pc x) as [| | i | i | i r | r]; repeat case_match; simplify_eq; try done; by eapply Call_return_steady.
  - unfold with_call in H. destruct (calls w !! c) as [x |]; [| done]. unfold check_dead in H.
    repeat case_match; simplify_eq; done.
  - unfold with_call in H. destruct (calls w !! c) as [x |]; [| done]. unfold handle in H.
    destruct (c_handler x); try done. apply st_bind_Ok in H as (r & w1 & Hd%dispatch_steady & [= <-]).
    by etrans; [eassumption |].
Qed.

Inductive TEvent :=
  | TConnect (i : Z)
  | TDisconnect (i : Z)
  | TCrash (i : Z)
  | TStart (i : Z) (rnd : Z -> string) (tm : Reading)
  | TUnreliable (unrel : bool)
  | TReorder (longrel : bool)
  | TBegin
  | TNet (ev : NEvent Raft (Reading * Reading))     (* calls, and the goroutines that serve them *)
  | TLocal (o : nat) (f : Raft -> Raft).            (* a section of a goroutine of some Raft *)

Definition texec (ev : TEvent) : ST Test unit :=
  match ev with
  | TConnect i => connect i
  | TDisconnect i => disconnect i
  | TCrash i => crash1 i
  | TStart i rnd tm => start1 i rnd tm
  | TUnreliable b => setunreliable b
  | TReorder b => setlongreordering b
  | TBegin => modify begin
  | TNet ev => fun s => if client_event ev then x ← net_exec ev (wld s); Ok (tt, set_wld x.2 s) else Blocked
  | TLocal o f => fun s => x ← on_obj o (modify f) (wld s); Ok (tt, set_wld x.2 s)
  end.

Definition tstep (s s' : Test) : Prop := exists ev, texec ev s = Ok (tt, s').

(** The tests of [n] servers: make_config, then any operations. *)
Definition treachable (n : Z) (s : Test) : Prop :=
  exists unreliable rnd tm s0, make_config n unreliable rnd tm = Ok s0 /\ rtc tstep s0 s.

Definition test_inv (k : Z) (s : Test) : Prop := wiring s /\ started (cfg s) /\ n (cfg s) = k.

Lemma wiring_steady s w : wiring s -> steady (wld s) w -> wiring (mkTest (cfg s) w).
Proof.
  intros [Hs [Ha Hb Hc] [Hsrv Hlive Hdead Hone Hnext]] [S1 S2 S3 S4 S5 S6 S7]. split; [done | |]; cbn.
  - split; [done | |]; by rewrite ?S1, ?S2, ?S3.
  - split; [by rewrite S4 | | done | done |].
    + intros j p Hj. destruct (Hlive j p Hj) as (? & ? & ?). split; [done |]. split; [by apply S5 | by apply S6].
    + intros k Hk. destruct (objs w !! k) eqn:E; [| done]. assert (is_Some (objs (wld s) !! k)) as [x Hx] by (apply S5; eauto).
      by rewrite Hnext in Hx by lia.
Qed.

Lemma bind_write_range {A} (f : config -> list A) set i x (k : unit -> ST Test unit) s r :
  st_bind _ _ k (write f set i x) s = Ok r -> 0 <= i < len (f (cfg s)).
Proof. intros (? & ? & H & _)%st_bind_Ok. unfold write in H. apply res_bind_Ok in H as (l & [? _]%store_Ok & _). done. Qed.

Lemma disconnect_range i s r : shaped (cfg s) -> disconnect i s = Ok r -> 0 <= i < n (cfg s).
Proof. intros Hs H%bind_write_range. by rewrite (sh_connected _ Hs) in H. Qed.

Lemma started_others i s s' : shaped (cfg s') -> others_same i s s' ->
  (exists row, at_ (endnames (cfg s')) i = Some (Some row)) -> started (cfg s) -> started (cfg s').
Proof.
  intros Hs Ho Hi Hst k Hk. destruct (decide (k = i)) as [-> |]; [done |].
  rewrite (os_endnames _ _ _ Ho) by done. apply Hst. by rewrite <- (os_n _ _ _ Ho).
Qed.

Lemma start1_restarted i rnd tm s s' : wiring s -> 0 <= i < n (cfg s) -> start1 i rnd tm s = Ok (tt, s') ->
  new_names rnd (seqZ 0 (n (cfg s))) (net (wld s)) /\
  exists rf, Make (n (cfg s)) i (given s i) tm = Ok rf /\ restarted i rnd rf s s'.
Proof.
  intros Hw Hi H. destruct (start1_outcome i rnd tm s Hw Hi) as [[E _] | (Hn & s1 & Hr & E)]; rewrite H in E; [done |].
  symmetry in E. apply res_bind_Ok in E as (rf & Hm & [= <-]). eauto.
Qed.

Lemma test_inv_step k s s' : test_inv k s -> tstep s s' -> test_inv k s'.
Proof.
  intros (Hw & Hst & Hn) [ev He]. pose proof (wi_shape _ Hw) as Hs. destruct ev; cbn in He.
  - assert (0 <= i < n (cfg s)) as Hi by (apply bind_write_range in He; by rewrite (sh_connected _ Hs) in He).
    destruct (connect_wiring i s Hw Hst Hi) as (rn & E & Hw'). rewrite He in E. injection E as ->. by split.
  - pose proof (disconnect_range _ _ _ Hs He) as Hi.
    destruct (disconnect_wiring i s Hw Hi) as (rn & E & _ & _ & Hw'). rewrite He in E. injection E as ->. by split.
  - assert (0 <= i < n (cfg s)) as Hi by (apply st_bind_Ok in He as (? & ? & Hd & _); by apply disconnect_range in Hd).
    destruct (crash1_crashed i s Hw Hi) as (s1 & E & Hc). rewrite He in E. injection E as <-.
    destruct Hc. split; [done |]. split; [| by rewrite (os_n _ _ _ cr_others0)].
    intros j Hj. rewrite cr_endnames0. apply Hst. by rewrite <- (os_n _ _ _ cr_others0).
  - assert (0 <= i < n (cfg s)) as Hi.
    { apply st_bind_Ok in He as (? & ? & Hc & _). apply st_bind_Ok in Hc as (? & ? & Hd & _). by apply disconnect_range in Hd. }
    destruct (start1_restarted i rnd tm s s' Hw Hi He) as (_ & rf & _ & Hr). pose proof (rs_others _ _ _ _ _ Hr) as Ho.
    split; [apply Hr |]. split; [| by rewrite (os_n _ _ _ Ho)].
    eapply started_others; [apply (rs_wiring _ _ _ _ _ Hr) | done | | done]. eexists. apply Hr.
  - injection He as <-. split; [| done]. by apply (wiring_steady s).
  - injection He as <-. split; [| done]. by apply (wiring_steady s).
  - injection He as <-. split; [| done]. destruct Hw as [[] [] []]. by split.
  - destruct (client_event ev) eqn:Hc; [| done]. apply res_bind_Ok in He as ([[] w] & Hx & [= <-]).
    split; [| done]. apply wiring_steady; [done |]. by eapply client_event_steady.
  - apply res_bind_Ok in He as ([[] w] & Hx & [= <-]). split; [| done]. apply wiring_steady; [done |].
    by eapply on_obj_steady.
Qed.

(** ** make_config *)

Lemma for_each_ind {S} (I : list Z -> S -> Prop) js body s s' : NoDup js ->
  (forall pre j s s', j ∈ js -> j ∉ pre -> I pre s -> body j s = Ok (tt, s') -> I (pre ++ [j]) s') ->
  I [] s -> for_each js body s = Ok (tt, s') -> I js s'.
Proof.
  intros Hnd Hb. assert (Hg : forall pre post s, js = pre ++ post -> I pre s -> for_each post body s = Ok (tt, s') -> I js s').
  { intros pre post. revert pre. induction post as [| j post IH]; intros pre s1 Hjs Hi; cbn.
    - intros [= <-]. by rewrite Hjs, app_nil_r.
    - intros ([] & s2 & Hj & Hp)%st_bind_Ok. apply (IH (pre ++ [j]) s2); [by rewrite <- app_assoc | | done].
      eapply Hb; [| | done..]; subst js; [set_solver |]. apply NoDup_app in Hnd as (_ & Hd & _).
      intros Hin. apply (Hd _ Hin), list_elem_of_here. }
  by apply (Hg []).
Qed.

Lemma for_each_total {S} (I : list Z -> S -> Prop) js body s : NoDup js ->
  (forall pre j s, j ∈ js -> j ∉ pre -> (forall k, k ∈ pre -> k ∈ js) -> I pre s -> exists s', body j s = Ok (tt, s') /\ I (pre ++ [j]) s') ->
  I [] s -> exists s', for_each js body s = Ok (tt, s') /\ I js s'.
Proof.
  intros Hnd Hb. assert (Hg : forall pre post s, js = pre ++ post -> I pre s -> exists s', for_each post body s = Ok (tt, s') /\ I js s').
  { intros pre post. revert pre. induction post as [| j post IH]; intros pre s1 Hjs Hi; cbn.
    - exists s1. by rewrite Hjs, app_nil_r.
    - destruct (Hb pre j s1) as (s2 & Hj & Hi2); [subst js; set_solver | | subst js; set_solver | done |].
      { subst js. apply NoDup_app in Hnd as (_ & Hd & _). intros Hin. apply (Hd _ Hin), list_elem_of_here. }
      destruct (IH (pre ++ [j]) s2) as (s' & Hs' & ?); [by rewrite <- app_assoc | done |].
      exists s'. by rewrite (st_run _ _ _ _ _ Hj). }
  by apply (Hg []).
Qed.

(** The servers [pre] have been started, nobody is connected yet. *)
Record starting (k : Z) (rnd : Z -> Z -> string) (tm : Z -> Reading) (pre : list Z) (s : Test) : Prop := {
  sg_wiring : wiring s;
  sg_n : n (cfg s) = k;
  sg_off : forall j, on (cfg s) j = false;
  sg_rows : forall j, j ∈ pre -> at_ (endnames (cfg s)) j = Some (Some (rnd j <$> seqZ 0 k));
  sg_ends : forall e, e ∈ ends (net (wld s)) <-> exists j, j ∈ pre /\ e ∈ rnd j <$> seqZ 0 k;
  sg_saved : forall j, j ∉ pre -> 0 <= j < k -> at_ (saved (cfg s)) j = Some SNil;
  sg_rafts : forall j, j ∈ pre -> exists o, at_ (rafts (cfg s)) j = Some (Some o) /\
    objs (wld s) !! o = Some (fresh_peer k j (tm j));
}.

Lemma starting_init k rnd tm s : 0 <= k -> cfg s = empty_config k -> heap (wld s) = ∅ -> objs (wld s) = ∅ ->
  ends (net (wld s)) = ∅ -> enabled (net (wld s)) = ∅ -> servers (net (wld s)) = ∅ -> starting k rnd tm [] s.
Proof.
  intros Hk Hc H1 H2 H3 H4 H5.
  assert (Hname : forall i j, name (empty_config k) i j = None).
  { intros i j. unfold name. cbn. destruct (at_ _ i) as [[row |] |] eqn:E; [| done..]. by apply at_replicate in E. }
  assert (Hon : forall j, on (empty_config k) j = false).
  { intros j. unfold on. cbn. destruct (at_ _ j) as [b |] eqn:E; [| done]. by apply at_replicate in E. }
  assert (Hw : wiring s).
  { split; rewrite Hc.
    - split; cbn; rewrite ?len_replicate by done; try done. by intros i row ?%at_replicate.
    - split; [by intros *; rewrite Hname | by intros *; rewrite Hname |].
      intros e. rewrite H4, lookup_empty. split; [done |]. intros (i & j & _ & _ & Hn). by rewrite Hname in Hn.
    - split; cbn.
      + intros j p. rewrite H5, lookup_empty. split; [done |]. by intros ?%at_replicate.
      + by intros j p ?%at_replicate.
      + intros j o _ ?%at_replicate. done.
      + by intros j j' p ?%at_replicate.
      + intros i _. by rewrite H2. }
  split; rewrite ?Hc; try done; [by intros j ?%not_elem_of_nil | | | by intros j ?%not_elem_of_nil].
  - intros e. rewrite H3. split; [set_solver | by intros (j & ?%not_elem_of_nil & _)].
  - intros j _ Hj. cbn. unfold at_. rewrite decide_True by lia. apply lookup_replicate_2. lia.
Qed.

Lemma Make_fresh k j tm : Make k j Persister.MakePersister tm = Ok (fresh_peer k j tm).
Proof. unfold fresh_peer. by vm_compute. Qed.

Lemma starting_step k rnd tm pre j s s' : starting k rnd tm pre s -> j ∉ pre -> 0 <= j < k ->
  restarted j (rnd j) (fresh_peer k j (tm j)) s s' -> starting k rnd tm (pre ++ [j]) s'.
Proof.
  intros [Hw Hn Hoff Hrows Hends Hsaved Hrafts] Hj Hr [Ho Hw' Hf Hrow Hen (o & Ho1 & Ho2 & Ho3)].
  split; [done | by rewrite (os_n _ _ _ Ho) | | | | |].
  - intros i. destruct (decide (i = j)) as [-> |]; [done |]. by rewrite (os_on _ _ _ Ho).
  - intros i [Hi | ->%list_elem_of_singleton]%elem_of_app; [| by rewrite <- Hn].
    rewrite (os_endnames _ _ _ Ho) by (by intros ->). by apply Hrows.
  - intros e. rewrite Hen, Hends, Hn. setoid_rewrite elem_of_app. setoid_rewrite list_elem_of_singleton. naive_solver.
  - intros i Hi Hik. rewrite (os_saved _ _ _ Ho) by set_solver. apply Hsaved; set_solver.
  - intros i [Hi | ->%list_elem_of_singleton]%elem_of_app; [| by exists o].
    destruct (Hrafts i Hi) as (o' & Hi1 & Hi2). exists o'. rewrite (os_rafts _ _ _ Ho) by (by intros ->).
    split; [done | by apply (os_objs _ _ _ Ho)].
Qed.

Lemma starting_logs k rnd tm pre s l : len l = k -> starting k rnd tm pre s ->
  starting k rnd tm pre (set_cfg (set_logs l (cfg s)) s).
Proof.
  intros Hl [[[] He Hv] Hn ? ? ? ? ?]. split; try done. split; [split; try done; cbn; congruence | |].
  - destruct He. by split.
  - destruct Hv. by split.
Qed.

Lemma starting_given k rnd tm pre s j : starting k rnd tm pre s -> j ∉ pre -> 0 <= j < k ->
  Make (n (cfg s)) j (given s j) (tm j) = Ok (fresh_peer k j (tm j)).
Proof.
  intros Hg Hj Hr. unfold given, last_saved. rewrite (sg_saved _ _ _ _ _ Hg) by done. rewrite (sg_n _ _ _ _ _ Hg).
  apply Make_fresh.
Qed.

Lemma start_body_run k rnd tm pre s j : starting k rnd tm pre s -> 0 <= j < k ->
  let s1 := set_cfg (set_logs (<[Z.to_nat j := Some ∅]> (logs (cfg s))) (cfg s)) s in
  start_body rnd tm j s = start1 j (rnd j) (tm j) s1 /\ starting k rnd tm pre s1.
Proof.
  intros Hg Hj s1. pose proof (sh_logs _ (wi_shape _ (sg_wiring _ _ _ _ _ Hg))) as Hl. rewrite (sg_n _ _ _ _ _ Hg) in Hl.
  split; [| apply starting_logs; [by rewrite len_insert | done]].
  unfold start_body. by rewrite (st_run _ _ _ _ _ (write_eq logs set_logs j _ s ltac:(by rewrite Hl))).
Qed.

(** Every body of the loop that returns. *)
Lemma start_body_Ok k rnd tm pre s j s' : starting k rnd tm pre s -> j ∉ pre -> 0 <= j < k ->
  start_body rnd tm j s = Ok (tt, s') -> starting k rnd tm (pre ++ [j]) s'.
Proof.
  intros Hg Hj Hr He. destruct (start_body_run k rnd tm pre s j Hg Hr) as [E Hg1]. set (s1 := set_cfg _ s) in *.
  rewrite He in E. symmetry in E.
  destruct (start1_restarted j (rnd j) (tm j) s1 s') as (_ & rf & Hm & Hrs); [apply Hg1 | by rewrite (sg_n _ _ _ _ _ Hg1) | done |].
  rewrite (starting_given k rnd tm pre s1 j Hg1 Hj Hr) in Hm. injection Hm as <-. by eapply starting_step.
Qed.

Definition distinct (k : Z) (rnd : Z -> Z -> string) : Prop :=
  forall i j i' j', 0 <= i < k -> 0 <= j < k -> 0 <= i' < k -> 0 <= j' < k -> rnd i j = rnd i' j' -> i = i' /\ j = j'.

(** With distinct names every body returns. *)
Lemma start_body_total k rnd tm pre s j : distinct k rnd -> starting k rnd tm pre s -> j ∉ pre ->
  (forall i, i ∈ pre -> 0 <= i < k) -> 0 <= j < k -> exists s', start_body rnd tm j s = Ok (tt, s') /\ starting k rnd tm (pre ++ [j]) s'.
Proof.
  intros Hd Hg Hj Hpre Hr. destruct (start_body_run k rnd tm pre s j Hg Hr) as [E Hg1]. set (s1 := set_cfg _ s) in *.
  rewrite E. pose proof (sg_n _ _ _ _ _ Hg1) as Hn1.
  destruct (start1_outcome j (rnd j) (tm j) s1) as [[_ Hbad] | (_ & s2 & Hrs & ->)]; [apply Hg1 | by rewrite Hn1 | |].
  - destruct Hbad. rewrite Hn1. split.
    + apply NoDup_fmap_2_strong; [| apply NoDup_seqZ]. intros x y Hx%elem_of_seqZ Hy%elem_of_seqZ Exy.
      by apply (Hd j x j y) in Exy as [_ ?]; [| lia..].
    + intros x Hx%elem_of_seqZ (i & Hi & (y & Exy & Hy%elem_of_seqZ)%list_elem_of_fmap)%(sg_ends _ _ _ _ _ Hg1).
      apply (Hd j x i y) in Exy as [-> _]; try lia; [done |]. by apply Hpre.
  - rewrite (starting_given k rnd tm pre s1 j Hg1 Hj Hr). eexists. split; [done |]. by eapply starting_step.
Qed.

(** The second loop. *)
Record connecting (s0 : Test) (pre : list Z) (s : Test) : Prop := {
  cg_wiring : wiring s;
  cg_cfg : exists l, cfg s = set_connected l (cfg s0);
  cg_objs : objs (wld s) = objs (wld s0);
  cg_on : forall j, on (cfg s) j = bool_decide (j ∈ pre);
}.

Lemma connecting_step s0 pre s j : started (cfg s0) -> connecting s0 pre s -> 0 <= j < n (cfg s0) ->
  exists s', connect j s = Ok (tt, s') /\ connecting s0 (pre ++ [j]) s'.
Proof.
  intros Hst [Hw [l Hl] Ho Hon] Hj.
  assert (Hn : 0 <= j < n (cfg s)) by (by rewrite Hl).
  destruct (connect_wiring j s Hw) as (rn & E & Hw'); [by rewrite Hl | done |]. eexists. split; [exact E |].
  split; [done | | done |].
  - eexists. cbn. rewrite Hl. reflexivity.
  - intros i. cbn. rewrite on_insert by (apply Hw || done). rewrite Hon.
    case_decide as E1; [subst; symmetry; apply bool_decide_eq_true; set_solver |].
    apply bool_decide_ext. set_solver.
Qed.

Lemma started_of k rnd tm s : starting k rnd tm (seqZ 0 k) s -> started (cfg s).
Proof.
  intros Hg i Hi. rewrite (sg_n _ _ _ _ _ Hg) in Hi. eexists. apply (sg_rows _ _ _ _ _ Hg). apply elem_of_seqZ. lia.
Qed.

Lemma connect_all k rnd tm s0 : starting k rnd tm (seqZ 0 k) s0 ->
  exists s, for_n connect s0 = Ok (tt, s) /\ connecting s0 (seqZ 0 k) s.
Proof.
  intros Hg. unfold for_n. rewrite (sg_n _ _ _ _ _ Hg). apply for_each_total; [apply NoDup_seqZ | |].
  - intros pre j s Hj%elem_of_seqZ _ _ Hc. apply connecting_step; [by eapply started_of | done |].
    rewrite (sg_n _ _ _ _ _ Hg). lia.
  - split; [apply Hg | | done |].
    + exists (connected (cfg s0)). by destruct (cfg s0).
    + intros j. rewrite (sg_off _ _ _ _ _ Hg). symmetry. apply bool_decide_eq_false, not_elem_of_nil.
Qed.

Definition prepared (k : Z) (unreliable : bool) : Test :=
  mkTest (empty_config k) (set_net (LongDelays true (Reliable (negb unreliable) MakeNetwork)) net_init).

Lemma prepared_starting k u rnd tm : 0 <= k -> starting k rnd tm [] (prepared k u).
Proof. intros Hk. by apply starting_init. Qed.

Lemma make_config_run k u rnd tm : 0 <= k ->
  make_config k u rnd tm = x ← (for_n (start_body rnd tm) ;;; for_n connect) (prepared k u); Ok (x.2).
Proof. intros Hk. unfold make_config. rewrite decide_False by lia. done. Qed.

(** What make_config leaves. *)
Record ready (k : Z) (rnd : Z -> Z -> string) (tm : Z -> Reading) (s : Test) : Prop := {
  rd_inv : test_inv k s;
  rd_on : forall j, 0 <= j < k -> on (cfg s) j = true;
  rd_names : forall i j, 0 <= i < k -> 0 <= j < k -> name (cfg s) i j = Some (rnd i j);
  rd_rafts : forall j, 0 <= j < k -> exists o, at_ (rafts (cfg s)) j = Some (Some o) /\
    objs (wld s) !! o = Some (fresh_peer k j (tm j));
}.

Lemma connecting_ready k rnd tm s0 s : starting k rnd tm (seqZ 0 k) s0 -> connecting s0 (seqZ 0 k) s -> ready k rnd tm s.
Proof.
  intros Hg [Hw [l Hl] Ho Hon]. assert (Hin : forall j, 0 <= j < k -> j ∈ seqZ 0 k) by (intros; apply elem_of_seqZ; lia).
  pose proof (started_of _ _ _ _ Hg) as Hst. split.
  - split; [done |]. rewrite Hl. split; [done | apply Hg].
  - intros j Hj. rewrite Hon. by apply bool_decide_eq_true, Hin.
  - intros i j Hi Hj. unfold name. rewrite Hl. cbn. rewrite (sg_rows _ _ _ _ _ Hg) by auto. cbn.
    by rewrite at_seqZ, decide_True.
  - intros j Hj. rewrite Hl, Ho. cbn. by apply Hg, Hin.
Qed.

Lemma make_config_Ok k u rnd tm s : make_config k u rnd tm = Ok s -> ready k rnd tm s.
Proof.
  intros H. destruct (decide (0 <= k)) as [Hk |]; [| unfold make_config in H; by rewrite decide_True in H by lia].
  rewrite make_config_run in H by done. apply res_bind_Ok in H as ([[] s1] & H & [= <-]).
  apply st_bind_Ok in H as ([] & s0 & Hs & Hc). assert (Hg : starting k rnd tm (seqZ 0 k) s0).
  { eapply (for_each_ind (starting k rnd tm)); [apply NoDup_seqZ | | by apply prepared_starting | exact Hs].
    intros pre j s2 s3 Hj%elem_of_seqZ Hnin Hg. apply start_body_Ok; [done | done | lia]. }
  destruct (connect_all _ _ _ _ Hg) as (s2 & E & Hcg). rewrite E in Hc. injection Hc as <-. by eapply connecting_ready.
Qed.

Lemma make_config_total k u rnd tm : 0 <= k -> distinct k rnd -> exists s, make_config k u rnd tm = Ok s.
Proof.
  intros Hk Hd. rewrite make_config_run by done.
  destruct (for_each_total (starting k rnd tm) (seqZ 0 k) (start_body rnd tm) (prepared k u)) as (s0 & Hs & Hg);
    [apply NoDup_seqZ | | by apply prepared_starting |].
  - intros pre j s Hj%elem_of_seqZ Hnin Hsub Hg. apply start_body_total; [done.. | | lia].
    intros i Hi%Hsub%elem_of_seqZ. lia.
  - destruct (connect_all _ _ _ _ Hg) as (s & E & _). exists s.
    change (for_n (start_body rnd tm) (prepared k u) = Ok (tt, s0)) in Hs.
    by rewrite (st_run _ _ _ _ _ Hs), E.
Qed.

Lemma treachable_inv k s : treachable k s -> test_inv k s.
Proof.
  intros (u & rnd & tm & s0 & Hm & Hr). apply make_config_Ok, rd_inv in Hm.
  induction Hr as [| s0 s1 s2 Hs Hr IH]; [done |]. apply IH. by eapply test_inv_step.
Qed.

Lemma routed_iff s e j p : wiring s ->
  (exists rel lr, ReadEndnameInfo e (net (wld s)) = (true, Some j, Some p, rel, lr)) <->
  exists i, on (cfg s) i = true /\ on (cfg s) j = true /\ name (cfg s) i j = Some e /\ at_ (rafts (cfg s)) j = Some (Some p).
Proof.
  intros [_ [Hinj Hcn Hon] Hv]. unfold ReadEndnameInfo. split.
  - intros (rel & lr & [= He Hsn Hsv _ _]). apply Hon in He as (i & j' & Hi & Hj & Hn).
    destruct (Hcn _ _ _ Hn) as [Hj' _]. rewrite Hsn in Hj'. injection Hj' as <-. rewrite Hsn in Hsv.
    exists i. split_and!; try done. by apply (so_srv _ _ Hv).
  - intros (i & Hi & Hj & Hn & Hp). destruct (Hcn _ _ _ Hn) as [Hc _]. apply (so_srv _ _ Hv) in Hp.
    assert (default false (enabled (net (wld s)) !! e) = true) as -> by (apply Hon; eauto).
    rewrite Hc. cbn. rewrite Hp. eauto.
Qed.

(** ** Properties *)

(** C36: which requests get through.  In every state that the harness can reach
    from make_config by connect, disconnect, crash1, start1 and the switches, in
    any order and interleaved with anything that the network and the servers do,
    ProcessReq finds a server for the end [e] exactly if [e] is the current end
    from some server [i] to a server [j], both are on the net, and [j] runs; the
    server it finds is then the current instance of [j].  So an end of an
    instance that was replaced reaches nobody. *)
Theorem requests_routed k s e j p : treachable k s ->
  (exists rel lr, ReadEndnameInfo e (net (wld s)) = (true, Some j, Some p, rel, lr)) <->
  exists i, on (cfg s) i = true /\ on (cfg s) j = true /\ name (cfg s) i j = Some e /\ at_ (rafts (cfg s)) j = Some (Some p).
Proof. intros (Hw & _ & _)%treachable_inv. by apply routed_iff. Qed.

(** make_config returns exactly if the k * k names it draws are distinct
    (MakeEnd ends the program otherwise).  Then every server runs with the initial
    state of Make, and the end from [i] to [j] leads to [j], for all [i] and [j]. *)
Theorem make_config_ready k u rnd tm : 0 <= k ->
  ((exists s, make_config k u rnd tm = Ok s) <-> distinct k rnd) /\
  forall s, make_config k u rnd tm = Ok s ->
    forall i j, 0 <= i < k -> 0 <= j < k -> exists p rel lr,
      ReadEndnameInfo (rnd i j) (net (wld s)) = (true, Some j, Some p, rel, lr) /\
      at_ (rafts (cfg s)) j = Some (Some p) /\ objs (wld s) !! p = Some (fresh_peer k j (tm j)).
Proof.
  intros Hk. split; [split; [intros [s Hm] | by apply make_config_total] | intros s Hm];
    destruct (make_config_Ok _ _ _ _ _ Hm) as [[Hw _] Hon Hn Hr].
  - intros i j i' j' Hi Hj Hi' Hj' E. apply (eo_inj _ _ (wi_ends _ Hw) i j i' j' (rnd i j)); [by apply Hn |].
    rewrite E. by apply Hn.
  - intros i j Hi Hj. destruct (Hr j Hj) as (o & Ho & Hrf). exists o.
    destruct (proj2 (routed_iff s (rnd i j) j o Hw)) as (rel & lr & ->); [| by exists rel, lr].
    exists i. split_and!; auto.
Qed.

(** C37: replacing an instance.  start1 on a running server [i] whose storage is
    up to date, with new names for its ends, returns; the new instance is another
    object that has the term, the vote and the log of the old one and is not
    connected; the old instance, the other servers and their ends are as before.
    With a name that is in use start1 ends the program. *)
Theorem start1_replaces k s i rnd tm o rf : treachable k s ->
  at_ (rafts (cfg s)) i = Some (Some o) -> objs (wld s) !! o = Some rf -> stored rf ->
  (new_names rnd (seqZ 0 k) (net (wld s)) -> exists s' o' rf', start1 i rnd tm s = Ok (tt, s') /\
     at_ (rafts (cfg s')) i = Some (Some o') /\ o' <> o /\ objs (wld s') !! o' = Some rf' /\ recovered k i rf rf' /\
     on (cfg s') i = false /\ others_same i s s' /\ wiring s') /\
  (~ new_names rnd (seqZ 0 k) (net (wld s)) -> start1 i rnd tm s = Fatal).
Proof.
  intros (Hw & _ & Hk)%treachable_inv Hi Ho Hst. pose proof (wi_shape _ Hw) as Hs.
  assert (Hr : 0 <= i < n (cfg s)) by (apply at_lt in Hi; by rewrite (sh_rafts _ Hs) in Hi).
  assert (Hg : given s i = RaftSystem.start1 (persister rf)).
  { unfold given, last_saved. destruct (so_live _ _ (wi_servers _ Hw) _ _ Hi) as (-> & _). by rewrite Ho. }
  destruct (Make_recovered k i rf tm Hst) as (rf' & Hm & Hrec).
  destruct (start1_outcome i rnd tm s Hw Hr) as [[E Hbad] | (Hnew & s' & Hrs & E)]; rewrite Hk in *.
  - by split.
  - split; [intros _ | done]. rewrite Hg, Hm in E. destruct (Hrs rf') as [Hoth Hw' Hoff _ _ (o' & H1 & H2 & H3)].
    exists (launched i rf' s'), o', rf'. split_and!; try done. intros ->. congruence.
Qed.

(** Three servers; the ends are named by digits. *)
Definition digit (d : Z) : Ascii.ascii := Ascii.ascii_of_nat (48 + Z.to_nat d).
Definition demo_names (a : Z) (i j : Z) : string := String (digit a) (String (digit i) (String (digit j) "")).
Definition demo_tm (i : Z) : Reading := mkReading 0 0.
Definition demo_test : Test := match make_config 3 false (demo_names 1) demo_tm with Ok s => s | _ => empty_test 3 end.
Definition demo_ops : list TEvent := [TDisconnect 1; TCrash 2; TStart 2 (demo_names 2 2) (mkReading 5 0); TConnect 2].
Fixpoint trun (evs : list TEvent) (s : Test) : option Test :=
  match evs with
  | [] => Some s
  | ev :: evs => match texec ev s with Ok (_, s') => trun evs s' | _ => None end
  end.

Lemma trun_rtc evs s s' : trun evs s = Some s' -> rtc tstep s s'.
Proof.
  revert s. induction evs as [| ev evs IH]; intros s; cbn; [by intros [= ->] |].
  destruct (texec ev s) as [[[] s1] | | |] eqn:E; [| done..]. intros Hr. eapply rtc_l; [by exists ev | by apply IH].
Qed.

(** Whether a computation returns, without normalising what it returns. *)
Definition returns {A} (r : res A) : bool := match r with Ok _ => true | _ => false end.
Definition demo_after : Test := default demo_test (trun demo_ops demo_test).

Lemma demo_test_Ok : make_config 3 false (demo_names 1) demo_tm = Ok demo_test.
Proof.
  assert (Hr : returns (make_config 3 false (demo_names 1) demo_tm) = true) by (vm_compute; reflexivity).
  unfold demo_test. by destruct (make_config _ _ _ _).
Qed.

Lemma demo_after_run : trun demo_ops demo_test = Some demo_after.
Proof.
  assert (Hr : bool_decide (is_Some (trun demo_ops demo_test)) = true) by (vm_compute; reflexivity).
  unfold demo_after. by destruct (trun demo_ops demo_test).
Qed.

Lemma demo_treachable : treachable 3 demo_test.
Proof. exists false, (demo_names 1), demo_tm, demo_test. split; [exact demo_test_Ok | constructor]. Qed.

Lemma demo_after_treachable : treachable 3 demo_after.
Proof.
  exists false, (demo_names 1), demo_tm, demo_test. split; [exact demo_test_Ok |]. exact (trun_rtc _ _ _ demo_after_run).
Qed.

(** Server 1 is off the net and server 2 was replaced: the new end from 2 to 0
    leads to 0, the old one to nobody. *)
Lemma requests_routed_witness : treachable 3 demo_after /\
  (exists rel lr, ReadEndnameInfo "120" (net (wld demo_test)) = (true, Some 0, Some 0%nat, rel, lr)) /\
  (exists rel lr, ReadEndnameInfo "220" (net (wld demo_after)) = (true, Some 0, Some 0%nat, rel, lr)) /\
  ~ (exists rel lr, ReadEndnameInfo "120" (net (wld demo_after)) = (true, Some 0, Some 0%nat, rel, lr)).
Proof.
  split; [exact demo_after_treachable |]. split; [| split].
  - apply (requests_routed 3 demo_test "120" 0 0 demo_treachable). exists 2.
    do 3 (split; [vm_compute; reflexivity |]). vm_compute. reflexivity.
  - apply (requests_routed 3 demo_after "220" 0 0 demo_after_treachable). exists 2.
    do 3 (split; [vm_compute; reflexivity |]). vm_compute. reflexivity.
  - intros (i & _ & _ & Hi & _)%(requests_routed 3 demo_after "120" 0 0 demo_after_treachable).
    assert (Hen : endnames (cfg demo_after) =
      [Some ["100"; "101"; "102"]; Some ["110"; "111"; "112"]; Some ["220"; "221"; "222"]]) by (vm_compute; reflexivity).
    unfold name in Hi. rewrite Hen in Hi. unfold at_ at 2 in Hi. destruct (decide (0 <= i)); [| discriminate Hi].
    destruct (Z.to_nat i) as [| [| [| ?]]]; vm_compute in Hi; discriminate Hi.
Defined.

Lemma demo_distinct : distinct 3 (demo_names 1).
Proof.
  intros i j i' j' Hi Hj Hi' Hj' E. assert (H : forall x, 0 <= x < 3 -> x = 0 \/ x = 1 \/ x = 2) by lia.
  destruct (H i Hi) as [-> | [-> | ->]], (H j Hj) as [-> | [-> | ->]], (H i' Hi') as [-> | [-> | ->]],
    (H j' Hj') as [-> | [-> | ->]]; by vm_compute in E.
Qed.

Lemma make_config_ready_witness : exists s p rel lr, make_config 3 false (demo_names 1) demo_tm = Ok s /\
  ReadEndnameInfo "102" (net (wld s)) = (true, Some 2, Some p, rel, lr) /\ objs (wld s) !! p = Some (fresh_peer 3 2 (mkReading 0 0)).
Proof.
  destruct (make_config_ready 3 false (demo_names 1) demo_tm ltac:(lia)) as [Hd Hr].
  destruct (proj2 Hd demo_distinct) as [s Hs]. destruct (Hr s Hs 0 2) as (p & rel & lr & H1 & _ & H3); [lia | lia |].
  exists s, p, rel, lr. split; [exact Hs |]. split; [exact H1 | exact H3].
Defined.

Lemma start1_replaces_witness : exists s' o' rf', start1 2 (demo_names 2 2) (mkReading 5 0) demo_test = Ok (tt, s') /\
  at_ (rafts (cfg s')) 2 = Some (Some o') /\ o' <> 2%nat /\ objs (wld s') !! o' = Some rf' /\
  recovered 3 2 (fresh_peer 3 2 (mkReading 0 0)) rf' /\ on (cfg s') 2 = false /\ others_same 2 demo_test s' /\ wiring s'.
Proof.
  apply (start1_replaces 3 demo_test 2 (demo_names 2 2) (mkReading 5 0) 2 (fresh_peer 3 2 (mkReading 0 0))).
  - exact demo_treachable.
  - vm_compute. reflexivity.
  - vm_compute. reflexivity.
  - right. vm_compute. done.
  - split; [apply (bool_decide_eq_true_1 _); vm_compute; reflexivity |]. intros j Hj%elem_of_seqZ.
    assert (j = 0 \/ j = 1 \/ j = 2) as [-> | [-> | ->]] by lia; apply (bool_decide_eq_true_1 _); vm_compute; reflexivity.
Defined.

End Config.
