(* ===== verification/ConfigNames.v ===== *)
(** * The random names of the harness

    randstring and makeSeed of src/raft/config.go.  What crypto/rand returns is an
    argument; base64.URLEncoding is the encoding of the Go standard library, three
    bytes in four characters.  The names of the ends that make_config draws are
    distinct exactly if the first 120 bits of the random bytes are. *)

From S2P Require Import Prelude LabGob Persister Raft RaftRPC RaftNode RaftSystem LabRpc RaftNet Config.
From Stdlib Require Import Ascii.
Import Config.

(** ** base64.URLEncoding *)

Definition alphabet : list ascii :=
  String.list_ascii_of_string "ABCDEFGHIJKLMNOPQRSTUVWXYZabcdefghijklmnopqrstuvwxyz0123456789-_".

(** [enc.encode[x & 0x3F]] *)
Definition encodeChar (x : Z) : ascii := nth (Z.to_nat (Z.land x 63)) alphabet "="%char.

Fixpoint EncodeToString (src : list Z) : list ascii :=
  match src with
  | x :: y :: z :: rest =>
      let val := Z.lor (Z.lor (Z.shiftl x 16) (Z.shiftl y 8)) z in
      encodeChar (Z.shiftr val 18) :: encodeChar (Z.shiftr val 12) :: encodeChar (Z.shiftr val 6) :: encodeChar val ::
      EncodeToString rest
  | [x; y] =>
      let val := Z.lor (Z.shiftl x 16) (Z.shiftl y 8) in
      [encodeChar (Z.shiftr val 18); encodeChar (Z.shiftr val 12); encodeChar (Z.shiftr val 6); "="%char]
  | [x] =>
      let val := Z.shiftl x 16 in
      [encodeChar (Z.shiftr val 18); encodeChar (Z.shiftr val 12); "="%char; "="%char]
  | [] => []
  end.

(** ** randstring and makeSeed *)

(** [random] is what crypto/rand puts into the buffer, which has its length. *)
Definition randstring (n : Z) (random : list Z) : res string :=
  if decide (wrap64 (2 * n) < 0) then Panic else
  s ← slice (EncodeToString random) 0 n;
  Ok (String.string_of_list_ascii s).

(** [random] is the integer below [max] that crypto/rand returns. *)
Definition makeSeed (random : Z -> Z) : Z :=
  let max := Z.shiftl 1 62 in
  wrap64 (random max).

(** Published test vectors (RFC 4648, in the URL alphabet). *)
Example encode_f : EncodeToString [102] = String.list_ascii_of_string "Zg==".
Proof. reflexivity. Qed.
Example encode_fo : EncodeToString [102; 111] = String.list_ascii_of_string "Zm8=".
Proof. reflexivity. Qed.
Example encode_foobar : EncodeToString [102; 111; 111; 98; 97; 114] = String.list_ascii_of_string "Zm9vYmFy".
Proof. reflexivity. Qed.
Example encode_high : EncodeToString [251; 255; 254] = String.list_ascii_of_string "-__-".
Proof. reflexivity. Qed.

(** ** Bytes and six-bit digits *)

Definition is_byte (x : Z) : Prop := 0 <= x < 256.

(** Numbers in base 2^[w], the most significant digit first. *)
Definition number (w : Z) (ds : list Z) : Z := foldl (fun acc d => acc * 2 ^ w + d) 0 ds.

(** The six-bit digits of a list of bytes, the last one filled up with zeros. *)
Fixpoint sextets (src : list Z) : list Z :=
  match src with
  | x :: y :: z :: rest => x / 4 :: x mod 4 * 16 + y / 16 :: y mod 16 * 4 + z / 64 :: z mod 64 :: sextets rest
  | [x; y] => [x / 4; x mod 4 * 16 + y / 16; y mod 16 * 4]
  | [x] => [x / 4; x mod 4 * 16]
  | [] => []
  end.

Lemma lor_disjoint x y k : 0 <= k -> 0 <= y < 2 ^ k -> Z.lor (Z.shiftl x k) y = x * 2 ^ k + y.
Proof.
  intros Hk Hy. rewrite <- Z.shiftl_mul_pow2, <- Z.add_lor_land by done.
  replace (Z.land (Z.shiftl x k) y) with 0; [lia |]. symmetry. apply Z.bits_inj'. intros i Hi.
  rewrite Z.land_spec, Z.bits_0. destruct (decide (i < k)) as [Hlt | Hge].
  - by rewrite Z.shiftl_spec_low.
  - rewrite <- (Z.mod_small y (2 ^ k)), Z.mod_pow2_bits_high by lia. apply andb_false_r.
Qed.

Lemma shiftl_lor x y : 0 <= y < 256 -> Z.lor (Z.shiftl x 16) (Z.shiftl y 8) = x * 65536 + y * 256.
Proof. intros Hy. rewrite (Z.shiftl_mul_pow2 y) by lia. by rewrite lor_disjoint by lia. Qed.

Lemma val_three x y z : 0 <= y < 256 -> 0 <= z < 256 ->
  Z.lor (Z.lor (Z.shiftl x 16) (Z.shiftl y 8)) z = x * 65536 + y * 256 + z.
Proof.
  intros Hy Hz. rewrite shiftl_lor by done. replace (x * 65536 + y * 256) with (Z.shiftl (x * 256 + y) 8).
  - rewrite lor_disjoint, Z.shiftl_mul_pow2 by lia. lia.
  - rewrite Z.shiftl_mul_pow2 by lia. lia.
Qed.

Ltac euclid := try done; simpl Z.pow; Z.to_euclidean_division_equations; nia.

Definition digit (d : Z) : ascii := nth (Z.to_nat d) alphabet "="%char.

Lemma encodeChar_digit x k d : 0 <= k -> (x / 2 ^ k) mod 64 = d -> encodeChar (Z.shiftr x k) = digit d.
Proof.
  intros Hk <-. unfold encodeChar, digit. change 63 with (Z.ones 6).
  by rewrite Z.land_ones, Z.shiftr_div_pow2 by lia.
Qed.

Lemma list_ind3 {A} (P : list A -> Prop) :
  P [] -> (forall x, P [x]) -> (forall x y, P [x; y]) -> (forall x y z l, P l -> P (x :: y :: z :: l)) -> forall l, P l.
Proof.
  intros H0 H1 H2 H3. refine (fix go l := match l with [] => H0 | [x] => H1 x | [x; y] => H2 x y
    | x :: y :: z :: l => H3 x y z l (go l) end).
Qed.

Lemma EncodeToString_digits src : Forall is_byte src ->
  exists pad, EncodeToString src = (digit <$> sextets src) ++ replicate pad "="%char.
Proof.
  induction src as [| x | x y | x y z l IH] using list_ind3; intros Hb; repeat (apply Forall_cons in Hb as [? Hb]);
    cbn [EncodeToString sextets fmap list_fmap app]; unfold is_byte in *; cbv zeta.
  - by exists 0%nat.
  - exists 2%nat. rewrite Z.shiftl_mul_pow2 by lia. repeat f_equal; apply encodeChar_digit; euclid.
  - exists 1%nat. rewrite shiftl_lor by lia. repeat f_equal; apply encodeChar_digit; euclid.
  - destruct (IH Hb) as [pad ->]. exists pad. rewrite val_three by lia.
    rewrite <- (Z.shiftr_0_r (x * 65536 + y * 256 + z)) at 4. repeat f_equal; apply encodeChar_digit; euclid.
Qed.

Lemma alphabet_NoDup : NoDup alphabet.
Proof. apply (bool_decide_unpack _). vm_compute. exact I. Qed.

Lemma digit_inj d d' : 0 <= d < 64 -> 0 <= d' < 64 -> digit d = digit d' -> d = d'.
Proof.
  intros Hd Hd' E. assert (H : forall e, 0 <= e < 64 -> alphabet !! Z.to_nat e = Some (digit e)).
  { intros e He. unfold digit. destruct (nth_lookup_or_length alphabet (Z.to_nat e) "="%char) as [-> | Hl]; [done |].
    change (length alphabet) with 64%nat in Hl. lia. }
  pose proof (H d Hd) as H1. rewrite E in H1. pose proof (NoDup_lookup _ _ _ _ alphabet_NoDup H1 (H d' Hd')). lia.
Qed.

Section Digits.
Context (w : Z) (Hw : 0 <= w).

Lemma foldl_number acc ds :
  foldl (fun acc d => acc * 2 ^ w + d) acc ds = acc * 2 ^ (w * len ds) + number w ds.
Proof using Hw.
  unfold number. revert acc. induction ds as [| d ds IH]; intros acc; cbn [foldl].
  - rewrite len_nil, Z.mul_0_r. lia.
  - rewrite IH, (IH (0 * 2 ^ w + d)), len_cons. pose proof (len_nonneg ds).
    replace (w * (1 + len ds)) with (w + w * len ds) by lia. rewrite Z.pow_add_r by nia. ring.
Qed.

Lemma number_app a b : number w (a ++ b) = number w a * 2 ^ (w * len b) + number w b.
Proof using Hw. unfold number at 1. rewrite foldl_app. apply foldl_number. Qed.

Lemma number_cons d ds : number w (d :: ds) = d * 2 ^ (w * len ds) + number w ds.
Proof using Hw. change (d :: ds) with ([d] ++ ds). rewrite number_app. unfold number at 1. cbn [foldl]. f_equal. Qed.

Lemma number_range ds : Forall (fun d => 0 <= d < 2 ^ w) ds -> 0 <= number w ds < 2 ^ (w * len ds).
Proof using Hw.
  induction 1 as [| d ds Hd _ IH]; [change (0 <= 0 < 2 ^ (w * 0)); rewrite Z.mul_0_r; lia |].
  rewrite number_cons, len_cons. pose proof (len_nonneg ds).
  replace (w * (1 + len ds)) with (w + w * len ds) by lia. rewrite Z.pow_add_r by nia. nia.
Qed.

Lemma number_take k ds : Forall (fun d => 0 <= d < 2 ^ w) ds -> (k <= length ds)%nat ->
  number w (take k ds) = number w ds / 2 ^ (w * (len ds - Z.of_nat k)).
Proof using Hw.
  intros Hd Hk. rewrite <- (take_drop k ds) at 2. rewrite number_app.
  replace (len ds - Z.of_nat k) with (len (drop k ds)) by (unfold len; rewrite length_drop; lia).
  pose proof (number_range _ (Forall_drop _ k _ Hd)). rewrite Z.div_add_l, Z.div_small by lia. lia.
Qed.

Lemma number_inj ds ds' : Forall (fun d => 0 <= d < 2 ^ w) ds -> Forall (fun d => 0 <= d < 2 ^ w) ds' ->
  length ds = length ds' -> number w ds = number w ds' -> ds = ds'.
Proof using Hw.
  intros H. revert ds'. induction H as [| d ds Hd H IH]; intros [| d' ds'] H' L E; try done.
  apply Forall_cons in H' as [Hd' H']. injection L as L. rewrite !number_cons in E.
  replace (len ds') with (len ds) in E by (unfold len; lia).
  pose proof (number_range _ H) as R. pose proof (number_range _ H') as R'.
  replace (len ds') with (len ds) in R' by (unfold len; lia).
  assert (d = d') as -> by nia. f_equal. apply IH; [done .. |]. lia.
Qed.
End Digits.

Lemma sextets_range src : Forall is_byte src -> Forall (fun d => 0 <= d < 2 ^ 6) (sextets src).
Proof.
  induction src as [| x | x y | x y z l IH] using list_ind3; intros Hb; repeat (apply Forall_cons in Hb as [? Hb]);
    unfold is_byte in *; cbn [sextets]; repeat (apply Forall_cons; split); auto; euclid.
Qed.

(** The digits are those of the number of the bytes, shifted by the filling. *)
Lemma sextets_number src : exists pad, 0 <= pad /\ 6 * len (sextets src) = 8 * len src + pad /\
  number 6 (sextets src) = number 8 src * 2 ^ pad.
Proof.
  induction src as [| x | x y | x y z l (pad & Hp & Hl & Hn)] using list_ind3; cbn [sextets].
  - by exists 0.
  - exists 4. unfold number, len. cbn. repeat split; [lia .. | euclid].
  - exists 2. unfold number, len. cbn. repeat split; [lia .. | euclid].
  - exists pad. rewrite !len_cons. split_and!; [lia .. |]. rewrite !number_cons by lia. rewrite !len_cons, Hn, Hl.
    pose proof (len_nonneg l).
    replace (6 * (1 + (1 + (1 + len (sextets l))))) with (18 + (8 * len l + pad)) by lia.
    replace (6 * (1 + (1 + len (sextets l)))) with (12 + (8 * len l + pad)) by lia.
    replace (6 * (1 + len (sextets l))) with (6 + (8 * len l + pad)) by lia.
    replace (8 * (1 + (1 + len l))) with (16 + 8 * len l) by lia. replace (8 * (1 + len l)) with (8 + 8 * len l) by lia.
    rewrite !Z.pow_add_r by lia. euclid.
Qed.

(** ** The names *)

Lemma string_inj l l' : String.string_of_list_ascii l = String.string_of_list_ascii l' -> l = l'.
Proof. intros E%(f_equal String.list_ascii_of_string). by rewrite !String.list_ascii_of_string_of_list_ascii in E. Qed.

Lemma string_length l : String.length (String.string_of_list_ascii l) = length l.
Proof. induction l as [| c l IH]; cbn; [done |]. by rewrite IH. Qed.

Lemma digits_inj ds ds' : Forall (fun d => 0 <= d < 2 ^ 6) ds -> Forall (fun d => 0 <= d < 2 ^ 6) ds' ->
  digit <$> ds = digit <$> ds' -> ds = ds'.
Proof.
  intros H. revert ds'. induction H as [| d ds Hd H IH]; intros [| d' ds'] H' E; try done.
  apply Forall_cons in H' as [Hd' H']. injection E as E1 E2. f_equal; [by apply digit_inj | by apply IH].
Qed.

Section Draw.
Context (n : Z) (b : list Z).
Hypothesis Hn : 0 <= n < 2 ^ 62.
Hypothesis Hb : Forall is_byte b.
Hypothesis Hl : len b = 2 * n.

Lemma draw_enough : (Z.to_nat n <= length (sextets b))%nat.
Proof using Hn Hl. destruct (sextets_number b) as (pad & ? & ? & _). unfold len in *. lia. Qed.

Lemma draw_digits :
  randstring n b = Ok (String.string_of_list_ascii (digit <$> take (Z.to_nat n) (sextets b))).
Proof using Hn Hb Hl.
  pose proof draw_enough as He. destruct (EncodeToString_digits b Hb) as [pad E]. unfold randstring.
  rewrite wrap64_small by (unfold MinInt, MaxInt; lia). rewrite decide_False by lia. rewrite E. unfold slice.
  rewrite decide_True.
  - cbn. rewrite drop_0, Z.sub_0_r, take_app_le, fmap_take by (rewrite length_fmap; lia). done.
  - rewrite len_app. unfold len at 1. rewrite length_fmap. pose proof (len_nonneg (replicate pad "="%char)). lia.
Qed.

Lemma draw_number : number 6 (take (Z.to_nat n) (sextets b)) = number 8 b / 2 ^ (10 * n).
Proof using Hn Hb Hl.
  rewrite number_take by (lia || by apply sextets_range || apply draw_enough).
  destruct (sextets_number b) as (pad & Hp & Hs & ->). rewrite Z2Nat.id by lia.
  replace (6 * (len (sextets b) - n)) with (10 * n + pad) by lia.
  rewrite Z.pow_add_r by lia. apply Z.div_mul_cancel_r; lia.
Qed.

Lemma draw_length : length (take (Z.to_nat n) (sextets b)) = Z.to_nat n.
Proof using Hn Hl. rewrite length_take. pose proof draw_enough. lia. Qed.
End Draw.

(** randstring returns, for every buffer of 2n bytes, a string of n characters
    (its slice is always inside the encoding); two calls return the same string
    exactly if the first 6n of the 16n random bits are the same. *)
Theorem randstring_names n b b' : 0 <= n < 2 ^ 62 -> Forall is_byte b -> Forall is_byte b' ->
  len b = 2 * n -> len b' = 2 * n ->
  exists s s', randstring n b = Ok s /\ randstring n b' = Ok s' /\
    Z.of_nat (String.length s) = n /\
    (s = s' <-> number 8 b / 2 ^ (10 * n) = number 8 b' / 2 ^ (10 * n)).
Proof.
  intros Hn Hb Hb' Hl Hl'. rewrite (draw_digits n b), (draw_digits n b') by done.
  eexists _, _. split; [done |]. split; [done |].
  rewrite string_length, length_fmap, draw_length, Z2Nat.id by (done || lia). split; [done |].
  rewrite <- (draw_number n b), <- (draw_number n b') by done. split; intros E.
  - apply string_inj, digits_inj in E; [by rewrite E | by apply Forall_take, sextets_range ..].
  - do 2 f_equal. apply number_inj in E; [done | lia | by apply Forall_take, sextets_range .. |].
    by rewrite !draw_length.
Qed.

(** The names of the ends, as make_config draws them from the random bytes. *)
Definition drawn (random : Z -> Z -> list Z) (i j : Z) : string :=
  match randstring 20 (random i j) with Ok s => s | _ => "" end.

(** A name of 20 characters is the first 15 of the 40 bytes. *)
Lemma randstring_20 b b' : Forall is_byte b -> Forall is_byte b' -> len b = 40 -> len b' = 40 ->
  exists s s', randstring 20 b = Ok s /\ randstring 20 b' = Ok s' /\ (s = s' <-> take 15 b = take 15 b').
Proof.
  intros Hb Hb' Hl Hl'. destruct (randstring_names 20 b b') as (s & s' & -> & -> & _ & E); [lia | done .. |].
  exists s, s'. do 2 (split; [done |]). rewrite E.
  assert (T : forall c, Forall is_byte c -> len c = 40 -> number 8 c / 2 ^ (10 * 20) = number 8 (take 15 c)).
  { intros c Hc Lc. rewrite number_take; [by rewrite Lc | lia | exact Hc | unfold len in Lc; lia]. }
  rewrite !T by done. split; [| by intros ->]. apply number_inj; [lia | by apply Forall_take .. |].
  unfold len in *. rewrite !length_take. lia.
Qed.

(** With the names drawn by randstring(20), make_config returns exactly if the
    first 15 bytes of the k * k buffers that crypto/rand fills are distinct; no
    call of randstring panics. *)
Theorem make_config_names k u random tm : 0 <= k ->
  (forall i j, Forall is_byte (random i j) /\ len (random i j) = 40) ->
  (forall i j, randstring 20 (random i j) = Ok (drawn random i j)) /\
  ((exists s, make_config k u (drawn random) tm = Ok s) <->
   forall i j i' j', 0 <= i < k -> 0 <= j < k -> 0 <= i' < k -> 0 <= j' < k ->
     take 15 (random i j) = take 15 (random i' j') -> i = i' /\ j = j').
Proof.
  intros Hk Hr. split.
  { intros i j. destruct (Hr i j) as [Hb Hl]. destruct (randstring_20 _ _ Hb Hb Hl Hl) as (s & _ & E & _).
    unfold drawn. by rewrite E. }
  rewrite (proj1 (make_config_ready k u (drawn random) tm Hk)). unfold distinct.
  assert (E : forall i j i' j', drawn random i j = drawn random i' j' <-> take 15 (random i j) = take 15 (random i' j')).
  { intros i j i' j'. destruct (Hr i j) as [Hb Hl], (Hr i' j') as [Hb' Hl'].
    destruct (randstring_20 _ _ Hb Hb' Hl Hl') as (s & s' & E1 & E2 & <-). unfold drawn. by rewrite E1, E2. }
  split; intros H i j i' j' Hi Hj Hi' Hj' Ht; apply (H i j i' j'); try done; by apply E.
Qed.

(** makeSeed returns what crypto/rand drew: Int64 loses nothing. *)
Theorem makeSeed_range random : (forall max, 0 < max -> 0 <= random max < max) ->
  makeSeed random = random (2 ^ 62) /\ 0 <= makeSeed random < 2 ^ 62.
Proof.
  intros H. specialize (H (2 ^ 62) ltac:(lia)). unfold makeSeed. change (Z.shiftl 1 62) with (2 ^ 62). cbv zeta.
  rewrite wrap64_small by (unfold MinInt, MaxInt; lia). done.
Qed.

(** ** Witnesses *)

(** Three servers; the first two bytes of a buffer differ. *)
Definition demo_bytes (i j : Z) : list Z := i `mod` 256 :: j `mod` 256 :: replicate 38 7.

Lemma demo_bytes_ok i j : Forall is_byte (demo_bytes i j) /\ len (demo_bytes i j) = 40.
Proof.
  unfold demo_bytes. split; [| done]. do 2 (apply Forall_cons_2; [apply Z.mod_pos_bound; lia |]).
  apply Forall_replicate. unfold is_byte. lia.
Qed.

Lemma randstring_names_witness : exists s s', randstring 2 [1; 2; 3; 4] = Ok s /\ randstring 2 [1; 2; 250; 4] = Ok s' /\ s = s'.
Proof.
  destruct (randstring_names 2 [1; 2; 3; 4] [1; 2; 250; 4]) as (s & s' & H1 & H2 & _ & H4);
    [lia | repeat constructor; lia | repeat constructor; lia | reflexivity | reflexivity |].
  exists s, s'. split; [exact H1 |]. split; [exact H2 |]. apply H4. reflexivity.
Defined.

Lemma make_config_names_witness : exists s, make_config 3 true (drawn demo_bytes) demo_tm = Ok s.
Proof.
  apply (proj2 (make_config_names 3 true demo_bytes demo_tm ltac:(lia) demo_bytes_ok)).
  intros i j i' j' Hi Hj Hi' Hj' E. injection E as E1 E2. rewrite !Z.mod_small in E1, E2 by lia. by split.
Defined.

Lemma makeSeed_range_witness : makeSeed (fun max => max - 1) = 2 ^ 62 - 1.
Proof. apply (makeSeed_range (fun max => max - 1)). intros max Hm. lia. Defined.
