(* ===== verification/RaftChecks.v ===== *)
(** * The checks of the tests

    The goroutine of config.go that reads applyCh and compares what the servers
    apply, and the checks that the tests call: nCommitted, checkOneLeader,
    checkTerms, checkNoLeader, wait and one.  They run next to the cluster of the
    file RaftSystem: a message that a server sends is taken by the reader of its
    instance, which handles it some time later, under cfg.mu.  The checks read the
    servers and the logs one after the other while the cluster goes on; what they
    read is an argument here, and the theorems are about readings at any moments
    of one execution. *)

From S2P Require Import Prelude LabGob Persister Raft RaftRPC RaftNode RaftSystem RaftSteps RaftRaces RaftLocal RaftApply.
From S2P Require Import RaftElection RaftLogs RaftCommit RaftSafety RaftCommands.
From S2P Require Import Config.

Notation config := Config.config.

(** ** The reader of applyCh *)

(** [old, oldok := cfg.logs[j][m.CommandIndex]; oldok && old != v] *)
Definition differs (index v : Z) (log : option (gmap Z Z)) : bool :=
  match log ≫= (.!! index) with Some old => bool_decide (old <> v) | None => false end.

(** One message [m] of server [i]; log.Fatalf ends the program, so that the
    assignment to applyErr after it never happens. *)
Definition read_msg (i : Z) (m : ApplyMsg) : ST config unit := fun c =>
  if negb (CommandValid m) then Ok (tt, c) else
  match am_Command m with
  | Some (VInt v) =>
      let index := CommandIndex m in
      let conflict := existsb (differs index v) (Config.logs c) in
      log ← idx (Config.logs c) i;
      let prevok := bool_decide (is_Some (log ≫= (.!! (index - 1)))) in
      match log with
      | None => Panic
      | Some log =>
          logs ← store (Config.logs c) i (Some (<[index := v]> log));
          let c := Config.set_logs logs c in
          let c := if decide (index > Config.maxIndex c) then Config.set_maxIndex index c else c in
          if conflict || (bool_decide (index > 1) && negb prevok) then Fatal else Ok (tt, c)
      end
  | _ => Fatal
  end.

(** ** The cluster and its readers

    [inst p] counts the restarts of [p]; [inbox (p, k)] is the message that the
    reader of the [k]-th instance of [p] has received and not handled yet.  A crash
    does not stop the reader of the old instance. *)
Record HWorld := mkH {
  cluster : World;
  hcfg : config;
  inst : gmap Z nat;
  inbox : gmap (Z * nat) ApplyMsg;
}.

Definition incarnation (h : HWorld) (p : Z) : nat := default 0%nat (inst h !! p).

(** The message that an event sends on applyCh. *)
Definition sending (ev : Event) (w : World) : option (Z * ApplyMsg) :=
  match ev with
  | ERun tid _ => match threads w !! tid with Some (p, GApplySend m _ _) => Some (p, m) | _ => None end
  | _ => None
  end.

Inductive HEvent :=
  | HCluster (ev : Event)
  | HRead (p : Z) (k : nat).

Definition hexec (ev : HEvent) : ST HWorld unit := fun h =>
  match ev with
  | HCluster ev =>
      match sending ev (cluster h) with
      | Some (p, m) =>
          match inbox h !! (p, incarnation h p) with
          | Some _ => Blocked
          | None => x ← exec ev (cluster h);
              Ok (tt, mkH x.2 (hcfg h) (inst h) (<[(p, incarnation h p) := m]> (inbox h)))
          end
      | None => x ← exec ev (cluster h);
          let inst' := match ev with ECrash p _ _ => <[p := S (incarnation h p)]> (inst h) | _ => inst h end in
          Ok (tt, mkH x.2 (hcfg h) inst' (inbox h))
      end
  | HRead p k =>
      match inbox h !! (p, k) with
      | None => Blocked
      | Some m => x ← read_msg p m (hcfg h); Ok (tt, mkH (cluster h) x.2 (inst h) (delete (p, k) (inbox h)))
      end
  end.

Definition hinitial (n : Z) (tm : Reading) : HWorld :=
  mkH (initial n tm) (Config.set_logs (replicate (Z.to_nat n) (Some ∅)) (Config.empty_config n)) ∅ ∅.

Definition is_int (c : option GoVal) : Prop := exists v, c = Some (VInt v).

(** A step of an isolated execution whose commands are integers, as those of the tests. *)
Definition hstep (h h' : HWorld) : Prop :=
  exists ev, hexec ev h = Ok (tt, h') /\
    match ev with
    | HCluster ev => event_ok is_int ev /\ terms_fit (cluster h) /\ isolated (cluster h) (cluster h')
    | HRead _ _ => True
    end.

Definition hreachable (n : Z) (h : HWorld) : Prop := exists tm, rtc hstep (hinitial n tm) h.

(** ** The checks *)

(** The loop of nCommitted: [reads] is what it finds as (applyErr[i], logs[i]). *)
Fixpoint nCommittedLoop (reads : list (string * option (gmap Z Z))) (index count cmd : Z) : res (Z * Z) :=
  match reads with
  | [] => Ok (count, cmd)
  | (err, log) :: reads =>
      if decide (err <> "") then Fatal else
      match log ≫= (.!! index) with
      | Some cmd1 =>
          if decide (count > 0 /\ cmd <> cmd1) then Fatal
          else nCommittedLoop reads index (count + 1) cmd1
      | None => nCommittedLoop reads index count cmd
      end
  end.
Definition nCommitted (reads : list (string * option (gmap Z Z))) (index : Z) : res (Z * Z) :=
  nCommittedLoop reads index 0 (-1).

(** What cfg.rafts[i].GetState() returns; None when cfg.rafts[i] is nil. *)
Definition Seen := option (Z * bool).

(** The first loop of checkOneLeader, from server [i] on; [servers] pairs
    connected[i] with what GetState returns. *)
Fixpoint collectLeaders (servers : list (bool * Seen)) (i : Z) (leaders : gmap Z (list Z)) : res (gmap Z (list Z)) :=
  match servers with
  | [] => Ok leaders
  | (false, _) :: servers => collectLeaders servers (i + 1) leaders
  | (true, None) :: _ => Panic
  | (true, Some (term, leader)) :: servers =>
      collectLeaders servers (i + 1)
        (if leader : bool then <[term := default [] (leaders !! term) ++ [i]]> leaders else leaders)
  end.

(** The second loop: the highest term with a leader. *)
Fixpoint lastTermLoop (entries : list (Z * list Z)) (lastTermWithLeader : Z) : res Z :=
  match entries with
  | [] => Ok lastTermWithLeader
  | (term, ls) :: entries =>
      if decide (len ls > 1) then Fatal
      else lastTermLoop entries (if decide (term > lastTermWithLeader) then term else lastTermWithLeader)
  end.

(** [iters] holds the readings of the iterations that are made (ten at most);
    [range] is the order in which Go ranges over the map. *)
Fixpoint checkOneLeader (range : gmap Z (list Z) -> list (Z * list Z)) (iters : list (list (bool * Seen))) : res Z :=
  match iters with
  | [] => Fatal
  | servers :: iters =>
      leaders ← collectLeaders servers 0 ∅;
      lastTerm ← lastTermLoop (range leaders) (-1);
      if decide (leaders = ∅) then checkOneLeader range iters
      else idx (default [] (leaders !! lastTerm)) 0
  end.

Fixpoint checkTermsLoop (servers : list (bool * Seen)) (term : Z) : res Z :=
  match servers with
  | [] => Ok term
  | (false, _) :: servers => checkTermsLoop servers term
  | (true, None) :: _ => Panic
  | (true, Some (xterm, _)) :: servers =>
      if decide (term = -1) then checkTermsLoop servers xterm
      else if decide (term <> xterm) then Fatal
      else checkTermsLoop servers term
  end.
Definition checkTerms (servers : list (bool * Seen)) : res Z := checkTermsLoop servers (-1).

Fixpoint checkNoLeader (servers : list (bool * Seen)) : res unit :=
  match servers with
  | [] => Ok tt
  | (false, _) :: servers => checkNoLeader servers
  | (true, None) :: _ => Panic
  | (true, Some (_, is_leader)) :: servers => if is_leader : bool then Fatal else checkNoLeader servers
  end.

(** One iteration of wait: what nCommitted reads, then the terms of all servers. *)
Record Round := mkRound { r_logs : list (string * option (gmap Z Z)); r_terms : list Seen }.

(** [for _, r := range cfg.rafts { if t, _ := r.GetState(); t > startTerm ... }] *)
Fixpoint movedOn (startTerm : Z) (terms : list Seen) : res bool :=
  match terms with
  | [] => Ok false
  | None :: _ => Panic
  | Some (t, _) :: terms => if decide (t > startTerm) then Ok true else movedOn startTerm terms
  end.

(** Thirty rounds at most; true says that wait returns -1. *)
Fixpoint waitLoop (rounds : list Round) (index n startTerm : Z) : res bool :=
  match rounds with
  | [] => Ok false
  | r :: rounds =>
      x ← nCommitted (r_logs r) index;
      if decide (x.1 >= n) then Ok false else
      b ← (if decide (startTerm > -1) then movedOn startTerm (r_terms r) else Ok false);
      if b : bool then Ok true else waitLoop rounds index n startTerm
  end.
Definition wait (rounds : list Round) (last : list (string * option (gmap Z Z))) (index n startTerm : Z) : res Z :=
  gone ← waitLoop rounds index n startTerm;
  if gone : bool then Ok (-1) else
  x ← nCommitted last index;
  if decide (x.1 < n) then Fatal else Ok (x.2).

(** One attempt of one(): what Start returns at a server if it is tried (None if it
    is not connected or nil), then the readings of nCommitted while it polls for
    two seconds. *)
Record Attempt := mkAttempt {
  a_start : Z -> option (Z * bool);
  a_polls : list (list (string * option (gmap Z Z)));
}.

(** [for si := 0; si < cfg.n; si++], with [k] servers still to try. *)
Fixpoint tryServers (k : nat) (n starts : Z) (start : Z -> option (Z * bool)) : Z * Z :=
  match k with
  | O => (-1, starts)
  | S k =>
      let starts := (starts + 1) `mod` n in
      match start starts with
      | Some (index1, true) => (index1, starts)
      | _ => tryServers k n starts start
      end
  end.

Fixpoint pollLoop (polls : list (list (string * option (gmap Z Z)))) (index cmd expectedServers : Z) : res bool :=
  match polls with
  | [] => Ok false
  | reads :: polls =>
      x ← nCommitted reads index;
      if decide (x.1 > 0 /\ x.1 >= expectedServers /\ x.2 = cmd) then Ok true
      else pollLoop polls index cmd expectedServers
  end.

(** [attempts] are those made within ten seconds. *)
Fixpoint oneLoop (attempts : list Attempt) (n starts cmd expectedServers : Z) (retry : bool) : res Z :=
  match attempts with
  | [] => Fatal
  | a :: attempts =>
      let x := tryServers (Z.to_nat n) n starts (a_start a) in
      let index := x.1 in
      if decide (index <> -1) then
        found ← pollLoop (a_polls a) index cmd expectedServers;
        if found : bool then Ok index
        else if retry then oneLoop attempts n (x.2) cmd expectedServers retry else Fatal
      else oneLoop attempts n (x.2) cmd expectedServers retry
  end.
Definition one (attempts : list Attempt) (n cmd expectedServers : Z) (retry : bool) : res Z :=
  oneLoop attempts n 0 cmd expectedServers retry.

(** ** What an event sends *)

Ltac applied_done :=
  first [ done
        | match goal with H : finish ?t ?w = Ok _ |- _ => rewrite (finish_eq t 0) in H; simplify_eq; done end ].

Lemma run_thread_applied tid p g t1 w w' : run_thread tid p g t1 w = Ok (tt, w') ->
  applied w' = match g with
               | GApplySend m _ _ => <[p := sent_by w p ++ [m]]> (applied w)
               | _ => applied w
               end.
Proof.
  intros H. destruct g; cbn in H; world_inv; try discriminate H.
  all: repeat match goal with
    | H : (if ?b : bool then _ else _) _ = Ok _ |- _ => destruct b; world_inv
    | H : (if decide ?b then _ else _) _ = Ok _ |- _ => destruct (decide b); world_inv
    | H : (match ?r with SReturn => _ | SRetry => _ | SHeartbeat => _ end) _ = Ok _ |- _ => destruct r; world_inv
    | H : new_elect _ _ = Ok (_, _) |- _ => injection H as <- <-
    end.
  all: try applied_done.
  - rewrite (finish_eq tid 0) in *. simplify_eq.
    match goal with H : new_bcast _ _ = Ok (_, _) |- _ => injection H as <- <- end.
    match goal with H : spawn_all _ _ _ _ = Ok _ |- _ => pose proof (spawn_all_inv _ _ _ _ _ H) as Hsa end.
    by rewrite (sa_applied _ _ _ _ _ Hsa).
  - by simplify_eq.
Qed.

Lemma exec_applied ev w w' : exec ev w = Ok (tt, w') ->
  match ev, sending ev w with
  | ECrash p _ _, _ => applied w' = <[p := []]> (applied w)
  | _, Some (p, m) => applied w' = <[p := sent_by w p ++ [m]]> (applied w) /\
      exists tid i c, threads w !! tid = Some (p, GApplySend m i c)
  | _, None => applied w' = applied w
  end.
Proof.
  intros H. destruct ev as [p cmd | p | p | tid t1 | tid j | tid t1 t2 | tid | tid | p mid tm]; cbn [exec sending] in *.
  1: { world_inv. by destruct (x.2); world_inv. }
  1, 2: by world_inv.
  1: { apply with_thread_Ok in H as (p & g & Ht & H). rewrite Ht. apply run_thread_applied in H as ->. destruct g; try done.
       split; [done |]. by eexists _, _, _. }
  1, 2, 3, 4: apply with_thread_Ok in H as (p & g & _ & H); destruct g; cbn in H; try discriminate H; world_inv; applied_done.
  by apply crash_inv in H as (rf & rf1 & ts & rf' & _ & _ & _ & ->).
Qed.

Lemma exec_sends ev w w' p m : exec ev w = Ok (tt, w') -> sending ev w = Some (p, m) ->
  applied w' = <[p := sent_by w p ++ [m]]> (applied w) /\ exists tid i c, threads w !! tid = Some (p, GApplySend m i c).
Proof. intros H%exec_applied E. destruct ev; try done. by rewrite E in H. Qed.

Lemma exec_silent ev w w' : exec ev w = Ok (tt, w') -> sending ev w = None ->
  (exists p mid tm, ev = ECrash p mid tm /\ applied w' = <[p := []]> (applied w)) \/
  (forall p mid tm, ev <> ECrash p mid tm) /\ applied w' = applied w.
Proof. intros H%exec_applied E. destruct ev; rewrite ?E in H; naive_solver. Qed.

(** ** The cluster under the readers *)

(** The invariants of isolated executions, with their ghost state. *)
Record full (n : Z) (w : World) (L : ledger) (A : acks) : Prop := {
  fl_local : local_inv n w;
  fl_apply : apply_inv w;
  fl_safe : exists G C K, ledger_inv n w G L /\ core_inv n w G L A C /\ safe_inv n w L A K;
}.

Lemma full_initial n tm : full n (initial n tm) ∅ ∅.
Proof.
  split; [apply local_inv_initial | apply apply_inv_initial |]. exists ∅, (fun _ _ _ => False), ∅.
  split; [apply ledger_inv_initial |]. split; [apply core_inv_initial | apply safe_inv_initial].
Qed.

Lemma full_step n w w' L A : 0 <= n -> terms_fit w -> isolated w w' -> wstep w w' -> full n w L A ->
  exists L' A', extends L L' /\ A ⊆ A' /\ full n w' L' A'.
Proof.
  intros Hn Hfit Hiso Hs [Hl Hap (G & C & K & Hlg & Hco & Hsf)].
  destruct (ledger_inv_step n w w' G L Hfit Hl Hap Hiso Hlg Hs) as (G' & L' & HG & HL & Hlg').
  pose proof (local_inv_step n w w' Hfit Hl Hs) as Hl2.
  pose proof (core_inv_step n w w' G G' L L' A C Hfit Hl Hl2 Hiso Hs Hco Hlg Hlg' HG HL) as Hco'.
  destruct (safe_inv_step n w w' G L L' A C K) as [K' Hsf']; try done; [apply HL |].
  exists L', (acks' w' A). split; [apply HL |]. split; [apply acks_grow |].
  split; [done | exact (apply_inv_step n w w' Hl Hap Hs) |]. by exists G', (cands' w' C), K'.
Qed.

Lemma full_agreed n w L A m m' : 0 <= n -> full n w L A -> agreed n L A m -> agreed n L A m' ->
  CommandIndex m = CommandIndex m' -> am_Command m = am_Command m'.
Proof.
  intros Hn [_ _ (G & C & K & Hlg & Hco & Hsf)] (T & i & p & l & x & Hc & Hl & _ & Hi & Hx & <-)
    (T' & j & q & l' & y & Hc' & Hl' & _ & Hj & Hy & <-) E.
  assert (l !! Z.to_nat (CommandIndex m) = l' !! Z.to_nat (CommandIndex m)) as E'
    by (eapply (chosen_agree n w G L A C Hn Hco T i p l T' j q l'); try done; lia).
  rewrite Hx, E, Hy in E'. by injection E' as <-.
Qed.

Lemma full_range n w L A p rf : full n w L A -> peers w !! p = Some rf -> 0 <= p < n.
Proof.
  intros [_ _ (G & C & K & Hlg & _)] Hp. destruct (lg_elections _ _ _ _ Hlg) as (E & Hv & _).
  by eapply vi_range.
Qed.

(** The message that is being sent. *)
Lemma full_sending n w L A tid p m i c : full n w L A -> threads w !! tid = Some (p, GApplySend m i c) ->
  0 <= p < n /\ CommandValid m = true /\ agreed n L A m /\ CommandIndex m = len (sent_by w p) + 1.
Proof.
  intros Hf Ht. destruct (ap_home _ (fl_apply _ _ _ _ Hf) _ _ _ Ht) as [rf Hp]; [done |].
  pose proof (ap_ok _ (fl_apply _ _ _ _ Hf) _ _ _ _ Hp Ht) as (H1 & H2 & H3 & H4).
  split; [by eapply full_range |]. split; [done |]. split; [| lia].
  destruct Hf as [_ _ (G & C & K & _ & _ & Hsf)]. apply (sf_threads _ _ _ _ _ Hsf _ _ _ Ht).
Qed.

(** ** The invariant of the readers *)

Definition log_of (h : HWorld) (p : Z) : gmap Z Z := default ∅ (mjoin (Config.at_ (Config.logs (hcfg h)) p)).

Definition entry_agreed (n : Z) (L : ledger) (A : acks) (index v : Z) : Prop :=
  exists m, agreed n L A m /\ CommandIndex m = index /\ am_Command m = Some (VInt v).

Definition logs_shape (n : Z) (c : config) : Prop :=
  len (Config.logs c) = n /\ Forall is_Some (Config.logs c) /\ Forall (fun e => e = "") (Config.applyErr c).

Record hinv (n : Z) (h : HWorld) (L : ledger) (A : acks) : Prop := {
  hi_full : full n (cluster h) L A;
  hi_ints : command_inv is_int (cluster h);
  hi_shape : logs_shape n (hcfg h);
  hi_logs : forall p index v, log_of h p !! index = Some v -> entry_agreed n L A index v;
  hi_inbox : forall p k m, inbox h !! (p, k) = Some m -> 0 <= p < n /\ CommandValid m = true /\ agreed n L A m /\
    is_int (am_Command m) /\ (CommandIndex m = 1 \/ is_Some (log_of h p !! (CommandIndex m - 1)));
  hi_order : forall p x, 1 <= x <= len (sent_by (cluster h) p) ->
    is_Some (log_of h p !! x) \/ exists m, inbox h !! (p, incarnation h p) = Some m /\ CommandIndex m = x;
}.

Lemma entry_agreed_mono n L L' A A' index v : extends L L' -> A ⊆ A' -> entry_agreed n L A index v -> entry_agreed n L' A' index v.
Proof. intros HL HA (m & Hm & ?). exists m. split; [by eapply agreed_mono | done]. Qed.

Lemma hinv_initial n tm : 0 <= n -> hinv n (hinitial n tm) ∅ ∅.
Proof.
  intros Hn. assert (Hlog : forall p, log_of (hinitial n tm) p = ∅).
  { intros p. unfold log_of. cbn. destruct (Config.at_ _ p) as [l |] eqn:E; [| done]. by apply Config.at_replicate in E as ->. }
  split.
  - apply full_initial.
  - apply command_inv_initial.
  - split; [by apply Config.len_replicate |]. split; cbn; apply Forall_replicate; [by eexists | done].
  - intros p index v. by rewrite Hlog, lookup_empty.
  - done.
  - intros p x Hx. exfalso. unfold sent_by in Hx. cbn in Hx. rewrite lookup_empty in Hx.
    unfold len in Hx. cbn in Hx. lia.
Qed.

(** A step of the cluster. *)
Lemma hinv_cluster n h ev h' L A : 0 <= n -> hinv n h L A -> hexec (HCluster ev) h = Ok (tt, h') ->
  event_ok is_int ev -> terms_fit (cluster h) -> isolated (cluster h) (cluster h') ->
  exists L' A', extends L L' /\ A ⊆ A' /\ hinv n h' L' A'.
Proof.
  intros Hn [Hf Hc Hsh Hlg Hib Hor] He Hev Hfit Hiso.
  assert (Hx : exec ev (cluster h) = Ok (tt, cluster h') /\ hcfg h' = hcfg h).
  { cbn in He. destruct (sending ev (cluster h)) as [[p m] |]; [destruct (inbox h !! _); [done |] |];
      apply res_bind_Ok in He as ([[] w'] & Hx & [= <-]); done. }
  destruct Hx as [Hx Hcf]. pose proof (exec_wstep _ _ _ Hx) as Hs.
  destruct (full_step n _ _ L A Hn Hfit Hiso Hs Hf) as (L' & A' & HL & HA & Hf'). exists L', A'.
  split; [done |]. split; [done |].
  assert (Hlo : forall p, log_of h' p = log_of h p) by (intros p; unfold log_of; by rewrite Hcf).
  assert (Hib' : forall p k m, inbox h !! (p, k) = Some m -> 0 <= p < n /\ CommandValid m = true /\ agreed n L' A' m /\
    is_int (am_Command m) /\ (CommandIndex m = 1 \/ is_Some (log_of h' p !! (CommandIndex m - 1)))).
  { intros p k m (? & ? & ? & ? & ?)%Hib. rewrite Hlo. do 2 (split; [done |]).
    split; [by eapply agreed_mono | done]. }
  pose proof Hf as [Hloc Hap _].
  split; [done | by eapply command_inv_exec | by rewrite Hcf | | |].
  - intros p index v Hv. rewrite Hlo in Hv. apply Hlg in Hv. by eapply entry_agreed_mono.
  - cbn in He. destruct (sending ev (cluster h)) as [[q m0] |] eqn:Es.
    + destruct (exec_sends _ _ _ _ _ Hx Es) as (_ & tid & i & c & Ht).
      destruct (full_sending _ _ _ _ _ _ _ _ _ Hf Ht) as (Hq & Hv & Hag & Hix).
      destruct (inbox h !! (q, incarnation h q)) eqn:Ei; [done |]. apply res_bind_Ok in He as ([[] w'] & _ & [= <-]).
      cbn. intros p k m. rewrite lookup_insert. case_decide as E; [| apply Hib'].
      injection E as <- <-. intros [= <-]. do 2 (split; [done |]). split; [by eapply agreed_mono |].
      split; [by apply (cm_threads _ _ Hc _ _ _ Ht) |].
      rewrite Hix. destruct (decide (len (sent_by (cluster h) q) = 0)) as [-> | Hne]; [by left | right].
      pose proof (len_nonneg (sent_by (cluster h) q)).
      destruct (Hor q (len (sent_by (cluster h) q))) as [Hin | (m & Hm & _)]; [lia | | congruence].
      rewrite Hlo. by replace (len (sent_by (cluster h) q) + 1 - 1) with (len (sent_by (cluster h) q)) by lia.
    + apply res_bind_Ok in He as ([[] w'] & _ & [= <-]). apply Hib'.
  - intros p x Hx'. rewrite Hlo. cbn in He. destruct (sending ev (cluster h)) as [[q m0] |] eqn:Es.
    + destruct (exec_sends _ _ _ _ _ Hx Es) as (Hap' & tid & i & c & Ht).
      destruct (full_sending _ _ _ _ _ _ _ _ _ Hf Ht) as (_ & _ & _ & Hix).
      destruct (inbox h !! (q, incarnation h q)) eqn:Ei; [done |]. apply res_bind_Ok in He as ([[] w'] & _ & [= <-]).
      cbn [cluster] in *. unfold sent_by in Hx'. rewrite Hap', lookup_insert in Hx'. case_decide as E.
      * subst q. cbn in Hx'. rewrite len_app in Hx'. change (len [m0]) with 1 in Hx'.
        destruct (decide (x = len (sent_by (cluster h) p) + 1)) as [-> | Hne].
        -- right. exists m0. split; [apply lookup_insert_eq | done].
        -- destruct (Hor p x) as [? | (m & Hm & _)]; [lia | by left | congruence].
      * change (1 <= x <= len (sent_by (cluster h) p)) in Hx'. destruct (Hor p x Hx') as [? | (m & Hm & ?)]; [by left | right].
        exists m. split; [| done]. cbn. rewrite lookup_insert_ne; [done | congruence].
    + apply res_bind_Ok in He as ([[] w'] & _ & [= <-]). cbn [cluster inbox] in *.
      destruct (exec_silent _ _ _ Hx Es) as [(q & mid & tm & -> & Hap') | [Hne Hap']]; unfold sent_by in Hx'; rewrite Hap' in Hx'.
      * rewrite lookup_insert in Hx'. case_decide as E; [unfold len in Hx'; cbn in Hx'; lia |].
        destruct (Hor p x Hx') as [? | (m & Hm & ?)]; [by left | right]. exists m. split; [| done].
        unfold incarnation. cbn. by rewrite lookup_insert_ne by done.
      * destruct (Hor p x Hx') as [? | (m & Hm & ?)]; [by left | right]. exists m. split; [| done].
        unfold incarnation. cbn. by destruct ev; try (by destruct (Hne p0 mid tm)).
Qed.

Lemma read_msg_eq p m v c log : CommandValid m = true -> am_Command m = Some (VInt v) ->
  Config.at_ (Config.logs c) p = Some (Some log) ->
  Forall (fun l => differs (CommandIndex m) v l = false) (Config.logs c) ->
  CommandIndex m <= 1 \/ is_Some (log !! (CommandIndex m - 1)) ->
  exists c', read_msg p m c = Ok (tt, c') /\
    Config.logs c' = <[Z.to_nat p := Some (<[CommandIndex m := v]> log)]> (Config.logs c) /\
    Config.applyErr c' = Config.applyErr c /\ Config.maxIndex c' = CommandIndex m `max` Config.maxIndex c.
Proof.
  intros Hv Hm Hl Hd Hp. unfold read_msg. rewrite Hv, Hm. cbn [negb]. cbv zeta.
  rewrite Config.idx_at, Hl. cbn [mbind res_bind]. rewrite store_in_range by (by eapply Config.at_lt).
  cbn [mbind res_bind]. replace (existsb _ _) with false.
  - cbn [orb option_bind mbind].
    destruct (bool_decide (CommandIndex m > 1)) eqn:E1; [apply bool_decide_eq_true in E1 | apply bool_decide_eq_false in E1].
    + rewrite bool_decide_eq_true_2 by (cbn; destruct Hp; [lia | done]). cbn.
      case_decide; eexists; (split; [reflexivity |]); cbn; (split_and!; [done | done | lia]).
    + cbn. case_decide; eexists; (split; [reflexivity |]); cbn; (split_and!; [done | done | lia]).
  - symmetry. apply not_true_is_false. intros (l & Hin & Hdf)%existsb_exists.
    rewrite Forall_forall in Hd. rewrite (Hd l) in Hdf; [done |]. by apply list_elem_of_In.
Qed.

Lemma shape_log n h p : logs_shape n (hcfg h) -> 0 <= p < n -> Config.at_ (Config.logs (hcfg h)) p = Some (Some (log_of h p)).
Proof.
  intros (Hl & Hs & _) Hp. destruct (Config.at_in (Config.logs (hcfg h)) p) as [x Hx]; [by rewrite Hl |].
  unfold log_of. rewrite Hx. unfold Config.at_ in Hx. case_decide; [| done].
  by destruct (Forall_lookup_1 _ _ _ _ Hs Hx) as [y ->].
Qed.

(** The logs of the harness only grow. *)
Definition logs_grow (h h' : HWorld) : Prop := forall p, log_of h p ⊆ log_of h' p.

#[export] Instance logs_grow_preorder : PreOrder logs_grow.
Proof. split; [intros h p; reflexivity | intros h1 h2 h3 H1 H2 p; by etrans; [apply H1 | apply H2]]. Qed.

Lemma hinv_read n h p k m L A : 0 <= n -> hinv n h L A -> inbox h !! (p, k) = Some m ->
  exists h' v, hexec (HRead p k) h = Ok (tt, h') /\ hinv n h' L A /\ logs_grow h h' /\
    Config.maxIndex (hcfg h') = CommandIndex m `max` Config.maxIndex (hcfg h) /\
    am_Command m = Some (VInt v) /\ log_of h' p !! CommandIndex m = Some v.
Proof.
  intros Hn [Hf Hc Hsh Hlg Hib Hor] Hm. destruct (Hib _ _ _ Hm) as (Hp & Hv & Hag & [v Hcm] & Hprev).
  pose proof (shape_log n h p Hsh Hp) as Hlp. destruct Hsh as (Hlen & Hsome & Herr).
  assert (Hsame : forall q old, log_of h q !! CommandIndex m = Some old -> old = v).
  { intros q old (m' & Hag' & Hix & Hcm')%Hlg.
    pose proof (full_agreed n (cluster h) L A m m' Hn Hf Hag Hag' ltac:(done)) as E. rewrite Hcm, Hcm' in E. by injection E. }
  destruct (read_msg_eq p m v (hcfg h) (log_of h p) Hv Hcm Hlp) as (c' & Hr & Hlogs & He & Hmax).
  { apply Forall_lookup. intros i l Hi. unfold differs. destruct l as [l |]; [| done]. cbn.
    destruct (l !! CommandIndex m) as [old |] eqn:E; [| done]. apply bool_decide_eq_false. intros Hne. apply Hne.
    apply (Hsame (Z.of_nat i)). unfold log_of, Config.at_. rewrite decide_True by lia. rewrite Nat2Z.id, Hi. done. }
  { destruct Hprev as [-> | ?]; [left; lia | by right]. }
  set (h' := mkH (cluster h) c' (inst h) (delete (p, k) (inbox h))).
  assert (Hlo : forall q, log_of h' q = if decide (p = q) then <[CommandIndex m := v]> (log_of h p) else log_of h q).
  { intros q. unfold log_of at 1. cbn. rewrite Hlogs, Config.at_insert by (by eapply Config.at_lt). by case_decide. }
  assert (Hgrow : logs_grow h h').
  { intros q. rewrite Hlo. case_decide; [subst q | done]. apply map_subseteq_spec. intros x y Hx.
    destruct (decide (x = CommandIndex m)) as [-> | Hne]; [| by rewrite lookup_insert_ne].
    rewrite lookup_insert_eq. by rewrite (Hsame _ _ Hx). }
  assert (Hmono : forall q x, is_Some (log_of h q !! x) -> is_Some (log_of h' q !! x)).
  { intros q x [y Hy]. exists y. by eapply lookup_weaken; [| apply Hgrow]. }
  exists h', v. split; [cbn; by rewrite Hm, Hr |].
  split; [| split_and!; try done; rewrite Hlo, decide_True by done; apply lookup_insert_eq].
  split; [done | done | | | |].
  - cbn. split; [by rewrite Hlogs, Config.len_insert |]. rewrite Hlogs, He. split; [by apply Forall_insert |  done].
  - intros q x y. rewrite Hlo. case_decide; [| apply Hlg]. subst q.
    destruct (decide (x = CommandIndex m)) as [-> | Hne]; [| rewrite lookup_insert_ne by done; apply Hlg].
    rewrite lookup_insert_eq. intros [= <-]. by exists m.
  - cbn. intros q k' m' [_ Hq]%lookup_delete_Some. destruct (Hib _ _ _ Hq) as (? & ? & ? & ? & Hpr).
    do 4 (split; [done |]). destruct Hpr as [? | ?]; [by left | right; by apply Hmono].
  - intros q x Hx. destruct (Hor q x Hx) as [Hin | (m' & Hm' & Hix)]; [left; by apply Hmono |].
    destruct (decide ((p, k) = (q, incarnation h q))) as [E | Hne].
    + left. injection E as <- ->. rewrite Hm in Hm'. injection Hm' as <-. rewrite Hlo, decide_True by done.
      subst x. by rewrite lookup_insert_eq.
    + right. exists m'. split; [| done]. cbn. by rewrite lookup_delete_ne.
Qed.

Lemma hinv_step n h h' L A : 0 <= n -> hinv n h L A -> hstep h h' ->
  logs_grow h h' /\ exists L' A', extends L L' /\ A ⊆ A' /\ hinv n h' L' A'.
Proof.
  intros Hn Hi (ev & He & Hev). destruct ev as [ev | p k].
  - destruct Hev as (Hok & Hfit & Hiso). split; [| by eapply hinv_cluster].
    assert (Hc : hcfg h' = hcfg h).
    { cbn in He. destruct (sending ev (cluster h)) as [[p m] |]; [destruct (inbox h !! _); [done |] |];
        by apply res_bind_Ok in He as ([[] w'] & _ & [= <-]). }
    intros p. unfold log_of. by rewrite Hc.
  - destruct (inbox h !! (p, k)) as [m |] eqn:Em; [| cbn in He; by rewrite Em in He].
    destruct (hinv_read n h p k m L A Hn Hi Em) as (h1 & v & E & Hi1 & Hg & _). rewrite He in E. injection E as <-.
    split; [done |]. exists L, A. split; [done |]. by split.
Qed.

Lemma hinv_steps n h h' L A : 0 <= n -> hinv n h L A -> rtc hstep h h' ->
  logs_grow h h' /\ exists L' A', extends L L' /\ hinv n h' L' A'.
Proof.
  intros Hn Hi Hr. revert L A Hi. induction Hr as [h | h1 h2 h3 Hs Hr IH]; intros L A Hi.
  - split; [done |]. exists L, A. by split.
  - destruct (hinv_step n h1 h2 L A Hn Hi Hs) as (Hg & L1 & A1 & HL & _ & Hi1).
    destruct (IH L1 A1 Hi1) as (Hg' & L2 & A2 & HL' & Hi2). split; [by etrans |]. exists L2, A2. split; [by etrans | done].
Qed.

Lemma hreachable_hinv n h : 0 <= n -> hreachable n h -> exists L A, hinv n h L A.
Proof.
  intros Hn [tm Hr]. destruct (hinv_steps n _ h _ _ Hn (hinv_initial n tm Hn) Hr) as (_ & L & A & _ & Hi). eauto.
Qed.

(** ** nCommitted *)

Definition has_entry (index : Z) (r : string * option (gmap Z Z)) : option Z := r.2 ≫= (.!! index).
Definition holders (index : Z) (reads : list (string * option (gmap Z Z))) : Z :=
  len (filter (fun r => is_Some (has_entry index r)) reads).

(** All the values that were read at [index] are [v]. *)
Definition all_hold (index v : Z) (reads : list (string * option (gmap Z Z))) : Prop :=
  forall r x, r ∈ reads -> has_entry index r = Some x -> x = v.

Lemma holders_cons index r reads :
  holders index (r :: reads) = holders index reads + if decide (is_Some (has_entry index r)) then 1 else 0.
Proof.
  unfold holders. rewrite filter_cons. case_decide; [| lia]. rewrite len_cons. lia.
Qed.

(** The loop returns exactly if no error was noted and the values agree. *)
Lemma nCommittedLoop_Ok index reads count cmd count' cmd' : 0 <= count ->
  nCommittedLoop reads index count cmd = Ok (count', cmd') <->
  Forall (fun r => r.1 = "") reads /\ count' = count + holders index reads /\ all_hold index cmd' reads /\
  (0 < count \/ holders index reads = 0 -> cmd' = cmd).
Proof.
  revert count cmd. induction reads as [| [err log] reads IH]; intros count cmd Hc; cbn [nCommittedLoop].
  { change (holders index []) with 0. split.
    - intros [= <- <-]. split_and!; [done | lia | by intros r x ?%not_elem_of_nil | done].
    - intros (_ & -> & _ & Hcmd). rewrite (Hcmd (or_intror eq_refl)). do 2 f_equal. lia. }
  rewrite holders_cons, Forall_cons. cbn [fst].
  assert (Hall : forall v, all_hold index v ((err, log) :: reads) <->
    (forall x, log ≫= (.!! index) = Some x -> x = v) /\ all_hold index v reads).
  { intros v. unfold all_hold. setoid_rewrite elem_of_cons. unfold has_entry at 1. split.
    - intros H. split; [intros x Hx; by apply (H (err, log) x (or_introl eq_refl)) | intros r x Hr; apply H; by right].
    - intros [H1 H2] r x [-> | Hr] Hx; [by apply H1 | by eapply H2]. }
  rewrite Hall. unfold has_entry. cbn [snd].
  pose proof (len_nonneg (filter (fun r => is_Some (has_entry index r)) reads)) as Hh. change (0 <= holders index reads) in Hh.
  case_decide as Herr; [naive_solver |].
  destruct (log ≫= (.!! index)) as [cmd1 |] eqn:E.
  - rewrite (decide_True (P := is_Some (Some cmd1))) by done. case_decide as Hd.
    + split; [done |]. intros (_ & _ & [H1 _] & H2). destruct Hd as [Hd Hne]. destruct Hne.
      rewrite <- H2 by (left; lia). symmetry. by apply H1.
    + rewrite IH by lia. split.
      * intros (He & -> & Ha & Hcmd). assert (cmd' = cmd1) as -> by (apply Hcmd; lia). split_and!; try done; [lia | |].
        -- by intros x [= <-].
        -- intros [Hp | Hz]; [| lia]. destruct (decide (cmd = cmd1)); [done |]. destruct Hd. split; [lia | done].
      * intros ((_ & He) & -> & [H1 Ha] & _). assert (cmd1 = cmd') as -> by (by apply H1). split_and!; try done. lia.
  - rewrite (decide_False (P := is_Some None)) by (by intros [? [=]]). rewrite IH by lia. rewrite Z.add_0_r. naive_solver.
Qed.

Lemma nCommitted_Ok index reads count cmd : nCommitted reads index = Ok (count, cmd) <->
  Forall (fun r => r.1 = "") reads /\ count = holders index reads /\ all_hold index cmd reads /\
  (holders index reads = 0 -> cmd = -1).
Proof.
  unfold nCommitted. rewrite nCommittedLoop_Ok by done. rewrite Z.add_0_l. naive_solver lia.
Qed.

(** What nCommitted reads while the execution runs on to [h]: for each server what
    the harness has at some earlier moment. *)
Definition reads_of (n : Z) (h : HWorld) (reads : list (string * option (gmap Z Z))) : Prop :=
  len reads = n /\
  forall i err log, reads !! i = Some (err, log) -> exists h0, hreachable n h0 /\ rtc hstep h0 h /\
    Config.applyErr (hcfg h0) !! i = Some err /\ Config.logs (hcfg h0) !! i = Some log.

Lemma reads_of_spec n h reads i err log : 0 <= n -> reads_of n h reads -> reads !! i = Some (err, log) ->
  err = "" /\ exists l, log = Some l /\ l ⊆ log_of h (Z.of_nat i).
Proof.
  intros Hn [_ Hr] Hi. destruct (Hr _ _ _ Hi) as (h0 & Hh & Hs & He & Hl).
  destruct (hreachable_hinv n h0 Hn Hh) as (L & A & Hi0). destruct (hi_shape _ _ _ _ Hi0) as (_ & Hsome & Herr).
  split; [exact (Forall_lookup_1 _ _ _ _ Herr He) |]. destruct (Forall_lookup_1 _ _ _ _ Hsome Hl) as [l ->].
  exists l. split; [done |]. destruct (hinv_steps n h0 h L A Hn Hi0 Hs) as [Hg _]. specialize (Hg (Z.of_nat i)).
  unfold log_of at 1, Config.at_ in Hg. by rewrite decide_True, Nat2Z.id, Hl in Hg by lia.
Qed.

Lemma log_of_agree n h p q index v v' : 0 <= n -> hreachable n h ->
  log_of h p !! index = Some v -> log_of h q !! index = Some v' -> v = v'.
Proof.
  intros Hn Hr Hv Hv'. destruct (hreachable_hinv n h Hn Hr) as (L & A & Hi).
  destruct (hi_logs _ _ _ _ Hi _ _ _ Hv) as (m & Ha & Hx & Hc), (hi_logs _ _ _ _ Hi _ _ _ Hv') as (m' & Ha' & Hx' & Hc').
  pose proof (full_agreed n _ L A m m' Hn (hi_full _ _ _ _ Hi) Ha Ha' ltac:(congruence)) as E. congruence.
Qed.

Lemma reads_agree n h reads index : 0 <= n -> hreachable n h -> reads_of n h reads ->
  exists v, all_hold index v reads /\ (holders index reads = 0 -> v = -1).
Proof.
  intros Hn Hr Hreads.
  assert (Hin : forall r x, r ∈ reads -> has_entry index r = Some x -> exists p, log_of h p !! index = Some x).
  { intros [err log] x [i Hi]%list_elem_of_lookup Hx. destruct (reads_of_spec n h reads i err log Hn Hreads Hi) as (_ & l & -> & Hl).
    exists (Z.of_nat i). cbn in Hx. by eapply lookup_weaken. }
  destruct (decide (Exists (fun r => is_Some (has_entry index r)) reads)) as [(r & Hr1 & [v Hv])%Exists_exists | Hno].
  - exists v. split.
    + intros r' x Hr' Hx. destruct (Hin _ _ Hr1 Hv) as [p Hp], (Hin _ _ Hr' Hx) as [q Hq]. by eapply (log_of_agree n h q p).
    + intros Hz. exfalso. unfold holders, len in Hz.
      assert (r ∈ filter (fun r => is_Some (has_entry index r)) reads) as Hf by (apply list_elem_of_filter; eauto).
      destruct (filter _ reads); [by apply not_elem_of_nil in Hf | cbn in Hz; lia].
  - exists (-1). split; [| done]. intros r' x Hr' Hx. destruct Hno. apply Exists_exists. eauto.
Qed.

(** ** one *)

Lemma pollLoop_true polls index cmd k : pollLoop polls index cmd k = Ok true ->
  exists reads, reads ∈ polls /\ all_hold index cmd reads /\ 0 < holders index reads /\ k <= holders index reads.
Proof.
  induction polls as [| reads polls IH]; cbn; [done |].
  intros ([count cmd'] & (_ & -> & Ha & _)%nCommitted_Ok & H)%res_bind_Ok. cbn in H. case_decide as Hd.
  - destruct Hd as (H1 & H2 & ->). exists reads. split_and!; [apply list_elem_of_here | done | lia | lia].
  - destruct (IH H) as (r & Hr & ?). exists r. split; [by apply list_elem_of_further | done].
Qed.

Lemma tryServers_Some k n starts f index : (tryServers k n starts f).1 = index -> index <> -1 ->
  exists s, f s = Some (index, true).
Proof.
  revert starts. induction k as [| k IH]; intros starts; cbn; [by intros <- ? |].
  destruct (f ((starts + 1) `mod` n)) as [[i []] |] eqn:E; cbn; [intros <- _; eauto | apply IH | apply IH].
Qed.

Lemma oneLoop_Ok attempts n starts cmd k retry index : oneLoop attempts n starts cmd k retry = Ok index ->
  exists a s reads, a ∈ attempts /\ a_start a s = Some (index, true) /\ reads ∈ a_polls a /\
    all_hold index cmd reads /\ 0 < holders index reads /\ k <= holders index reads.
Proof.
  revert starts. induction attempts as [| a attempts IH]; intros starts; cbn; [done |].
  assert (Hrec : forall st, oneLoop attempts n st cmd k retry = Ok index ->
    exists a0 s reads, a0 ∈ a :: attempts /\ a_start a0 s = Some (index, true) /\ reads ∈ a_polls a0 /\
      all_hold index cmd reads /\ 0 < holders index reads /\ k <= holders index reads).
  { intros st (a0 & s & reads & Ha & ?)%IH. exists a0, s, reads. split; [by apply list_elem_of_further | done]. }
  case_decide as Hne; [| apply Hrec]. intros ([] & Hp & H)%res_bind_Ok.
  - injection H as E. destruct (tryServers_Some _ _ _ _ _ E) as [s Hs]; [congruence |]. rewrite E in Hp.
    destruct (pollLoop_true _ _ _ _ Hp) as (reads & Hr & ?). exists a, s, reads. split; [apply list_elem_of_here | done].
  - destruct retry; [by eapply Hrec | done].
Qed.

(** The servers whose logs were found to hold [index]. *)
Definition holding (index : Z) (reads : list (string * option (gmap Z Z))) : list Z :=
  filter (fun i => is_Some (reads !! Z.to_nat i ≫= has_entry index)) (seqZ 0 (len reads)).

Lemma filter_ext_in {A} (P Q : A -> Prop) `{!forall x, Decision (P x)} `{!forall x, Decision (Q x)} (l : list A) :
  (forall x, x ∈ l -> P x <-> Q x) -> filter P l = filter Q l.
Proof.
  induction l as [| x l IH]; intros HPQ; [done |]. rewrite !filter_cons.
  rewrite (decide_ext (P x) (Q x)) by (apply HPQ, list_elem_of_here). rewrite IH; [done |].
  intros y Hy. apply HPQ. by apply list_elem_of_further.
Qed.

Lemma holding_snoc index reads r : holding index (reads ++ [r]) =
  holding index reads ++ if decide (is_Some (has_entry index r)) then [len reads] else [].
Proof.
  unfold holding. rewrite len_app. change (len [r]) with 1. rewrite seqZ_app by (auto using len_nonneg || lia).
  rewrite filter_app. f_equal.
  - apply filter_ext_in. intros i Hi%elem_of_seqZ. rewrite lookup_app_l; [done |].
    unfold len in Hi. lia.
  - change (seqZ (0 + len reads) 1) with [Z.of_nat 0 + (0 + len reads)].
    replace (Z.of_nat 0 + (0 + len reads)) with (len reads) by lia. rewrite filter_cons, filter_nil.
    unfold len. rewrite Nat2Z.id, list_lookup_middle by done. done.
Qed.

Lemma holders_snoc index reads r :
  holders index (reads ++ [r]) = holders index reads + if decide (is_Some (has_entry index r)) then 1 else 0.
Proof.
  unfold holders. rewrite filter_app, len_app, filter_cons, filter_nil. by case_decide.
Qed.

Lemma holding_spec index reads : NoDup (holding index reads) /\ len (holding index reads) = holders index reads /\
  forall i, i ∈ holding index reads -> 0 <= i /\ is_Some (reads !! Z.to_nat i ≫= has_entry index).
Proof.
  split; [apply NoDup_filter, NoDup_seqZ |]. split.
  - induction reads as [| r reads IH] using rev_ind; [done |].
    rewrite holding_snoc, holders_snoc, len_app, IH. f_equal. by case_decide.
  - intros i [Hi Hr%elem_of_seqZ]%list_elem_of_filter. split; [lia | done].
Qed.

(** ** Leaders *)

(** The servers that were seen leading term [t], from server [i] on. *)
Fixpoint leaders_of (t : Z) (servers : list (bool * Seen)) (i : Z) : list Z :=
  match servers with
  | [] => []
  | (true, Some (t', true)) :: servers => (if decide (t' = t) then [i] else []) ++ leaders_of t servers (i + 1)
  | _ :: servers => leaders_of t servers (i + 1)
  end.

(** GetState is not called through a nil pointer. *)
Definition no_nil (servers : list (bool * Seen)) : Prop := Forall (fun x => x <> (true, None)) servers.

Lemma leaders_of_elem t servers i j :
  j ∈ leaders_of t servers i <-> i <= j /\ servers !! Z.to_nat (j - i) = Some (true, Some (t, true)).
Proof.
  revert i. induction servers as [| [c s] servers IH]; intros i; cbn [leaders_of].
  { split; [by intros ?%not_elem_of_nil | by intros [_ ?]]. }
  assert (Hstep : forall x, x = (c, s) -> (j ∈ leaders_of t servers (i + 1) <->
    i < j /\ (x :: servers) !! Z.to_nat (j - i) = Some (true, Some (t, true)))).
  { intros x _. rewrite IH. split; intros [H1 H2]; (split; [lia |]).
    - by replace (Z.to_nat (j - i)) with (S (Z.to_nat (j - (i + 1)))) by lia.
    - by replace (Z.to_nat (j - i)) with (S (Z.to_nat (j - (i + 1)))) in H2 by lia. }
  assert (Hhead : forall x, (x :: servers) !! Z.to_nat (i - i) = Some x) by (intros x; by rewrite Z.sub_diag).
  assert (Hsplit : i <= j -> i = j \/ i < j) by lia.
  destruct c; [destruct s as [[t' []] |] |]; rewrite ?elem_of_app; specialize (Hstep _ eq_refl).
  - rewrite Hstep. case_decide as E.
    + rewrite list_elem_of_singleton. split; [intros [-> | [? ?]]; (split; [lia | try done]) |].
      * subst t'. apply Hhead.
      * intros [[-> | ?]%Hsplit ?]; auto.
    + split; [intros [[]%not_elem_of_nil | [? ?]]; (split; [lia | done]) |]. intros [[-> | ?]%Hsplit Hk]; [| auto].
      rewrite Hhead in Hk. by injection Hk.
  - rewrite Hstep. split; [intros [? ?]; split; [lia | done] |]. intros [[-> | ?]%Hsplit Hk]; [by rewrite Hhead in Hk | auto].
  - rewrite Hstep. split; [intros [? ?]; split; [lia | done] |]. intros [[-> | ?]%Hsplit Hk]; [by rewrite Hhead in Hk | auto].
  - rewrite Hstep. split; [intros [? ?]; split; [lia | done] |]. intros [[-> | ?]%Hsplit Hk]; [by rewrite Hhead in Hk | auto].
Qed.

Lemma leaders_of_NoDup t servers i : NoDup (leaders_of t servers i).
Proof.
  revert i. induction servers as [| [[] [[t' []] |]] servers IH]; intros i; cbn; try apply IH; [apply NoDup_nil_2 |].
  case_decide; [| apply IH]. apply NoDup_cons. split; [| apply IH]. intros [? _]%leaders_of_elem. lia.
Qed.

Lemma collectLeaders_spec servers i acc : no_nil servers ->
  exists m, collectLeaders servers i acc = Ok m /\
    forall t, m !! t = match leaders_of t servers i with [] => acc !! t | ls => Some (default [] (acc !! t) ++ ls) end.
Proof.
  revert i acc. induction servers as [| [c s] servers IH]; intros i acc Hn; cbn [collectLeaders leaders_of]; [eauto |].
  apply Forall_cons in Hn as [Hx Hn]. destruct c; [destruct s as [[t' []] |] |]; [| by apply IH | done | by apply IH].
  destruct (IH (i + 1) (<[t' := default [] (acc !! t') ++ [i]]> acc) Hn) as (m & Hm & Hl). exists m. split; [done |].
  intros t. rewrite Hl. rewrite lookup_insert. case_decide as E; [subst t' | done]. cbn.
  destruct (leaders_of t servers (i + 1)); [done |]. by rewrite <- app_assoc.
Qed.

Lemma lastTermLoop_spec entries t0 : Forall (fun x => len x.2 <= 1) entries ->
  exists t, lastTermLoop entries t0 = Ok t /\ t0 <= t /\ (t = t0 \/ t ∈ entries.*1) /\ forall x, x ∈ entries -> x.1 <= t.
Proof.
  revert t0. induction entries as [| [t1 ls] entries IH]; intros t0 Hs; cbn [lastTermLoop].
  { exists t0. split_and!; [done | lia | by left | by intros x ?%not_elem_of_nil]. }
  apply Forall_cons in Hs as [Hls Hs]. cbn in Hls. rewrite decide_False by lia.
  destruct (IH (if decide (t1 > t0) then t1 else t0) Hs) as (t & Ht & Hge & Hin & Hmax). exists t. split; [done |].
  cbn [fmap list_fmap fst]. setoid_rewrite elem_of_cons. split_and!.
  - case_decide; lia.
  - destruct Hin as [-> | ?]; [case_decide; auto | auto].
  - intros x [-> | Hx]; [cbn; case_decide; lia | by apply Hmax].
Qed.

Section one_leader.
(** [servers] was read while no term had two leaders, and terms are positive. *)
Context (range : gmap Z (list Z) -> list (Z * list Z)).
Hypothesis range_perm : forall m, range m ≡ₚ map_to_list m.

Definition single (servers : list (bool * Seen)) : Prop := no_nil servers /\
  (forall i j t, servers !! i = Some (true, Some (t, true)) -> servers !! j = Some (true, Some (t, true)) -> i = j) /\
  (forall i t, servers !! i = Some (true, Some (t, true)) -> 0 < t).

(** Server [i] was seen leading the highest term with a leader. *)
Definition newest (servers : list (bool * Seen)) (i : Z) : Prop := exists t, 0 <= i /\
  servers !! Z.to_nat i = Some (true, Some (t, true)) /\
  forall j t', servers !! j = Some (true, Some (t', true)) -> t' < t \/ j = Z.to_nat i.

Lemma leaders_of_short servers t : single servers -> len (leaders_of t servers 0) <= 1.
Proof.
  intros (_ & Hu & _). pose proof (leaders_of_NoDup t servers 0) as Hnd.
  pose proof (leaders_of_elem t servers 0) as He. destruct (leaders_of t servers 0) as [| a [| b ls]]; [done | done |].
  exfalso. destruct (proj1 (He a)) as [Ha1 Ha2]; [set_solver |]. destruct (proj1 (He b)) as [Hb1 Hb2]; [set_solver |].
  assert (a = b) as ->. { pose proof (Hu _ _ _ Ha2 Hb2). lia. }
  apply NoDup_cons in Hnd as [Hnin _]. set_solver.
Qed.

Lemma checkOneLeader_spec iters : Forall single iters ->
  (exists servers i, servers ∈ iters /\ checkOneLeader range iters = Ok i /\ newest servers i) \/
  checkOneLeader range iters = Fatal /\ forall servers i t, servers ∈ iters -> servers !! i <> Some (true, Some (t, true)).
Proof.
  induction iters as [| servers iters IH]; intros Hs; cbn [checkOneLeader].
  { right. split; [done |]. by intros ? ? ? ?%not_elem_of_nil. }
  apply Forall_cons in Hs as [Hx Hs]. destruct (collectLeaders_spec servers 0 ∅ (proj1 Hx)) as (m & -> & Hm).
  cbn [mbind res_bind].
  assert (Hm' : forall t ls, m !! t = Some ls <-> ls = leaders_of t servers 0 /\ ls <> []).
  { intros t ls. rewrite Hm, lookup_empty. destruct (leaders_of t servers 0); naive_solver. }
  destruct (lastTermLoop_spec (range m) (-1)) as (t & -> & Hge & Hin & Hmax).
  { apply Forall_forall. intros [t ls]. rewrite range_perm, elem_of_map_to_list, Hm'. intros [-> _].
    by apply leaders_of_short. }
  cbn [mbind res_bind]. case_decide as Em.
  - destruct (IH Hs) as [(sv & i & Hsv & Hi) | [Hf Hno]].
    + left. exists sv, i. split; [by apply list_elem_of_further | done].
    + right. split; [done |]. intros sv i t' [-> | Hsv]%elem_of_cons; [| by apply Hno]. intros Hl.
      assert (Hj : Z.of_nat i ∈ leaders_of t' servers 0) by (apply leaders_of_elem; split; [lia |]; by rewrite Z.sub_0_r, Nat2Z.id).
      assert (is_Some (m !! t')) as [ls Hls]. { rewrite Hm. destruct (leaders_of t' servers 0); [by apply not_elem_of_nil in Hj | done]. }
      subst m. by rewrite lookup_empty in Hls.
  - left. assert (Hdom : is_Some (m !! t)).
    { apply map_choose in Em as (t1 & ls & Hls). destruct Hin as [-> | Hin].
      - exfalso. pose proof Hls as Hls'. apply Hm' in Hls' as [-> Hne].
        assert (Hle : t1 <= -1) by (apply (Hmax (t1, leaders_of t1 servers 0)); rewrite range_perm; by apply elem_of_map_to_list).
        destruct (leaders_of t1 servers 0) as [| j js] eqn:E; [done |].
        destruct (proj1 (leaders_of_elem t1 servers 0 j)) as [_ Hj]; [rewrite E; set_solver |].
        destruct Hx as (_ & _ & Hpos). pose proof (Hpos _ _ Hj). lia.
      - apply list_elem_of_fmap in Hin as ([t2 ls2] & -> & Hin). rewrite range_perm in Hin. apply elem_of_map_to_list in Hin. by eexists. }
    destruct Hdom as [ls Hls]. rewrite Hls. cbn [default from_option]. unfold id. apply Hm' in Hls as [-> Hne].
    pose proof (leaders_of_short servers t Hx) as Hshort. pose proof (leaders_of_elem t servers 0) as He.
    destruct (leaders_of t servers 0) as [| i [| ? ?]]; [done | | rewrite !len_cons in Hshort; pose proof (len_nonneg l); lia].
    destruct (proj1 (He i)) as [Hi0 Hi]; [set_solver |]. rewrite Z.sub_0_r in Hi.
    exists servers, i. split; [apply list_elem_of_here |]. split; [done |]. exists t. split; [done |]. split; [done |].
    intros j t' Hj. assert (Hin' : Z.of_nat j ∈ leaders_of t' servers 0) by (apply leaders_of_elem; split; [lia |]; by rewrite Z.sub_0_r, Nat2Z.id).
    assert (Hle : t' <= t).
    { apply (Hmax (t', leaders_of t' servers 0)). rewrite range_perm. apply elem_of_map_to_list, Hm'. split; [done |].
      intros E. rewrite E in Hin'. by apply not_elem_of_nil in Hin'. }
    destruct (decide (t' = t)) as [-> | ?]; [right | left; lia]. by apply (proj1 (proj2 Hx) _ _ t).
Qed.
End one_leader.

(** Moments of one execution. *)
Definition moments (n : Z) (hs : list HWorld) : Prop :=
  (forall h, h ∈ hs -> hreachable n h) /\
  (forall h h', h ∈ hs -> h' ∈ hs -> rtc hstep h h' \/ rtc hstep h' h).

(** Each connected server was asked for its state at one of these moments. *)
Definition seen_at (hs : list HWorld) (servers : list (bool * Seen)) : Prop :=
  forall i s, servers !! i = Some (true, s) -> exists h rf x, h ∈ hs /\ peers (cluster h) !! Z.of_nat i = Some rf /\
    GetState rf = Ok (x, rf) /\ s = Some x.

Lemma GetState_value rf x : GetState rf = Ok (x, rf) -> x.1 = CurrentTerm rf /\ (x.2 = true <-> state rf = Leader).
Proof.
  intros H. pose proof (GetState_Ok _ _ _ H) as [_ H2]. split; [| done]. unfold GetState in H. by sec_inv.
Qed.

(** A term has one leader, now and later. *)
Lemma leader_forever n h h' p q rf rf' : 0 <= n -> hreachable n h -> rtc hstep h h' ->
  peers (cluster h) !! p = Some rf -> state rf = Leader -> peers (cluster h') !! q = Some rf' -> state rf' = Leader ->
  CurrentTerm rf = CurrentTerm rf' -> p = q.
Proof.
  intros Hn Hr Hs Hp Hl Hq Hl' HT. destruct (hreachable_hinv n h Hn Hr) as (L & A & Hi).
  destruct (hinv_steps n h h' L A Hn Hi Hs) as (_ & L' & A' & HL & Hi').
  destruct (fl_safe _ _ _ _ (hi_full _ _ _ _ Hi)) as (G & C & K & Hlg & _).
  destruct (fl_safe _ _ _ _ (hi_full _ _ _ _ Hi')) as (G' & C' & K' & Hlg' & _).
  pose proof (lg_leader _ _ _ _ Hlg _ _ Hp Hl) as H1. pose proof (lg_leader _ _ _ _ Hlg' _ _ Hq Hl') as H2.
  apply HL in H1 as [k H1]. rewrite HT, H2 in H1. by injection H1.
Qed.

Lemma seen_single n hs servers : 0 <= n -> moments n hs -> seen_at hs servers -> single servers.
Proof.
  intros Hn [Hr Hcmp] Hseen.
  assert (Hlead : forall i t, servers !! i = Some (true, Some (t, true)) -> exists h rf, h ∈ hs /\
    peers (cluster h) !! Z.of_nat i = Some rf /\ state rf = Leader /\ CurrentTerm rf = t).
  { intros i t (h & rf & x & Hh & Hp & Hg & [= <-])%Hseen. apply GetState_value in Hg as [H1 H2].
    exists h, rf. split_and!; try done. by apply H2. }
  split_and!.
  - apply Forall_lookup. intros i x Hx ->. by destruct (Hseen _ _ Hx) as (_ & _ & _ & _ & _ & _ & [=]).
  - intros i j t (h & rf & Hh & Hp & Hl & HT)%Hlead (h' & rf' & Hh' & Hp' & Hl' & HT')%Hlead.
    enough (Z.of_nat i = Z.of_nat j) by lia. destruct (Hcmp h h' Hh Hh') as [Hs | Hs].
    + eapply (leader_forever n h h'); eauto. congruence.
    + symmetry. eapply (leader_forever n h' h); eauto. congruence.
  - intros i t (h & rf & Hh & Hp & Hl & <-)%Hlead. destruct (hreachable_hinv n h Hn (Hr h Hh)) as (L & A & Hi).
    pose proof (li_peers _ _ (fl_local _ _ _ _ (hi_full _ _ _ _ Hi)) _ _ Hp) as Hw.
    pose proof (pw_active _ _ _ Hw ltac:(by rewrite Hl)). lia.
Qed.

(** ** Running an execution with its readers *)

#[export] Instance is_int_dec c : Decision (is_int c).
Proof.
  refine (match c with Some (VInt v) => left (ex_intro _ v eq_refl) | _ => right _ end); by intros [v [=]].
Defined.
#[export] Instance event_ok_int_dec ev : Decision (event_ok is_int ev).
Proof. destruct ev; cbn; apply _. Defined.

Definition hallowed (ev : HEvent) (h h' : HWorld) : bool :=
  match ev with
  | HCluster ev => bool_decide (event_ok is_int ev /\ terms_fit (cluster h) /\ isolated (cluster h) (cluster h'))
  | HRead _ _ => true
  end.

Fixpoint hrun (evs : list HEvent) (h : HWorld) : option HWorld :=
  match evs with
  | [] => Some h
  | ev :: evs =>
      match hexec ev h with
      | Ok (_, h') => if hallowed ev h h' then hrun evs h' else None
      | _ => None
      end
  end.

Lemma hrun_rtc evs h h' : hrun evs h = Some h' -> rtc hstep h h'.
Proof.
  revert h. induction evs as [| ev evs IH]; intros h; cbn; [by intros [= ->] |].
  destruct (hexec ev h) as [[[] h1] | | |] eqn:E; [| done..]. destruct (hallowed ev h h1) eqn:Ea; [| done].
  intros Hr. eapply rtc_l; [| by apply IH]. exists ev. split; [done |].
  destruct ev; [by apply bool_decide_eq_true in Ea | done].
Qed.

(** ** Properties *)


(** What nCommitted returns.  Whatever moments of an isolated execution it reads
    the logs at, one after the other, nCommitted returns: it finds no error and
    never two values for the index.  It returns how many servers had the index in
    their logs when they were read, and the value that all of them have, or -1. *)
Theorem nCommitted_counts n h reads index : 0 <= n -> hreachable n h -> reads_of n h reads ->
  exists cmd, nCommitted reads index = Ok (holders index reads, cmd) /\ all_hold index cmd reads /\
    (holders index reads = 0 -> cmd = -1).
Proof.
  intros Hn Hr Hreads. destruct (reads_agree n h reads index Hn Hr Hreads) as (v & Hall & Hz). exists v.
  split; [| done]. apply nCommitted_Ok. split_and!; try done. apply Forall_lookup. intros i [err log] Hi.
  by destruct (reads_of_spec n h reads i err log Hn Hreads Hi) as [-> _].
Qed.

(** C38: one() tells the truth.  If it returns [index], then some server accepted
    the command at that index; at least [expectedServers] servers, and at least one,
    have applied exactly this command there; and no server has applied another. *)
Theorem one_correct n h attempts cmd expectedServers retry index : 0 <= n -> hreachable n h ->
  (forall a reads, a ∈ attempts -> reads ∈ a_polls a -> reads_of n h reads) ->
  one attempts n cmd expectedServers retry = Ok index ->
  (exists a s, a ∈ attempts /\ a_start a s = Some (index, true)) /\
  (exists servers, NoDup servers /\ 0 < len servers /\ expectedServers <= len servers /\
     forall p, p ∈ servers -> log_of h p !! index = Some cmd) /\
  forall p v, log_of h p !! index = Some v -> v = cmd.
Proof.
  intros Hn Hr Hreads H. destruct (oneLoop_Ok _ _ _ _ _ _ _ H) as (a & s & reads & Ha & Hs & Hp & Hall & Hpos & Hk).
  destruct (holding_spec index reads) as (Hnd & Hlen & Hin). specialize (Hreads a reads Ha Hp).
  assert (Hhold : forall p, p ∈ holding index reads -> log_of h p !! index = Some cmd).
  { intros p (Hp0 & v & Hv)%Hin. apply bind_Some in Hv as ([err log] & Hr1 & Hv).
    destruct (reads_of_spec n h reads _ err log Hn Hreads Hr1) as (_ & l & -> & Hl). rewrite Z2Nat.id in Hl by done.
    rewrite <- (Hall (err, Some l) v); [exact (lookup_weaken _ _ _ _ Hv Hl) | by eapply list_elem_of_lookup_2 | done]. }
  split; [eauto |]. split.
  - exists (holding index reads). rewrite Hlen. auto.
  - intros p v Hv. destruct (holding index reads) as [| q qs] eqn:Eh; [rewrite len_nil in Hlen; lia |].
    eapply (log_of_agree n h p q); [done | done | done |]. apply Hhold, list_elem_of_here.
Qed.


(** wait() likewise: a value it returns is the one that at least [k] servers had
    applied at [index] when it last read them, or it is -1 because a server was seen
    in a later term than [startTerm]. *)
Theorem wait_correct rounds last index k startTerm v : wait rounds last index k startTerm = Ok v ->
  (v = -1 /\ -1 < startTerm /\ exists r t l, r ∈ rounds /\ Some (t, l) ∈ r_terms r /\ startTerm < t) \/
  (k <= holders index last /\ all_hold index v last).
Proof.
  unfold wait. intros (gone & Hg & H)%res_bind_Ok. destruct gone.
  - left. injection H as <-. split; [done |].
    assert (Hm : forall terms, movedOn startTerm terms = Ok true -> exists t l, Some (t, l) ∈ terms /\ startTerm < t).
    { induction terms as [| [[t l] |] terms IH]; cbn; [done | | done]. case_decide.
      - intros _. exists t, l. split; [apply list_elem_of_here | lia].
      - intros (t' & l' & ? & ?)%IH. exists t', l'. split; [by apply list_elem_of_further | done]. }
    induction rounds as [| r rounds IH]; cbn in Hg; [done |].
    apply res_bind_Ok in Hg as (x & _ & Hg). case_decide; [done |]. apply res_bind_Ok in Hg as (b & Hb & Hg).
    destruct b.
    + case_decide; [| done]. split; [lia |]. destruct (Hm _ Hb) as (t & l & ? & ?).
      exists r, t, l. split; [apply list_elem_of_here | done].
    + destruct (IH Hg) as (? & r' & t & l & ? & ?). split; [done |]. exists r', t, l.
      split; [by apply list_elem_of_further | done].
  - right. apply res_bind_Ok in H as ([count cmd] & (_ & -> & Ha & _)%nCommitted_Ok & H). cbn in H.
    case_decide; [done |]. injection H as <-. split; [lia | done].
Qed.

(** What checkTerms promises about the servers it has looked at. *)
Definition terms_verdict (servers : list (bool * Seen)) (r : res Z) : Prop :=
  match r with
  | Ok term => forall i t l, servers !! i = Some (true, Some (t, l)) -> t = term
  | Fatal => exists i j t t' l l', servers !! i = Some (true, Some (t, l)) /\
      servers !! j = Some (true, Some (t', l')) /\ t <> t'
  | _ => False
  end.

Lemma checkTermsLoop_spec servers rest pre term : no_nil servers ->
  (forall i t l, servers !! i = Some (true, Some (t, l)) -> 0 <= t) -> servers = pre ++ rest ->
  (forall i t l, pre !! i = Some (true, Some (t, l)) -> t = term) ->
  (term = -1 \/ exists i l, pre !! i = Some (true, Some (term, l))) ->
  terms_verdict servers (checkTermsLoop rest term).
Proof.
  intros Hn Hpos. revert pre term. induction rest as [| [c s] rest IH]; intros pre term Hs Hpre Hseen; cbn [checkTermsLoop].
  { rewrite app_nil_r in Hs. by subst. }
  assert (Hhere : servers !! length pre = Some (c, s)) by (rewrite Hs; by apply list_lookup_middle).
  assert (Hup : forall i x, pre !! i = Some x -> servers !! i = Some x) by (intros; rewrite Hs; by apply lookup_app_l_Some).
  assert (Hnext : forall term', (forall t l, (c, s) = (true, Some (t, l)) -> t = term') ->
    (forall i t l, pre !! i = Some (true, Some (t, l)) -> t = term') ->
    (term' = -1 \/ exists i l, (pre ++ [(c, s)]) !! i = Some (true, Some (term', l))) ->
    terms_verdict servers (checkTermsLoop rest term')).
  { intros term' H1 H2 H3. apply (IH (pre ++ [(c, s)])); [by rewrite <- app_assoc | | done].
    intros i t l [? | [_ Hx]]%lookup_app_Some; [by eapply H2 |]. apply list_lookup_singleton_Some in Hx as [_ E]. by eapply H1. }
  assert (Hlast : forall x, x = (c, s) -> (pre ++ [(c, s)]) !! length pre = Some x) by (intros x ->; by apply list_lookup_middle).
  destruct c; [destruct s as [[t l] |] |].
  - case_decide as E1; [| case_decide as E2].
    + apply Hnext; [by intros ? ? [= -> ->] | | right; exists (length pre), l; by apply Hlast].
      intros i t' l' Hi. pose proof (Hpre _ _ _ Hi). apply Hup, Hpos in Hi. lia.
    + destruct Hseen as [? | (i & l' & Hi)]; [done |]. exists i, (length pre), term, t, l', l. split; [by apply Hup | done].
    + assert (t = term) as -> by (destruct (decide (term = t)); [done | by destruct E2]).
      apply Hnext; [by intros ? ? [= -> ->] | done | right; exists (length pre), l; by apply Hlast].
  - exact (Forall_lookup_1 _ _ _ _ Hn Hhere eq_refl).
  - apply Hnext; [done | done |]. destruct Hseen as [? | (i & l & Hi)]; [by left | right].
    exists i, l. by apply lookup_app_l_Some.
Qed.

Lemma checkNoLeader_iff servers : no_nil servers ->
  checkNoLeader servers = Ok tt <-> forall i t, servers !! i <> Some (true, Some (t, true)).
Proof.
  intros Hn. induction servers as [| [c s] servers IH]; [done |].
  apply Forall_cons in Hn as [Hx Hn]. specialize (IH Hn).
  assert (Htl : (forall i t, (((c, s) :: servers) : list (bool * Seen)) !! i <> Some (true, Some (t, true))) <->
    (forall t, (c, s) <> (true, Some (t, true))) /\ forall i t, servers !! i <> Some (true, Some (t, true))).
  { split; [intros H; split; [intros t E; apply (H 0%nat t); by rewrite <- E | intros i t; apply (H (S i) t)] |].
    intros [H1 H2] [| i] t; [intros [= -> ->]; by apply (H1 t) | apply H2]. }
  rewrite Htl, <- IH. destruct c; [destruct s as [[t []] |] |]; cbn; [| naive_solver | done | naive_solver].
  split; [done |]. intros [H _]. by destruct (H t).
Qed.

(** checkTerms() returns the term of every connected server, or reports that two
    of them differ; checkNoLeader() returns exactly if no connected server leads. *)
Theorem checkTerms_correct servers : no_nil servers ->
  (forall i t l, servers !! i = Some (true, Some (t, l)) -> 0 <= t) ->
  terms_verdict servers (checkTerms servers) /\
  (checkNoLeader servers = Ok tt <-> forall i t, servers !! i <> Some (true, Some (t, true))).
Proof.
  intros Hn Hpos. split; [| by apply checkNoLeader_iff]. apply (checkTermsLoop_spec servers servers []); auto. done.
Qed.

(** ** An execution with its readers

    Server 0 leads term 1; a command is committed and read from servers 0 and 1. *)
Definition checked_events : list HEvent := (HCluster <$> agreement) ++ [HRead 0 0; HRead 1 0].

Definition at_end (evs : list HEvent) : HWorld := default (hinitial 3 t0) (hrun evs (hinitial 3 t0)).
Definition before_read : HWorld := at_end (HCluster <$> agreement).
Definition after_read : HWorld := at_end checked_events.

Lemma at_end_reachable evs : bool_decide (is_Some (hrun evs (hinitial 3 t0))) = true -> hreachable 3 (at_end evs).
Proof.
  unfold at_end. intros [h Hh]%bool_decide_eq_true. exists t0. rewrite Hh. by apply (hrun_rtc evs).
Qed.

Lemma before_read_reachable : hreachable 3 before_read.
Proof. apply at_end_reachable. vm_compute. reflexivity. Qed.
Lemma after_read_reachable : hreachable 3 after_read.
Proof. apply at_end_reachable. vm_compute. reflexivity. Qed.


(** What nCommitted reads at the end. *)
Definition final_reads : list (string * option (gmap Z Z)) :=
  zip (Config.applyErr (hcfg after_read)) (Config.logs (hcfg after_read)).

Lemma final_reads_of : reads_of 3 after_read final_reads.
Proof.
  split; [vm_compute; reflexivity |]. intros i err log Hi. exists after_read. split; [apply after_read_reachable |].
  split; [constructor |]. unfold final_reads in Hi. apply lookup_zip_with_Some in Hi as (e & l & [= -> ->] & He & Hl).
  split; [exact He | exact Hl].
Qed.

Lemma nCommitted_counts_witness : exists cmd, nCommitted final_reads 1 = Ok (2, cmd) /\ all_hold 1 cmd final_reads.
Proof.
  destruct (nCommitted_counts 3 after_read final_reads 1 ltac:(lia) after_read_reachable final_reads_of) as (cmd & E & Ha & _).
  exists cmd. assert (Hh : holders 1 final_reads = 2) by (vm_compute; reflexivity). rewrite Hh in E. split; [exact E | exact Ha].
Defined.

(** one(10, 2, false): server 0 accepts the command at index 1. *)
Definition final_attempt : Attempt :=
  mkAttempt (fun s => if decide (s = 0) then Some (1, true) else Some (-1, false)) [final_reads].

Lemma one_correct_witness : one [final_attempt] 3 10 2 false = Ok 1 /\
  exists servers, NoDup servers /\ 2 <= len servers /\ forall p, p ∈ servers -> log_of after_read p !! 1 = Some 10.
Proof.
  assert (E : one [final_attempt] 3 10 2 false = Ok 1) by (vm_compute; reflexivity). split; [exact E |].
  destruct (one_correct 3 after_read [final_attempt] 10 2 false 1 ltac:(lia) after_read_reachable) as (_ & (sv & Hnd & _ & Hk & Hl) & _).
  - intros a reads Ha Hr. apply list_elem_of_singleton in Ha as ->. apply list_elem_of_singleton in Hr as ->. apply final_reads_of.
  - exact E.
  - exists sv. split; [exact Hnd |]. split; [exact Hk | exact Hl].
Defined.

(** What the servers of [h] answer, all of them connected. *)
Definition states_of (h : HWorld) (n : Z) : list (bool * Seen) :=
  (fun i => (true, match peers (cluster h) !! i with
                   | Some rf => match GetState rf with Ok (x, _) => Some x | _ => None end
                   | None => None
                   end)) <$> seqZ 0 n.

Lemma states_of_seen h n : (forall i, 0 <= i < n -> is_Some (peers (cluster h) !! i)) -> seen_at [h] (states_of h n).
Proof.
  intros Hp i s Hi. unfold states_of in Hi. apply list_lookup_fmap_Some in Hi as (p & E & Hi).
  apply lookup_seqZ in Hi as [-> Hlt]. rewrite Z.add_0_l in E. destruct (Hp (Z.of_nat i)) as [rf Hrf]; [lia |].
  rewrite Hrf in E. injection E as ->. eexists h, rf, _. split; [by apply list_elem_of_singleton |].
  split; [exact Hrf |]. split; reflexivity.
Qed.

(** At the end server 1 leads term 2. *)
Definition final_states : list (bool * Seen) := states_of after_read 3.

Lemma final_seen : seen_at [after_read] final_states.
Proof.
  apply states_of_seen. intros i Hi. assert (i = 0 \/ i = 1 \/ i = 2) as [-> | [-> | ->]] by lia;
    apply (bool_decide_eq_true_1 _); vm_compute; reflexivity.
Qed.

